(* ===== verification/_CoqProject ===== *)
-Q . S2P
Prelude.v
GoStrings.v
Errors.v
Effects.v
Hoare.v
Paths.v
Capability.v
Contracts.v
Iterator.v
Digest.v
Memory.v
MemoryList.v
MemoryConc.v
Decorator.v
DecoratorPolicy.v
DecoratedMemory.v
IOFS.v
IOFSMemory.v
Fault.v
StreamWriter.v
Redact.v
S3.v
S3Spec.v
S3Store.v
R2.v
Remote.v
Proxy.v
ProxyConc.v
RemoteNames.v
Reading.v
Interfaces.v
Conformance.v
ConformanceMemory.v
ConformanceSim.v
ConformancePrefix.v
S3Mem.v
Walk.v
FileInfo.v
Publish.v
Sftp.v
SftpServer.v
SftpSessions.v
SftpNames.v
SftpWrite.v
SftpSpec.v
SftpMem.v
Ftp.v
FtpServer.v
FtpSessions.v
FtpWrite.v
FtpSpec.v
FtpStream.v
FtpMem.v
RenameInfo.v
Ingest.v
LocalRename.v
Local.v
LocalOS.v
LocalWrite.v
LocalRead.v
LocalList.v
LocalMem.v
ConformanceDirs.v
ConformanceLocal.v
ConformanceSftp.v
