(* ===== verification/Prelude.v ===== *)
(** * Verification of go-filesystem

    This library models [github.com/faustbrian/go-filesystem], a capability-based
    filesystem abstraction for Go, and proves the properties its parts rely on.
    It is a shallow embedding: pure Go functions are functions, fallible ones
    return a [result] (a value, an [error] or a panic), operations on shared state
    are computations of a state monad that also carries a logical time, and the
    concurrent parts are step relations.

    ** The program and the files that model it

    - [Prelude.v]: byte strings, [len], 64-bit wrap-around, slice expressions.
    - [GoStrings.v]: the parts of [strings], [path], [unicode/utf8], [unicode] and
      [slices] that the sources use, with their lemmas.
    - [Errors.v] ([errors.go]): error trees, the sentinels, [errors.Is].
    - [Effects.v]: [result], contexts and the monad.  A context is never done or
      done from a time on with a cause; every observation of a context or a clock
      advances the time by one, so a cancellation can fall between any two
      observations of one call, and statements quantify over all contexts.
    - [Hoare.v]: Hoare triples and kept invariants for the monad.
    - [Paths.v] ([path.go]): [Path], [ParsePath], [Join], [Dir], [Base].
    - [Capability.v] ([capability.go]), [Contracts.v] ([contracts.go]): capability
      sets, options, metadata, byte streams and the [EntryIterator] interface as a
      type class; [Iterator.v]: the slice iterator every adapter declares;
      [Interfaces.v]: the capability interfaces, one record each, and [io.ReadCloser]
      and [io.WriteCloser] as type classes.
    - [Digest.v]: [hex], MD5, SHA-256 and CRC-32C, executable, so that checksums
      can be compared.
    - [Memory.v], [MemoryList.v], [MemoryConc.v] ([memory/memory.go]): the in-memory
      adapter; its map of objects is a [gmap], and [MapRange] is the order in
      which Go ranges over it, left open.  [MemoryConc.v] interleaves the two
      steps of concurrent writers.
    - [Decorator.v] ([decorator/decorator.go]): prefixing, read-only, checksum,
      retry and observer decorators over a [Backend], the record of the adapter
      interfaces; [DecoratorPolicy.v] holds what each policy guarantees over any
      backend, [DecoratedMemory.v] instantiates the backend with the in-memory
      adapter.
    - [IOFS.v] ([iofs.go]): the [io/fs] bridge over abstract reading interfaces;
      [IOFSMemory.v]: the bridge over the in-memory adapter.
    - [StreamWriter.v] ([internal/streamwriter/writer.go]): producer, consumer, pipe
      and cancellation of a streaming upload as a step relation.
    - [Fault.v] ([fstest/fault.go]): the fault-injection reader, writer, iterator.
    - [Proxy.v], [ProxyConc.v] ([fstest/proxy.go]): the TCP fault proxy, what one
      direction forwards, and its goroutines with their shutdown as a step relation.
    - [Conformance.v] ([fstest/conformance.go]): the suite as a program over the
      capability interfaces, a running test being the adapter's state with the
      failures logged.  [ConformanceMemory.v] runs it on the in-memory adapter;
      [ConformanceSim.v] shows that a simulation carries its verdict over, and
      [ConformancePrefix.v] uses it for prefixed decorators; [ConformanceLocal.v] and
      [ConformanceSftp.v] run it on the local and SFTP adapters over the in-memory
      systems of [ConformanceDirs.v].
    - [Redact.v] ([internal/redact/redact.go]): the redaction of an error's text.
    - [S3.v], [S3Spec.v] ([s3/s3.go]): the S3 adapter over a record of SDK clients;
      [S3Store.v]: what the service documents (the class [S3Service]) and the adapter
      as an object store against it; [S3Mem.v]: a bucket that meets the class, and the
      suite run over it.
    - [R2.v] ([r2/r2.go]): the construction of an R2 adapter over the S3 transport.
    - [Remote.v], [RemoteNames.v], [Walk.v]: what the SFTP and FTP packages declare
      alike: the mutable fields of an adapter as a [world] beside the remote state,
      the shared session with its reconnection, remote names below a validated root,
      and the bounded directory walk.
    - [FileInfo.v], [Publish.v]: files as [io/fs] describes them, and the steps of a
      publication through a temporary file, shared by the SFTP and local adapters;
      [Reading.v]: readers that serve a known content, and [io.Copy] from them.
    - [Sftp.v] ([sftp/sftp.go]): the SFTP adapter over records of the calls of the SSH
      and SFTP libraries, the connector and [realSession] included.  [SftpServer.v] states
      what a server promises of files and handles (the class [SftpServer]);
      [SftpSessions.v] what the libraries promise of connections (the class
      [SftpTransport]) and who owns them; [SftpNames.v] notes every name the client is
      given; [SftpWrite.v] is atomic publication, [SftpSpec.v] the bounded listing;
      [SftpMem.v] is a server that meets the classes.
    - [Ftp.v] ([ftp/ftp.go]): the FTP adapter over a protocol client.  The goroutine that
      [connect] starts is a state machine ([stage]); when a context abandons it, it stays
      in the [flight] of the model and moves when an arbitrary schedule says so.
      [FtpServer.v] (the class [FtpServer], files), [FtpSessions.v] (the class
      [FtpConnections], clients), [FtpWrite.v], [FtpSpec.v] and [FtpMem.v] follow the SFTP
      files; [FtpStream.v] is the read stream, its transfer, replay and cancellation
      watcher, as a step relation.
    - [Local.v] ([local/local.go], [local/rename.go]): the local adapter over a record
      of [os.Root] operations, with [fs.WalkDir].  [LocalRename.v] and [RenameInfo.v]
      ([local/rename_*.go]) are the native exclusive renames and the bytes of the
      Windows rename record.  [LocalOS.v] states what the system promises (the class
      [OsRoot]), derives the exclusive rename from the native call and proves the
      ownership of the root handle; [LocalWrite.v] holds publication and moves,
      [LocalRead.v] copies, ranges and checksums, [LocalList.v] listings over a tree;
      [LocalMem.v] is a system that meets the interfaces.
    - [Ingest.v] ([integration/tabular-ingestion/composition.go]): the bounded reader
      and the ingestion loop over an abstract CSV parser.

    ** What the theorems show

    Paths: parsing is total and accepts exactly the stated texts, and every path
    it returns is well formed; joining concatenates segments.  In-memory adapter:
    a write stores the whole source or nothing under any cancellation, at most one
    of several concurrent create-only writes succeeds, ranges are exact on all
    64-bit arguments, listings are exactly the directory's entries whatever the
    map order (a flat one when no object is also a directory), and every reachable store is well formed.  Decorators: a prefixed
    store refines a private store for every session of requests other than listings
    (which agree when no name below the prefix starts with a drive) and leaves the
    rest alone, a read-only decorator never changes its backend, retries are
    bounded and return the last outcome, the observer sees each request once, and
    a streamed checksum is the native one.  Bridge: [Stat], [ReadDir] and paging
    deliver what the store holds.  Streaming upload: in every interleaving the
    consumer sees the end of the stream only after a complete transfer, [Close]
    reports the consumer's error, and the producer is never stuck.  S3: the
    adapter refines an object store keyed by logical paths, up to the failures of the
    service, paging over an unchanging bucket ends and returns the first entries of its
    listing, ranges do not overflow.  R2: the configuration is checked before
    anything is called, and an adapter has exactly the accepted settings and the client made for
    them.  Redaction:
    a redacted text names no authentication header, holds no hidable secret and does
    not depend on the credentials in its URLs.  SFTP and FTP: the names SFTP uses
    stay at or below the root, a listing is bounded, and connections are neither leaked nor
    dialled after [Close], but for FTP attempts a context abandoned, which close their
    clients when they end; an SFTP write publishes atomically and an FTP write
    that succeeds has stored the whole source, and touches nothing else but its
    temporary name; a configuration outside the FTP
    policy is refused before any protocol call; an FTP stream delivers bytes of one
    transfer, ends only when it is complete (but for a bare [io.EOF] of the client)
    and releases its lock.  Local: a write publishes atomically and never replaces
    when it is create-only, a move without overwrite never replaces, copies, ranges and
    checksums are those of the file's content, a listing is exactly what a readable tree of
    logical names holds, acquisition leaks no root handle, and the Windows
    rename record decodes to what was asked, with the replace flag zero.  Ingestion:
    byte and row bounds are exact and the stream is closed once on every path.  Fault
    proxy: a direction forwards exactly the configured bytes, every open connection has
    one owner, and [Close] ends with nothing left open.  Conformance: the in-memory
    adapter passes the suite whatever its clock and map order, and so does a prefixed
    decorator over it; the local, SFTP and S3 adapters pass it when run.

    ** Fuel and bounds

    Recursion that is not structural carries fuel, and a theorem shows that the
    fuel given is enough: [retry_loop] gets the number of attempts; [drain] ends
    when the fuel exceeds the iterator's [remaining] ([FiniteIterator]); the paging
    loop of S3 gets more than the items of the listing; [connect] moves its goroutine at
    most three times; the directory walk
    of SFTP and FTP gets one more than the entry limit, since every queued directory
    is an entry collected; the walk of a local tree gets its height; the ingestion
    loop gets [MaxRows + 1]; [io_Copy] gets one more than the answers its reader
    gives; [io.ReadAll] in the suite gets three reads, which its streams never exceed;
    the loops of the redaction get one more than the length of the text.
    Integers are [Z], wrapped to 64 bits ([wrap64]) wherever Go's arithmetic could
    leave the range.

    ** What the classes assume

    - [S3Service]: reads follow writes, answers may be lost, and the copy source is
      decoded as escaped text; what a bare plus sign decodes to is left open, so copies
      are exact for names without one.  [PagedListing]: a token stands for a position in
      the listing of the request's bucket, prefix and delimiter, a page that is not the
      last is not empty, and the listing does not change meanwhile.
    - [OsRoot]: a rename between two names of one file may succeed and change nothing.
    - [SftpTransport]: closing a connection or the SSH client over it closes it, and no
      call but a dial opens one.  [SftpServer]: exclusive creation, and renames that
      replace at once or do nothing.
    - [FtpServer]: a failed rename may have changed both names.  That a 550 or a listing
      without a name means that there is no file is the separate hypothesis
      [hides_nothing], under which alone a write is known to spare existing files.
      [FtpConnections]: only a dial connects a client and [Quit] disconnects it.
    - The cause of a context is its error ([context.Cause] is [ctx.Err]).
    - [make] panics beyond the 48-bit address space; running out of memory is not modelled.

    ** What is not modelled

    Error messages are kept as their operands and not rendered.  The Go map
    iteration order, the AWS SDK, the SSH, SFTP and FTP libraries, the operating
    system, a server's behaviour, the CSV parser and caller-supplied callbacks are
    parameters.  Other clients of a remote store or of a local tree are not modelled,
    nor symbolic links between directories beyond the checks for them.
    The parser and the printer of [net/url] and the address tests of [net] are
    parameters of [Redact.v] and [R2.v].  The suite is
    not run on the FTP adapter, whose read streams are a step relation, nor on a live
    service.  Of the sources, what is left are package clauses, imports, the exported
    constructors that only call the modelled one, methods that only call the method of
    the wrapped library value, and the slice iterator and context reader the adapters
    repeat. *)

From Stdlib Require Export Ascii.
From stdpp Require Export base tactics list strings gmap sorting.
From Stdlib Require Export ZArith Lia.
From Stdlib Require String.
#[export] Set Default Goal Selector "!".
Open Scope Z_scope.

(** ** Go strings and bytes

    A Go string is an immutable byte sequence that need not be UTF-8, and a
    [[]byte] that is never written after publication is the same thing, so both
    are lists of 8-bit characters. *)
Abbreviation bytes := (list Ascii.ascii).

(** String literals of the source. *)
Definition bs (s : String.string) : bytes := String.list_ascii_of_string s.
Arguments bs _%_string_scope.

(** The numeric value of a byte. *)
Definition code (c : Ascii.ascii) : Z := Z.of_N (Ascii.N_of_ascii c).

Lemma code_range c : 0 ≤ code c < 256.
Proof.
  unfold code. pose proof (Ascii.N_ascii_bounded c). lia.
Qed.

Lemma code_inj c d : code c = code d → c = d.
Proof.
  unfold code. intros H%N2Z.inj.
  rewrite <- (Ascii.ascii_N_embedding c), <- (Ascii.ascii_N_embedding d). by rewrite H.
Qed.

(** Go's [len], as the [int] it is. *)
Definition len {A} (l : list A) : Z := Z.of_nat (length l).

Lemma len_nonneg {A} (l : list A) : 0 ≤ len l.
Proof. unfold len. lia. Qed.

#[export] Instance len_perm {A} : Proper ((≡ₚ) ==> (=)) (@len A).
Proof. intros l k H. unfold len. by rewrite H. Qed.

Lemma len_app {A} (l k : list A) : len (l ++ k) = len l + len k.
Proof. unfold len. rewrite length_app. lia. Qed.

(** ** Machine integers

    [int] and [int64] are 64-bit two's complement on every supported target;
    [wrap64] is the value Go's arithmetic leaves after an operation whose
    mathematical result is [z]. *)
Definition MaxInt64 : Z := 2 ^ 63 - 1.
Definition wrap64 (z : Z) : Z := (z + 2 ^ 63) mod 2 ^ 64 - 2 ^ 63.
Definition is_int64 (z : Z) : Prop := - 2 ^ 63 ≤ z ≤ MaxInt64.

Lemma wrap64_id z : is_int64 z → wrap64 z = z.
Proof.
  unfold is_int64, MaxInt64, wrap64. intros. rewrite Z.mod_small; lia.
Qed.

Lemma wrap64_range z : is_int64 (wrap64 z).
Proof.
  unfold is_int64, MaxInt64, wrap64.
  pose proof (Z.mod_pos_bound (z + 2 ^ 63) (2 ^ 64)). lia.
Qed.

Lemma wrap64_periodic z k : wrap64 (z + k * 2 ^ 64) = wrap64 z.
Proof.
  unfold wrap64. f_equal.
  replace (z + k * 2 ^ 64 + 2 ^ 63) with (z + 2 ^ 63 + k * 2 ^ 64) by lia.
  by rewrite Z_mod_plus_full.
Qed.

(** ** Lists *)

Lemma filter_all {A} (P : A → Prop) `{∀ x, Decision (P x)} l : Forall P l → filter P l = l.
Proof. induction 1 as [|x l Hx _ IH]; [done|]. by rewrite filter_cons_True, IH. Qed.

(** The slice expression [l[lo:hi]], which panics out of range. *)
Definition slice {A} (l : list A) (lo hi : Z) : option (list A) :=
  if (0 <=? lo) && (lo <=? hi) && (hi <=? len l)
  then Some (take (Z.to_nat (hi - lo)) (drop (Z.to_nat lo) l)) else None.

Lemma slice_min {A} (l : list A) lo n :
  0 ≤ lo ≤ len l → 0 ≤ n →
  slice l lo (lo + Z.min n (len l - lo)) = Some (take (Z.to_nat n) (drop (Z.to_nat lo) l)).
Proof.
  intros Hlo Hn. unfold slice, len in *.
  rewrite (proj2 (Z.leb_le 0 lo)), (proj2 (Z.leb_le lo _)), (proj2 (Z.leb_le _ (Z.of_nat _))) by lia.
  cbn [andb]. f_equal.
  destruct (Z.le_gt_cases n (Z.of_nat (length l) - lo)).
  - do 2 f_equal. lia.
  - rewrite !take_ge; [done|rewrite length_drop; lia..].
Qed.

(** ** Automation *)

(** Prove a decidable proposition about concrete values by evaluation. *)
Ltac decide_now := apply (bool_decide_unpack _); vm_compute; exact I.
