(* ===== verification/GoStrings.v ===== *)
(** * The parts of Go's [strings], [unicode], [utf8] and [path] packages in use

    Functions of the Go standard library that the filesystem sources call,
    over byte sequences, with the lemmas the components share.  Separators are
    single bytes everywhere in the sources. *)

From S2P Require Import Prelude.

Definition slash : Ascii.ascii := "/"%char.
Definition backslash : Ascii.ascii := "\"%char.

(** ** [strings] *)

(** [strings.CutPrefix]. *)
Fixpoint CutPrefix (s prefix : bytes) {struct prefix} : option bytes :=
  match prefix with
  | [] => Some s
  | p :: prefix' =>
      match s with
      | c :: s' => if decide (p = c) then CutPrefix s' prefix' else None
      | [] => None
      end
  end.

(** [strings.HasPrefix]. *)
Definition HasPrefix (s prefix : bytes) : bool :=
  match CutPrefix s prefix with Some _ => true | None => false end.

(** [strings.TrimPrefix]. *)
Definition TrimPrefix (s prefix : bytes) : bytes :=
  match CutPrefix s prefix with Some r => r | None => s end.

(** [strings.TrimSuffix]. *)
Definition TrimSuffix (s suffix : bytes) : bytes :=
  match CutPrefix (reverse s) (reverse suffix) with
  | Some r => reverse r
  | None => s
  end.

(** [strings.Contains] for a one-byte substring. *)
Definition ContainsByte (s : bytes) (c : Ascii.ascii) : bool := bool_decide (c ∈ s).

(** [strings.ReplaceAll] of one byte by another. *)
Definition ReplaceByte (s : bytes) (old new : Ascii.ascii) : bytes :=
  (λ c, if decide (c = old) then new else c) <$> s.

(** [strings.Cut] at a one-byte separator: before, after and whether found. *)
Fixpoint Cut (s : bytes) (sep : Ascii.ascii) : bytes * bytes * bool :=
  match s with
  | [] => ([], [], false)
  | c :: s' =>
      if decide (c = sep) then ([], s', true)
      else let '(before, after, found) := Cut s' sep in (c :: before, after, found)
  end.

(** [strings.Split] at a one-byte separator; never the empty slice. *)
Fixpoint Split (s : bytes) (sep : Ascii.ascii) : list bytes :=
  match s with
  | [] => [[]]
  | c :: s' =>
      if decide (c = sep) then [] :: Split s' sep
      else match Split s' sep with
           | seg :: rest => (c :: seg) :: rest
           | [] => [[c]]
           end
  end.

(** [strings.Join] with a one-byte separator. *)
Fixpoint Join (segments : list bytes) (sep : Ascii.ascii) : bytes :=
  match segments with
  | [] => []
  | [seg] => seg
  | seg :: rest => seg ++ sep :: Join rest sep
  end.

(** [strings.Compare (a, b) <= 0]: bytewise lexicographic order. *)
Fixpoint bytes_leb (a b : bytes) : bool :=
  match a, b with
  | [], _ => true
  | _ :: _, [] => false
  | x :: a', y :: b' =>
      if code x <? code y then true
      else if code x =? code y then bytes_leb a' b' else false
  end.
Definition bytes_le (a b : bytes) : Prop := bytes_leb a b = true.

#[export] Instance bytes_le_dec a b : Decision (bytes_le a b).
Proof. unfold bytes_le. apply _. Defined.

(** [slices.SortFunc] and [sort.Slice] by a string key.  Go's sorts are not
    stable, so results about them are stated for distinct keys, where every
    sorting permutation is the same list. *)
Definition key_le {A} (key : A → bytes) (a b : A) : Prop := bytes_le (key a) (key b).

#[export] Instance key_le_dec {A} (key : A → bytes) a b : Decision (key_le key a b).
Proof. unfold key_le. apply _. Defined.

Definition SortFunc {A} (key : A → bytes) (l : list A) : list A :=
  merge_sort (key_le key) l.

(** ** [unicode/utf8] and [unicode] *)

Definition RuneError : Z := 65533.

Definition in_range (x lo hi : Z) : bool := (lo <=? x) && (x <=? hi).

(** [utf8.DecodeRuneInString]: the rune at the head of [s] and its width, or
    [RuneError] with width 1 for an invalid encoding.  The accepted ranges of
    the second byte are those of the package's [acceptRanges] table. *)
Definition second_range (x : Z) : Z * Z :=
  if x =? 224 then (160, 191)
  else if x =? 237 then (128, 159)
  else if x =? 240 then (144, 191)
  else if x =? 244 then (128, 143)
  else (128, 191).

Definition DecodeRune (s : bytes) : Z * nat :=
  match s with
  | [] => (RuneError, 0%nat)
  | b0 :: r0 =>
      let x := code b0 in
      if x <? 128 then (x, 1%nat)
      else if negb (in_range x 194 244) then (RuneError, 1%nat)
      else
        let '(lo, hi) := second_range x in
        match r0 with
        | [] => (RuneError, 1%nat)
        | b1 :: r1 =>
            if negb (in_range (code b1) lo hi) then (RuneError, 1%nat)
            else if x <=? 223 then ((x - 192) * 64 + (code b1 - 128), 2%nat)
            else
              match r1 with
              | [] => (RuneError, 1%nat)
              | b2 :: r2 =>
                  if negb (in_range (code b2) 128 191) then (RuneError, 1%nat)
                  else if x <=? 239 then
                    ((x - 224) * 4096 + (code b1 - 128) * 64 + (code b2 - 128), 3%nat)
                  else
                    match r2 with
                    | [] => (RuneError, 1%nat)
                    | b3 :: _ =>
                        if negb (in_range (code b3) 128 191) then (RuneError, 1%nat)
                        else ((x - 240) * 262144 + (code b1 - 128) * 4096
                              + (code b2 - 128) * 64 + (code b3 - 128), 4%nat)
                    end
              end
        end
  end.

(** The runes a [for _, r := range s] loop visits; [skip] bytes still belong
    to the previous rune. *)
Fixpoint runes_from (skip : nat) (s : bytes) : list Z :=
  match s with
  | [] => []
  | _ :: s' =>
      match skip with
      | S skip' => runes_from skip' s'
      | O => let '(r, w) := DecodeRune s in r :: runes_from (w - 1) s'
      end
  end.
Definition runes (s : bytes) : list Z := runes_from 0 s.

(** [utf8.ValidString]: every decoded position is a valid encoding. *)
Fixpoint valid_from (skip : nat) (s : bytes) : bool :=
  match s with
  | [] => true
  | _ :: s' =>
      match skip with
      | S skip' => valid_from skip' s'
      | O =>
          let '(r, w) := DecodeRune s in
          negb ((r =? RuneError) && Nat.eqb w 1) && valid_from (w - 1) s'
      end
  end.
Definition ValidString (s : bytes) : bool := valid_from 0 s.

(** [unicode.IsControl]: the Cc category is C0, DEL and C1. *)
Definition IsControl (r : Z) : bool := in_range r 0 31 || in_range r 127 159.

(** [for _, r := range s { if unicode.IsControl(r) ... }]. *)
Definition has_control (s : bytes) : bool := existsb IsControl (runes s).

(** [unicode.IsSpace]. *)
Definition IsSpace (r : Z) : bool :=
  bool_decide (r ∈ [9; 10; 11; 12; 13; 32; 0x85; 0xA0; 0x1680; 0x2028; 0x2029; 0x202f; 0x205f; 0x3000])
  || in_range r 0x2000 0x200a.

(** [strings.TrimSpace(s) == ""]. *)
Definition blank (s : bytes) : bool := forallb IsSpace (runes s).

(** ** [path] *)

Definition dot : bytes := bs ".".
Definition dotdot : bytes := bs "..".

(** One element of [path.Clean]'s scan, on the elements kept so far. *)
Definition clean_step (rooted : bool) (out : list bytes) (seg : bytes) : list bytes :=
  if decide (seg = [] ∨ seg = dot) then out
  else if decide (seg = dotdot) then
    match last out with
    | Some prev => if decide (prev = dotdot) then out ++ [dotdot] else removelast out
    | None => if rooted then out else out ++ [dotdot]
    end
  else out ++ [seg].

(** [path.Clean]. *)
Definition Clean (p : bytes) : bytes :=
  let rooted := HasPrefix p [slash] in
  let out := foldl (clean_step rooted) [] (Split p slash) in
  if rooted then slash :: Join out slash
  else match out with [] => dot | _ => Join out slash end.

(** [path.Split]'s directory part, up to and including the last slash. *)
Definition path_split_dir (p : bytes) : bytes :=
  match removelast (Split p slash) with
  | [] => []
  | segs => Join segs slash ++ [slash]
  end.

(** [path.Dir]. *)
Definition path_Dir (p : bytes) : bytes := Clean (path_split_dir p).

(** Drop the bytes equal to [c] at the head. *)
Fixpoint drop_byte (c : Ascii.ascii) (s : bytes) : bytes :=
  match s with
  | x :: s' => if decide (x = c) then drop_byte c s' else s
  | [] => []
  end.

(** [path.Base]. *)
Definition path_Base (p : bytes) : bytes :=
  if decide (p = []) then dot
  else
    let stripped := reverse (drop_byte slash (reverse p)) in
    match last (Split stripped slash) with
    | Some seg => if decide (seg = []) then [slash] else seg
    | None => [slash]
    end.

(** [path.Join]. *)
Definition path_Join (elems : list bytes) : bytes :=
  match filter (λ e, e ≠ []) elems with
  | [] => []
  | es => Clean (Join es slash)
  end.

(** The functions on small inputs. *)
Example split_ex : Split (bs "a//b") slash = [bs "a"; []; bs "b"].
Proof. reflexivity. Qed.
Example clean_ex : Clean (bs "/a/./b//../c/") = bs "/a/c" ∧ Clean (bs "../../x/..") = bs "../..".
Proof. vm_compute. auto. Qed.
Example dir_base_ex :
  path_Dir (bs "a/b/c") = bs "a/b" ∧ path_Base (bs "a/b/c") = bs "c" ∧
  path_Dir (bs "a") = dot ∧ path_Base [] = dot ∧ path_Dir (bs "/a") = bs "/".
Proof. vm_compute. auto 10. Qed.
Example runes_ex :
  runes [Ascii.ascii_of_nat 194; Ascii.ascii_of_nat 133; "a"%char; Ascii.ascii_of_nat 194]
  = [133; 97; RuneError].
Proof. reflexivity. Qed.

(** ** Lemmas: prefixes *)

Lemma CutPrefix_Some s p r : CutPrefix s p = Some r ↔ s = p ++ r.
Proof.
  revert s. induction p as [|c p IH]; intros s; simpl.
  - naive_solver.
  - destruct s as [|d s]; [naive_solver|].
    case_decide; subst; rewrite ?IH; naive_solver.
Qed.

Lemma CutPrefix_app p r : CutPrefix (p ++ r) p = Some r.
Proof. by apply CutPrefix_Some. Qed.

Lemma HasPrefix_true s p : HasPrefix s p = true ↔ ∃ r, s = p ++ r.
Proof.
  unfold HasPrefix. destruct (CutPrefix s p) as [r|] eqn:E.
  - apply CutPrefix_Some in E. naive_solver.
  - split; [done|]. intros [r ->]. by rewrite CutPrefix_app in E.
Qed.

Lemma HasPrefix_app p r : HasPrefix (p ++ r) p = true.
Proof. apply HasPrefix_true. eauto. Qed.

Lemma HasPrefix_false s p : HasPrefix s p = false ↔ CutPrefix s p = None.
Proof. unfold HasPrefix. destruct (CutPrefix s p); naive_solver. Qed.

Lemma TrimPrefix_app p r : TrimPrefix (p ++ r) p = r.
Proof. unfold TrimPrefix. by rewrite CutPrefix_app. Qed.

Lemma TrimSuffix_app s suffix : TrimSuffix (s ++ suffix) suffix = s.
Proof.
  unfold TrimSuffix. rewrite reverse_app, CutPrefix_app. apply reverse_involutive.
Qed.

(** ** Lemmas: [Cut], [Split] and [Join] *)

Lemma Cut_found s sep before after :
  Cut s sep = (before, after, true) → s = before ++ sep :: after ∧ sep ∉ before.
Proof.
  revert before. induction s as [|c s IH]; intros before; simpl; [done|].
  case_decide as Hc.
  - intros [= <- <-]. subst. split; [done|]. apply not_elem_of_nil.
  - destruct (Cut s sep) as [[b a] f]. intros [= <- -> ->].
    destruct (IH b eq_refl) as [-> ?]. split; [done|].
    rewrite elem_of_cons. naive_solver.
Qed.

Lemma Cut_not_found s sep before after :
  Cut s sep = (before, after, false) → sep ∉ s ∧ before = s ∧ after = [].
Proof.
  revert before. induction s as [|c s IH]; intros before; simpl.
  - intros [= <- <-]. split_and!; [apply not_elem_of_nil|done..].
  - case_decide as Hc; [done|].
    destruct (Cut s sep) as [[b a] f]. intros [= <- -> ->].
    destruct (IH b eq_refl) as (? & -> & ->).
    rewrite elem_of_cons. naive_solver.
Qed.

Lemma Cut_no_sep s sep : sep ∉ s → Cut s sep = (s, [], false).
Proof.
  induction s as [|c s IH]; simpl; [done|]. rewrite elem_of_cons. intros H.
  rewrite decide_False by naive_solver. rewrite IH by naive_solver. done.
Qed.

Lemma Cut_sep s sep after : sep ∉ s → Cut (s ++ sep :: after) sep = (s, after, true).
Proof.
  induction s as [|c s IH]; simpl; [by rewrite decide_True|].
  rewrite elem_of_cons. intros H.
  rewrite decide_False by naive_solver. rewrite IH by naive_solver. done.
Qed.

Lemma Split_cons_sep s sep : Split (sep :: s) sep = [] :: Split s sep.
Proof. simpl. by rewrite decide_True. Qed.

Lemma Split_not_nil s sep : Split s sep ≠ [].
Proof.
  destruct s as [|c s]; simpl; [done|].
  case_decide; [done|]. by destruct (Split s sep).
Qed.

Lemma Split_app_sep a b sep : Split (a ++ sep :: b) sep = Split a sep ++ Split b sep.
Proof.
  induction a as [|c a IH]; simpl.
  - by rewrite decide_True.
  - case_decide; rewrite IH; [done|].
    pose proof (Split_not_nil a sep). by destruct (Split a sep).
Qed.

Lemma Split_no_sep s sep : sep ∉ s → Split s sep = [s].
Proof.
  induction s as [|c s IH]; simpl; [done|].
  intros Hs. rewrite elem_of_cons in Hs.
  rewrite decide_False by naive_solver. rewrite IH by naive_solver. done.
Qed.

Lemma Split_segments s sep : Forall (λ seg, sep ∉ seg) (Split s sep).
Proof.
  induction s as [|c s IH]; simpl.
  - constructor; [apply not_elem_of_nil|done].
  - case_decide as Hc.
    + constructor; [apply not_elem_of_nil|done].
    + destruct (Split s sep) as [|seg rest]; [by constructor; [set_solver|]|].
      apply Forall_cons in IH as [? ?]. constructor; [set_solver|done].
Qed.

Lemma Split_elem_of c s sep seg : seg ∈ Split s sep → c ∈ seg → c ∈ s.
Proof.
  revert seg. induction s as [|d s IH]; intros seg; simpl.
  - by intros ->%list_elem_of_singleton ?%elem_of_nil.
  - case_decide as Hd.
    + rewrite elem_of_cons. intros [-> | Hin] Hc; [by apply elem_of_nil in Hc|].
      apply elem_of_cons. right. by apply (IH seg).
    + pose proof (Split_not_nil s sep) as Hne.
      destruct (Split s sep) as [|x rest]; [done|].
      rewrite elem_of_cons. intros [-> | Hin].
      * rewrite !elem_of_cons. intros [-> | Hc]; [by left|]. right.
        apply (IH x); [set_solver|done].
      * intros Hc. apply elem_of_cons. right. apply (IH seg); [set_solver|done].
Qed.

Lemma Join_cons seg rest sep :
  rest ≠ [] → Join (seg :: rest) sep = seg ++ sep :: Join rest sep.
Proof. by destruct rest. Qed.

Lemma Join_Split s sep : Join (Split s sep) sep = s.
Proof.
  induction s as [|c s IH]; [done|]. simpl.
  pose proof (Split_not_nil s sep) as Hne.
  case_decide as Hc.
  - subst. rewrite Join_cons by done. by rewrite IH.
  - destruct (Split s sep) as [|seg rest]; [done|].
    rewrite <- IH. by destruct rest.
Qed.

Lemma Split_Join l sep :
  l ≠ [] → Forall (λ seg, sep ∉ seg) l → Split (Join l sep) sep = l.
Proof.
  intros Hne Hl. induction Hl as [|seg rest Hseg Hrest IH]; [done|].
  destruct rest as [|seg' rest'].
  - by apply Split_no_sep.
  - rewrite Join_cons, Split_app_sep, Split_no_sep by done.
    by rewrite IH.
Qed.

Lemma Join_app l k sep :
  l ≠ [] → k ≠ [] → Join (l ++ k) sep = Join l sep ++ sep :: Join k sep.
Proof.
  intros Hl Hk. induction l as [|seg rest IH]; [done|].
  destruct rest as [|seg' rest'].
  - simpl app. by rewrite Join_cons.
  - change ((seg :: seg' :: rest') ++ k) with (seg :: ((seg' :: rest') ++ k)).
    rewrite !Join_cons by (by destruct rest'). rewrite IH by done.
    by rewrite <- app_assoc.
Qed.

Lemma Join_elem_of c l sep :
  c ∈ Join l sep → c = sep ∨ ∃ seg, seg ∈ l ∧ c ∈ seg.
Proof.
  induction l as [|seg rest IH]; simpl; [set_solver|].
  destruct rest as [|seg' rest'].
  - intros. right. exists seg. set_solver.
  - rewrite elem_of_app, elem_of_cons. intros [?|[?|Hc]].
    + right. exists seg. set_solver.
    + by left.
    + destruct (IH Hc) as [?|(x & ? & ?)]; [by left|]. right. exists x. set_solver.
Qed.

Lemma Join_nil_inv l sep : Forall (λ seg, seg ≠ []) l → Join l sep = [] → l = [].
Proof.
  intros Hl. destruct Hl as [|seg rest Hseg _]; [done|].
  destruct rest; simpl; [done|]. by destruct seg.
Qed.

(** ** Lemmas: the byte order and sorting *)

Lemma bytes_le_refl a : bytes_le a a.
Proof.
  unfold bytes_le. induction a as [|x a IH]; simpl; [done|].
  by rewrite Z.ltb_irrefl, Z.eqb_refl.
Qed.

#[export] Instance bytes_le_total : Total bytes_le.
Proof.
  unfold bytes_le. intros a. induction a as [|x a IH]; intros [|y b]; simpl; auto.
  destruct (Z.lt_total (code x) (code y)) as [H|[H|H]].
  - left. by apply Z.ltb_lt in H as ->.
  - rewrite H, Z.ltb_irrefl, Z.eqb_refl. apply IH.
  - right. by apply Z.ltb_lt in H as ->.
Qed.

#[export] Instance bytes_le_trans : Transitive bytes_le.
Proof.
  unfold bytes_le. intros a. induction a as [|x a IH]; intros [|y b] [|z c]; simpl; try done.
  repeat case_match; intros; try done; try lia. by eapply IH.
Qed.

#[export] Instance bytes_le_antisymm : AntiSymm (=) bytes_le.
Proof.
  unfold bytes_le. intros a. induction a as [|x a IH]; intros [|y b]; simpl; try done.
  repeat case_match; intros; try done; try lia.
  f_equal; [apply code_inj; lia|by apply IH].
Qed.

#[export] Instance key_le_total {A} (key : A → bytes) : Total (key_le key).
Proof. intros a b. apply bytes_le_total. Qed.

#[export] Instance key_le_trans {A} (key : A → bytes) : Transitive (key_le key).
Proof. intros a b c. apply bytes_le_trans. Qed.

Lemma SortFunc_perm {A} (key : A → bytes) l : SortFunc key l ≡ₚ l.
Proof. apply merge_sort_Permutation. Qed.

Lemma SortFunc_sorted {A} (key : A → bytes) l : Sorted (key_le key) (SortFunc key l).
Proof. apply Sorted_merge_sort, _. Qed.

(** With distinct keys there is only one sorted permutation, so any Go sort
    agrees with [SortFunc]. *)
Lemma sorted_perm_unique {A} (key : A → bytes) l k :
  NoDup (key <$> l) → l ≡ₚ k → Sorted (key_le key) l → Sorted (key_le key) k → l = k.
Proof.
  intros Hnd Hp Hl Hk. apply (Sorted_unique_strong (key_le key)); [|done..].
  intros x1 x2 Hx1 Hx2 H1 H2.
  assert (Hk12 : key x1 = key x2) by by apply (anti_symm bytes_le).
  apply list_elem_of_lookup_1 in Hx1 as [i Hi].
  rewrite <- Hp in Hx2. apply list_elem_of_lookup_1 in Hx2 as [j Hj].
  assert (i = j) as ->.
  { apply (NoDup_lookup (key <$> l) i j (key x1)); [done|..]; rewrite list_lookup_fmap.
    - by rewrite Hi.
    - by rewrite Hj, Hk12. }
  congruence.
Qed.

Lemma SortFunc_perm_eq {A} (key : A → bytes) l k :
  NoDup (key <$> l) → l ≡ₚ k → SortFunc key l = SortFunc key k.
Proof.
  intros Hnd Hp.
  apply (sorted_perm_unique key); [|by rewrite !SortFunc_perm|apply SortFunc_sorted..].
  by rewrite (fmap_Permutation key _ _ (SortFunc_perm key l)).
Qed.

(** ** Lemmas: UTF-8 *)

Lemma DecodeRune_width s : s ≠ [] → (1 ≤ (DecodeRune s).2 ≤ length s)%nat.
Proof.
  intros Hs. unfold DecodeRune.
  repeat case_match; simplify_eq/=; lia.
Qed.

Lemma not_cont c lo hi : code c < 128 → 128 ≤ lo → in_range (code c) lo hi = false.
Proof. unfold in_range. intros. apply andb_false_iff. left. apply Z.leb_gt. lia. Qed.

Lemma second_range_lo x : 128 ≤ (second_range x).1.
Proof. unfold second_range. repeat case_match; simpl; lia. Qed.

(** An ASCII byte is never part of a multi-byte encoding, so it does not
    change how the bytes before it decode. *)
Lemma DecodeRune_app_ascii a c b :
  a ≠ [] → code c < 128 → DecodeRune (a ++ c :: b) = DecodeRune a.
Proof.
  intros Ha Hc. pose proof (second_range_lo (code (default c (head a)))) as Hlo.
  destruct a as [|a0 [|a1 [|a2 [|a3 a]]]]; [done|..]; simpl in *;
    destruct (second_range (code a0)) as [lo hi]; simpl in *;
    repeat case_match; try done;
    rewrite ?(not_cont c) in * by (done || lia); simplify_eq/=; done.
Qed.

Lemma runes_from_app_ascii skip a c b :
  code c < 128 → (skip ≤ length a)%nat →
  runes_from skip (a ++ c :: b) = runes_from skip a ++ runes_from 0 (c :: b).
Proof.
  intros Hc. revert skip. induction a as [|a0 a IH]; intros skip Hskip.
  { simpl in Hskip. by replace skip with 0%nat by lia. }
  destruct skip as [|skip]; [|simpl in *; apply IH; lia].
  pose proof (DecodeRune_width (a0 :: a)) as Hw.
  cbn [app runes_from].
  change (a0 :: a ++ c :: b) with ((a0 :: a) ++ c :: b).
  rewrite DecodeRune_app_ascii by done.
  destruct (DecodeRune (a0 :: a)) as [r w]. simpl in Hw.
  rewrite IH by (specialize (Hw ltac:(done)); lia). done.
Qed.

Lemma runes_cons_ascii c b : code c < 128 → runes (c :: b) = code c :: runes b.
Proof.
  intros Hc. unfold runes. cbn [runes_from]. unfold DecodeRune.
  by rewrite (proj2 (Z.ltb_lt _ _) Hc).
Qed.

Lemma runes_app_ascii a c b :
  code c < 128 → runes (a ++ c :: b) = runes a ++ code c :: runes b.
Proof.
  intros Hc. unfold runes. rewrite runes_from_app_ascii by (done || lia).
  f_equal. by apply runes_cons_ascii.
Qed.

(** A separator that is an ASCII non-control byte neither creates nor hides
    control characters. *)
Definition plain_sep (c : Ascii.ascii) : Prop := code c < 128 ∧ IsControl (code c) = false.

Lemma plain_sep_slash : plain_sep slash.
Proof. done. Qed.
Lemma plain_sep_backslash : plain_sep backslash.
Proof. done. Qed.

Lemma has_control_Join l sep :
  plain_sep sep → has_control (Join l sep) = existsb has_control l.
Proof.
  intros [Hsep Hctl]. induction l as [|seg rest IH]; [done|].
  destruct rest as [|seg' rest'].
  - simpl. by rewrite orb_false_r.
  - rewrite Join_cons by done. unfold has_control at 1.
    rewrite runes_app_ascii, existsb_app by done.
    change (existsb has_control (seg :: seg' :: rest'))
      with (has_control seg || existsb has_control (seg' :: rest')).
    rewrite <- IH. cbn [existsb]. by rewrite Hctl.
Qed.

Lemma has_control_Split s sep :
  plain_sep sep → has_control s = existsb has_control (Split s sep).
Proof. intros. by rewrite <- (has_control_Join _ sep), Join_Split. Qed.

Lemma ReplaceByte_Join s old new : ReplaceByte s old new = Join (Split s old) new.
Proof.
  unfold ReplaceByte. induction s as [|c s IH]; [done|].
  cbn [fmap list_fmap Split]. rewrite IH.
  pose proof (Split_not_nil s old) as Hne.
  case_decide; [by rewrite Join_cons|].
  destruct (Split s old) as [|seg rest]; [done|]. by destruct rest.
Qed.

Lemma has_control_ReplaceByte s old new :
  plain_sep old → plain_sep new → has_control (ReplaceByte s old new) = has_control s.
Proof.
  intros. by rewrite ReplaceByte_Join, has_control_Join, <- has_control_Split.
Qed.

Lemma ReplaceByte_not_elem s old new : old ≠ new → old ∉ ReplaceByte s old new.
Proof.
  intros Hne. unfold ReplaceByte. rewrite list_elem_of_fmap.
  intros (c & Hc & _). case_decide; congruence.
Qed.

Lemma ReplaceByte_id s old new : old ∉ s → ReplaceByte s old new = s.
Proof.
  intros Hs. unfold ReplaceByte. rewrite <- (list_fmap_id s) at 2.
  apply list_fmap_ext. intros i c Hc. simpl.
  rewrite decide_False; [done|]. intros ->.
  apply Hs. by eapply list_elem_of_lookup_2.
Qed.

(** ** Lemmas: [path] on plain segments *)

(** A segment that [path.Clean] keeps as it is. *)
Definition plain_segment (seg : bytes) : Prop :=
  seg ≠ [] ∧ seg ≠ dot ∧ seg ≠ dotdot ∧ slash ∉ seg.

#[export] Instance plain_segment_dec seg : Decision (plain_segment seg).
Proof. unfold plain_segment. apply _. Defined.

Lemma clean_step_plain rooted out seg :
  plain_segment seg → clean_step rooted out seg = out ++ [seg].
Proof.
  intros (? & ? & ? & ?). unfold clean_step.
  rewrite decide_False by naive_solver. by rewrite decide_False.
Qed.

Lemma clean_step_nil rooted out : clean_step rooted out [] = out.
Proof. unfold clean_step. by rewrite decide_True by auto. Qed.

Lemma clean_fold_plain rooted out segs :
  Forall plain_segment segs → foldl (clean_step rooted) out segs = out ++ segs.
Proof.
  intros H. revert out. induction H as [|seg segs Hseg _ IH]; intros out; simpl.
  - by rewrite app_nil_r.
  - rewrite clean_step_plain, IH by done. by rewrite <- app_assoc.
Qed.

Lemma plain_no_slash segs : Forall plain_segment segs → Forall (λ seg, slash ∉ seg) segs.
Proof. intros H. eapply Forall_impl; [exact H|]. by intros seg (_ & _ & _ & ?). Qed.

Lemma Join_plain_head segs :
  segs ≠ [] → Forall plain_segment segs →
  ∃ c rest, Join segs slash = c :: rest ∧ c ≠ slash.
Proof.
  intros Hne Hp. destruct Hp as [|seg segs' (Hseg & _ & _ & Hsl) _]; [done|].
  destruct seg as [|c seg]; [done|]. rewrite elem_of_cons in Hsl.
  destruct segs'; simpl; eexists _, _; (split; [done|naive_solver]).
Qed.

Lemma HasPrefix_slash_Join segs rest :
  segs ≠ [] → Forall plain_segment segs →
  HasPrefix (Join segs slash ++ rest) [slash] = false.
Proof.
  intros Hne Hp. destruct (Join_plain_head segs Hne Hp) as (c & r & -> & Hc).
  unfold HasPrefix. simpl. by rewrite decide_False.
Qed.

Lemma Clean_plain segs :
  segs ≠ [] → Forall plain_segment segs → Clean (Join segs slash) = Join segs slash.
Proof.
  intros Hne Hp. unfold Clean.
  rewrite <- (app_nil_r (Join segs slash)) at 1 2.
  rewrite HasPrefix_slash_Join, app_nil_r by done.
  rewrite Split_Join by eauto using plain_no_slash.
  rewrite clean_fold_plain by done. simpl. by destruct segs.
Qed.

Lemma Clean_plain_trailing segs :
  segs ≠ [] → Forall plain_segment segs →
  Clean (Join segs slash ++ [slash]) = Join segs slash.
Proof.
  intros Hne Hp. unfold Clean. rewrite HasPrefix_slash_Join by done.
  rewrite Split_app_sep, Split_Join by eauto using plain_no_slash.
  rewrite foldl_app, (clean_fold_plain _ _ segs) by done.
  cbn [Split foldl]. rewrite clean_step_nil. by destruct segs.
Qed.

Lemma path_Dir_plain segs seg :
  Forall plain_segment (segs ++ [seg]) →
  path_Dir (Join (segs ++ [seg]) slash) =
  match segs with [] => dot | _ => Join segs slash end.
Proof.
  intros Hp. unfold path_Dir, path_split_dir.
  rewrite Split_Join by (eauto using plain_no_slash || by destruct segs).
  rewrite removelast_last. apply Forall_app in Hp as [Hp _].
  destruct segs as [|s0 segs]; [done|].
  by apply Clean_plain_trailing.
Qed.

Lemma path_Base_plain segs seg :
  Forall plain_segment (segs ++ [seg]) → path_Base (Join (segs ++ [seg]) slash) = seg.
Proof.
  intros Hp. unfold path_Base.
  assert (Hne : segs ++ [seg] ≠ []) by by destruct segs.
  rewrite decide_False.
  2:{ intros H. destruct (Join_plain_head _ Hne Hp) as (c & r & Hc & _). congruence. }
  assert (Hend : drop_byte slash (reverse (Join (segs ++ [seg]) slash))
                 = reverse (Join (segs ++ [seg]) slash)).
  { assert (Hj : ∃ pre, Join (segs ++ [seg]) slash = pre ++ seg).
    { destruct segs; [by exists []|].
      rewrite Join_app by done. eexists (_ ++ [slash]). by rewrite <- app_assoc. }
    destruct Hj as [pre ->]. rewrite reverse_app.
    apply Forall_app in Hp as [_ Hp]. apply Forall_singleton in Hp as (Hs & _ & _ & Hsl).
    destruct seg as [|c seg _] using rev_ind; [done|].
    rewrite reverse_snoc. cbn. rewrite decide_False; [done|].
    intros ->. apply Hsl. set_solver. }
  rewrite Hend, reverse_involutive.
  rewrite Split_Join by eauto using plain_no_slash.
  rewrite last_snoc. apply Forall_app in Hp as [_ Hp].
  apply Forall_singleton in Hp as (Hs & _). by rewrite decide_False.
Qed.
