(* ===== verification/Errors.v ===== *)
(** * Errors: [errors.go] and the error values of the Go packages in use

    Go errors are trees of wrapped values that clients classify with
    [errors.Is].  The model keeps the tree and the operands of each message and
    leaves the rendering of messages out; [Is] is [errors.Is] against the
    package-level values the sources compare with. *)

From S2P Require Import Prelude.

(** Package-level error values, compared by identity. *)
Inductive sentinel :=
  (* filesystem, path.go:24 and errors.go:8-28 *)
  | ErrInvalidPath | ErrContextRequired | ErrUnsupportedCapability | ErrNotFound
  | ErrAlreadyExists | ErrInvalidRange | ErrPreconditionFailed | ErrPartialWrite
  | ErrResourceLimit
  (* context *)
  | Canceled | DeadlineExceeded
  (* io *)
  | EOF | ErrUnexpectedEOF | ErrClosedPipe
  (* io/fs, net and syscall *)
  | FsErrNotExist | FsErrExist | FsErrInvalid | FsErrClosed | NetErrClosed
  | ENOTDIR | EISDIR | EINVAL | FsSkipDir | FsSkipAll
  (* golang.org/x/sys/unix and windows *)
  | ENOSYS | EOPNOTSUPP | ERROR_NOT_SUPPORTED | ERROR_CALL_NOT_IMPLEMENTED
  (* local/local.go: the error [stop] of [List] *)
  | LocalListStop
  (* ftp/ftp.go *)
  | FtpErrFileUnavailable
  (* integration/tabular-ingestion/composition.go *)
  | IngestErrInvalidConfig | ErrObjectTooLarge | ErrRowLimitExceeded
  (* github.com/pkg/sftp *)
  | ErrSSHFxConnectionLost | ErrSSHFxNoConnection | ErrSSHFxNoSuchFile | ErrSSHFxOpUnsupported.

#[export] Instance sentinel_eq_dec : EqDecision sentinel.
Proof. solve_decision. Defined.

(** [type Operation string] and its values. *)
Abbreviation Operation := bytes (only parsing).
Definition OperationRead : Operation := bs "read".
Definition OperationWrite : Operation := bs "write".
Definition OperationDelete : Operation := bs "delete".
Definition OperationList : Operation := bs "list".
Definition OperationStat : Operation := bs "stat".
Definition OperationCopy : Operation := bs "copy".
Definition OperationMove : Operation := bs "move".
Definition OperationRangeRead : Operation := bs "range-read".
Definition OperationSetMetadata : Operation := bs "set-metadata".
Definition OperationChecksum : Operation := bs "checksum".
Definition OperationTemporaryURL : Operation := bs "temporary-url".
Definition OperationVisibility : Operation := bs "visibility".
Definition OperationSetVisibility : Operation := bs "set-visibility".

(** [type Capability string]; its values are in [Capability.v]. *)
Abbreviation Capability := bytes (only parsing).

(** An operand of a formatted message. *)
Inductive fmt_arg := FStr (s : bytes) | FInt (z : Z).

Inductive error :=
  (** a package-level value *)
  | Sentinel (s : sentinel)
  (** [errors.New] evaluated at run time *)
  | NewError (msg : String.string)
  (** [fmt.Errorf]: the errors under [%w] in order, then the other operands *)
  | Errorf (format : String.string) (wrapped : list error) (args : list fmt_arg)
  (** [errors.Join] of at least one non-nil error *)
  | Joined (errs : list error)
  (** [*CapabilityError], errors.go:64-71 *)
  | CapabilityError (Adapter : bytes) (Capability : Capability) (Operation : Operation)
  (** [*fs.PathError] *)
  | PathError (Op : bytes) (Path : bytes) (Err : error)
  (** an error of a caller's or a backend's own, with the package-level values
      it answers to *)
  | Foreign (id : Z) (kinds : list sentinel).

(** [errors.Is].  [CapabilityError.Unwrap] returns [ErrUnsupportedCapability]. *)
Fixpoint Is (err : error) (target : sentinel) : bool :=
  match err with
  | Sentinel s => bool_decide (s = target)
  | NewError _ => false
  | Errorf _ wrapped _ => existsb (λ e, Is e target) wrapped
  | Joined errs => existsb (λ e, Is e target) errs
  | CapabilityError _ _ _ => bool_decide (ErrUnsupportedCapability = target)
  | PathError _ _ e => Is e target
  | Foreign _ kinds => bool_decide (target ∈ kinds)
  end.

(** [Unsupported], errors.go:89-95. *)
Definition Unsupported (adapter : bytes) (capability : Capability)
    (operation : Operation) : error :=
  CapabilityError adapter capability operation.

(** [err == target] for a package-level value. *)
Definition identical (err : error) (target : sentinel) : bool :=
  match err with Sentinel s => bool_decide (s = target) | _ => false end.

(** [errors.Join] of two possibly nil errors. *)
Definition Join2 (a b : option error) : option error :=
  match a, b with
  | None, None => None
  | Some e, None | None, Some e => Some (Joined [e])
  | Some e, Some f => Some (Joined [e; f])
  end.

Lemma Join2_Is a b e target :
  Join2 a b = Some e →
  Is e target = default false ((λ x, Is x target) <$> a)
                || default false ((λ x, Is x target) <$> b).
Proof.
  destruct a, b; simpl; intros; simplify_eq/=; by rewrite ?orb_false_r.
Qed.

Lemma Join2_None a b : Join2 a b = None ↔ a = None ∧ b = None.
Proof. destruct a, b; naive_solver. Qed.
