(* ===== verification/Effects.v ===== *)
(** * Effects: results, contexts and the state monad of the operations

    A Go function that returns [(T, error)] returns a [result]; a panic is its
    third constructor.  The value a function returns beside a non-nil error is
    not kept.

    Operations run in a monad over a logical time and a state.  The time is
    what a context and a clock are read against: every observation of a context
    or a clock advances it by one, so that a cancellation can fall between any
    two observations of one call. *)

From S2P Require Import Prelude Errors.

Inductive result (A : Type) :=
  | Ok (a : A)
  | Err (e : error)
  | Panic (msg : String.string).
Arguments Ok {_}.
Arguments Err {_}.
Arguments Panic {_}.

Definition is_ok {A} (r : result A) : bool :=
  match r with Ok _ => true | _ => false end.

(** The [error] half of the returned pair. *)
Definition err_of {A} (r : result A) : option error :=
  match r with Err e => Some e | _ => None end.

Definition result_map {A B} (f : A → B) (r : result A) : result B :=
  match r with Ok a => Ok (f a) | Err e => Err e | Panic m => Panic m end.

Definition result_bind {A B} (r : result A) (f : A → result B) : result B :=
  match r with Ok a => f a | Err e => Err e | Panic m => Panic m end.

(** ** Contexts *)

Inductive ctx_error := CtxCanceled | CtxDeadlineExceeded.

Definition ctx_error_value (e : ctx_error) : error :=
  Sentinel (match e with CtxCanceled => Canceled | CtxDeadlineExceeded => DeadlineExceeded end).

(** A non-nil [context.Context]: never done, or done from a time on. *)
Inductive context := Background | DoneAt (at_time : Z) (cause : ctx_error).

(** [ctx.Err()] at time [t]. *)
Definition ctx_Err (ctx : context) (t : Z) : option error :=
  match ctx with
  | Background => None
  | DoneAt k e => if k <=? t then Some (ctx_error_value e) else None
  end.

Lemma ctx_Err_mono ctx t t' e :
  ctx_Err ctx t = Some e → t ≤ t' → ctx_Err ctx t' = Some e.
Proof. destruct ctx; simpl; [done|]. repeat case_match; intros; simplify_eq; (done || lia). Qed.

Lemma ctx_Err_value ctx t e : ctx_Err ctx t = Some e → ∃ ce, e = ctx_error_value ce.
Proof. destruct ctx; simpl; [done|]. case_match; naive_solver. Qed.

(** ** The monad *)

Definition M (S A : Type) : Type := Z → S → result A * (Z * S).

Section monad.
Context {S : Type}.

Definition ret {A} (a : A) : M S A := λ t s, (Ok a, (t, s)).
Definition throw {A} (e : error) : M S A := λ t s, (Err e, (t, s)).
Definition panic {A} (msg : String.string) : M S A := λ t s, (Panic msg, (t, s)).

Definition bind {A B} (m : M S A) (f : A → M S B) : M S B := λ t s,
  match m t s with
  | (Ok a, (t', s')) => f a t' s'
  | (Err e, w) => (Err e, w)
  | (Panic msg, w) => (Panic msg, w)
  end.

(** Lift a computation that touches neither time nor state. *)
Definition lift_result {A} (r : result A) : M S A := λ t s, (r, (t, s)).

Definition get : M S S := λ t s, (Ok s, (t, s)).
Definition put (s' : S) : M S unit := λ t s, (Ok tt, (t, s')).

(** Run [m] and hand its error to the caller as a value; panics propagate. *)
Definition attempt {A} (m : M S A) : M S (A + error) := λ t s,
  match m t s with
  | (Ok a, w) => (Ok (inl a), w)
  | (Err e, w) => (Ok (inr e), w)
  | (Panic msg, w) => (Panic msg, w)
  end.

(** Observe a context. *)
Definition poll (ctx : context) : M S (option error) := λ t s,
  (Ok (ctx_Err ctx t), (t + 1, s)).

(** [if err := ctx.Err(); err != nil { return err }]. *)
Definition check_ctx (ctx : context) : M S unit := λ t s,
  match ctx_Err ctx t with
  | Some e => (Err e, (t + 1, s))
  | None => (Ok tt, (t + 1, s))
  end.
End monad.

Notation "'let!' x ':=' m 'in' k" := (bind m (λ x, k))
  (at level 10, x name, m at level 100, k at level 200).
Notation "'do!' m 'in' k" := (bind m (λ _, k))
  (at level 10, m at level 100, k at level 200).

(** Run a computation from a time and a state and keep one component. *)
Definition run_result {S A} (m : M S A) (t : Z) (s : S) : result A := (m t s).1.
Definition run_state {S A} (m : M S A) (t : Z) (s : S) : S := (m t s).2.2.

(** Unfold the monad and split on what the goal matches on. *)
Ltac monad_unfold :=
  unfold run_result, run_state, bind, ret, throw, panic, get, put, attempt, poll,
    check_ctx, lift_result in *; simpl in *.
Ltac monad_cases :=
  monad_unfold; repeat (case_match; simplify_eq/=; try done).

(** A computation that leaves the state alone, whatever its result. *)
Definition pure_state {S A} (m : M S A) : Prop := ∀ t s, run_state m t s = s.

Lemma pure_state_bind {S A B} (m : M S A) (f : A → M S B) :
  pure_state m → (∀ a, pure_state (f a)) → pure_state (bind m f).
Proof.
  unfold pure_state, run_state, bind. intros Hm Hf t s. specialize (Hm t s).
  destruct (m t s) as [[a|e|msg] [t' s']]; simpl in *; subst; auto.
Qed.

Lemma pure_state_check_ctx {S} ctx : pure_state (check_ctx (S:=S) ctx).
Proof. intros t s. by monad_cases. Qed.

Create HintDb effects.
#[export] Hint Resolve pure_state_bind pure_state_check_ctx : effects.
