(* ===== verification/Hoare.v ===== *)
(** * A program logic for the operations

    Hoare triples over the monad of [Effects.v] whose postcondition sees the
    result, errors and panics included, and the derived notion of an invariant
    that a computation keeps whatever its result. *)

From S2P Require Import Prelude Errors Effects.

Section triples.
Context {S : Type}.
Implicit Types P : S → Prop.

Definition triple {A} P (m : M S A) (Q : result A → S → Prop) : Prop :=
  ∀ t s, P s → Q (run_result m t s) (run_state m t s).

(** What is left to show of a result that ends a sequence early. *)
Definition early {A B} (R : A → S → Prop) (Q : result B → S → Prop) (r : result A) (s : S) : Prop :=
  match r with Ok x => R x s | Err e => Q (Err e) s | Panic msg => Q (Panic msg) s end.

Lemma triple_bind {A B} P (R : A → S → Prop) (Q : result B → S → Prop) (m : M S A) f :
  triple P m (early R Q) → (∀ x, triple (R x) (f x) Q) → triple P (bind m f) Q.
Proof.
  intros Hm Hf t s HP. specialize (Hm t s HP).
  unfold run_result, run_state, bind in *.
  destruct (m t s) as [[x|e|msg] [t' s']]; simpl in *; [|done..].
  apply (Hf x t' s' Hm).
Qed.

Lemma triple_ret {A} P (x : A) (Q : result A → S → Prop) :
  (∀ s, P s → Q (Ok x) s) → triple P (ret x) Q.
Proof. intros H t s HP. by apply H. Qed.

Lemma triple_throw {A} P e (Q : result A → S → Prop) :
  (∀ s, P s → Q (Err e) s) → triple P (throw e) Q.
Proof. intros H t s HP. by apply H. Qed.

Lemma triple_lift {A} P (r : result A) (Q : result A → S → Prop) :
  (∀ s, P s → Q r s) → triple P (lift_result r) Q.
Proof. intros H t s HP. by apply H. Qed.

Lemma triple_conseq {A} P P' (m : M S A) (Q Q' : result A → S → Prop) :
  triple P' m Q' → (∀ s, P s → P' s) → (∀ r s, Q' r s → Q r s) → triple P m Q.
Proof. intros Hm HP HQ t s Hs. by apply HQ, Hm, HP. Qed.

Lemma triple_attempt {A} P (m : M S A) (Q : result A → S → Prop) (Q' : result (A + error) → S → Prop) :
  triple P m Q →
  (∀ s, (∀ x, Q (Ok x) s → Q' (Ok (inl x)) s) ∧ (∀ e, Q (Err e) s → Q' (Ok (inr e)) s) ∧
        (∀ msg, Q (Panic msg) s → Q' (Panic msg) s)) →
  triple P (attempt m) Q'.
Proof.
  intros Hm HQ t s HP. specialize (Hm t s HP). unfold run_result, run_state, attempt in *.
  destruct (m t s) as [[x|e|msg] [t' s']]; simpl in *; apply (HQ s'); done.
Qed.

Lemma triple_pure {A} P (φ : Prop) (m : M S A) (Q : result A → S → Prop) :
  (φ → triple P m Q) → triple (λ s, P s ∧ φ) m Q.
Proof. intros H t s [HP Hφ]. by apply H. Qed.

(** Sequencing after a computation that has no effect. *)
Lemma triple_lift_bind {A B} P (r : result A) (f : A → M S B) (Q : result B → S → Prop) :
  match r with
  | Ok _ => True
  | Err e => ∀ s, P s → Q (Err e) s
  | Panic msg => ∀ s, P s → Q (Panic msg) s
  end →
  (∀ x, r = Ok x → triple P (f x) Q) → triple P (bind (lift_result r) f) Q.
Proof. intros Hr Hf t s HP. destruct r as [x|e|msg]; [by apply (Hf x)|by apply Hr..]. Qed.

Lemma triple_check_ctx_bind {B} P ctx (f : unit → M S B) (Q : result B → S → Prop) :
  (∀ e s, P s → Q (Err e) s) → triple P (f tt) Q → triple P (bind (check_ctx ctx) f) Q.
Proof.
  intros He Hf t s HP. unfold run_result, run_state, bind, check_ctx.
  destruct (ctx_Err ctx t); [by apply He|by apply Hf].
Qed.

(** ** Invariants *)

(** [m] keeps [P] whatever its result, and panics only if [panics] allows it. *)
Definition keeps {A} (panics : Prop) P (m : M S A) : Prop :=
  triple P m (λ r s, P s ∧ match r with Panic _ => panics | _ => True end).

Section keeps.
Context (panics : Prop).

Lemma keeps_ret {A} P (x : A) : keeps panics P (ret x).
Proof. by apply triple_ret. Qed.
Lemma keeps_throw {A} P e : keeps panics P (throw (A:=A) e).
Proof. by apply triple_throw. Qed.
Lemma keeps_panic {A} P msg : panics → keeps panics P (panic (A:=A) msg).
Proof. by intros H t s HP. Qed.
Lemma keeps_lift {A} P (r : result A) :
  match r with Panic _ => panics | _ => True end → keeps panics P (lift_result r).
Proof. intros H. by apply triple_lift. Qed.
Lemma keeps_poll P ctx : keeps panics P (poll ctx).
Proof. by intros t s HP. Qed.
Lemma keeps_get P : keeps panics P get.
Proof. by intros t s HP. Qed.
Lemma keeps_check_ctx P ctx : keeps panics P (check_ctx ctx).
Proof. intros t s HP. by monad_cases. Qed.
Lemma keeps_bind {A B} P (m : M S A) (f : A → M S B) :
  keeps panics P m → (∀ x, keeps panics P (f x)) → keeps panics P (bind m f).
Proof.
  intros Hm Hf. apply (triple_bind P (λ _, P)); [|done].
  eapply triple_conseq; [exact Hm|done|]. by intros [] s [? ?].
Qed.
Lemma keeps_attempt {A} P (m : M S A) : keeps panics P m → keeps panics P (attempt m).
Proof.
  intros Hm. eapply triple_attempt; [exact Hm|]. intros s. split_and!; intros ? [? ?]; auto.
Qed.

(** Sequencing after a computation that keeps its precondition. *)
Lemma triple_keeps_bind {A B} P (m : M S A) (f : A → M S B) (Q : result B → S → Prop) :
  keeps panics P m →
  (∀ s, P s → (∀ e, Q (Err e) s) ∧ (panics → ∀ msg, Q (Panic msg) s)) →
  (∀ x, triple P (f x) Q) → triple P (bind m f) Q.
Proof.
  intros Hm HQ Hf. apply (triple_bind P (λ _, P)); [|done].
  eapply triple_conseq; [exact Hm|done|].
  intros [x|e|msg] s [HP Hp]; simpl; [done|by apply HQ|by apply (HQ s HP)].
Qed.
End keeps.

Lemma keeps_any {A} P (m : M S A) :
  keeps True P m ↔ ∀ t s, P s → P (run_state m t s).
Proof.
  split; intros H t s HP; [by apply H|]. split; [by apply H|by destruct (run_result m t s)].
Qed.
Lemma keeps_trivial_any {A} (m : M S A) : keeps True (λ _, True) m.
Proof. by apply keeps_any. Qed.
Lemma keeps_weaken {A} P (m : M S A) : keeps False P m → keeps True P m.
Proof. intros Hm. apply keeps_any. intros t s HP. by apply Hm. Qed.
Lemma keeps_lift_any {A} P (r : result A) : keeps True P (lift_result r).
Proof. by apply keeps_any. Qed.
End triples.

Create HintDb keeps.
#[export] Hint Resolve keeps_ret keeps_throw keeps_panic keeps_lift keeps_poll keeps_get
  keeps_check_ctx keeps_bind keeps_attempt keeps_lift_any I : keeps.

(** Split a computation along its binds and matches, closing the leaves from the
    hints and the context; [tac] adds the rules of combinators. *)
Ltac keeps_with tac :=
  repeat (intros; first
    [ solve [auto with keeps]
    | match goal with
      | |- keeps _ _ (bind _ _) => apply keeps_bind
      | |- keeps _ _ (attempt _) => apply keeps_attempt
      | |- keeps _ _ (match ?x with _ => _ end) => destruct x
      end
    | tac ]).
Ltac keeps_split := keeps_with fail.
