(* ===== verification/Paths.v ===== *)
(** * Logical paths: [path.go]

    [Path] and its operations, the well-formedness that every parsed path has,
    and the correspondence between paths and lists of segments that the
    relationship operations implement. *)

From S2P Require Import Prelude GoStrings Errors Effects.

(** ** The operations *)

Record Path := mkPath { value : bytes }.

#[export] Instance Path_eq_dec : EqDecision Path.
Proof. solve_decision. Defined.

Definition Root : Path := mkPath [].

Definition invalidPath (value reason : bytes) : error :=
  Errorf "%w %q: %s" [Sentinel ErrInvalidPath] [FStr value; FStr reason].

Definition is_letter (c : Ascii.ascii) : bool :=
  in_range (code c) 65 90 || in_range (code c) 97 122.

Definition hasWindowsVolume (value : bytes) : bool :=
  match value with
  | v0 :: v1 :: _ => bool_decide (v1 = ":"%char) && is_letter v0
  | _ => false
  end.

(** The loop of [ParsePath] over the segments: [None] at the first parent
    segment, otherwise the segments that are neither empty nor ["."]. *)
Fixpoint normalize (segments : list bytes) : option (list bytes) :=
  match segments with
  | [] => Some []
  | segment :: rest =>
      if decide (segment = dotdot) then None
      else match normalize rest with
           | None => None
           | Some normalized =>
               Some (if decide (segment ≠ [] ∧ segment ≠ dot)
                     then segment :: normalized else normalized)
           end
  end.

Definition ParsePath (value : bytes) : result Path :=
  if decide (value = []) then Err (invalidPath value (bs "path is empty"))
  else if HasPrefix value (bs "\\") || hasWindowsVolume value then
    Err (invalidPath value (bs "platform-specific path"))
  else if has_control value then Err (invalidPath value (bs "control character"))
  else
    let value := ReplaceByte value backslash slash in
    match normalize (Split value slash) with
    | None => Err (invalidPath value (bs "parent segment"))
    | Some normalized =>
        if decide (normalized = []) then
          Err (invalidPath value (bs "path has no segments"))
        else
          let normalizedValue := Join normalized slash in
          if hasWindowsVolume normalizedValue then
            Err (invalidPath value (bs "platform-specific path"))
          else Ok (mkPath normalizedValue)
    end.

Definition MustParsePath (value : bytes) : result Path :=
  match ParsePath value with
  | Ok parsed => Ok parsed
  | _ => Panic "invalid filesystem path"
  end.

Definition IsRoot (p : Path) : bool := bool_decide (value p = []).

Definition Base (p : Path) : bytes := path_Base (value p).

Definition Dir (p : Path) : Path :=
  let directory := path_Dir (value p) in
  if decide (directory = dot) then mkPath [] else mkPath directory.

Definition JoinPath (p : Path) (relative : bytes) : result Path :=
  match ParsePath relative with
  | Ok joined =>
      if decide (value p = []) then Ok joined
      else ParsePath (value p ++ slash :: value joined)
  | Err e => Err e
  | Panic m => Panic m
  end.

(** ** Well-formed paths *)

(** A segment of a parsed path. *)
Definition segment_ok (seg : bytes) : Prop :=
  plain_segment seg ∧ backslash ∉ seg ∧ has_control seg = false.

#[export] Instance segment_ok_dec seg : Decision (segment_ok seg).
Proof. unfold segment_ok. apply _. Defined.

(** The segments of a path; [Root] has none. *)
Definition segments (p : Path) : list bytes :=
  if decide (value p = []) then [] else Split (value p) slash.

Definition ofSegments (segs : list bytes) : Path := mkPath (Join segs slash).

(** The head segment does not look like a drive. *)
Definition no_volume (segs : list bytes) : Prop :=
  match segs with [] => True | seg :: _ => hasWindowsVolume seg = false end.

#[export] Instance no_volume_dec segs : Decision (no_volume segs).
Proof. destruct segs; simpl; apply _. Defined.

Definition segments_ok (segs : list bytes) : Prop :=
  Forall segment_ok segs ∧ no_volume segs.

(** The invariant of [Path]: what the type's documentation promises. *)
Definition wf_path (p : Path) : Prop := segments_ok (segments p).

#[export] Instance wf_path_dec p : Decision (wf_path p).
Proof. unfold wf_path, segments_ok. apply _. Defined.

Example parse_ex :
  ParsePath (bs "/a//./b\c/") = Ok (mkPath (bs "a/b/c")) ∧
  is_ok (ParsePath (bs "a/../b")) = false ∧
  is_ok (ParsePath (bs "/C:x")) = false ∧
  ParsePath (bs "a/C:x") = Ok (mkPath (bs "a/C:x")).
Proof. vm_compute. auto. Qed.

(** ** Paths and segment lists *)

Lemma segment_ok_plain segs : Forall segment_ok segs → Forall plain_segment segs.
Proof. intros H. eapply Forall_impl; [exact H|]. by intros seg [? _]. Qed.

Lemma segment_ok_no_slash segs : Forall segment_ok segs → Forall (λ seg, slash ∉ seg) segs.
Proof. eauto using plain_no_slash, segment_ok_plain. Qed.

Create HintDb paths.
#[export] Hint Resolve segment_ok_plain segment_ok_no_slash : paths.

Lemma segment_ok_nonempty segs : Forall segment_ok segs → Forall (λ seg, seg ≠ []) segs.
Proof. intros H. eapply Forall_impl; [exact H|]. by intros seg [(? & _) _]. Qed.

Lemma segments_ofSegments segs : Forall segment_ok segs → segments (ofSegments segs) = segs.
Proof.
  intros H. unfold segments, ofSegments. simpl. case_decide as E.
  - symmetry. eapply Join_nil_inv; [|exact E]. by apply segment_ok_nonempty.
  - apply Split_Join; [|by auto with paths]. by intros ->.
Qed.

Lemma ofSegments_segments p : ofSegments (segments p) = p.
Proof.
  destruct p as [v]. unfold ofSegments, segments. simpl.
  case_decide; [by subst|]. by rewrite Join_Split.
Qed.

Lemma segments_inj p q : segments p = segments q → p = q.
Proof. intros H. by rewrite <- (ofSegments_segments p), H, ofSegments_segments. Qed.

Lemma segments_nil p : segments p = [] ↔ p = Root.
Proof.
  destruct p as [v]. unfold segments, Root. simpl. case_decide; [naive_solver|].
  split; [|naive_solver]. by intros ?%Split_not_nil.
Qed.

Lemma IsRoot_spec p : IsRoot p = true ↔ p = Root.
Proof. destruct p. unfold IsRoot, Root. rewrite bool_decide_eq_true. naive_solver. Qed.

Lemma segments_value p : value p ≠ [] → segments p = Split (value p) slash.
Proof. intros. unfold segments. by rewrite decide_False. Qed.

Lemma wf_Root : wf_path Root.
Proof. by repeat constructor. Qed.

Lemma wf_ofSegments segs : segments_ok segs → wf_path (ofSegments segs).
Proof. intros H. unfold wf_path. by rewrite segments_ofSegments by apply H. Qed.

#[export] Hint Resolve wf_Root wf_ofSegments : paths.

(** The head segment decides whether a joined path looks like a drive. *)
Lemma hasWindowsVolume_app seg rest :
  slash ∉ seg → hasWindowsVolume (seg ++ slash :: rest) = hasWindowsVolume seg.
Proof.
  intros Hs. destruct seg as [|c [|d seg]]; [|done|done].
  simpl. destruct rest; [done|]. by rewrite andb_false_r.
Qed.

Lemma hasWindowsVolume_Join segs :
  Forall (λ seg, slash ∉ seg) segs →
  hasWindowsVolume (Join segs slash) = false ↔ no_volume segs.
Proof.
  intros H. destruct H as [|seg segs Hseg Hsegs]; [done|].
  destruct segs; simpl; [done|]. by rewrite hasWindowsVolume_app.
Qed.

Lemma no_volume_app segs rest : segs ≠ [] → no_volume (segs ++ rest) ↔ no_volume segs.
Proof. by destruct segs. Qed.

Lemma segments_ok_app p q :
  segments_ok p → Forall segment_ok q → p ≠ [] → segments_ok (p ++ q).
Proof.
  intros [Hp Hv] Hq Hne. split; [by apply Forall_app|]. by apply no_volume_app.
Qed.

Lemma segments_ok_app_l p q : segments_ok (p ++ q) → segments_ok p.
Proof.
  intros [[Hp Hq]%Forall_app Hv]. split; [done|]. by destruct p.
Qed.

(** A well-formed path contains no control character and no backslash. *)
Lemma wf_no_control segs : Forall segment_ok segs → has_control (Join segs slash) = false.
Proof.
  intros H. rewrite has_control_Join by apply plain_sep_slash.
  induction H as [|seg segs (_ & _ & Hc) _ IH]; simpl; [done|]. by rewrite Hc.
Qed.

Lemma wf_no_backslash segs : Forall segment_ok segs → backslash ∉ Join segs slash.
Proof.
  intros H Hin. apply Join_elem_of in Hin as [|(seg & Hseg & Hin)]; [done|].
  rewrite Forall_forall in H. by destruct (H seg Hseg) as (_ & ? & _).
Qed.

(** ** What [ParsePath] accepts *)

Lemma normalize_spec segs l :
  normalize segs = Some l ↔
  dotdot ∉ segs ∧ l = filter (λ seg, seg ≠ [] ∧ seg ≠ dot) segs.
Proof.
  revert l. induction segs as [|seg segs IH]; intros l; simpl.
  { rewrite elem_of_nil. rewrite filter_nil. naive_solver. }
  case_decide as Hdd.
  { subst. rewrite elem_of_cons. naive_solver. }
  rewrite filter_cons, elem_of_cons.
  destruct (normalize segs) as [l'|] eqn:E.
  - destruct (proj1 (IH l') eq_refl) as [? ->]. split.
    + intros [= <-]. naive_solver.
    + by intros [_ ->].
  - split; [done|]. intros [Hn _]. exfalso.
    assert (None = Some (filter (λ seg, seg ≠ [] ∧ seg ≠ dot) segs)); [|done].
    apply IH. naive_solver.
Qed.

Lemma normalize_plain segs : Forall plain_segment segs → normalize segs = Some segs.
Proof.
  intros H. apply normalize_spec. split.
  - intros Hin. rewrite Forall_forall in H. by destruct (H _ Hin) as (_ & _ & ? & _).
  - induction H as [|seg segs (? & ? & _) _ IH]; [done|].
    rewrite filter_cons_True by done. by rewrite <- IH.
Qed.

(** The segments kept from control-free text without backslashes are segments
    of a well-formed path. *)
Lemma normalize_ok v l :
  backslash ∉ v → has_control v = false →
  normalize (Split v slash) = Some l → Forall segment_ok l.
Proof.
  intros Hb Hc [Hdd ->]%normalize_spec. apply Forall_forall.
  intros seg [[Hne Hnd] Hin]%list_elem_of_filter.
  pose proof (Split_segments v slash) as Hsl. rewrite Forall_forall in Hsl.
  split_and!.
  - split_and!; [done..| |by apply Hsl]. by intros ->.
  - intros Hbs. apply Hb. by eapply Split_elem_of.
  - rewrite (has_control_Split v slash) in Hc by apply plain_sep_slash.
    apply not_true_is_false. intros Hs.
    assert (existsb has_control (Split v slash) = true); [|congruence].
    apply existsb_exists. exists seg. by rewrite <- list_elem_of_In.
Qed.

(** A canonical path text parses to the path itself. *)
Lemma ParsePath_canonical segs :
  segs ≠ [] → segments_ok segs → ParsePath (Join segs slash) = Ok (ofSegments segs).
Proof.
  intros Hne [Hok Hv]. unfold ParsePath.
  destruct (Join_plain_head segs Hne) as (c & r & Hj & Hc); [by auto with paths|].
  rewrite decide_False by (by rewrite Hj).
  assert (HasPrefix (Join segs slash) (bs "\\") = false) as ->.
  { apply not_true_is_false. intros [r' Hr]%HasPrefix_true.
    apply (wf_no_backslash segs Hok). rewrite Hr. set_solver. }
  rewrite (proj2 (hasWindowsVolume_Join segs ltac:(auto with paths)) Hv).
  rewrite wf_no_control by done. cbn [orb].
  rewrite ReplaceByte_id by by apply wf_no_backslash.
  rewrite Split_Join by auto with paths.
  rewrite normalize_plain by auto with paths.
  rewrite decide_False by done.
  by rewrite (proj2 (hasWindowsVolume_Join segs ltac:(auto with paths)) Hv).
Qed.

(** Everything [ParsePath] returns: a canonical path or an [ErrInvalidPath]. *)
Lemma ParsePath_cases v :
  (∃ segs, ParsePath v = Ok (ofSegments segs) ∧ segs ≠ [] ∧ segments_ok segs) ∨
  (∃ e, ParsePath v = Err e ∧ Is e ErrInvalidPath = true).
Proof.
  unfold ParsePath.
  case_decide; [by right; eexists|].
  case_match; [by right; eexists|].
  destruct (has_control v) eqn:Hc; [by right; eexists|].
  destruct (normalize _) as [l|] eqn:Hn; [|by right; eexists].
  case_decide as Hl; [by right; eexists|].
  destruct (hasWindowsVolume (Join l slash)) eqn:Hv; [by right; eexists|].
  left. exists l. apply normalize_ok in Hn; [|by apply ReplaceByte_not_elem|].
  - split_and!; [done..|]. split; [done|]. apply hasWindowsVolume_Join; auto with paths.
  - by rewrite has_control_ReplaceByte.
Qed.

Lemma ParsePath_Ok v p :
  ParsePath v = Ok p → ∃ segs, p = ofSegments segs ∧ segs ≠ [] ∧ segments_ok segs.
Proof. destruct (ParsePath_cases v) as [(segs & H & ?)|(e & H & ?)]; rewrite H; naive_solver. Qed.

Lemma ParsePath_String p : wf_path p → p ≠ Root → ParsePath (value p) = Ok p.
Proof.
  intros Hp Hr. rewrite <- (ofSegments_segments p) at 1 2.
  apply ParsePath_canonical; [|done]. by rewrite segments_nil.
Qed.

Lemma MustParsePath_String p : wf_path p → p ≠ Root → MustParsePath (value p) = Ok p.
Proof. intros. unfold MustParsePath. by rewrite ParsePath_String. Qed.

(** Appending the text of one well-formed path to another. *)
Lemma value_app p q :
  p ≠ Root → q ≠ Root → value p ++ slash :: value q = Join (segments p ++ segments q) slash.
Proof.
  intros Hp Hq. rewrite <- segments_nil in Hp, Hq. rewrite Join_app by done.
  by rewrite <- (ofSegments_segments p), <- (ofSegments_segments q) at 1.
Qed.

Lemma ParsePath_app p q :
  wf_path p → wf_path q → p ≠ Root → q ≠ Root →
  ParsePath (value p ++ slash :: value q) = Ok (ofSegments (segments p ++ segments q)).
Proof.
  intros Hp [Hq _] Hpr Hqr. rewrite value_app by done.
  rewrite <- segments_nil in Hpr.
  apply ParsePath_canonical; [by destruct (segments p)|by apply segments_ok_app].
Qed.

Lemma JoinPath_ok p rel q :
  wf_path p → ParsePath rel = Ok q →
  JoinPath p rel = Ok (ofSegments (segments p ++ segments q)).
Proof.
  intros Hp Hq. unfold JoinPath. rewrite Hq.
  destruct (ParsePath_Ok _ _ Hq) as (segs & -> & Hne & Hok).
  case_decide as Hr.
  - assert (p = Root) as -> by (destruct p; simpl in *; by subst).
    simpl. by rewrite segments_ofSegments by apply Hok.
  - apply ParsePath_app; [by auto with paths..| |].
    + intros ->. done.
    + intros Hroot. apply Hne. apply segments_nil in Hroot.
      by rewrite segments_ofSegments in Hroot by apply Hok.
Qed.

Lemma JoinPath_wf p rel q :
  wf_path p → ParsePath rel = Ok q →
  ∃ j, JoinPath p rel = Ok j ∧ wf_path j ∧ segments j = segments p ++ segments q ∧ segments q ≠ [].
Proof.
  intros Hp Hq. pose proof (ParsePath_Ok _ _ Hq) as (segs & -> & Hne & Hok).
  assert (Hj : segments_ok (segments p ++ segments (ofSegments segs))).
  { rewrite segments_ofSegments by apply Hok.
    destruct (decide (segments p = [])) as [->|]; [done|].
    apply segments_ok_app; [done|apply Hok|done]. }
  eexists. split; [by apply JoinPath_ok|]. split; [by auto with paths|].
  by rewrite segments_ofSegments, segments_ofSegments by (apply Hj || apply Hok).
Qed.

(** Joining descends: it never panics, and a result lies strictly below. *)
Lemma JoinPath_below p rel :
  wf_path p →
  match JoinPath p rel with
  | Ok j => wf_path j ∧ ∃ ext, ext ≠ [] ∧ segments j = segments p ++ ext
  | Err _ => True
  | Panic _ => False
  end.
Proof.
  intros Hp. destruct (ParsePath_cases rel) as [(segs & Hq & _)|(e & He & _)].
  - destruct (JoinPath_wf p rel _ Hp Hq) as (j & -> & ? & ? & ?). eauto.
  - unfold JoinPath. by rewrite He.
Qed.

Lemma segments_snoc p : p ≠ Root → ∃ segs seg, segments p = segs ++ [seg].
Proof.
  intros Hr. rewrite <- segments_nil in Hr.
  destruct (exists_last Hr) as (segs & seg & E). eauto.
Qed.

Lemma Dir_snoc p segs seg :
  wf_path p → segments p = segs ++ [seg] → Dir p = ofSegments segs.
Proof.
  intros [Hok _] Hs. rewrite Hs in Hok. unfold Dir.
  rewrite <- (ofSegments_segments p), Hs. cbn [value ofSegments].
  rewrite path_Dir_plain by auto with paths.
  apply Forall_app in Hok as [Hok _].
  destruct segs as [|s0 segs]; [done|].
  rewrite decide_False; [done|].
  intros E. assert (Hc : segments (ofSegments (s0 :: segs)) = [dot]).
  { unfold ofSegments. by rewrite E. }
  rewrite segments_ofSegments in Hc by done. injection Hc as -> ->.
  apply Forall_cons in Hok as [[(_ & Hd & _) _] _]. done.
Qed.

Lemma Base_snoc p segs seg :
  wf_path p → segments p = segs ++ [seg] → Base p = seg.
Proof.
  intros [Hok _] Hs. rewrite Hs in Hok. unfold Base.
  rewrite <- (ofSegments_segments p), Hs. cbn [value ofSegments].
  by apply path_Base_plain, segment_ok_plain.
Qed.

(** Parsed text means its segments, less the empty and dot ones. *)
Lemma ParsePath_kept v p :
  ParsePath v = Ok p →
  p = ofSegments (filter (λ seg, seg ≠ [] ∧ seg ≠ dot)
                    (Split (ReplaceByte v backslash slash) slash)).
Proof.
  unfold ParsePath. repeat case_match; intros; simplify_eq.
  match goal with Hn : normalize _ = Some _ |- _ => by apply normalize_spec in Hn as [_ ->] end.
Qed.

(** ** Properties *)

(** C8: parsing is sound and total: whatever the text, [ParsePath] does not
    panic, and it either returns a path that is not the root and whose segments
    are non-empty, contain no separator, backslash or control character, are
    neither ["."] nor [".."] and do not start with a drive, or fails with an
    error that [errors.Is] classifies as [ErrInvalidPath]. *)
Theorem ParsePath_sound v :
  match ParsePath v with
  | Ok p => wf_path p ∧ p ≠ Root
  | Err e => Is e ErrInvalidPath = true
  | Panic _ => False
  end.
Proof.
  destruct (ParsePath_cases v) as [(segs & -> & Hne & Hok)|(e & -> & He)]; [|done].
  split; [by auto with paths|].
  rewrite <- segments_nil. by rewrite segments_ofSegments by apply Hok.
Qed.

(** Print then parse: the text of a path that is not the root parses to
    that path, so a path survives being stored as an object key and read back. *)
Theorem ParsePath_roundtrip p :
  wf_path p → p ≠ Root → ParsePath (value p) = Ok p.
Proof. apply ParsePath_String. Qed.

Lemma ParsePath_roundtrip_witness :
  wf_path (mkPath (bs "a/b c/d.txt")) ∧
  ParsePath (bs "a/b c/d.txt") = Ok (mkPath (bs "a/b c/d.txt")).
Proof.
  split; [decide_now|].
  apply (ParsePath_roundtrip (mkPath (bs "a/b c/d.txt"))); [|done].
  decide_now.
Defined.

(** C7: exactly which text is accepted and what it means: text is accepted if
    and only if it does not start with two backslashes or a drive, has no
    control character, and, read with both separators, has no parent segment and
    keeps at least one segment after empty and dot segments are dropped, the
    first of which is not a drive; the path then has exactly the kept segments. *)
Theorem ParsePath_accepts v p :
  ParsePath v = Ok p ↔
  let segs := Split (ReplaceByte v backslash slash) slash in
  let kept := filter (λ seg, seg ≠ [] ∧ seg ≠ dot) segs in
  HasPrefix v (bs "\\") = false ∧ hasWindowsVolume v = false ∧ has_control v = false ∧
  dotdot ∉ segs ∧ kept ≠ [] ∧ no_volume kept ∧ p = ofSegments kept.
Proof.
  cbv zeta. set (segs := Split (ReplaceByte v backslash slash) slash).
  set (kept := filter _ segs). unfold ParsePath.
  case_decide as Hnil; [subst v; split; [done|]; naive_solver|].
  destruct (HasPrefix v _) eqn:Hp; [naive_solver|].
  destruct (hasWindowsVolume v) eqn:Hv; [naive_solver|].
  destruct (has_control v) eqn:Hc; [naive_solver|]. cbn [orb].
  destruct (normalize _) as [l|] eqn:Hn.
  2:{ split; [done|]. intros (_ & _ & _ & Hdd & _).
      assert (normalize segs = Some kept) by by apply normalize_spec.
      unfold segs in *. congruence. }
  assert (Hok := Hn). apply normalize_ok in Hok;
    [|by apply ReplaceByte_not_elem|by rewrite has_control_ReplaceByte].
  apply normalize_spec in Hn as [Hdd ->]. fold segs kept in Hok |- *.
  case_decide; [naive_solver|].
  destruct (hasWindowsVolume (Join kept slash)) eqn:Hjv.
  - split; [done|]. intros (_ & _ & _ & _ & _ & Hnv & _).
    apply hasWindowsVolume_Join in Hnv; [congruence|by auto with paths].
  - apply hasWindowsVolume_Join in Hjv; [|by auto with paths].
    unfold ofSegments. naive_solver.
Qed.

(** [Join] concatenates segments: for a well-formed receiver it returns
    the error of parsing its argument, and when the argument parses it always
    succeeds with the well-formed path whose segments are the receiver's
    followed by the argument's. *)
Theorem JoinPath_segments p rel :
  wf_path p →
  match ParsePath rel with
  | Ok q => ∃ j, JoinPath p rel = Ok j ∧ wf_path j ∧ segments j = segments p ++ segments q
  | Err e => JoinPath p rel = Err e
  | Panic _ => False
  end.
Proof.
  intros Hp. destruct (ParsePath_cases rel) as [(segs & Hq & _)|(e & He & _)].
  - destruct (JoinPath_wf p rel _ Hp Hq) as (j & ? & ? & ? & _). rewrite Hq. eauto.
  - unfold JoinPath. by rewrite He.
Qed.

Lemma JoinPath_segments_witness :
  wf_path (mkPath (bs "a/b")) ∧
  ∃ j, JoinPath (mkPath (bs "a/b")) (bs "./c\d") = Ok j ∧ wf_path j ∧
       segments j = [bs "a"; bs "b"] ++ [bs "c"; bs "d"].
Proof.
  assert (H : wf_path (mkPath (bs "a/b"))) by decide_now.
  split; [exact H|]. exact (JoinPath_segments (mkPath (bs "a/b")) (bs "./c\d") H).
Defined.

(** [Dir] and [Base] split off the last segment: a well-formed path other
    than the root has the segments of its (well-formed) directory followed by
    its base name. *)
Theorem Dir_Base_segments p :
  wf_path p → p ≠ Root →
  wf_path (Dir p) ∧ segments p = segments (Dir p) ++ [Base p].
Proof.
  intros Hp Hr. destruct (segments_snoc p Hr) as (segs & seg & Hs).
  assert (Hok : segments_ok segs).
  { eapply segments_ok_app_l. rewrite <- Hs. exact Hp. }
  rewrite (Dir_snoc p segs seg), (Base_snoc p segs seg) by done.
  split; [by auto with paths|]. by rewrite segments_ofSegments by apply Hok.
Qed.

Lemma Dir_Base_segments_witness :
  wf_path (Dir (mkPath (bs "a/b/c"))) ∧
  segments (mkPath (bs "a/b/c")) = segments (Dir (mkPath (bs "a/b/c"))) ++ [Base (mkPath (bs "a/b/c"))].
Proof.
  apply (Dir_Base_segments (mkPath (bs "a/b/c"))); [|done].
  decide_now.
Defined.

(** A path can have a child that [Join] refuses to name: the child's own path
    is well-formed, but its base name alone reads as a drive. *)
Theorem JoinPath_rejects_drive_child :
  let p := mkPath (bs "a/C:x") in
  wf_path p ∧ ParsePath (value p) = Ok p ∧
  ∃ e, JoinPath (Dir p) (Base p) = Err e ∧ Is e ErrInvalidPath = true.
Proof.
  split; [decide_now|].
  split; [done|]. by eexists.
Qed.
