(* ===== verification/Capability.v ===== *)
(** * Capability sets: [capability.go] *)

From S2P Require Import Prelude GoStrings Errors Effects.

Definition CapabilityRead : Capability := bs "read".
Definition CapabilityWrite : Capability := bs "write".
Definition CapabilityDelete : Capability := bs "delete".
Definition CapabilityList : Capability := bs "list".
Definition CapabilityStat : Capability := bs "stat".
Definition CapabilityCopy : Capability := bs "copy".
Definition CapabilityMove : Capability := bs "move".
Definition CapabilityRangeRead : Capability := bs "range-read".
Definition CapabilityMetadata : Capability := bs "metadata".
Definition CapabilityChecksum : Capability := bs "checksum".
Definition CapabilityTemporaryURL : Capability := bs "temporary-url".
Definition CapabilityVisibility : Capability := bs "visibility".
Definition CapabilityMultipart : Capability := bs "multipart-upload".
Definition CapabilityStreamingWrite : Capability := bs "streaming-write".

(** The keys of the package's [map[Capability]struct{}]. *)
Definition knownCapabilities : list Capability :=
  [CapabilityRead; CapabilityWrite; CapabilityDelete; CapabilityList; CapabilityStat;
   CapabilityCopy; CapabilityMove; CapabilityRangeRead; CapabilityMetadata;
   CapabilityChecksum; CapabilityTemporaryURL; CapabilityVisibility;
   CapabilityMultipart; CapabilityStreamingWrite].

(** The slice in declaration order and the index map's key set. *)
Record CapabilitySet := mkCapabilitySet {
  values : list Capability;
  index : gset bytes;
}.

(** The loop of [NewCapabilitySet]. *)
Fixpoint capability_loop (capabilities : list Capability) (set : CapabilitySet)
    : result CapabilitySet :=
  match capabilities with
  | [] => Ok set
  | capability :: rest =>
      if decide (capability ∉ knownCapabilities) then
        Panic "filesystem: unknown capability"
      else if decide (capability ∈ index set) then capability_loop rest set
      else capability_loop rest
             (mkCapabilitySet (values set ++ [capability]) ({[capability]} ∪ index set))
  end.

Definition NewCapabilitySet (capabilities : list Capability) : result CapabilitySet :=
  capability_loop capabilities (mkCapabilitySet [] ∅).

Definition Supports (s : CapabilitySet) (capability : Capability) : bool :=
  bool_decide (capability ∈ index s).

Definition ListCapabilities (s : CapabilitySet) : list Capability := values s.

(** ** The set [NewCapabilitySet] builds *)

(** Keep the first occurrence of every element. *)
Definition first_occurrences (l : list Capability) : list Capability :=
  reverse (remove_dups (reverse l)).

Lemma first_occurrences_snoc l x :
  first_occurrences (l ++ [x]) =
  if decide (x ∈ l) then first_occurrences l else first_occurrences l ++ [x].
Proof.
  unfold first_occurrences. rewrite reverse_snoc. simpl.
  destruct (decide_rel elem_of x (reverse l)) as [Hin|Hin];
    rewrite elem_of_reverse in Hin.
  - by rewrite decide_True.
  - rewrite decide_False by done. by rewrite reverse_cons.
Qed.

Lemma elem_of_first_occurrences x l : x ∈ first_occurrences l ↔ x ∈ l.
Proof. unfold first_occurrences. by rewrite elem_of_reverse, elem_of_remove_dups, elem_of_reverse. Qed.

Lemma NoDup_first_occurrences l : NoDup (first_occurrences l).
Proof. unfold first_occurrences. rewrite reverse_Permutation. apply NoDup_remove_dups. Qed.

(** The set that represents the capabilities [done] in order. *)
Definition set_of (done : list Capability) : CapabilitySet :=
  mkCapabilitySet (first_occurrences done) (list_to_set done).

Lemma capability_loop_spec capabilities done :
  capability_loop capabilities (set_of done) =
  if decide (Forall (λ c, c ∈ knownCapabilities) capabilities)
  then Ok (set_of (done ++ capabilities))
  else Panic "filesystem: unknown capability".
Proof.
  revert done. induction capabilities as [|c rest IH]; intros done.
  { rewrite decide_True by constructor. by rewrite app_nil_r. }
  cbn [capability_loop]. destruct (decide (c ∉ knownCapabilities)) as [Hk|Hk].
  { rewrite decide_False; [done|]. by intros [? _]%Forall_cons. }
  apply dec_stable in Hk. cbn [index set_of].
  assert (Hstep : (if decide (c ∈ (list_to_set done : gset bytes))
                   then set_of done
                   else mkCapabilitySet (first_occurrences done ++ [c])
                          ({[c]} ∪ list_to_set done))
                  = set_of (done ++ [c])).
  { unfold set_of. rewrite first_occurrences_snoc, list_to_set_app_L. simpl.
    rewrite union_empty_r_L.
    destruct (decide (c ∈ (list_to_set done : gset bytes))) as [Hin|Hin];
      rewrite elem_of_list_to_set in Hin.
    - rewrite decide_True by done. f_equal. set_solver.
    - rewrite decide_False by done. f_equal. set_solver. }
  assert (Hgoal : capability_loop rest (set_of (done ++ [c])) =
    if decide (Forall (λ c, c ∈ knownCapabilities) (c :: rest))
    then Ok (set_of (done ++ c :: rest)) else Panic "filesystem: unknown capability").
  { rewrite IH, <- app_assoc. simpl.
    destruct (decide (Forall _ rest)) as [H|H];
      [rewrite decide_True by by constructor|rewrite decide_False by by intros [_ ?]%Forall_cons];
      done. }
  rewrite <- Hgoal, <- Hstep.
  by destruct (decide (c ∈ (list_to_set done : gset bytes))).
Qed.

Lemma NewCapabilitySet_known capabilities :
  Forall (λ c, c ∈ knownCapabilities) capabilities →
  NewCapabilitySet capabilities = Ok (set_of capabilities).
Proof.
  intros. change (NewCapabilitySet capabilities) with (capability_loop capabilities (set_of [])).
  rewrite capability_loop_spec. by rewrite decide_True.
Qed.

Lemma Supports_set_of capabilities c :
  Supports (set_of capabilities) c = bool_decide (c ∈ capabilities).
Proof. unfold Supports. simpl. apply bool_decide_ext, elem_of_list_to_set. Qed.

(** A capability set is built exactly from known capabilities: an unknown
    capability panics, and otherwise [List] returns every declared capability
    once, in the order of first declaration, and [Supports] answers exactly for
    the declared ones. *)
Theorem NewCapabilitySet_spec capabilities :
  match NewCapabilitySet capabilities with
  | Ok s =>
      Forall (λ c, c ∈ knownCapabilities) capabilities ∧
      ListCapabilities s = first_occurrences capabilities ∧
      NoDup (ListCapabilities s) ∧
      ∀ c, Supports s c = bool_decide (c ∈ capabilities)
  | Err _ => False
  | Panic _ => ∃ c, c ∈ capabilities ∧ c ∉ knownCapabilities
  end.
Proof.
  change (NewCapabilitySet capabilities) with (capability_loop capabilities (set_of [])).
  rewrite capability_loop_spec. case_decide as H.
  - split_and!; [done|done|apply NoDup_first_occurrences|]. apply Supports_set_of.
  - apply not_Forall_Exists, Exists_exists in H; [|apply _]. naive_solver.
Qed.
