(* ===== verification/Contracts.v ===== *)
(** * Shared contracts: [contracts.go]

    The option and result types of the capability interfaces, byte streams, and
    the [EntryIterator] interface as a type class. *)

From S2P Require Import Prelude GoStrings Errors Effects Paths.

(** ** Options and results *)

Record ByteRange := mkByteRange { Offset : Z; Length : Z }.

(** A Go [map[string]string], which may be nil. *)
Abbreviation stringmap := (option (gmap bytes bytes)).

Abbreviation Visibility := bytes (only parsing).
Definition VisibilityPrivate : Visibility := bs "private".
Definition VisibilityPublic : Visibility := bs "public".

Abbreviation EntryKind := bytes (only parsing).
Definition EntryKindFile : EntryKind := bs "file".
Definition EntryKindDirectory : EntryKind := bs "directory".

Record WriteOptions := mkWriteOptions {
  wContentType : bytes;
  wMetadata : stringmap;
  wVisibility : Visibility;
  wIfNoneMatch : bool;
}.

Record ListOptions := mkListOptions { Recursive : bool; Limit : Z }.

(** [CopyOptions] and [MoveOptions] both carry one flag. *)
Record CopyOptions := mkCopyOptions { cOverwrite : bool }.
Record MoveOptions := mkMoveOptions { mOverwrite : bool }.

Record TemporaryURLOptions := mkTemporaryURLOptions {
  DownloadName : bytes;
  tContentType : bytes;
}.

(** Times are nanoseconds since the zero [time.Time]. *)
Record Metadata := mkMetadata {
  mPath : Path;
  mKind : EntryKind;
  mSize : Z;
  mModified : Z;
  mETag : bytes;
  mContentType : bytes;
  mUserMetadata : stringmap;
  mVisibility : Visibility;
}.

Record Entry := mkEntry {
  ePath : Path;
  eKind : EntryKind;
  eSize : Z;
  eModified : Z;
}.

#[export] Instance Entry_eq_dec : EqDecision Entry.
Proof. solve_decision. Defined.

(** The zero [Entry]. *)
Definition zeroEntry : Entry := mkEntry Root [] 0 0.

(** [metadata.Path = path]. *)
Definition set_mPath (path : Path) (m : Metadata) : Metadata :=
  mkMetadata path (mKind m) (mSize m) (mModified m) (mETag m) (mContentType m)
    (mUserMetadata m) (mVisibility m).

Definition set_ePath (path : Path) (e : Entry) : Entry :=
  mkEntry path (eKind e) (eSize e) (eModified e).

Abbreviation ChecksumAlgorithm := bytes (only parsing).
Definition ChecksumMD5 : ChecksumAlgorithm := bs "md5".
Definition ChecksumSHA256 : ChecksumAlgorithm := bs "sha256".
Definition ChecksumCRC32C : ChecksumAlgorithm := bs "crc32c".

Record Checksum := mkChecksum { Algorithm : ChecksumAlgorithm; Value : bytes }.

(** ** Streams

    An [io.Reader] is the sequence of its answers to successive [Read] calls:
    the bytes delivered and the error returned beside them.  After its last
    answer a reader is at [io.EOF].  Only readers that end are represented; how
    a reader cuts its bytes depends on the caller's buffers, so statements
    quantify over all cuts. *)
Abbreviation reader := (list (bytes * option error)).

(** Read to the end as [io.ReadAll] and [io.Copy] do: the bytes delivered and
    the first error other than [io.EOF]. *)
Fixpoint ReadAll (r : reader) : bytes * option error :=
  match r with
  | [] => ([], None)
  | (chunk, None) :: r' => let '(rest, e) := ReadAll r' in (chunk ++ rest, e)
  | (chunk, Some (Sentinel EOF)) :: _ => (chunk, None)
  | (chunk, Some e) :: _ => (chunk, Some e)
  end.

(** [io.Copy] of [contextReader{ctx, r}], memory.go:388-400: every [Read]
    consults the context first.  Returns what was copied and the error. *)
Fixpoint copy_ctx {S} (ctx : context) (r : reader) : M S (bytes * option error) :=
  let! done := poll ctx in
  match done with
  | Some e => ret ([], Some e)
  | None =>
      match r with
      | [] => ret ([], None)
      | (chunk, None) :: r' =>
          let! copied := copy_ctx ctx r' in ret (chunk ++ copied.1, copied.2)
      | (chunk, Some (Sentinel EOF)) :: _ => ret (chunk, None)
      | (chunk, Some e) :: _ => ret (chunk, Some e)
      end
  end.

(** An [io.ReadCloser]: what it delivers and what [Close] returns. *)
Record stream := mkStream { body : reader; close_err : option error }.

(** The [io.WriteCloser] of a streaming upload: the consumer's run on what the
    producer sent before closing (see [StreamWriter.v]). *)
Definition writer (S : Type) : Type := reader → M S unit.

Lemma copy_ctx_Background {S} r t (s : S) :
  ∃ t', copy_ctx Background r t s = (Ok (ReadAll r), (t', s)).
Proof.
  revert t. induction r as [|[chunk err] r IH]; intros t; [by eexists|].
  cbn [copy_ctx ReadAll]. unfold bind, poll, ret. simpl.
  destruct err as [e|].
  - destruct e as [[]| | | | | |]; by eexists.
  - destruct (IH (t + 1)) as [t' ->]. destruct (ReadAll r). by eexists.
Qed.

(** What a copy under any context delivers: all of the stream, or a prefix of
    it together with an error. *)
Lemma copy_ctx_result {S} ctx r t (s : S) :
  ∃ b e t', copy_ctx ctx r t s = (Ok (b, e), (t', s)) ∧ t + 1 ≤ t' ∧
    ((b, e) = ReadAll r ∨ ∃ ce, e = Some (ctx_error_value ce)).
Proof.
  revert t. induction r as [|[chunk err] r IH]; intros t.
  - simpl. unfold bind, poll, ret. simpl. destruct (ctx_Err ctx t) as [e|] eqn:Hctx.
    + destruct (ctx_Err_value _ _ _ Hctx) as [ce ->].
      eexists _, _, _. split; [done|]. split; [lia|eauto].
    + eexists _, _, _. split; [done|]. split; [lia|auto].
  - cbn [copy_ctx ReadAll]. unfold bind, poll, ret. simpl.
    destruct (ctx_Err ctx t) as [ce|] eqn:Hctx.
    { destruct (ctx_Err_value _ _ _ Hctx) as [c ->].
      eexists _, _, _. split; [done|]. split; [lia|eauto]. }
    destruct err as [e|].
    + destruct e as [[]| | | | | |]; eexists _, _, _; (split; [done|]; split; [lia|auto]).
    + destruct (IH (t + 1)) as (b & e & t' & -> & Hle & Hcase).
      destruct (ReadAll r) as [rest e']. eexists _, _, _. split; [done|].
      split; [lia|]. destruct Hcase as [[= -> ->]|?]; [by left|by right].
Qed.

Lemma copy_ctx_pure {S} ctx r : pure_state (copy_ctx (S:=S) ctx r).
Proof.
  intros t s. unfold run_state.
  by destruct (copy_ctx_result ctx r t s) as (b & e & t' & -> & _).
Qed.
#[export] Hint Resolve copy_ctx_pure : effects.

(** ** Iterators *)

(** The methods of [EntryIterator] over the iterator's own state. *)
Class EntryIterator (I : Type) := {
  Next : I → bool * I;
  EntryOf : I → Entry;
  IterErr : I → option error;
  CloseIter : I → option error * I;
}.

(** A loop [for iterator.Next() { ... iterator.Entry() ... }], with at most
    [fuel] calls of [Next]; [None] when they do not suffice. *)
Fixpoint drain {I} `{EntryIterator I} (fuel : nat) (it : I) : option (list Entry * I) :=
  match fuel with
  | O => None
  | S fuel' =>
      match Next it with
      | (false, it') => Some ([], it')
      | (true, it') =>
          match drain fuel' it' with
          | Some (es, it'') => Some (EntryOf it' :: es, it'')
          | None => None
          end
      end
  end.

(** What a client may rely on: every successful [Next] makes progress, so a
    loop over the iterator ends. *)
Class FiniteIterator (I : Type) `{EntryIterator I} := {
  remaining : I → nat;
  Next_progress it it' : Next it = (true, it') → (remaining it' < remaining it)%nat;
}.

Lemma drain_enough {I} `{FiniteIterator I} fuel it :
  (remaining it < fuel)%nat → is_Some (drain fuel it).
Proof.
  revert it. induction fuel as [|fuel IH]; intros it Hf; [lia|]. simpl.
  destruct (Next it) as [[] it'] eqn:E; [|by eexists].
  apply Next_progress in E. destruct (IH it') as [[es it''] ->]; [lia|]. by eexists.
Qed.

Lemma drain_mono {I} `{EntryIterator I} fuel fuel' (it : I) r :
  drain fuel it = Some r → (fuel ≤ fuel')%nat → drain fuel' it = Some r.
Proof.
  revert fuel' it r. induction fuel as [|fuel IH]; intros fuel' it r; simpl; [done|].
  intros Hd Hle. destruct fuel' as [|fuel']; [lia|]. simpl.
  destruct (Next it) as [[] it']; [|done].
  destruct (drain fuel it') as [[es it'']|] eqn:E; [|done].
  by rewrite (IH fuel' _ _ E) by lia.
Qed.
