(* ===== verification/Iterator.v ===== *)
(** * Slice iterators: memory/memory.go lines 402-438

    The [local], [s3], [sftp] and [ftp] packages declare the same type with the
    same methods. *)

From S2P Require Import Prelude GoStrings Errors Effects Paths Contracts.

Record iterator := mkIterator {
  entries : list Entry;
  current : Entry;
  hasCurrent : bool;
  closed : bool;
}.

(** [&iterator{entries: entries}]. *)
Definition newIterator (es : list Entry) : iterator := mkIterator es zeroEntry false false.

Definition iterator_Next (i : iterator) : bool * iterator :=
  if closed i then (false, i)
  else match entries i with
       | [] => (false, i)
       | e :: rest => (true, mkIterator rest e true (closed i))
       end.

Definition iterator_Entry (i : iterator) : Entry :=
  if negb (hasCurrent i) then zeroEntry else current i.

Definition iterator_Err (i : iterator) : option error := None.

Definition iterator_Close (i : iterator) : option error * iterator :=
  (None, mkIterator (entries i) (current i) (hasCurrent i) true).

#[export] Instance iterator_EntryIterator : EntryIterator iterator := {
  Next := iterator_Next;
  EntryOf := iterator_Entry;
  IterErr := iterator_Err;
  CloseIter := iterator_Close;
}.

#[export] Program Instance iterator_Finite : FiniteIterator iterator := {
  remaining := λ i, length (entries i);
}.
Next Obligation.
  intros i i'. simpl. unfold iterator_Next.
  destruct (closed i); [done|]. destruct (entries i); [done|].
  intros [= <-]. simpl. lia.
Qed.

Lemma drain_iterator es cur has fuel :
  (length es < fuel)%nat →
  ∃ it', drain fuel (mkIterator es cur has false) = Some (es, it') ∧
    iterator_Next it' = (false, it') ∧ iterator_Err it' = None.
Proof.
  revert cur has fuel. induction es as [|e es IH]; intros cur has [|fuel] Hf; simpl in *; try lia.
  - by eexists.
  - destruct (IH e true fuel ltac:(lia)) as (it' & Hd & ? & ?). rewrite Hd. by eexists.
Qed.

(** An iterator over collected entries yields exactly those entries, in
    order, to a [Next]/[Entry] loop; the loop ends, further [Next] calls keep
    answering false without an error, [Entry] before the first [Next] is the
    zero entry, and after [Close] no entry is yielded. *)
Theorem iterator_yields es :
  (∃ it', drain (S (length es)) (newIterator es) = Some (es, it') ∧
          iterator_Next it' = (false, it') ∧ iterator_Err it' = None) ∧
  iterator_Entry (newIterator es) = zeroEntry ∧
  (∀ it, (iterator_Next (iterator_Close it).2).1 = false).
Proof.
  split; [|done]. apply drain_iterator. lia.
Qed.
