(* ===== verification/Digest.v ===== *)
(** * Digests: the hash functions and encodings of the checksum operations

    Executable MD5, SHA-256 and CRC-32C over byte sequences, and the two
    renderings the sources use: [hex.EncodeToString] of the digest bytes and
    [fmt.Sprintf] with the 8-digit verb on the CRC value. *)

From S2P Require Import Prelude.

(** ** Encodings *)

Definition ascii_of_Z (z : Z) : Ascii.ascii := Ascii.ascii_of_N (Z.to_N z).

Definition hex_digit (n : Z) : Ascii.ascii :=
  ascii_of_Z (if n <? 10 then 48 + n else 87 + n).

(** [hex.EncodeToString]. *)
Definition EncodeToString (b : bytes) : bytes :=
  flat_map (λ c, [hex_digit (code c / 16); hex_digit (code c mod 16)]) b.

(** [n] bytes of [z], most and least significant first. *)
Fixpoint be_bytes (n : nat) (z : Z) : bytes :=
  match n with
  | O => []
  | S n' => be_bytes n' (z / 256) ++ [ascii_of_Z (z mod 256)]
  end.
Definition le_bytes (n : nat) (z : Z) : bytes := reverse (be_bytes n z).

(** [fmt.Sprintf("%08x", z)] for a 32-bit [z]. *)
Fixpoint hex_digits (n : nat) (z : Z) : bytes :=
  match n with
  | O => []
  | S n' => hex_digits n' (z / 16) ++ [hex_digit (z mod 16)]
  end.
Definition Sprintf08x (z : Z) : bytes := hex_digits 8 z.

(** ** 32-bit words *)

Definition w32 (z : Z) : Z := z mod 2 ^ 32.
Definition add32 (a b : Z) : Z := w32 (a + b).
Definition not32 (a : Z) : Z := Z.lxor a (2 ^ 32 - 1).
Definition rotr32 (x n : Z) : Z := Z.lor (Z.shiftr x n) (w32 (Z.shiftl x (32 - n))).
Definition rotl32 (x n : Z) : Z := rotr32 x (32 - n).

(** Cut into groups of [n], dropping a short last group. *)
Fixpoint chunks {A} (fuel n : nat) (l : list A) : list (list A) :=
  match fuel with
  | O => []
  | S f => if (length l <? n)%nat then [] else take n l :: chunks f n (drop n l)
  end.

Definition be_word (b : bytes) : Z := foldl (λ acc c, acc * 256 + code c) 0 b.
Definition le_word (b : bytes) : Z := be_word (reverse b).

(** The padding both MD5 and SHA-256 use, up to the byte order of the length. *)
Definition pad (encode_len : nat → Z → bytes) (msg : bytes) : bytes :=
  let n := length msg in
  let zeros := (Z.to_nat ((55 - Z.of_nat n) mod 64)) in
  msg ++ ascii_of_Z 128 :: repeat (ascii_of_Z 0) zeros ++ encode_len 8%nat (8 * Z.of_nat n).

Definition blocks (b : bytes) : list bytes := chunks (length b) 64 b.

(** ** SHA-256 *)

(** FIPS 180-4 takes the round constants from the fractional parts of the
    cube roots of the first 64 primes, and the initial state from those of
    the square roots of the first 8; they are computed from that rule. *)
Definition is_prime (n : Z) : bool :=
  (2 <=? n) && forallb (fun d => negb (n mod d =? 0)) (seqZ 2 (n - 2)).

Definition primes : list Z := List.filter is_prime (seqZ 0 312).

(** The integer cube root, one result bit at a time. *)
Fixpoint cbrt_bits (n : nat) (z r : Z) : Z :=
  match n with
  | O => r
  | S n' => let r' := r + 2 ^ Z.of_nat n' in cbrt_bits n' z (if r' ^ 3 <=? z then r' else r)
  end.

Definition sha256_k : list Z :=
  Eval vm_compute in (fun p => w32 (cbrt_bits 36 (p * 2 ^ 96) 0)) <$> primes.

Definition sha256_init : list Z :=
  Eval vm_compute in (fun p => w32 (Z.sqrt (p * 2 ^ 64))) <$> take 8 primes.

(** The message schedule, newest word first. *)
Fixpoint sha256_extend (n : nat) (w : list Z) : list Z :=
  match n with
  | O => w
  | S n' =>
      let x := nth 14 w 0 in let y := nth 1 w 0 in
      let s0 := Z.lxor (Z.lxor (rotr32 x 7) (rotr32 x 18)) (Z.shiftr x 3) in
      let s1 := Z.lxor (Z.lxor (rotr32 y 17) (rotr32 y 19)) (Z.shiftr y 10) in
      sha256_extend n' (w32 (nth 15 w 0 + s0 + nth 6 w 0 + s1) :: w)
  end.

Definition sha256_round (h : list Z) (kw : Z * Z) : list Z :=
  match h with
  | [a; b; c; d; e; f; g; hh] =>
      let s1 := Z.lxor (Z.lxor (rotr32 e 6) (rotr32 e 11)) (rotr32 e 25) in
      let ch := Z.lxor (Z.land e f) (Z.land (not32 e) g) in
      let t1 := w32 (hh + s1 + ch + kw.1 + kw.2) in
      let s0 := Z.lxor (Z.lxor (rotr32 a 2) (rotr32 a 13)) (rotr32 a 22) in
      let maj := Z.lxor (Z.lxor (Z.land a b) (Z.land a c)) (Z.land b c) in
      [add32 t1 (w32 (s0 + maj)); a; b; c; add32 d t1; e; f; g]
  | _ => h
  end.

Definition sha256_block (h : list Z) (block : bytes) : list Z :=
  let w := reverse (sha256_extend 48 (reverse (be_word <$> chunks 16 4 block))) in
  zip_with add32 h (foldl sha256_round h (zip sha256_k w)).

Definition sha256_Sum256 (msg : bytes) : bytes :=
  flat_map (be_bytes 4) (foldl sha256_block sha256_init (blocks (pad be_bytes msg))).

(** ** MD5 *)

Definition md5_k : list Z :=
  [0xd76aa478; 0xe8c7b756; 0x242070db; 0xc1bdceee; 0xf57c0faf; 0x4787c62a; 0xa8304613; 0xfd469501;
   0x698098d8; 0x8b44f7af; 0xffff5bb1; 0x895cd7be; 0x6b901122; 0xfd987193; 0xa679438e; 0x49b40821;
   0xf61e2562; 0xc040b340; 0x265e5a51; 0xe9b6c7aa; 0xd62f105d; 0x02441453; 0xd8a1e681; 0xe7d3fbc8;
   0x21e1cde6; 0xc33707d6; 0xf4d50d87; 0x455a14ed; 0xa9e3e905; 0xfcefa3f8; 0x676f02d9; 0x8d2a4c8a;
   0xfffa3942; 0x8771f681; 0x6d9d6122; 0xfde5380c; 0xa4beea44; 0x4bdecfa9; 0xf6bb4b60; 0xbebfbc70;
   0x289b7ec6; 0xeaa127fa; 0xd4ef3085; 0x04881d05; 0xd9d4d039; 0xe6db99e5; 0x1fa27cf8; 0xc4ac5665;
   0xf4292244; 0x432aff97; 0xab9423a7; 0xfc93a039; 0x655b59c3; 0x8f0ccc92; 0xffeff47d; 0x85845dd1;
   0x6fa87e4f; 0xfe2ce6e0; 0xa3014314; 0x4e0811a1; 0xf7537e82; 0xbd3af235; 0x2ad7d2bb; 0xeb86d391].

Definition md5_shift (i : Z) : Z :=
  let row := if i <? 16 then [7; 12; 17; 22] else if i <? 32 then [5; 9; 14; 20]
             else if i <? 48 then [4; 11; 16; 23] else [6; 10; 15; 21] in
  nth (Z.to_nat (i mod 4)) row 0.

Definition md5_round (m : list Z) (h : list Z) (ik : Z * Z) : list Z :=
  match h with
  | [a; b; c; d] =>
      let i := ik.1 in
      let '(f, g) :=
        if i <? 16 then (Z.lor (Z.land b c) (Z.land (not32 b) d), i)
        else if i <? 32 then (Z.lor (Z.land d b) (Z.land (not32 d) c), (5 * i + 1) mod 16)
        else if i <? 48 then (Z.lxor (Z.lxor b c) d, (3 * i + 5) mod 16)
        else (Z.lxor c (Z.lor b (not32 d)), (7 * i) mod 16) in
      let x := w32 (a + f + ik.2 + nth (Z.to_nat g) m 0) in
      [d; add32 b (rotl32 x (md5_shift i)); b; c]
  | _ => h
  end.

Definition md5_block (h : list Z) (block : bytes) : list Z :=
  let m := le_word <$> chunks 16 4 block in
  zip_with add32 h (foldl (md5_round m) h (zip (seqZ 0 64) md5_k)).

Definition md5_Sum (msg : bytes) : bytes :=
  flat_map (le_bytes 4)
    (foldl md5_block [0x67452301; 0xefcdab89; 0x98badcfe; 0x10325476] (blocks (pad le_bytes msg))).

(** ** CRC-32C (the Castagnoli table) *)

Fixpoint crc_bits (n : nat) (crc : Z) : Z :=
  match n with
  | O => crc
  | S n' => crc_bits n' (if Z.testbit crc 0 then Z.lxor (Z.shiftr crc 1) 0x82f63b78
                         else Z.shiftr crc 1)
  end.

Definition crc_byte (crc : Z) (c : Ascii.ascii) : Z := crc_bits 8 (Z.lxor crc (code c)).

(** [crc32.Update(crc, castagnoli, b)]. *)
Definition crc32_Update (crc : Z) (b : bytes) : Z := not32 (foldl crc_byte (not32 crc) b).
Definition crc32_Checksum (b : bytes) : Z := crc32_Update 0 b.

(** ** Test vectors *)

Example sha256_content :
  EncodeToString (sha256_Sum256 (bs "content")) =
  bs "ed7002b439e9ac845f22357d822bac1444730fbdb6016d3ec9432297b9ec9f73".
Proof. vm_compute. reflexivity. Qed.
Example md5_abc : EncodeToString (md5_Sum (bs "abc")) = bs "900150983cd24fb0d6963f7d28e17f72".
Proof. vm_compute. reflexivity. Qed.
Example md5_two_blocks :
  EncodeToString (md5_Sum (bs "12345678901234567890123456789012345678901234567890123456789012345678901234567890"))
  = bs "57edf4a22be3c955ac49da2e2107b67a".
Proof. vm_compute. reflexivity. Qed.
Example crc32c_check : Sprintf08x (crc32_Checksum (bs "123456789")) = bs "e3069283".
Proof. vm_compute. reflexivity. Qed.

(** ** Lemmas *)

Lemma code_ascii_of_Z z : 0 ≤ z < 256 → code (ascii_of_Z z) = z.
Proof.
  intros H. unfold code, ascii_of_Z. rewrite Ascii.N_ascii_embedding by lia. lia.
Qed.

Lemma EncodeToString_app a b : EncodeToString (a ++ b) = EncodeToString a ++ EncodeToString b.
Proof. apply flat_map_app. Qed.

(** The hexadecimal text of the big-endian bytes of a number is its
    zero-padded hexadecimal numeral. *)
Lemma EncodeToString_be_bytes n z : EncodeToString (be_bytes n z) = hex_digits (2 * n) z.
Proof.
  revert z. induction n as [|n IH]; intros z; [done|].
  replace (2 * S n)%nat with (S (S (2 * n))) by lia.
  cbn [be_bytes hex_digits]. rewrite EncodeToString_app, IH, <- app_assoc.
  rewrite Z.div_div by lia. change (16 * 16) with 256. f_equal.
  simpl. rewrite code_ascii_of_Z by (apply Z.mod_pos_bound; lia).
  f_equal; [f_equal|do 2 f_equal].
  - rewrite (Z.mod_eq z 256), (Z.mod_eq (z / 16) 16), Z.div_div by lia.
    change (16 * 16) with 256.
    replace (z - 256 * (z / 256)) with (z + (- (16 * (z / 256))) * 16) by lia.
    rewrite Z.div_add by lia. lia.
  - change 256 with (16 * 16). rewrite Z.rem_mul_r by lia.
    rewrite Z.mul_comm, Z_mod_plus_full. apply Z.mod_mod. lia.
Qed.

Lemma not32_involutive x : not32 (not32 x) = x.
Proof. unfold not32. by rewrite Z.lxor_assoc, Z.lxor_nilpotent, Z.lxor_0_r. Qed.

(** Updating in pieces is updating with the concatenation. *)
Lemma crc32_Update_app crc a b :
  crc32_Update (crc32_Update crc a) b = crc32_Update crc (a ++ b).
Proof. unfold crc32_Update. by rewrite not32_involutive, foldl_app. Qed.
