(* ===== verification/Memory.v ===== *)
(** * The in-memory adapter: [memory/memory.go]

    The state of [Adapter] and its operations.  Every access to the object map
    happens inside one critical section of the adapter's [RWMutex], so an
    operation is one atomic step on the map; only [Write] works before it takes
    the lock, and [write_prepare] and [write_publish] keep the two parts apart.
    Go's map iteration order is unspecified and is a parameter of [ListObjects]. *)

From S2P Require Import Prelude GoStrings Errors Effects Paths Capability Contracts Iterator Digest.

(** ** State *)

Record object := mkObject {
  content : bytes;
  metadata : stringmap;
  contentType : bytes;
  visibility : Visibility;
  modified : Z;
}.

Record Adapter := mkAdapter {
  objects : gmap bytes object;
  clock : Z → Z;
}.

Definition set_objects (f : gmap bytes object → gmap bytes object) (a : Adapter) : Adapter :=
  mkAdapter (f (objects a)) (clock a).

(** The range order of Go maps: some listing of the bindings. *)
Class MapRange := {
  range : ∀ {V}, gmap bytes V → list (bytes * V);
  range_perm : ∀ {V} (m : gmap bytes V), range m ≡ₚ map_to_list m;
}.

(** The order the model map lists its bindings in. *)
Definition model_range : MapRange :=
  {| range := λ V m, map_to_list m; range_perm := λ V m, Permutation_refl _ |}.

(** ** Construction *)

Inductive Option := WithClock (clock : option (Z → Z)).

Definition apply_option (a : Adapter) (o : Option) : Adapter :=
  match o with
  | WithClock (Some c) => mkAdapter (objects a) c
  | WithClock None => a
  end.

(** [now] is the machine's clock, the default. *)
Definition New (now : Z → Z) (options : list Option) : Adapter :=
  foldl apply_option (mkAdapter ∅ now) options.

Definition capabilities : list Capability :=
  [CapabilityRead; CapabilityWrite; CapabilityStreamingWrite; CapabilityDelete;
   CapabilityList; CapabilityStat; CapabilityCopy; CapabilityMove; CapabilityRangeRead;
   CapabilityMetadata; CapabilityChecksum; CapabilityVisibility].

Definition Capabilities : result CapabilitySet := NewCapabilitySet capabilities.

(** ** Helpers *)

Definition notFound (path : Path) : error :=
  Errorf "%w: %s" [Sentinel ErrNotFound] [FStr (value path)].

Definition rootObject : error := Errorf "%w: object path is root" [Sentinel ErrInvalidPath] [].

Definition normalizeVisibility (visibility : Visibility) : result Visibility :=
  if decide (visibility = [] ∨ visibility = VisibilityPrivate) then Ok VisibilityPrivate
  else if decide (visibility = VisibilityPublic) then Ok visibility
  else Err (Errorf "filesystem: invalid visibility %q" [] [FStr visibility]).

(** Maps are values here, so a clone is the map itself. *)
Definition cloneMap (source : stringmap) : stringmap := source.

Definition metadataFor (path : Path) (stored : object) : Metadata :=
  mkMetadata path EntryKindFile (len (content stored)) (modified stored) []
    (contentType stored) (cloneMap (metadata stored)) (visibility stored).

Definition effectiveListLimit (requested available : Z) : Z :=
  if requested =? 0 then available else Z.min requested available.

(** [a.clock()]. *)
Definition read_clock : M Adapter Z := λ t a, (Ok (clock a t), (t + 1, a)).

(** [a.objects[path.String()]] under the lock. *)
Definition lookup_object (path : Path) : M Adapter object :=
  let! a := get in
  match objects a !! value path with
  | Some stored => ret stored
  | None => throw (notFound path)
  end.

Definition store_object (path : Path) (stored : object) : M Adapter unit :=
  let! a := get in put (set_objects <[value path := stored]> a).

(** ** Reading *)

(** The stream of [io.NopCloser(bytes.NewReader(content))]. *)
Definition bytes_stream (content : bytes) : stream := mkStream [(content, None)] None.

Definition Open (ctx : context) (path : Path) : M Adapter stream :=
  do! check_ctx ctx in
  let! stored := lookup_object path in
  ret (bytes_stream (content stored)).

Definition OpenRange (ctx : context) (path : Path) (byteRange : ByteRange) : M Adapter stream :=
  if (Offset byteRange <? 0) || (Length byteRange <=? 0) then
    throw (Errorf "%w: offset=%d length=%d" [Sentinel ErrInvalidRange]
             [FInt (Offset byteRange); FInt (Length byteRange)])
  else
    do! check_ctx ctx in
    let! stored := lookup_object path in
    if Offset byteRange >=? len (content stored) then
      throw (Errorf "%w: offset=%d size=%d" [Sentinel ErrInvalidRange]
               [FInt (Offset byteRange); FInt (len (content stored))])
    else
      let available := wrap64 (len (content stored) - Offset byteRange) in
      let stop := wrap64 (Offset byteRange + Z.min (Length byteRange) available) in
      match slice (content stored) (Offset byteRange) stop with
      | Some range => ret (bytes_stream range)
      | None => panic "slice bounds out of range"
      end.

Definition Stat (ctx : context) (path : Path) : M Adapter Metadata :=
  do! check_ctx ctx in
  let! stored := lookup_object path in
  ret (metadataFor path stored).

Definition VisibilityOf (ctx : context) (path : Path) : M Adapter Visibility :=
  let! metadata := Stat ctx path in ret (mVisibility metadata).

Definition ChecksumOf (ctx : context) (path : Path) (algorithm : ChecksumAlgorithm)
    : M Adapter Checksum :=
  do! check_ctx ctx in
  let! stored := lookup_object path in
  if decide (algorithm = ChecksumMD5) then
    ret (mkChecksum algorithm (EncodeToString (md5_Sum (content stored))))
  else if decide (algorithm = ChecksumSHA256) then
    ret (mkChecksum algorithm (EncodeToString (sha256_Sum256 (content stored))))
  else if decide (algorithm = ChecksumCRC32C) then
    ret (mkChecksum algorithm (Sprintf08x (crc32_Checksum (content stored))))
  else throw (Unsupported (bs "memory") CapabilityChecksum OperationChecksum).

(** ** Writing *)

(** Lines 138-160: everything before the lock. *)
Definition write_prepare (ctx : context) (path : Path) (source : reader)
    (options : WriteOptions) : M Adapter object :=
  if IsRoot path then throw rootObject
  else
    let! visibility := lift_result (normalizeVisibility (wVisibility options)) in
    let! copied := copy_ctx ctx source in
    match copied.2 with
    | Some err => throw err
    | None =>
        do! check_ctx ctx in
        let! now := read_clock in
        ret (mkObject copied.1 (cloneMap (wMetadata options)) (wContentType options)
               visibility now)
    end.

(** Lines 161-170: the critical section. *)
Definition write_publish (path : Path) (options : WriteOptions) (stored : object)
    : M Adapter Metadata :=
  let! a := get in
  if wIfNoneMatch options && bool_decide (is_Some (objects a !! value path)) then
    throw (Errorf "%w: %s" [Sentinel ErrPreconditionFailed] [FStr (value path)])
  else
    do! put (set_objects <[value path := stored]> a) in
    ret (metadataFor path stored).

Definition Write (ctx : context) (path : Path) (source : reader) (options : WriteOptions)
    : M Adapter Metadata :=
  let! stored := write_prepare ctx path source options in
  write_publish path options stored.

Definition OpenWriter (ctx : context) (path : Path) (options : WriteOptions)
    : M Adapter (writer Adapter) :=
  do! check_ctx ctx in
  if IsRoot path then throw rootObject
  else ret (λ source, do! Write ctx path source options in ret tt).

Definition Delete (ctx : context) (path : Path) : M Adapter unit :=
  do! check_ctx ctx in
  let! a := get in
  match objects a !! value path with
  | None => throw (notFound path)
  | Some _ => put (set_objects (delete (value path)) a)
  end.

(** The test both [Copy] and [Move] make on the destination. *)
Definition require_absent (overwrite : bool) (destination : Path) : M Adapter unit :=
  let! a := get in
  if negb overwrite && bool_decide (is_Some (objects a !! value destination)) then
    throw (Errorf "%w: %s" [Sentinel ErrAlreadyExists] [FStr (value destination)])
  else ret tt.

Definition Copy (ctx : context) (source destination : Path) (options : CopyOptions)
    : M Adapter unit :=
  do! check_ctx ctx in
  let! stored := lookup_object source in
  do! require_absent (cOverwrite options) destination in
  let! now := read_clock in
  store_object destination
    (mkObject (content stored) (cloneMap (metadata stored)) (contentType stored)
       (visibility stored) now).

Definition Move (ctx : context) (source destination : Path) (options : MoveOptions)
    : M Adapter unit :=
  do! check_ctx ctx in
  let! stored := lookup_object source in
  do! require_absent (mOverwrite options) destination in
  if decide (source = destination) then ret tt
  else
    let! now := read_clock in
    do! store_object destination
      (mkObject (content stored) (metadata stored) (contentType stored)
         (visibility stored) now) in
    let! a := get in
    put (set_objects (delete (value source)) a).

Definition SetMetadata (ctx : context) (path : Path) (metadata : stringmap) : M Adapter unit :=
  do! check_ctx ctx in
  let! stored := lookup_object path in
  let! now := read_clock in
  store_object path
    (mkObject (content stored) (cloneMap metadata) (contentType stored) (visibility stored) now).

Definition SetVisibility (ctx : context) (path : Path) (visibility : Visibility)
    : M Adapter unit :=
  let! visibility := lift_result (normalizeVisibility visibility) in
  do! check_ctx ctx in
  let! stored := lookup_object path in
  let! now := read_clock in
  store_object path
    (mkObject (content stored) (metadata stored) (contentType stored) visibility now).

(** ** Listing *)

(** The body of the loop over the objects, lines 233-251: the key and entry the
    object contributes, if any. *)
Definition list_entry (prefix : bytes) (recursive : bool) (name : bytes) (stored : object)
    : result (option (bytes * Entry)) :=
  if negb (HasPrefix name prefix) then Ok None
  else
    let remainder := TrimPrefix name prefix in
    let '(child, _, found) := Cut remainder slash in
    if negb recursive && found then
      let name := prefix ++ child in
      result_bind (MustParsePath name) (λ p,
        Ok (Some (name, mkEntry p EntryKindDirectory 0 0)))
    else
      result_bind (MustParsePath name) (λ p,
        Ok (Some (name, mkEntry p EntryKindFile (len (content stored)) (modified stored)))).

Fixpoint list_loop (prefix : bytes) (recursive : bool) (objs : list (bytes * object))
    (entriesByPath : gmap bytes Entry) : result (gmap bytes Entry) :=
  match objs with
  | [] => Ok entriesByPath
  | (name, stored) :: rest =>
      result_bind (list_entry prefix recursive name stored) (λ o,
        list_loop prefix recursive rest
          (match o with Some (k, e) => <[k := e]> entriesByPath | None => entriesByPath end))
  end.

Definition list_prefix (directory : Path) : bytes :=
  if decide (value directory = []) then [] else value directory ++ [slash].

(** Lines 254-264: collect, sort and cut. *)
Definition list_finish {R : MapRange} (limit : Z) (entriesByPath : gmap bytes Entry)
    : list Entry :=
  let entries := SortFunc (λ e, value (ePath e)) (range entriesByPath).*2 in
  let limit := effectiveListLimit limit (len entries) in
  if limit =? len entries then entries else take (Z.to_nat limit) entries.

Definition ListObjects {R : MapRange} (ctx : context) (directory : Path)
    (options : ListOptions) : M Adapter iterator :=
  do! check_ctx ctx in
  if Limit options <? 0 then
    throw (Errorf "filesystem: list limit must not be negative" [] [])
  else
    let! a := get in
    let! entriesByPath :=
      lift_result (list_loop (list_prefix directory) (Recursive options)
                     (range (objects a)) ∅) in
    ret (newIterator (list_finish (Limit options) entriesByPath)).

(** ** Invariant *)

(** Every key is the text of a parsed path and every stored visibility is one
    of the two normalized values. *)
Definition object_ok (key : bytes) (o : object) : Prop :=
  wf_path (mkPath key) ∧ key ≠ [] ∧
  (visibility o = VisibilityPrivate ∨ visibility o = VisibilityPublic).

Definition wf_adapter (a : Adapter) : Prop := map_Forall object_ok (objects a).

#[export] Instance object_ok_dec key o : Decision (object_ok key o).
Proof. unfold object_ok. apply _. Defined.
#[export] Instance wf_adapter_dec a : Decision (wf_adapter a).
Proof. unfold wf_adapter. apply _. Defined.

(** The operations that change state, as data. *)
Inductive op :=
  | OpWrite (ctx : context) (path : Path) (source : reader) (options : WriteOptions)
  | OpDelete (ctx : context) (path : Path)
  | OpCopy (ctx : context) (source destination : Path) (options : CopyOptions)
  | OpMove (ctx : context) (source destination : Path) (options : MoveOptions)
  | OpSetMetadata (ctx : context) (path : Path) (metadata : stringmap)
  | OpSetVisibility (ctx : context) (path : Path) (visibility : Visibility).

Definition exec (o : op) : M Adapter unit :=
  match o with
  | OpWrite ctx path source options => do! Write ctx path source options in ret tt
  | OpDelete ctx path => Delete ctx path
  | OpCopy ctx source destination options => Copy ctx source destination options
  | OpMove ctx source destination options => Move ctx source destination options
  | OpSetMetadata ctx path metadata => SetMetadata ctx path metadata
  | OpSetVisibility ctx path visibility => SetVisibility ctx path visibility
  end.

(** The arguments are values of type [Path], and the destination of a copy or a
    move is not the root. *)
Definition op_ok (o : op) : Prop :=
  match o with
  | OpWrite _ path _ _ | OpDelete _ path | OpSetMetadata _ path _
  | OpSetVisibility _ path _ => wf_path path
  | OpCopy _ source destination _ | OpMove _ source destination _ =>
      wf_path source ∧ wf_path destination ∧ destination ≠ Root
  end.

(** Run operations one after the other, whatever each returns. *)
Fixpoint exec_all (ops : list op) (t : Z) (a : Adapter) : Z * Adapter :=
  match ops with
  | [] => (t, a)
  | o :: rest => let '(_, (t', a')) := exec o t a in exec_all rest t' a'
  end.

(** ** What each operation does *)

Lemma normalizeVisibility_ok v v' :
  normalizeVisibility v = Ok v' → v' = VisibilityPrivate ∨ v' = VisibilityPublic.
Proof. unfold normalizeVisibility. repeat case_decide; naive_solver. Qed.

Lemma normalizeVisibility_not_panic v m : normalizeVisibility v ≠ Panic m.
Proof. unfold normalizeVisibility. by repeat case_decide. Qed.

Lemma write_prepare_spec ctx path source options t a :
  match write_prepare ctx path source options t a with
  | (Ok stored, (t', a')) =>
      a' = a ∧ t ≤ t' ∧ path ≠ Root ∧
      ReadAll source = (content stored, None) ∧
      metadata stored = wMetadata options ∧ contentType stored = wContentType options ∧
      normalizeVisibility (wVisibility options) = Ok (visibility stored)
  | (Err _, (_, a')) => a' = a
  | (Panic _, _) => False
  end.
Proof.
  unfold write_prepare. destruct (IsRoot path) eqn:Hroot; [done|].
  assert (path ≠ Root) by (intros ->; done).
  unfold bind, lift_result.
  pose proof (normalizeVisibility_not_panic (wVisibility options)) as Hnp.
  destruct (normalizeVisibility _) as [v|e|m] eqn:Hv; [|done|by destruct (Hnp m)].
  destruct (copy_ctx_result ctx source t a) as (b & e & t1 & -> & Ht & Hcopy). simpl.
  destruct e as [e|]; [done|].
  destruct Hcopy as [Hcopy|[ce ?]]; [|done].
  unfold check_ctx, read_clock, ret. destruct (ctx_Err ctx t1); simpl; [done|].
  split_and!; auto; lia.
Qed.

(** What a successful publication stores. *)
Definition written (path : Path) (options : WriteOptions) (b : bytes) (v : Visibility)
    (time : Z) : object :=
  mkObject b (wMetadata options) (wContentType options) v time.

(** The two outcomes of a write. *)
Lemma Write_cases ctx path source options t a :
  (∃ stored t',
     Write ctx path source options t a =
       (Ok (metadataFor path stored), (t', set_objects <[value path := stored]> a)) ∧
     path ≠ Root ∧ ReadAll source = (content stored, None) ∧
     metadata stored = wMetadata options ∧ contentType stored = wContentType options ∧
     normalizeVisibility (wVisibility options) = Ok (visibility stored) ∧
     (wIfNoneMatch options = true → objects a !! value path = None)) ∨
  ∃ e t', Write ctx path source options t a = (Err e, (t', a)).
Proof.
  unfold Write, bind.
  pose proof (write_prepare_spec ctx path source options t a) as Hp.
  destruct (write_prepare ctx path source options t a) as [[stored|e|m] [t1 a1]];
    [|right; subst; by eauto|done].
  destruct Hp as (-> & _ & Hr & Hread & Hm & Hc & Hv).
  unfold write_publish, bind, get, put, throw, ret.
  destruct (wIfNoneMatch options && _) eqn:Hcond; simpl; [by right; eauto|].
  left. exists stored, t1. split_and!; auto. intros Hif. rewrite Hif in Hcond. simpl in Hcond.
  apply bool_decide_eq_false in Hcond. by apply eq_None_not_Some.
Qed.

(** C3: [Write] is all or nothing.  If it succeeds, the object at the path is
    the complete byte sequence of the source with the given options, nothing
    else in the store changed, the returned metadata describes it, and with
    [IfNoneMatch] the path was free; if it fails, for whatever reason and at
    whatever time the context is cancelled, the store is unchanged.  It never
    panics. *)
Theorem Write_all_or_nothing ctx path source options t a :
  match Write ctx path source options t a with
  | (Ok md, (_, a')) =>
      ∃ b v time, ReadAll source = (b, None) ∧ path ≠ Root ∧
        normalizeVisibility (wVisibility options) = Ok v ∧
        objects a' = <[value path := written path options b v time]> (objects a) ∧
        clock a' = clock a ∧
        md = metadataFor path (written path options b v time) ∧
        (wIfNoneMatch options = true → objects a !! value path = None)
  | (Err _, (_, a')) => a' = a
  | (Panic _, _) => False
  end.
Proof.
  destruct (Write_cases ctx path source options t a)
    as [(stored & t' & -> & Hr & Hread & Hm & Hc & Hv & Hif)|(e & t' & ->)]; [|done].
  exists (content stored), (visibility stored), (modified stored).
  assert (written path options (content stored) (visibility stored) (modified stored) = stored) as ->.
  { destruct stored. unfold written. simpl in *. by subst. }
  by split_and!.
Qed.

(** With a context that is never cancelled a valid write of a source without
    read errors to a free or replaceable path succeeds. *)
Lemma Write_succeeds path source options t a b v :
  path ≠ Root → ReadAll source = (b, None) →
  normalizeVisibility (wVisibility options) = Ok v →
  (wIfNoneMatch options = true → objects a !! value path = None) →
  ∃ t' time,
    Write Background path source options t a =
    (Ok (metadataFor path (written path options b v time)),
     (t', set_objects <[value path := written path options b v time]> a)).
Proof.
  intros Hr Hread Hv Hfree. unfold Write, write_prepare.
  assert (IsRoot path = false) as ->.
  { apply not_true_is_false. by rewrite IsRoot_spec. }
  unfold bind, lift_result. rewrite Hv.
  destruct (copy_ctx_Background source t a) as [t1 ->]. rewrite Hread. simpl.
  unfold read_clock, write_publish, bind, get, put, ret, throw, cloneMap.
  destruct (wIfNoneMatch options) eqn:Hif; simpl.
  - rewrite Hfree by done. simpl. by eexists _, _.
  - by eexists _, _.
Qed.

Lemma lookup_object_spec path t a :
  lookup_object path t a =
  (match objects a !! value path with
   | Some stored => Ok stored | None => Err (notFound path) end, (t, a)).
Proof. unfold lookup_object, bind, get. by destruct (_ !! _). Qed.

Lemma Open_Background path t a :
  run_result (Open Background path) t a =
  match objects a !! value path with
  | Some stored => Ok (bytes_stream (content stored))
  | None => Err (notFound path)
  end.
Proof.
  unfold run_result, Open, bind, check_ctx. simpl. rewrite lookup_object_spec.
  by destruct (_ !! _).
Qed.

Lemma Stat_Background path t a :
  run_result (Stat Background path) t a =
  match objects a !! value path with
  | Some stored => Ok (metadataFor path stored)
  | None => Err (notFound path)
  end.
Proof.
  unfold run_result, Stat, bind, check_ctx. simpl. rewrite lookup_object_spec.
  by destruct (_ !! _).
Qed.

(** Write then read: a write that the store can accept succeeds, after it
    [Open] streams exactly the bytes of the source, however they were cut, and
    [Stat] reports their length and the written content type, metadata and
    visibility; every other path reads as before. *)
Theorem Write_Open_roundtrip path source options t a b v :
  path ≠ Root → ReadAll source = (b, None) →
  normalizeVisibility (wVisibility options) = Ok v →
  (wIfNoneMatch options = true → objects a !! value path = None) →
  ∃ md t' a' time, Write Background path source options t a = (Ok md, (t', a')) ∧
    (∀ t2, ∃ s, run_result (Open Background path) t2 a' = Ok s ∧
                ReadAll (body s) = (b, None) ∧ close_err s = None) ∧
    (∀ t2, run_result (Stat Background path) t2 a' =
           Ok (mkMetadata path EntryKindFile (len b) time [] (wContentType options)
                 (wMetadata options) v)) ∧
    (∀ q t2, q ≠ path → run_result (Open Background q) t2 a' =
                        run_result (Open Background q) t2 a).
Proof.
  intros Hr Hread Hv Hfree.
  destruct (Write_succeeds path source options t a b v Hr Hread Hv Hfree) as (t' & time & ->).
  eexists _, _, _, time. split; [done|]. split_and!.
  - intros t2. rewrite Open_Background. simpl. rewrite lookup_insert_eq.
    eexists. split; [done|]. simpl. by rewrite app_nil_r.
  - intros t2. rewrite Stat_Background. simpl. by rewrite lookup_insert_eq.
  - intros q t2 Hq. rewrite !Open_Background. simpl. rewrite lookup_insert_ne; [done|].
    intros E. apply Hq. destruct path, q. simpl in *. by subst.
Qed.

Lemma Write_Open_roundtrip_witness :
  let path := mkPath (bs "a/b") in
  let source := [(bs "hel", None); (bs "lo", Some (Sentinel EOF))] in
  let options := mkWriteOptions (bs "text/plain") None [] true in
  let a := New (λ t, t) [] in
  ∃ md t' a' time, Write Background path source options 0 a = (Ok md, (t', a')) ∧
    (∀ t2, ∃ s, run_result (Open Background path) t2 a' = Ok s ∧
                ReadAll (body s) = (bs "hello", None) ∧ close_err s = None) ∧
    (∀ t2, run_result (Stat Background path) t2 a' =
           Ok (mkMetadata path EntryKindFile 5 time [] (bs "text/plain") None VisibilityPrivate)) ∧
    (∀ q t2, q ≠ path → run_result (Open Background q) t2 a' =
                        run_result (Open Background q) t2 a).
Proof.
  apply (Write_Open_roundtrip (mkPath (bs "a/b")) [(bs "hel", None); (bs "lo", Some (Sentinel EOF))]
           (mkWriteOptions (bs "text/plain") None [] true) 0 (New (λ t, t) [])
           (bs "hello") VisibilityPrivate); [done|reflexivity|reflexivity|].
  intros _. reflexivity.
Defined.

(** ** Byte ranges *)

(** C37: range reads are exact and cannot go out of bounds: for all 64-bit
    offsets and lengths [OpenRange] never panics and its end computation never
    wraps; a range with a negative offset, a non-positive length or an offset at
    or past the end is [ErrInvalidRange], an absent object is [ErrNotFound], and
    otherwise the stream delivers exactly the at most [Length] bytes from
    [Offset] on. *)
Theorem OpenRange_spec path r t a :
  is_int64 (Offset r) → is_int64 (Length r) →
  (∀ stored, objects a !! value path = Some stored → is_int64 (len (content stored))) →
  match run_result (OpenRange Background path r) t a with
  | Ok s =>
      ∃ stored, objects a !! value path = Some stored ∧
        0 ≤ Offset r < len (content stored) ∧ 0 < Length r ∧
        ReadAll (body s) =
          (take (Z.to_nat (Length r)) (drop (Z.to_nat (Offset r)) (content stored)), None)
  | Err e =>
      (Offset r < 0 ∨ Length r ≤ 0) ∧ Is e ErrInvalidRange = true ∨
      objects a !! value path = None ∧ Is e ErrNotFound = true ∨
      (∃ stored, objects a !! value path = Some stored ∧ len (content stored) ≤ Offset r) ∧
        Is e ErrInvalidRange = true
  | Panic _ => False
  end.
Proof.
  intros Ho Hl Hc. unfold run_result, OpenRange.
  destruct (_ || _) eqn:Hbad; [apply orb_true_iff in Hbad; simpl; left; split; [lia|done]|].
  apply orb_false_iff in Hbad as [Hoff Hlen].
  unfold bind, check_ctx. cbn [ctx_Err]. rewrite lookup_object_spec.
  destruct (objects a !! value path) as [stored|] eqn:Hlook; [|by right; left].
  specialize (Hc stored eq_refl).
  destruct (Offset r >=? _) eqn:Hge; simpl.
  { right. right. split; [|done]. exists stored. split; [done|lia]. }
  pose proof (len_nonneg (content stored)). unfold is_int64, MaxInt64 in *.
  rewrite (wrap64_id (len (content stored) - Offset r)) by (unfold is_int64, MaxInt64; lia).
  rewrite wrap64_id by (unfold is_int64, MaxInt64; lia).
  rewrite slice_min by lia. simpl. exists stored. rewrite app_nil_r.
  split_and!; [done|lia..|done].
Qed.

Lemma OpenRange_spec_witness :
  let path := mkPath (bs "r") in
  let a := mkAdapter {[ bs "r" := mkObject (bs "0123456789") None [] VisibilityPrivate 0 ]} (λ t, t) in
  match run_result (OpenRange Background path (mkByteRange 2 4)) 0 a with
  | Ok s =>
      ∃ stored, objects a !! value path = Some stored ∧
        0 ≤ 2 < len (content stored) ∧ 0 < 4 ∧
        ReadAll (body s) =
          (take (Z.to_nat 4) (drop (Z.to_nat 2) (content stored)), None)
  | Err e => 
      (2 < 0 ∨ 4 ≤ 0) ∧ Is e ErrInvalidRange = true ∨
      objects a !! value path = None ∧ Is e ErrNotFound = true ∨
      (∃ stored, objects a !! value path = Some stored ∧ len (content stored) ≤ 2) ∧
        Is e ErrInvalidRange = true
  | Panic _ => False
  end.
Proof.
  apply (OpenRange_spec (mkPath (bs "r")) (mkByteRange 2 4)).
  - unfold is_int64, MaxInt64. simpl. lia.
  - unfold is_int64, MaxInt64. simpl. lia.
  - intros stored E. vm_compute in E. injection E as <-.
    unfold is_int64, MaxInt64. vm_compute. split; discriminate.
Defined.

(** ** The invariant is preserved *)

Lemma wf_insert path o a :
  wf_adapter a → wf_path path → path ≠ Root →
  (visibility o = VisibilityPrivate ∨ visibility o = VisibilityPublic) →
  wf_adapter (set_objects <[value path := o]> a).
Proof.
  intros Ha Hp Hr Hv. apply map_Forall_insert_2; [|done].
  destruct path as [v]. split_and!; [done| |done]. intros E. simpl in E. by subst.
Qed.

Lemma wf_delete path a : wf_adapter a → wf_adapter (set_objects (delete (value path)) a).
Proof. apply map_Forall_delete. Qed.

Lemma wf_lookup path o a :
  wf_adapter a → objects a !! value path = Some o →
  wf_path path ∧ path ≠ Root ∧
  (visibility o = VisibilityPrivate ∨ visibility o = VisibilityPublic).
Proof.
  intros Ha Ho. destruct (Ha _ _ Ho) as (Hw & Hn & Hv). destruct path. simpl in *.
  split_and!; [done| |done]. by intros [= ->].
Qed.

Create HintDb memory.
#[export] Hint Resolve wf_insert wf_delete normalizeVisibility_ok : memory.

(** Step through an operation: unfold it down to its lookups and split. *)
Ltac op_cases :=
  unfold Delete, Copy, Move, SetMetadata, SetVisibility, require_absent, store_object,
    lookup_object, read_clock, run_state, run_result, bind, get, put, throw, ret,
    check_ctx, lift_result in *;
  repeat (case_match; simplify_eq/=; try done).

(** Recall what the invariant says of the object that was looked up. *)
Ltac stored_ok Ha :=
  match goal with
  | H : objects _ !! _ = Some _ |- _ => destruct (wf_lookup _ _ _ Ha H) as (? & ? & ?)
  end.

Lemma exec_wf o t a : op_ok o → wf_adapter a → wf_adapter (run_state (exec o) t a).
Proof.
  intros Ho Ha. destruct o as [ctx path source options|ctx path|ctx src dst options
    |ctx src dst options|ctx path md|ctx path v]; simpl in Ho |- *.
  - unfold run_state, bind.
    destruct (Write_cases ctx path source options t a)
      as [(stored & t' & -> & Hr & _ & _ & _ & Hv & _)|(e & t' & ->)]; simpl; eauto with memory.
  - op_cases. by apply wf_delete.
  - destruct Ho as (Hs & Hd & Hr). op_cases; stored_ok Ha; by apply wf_insert.
  - destruct Ho as (Hs & Hd & Hr). op_cases; stored_ok Ha; by apply wf_delete, wf_insert.
  - op_cases; stored_ok Ha; by apply wf_insert.
  - op_cases; stored_ok Ha; apply wf_insert; eauto with memory.
Qed.

Lemma exec_all_wf ops t a :
  Forall op_ok ops → wf_adapter a → wf_adapter (exec_all ops t a).2.
Proof.
  intros Hops. revert t a. induction Hops as [|o ops Ho _ IH]; intros t a Ha; [done|].
  simpl. pose proof (exec_wf o t a Ho Ha) as H. unfold run_state in H.
  destruct (exec o t a) as [r [t' a']]. by apply IH.
Qed.

(** Every reachable store is well-formed: starting from [New], after any
    sequence of writes, deletes, copies, moves, metadata and visibility changes
    on parsed paths (with a copy's or move's destination not the root), whether
    they succeed, fail or are cancelled, every object key is the text of a
    parsed path and every stored visibility is ["private"] or ["public"]. *)
Theorem reachable_wf now options ops t :
  Forall op_ok ops → wf_adapter (exec_all ops t (New now options)).2.
Proof.
  intros Hops. apply exec_all_wf; [done|].
  unfold wf_adapter. replace (objects (New now options)) with (∅ : gmap bytes object).
  - apply map_Forall_empty.
  - unfold New. assert (Hgen : ∀ a, objects (foldl apply_option a options) = objects a).
    { clear. induction options as [|[[c|]] rest IH]; intros a; simpl; [done|by rewrite IH..]. }
    by rewrite Hgen.
Qed.

Lemma reachable_wf_witness :
  wf_adapter (exec_all
    [OpWrite Background (mkPath (bs "a/b")) [(bs "x", None)] (mkWriteOptions [] None [] false);
     OpMove Background (mkPath (bs "a/b")) (mkPath (bs "c")) (mkMoveOptions true)] 0
    (New (λ t, t) [])).2.
Proof.
  apply (reachable_wf (λ t, t) []). repeat constructor; (done || decide_now).
Defined.

(** ** Copy, move and delete *)

(** What an object becomes when it is copied or moved at [time]. *)
Definition retime (o : object) (time : Z) : object :=
  mkObject (content o) (metadata o) (contentType o) (visibility o) time.

(** [require_absent] as an equation. *)
Lemma require_absent_spec overwrite path t a :
  require_absent overwrite path t a =
    (Ok tt, (t, a)) ∧ (overwrite = false → objects a !! value path = None) ∨
  ∃ e, require_absent overwrite path t a = (Err e, (t, a)).
Proof.
  unfold require_absent, bind, get, throw, ret.
  destruct (negb overwrite && _) eqn:Hd; [by eauto|]. left. split; [done|].
  intros Hov. rewrite Hov in Hd. simpl in Hd. apply bool_decide_eq_false in Hd.
  by apply eq_None_not_Some.
Qed.

Lemma Move_cases ctx source destination options t a :
  (∃ o t', objects a !! value source = Some o ∧
     (mOverwrite options = false → objects a !! value destination = None) ∧
     ((source = destination ∧ Move ctx source destination options t a = (Ok tt, (t', a))) ∨
      source ≠ destination ∧ ∃ time,
        Move ctx source destination options t a =
          (Ok tt, (t', set_objects (λ m, delete (value source)
                         (<[value destination := retime o time]> m)) a)))) ∨
  ∃ e t', Move ctx source destination options t a = (Err e, (t', a)).
Proof.
  unfold Move, bind, check_ctx. destruct (ctx_Err ctx t); [by eauto|].
  rewrite lookup_object_spec. destruct (objects a !! value source) as [o|] eqn:Hs; [|by eauto].
  destruct (require_absent_spec (mOverwrite options) destination (t + 1) a)
    as [[-> Hfree]|[e ->]]; [|by eauto].
  left. case_decide as Heq; [by eauto 10|]. eexists o, _. split; [done|]. split; [done|].
  right. split; [done|]. by eexists.
Qed.

Lemma Copy_cases ctx source destination options t a :
  (∃ o t' time, objects a !! value source = Some o ∧
     (cOverwrite options = false → objects a !! value destination = None) ∧
     Copy ctx source destination options t a =
       (Ok tt, (t', set_objects <[value destination := retime o time]> a))) ∨
  ∃ e t', Copy ctx source destination options t a = (Err e, (t', a)).
Proof.
  unfold Copy, bind, check_ctx. destruct (ctx_Err ctx t); [by eauto|].
  rewrite lookup_object_spec. destruct (objects a !! value source) as [o|] eqn:Hs; [|by eauto].
  destruct (require_absent_spec (cOverwrite options) destination (t + 1) a)
    as [[-> Hfree]|[e ->]]; [|by eauto].
  left. by eexists o, _, _.
Qed.

(** [Move] renames atomically.  On success the source existed, the
    destination was free or overwriting was allowed, and either the two paths
    are equal and the object is untouched, timestamp included, or the object is
    at the destination with a new timestamp and gone from the source, with every
    other key unchanged.  On failure nothing changed. *)
Theorem Move_spec ctx source destination options t a :
  match Move ctx source destination options t a with
  | (Ok _, (_, a')) =>
      ∃ o, objects a !! value source = Some o ∧
        (mOverwrite options = false → objects a !! value destination = None) ∧
        if decide (source = destination) then a' = a
        else ∃ time,
          objects a' !! value destination = Some (retime o time) ∧
          objects a' !! value source = None ∧
          ∀ k, k ≠ value source → k ≠ value destination → objects a' !! k = objects a !! k
  | (Err _, (_, a')) => a' = a
  | (Panic _, _) => False
  end.
Proof.
  destruct (Move_cases ctx source destination options t a)
    as [(o & t' & Ho & Hfree & [[Heq ->]|(Hne & time & ->)])|(e & t' & ->)]; [..|done];
    exists o; (split; [done|]; split; [done|]).
  - by rewrite decide_True.
  - rewrite decide_False by done. exists time.
    assert (value source ≠ value destination).
    { destruct source, destination. simpl. congruence. }
    simpl. split_and!; intros; by simplify_map_eq.
Qed.

(** [Copy] duplicates: on success the source existed, the destination was
    free or overwriting was allowed, and the destination holds the source's
    content, metadata, content type and visibility with a new timestamp while
    every other key, the source included when it differs, is unchanged; on
    failure nothing changed. *)
Theorem Copy_spec ctx source destination options t a :
  match Copy ctx source destination options t a with
  | (Ok _, (_, a')) =>
      ∃ o time, objects a !! value source = Some o ∧
        (cOverwrite options = false → objects a !! value destination = None) ∧
        objects a' = <[value destination := retime o time]> (objects a)
  | (Err _, (_, a')) => a' = a
  | (Panic _, _) => False
  end.
Proof.
  destruct (Copy_cases ctx source destination options t a)
    as [(o & t' & time & Ho & Hfree & ->)|(e & t' & ->)]; [|done].
  by exists o, time.
Qed.

(** A cancelled context stops every operation: with a context that is done
    when the call starts, each mutation returns an error, a well-formed request
    returns the context's own error, and the store is unchanged. *)
Theorem cancelled_changes_nothing o t a k cause :
  k ≤ t →
  let ctx := DoneAt k cause in
  let cancelled := match o with
    | OpWrite _ path source options => OpWrite ctx path source options
    | OpDelete _ path => OpDelete ctx path
    | OpCopy _ s d options => OpCopy ctx s d options
    | OpMove _ s d options => OpMove ctx s d options
    | OpSetMetadata _ path md => OpSetMetadata ctx path md
    | OpSetVisibility _ path v => OpSetVisibility ctx path v end in
  let invalid := match o with
    | OpWrite _ path _ options =>
        IsRoot path = true ∨ is_ok (normalizeVisibility (wVisibility options)) = false
    | OpSetVisibility _ _ v => is_ok (normalizeVisibility v) = false
    | _ => False end in
  run_state (exec cancelled) t a = a ∧
  ∃ e, run_result (exec cancelled) t a = Err e ∧
       (¬ invalid → e = ctx_error_value cause).
Proof.
  intros Hk ctx. assert (Hc : ∀ t', t ≤ t' → ctx_Err ctx t' = Some (ctx_error_value cause)).
  { intros t' ?. simpl. rewrite (proj2 (Z.leb_le k t')) by lia. done. }
  clearbody ctx. destruct o as [? path source options| | | | |? path v]; simpl;
    unfold run_state, run_result; unfold Delete, Copy, Move, SetMetadata, SetVisibility, Write,
      write_prepare, bind, lift_result, check_ctx; rewrite ?(Hc t) by lia; try (by eauto).
  - destruct (IsRoot path).
    { split; [done|]. eexists. split; [done|]. naive_solver. }
    pose proof (normalizeVisibility_not_panic (wVisibility options)) as Hnp.
    destruct (normalizeVisibility _) as [v'|e|m] eqn:Hv; [| |by destruct (Hnp m)].
    + assert (copy_ctx ctx source t a = (Ok ([], Some (ctx_error_value cause)), (t + 1, a))) as ->.
      { destruct source as [|[??]]; simpl copy_ctx; unfold bind, poll; by rewrite Hc. }
      simpl. eauto.
    + split; [done|]. eexists. split; [done|]. naive_solver.
  - pose proof (normalizeVisibility_not_panic v) as Hnp.
    destruct (normalizeVisibility v) as [v'|e|m] eqn:Hv; [| |by destruct (Hnp m)].
    + eauto.
    + split; [done|]. eexists. split; [done|]. naive_solver.
Qed.

Lemma cancelled_changes_nothing_witness :
  let a := New (λ t, t) [] in
  let o := OpDelete (DoneAt 0 CtxCanceled) (mkPath (bs "x")) in
  run_state (exec o) 3 a = a ∧
  ∃ e, run_result (exec o) 3 a = Err e ∧ (¬ False → e = ctx_error_value CtxCanceled).
Proof.
  apply (cancelled_changes_nothing (OpDelete Background (mkPath (bs "x"))) 3 (New (λ t, t) []) 0
           CtxCanceled). lia.
Defined.
