(* ===== verification/MemoryList.v ===== *)
(** * Listings of the in-memory adapter: memory/memory.go lines 216-265

    What [ListObjects] returns, that it does not depend on Go's map iteration
    order, and the two ways a store can break it. *)

From S2P Require Import Prelude GoStrings Errors Effects Paths Capability Contracts Iterator Digest Memory.

(** ** Specification *)

(** [name] is an object below directory [dir]: its segments are the
    directory's, one child and possibly more. *)
Definition below (dir : Path) (name : bytes) (child : bytes) (rest : list bytes) : Prop :=
  segments (mkPath name) = segments dir ++ child :: rest.

(** The entries a listing of [dir] must have. *)
Inductive listed (a : Adapter) (dir : Path) (recursive : bool) : Entry → Prop :=
  | listed_file name stored child rest :
      objects a !! name = Some stored → below dir name child rest →
      (recursive = true ∨ rest = []) →
      listed a dir recursive
        (mkEntry (mkPath name) EntryKindFile (len (content stored)) (modified stored))
  | listed_directory name stored child rest :
      objects a !! name = Some stored → below dir name child rest →
      recursive = false → rest ≠ [] →
      listed a dir recursive
        (mkEntry (ofSegments (segments dir ++ [child])) EntryKindDirectory 0 0).

(** No object sits at a directory of another object. *)
Definition prefix_free (a : Adapter) : Prop :=
  ∀ n1 n2 o1 o2 rest,
    objects a !! n1 = Some o1 → objects a !! n2 = Some o2 →
    segments (mkPath n2) = segments (mkPath n1) ++ rest → rest = [].

(** ** One object's contribution *)

Lemma list_prefix_below dir rest :
  rest ≠ [] → list_prefix dir ++ Join rest slash = Join (segments dir ++ rest) slash.
Proof.
  intros Hr. unfold list_prefix. case_decide as Hd.
  - assert (dir = Root) as -> by (destruct dir; simpl in *; by subst). done.
  - assert (Hs : segments dir ≠ []).
    { rewrite segments_nil. by intros ->. }
    rewrite Join_app by done. rewrite <- app_assoc. simpl. f_equal.
    symmetry. exact (f_equal value (ofSegments_segments dir)).
Qed.

Lemma below_value dir name child rest :
  below dir name child rest → name = list_prefix dir ++ Join (child :: rest) slash.
Proof.
  intros H. rewrite list_prefix_below by done. rewrite <- H.
  symmetry. exact (f_equal value (ofSegments_segments (mkPath name))).
Qed.

Lemma HasPrefix_below dir name :
  name ≠ [] → HasPrefix name (list_prefix dir) = true →
  ∃ child rest, below dir name child rest.
Proof.
  intros Hne [r Hr]%HasPrefix_true. unfold below.
  rewrite segments_value by done. simpl.
  unfold list_prefix in Hr. case_decide as Hd.
  - assert (dir = Root) as -> by (destruct dir; simpl in *; by subst).
    pose proof (Split_not_nil name slash). destruct (Split name slash); [done|]. eauto.
  - rewrite <- app_assoc in Hr. simpl in Hr. subst.
    rewrite Split_app_sep, segments_value by done.
    pose proof (Split_not_nil r slash). destruct (Split r slash); [done|]. eauto.
Qed.

(** The key and entry of an object below the directory. *)
Definition contribution (dir : Path) (recursive : bool) (name : bytes) (stored : object)
    (child : bytes) (rest : list bytes) : bytes * Entry :=
  if decide (recursive = true ∨ rest = [])
  then (name, mkEntry (mkPath name) EntryKindFile (len (content stored)) (modified stored))
  else (Join (segments dir ++ [child]) slash,
        mkEntry (ofSegments (segments dir ++ [child])) EntryKindDirectory 0 0).

Lemma contribution_key dir recursive name stored child rest :
  value (ePath (contribution dir recursive name stored child rest).2) =
  (contribution dir recursive name stored child rest).1.
Proof. unfold contribution. by case_decide. Qed.

Lemma list_entry_below dir recursive name stored child rest :
  wf_path (mkPath name) → name ≠ [] → below dir name child rest →
  list_entry (list_prefix dir) recursive name stored =
  Ok (Some (contribution dir recursive name stored child rest)).
Proof.
  intros Hw Hne Hb. pose proof (below_value _ _ _ _ Hb) as Hname.
  unfold list_entry, contribution.
  assert (HasPrefix name (list_prefix dir) = true) as -> by (rewrite Hname; apply HasPrefix_app).
  assert (TrimPrefix name (list_prefix dir) = Join (child :: rest) slash) as ->
    by (rewrite Hname; apply TrimPrefix_app).
  assert (Hparse : MustParsePath name = Ok (mkPath name)).
  { apply (MustParsePath_String (mkPath name)); [done|]. by intros [= ->]. }
  assert (Hok : segments_ok (segments dir ++ child :: rest)) by (rewrite <- Hb; exact Hw).
  assert (Hchild : segments_ok (segments dir ++ [child])).
  { apply (segments_ok_app_l _ rest). by rewrite <- app_assoc. }
  assert (slash ∉ child).
  { destruct Hchild as [[_ Hc]%Forall_app _]. rewrite Forall_singleton in Hc.
    by destruct Hc as [(_ & _ & _ & ?) _]. }
  cbn [negb]. destruct rest as [|r rest].
  - cbn [Join]. rewrite Cut_no_sep by done. rewrite andb_false_r.
    rewrite decide_True by auto. by rewrite Hparse.
  - rewrite Join_cons, Cut_sep by done. rewrite andb_true_r.
    destruct recursive; cbn [negb].
    + rewrite decide_True by auto. by rewrite Hparse.
    + rewrite decide_False by naive_solver.
      change child with (Join [child] slash) at 1 2. rewrite list_prefix_below by done.
      assert (MustParsePath (Join (segments dir ++ [child]) slash) =
              Ok (ofSegments (segments dir ++ [child]))) as ->; [|done].
      apply (MustParsePath_String (ofSegments (segments dir ++ [child])));
        [by auto with paths|].
      rewrite <- segments_nil, segments_ofSegments by apply Hchild.
      by destruct (segments dir).
Qed.

Lemma list_entry_outside prefix recursive name stored :
  HasPrefix name prefix = false → list_entry prefix recursive name stored = Ok None.
Proof. intros H. unfold list_entry. by rewrite H. Qed.

(** ** The loop *)

(** What the objects listed so far contribute. *)
Definition contributes (dir : Path) (recursive : bool) (objs : list (bytes * object))
    (k : bytes) (e : Entry) : Prop :=
  ∃ name stored child rest, (name, stored) ∈ objs ∧ below dir name child rest ∧
    contribution dir recursive name stored child rest = (k, e).

Definition functional (P : bytes → Entry → Prop) : Prop :=
  ∀ k e1 e2, P k e1 → P k e2 → e1 = e2.

Lemma below_unique dir name c1 r1 c2 r2 :
  below dir name c1 r1 → below dir name c2 r2 → c1 = c2 ∧ r1 = r2.
Proof. unfold below. intros -> H%app_inv_head. by simplify_eq. Qed.

Lemma contributes_cons dir recursive name stored objs k e :
  contributes dir recursive ((name, stored) :: objs) k e ↔
  (∃ child rest, below dir name child rest ∧
     contribution dir recursive name stored child rest = (k, e)) ∨
  contributes dir recursive objs k e.
Proof.
  unfold contributes. setoid_rewrite elem_of_cons. naive_solver.
Qed.

Lemma list_loop_spec dir recursive objs acc :
  Forall (λ no, wf_path (mkPath no.1) ∧ no.1 ≠ []) objs →
  functional (λ k e, acc !! k = Some e ∨ contributes dir recursive objs k e) →
  ∃ m, list_loop (list_prefix dir) recursive objs acc = Ok m ∧
    ∀ k e, m !! k = Some e ↔ acc !! k = Some e ∨ contributes dir recursive objs k e.
Proof.
  revert acc. induction objs as [|[name stored] objs IH]; intros acc Hwf Hfun.
  { exists acc. split; [done|]. intros k e. unfold contributes.
    split; [by left|]. intros [?|(n & s & c & r & Hin & _)]; [done|].
    by apply elem_of_nil in Hin. }
  apply Forall_cons in Hwf as [[Hw Hne] Hwf]. simpl in Hw, Hne. cbn [list_loop].
  destruct (HasPrefix name (list_prefix dir)) eqn:Hp.
  - destruct (HasPrefix_below dir name Hne Hp) as (child & rest & Hb).
    rewrite (list_entry_below dir recursive name stored child rest) by done.
    destruct (contribution dir recursive name stored child rest) as [k0 e0] eqn:Hc.
    cbn [result_bind].
    assert (Hhere : contributes dir recursive ((name, stored) :: objs) k0 e0).
    { apply contributes_cons. left. eauto. }
    assert (Hstep : ∀ k e, (<[k0:=e0]> acc !! k = Some e ∨ contributes dir recursive objs k e) ↔
      (acc !! k = Some e ∨ contributes dir recursive ((name, stored) :: objs) k e)).
    { intros k e. rewrite lookup_insert. case_decide as Hk.
      - subst k. split; intros H.
        + destruct H as [[= <-]|?]; [by right|]. right. apply contributes_cons. by right.
        + left. f_equal. apply (Hfun k0); [by right|done].
      - rewrite contributes_cons. split; [naive_solver|].
        intros [?|[(c & r & Hb' & Hc')|?]]; [by left| |by right].
        destruct (below_unique _ _ _ _ _ _ Hb Hb') as [<- <-]. congruence. }
    destruct (IH (<[k0:=e0]> acc) Hwf) as (m & Hm & Hspec).
    { intros k e1 e2 H1%Hstep H2%Hstep. by eapply Hfun. }
    exists m. split; [done|]. intros k e. by rewrite Hspec, Hstep.
  - rewrite list_entry_outside by done. cbn [result_bind].
    assert (Hstep : ∀ k e, contributes dir recursive ((name, stored) :: objs) k e ↔
                           contributes dir recursive objs k e).
    { intros k e. rewrite contributes_cons. split; [|by right].
      intros [(c & r & Hb & _)|?]; [|done]. apply below_value in Hb.
      rewrite Hb, HasPrefix_app in Hp. done. }
    destruct (IH acc Hwf) as (m & Hm & Hspec).
    { intros k e1 e2. rewrite <- !Hstep. apply Hfun. }
    exists m. split; [done|]. intros k e. by rewrite Hspec, Hstep.
Qed.

(** ** The listing *)

Lemma elem_of_range `{R : MapRange} {V} (m : gmap bytes V) k v :
  (k, v) ∈ range m ↔ m !! k = Some v.
Proof. rewrite range_perm. apply elem_of_map_to_list. Qed.

Lemma range_wf `{R : MapRange} a :
  wf_adapter a → Forall (λ no, wf_path (mkPath no.1) ∧ no.1 ≠ []) (range (objects a)).
Proof.
  intros Ha. apply Forall_forall. intros [name stored] Hin%elem_of_range.
  destruct (Ha _ _ Hin) as (? & ? & _). done.
Qed.

Lemma contributes_listed `{R : MapRange} a dir recursive k e :
  contributes dir recursive (range (objects a)) k e ↔
  listed a dir recursive e ∧ k = value (ePath e).
Proof.
  split.
  - intros (name & stored & child & rest & Hin%elem_of_range & Hb & Hc).
    pose proof (contribution_key dir recursive name stored child rest) as Hk.
    rewrite Hc in Hk. simpl in Hk. split; [|done]. clear Hk.
    unfold contribution in Hc. case_decide as Hd; injection Hc as <- <-.
    + by eapply listed_file.
    + apply (listed_directory _ _ _ name stored child rest); [done..| |naive_solver].
      destruct recursive; naive_solver.
  - intros [Hl ->]. destruct Hl as [name stored child rest Hl Hb Hd|name stored child rest Hl Hb -> Hd];
      exists name, stored, child, rest; (split; [by apply elem_of_range|split; [done|]]);
      unfold contribution.
    + by rewrite decide_True.
    + by rewrite decide_False by naive_solver.
Qed.

Lemma listed_functional `{R : MapRange} a dir recursive :
  recursive = true ∨ prefix_free a →
  functional (contributes dir recursive (range (objects a))).
Proof.
  intros Hpf k e1 e2 (n1 & s1 & c1 & r1 & H1%elem_of_range & Hb1 & Hc1)
    (n2 & s2 & c2 & r2 & H2%elem_of_range & Hb2 & Hc2).
  assert (Hclash : ∀ n s c r n' s' c' r',
    objects a !! n = Some s → objects a !! n' = Some s' →
    below dir n c r → below dir n' c' r' →
    (recursive = true ∨ r = []) → ¬ (recursive = true ∨ r' = []) →
    n = Join (segments dir ++ [c']) slash → False).
  { intros n s c r n' s' c' r' Hn Hn' Hb Hb' Hr Hr' Hname.
    destruct Hpf as [->|Hpf]; [naive_solver|].
    destruct Hr as [->| ->]; [naive_solver|]. apply Hr'. right.
    apply (Hpf n n' s s' r' Hn Hn').
    rewrite Hb. rewrite Hb'. assert (c = c') as ->; [|by rewrite <- app_assoc].
    pose proof (below_value _ _ _ _ Hb) as Hv. rewrite Hname in Hv.
    rewrite <- list_prefix_below in Hv by done. by apply app_inv_head in Hv. }
  unfold contribution in Hc1, Hc2.
  destruct (decide (recursive = true ∨ r1 = [])) as [D1|D1],
    (decide (recursive = true ∨ r2 = [])) as [D2|D2];
    injection Hc1 as <- <-; injection Hc2 as E <-.
  - congruence.
  - exfalso. by apply (Hclash n1 s1 c1 r1 n2 s2 c2 r2).
  - exfalso. by apply (Hclash n2 s2 c2 r2 n1 s1 c1 r1).
  - unfold ofSegments. congruence.
Qed.

(** The part of a listing a limit keeps. *)
Definition limited (limit : Z) (all : list Entry) : list Entry :=
  if limit =? 0 then all else take (Z.to_nat limit) all.

Lemma list_finish_limited `{R : MapRange} (limit : Z) (m : gmap bytes Entry) :
  0 ≤ limit →
  list_finish limit m = limited limit (SortFunc (λ e, value (ePath e)) (range m).*2).
Proof.
  intros Hl. unfold list_finish, limited, effectiveListLimit, len.
  set (all := SortFunc _ _). destruct (limit =? 0) eqn:H0.
  - by rewrite Z.eqb_refl.
  - destruct (Z.eqb_spec (limit `min` Z.of_nat (length all)) (Z.of_nat (length all))).
    + rewrite take_ge; [done|]. lia.
    + f_equal. lia.
Qed.

Lemma ListObjects_total `{R : MapRange} a dir options t :
  wf_adapter a → wf_path dir → 0 ≤ Limit options →
  Recursive options = true ∨ prefix_free a →
  ∃ all,
    run_result (ListObjects Background dir options) t a =
      Ok (newIterator (limited (Limit options) all)) ∧
    Sorted (key_le (λ e, value (ePath e))) all ∧
    NoDup ((λ e, value (ePath e)) <$> all) ∧
    ∀ e, e ∈ all ↔ listed a dir (Recursive options) e.
Proof.
  intros Ha Hd Hl Hpf.
  destruct (list_loop_spec dir (Recursive options) (range (objects a)) ∅ (range_wf a Ha))
    as (m & Hm & Hspec).
  { intros k e1 e2 [?|H1] [?|H2]; [by simplify_map_eq..|].
    by eapply listed_functional. }
  assert (Hmem : ∀ k e, m !! k = Some e ↔ listed a dir (Recursive options) e ∧ k = value (ePath e)).
  { intros k e. rewrite Hspec, contributes_listed, lookup_empty. naive_solver. }
  exists (SortFunc (λ e, value (ePath e)) (range m).*2). split_and!.
  - unfold run_result, ListObjects, bind, check_ctx. simpl.
    rewrite (proj2 (Z.ltb_ge _ _)) by done. simpl. unfold lift_result. rewrite Hm.
    unfold ret. simpl. by rewrite list_finish_limited.
  - apply SortFunc_sorted.
  - rewrite (fmap_Permutation _ _ _ (SortFunc_perm _ _)).
    assert ((λ e, value (ePath e)) <$> (range m).*2 = (range m).*1) as ->.
    { rewrite <- list_fmap_compose. apply list_fmap_ext. intros i [k e] Hi. simpl.
      apply list_elem_of_lookup_2, elem_of_range, Hmem in Hi as [_ ->]. done. }
    rewrite range_perm. apply NoDup_fst_map_to_list.
  - intros e. rewrite SortFunc_perm, list_elem_of_fmap. split.
    + intros ([k e'] & -> & Hin%elem_of_range). by apply Hmem in Hin as [? _].
    + intros He. exists (value (ePath e), e). split; [done|]. by apply elem_of_range, Hmem.
Qed.

(** C36: a listing is complete, exact, duplicate-free and sorted.  In a
    well-formed store where no object sits at another object's directory (or
    for any well-formed store when the listing is recursive), and whatever order
    Go ranges over the maps, [List] succeeds and its iterator holds the first
    [Limit] (all, when zero) of a list that is sorted by path without duplicate
    paths and whose members are exactly: the objects below the directory, only
    direct children when not recursive, and, when not recursive, one directory
    entry per child that has objects below it. *)
Theorem ListObjects_spec (R : MapRange) a dir options t :
  wf_adapter a → wf_path dir → 0 ≤ Limit options →
  Recursive options = true ∨ prefix_free a →
  ∃ all,
    run_result (ListObjects Background dir options) t a =
      Ok (newIterator (limited (Limit options) all)) ∧
    Sorted (key_le (λ e, value (ePath e))) all ∧
    NoDup ((λ e, value (ePath e)) <$> all) ∧
    ∀ e, e ∈ all ↔ listed a dir (Recursive options) e.
Proof. apply ListObjects_total. Qed.

(** A store with two objects in a directory and one beside it. *)
Definition sample : Adapter :=
  mkAdapter (list_to_map
    [(bs "d/a", mkObject (bs "1") None [] VisibilityPrivate 5);
     (bs "d/b/c", mkObject (bs "22") None [] VisibilityPrivate 6);
     (bs "e", mkObject (bs "") None [] VisibilityPublic 7)]) (λ t, t).

Lemma sample_wf : wf_adapter sample.
Proof. decide_now. Qed.

Lemma ListObjects_spec_witness :
  ∃ all,
    run_result (ListObjects (R := model_range) Background (mkPath (bs "d")) (mkListOptions true 0)) 0 sample =
      Ok (newIterator (limited 0 all)) ∧
    Sorted (key_le (λ e, value (ePath e))) all ∧
    NoDup ((λ e, value (ePath e)) <$> all) ∧
    ∀ e, e ∈ all ↔ listed sample (mkPath (bs "d")) true e.
Proof.
  apply (ListObjects_spec model_range sample (mkPath (bs "d")) (mkListOptions true 0) 0).
  - exact sample_wf.
  - decide_now.
  - simpl. lia.
  - by left.
Defined.

(** Listings are deterministic: in a well-formed store where no object
    sits at another object's directory, or when recursive, the result does not
    depend on the order in which Go ranges over the object map and the entry
    map. *)
Theorem ListObjects_deterministic (R1 R2 : MapRange) a dir options t :
  wf_adapter a → wf_path dir → 0 ≤ Limit options →
  Recursive options = true ∨ prefix_free a →
  run_result (ListObjects (R := R1) Background dir options) t a =
  run_result (ListObjects (R := R2) Background dir options) t a.
Proof.
  intros Ha Hd Hl Hpf.
  destruct (ListObjects_total (R := R1) a dir options t Ha Hd Hl Hpf) as (l1 & -> & Hs1 & Hn1 & H1).
  destruct (ListObjects_total (R := R2) a dir options t Ha Hd Hl Hpf) as (l2 & -> & Hs2 & Hn2 & H2).
  do 3 f_equal. apply (sorted_perm_unique _ l1 l2 Hn1); [|done..].
  apply NoDup_Permutation; [by eapply NoDup_fmap_1..|]. intros e. by rewrite H1, H2.
Qed.

(** Another range order. *)
Definition reverse_range : MapRange.
Proof.
  refine {| range := λ V m, reverse (map_to_list m) |}.
  intros V m. apply reverse_Permutation.
Defined.

Lemma ListObjects_deterministic_witness :
  run_result (ListObjects (R := model_range) Background (mkPath (bs "d")) (mkListOptions true 1)) 0 sample =
  run_result (ListObjects (R := reverse_range) Background (mkPath (bs "d")) (mkListOptions true 1)) 0 sample.
Proof.
  apply (ListObjects_deterministic model_range reverse_range sample (mkPath (bs "d"))
           (mkListOptions true 1) 0).
  - exact sample_wf.
  - decide_now.
  - simpl. lia.
  - by left.
Defined.

(** ** Where a listing goes wrong *)

(** Without that condition a non-recursive listing is not deterministic:
    two ordinary writes, to ["a"] and to ["a/b"], give a store whose root
    listing reports ["a"] as a file under one map order and as a directory under
    another. *)
Theorem ListObjects_order_dependent :
  let write path := OpWrite Background (mkPath path) [] (mkWriteOptions [] None [] false) in
  let a := (exec_all [write (bs "a"); write (bs "a/b")] 0 (New (λ t, t) [])).2 in
  wf_adapter a ∧
  run_result (ListObjects (R := model_range) Background Root (mkListOptions false 0)) 0 a ≠
  run_result (ListObjects (R := reverse_range) Background Root (mkListOptions false 0)) 0 a.
Proof. split; [decide_now|]. vm_compute. discriminate. Qed.

(** [Copy] (and so [Move]) accepts the root as destination although
    [Write] rejects it, and the object it stores under the empty key makes every
    later root listing panic, whatever the map order. *)
Theorem Copy_to_root_poisons_List (R : MapRange) recursive limit :
  let w := mkPath (bs "a") in
  let ops := [OpWrite Background w [] (mkWriteOptions [] None [] false);
              OpCopy Background w Root (mkCopyOptions true)] in
  let a := (exec_all ops 0 (New (λ t, t) [])).2 in
  0 ≤ limit →
  is_Some (objects a !! []) ∧
  ∃ msg, run_result (ListObjects Background Root (mkListOptions recursive limit)) 0 a = Panic msg.
Proof.
  intros w ops a Hl.
  assert (Ha : ∃ o1 o2, objects a = <[[] := o1]> {[ bs "a" := o2 ]}).
  { eexists _, _. vm_compute. reflexivity. }
  destruct Ha as (o1 & o2 & Ha). clearbody a. split; [rewrite Ha; by eexists|].
  unfold run_result, ListObjects, bind, check_ctx. simpl.
  rewrite (proj2 (Z.ltb_ge _ _)) by done. simpl. unfold lift_result.
  assert (Hloop : ∀ objs acc, ([], o1) ∈ objs →
    (∀ name o, (name, o) ∈ objs → name = [] ∨ name = bs "a") →
    list_loop [] recursive objs acc = Panic "invalid filesystem path").
  { induction objs as [|[name o] objs IH]; intros acc Hin Hall; [by apply elem_of_nil in Hin|].
    apply elem_of_cons in Hin as [[= <- <-]|Hin]; [by destruct recursive|].
    destruct (Hall name o) as [->| ->]; [by left|by destruct recursive|].
    assert (∃ x, list_entry [] recursive (bs "a") o = Ok x) as [x Hx]
      by (destruct recursive; eexists; reflexivity).
    cbn [list_loop]. rewrite Hx. cbn [result_bind]. apply IH; [done|].
    intros name' o' ?. apply (Hall name' o'). by right. }
  change (list_prefix Root) with (@nil Ascii.ascii). rewrite Hloop; [by eexists|..].
  - rewrite Ha. apply elem_of_range. apply lookup_insert_eq.
  - intros name o. rewrite Ha, elem_of_range, lookup_insert_Some, lookup_singleton_Some.
    naive_solver.
Qed.

Lemma Copy_to_root_poisons_List_witness :
  let w := mkPath (bs "a") in
  let ops := [OpWrite Background w [] (mkWriteOptions [] None [] false);
              OpCopy Background w Root (mkCopyOptions true)] in
  let a := (exec_all ops 0 (New (λ t, t) [])).2 in
  is_Some (objects a !! []) ∧
  ∃ msg, run_result (ListObjects (R := model_range) Background Root (mkListOptions true 10)) 0 a
         = Panic msg.
Proof. apply (Copy_to_root_poisons_List model_range true 10). lia. Defined.
