(* ===== verification/MemoryConc.v ===== *)
(** * Concurrent use of the in-memory adapter

    Goroutines share one [Adapter].  The read-write mutex makes every critical
    section one atomic step; [Write] reads its source before it takes the lock,
    so its two parts are separate steps and other goroutines run in between. *)

From S2P Require Import Prelude GoStrings Errors Effects Paths Capability Contracts Iterator Digest Memory.

(** ** Interleavings *)

Inductive status :=
  | Pending                         (** not started *)
  | Prepared (stored : object)      (** [Write] has read its source, lock not taken *)
  | Finished (r : result unit).

Record goroutine := mkGoroutine { g_op : op; g_status : status }.

Record config := mkConfig {
  c_time : Z;
  c_adapter : Adapter;
  c_threads : list goroutine;
}.

Definition finish {A} (r : result A) : status := Finished (result_map (λ _, tt) r).

Inductive step : config → config → Prop :=
  (** time passes between observations *)
  | step_tick t t' a ths : t ≤ t' → step (mkConfig t a ths) (mkConfig t' a ths)
  (** the part of [Write] before the lock *)
  | step_prepare t a ths i ctx path source options r t' a' :
      ths !! i = Some (mkGoroutine (OpWrite ctx path source options) Pending) →
      write_prepare ctx path source options t a = (r, (t', a')) →
      step (mkConfig t a ths)
        (mkConfig t' a' (<[i := mkGoroutine (OpWrite ctx path source options)
           (match r with Ok stored => Prepared stored | r => finish r end)]> ths))
  (** the critical section of [Write] *)
  | step_publish t a ths i ctx path source options stored r t' a' :
      ths !! i = Some (mkGoroutine (OpWrite ctx path source options) (Prepared stored)) →
      write_publish path options stored t a = (r, (t', a')) →
      step (mkConfig t a ths)
        (mkConfig t' a' (<[i := mkGoroutine (OpWrite ctx path source options) (finish r)]> ths))
  (** an operation whose whole body is one critical section *)
  | step_atomic t a ths i o r t' a' :
      ths !! i = Some (mkGoroutine o Pending) →
      (match o with OpWrite _ _ _ _ => False | _ => True end) →
      exec o t a = (r, (t', a')) →
      step (mkConfig t a ths) (mkConfig t' a' (<[i := mkGoroutine o (finish r)]> ths)).

(** ** Create-only writes *)

(** A create-only write of [path]. *)
Definition is_create (path : Path) (o : op) : Prop :=
  match o with
  | OpWrite _ q _ options => q = path ∧ wIfNoneMatch options = true
  | _ => False
  end.

(** A create-only write of [path] that succeeded. *)
Definition is_winner (path : Path) (g : goroutine) : Prop :=
  is_create path (g_op g) ∧ match g_status g with Finished (Ok _) => True | _ => False end.

#[export] Instance is_winner_dec path g : Decision (is_winner path g).
Proof.
  unfold is_winner, is_create.
  destruct (g_op g), (g_status g) as [| |[| |]]; apply _.
Defined.

(** The operation can take the object at [path] away. *)
Definition removes (path : Path) (o : op) : Prop :=
  match o with
  | OpDelete _ q => q = path
  | OpMove _ source _ _ => source = path
  | _ => False
  end.

Definition winners (path : Path) (c : config) : nat :=
  length (filter (is_winner path) (c_threads c)).

Lemma filter_length_insert {A} (P : A → Prop) `{∀ x, Decision (P x)} (l : list A) i x y :
  l !! i = Some x → ¬ P x →
  length (filter P (<[i:=y]> l)) =
  (length (filter P l) + (if decide (P y) then 1 else 0))%nat.
Proof.
  intros Hi Hx. rewrite <- (take_drop_middle l i x Hi) at 2.
  rewrite insert_take_drop by (by eapply lookup_lt_Some).
  rewrite !filter_app, !filter_cons, (decide_False (P:=P x)) by done.
  rewrite !length_app. destruct (decide (P y)); simpl; lia.
Qed.

(** No operation that does not remove [path] makes the object there go away. *)
Lemma exec_keeps path o t a r t' a' :
  ¬ removes path o → exec o t a = (r, (t', a')) →
  is_Some (objects a !! value path) → is_Some (objects a' !! value path).
Proof.
  intros Hrem He Hp. destruct o as [ctx q src opts|ctx q|ctx s d opts|ctx s d opts|ctx q md|ctx q v];
    simpl in Hrem, He.
  - unfold bind, ret in He.
    destruct (Write_cases ctx q src opts t a) as [(o & t1 & Hw & _)|(e & t1 & Hw)];
      rewrite Hw in He; simplify_eq/=; [|done].
    simpl. rewrite lookup_insert. case_decide; eauto.
  - op_cases. rewrite lookup_delete_ne; [done|].
    intros E. apply Hrem. destruct q, path. simpl in *. by subst.
  - destruct (Copy_cases ctx s d opts t a) as [(o & t1 & time & _ & _ & Hc)|(e & t1 & Hc)];
      rewrite Hc in He; simplify_eq/=; [|done].
    simpl. rewrite lookup_insert. case_decide; eauto.
  - destruct (Move_cases ctx s d opts t a)
      as [(o & t1 & _ & _ & [[_ Hm]|(_ & time & Hm)])|(e & t1 & Hm)];
      rewrite Hm in He; simplify_eq/=; [done| |done].
    simpl. rewrite lookup_delete_ne by (intros E; apply Hrem; destruct s, path; simpl in *; by subst).
    simpl. rewrite lookup_insert. case_decide; eauto.
  - op_cases; rewrite lookup_insert; case_decide; eauto.
  - op_cases; rewrite lookup_insert; case_decide; eauto.
Qed.

Lemma write_prepare_state ctx path source options t a r t' a' :
  write_prepare ctx path source options t a = (r, (t', a')) → a' = a.
Proof.
  intros H. pose proof (write_prepare_spec ctx path source options t a) as Hp.
  rewrite H in Hp. destruct r; [by destruct Hp|done|done].
Qed.

(** One winner at most, and the object it created is still there. *)
Definition exclusive (path : Path) (c : config) : Prop :=
  Forall (λ g, ¬ removes path (g_op g)) (c_threads c) ∧
  ((winners path c = 0)%nat ∨
   (winners path c = 1)%nat ∧ is_Some (objects (c_adapter c) !! value path)).

Lemma winners_insert path t a ths i x y :
  ths !! i = Some x → ¬ is_winner path x →
  winners path (mkConfig t a (<[i:=y]> ths)) =
  (winners path (mkConfig t a ths) + (if decide (is_winner path y) then 1 else 0))%nat.
Proof. intros. by apply filter_length_insert with x. Qed.

Lemma Forall_removes_insert path ths i o st st' :
  Forall (λ g, ¬ removes path (g_op g)) ths → ths !! i = Some (mkGoroutine o st) →
  Forall (λ g, ¬ removes path (g_op g)) (<[i := mkGoroutine o st']> ths) ∧ ¬ removes path o.
Proof.
  intros Hall Hi. pose proof (Forall_lookup_1 _ _ _ _ Hall Hi) as Ho.
  split; [|done]. by apply Forall_insert.
Qed.

(** A goroutine that moves to a state that is no win keeps the count. *)
Lemma exclusive_no_win path t a t' a' ths i o st st' :
  exclusive path (mkConfig t a ths) → ths !! i = Some (mkGoroutine o st) →
  ¬ is_winner path (mkGoroutine o st) → ¬ is_winner path (mkGoroutine o st') →
  (is_Some (objects a !! value path) → is_Some (objects a' !! value path)) →
  exclusive path (mkConfig t' a' (<[i := mkGoroutine o st']> ths)).
Proof.
  intros [Hall Hcount] Hi Hn Hn' Hkeep.
  destruct (Forall_removes_insert path ths i o st st' Hall Hi) as [Hall' _].
  split; [exact Hall'|]. rewrite (winners_insert _ _ _ _ _ _ _ Hi Hn), decide_False by done.
  rewrite Nat.add_0_r. unfold winners in *. simpl in *. naive_solver.
Qed.

Lemma step_exclusive path c c' : exclusive path c → step c c' → exclusive path c'.
Proof.
  intros Hex Hstep. destruct Hstep as [t t' a ths Ht
    |t a ths i ctx q source options r t' a' Hi Hp
    |t a ths i ctx q source options stored r t' a' Hi Hp
    |t a ths i o r t' a' Hi Hnw He].
  - exact Hex.
  - apply write_prepare_state in Hp as Ha. subst a'.
    eapply exclusive_no_win; [exact Hex|exact Hi|by intros [_ []]| |done].
    intros [_ Hw]. pose proof (write_prepare_spec ctx q source options t a) as Hs.
    rewrite Hp in Hs. by destruct r.
  - unfold write_publish, bind, get, put, throw, ret in Hp.
    destruct Hex as [Hall Hcount] eqn:Heq. clear Heq.
    destruct (wIfNoneMatch options && bool_decide _) eqn:Hcond; simpl in Hp; simplify_eq.
    { eapply exclusive_no_win; [by split|exact Hi|by intros [_ []]|by intros [_ []]|done]. }
    destruct (Forall_removes_insert path ths i _ _ (Finished (Ok tt)) Hall Hi) as [Hall' _].
    split; [exact Hall'|]. rewrite (winners_insert path _ _ _ _ _ _ Hi) by (by intros [_ []]).
    case_decide as Hw.
    + destruct Hw as [[-> Hif] _]. rewrite Hif in Hcond. simpl in Hcond.
      apply bool_decide_eq_false in Hcond. right. unfold winners in *. simpl in *.
      destruct Hcount as [->|[_ ?]]; [|done]. by rewrite lookup_insert_eq.
    + rewrite Nat.add_0_r. unfold winners in *. simpl in *.
      destruct Hcount as [?|[? Hp]]; [by left|]. right. split; [done|].
      rewrite lookup_insert. case_decide; eauto.
  - destruct Hex as [Hall Hcount] eqn:Heq. clear Heq.
    destruct (Forall_removes_insert path ths i o Pending Pending Hall Hi) as [_ Hrem].
    eapply exclusive_no_win; [by split|exact Hi|by intros [_ []]| |].
    + intros [Hc _]. by destruct o.
    + by apply (exec_keeps path o t a r t' a').
Qed.

(** C6: create-only writes exclude each other under concurrency.  Let any
    number of goroutines share one adapter, each running one operation, none of
    which deletes the object at [path] or moves it away.  However their steps
    interleave, also between a write's reading of its source and its
    publication, at most one create-only ([IfNoneMatch]) write of [path] succeeds,
    and once one has, the object exists. *)
Theorem create_only_exclusive path t a ths c :
  Forall (λ g, ¬ removes path (g_op g) ∧ g_status g = Pending) ths →
  rtc step (mkConfig t a ths) c →
  (winners path c ≤ 1)%nat ∧
  ((winners path c = 1)%nat → is_Some (objects (c_adapter c) !! value path)).
Proof.
  intros Hths Hrtc.
  assert (Hinit : exclusive path (mkConfig t a ths)).
  { split; [by eapply Forall_impl; [exact Hths|intros ? []]|]. left. unfold winners. simpl.
    clear Hrtc. induction Hths as [|g ths [_ Hg] _ IH]; [done|].
    rewrite filter_cons, decide_False; [done|]. intros [_ Hw]. by rewrite Hg in Hw. }
  assert (Hc : exclusive path c).
  { induction Hrtc as [|c1 c2 c3 Hstep _ IH]; [done|]. by eapply IH, step_exclusive. }
  destruct Hc as [_ [->|[-> ?]]]; split; (lia || done).
Qed.

(** Two racing create-only writes: both read their sources before either
    publishes; the first to publish wins and the second fails. *)
Definition race_op (content : bytes) : op :=
  OpWrite Background (mkPath (bs "p")) [(content, None)] (mkWriteOptions [] None [] true).

Lemma create_only_exclusive_witness :
  ∃ c, rtc step (mkConfig 0 (New (λ t, t) [])
                   [mkGoroutine (race_op (bs "1")) Pending; mkGoroutine (race_op (bs "2")) Pending]) c ∧
    (winners (mkPath (bs "p")) c ≤ 1)%nat ∧ (winners (mkPath (bs "p")) c = 1)%nat ∧
    ((winners (mkPath (bs "p")) c = 1)%nat → is_Some (objects (c_adapter c) !! bs "p")).
Proof.
  assert (Hrun : ∃ c, rtc step (mkConfig 0 (New (λ t, t) [])
    [mkGoroutine (race_op (bs "1")) Pending; mkGoroutine (race_op (bs "2")) Pending]) c ∧
    winners (mkPath (bs "p")) c = 1%nat).
  { eexists. split.
    - eapply rtc_l; [by eapply (step_prepare _ _ _ 0)|].
      eapply rtc_l; [by eapply (step_prepare _ _ _ 1)|].
      eapply rtc_l; [by eapply (step_publish _ _ _ 1)|].
      eapply rtc_l; [by eapply (step_publish _ _ _ 0)|].
      apply rtc_refl.
    - vm_compute. reflexivity. }
  destruct Hrun as (c & Hrtc & Hw). exists c. split; [exact Hrtc|].
  destruct (create_only_exclusive (mkPath (bs "p")) 0 (New (λ t, t) [])
    [mkGoroutine (race_op (bs "1")) Pending; mkGoroutine (race_op (bs "2")) Pending] c)
    as [H1 H2]; [|exact Hrtc|].
  - repeat constructor; intros [].
  - split; [exact H1|split; [exact Hw|exact H2]].
Defined.
