(* ===== verification/Decorator.v ===== *)
(** * Policy decorators: [decorator/decorator.go]

    The common adapter surface as a record of operations over a backend's own
    state and iterator type, and the decorator that turns such a backend into
    another one. *)

From S2P Require Import Prelude GoStrings Errors Effects Paths Capability Contracts Digest.

(** ** The wrapped interface *)

(** [type Backend interface], with the optional [TemporaryURLer]. *)
Record Backend (S I : Type) := mkBackend {
  bCapabilities : result CapabilitySet;
  bOpen : context → Path → M S stream;
  bOpenRange : context → Path → ByteRange → M S stream;
  bWrite : context → Path → reader → WriteOptions → M S Metadata;
  bOpenWriter : context → Path → WriteOptions → M S (writer S);
  bDelete : context → Path → M S unit;
  bList : context → Path → ListOptions → M S I;
  bStat : context → Path → M S Metadata;
  bCopy : context → Path → Path → CopyOptions → M S unit;
  bMove : context → Path → Path → MoveOptions → M S unit;
  bSetMetadata : context → Path → stringmap → M S unit;
  bChecksum : context → Path → ChecksumAlgorithm → M S Checksum;
  bVisibility : context → Path → M S Visibility;
  bSetVisibility : context → Path → Visibility → M S unit;
  bTemporaryURL : option (context → Path → Z → TemporaryURLOptions → M S bytes);
}.
Arguments bCapabilities {_ _}.
Arguments bOpen {_ _}.
Arguments bOpenRange {_ _}.
Arguments bWrite {_ _}.
Arguments bOpenWriter {_ _}.
Arguments bDelete {_ _}.
Arguments bList {_ _}.
Arguments bStat {_ _}.
Arguments bCopy {_ _}.
Arguments bMove {_ _}.
Arguments bSetMetadata {_ _}.
Arguments bChecksum {_ _}.
Arguments bVisibility {_ _}.
Arguments bSetVisibility {_ _}.
Arguments bTemporaryURL {_ _}.
Arguments mkBackend {_ _}.

(** ** Configuration *)

Record RetryPolicy := mkRetryPolicy {
  Attempts : Z;
  Retryable : option (error → bool);
  Backoff : option (Z → Z);
}.

(** Whether an observer is installed; what it receives is the event log. *)
Record configuration := mkConfiguration {
  prefix : Path;
  readOnly : bool;
  checksums : bool;
  retry : option RetryPolicy;
  observer : bool;
}.

Inductive Option :=
  | WithPrefix (prefix : bytes)
  | ReadOnly
  | WithChecksums
  | WithRetry (policy : RetryPolicy)
  | WithObserver (present : bool).

Definition apply_option (o : Option) (c : configuration) : result configuration :=
  match o with
  | WithPrefix prefix =>
      match ParsePath prefix with
      | Ok parsed => Ok (mkConfiguration parsed (readOnly c) (checksums c) (retry c) (observer c))
      | Err err => Err (Errorf "decorator: invalid prefix: %w" [err] [])
      | Panic m => Panic m
      end
  | ReadOnly => Ok (mkConfiguration (prefix c) true (checksums c) (retry c) (observer c))
  | WithChecksums => Ok (mkConfiguration (prefix c) (readOnly c) true (retry c) (observer c))
  | WithRetry policy =>
      if Attempts policy <=? 0 then Err (NewError "decorator: retry attempts must be positive")
      else match Retryable policy with
           | None => Err (NewError "decorator: retry classifier is required")
           | Some _ =>
               Ok (mkConfiguration (prefix c) (readOnly c) (checksums c) (Some policy) (observer c))
           end
  | WithObserver present =>
      if negb present then Err (NewError "decorator: observer is required")
      else Ok (mkConfiguration (prefix c) (readOnly c) (checksums c) (retry c) true)
  end.

Fixpoint apply_options (options : list Option) (c : configuration) : result configuration :=
  match options with
  | [] => Ok c
  | o :: rest => result_bind (apply_option o c) (apply_options rest)
  end.

(** [Adapter]: the backend and the configuration's fields. *)
Record Adapter (S I : Type) := mkAdapter { backend : Backend S I; config : configuration }.
Arguments backend {_ _}.
Arguments config {_ _}.
Arguments mkAdapter {_ _}.

Definition zeroConfiguration : configuration := mkConfiguration Root false false None false.

(** [None] is a nil backend. *)
Definition New {S I} (backend : option (Backend S I)) (options : list Option)
    : result (Adapter S I) :=
  match backend with
  | None => Err (NewError "decorator: backend is required")
  | Some b => result_map (mkAdapter b) (apply_options options zeroConfiguration)
  end.

(** ** Observation and retries *)

Record Event := mkEvent {
  evOperation : Operation;
  evPath : Path;
  evDestination : Path;
  evStarted : Z;
  evDuration : Z;
  evError : option error;
}.

(** The backend's state and the events the observer has received. *)
Record Dec (S : Type) := mkDec { inner : S; events : list Event }.
Arguments inner {_}.
Arguments events {_}.
Arguments mkDec {_}.

(** A call of the backend. *)
Definition call {S A} (m : M S A) : M (Dec S) A := λ t d,
  let '(r, (t', s')) := m t (inner d) in (r, (t', mkDec s' (events d))).

Definition observeCall {S A} (observer : bool) (operation : Operation)
    (path destination : Path) (m : M (Dec S) A) : M (Dec S) A := λ t d,
  match m t d with
  | (Panic msg, w) => (Panic msg, w)
  | (r, (t', d')) =>
      (r, (t', if observer
               then mkDec (inner d')
                      (events d' ++ [mkEvent operation path destination t (t' - t) (err_of r)])
               else d'))
  end.

(** The [select] between the timer and the context.  When both are ready Go
    picks either, but the next attempt would return the same context error. *)
Definition wait {S} (ctx : context) (delay : Z) : M S unit := λ t s,
  let fires := t + Z.max 0 delay in
  match ctx_Err ctx fires with
  | Some err => (Err err, (match ctx with DoneAt k _ => Z.max t k | Background => t end, s))
  | None => (Ok tt, (fires, s))
  end.

(** [errors.Is] a context error. *)
Definition is_ctx_error (err : error) : bool := Is err Canceled || Is err DeadlineExceeded.

(** The loop of [retryCall] from attempt number [attempt] on.  [fuel] bounds the
    attempts left; a validated policy never uses it up. *)
Fixpoint retry_loop {S A} (fuel : nat) (ctx : context) (policy : RetryPolicy) (attempt : Z)
    (m : M S A) : M S A :=
  match fuel with
  | O => panic "retry attempts exhausted"
  | S fuel' =>
      do! check_ctx ctx in
      let! r := Effects.attempt m in
      match r with
      | inl result => ret result
      | inr err =>
          if (attempt =? Attempts policy) || is_ctx_error err then throw err
          else match Retryable policy with
               | None => panic "nil function call"
               | Some retryable =>
                   if negb (retryable err) then throw err
                   else match Backoff policy with
                        | None => retry_loop fuel' ctx policy (attempt + 1) m
                        | Some backoff =>
                            do! wait ctx (backoff attempt) in
                            retry_loop fuel' ctx policy (attempt + 1) m
                        end
               end
      end
  end.

Definition retryCall {S A} (ctx : context) (policy : option RetryPolicy) (m : M S A) : M S A :=
  match policy with
  | None => m
  | Some p => retry_loop (Z.to_nat (Attempts p)) ctx p 1 m
  end.

(** ** Paths *)

Definition internal (prefix path : Path) : result Path :=
  if IsRoot prefix then Ok path
  else if IsRoot path then Ok prefix
  else MustParsePath (value prefix ++ slash :: value path).

Definition externalPath (prefix path : Path) : result Path :=
  if IsRoot prefix then Ok path
  else if decide (path = prefix) then Ok Root
  else match CutPrefix (value path) (value prefix ++ [slash]) with
       | None => Err (Errorf "%w: backend listing escaped decorator prefix"
                        [Sentinel ErrInvalidPath] [])
       | Some relative => ParsePath relative
       end.

(** ** The iterator *)

Record iterator (I : Type) := mkIterator {
  it_inner : I;
  it_prefix : Path;
  it_current : Entry;
  it_err : option error;
}.
Arguments it_inner {_}.
Arguments it_prefix {_}.
Arguments it_current {_}.
Arguments it_err {_}.
Arguments mkIterator {_}.

Section iterator.
Context {I : Type} `{EntryIterator I}.

Definition iterator_Next (i : iterator I) : bool * iterator I :=
  match it_err i with
  | Some _ => (false, i)
  | None =>
      match Next (it_inner i) with
      | (false, inner') => (false, mkIterator inner' (it_prefix i) (it_current i) None)
      | (true, inner') =>
          let entry := EntryOf inner' in
          match externalPath (it_prefix i) (ePath entry) with
          | Ok path =>
              (true, mkIterator inner' (it_prefix i) (set_ePath path entry) None)
          | Err err => (false, mkIterator inner' (it_prefix i) (it_current i) (Some err))
          | Panic _ => (false, mkIterator inner' (it_prefix i) (it_current i) None)
          end
      end
  end.

Definition iterator_Entry (i : iterator I) : Entry := it_current i.

Definition iterator_Err (i : iterator I) : option error :=
  match it_err i with Some err => Some err | None => IterErr (it_inner i) end.

Definition iterator_Close (i : iterator I) : option error * iterator I :=
  let '(err, inner') := CloseIter (it_inner i) in
  (err, mkIterator inner' (it_prefix i) (it_current i) (it_err i)).

#[export] Instance iterator_EntryIterator : EntryIterator (iterator I) := {
  Next := iterator_Next;
  EntryOf := iterator_Entry;
  IterErr := iterator_Err;
  CloseIter := iterator_Close;
}.
End iterator.

(** ** The operations *)

(** The capabilities a read-only decorator withholds. *)
Definition mutating : list Capability :=
  [CapabilityWrite; CapabilityStreamingWrite; CapabilityDelete; CapabilityCopy;
   CapabilityMove; CapabilityMetadata; CapabilityVisibility; CapabilityMultipart].

Definition unsupported (capability : Capability) (operation : Operation) : error :=
  Unsupported (bs "decorator/read-only") capability operation.

Definition rootObject : error := Errorf "%w: object path is root" [Sentinel ErrInvalidPath] [].

(** The digest of [hash.Hash]: [Sum(nil)] after writing [b]. *)
Definition digest_Sum (algorithm : ChecksumAlgorithm) (b : bytes) : option bytes :=
  if decide (algorithm = ChecksumMD5) then Some (md5_Sum b)
  else if decide (algorithm = ChecksumSHA256) then Some (sha256_Sum256 b)
  else if decide (algorithm = ChecksumCRC32C) then Some (be_bytes 4 (crc32_Checksum b))
  else None.

Section adapter.
Context {S I : Type} `{EntryIterator I} (a : Adapter S I).

Local Notation observe := (observeCall (observer (config a))).
Local Notation retried ctx m := (retryCall ctx (retry (config a)) m).

(** [a.internal(path)] as the argument of a backend call. *)
Definition at_internal {A} (path : Path) (f : Path → M S A) : M (Dec S) A :=
  let! p := lift_result (internal (prefix (config a)) path) in call (f p).

Definition Capabilities : result CapabilitySet :=
  result_bind (bCapabilities (backend a)) (λ set,
    let capabilities := ListCapabilities set in
    let capabilities :=
      if readOnly (config a) then filter (λ c, c ∉ mutating) capabilities
      else capabilities in
    let capabilities :=
      if checksums (config a) then capabilities ++ [CapabilityChecksum] else capabilities in
    NewCapabilitySet capabilities).

Definition Open (ctx : context) (path : Path) : M (Dec S) stream :=
  observe OperationRead path Root
    (retried ctx (at_internal path (bOpen (backend a) ctx))).

Definition OpenRange (ctx : context) (path : Path) (byteRange : ByteRange)
    : M (Dec S) stream :=
  observe OperationRangeRead path Root
    (retried ctx (at_internal path (λ p, bOpenRange (backend a) ctx p byteRange))).

Definition Write (ctx : context) (path : Path) (source : reader) (options : WriteOptions)
    : M (Dec S) Metadata :=
  observe OperationWrite path Root
    (if readOnly (config a) then throw (unsupported CapabilityWrite OperationWrite)
     else if IsRoot path then throw rootObject
     else let! metadata :=
            at_internal path (λ p, bWrite (backend a) ctx p source options) in
          ret (set_mPath path metadata)).

Definition OpenWriter (ctx : context) (path : Path) (options : WriteOptions)
    : M (Dec S) (writer (Dec S)) :=
  observe OperationWrite path Root
    (if readOnly (config a) then throw (unsupported CapabilityStreamingWrite OperationWrite)
     else if IsRoot path then throw rootObject
     else let! w := at_internal path (λ p, bOpenWriter (backend a) ctx p options) in
          ret (λ source, call (w source))).

Definition Delete (ctx : context) (path : Path) : M (Dec S) unit :=
  observe OperationDelete path Root
    (if readOnly (config a) then throw (unsupported CapabilityDelete OperationDelete)
     else at_internal path (bDelete (backend a) ctx)).

Definition ListEntries (ctx : context) (path : Path) (options : ListOptions)
    : M (Dec S) (iterator I) :=
  observe OperationList path Root
    (let! inner :=
       retried ctx (at_internal path (λ p, bList (backend a) ctx p options)) in
     ret (mkIterator inner (prefix (config a)) zeroEntry None)).

Definition Stat (ctx : context) (path : Path) : M (Dec S) Metadata :=
  observe OperationStat path Root
    (let! metadata := retried ctx (at_internal path (bStat (backend a) ctx)) in
     ret (set_mPath path metadata)).

Definition Copy (ctx : context) (source destination : Path) (options : CopyOptions)
    : M (Dec S) unit :=
  observe OperationCopy source destination
    (if readOnly (config a) then throw (unsupported CapabilityCopy OperationCopy)
     else let! s := lift_result (internal (prefix (config a)) source) in
          at_internal destination (λ d, bCopy (backend a) ctx s d options)).

Definition Move (ctx : context) (source destination : Path) (options : MoveOptions)
    : M (Dec S) unit :=
  observe OperationMove source destination
    (if readOnly (config a) then throw (unsupported CapabilityMove OperationMove)
     else let! s := lift_result (internal (prefix (config a)) source) in
          at_internal destination (λ d, bMove (backend a) ctx s d options)).

Definition SetMetadata (ctx : context) (path : Path) (metadata : stringmap)
    : M (Dec S) unit :=
  observe OperationSetMetadata path Root
    (if readOnly (config a) then throw (unsupported CapabilityMetadata OperationSetMetadata)
     else at_internal path (λ p, bSetMetadata (backend a) ctx p metadata)).

(** The body of [Checksum] under [WithChecksums], lines 332-362. *)
Definition stream_checksum (ctx : context) (path : Path) (algorithm : ChecksumAlgorithm)
    : M (Dec S) Checksum :=
  if decide (digest_Sum algorithm [] = None) then
    throw (Unsupported (bs "decorator/checksum") CapabilityChecksum OperationChecksum)
  else
    let! stream := at_internal path (bOpen (backend a) ctx) in
    let '(b, err) := ReadAll (body stream) in
    match err, close_err stream, digest_Sum algorithm b with
    | Some err, _, _ => throw err
    | None, Some err, _ => throw err
    | None, None, Some sum => ret (mkChecksum algorithm (EncodeToString sum))
    | None, None, None => throw (Unsupported (bs "decorator/checksum") CapabilityChecksum OperationChecksum)
    end.

Definition ChecksumOf (ctx : context) (path : Path) (algorithm : ChecksumAlgorithm)
    : M (Dec S) Checksum :=
  observe OperationChecksum path Root
    (retried ctx
       (if negb (checksums (config a)) then
          at_internal path (λ p, bChecksum (backend a) ctx p algorithm)
        else stream_checksum ctx path algorithm)).

Definition TemporaryURL (ctx : context) (path : Path) (lifetime : Z)
    (options : TemporaryURLOptions) : M (Dec S) bytes :=
  observe OperationTemporaryURL path Root
    (match bTemporaryURL (backend a) with
     | None => throw (Unsupported (bs "decorator") CapabilityTemporaryURL OperationTemporaryURL)
     | Some signer => retried ctx (at_internal path (λ p, signer ctx p lifetime options))
     end).

Definition VisibilityOf (ctx : context) (path : Path) : M (Dec S) Visibility :=
  observe OperationVisibility path Root
    (if readOnly (config a) then throw (unsupported CapabilityVisibility OperationVisibility)
     else retried ctx (at_internal path (bVisibility (backend a) ctx))).

Definition SetVisibility (ctx : context) (path : Path) (visibility : Visibility)
    : M (Dec S) unit :=
  observe OperationSetVisibility path Root
    (if readOnly (config a) then
       throw (unsupported CapabilityVisibility OperationSetVisibility)
     else at_internal path (λ p, bSetVisibility (backend a) ctx p visibility)).

(** A decorated adapter is itself a backend: decorators compose. *)
Definition decorate : Backend (Dec S) (iterator I) :=
  mkBackend Capabilities Open OpenRange Write OpenWriter Delete ListEntries Stat Copy Move
    SetMetadata ChecksumOf VisibilityOf SetVisibility (Some TemporaryURL).
End adapter.

(** ** Requests: the operations of the surface as data *)

Inductive request :=
  | RqOpen (ctx : context) (path : Path)
  | RqOpenRange (ctx : context) (path : Path) (byteRange : ByteRange)
  | RqWrite (ctx : context) (path : Path) (source : reader) (options : WriteOptions)
  | RqOpenWriter (ctx : context) (path : Path) (options : WriteOptions)
  | RqDelete (ctx : context) (path : Path)
  | RqList (ctx : context) (path : Path) (options : ListOptions)
  | RqStat (ctx : context) (path : Path)
  | RqCopy (ctx : context) (source destination : Path) (options : CopyOptions)
  | RqMove (ctx : context) (source destination : Path) (options : MoveOptions)
  | RqSetMetadata (ctx : context) (path : Path) (metadata : stringmap)
  | RqChecksum (ctx : context) (path : Path) (algorithm : ChecksumAlgorithm)
  | RqTemporaryURL (ctx : context) (path : Path) (lifetime : Z) (options : TemporaryURLOptions)
  | RqVisibility (ctx : context) (path : Path)
  | RqSetVisibility (ctx : context) (path : Path) (visibility : Visibility).

(** Keep only whether an operation failed. *)
Definition void {S A} (m : M S A) : M S unit := bind m (λ _, ret tt).

Definition perform {S I} (b : Backend S I) (rq : request) : M S unit :=
  match rq with
  | RqOpen ctx path => void (bOpen b ctx path)
  | RqOpenRange ctx path r => void (bOpenRange b ctx path r)
  | RqWrite ctx path source options => void (bWrite b ctx path source options)
  | RqOpenWriter ctx path options => void (bOpenWriter b ctx path options)
  | RqDelete ctx path => bDelete b ctx path
  | RqList ctx path options => void (bList b ctx path options)
  | RqStat ctx path => void (bStat b ctx path)
  | RqCopy ctx source destination options => bCopy b ctx source destination options
  | RqMove ctx source destination options => bMove b ctx source destination options
  | RqSetMetadata ctx path metadata => bSetMetadata b ctx path metadata
  | RqChecksum ctx path algorithm => void (bChecksum b ctx path algorithm)
  | RqTemporaryURL ctx path lifetime options =>
      match bTemporaryURL b with
      | Some f => void (f ctx path lifetime options)
      | None => ret tt
      end
  | RqVisibility ctx path => void (bVisibility b ctx path)
  | RqSetVisibility ctx path visibility => bSetVisibility b ctx path visibility
  end.

Definition rq_operation (rq : request) : Operation :=
  match rq with
  | RqOpen _ _ => OperationRead
  | RqOpenRange _ _ _ => OperationRangeRead
  | RqWrite _ _ _ _ | RqOpenWriter _ _ _ => OperationWrite
  | RqDelete _ _ => OperationDelete
  | RqList _ _ _ => OperationList
  | RqStat _ _ => OperationStat
  | RqCopy _ _ _ _ => OperationCopy
  | RqMove _ _ _ _ => OperationMove
  | RqSetMetadata _ _ _ => OperationSetMetadata
  | RqChecksum _ _ _ => OperationChecksum
  | RqTemporaryURL _ _ _ _ => OperationTemporaryURL
  | RqVisibility _ _ => OperationVisibility
  | RqSetVisibility _ _ _ => OperationSetVisibility
  end.

Definition rq_path (rq : request) : Path :=
  match rq with
  | RqOpen _ p | RqOpenRange _ p _ | RqWrite _ p _ _ | RqOpenWriter _ p _ | RqDelete _ p
  | RqList _ p _ | RqStat _ p | RqCopy _ p _ _ | RqMove _ p _ _ | RqSetMetadata _ p _
  | RqChecksum _ p _ | RqTemporaryURL _ p _ _ | RqVisibility _ p | RqSetVisibility _ p _ => p
  end.

Definition rq_destination (rq : request) : Path :=
  match rq with RqCopy _ _ d _ | RqMove _ _ d _ => d | _ => Root end.

(** The capability a read-only decorator names when it refuses a request. *)
Definition rq_refused (rq : request) : option Capability :=
  match rq with
  | RqWrite _ _ _ _ => Some CapabilityWrite
  | RqOpenWriter _ _ _ => Some CapabilityStreamingWrite
  | RqDelete _ _ => Some CapabilityDelete
  | RqCopy _ _ _ _ => Some CapabilityCopy
  | RqMove _ _ _ _ => Some CapabilityMove
  | RqSetMetadata _ _ _ => Some CapabilityMetadata
  | RqVisibility _ _ | RqSetVisibility _ _ _ => Some CapabilityVisibility
  | _ => None
  end.

(** ** Prefixes *)

Lemma internal_ok prefix path :
  wf_path prefix → wf_path path →
  ∃ q, internal prefix path = Ok q ∧ wf_path q ∧
       segments q = segments prefix ++ segments path.
Proof.
  intros Hp Hq. unfold internal.
  destruct (IsRoot prefix) eqn:Hrp.
  { apply IsRoot_spec in Hrp as ->. by exists path. }
  destruct (IsRoot path) eqn:Hrq.
  { apply IsRoot_spec in Hrq as ->. exists prefix. by rewrite app_nil_r. }
  assert (prefix ≠ Root ∧ path ≠ Root) as [Hpr Hqr].
  { rewrite <- !IsRoot_spec. by rewrite Hrp, Hrq. }
  unfold MustParsePath. rewrite ParsePath_app by done.
  assert (Hok : segments_ok (segments prefix ++ segments path)).
  { apply segments_ok_app; [done|apply Hq|by rewrite segments_nil]. }
  eexists. split; [done|]. split; [by auto with paths|]. by rewrite segments_ofSegments by apply Hok.
Qed.

Lemma externalPath_segments prefix path q :
  wf_path prefix → wf_path path → segments q = segments prefix ++ segments path →
  externalPath prefix q = Ok path.
Proof.
  intros Hp Hq Hs. unfold externalPath.
  destruct (IsRoot prefix) eqn:Hrp.
  { apply IsRoot_spec in Hrp as ->. f_equal. by apply segments_inj. }
  assert (Hpr : prefix ≠ Root) by (by rewrite <- IsRoot_spec, Hrp).
  case_decide as Heq.
  { subst. rewrite <- (app_nil_r (segments prefix)) in Hs at 1.
    apply app_inv_head in Hs. symmetry in Hs. apply segments_nil in Hs as ->. done. }
  assert (Hqr : path ≠ Root).
  { intros ->. apply Heq. apply segments_inj. by rewrite Hs, app_nil_r. }
  assert (value q = (value prefix ++ [slash]) ++ value path) as ->.
  { rewrite <- app_assoc. simpl. rewrite value_app, <- Hs by done.
    symmetry. exact (f_equal value (ofSegments_segments q)). }
  rewrite CutPrefix_app. by apply ParsePath_String.
Qed.

Lemma externalPath_sound prefix q p :
  externalPath prefix q = Ok p →
  wf_path q → wf_path p ∧ ∃ rest, segments q = segments prefix ++ rest ∧
    (prefix = Root → p = q) ∧ (rest ≠ [] → prefix ≠ Root → ParsePath (Join rest slash) = Ok p).
Proof.
  unfold externalPath. destruct (IsRoot prefix) eqn:Hrp.
  { apply IsRoot_spec in Hrp as ->. intros [= <-] Hq. split; [done|]. by exists (segments q). }
  assert (Hpr : prefix ≠ Root) by (by rewrite <- IsRoot_spec, Hrp).
  case_decide as Heq.
  { intros [= <-] Hq. split; [by auto with paths|]. exists []. subst. by rewrite app_nil_r. }
  destruct (CutPrefix _ _) as [rel|] eqn:Hcut; [|done]. intros Hparse Hq.
  destruct (ParsePath_Ok _ _ Hparse) as (segs & -> & Hne & Hok).
  split; [by auto with paths|]. apply CutPrefix_Some in Hcut.
  rewrite <- app_assoc in Hcut. simpl in Hcut.
  exists (Split rel slash). split; [|split; [done|intros _ _; by rewrite Join_Split]].
  assert (value prefix ≠ []) by (by destruct prefix as [[|]]).
  rewrite segments_value.
  - rewrite Hcut, Split_app_sep. f_equal. by rewrite segments_value.
  - rewrite Hcut. by destruct (value prefix).
Qed.

(** Canonical text below the prefix is parsed to its own segments. *)
Lemma Join_parse rest p :
  Forall segment_ok rest → rest ≠ [] → ParsePath (Join rest slash) = Ok p → segments p = rest.
Proof.
  intros Hok Hne Hp. apply ParsePath_kept in Hp as ->.
  rewrite ReplaceByte_id by by apply wf_no_backslash.
  rewrite Split_Join by auto with paths.
  pose proof (normalize_plain rest (segment_ok_plain _ Hok)) as Hn.
  apply normalize_spec in Hn as [_ <-]. by apply segments_ofSegments.
Qed.

(** Prefixing is a faithful renaming: for a parsed prefix and a parsed
    path the internal path always exists (the call cannot panic), is the
    prefix's segments followed by the path's, and maps back to the path. *)
Theorem internal_external prefix path :
  wf_path prefix → wf_path path →
  ∃ q, internal prefix path = Ok q ∧ wf_path q ∧
       segments q = segments prefix ++ segments path ∧ externalPath prefix q = Ok path.
Proof.
  intros Hp Hq. destruct (internal_ok prefix path Hp Hq) as (q & Hi & Hw & Hs).
  exists q. split_and!; [done..|]. by apply externalPath_segments.
Qed.

Lemma internal_external_witness :
  ∃ q, internal (mkPath (bs "tenant/1")) (mkPath (bs "a.txt")) = Ok q ∧ wf_path q ∧
       segments q = [bs "tenant"; bs "1"] ++ [bs "a.txt"] ∧
       externalPath (mkPath (bs "tenant/1")) q = Ok (mkPath (bs "a.txt")).
Proof.
  apply (internal_external (mkPath (bs "tenant/1")) (mkPath (bs "a.txt"))); decide_now.
Defined.

(** A listing cannot leak entries outside the prefix: for a parsed prefix
    and a parsed backend path, [externalPath] succeeds exactly when the backend
    path is the prefix followed by the segments of some well-formed path, which
    it returns, and otherwise fails with [ErrInvalidPath]. *)
Theorem externalPath_confines prefix q :
  wf_path prefix → wf_path q →
  match externalPath prefix q with
  | Ok p => wf_path p ∧ segments q = segments prefix ++ segments p
  | Err e => Is e ErrInvalidPath = true ∧
             ∀ p, wf_path p → segments q ≠ segments prefix ++ segments p
  | Panic _ => False
  end.
Proof.
  intros Hp Hq. destruct (externalPath prefix q) as [p|e|m] eqn:He.
  - destruct (externalPath_sound _ _ _ He Hq) as (Hw & rest & Hs & Hroot & Hparse).
    split; [done|]. rewrite Hs. f_equal.
    destruct (decide (prefix = Root)) as [->|Hpr].
    { rewrite Hroot by done. by rewrite Hs. }
    destruct (decide (rest = [])) as [->|Hne].
    + rewrite app_nil_r in Hs. apply segments_inj in Hs as ->.
      unfold externalPath in He. rewrite decide_True in He by done.
      destruct (IsRoot prefix) eqn:Hr; [by apply IsRoot_spec in Hr|]. by injection He as <-.
    + symmetry. apply Join_parse; [|done|by apply Hparse].
      assert (Hall : Forall segment_ok (segments q)) by apply Hq.
      rewrite Hs in Hall. by apply Forall_app in Hall as [_ ?].
  - split.
    + unfold externalPath in He. destruct (IsRoot prefix); [done|]. case_decide; [done|].
      destruct (CutPrefix _ _) as [rel|]; [|by injection He as <-].
      destruct (ParsePath_cases rel) as [(? & Hr & _)|(? & Hr & ?)]; rewrite Hr in He; by simplify_eq.
    + intros p Hwp Hs. rewrite (externalPath_segments prefix p q) in He by done. done.
  - unfold externalPath in He. destruct (IsRoot prefix); [done|]. case_decide; [done|].
    destruct (CutPrefix _ _) as [rel|]; [|done].
    destruct (ParsePath_cases rel) as [(? & Hr & _)|(? & Hr & ?)]; rewrite Hr in He; by simplify_eq.
Qed.

Lemma externalPath_confines_witness :
  match externalPath (mkPath (bs "ab")) (mkPath (bs "abc/x")) with
  | Ok p => wf_path p ∧ segments (mkPath (bs "abc/x")) = segments (mkPath (bs "ab")) ++ segments p
  | Err e => Is e ErrInvalidPath = true ∧
             ∀ p, wf_path p → segments (mkPath (bs "abc/x")) ≠ segments (mkPath (bs "ab")) ++ segments p
  | Panic _ => False
  end.
Proof. apply (externalPath_confines (mkPath (bs "ab")) (mkPath (bs "abc/x"))); decide_now. Defined.
