(* ===== verification/DecoratorPolicy.v ===== *)
(** * What the decorator's policies guarantee: [decorator/decorator.go]

    Construction, capability filtering, read-only refusal, retries and
    observation, each proved for an arbitrary backend. *)

From S2P Require Import Prelude GoStrings Errors Effects Paths Capability Contracts Digest Iterator Decorator.

(** ** Construction *)

(** A policy [WithRetry] accepts. *)
Definition valid_policy (p : RetryPolicy) : Prop := 0 < Attempts p ∧ is_Some (Retryable p).

Definition valid_configuration (c : configuration) : Prop :=
  wf_path (prefix c) ∧ match retry c with Some p => valid_policy p | None => True end.

Definition option_ok (o : Option) : Prop :=
  match o with
  | WithPrefix p => is_ok (ParsePath p) = true
  | WithRetry p => valid_policy p
  | WithObserver present => present = true
  | ReadOnly | WithChecksums => True
  end.

Lemma apply_option_valid o c c' :
  apply_option o c = Ok c' → valid_configuration c → option_ok o ∧ valid_configuration c'.
Proof.
  intros Ho [Hp Hr]. destruct o as [p| | |p|[]]; simpl in *; simplify_eq/=; try done.
  - destruct (ParsePath p) as [q| |] eqn:Hq; simplify_eq/=. split; [done|].
    split; [|done]. destruct (ParsePath_Ok _ _ Hq) as (segs & -> & _ & ?). simpl. by auto with paths.
  - destruct (Attempts p <=? 0) eqn:Ha; [done|]. destruct (Retryable p) eqn:Hf; [|done].
    simplify_eq/=. assert (valid_policy p) by (split; [lia|by rewrite Hf]). done.
Qed.

Lemma apply_option_fails o c : (∃ c', apply_option o c = Ok c') ∨ ∃ e, apply_option o c = Err e ∧ ¬ option_ok o.
Proof.
  destruct o as [p| | |p|[]]; simpl; eauto.
  - destruct (ParsePath_cases p) as [(segs & -> & _)|(e & -> & _)]; [eauto|].
    right. eexists. by split.
  - destruct (Attempts p <=? 0) eqn:Ha.
    { right. eexists. split; [done|]. intros []. lia. }
    destruct (Retryable p) eqn:Hf; [eauto|]. right. eexists. split; [done|].
    intros [_ Hs]. rewrite Hf in Hs. by destruct Hs.
Qed.

(** [New] validates: without a backend it fails; otherwise it succeeds
    exactly when every option is acceptable (the prefix parses, a retry policy
    has positive attempts and a classifier, the observer is not nil), never
    panics, and the adapter it builds has a well-formed prefix and, if any, a
    valid retry policy. *)
Theorem New_validates {S I} (b : option (Backend S I)) options :
  match New b options with
  | Ok a => b = Some (backend a) ∧ Forall option_ok options ∧ valid_configuration (config a)
  | Err _ => b = None ∨ ¬ Forall option_ok options
  | Panic _ => False
  end.
Proof.
  destruct b as [b|]; simpl; [|by left].
  assert (Hgen : ∀ c, valid_configuration c →
    match apply_options options c with
    | Ok c' => Forall option_ok options ∧ valid_configuration c'
    | Err _ => ¬ Forall option_ok options
    | Panic _ => False
    end).
  { induction options as [|o rest IH]; intros c Hc; simpl; [done|].
    destruct (apply_option_fails o c) as [[c' Ho]|(e & Ho & Hbad)]; rewrite Ho; simpl.
    - destruct (apply_option_valid _ _ _ Ho Hc) as [Hok Hc'].
      specialize (IH c' Hc'). destruct (apply_options rest c'); [naive_solver| |done].
      by intros [_ ?]%Forall_cons.
    - by intros [? _]%Forall_cons. }
  assert (Hzero : valid_configuration zeroConfiguration) by (split; [by auto with paths|done]).
  specialize (Hgen _ Hzero). destruct (apply_options _ _); simpl; by auto.
Qed.

Create HintDb quiet.

(** ** Computations that leave part of the state alone *)

Definition preserves {S X A} (f : S → X) (m : M S A) : Prop :=
  ∀ t s, f (run_state m t s) = f s.

Section preserves.
Context {S X : Type} (f : S → X).

Lemma preserves_ret {A} (x : A) : preserves f (ret x).
Proof. done. Qed.
Lemma preserves_throw {A} e : preserves f (throw (A:=A) e).
Proof. done. Qed.
Lemma preserves_lift {A} (r : result A) : preserves f (lift_result r).
Proof. done. Qed.
Lemma preserves_bind {A B} (m : M S A) (g : A → M S B) :
  preserves f m → (∀ x, preserves f (g x)) → preserves f (bind m g).
Proof.
  intros Hm Hg t s. unfold run_state, bind. specialize (Hm t s). unfold run_state in Hm.
  destruct (m t s) as [[x|e|msg] [t' s']]; simpl in *; [|done..].
  rewrite <- Hm. apply (Hg x).
Qed.
Lemma preserves_check ctx : preserves f (check_ctx ctx).
Proof. intros t s. by monad_cases. Qed.
Lemma preserves_wait ctx delay : preserves f (wait ctx delay).
Proof. intros t s. unfold run_state, wait. by case_match. Qed.
Lemma preserves_attempt {A} (m : M S A) : preserves f m → preserves f (Effects.attempt m).
Proof.
  intros Hm t s. specialize (Hm t s). unfold run_state, Effects.attempt in *.
  by destruct (m t s) as [[] [??]].
Qed.
Local Hint Resolve preserves_ret preserves_throw preserves_bind preserves_check
  preserves_wait preserves_attempt : quiet.

Lemma preserves_retryCall {A} ctx policy (m : M S A) :
  preserves f m → preserves f (retryCall ctx policy m).
Proof.
  intros Hm. destruct policy as [p|]; [|done]. simpl. generalize 1.
  induction (Z.to_nat (Attempts p)) as [|fuel IH]; intros n; [done|]. simpl.
  apply preserves_bind; [auto with quiet|]. intros _. apply preserves_bind; [auto with quiet|].
  intros [x|e]; [auto with quiet|]. repeat case_match; eauto 6 with quiet. done.
Qed.
End preserves.
#[export] Hint Resolve preserves_ret preserves_throw preserves_lift preserves_bind
  preserves_check preserves_retryCall : quiet.

(** ** Capabilities *)

Section policy.
Context {S I : Type} `{EntryIterator I}.
Implicit Types (b : Backend S I) (a : Adapter S I).

(** The decorator advertises exactly what it can do: over a backend whose
    set was built from the known capabilities [declared], it supports a
    capability iff the backend does and it is not a mutation withheld by
    [ReadOnly], or it is the checksum capability and [WithChecksums] is on;
    building the set cannot panic. *)
Theorem Capabilities_spec a declared :
  Forall (λ c, c ∈ knownCapabilities) declared →
  bCapabilities (backend a) = NewCapabilitySet declared →
  ∃ s, Capabilities a = Ok s ∧ ∀ c,
    Supports s c = (bool_decide (c ∈ declared) &&
                      negb (readOnly (config a) && bool_decide (c ∈ mutating)))
                   || (checksums (config a) && bool_decide (c = CapabilityChecksum)).
Proof.
  intros Hknown Hb. unfold Capabilities. rewrite Hb, NewCapabilitySet_known by done. simpl.
  unfold ListCapabilities. simpl.
  set (kept := if readOnly (config a) then _ else _).
  assert (Hkept : ∀ c, c ∈ kept ↔ c ∈ declared ∧ ¬ (readOnly (config a) = true ∧ c ∈ mutating)).
  { intros c. unfold kept. destruct (readOnly (config a)).
    - rewrite list_elem_of_filter, elem_of_first_occurrences. naive_solver.
    - rewrite elem_of_first_occurrences. naive_solver. }
  rewrite NewCapabilitySet_known.
  - eexists. split; [done|]. intros c. rewrite Supports_set_of. apply eq_true_iff_eq.
    rewrite bool_decide_eq_true, orb_true_iff, !andb_true_iff, negb_true_iff,
      andb_false_iff, bool_decide_eq_false, !bool_decide_eq_true.
    destruct (checksums (config a)); rewrite ?elem_of_app, ?list_elem_of_singleton, Hkept;
      destruct (readOnly (config a)); naive_solver.
  - rewrite Forall_forall in Hknown |- *. intros c.
    assert (c ∈ kept → c ∈ knownCapabilities) by (rewrite Hkept; naive_solver).
    destruct (checksums (config a)); [|done].
    rewrite elem_of_app, list_elem_of_singleton. intros [?| ->]; [auto|]. decide_now.
Qed.

(** ** Read-only *)

(** The event an observer receives for a request. *)
Definition event_of {A} (rq : request) (started finished : Z) (r : result A) : Event :=
  mkEvent (rq_operation rq) (rq_path rq) (rq_destination rq) started (finished - started)
    (err_of r).

(** The events after a request. *)
Definition observed {A} (on : bool) (rq : request) (started finished : Z) (r : result A)
    (log : list Event) : list Event :=
  if on then log ++ [event_of rq started finished r] else log.

(** A read-only decorator refuses every mutation by itself: the request
    returns the typed [CapabilityError], which [errors.Is] classifies as
    [ErrUnsupportedCapability], in no time and without calling the backend,
    whose state is untouched. *)
Theorem read_only_refuses a rq cap t d :
  readOnly (config a) = true → rq_refused rq = Some cap →
  let e := CapabilityError (bs "decorator/read-only") cap (rq_operation rq) in
  perform (decorate a) rq t d =
    (Err e, (t, mkDec (inner d)
                  (observed (observer (config a)) rq t t (Err (A:=unit) e) (events d)))) ∧
  Is e ErrUnsupportedCapability = true.
Proof.
  intros Hro Hrq. split; [|done]. unfold observed, event_of. rewrite Z.sub_diag.
  destruct rq; simpl in Hrq; simplify_eq/=; unfold void, bind, Write, OpenWriter, Delete,
    Copy, Move, SetMetadata, VisibilityOf, SetVisibility, observeCall;
    rewrite Hro; simpl; rewrite Z.sub_diag; destruct (observer (config a)); by destruct d.
Qed.

(** ** Observation *)

(** A call of the backend adds no event, and a call that leaves the backend's
    state alone leaves it alone through the decorator. *)
Local Abbreviation quiet := (preserves (events (S:=S))).
Local Abbreviation frozen := (preserves (inner (S:=S))).

Lemma quiet_call {A} (m : M S A) : quiet (call m).
Proof. intros t d. unfold run_state, call. by destruct (m t (inner d)) as [? [??]]. Qed.

Lemma frozen_call {A} (m : M S A) : pure_state m → frozen (call m).
Proof.
  intros Hm t d. specialize (Hm t (inner d)). unfold run_state, call in *.
  by destruct (m t (inner d)) as [? [??]].
Qed.

Lemma quiet_at_internal {A} a path (f : Path → M S A) : quiet (at_internal a path f).
Proof. apply preserves_bind; [apply preserves_lift|]. intros p. apply quiet_call. Qed.

Lemma frozen_at_internal {A} a path (f : Path → M S A) :
  (∀ p, pure_state (f p)) → frozen (at_internal a path f).
Proof. intros Hf. apply preserves_bind; [apply preserves_lift|]. intros p. by apply frozen_call. Qed.
Local Hint Resolve quiet_at_internal frozen_at_internal : quiet.

Lemma preserves_stream_checksum {X} (f : Dec S → X) a ctx path algorithm :
  preserves f (at_internal a path (bOpen (backend a) ctx)) →
  preserves f (stream_checksum a ctx path algorithm).
Proof.
  intros Ho. unfold stream_checksum. case_decide; [auto with quiet|].
  apply preserves_bind; [done|]. intros x. repeat case_match; auto with quiet.
Qed.
Local Hint Resolve preserves_stream_checksum : quiet.

(** A call that returns adds exactly the request's event. *)
Definition sees_once {A} (on : bool) (rq : request) (m : M (Dec S) A) : Prop := ∀ t d,
  match m t d with
  | (Panic _, (_, d')) => events d' = events d
  | (r, (t', d')) => events d' = observed on rq t t' r (events d)
  end.

Lemma sees_once_observeCall {A} on rq (m : M (Dec S) A) :
  quiet m →
  sees_once on rq (observeCall on (rq_operation rq) (rq_path rq) (rq_destination rq) m).
Proof.
  intros Hm t d. specialize (Hm t d).
  unfold run_state, observeCall, observed, event_of in *.
  destruct (m t d) as [[x|e|msg] [t' d']]; simpl in *; destruct on; simpl; by rewrite ?Hm.
Qed.

Lemma sees_once_void {A} on rq (m : M (Dec S) A) : sees_once on rq m → sees_once on rq (void m).
Proof.
  intros Hm t d. specialize (Hm t d). unfold void, bind, ret.
  by destruct (m t d) as [[x|e|msg] [t' d']].
Qed.

(** The observer sees every call exactly once: a request that returns
    appends one event, naming the operation, the caller's own paths, the start
    time, the elapsed time and the error the caller receives, however many
    retries or backend calls it took; without an observer nothing is
    recorded. *)
Theorem observer_sees_once a rq t d :
  match perform (decorate a) rq t d with
  | (Panic _, (_, d')) => events d' = events d
  | (r, (t', d')) => events d' = observed (observer (config a)) rq t t' r (events d)
  end.
Proof.
  revert t d. change (sees_once (observer (config a)) rq (perform (decorate a) rq)).
  destruct rq; simpl; try apply sees_once_void;
    match goal with |- sees_once _ ?rq _ => apply (sees_once_observeCall _ rq) end;
    repeat case_match; auto 6 with quiet.
Qed.

(** ** Immutability *)

(** The operations a read-only decorator lets through do not change the
    backend. *)
Record reads_pure (b : Backend S I) : Prop := {
  pure_Open ctx p : pure_state (bOpen b ctx p);
  pure_OpenRange ctx p r : pure_state (bOpenRange b ctx p r);
  pure_List ctx p o : pure_state (bList b ctx p o);
  pure_Stat ctx p : pure_state (bStat b ctx p);
  pure_Checksum ctx p al : pure_state (bChecksum b ctx p al);
  pure_TemporaryURL f ctx p l o : bTemporaryURL b = Some f → pure_state (f ctx p l o);
}.

(** Run requests one after the other, whatever each returns. *)
Fixpoint perform_all (b : Backend (Dec S) (iterator I)) (rqs : list request) (t : Z) (d : Dec S)
    : Z * Dec S :=
  match rqs with
  | [] => (t, d)
  | rq :: rest => let '(_, (t', d')) := perform b rq t d in perform_all b rest t' d'
  end.

Lemma frozen_observe {A} on operation path destination (m : M (Dec S) A) :
  frozen m → frozen (observeCall on operation path destination m).
Proof.
  intros Hm t d. specialize (Hm t d). unfold run_state, observeCall in *.
  by destruct (m t d) as [[] [??]], on.
Qed.

Lemma read_only_frozen a rq :
  readOnly (config a) = true → reads_pure (backend a) → frozen (perform (decorate a) rq).
Proof.
  intros Hro Hpure.
  pose proof (pure_Open _ Hpure). pose proof (pure_OpenRange _ Hpure).
  pose proof (pure_List _ Hpure). pose proof (pure_Stat _ Hpure).
  pose proof (pure_Checksum _ Hpure). pose proof (pure_TemporaryURL _ Hpure).
  destruct rq; simpl; try (apply preserves_bind; [|by intros; apply preserves_ret]);
    apply frozen_observe; rewrite ?Hro; repeat case_match; eauto 8 with quiet.
Qed.

(** C38: a read-only decorator makes its backend immutable: for any backend
    whose own read operations do not change it, no sequence of requests of the
    whole surface, whatever their arguments, retries and results, changes the
    backend's state. *)
Theorem read_only_immutable a rqs t d :
  readOnly (config a) = true → reads_pure (backend a) →
  inner (perform_all (decorate a) rqs t d).2 = inner d.
Proof.
  intros Hro Hpure. revert t d. induction rqs as [|rq rqs IH]; intros t d; [done|].
  simpl. pose proof (read_only_frozen a rq Hro Hpure t d) as Hf. unfold run_state in Hf.
  destruct (perform _ rq t d) as [r [t' d']]. by rewrite IH.
Qed.
End policy.

(** ** Retries *)

(** [m] with a log of what its successive calls returned. *)
Definition traced {S A} (m : M S A) : M (list (result A) * S) A := λ t w,
  let '(r, (t', s')) := m t w.2 in (r, (t', (w.1 ++ [r], s'))).

Section retry.
Context {S A : Type} (ctx : context) (p : RetryPolicy) (retryable : error → bool).
Hypothesis Hclass : Retryable p = Some retryable.

(** A result after which the loop goes on. *)
Definition repeats (r : result A) : Prop :=
  match r with
  | Err e => is_ctx_error e = false ∧ retryable e = true
  | _ => False
  end.

(** How a run whose calls returned [log] ends with [r]: its last call decides,
    and a last call that failed in a repeatable way was the last one allowed;
    or the context ended the run between two calls. *)
Definition retry_outcome (allowed : nat) (log : list (result A)) (r : result A) : Prop :=
  (∃ earlier, log = earlier ++ [r] ∧ Forall repeats earlier ∧
     (length log ≤ allowed)%nat ∧ (repeats r → length log = allowed)) ∨
  (∃ cause, Forall repeats log ∧ (length log < allowed)%nat ∧ r = Err (ctx_error_value cause) ∧
     ctx ≠ Background).

Lemma retry_outcome_cons allowed x log r :
  repeats x → retry_outcome allowed log r → retry_outcome (Datatypes.S allowed) (x :: log) r.
Proof.
  intros Hx [(earlier & -> & He & Hl & Hr)|(cause & Hf & Hl & -> & Hc)]; [left|right].
  - exists (x :: earlier). split; [done|]. split; [by constructor|]. simpl.
    split; [lia|]. intros Hrep. by rewrite Hr.
  - exists cause. split; [by constructor|]. simpl. split; [lia|done].
Qed.

(** A context that is done ends the run. *)
Lemma retry_outcome_ctx allowed t e :
  ctx_Err ctx t = Some e → (0 < allowed)%nat → retry_outcome allowed [] (Err e).
Proof.
  intros He Ha. destruct (ctx_Err_value _ _ _ He) as [cause ->]. right. exists cause.
  split_and!; [done|simpl; lia|done|]. by intros ->.
Qed.

Lemma retry_loop_outcome (m : M S A) fuel attempt log t s :
  attempt + Z.of_nat fuel = Attempts p + 1 → (0 < fuel)%nat →
  ∃ r t' s' log',
    retry_loop fuel ctx p attempt (traced m) t (log, s) = (r, (t', (log ++ log', s'))) ∧
    retry_outcome fuel log' r.
Proof.
  revert attempt log t s. induction fuel as [|fuel IH]; intros attempt log t s Hsum Hpos; [lia|].
  cbn [retry_loop]. unfold bind at 1, check_ctx. destruct (ctx_Err ctx t) as [e|] eqn:Hctx.
  { eexists _, _, _, []. rewrite app_nil_r. split; [done|]. by eapply retry_outcome_ctx. }
  unfold bind, Effects.attempt, traced at 1. simpl.
  destruct (m (t + 1) s) as [r [t1 s1]] eqn:Hm. simpl.
  assert (Hlast : (repeats r → fuel = 0%nat) → retry_outcome (Datatypes.S fuel) [r] r).
  { intros Hr. left. exists []. split_and!; [done|constructor|simpl; lia|].
    intros Hrep. by rewrite Hr. }
  destruct r as [x|e|msg];
    [by eexists _, _, _, _; split; [done|]; apply Hlast|
    |by eexists _, _, _, _; split; [done|]; apply Hlast].
  destruct ((attempt =? Attempts p) || is_ctx_error e) eqn:Hstop.
  { eexists _, _, _, _. split; [done|]. apply Hlast. intros [Hce _].
    rewrite Hce, orb_false_r in Hstop. lia. }
  apply orb_false_iff in Hstop as [Hatt Hce]. rewrite Hclass.
  destruct (retryable e) eqn:Hrt; cbn [negb].
  2:{ eexists _, _, _, _. split; [done|]. apply Hlast. intros [_ Hrt']. congruence. }
  assert (Hrep : repeats (Err e)) by done.
  assert (Hnext : ∀ t2, ∃ r t' s' log',
    retry_loop fuel ctx p (attempt + 1) (traced m) t2 (log ++ [Err e], s1) =
      (r, (t', (log ++ log', s'))) ∧ retry_outcome (Datatypes.S fuel) log' r).
  { intros t2. destruct (IH (attempt + 1) (log ++ [Err e]) t2 s1) as (r & t' & s' & log' & -> & Ho);
      [lia..|]. eexists r, t', s', (Err e :: log'). rewrite <- app_assoc. split; [done|].
    by apply retry_outcome_cons. }
  destruct (Backoff p) as [backoff|]; [|apply Hnext].
  unfold wait. destruct (ctx_Err ctx (t1 + _)) as [ce|] eqn:Hwait; [|apply Hnext].
  eexists _, _, _, _. split; [done|]. apply retry_outcome_cons; [done|].
  eapply retry_outcome_ctx; [done|lia].
Qed.
End retry.

(** C13: retries are bounded and never hide an outcome: under a valid policy the
    call is made at most [Attempts] times, every call but the last failed with a
    retryable error that is not a context error, the caller receives the last
    call's own result, and a result that could still be retried is returned only
    when all [Attempts] calls were made; otherwise the context ended the run and
    its error is returned, which does not happen with a context that is never
    cancelled.  The loop always ends within the allowed attempts. *)
Theorem retryCall_spec {S A} ctx p retryable (m : M S A) t s :
  0 < Attempts p → Retryable p = Some retryable →
  ∃ r t' s' log,
    retryCall ctx (Some p) (traced m) t ([], s) = (r, (t', (log, s'))) ∧
    retry_outcome ctx retryable (Z.to_nat (Attempts p)) log r.
Proof.
  intros Hp Hc. simpl.
  destruct (retry_loop_outcome ctx p retryable Hc m (Z.to_nat (Attempts p)) 1 [] t s)
    as (r & t' & s' & log & Hr & Ho); [lia..|]. by eexists _, _, _, _.
Qed.

(** A call that fails twice with a retryable error and then succeeds. *)
Definition flaky : M Z Z := λ t s,
  if s <? 2 then (Err (Foreign 1 []), (t + 1, s + 1)) else (Ok s, (t + 1, s + 1)).

Lemma retryCall_spec_witness :
  let p := mkRetryPolicy 5 (Some (λ _, true)) (Some (λ n, n)) in
  ∃ r t' s' log,
    retryCall Background (Some p) (traced flaky) 0 ([], 0) = (r, (t', (log, s'))) ∧
    retry_outcome Background (λ _, true) 5 log r.
Proof.
  apply (retryCall_spec Background (mkRetryPolicy 5 (Some (λ _, true)) (Some (λ n, n))) (λ _, true)
           flaky 0 0); reflexivity.
Defined.

(** ** Instances of the policy theorems *)

Definition no_backend {I} : Backend unit I :=
  mkBackend (NewCapabilitySet [CapabilityRead; CapabilityWrite; CapabilityChecksum])
    (λ _ _, throw (Sentinel ErrNotFound)) (λ _ _ _, throw (Sentinel ErrNotFound))
    (λ _ _ _ _, throw (Sentinel ErrNotFound)) (λ _ _ _, throw (Sentinel ErrNotFound))
    (λ _ _, throw (Sentinel ErrNotFound)) (λ _ _ _, throw (Sentinel ErrNotFound))
    (λ _ _, throw (Sentinel ErrNotFound)) (λ _ _ _ _, throw (Sentinel ErrNotFound))
    (λ _ _ _ _, throw (Sentinel ErrNotFound)) (λ _ _ _, throw (Sentinel ErrNotFound))
    (λ _ _ _, throw (Sentinel ErrNotFound)) (λ _ _, throw (Sentinel ErrNotFound))
    (λ _ _ _, throw (Sentinel ErrNotFound)) None.

Definition read_only_sample : Adapter unit Iterator.iterator :=
  mkAdapter no_backend (mkConfiguration Root true true None true).

Lemma Capabilities_spec_witness :
  ∃ s, Capabilities read_only_sample = Ok s ∧ ∀ c,
    Supports s c = (bool_decide (c ∈ [CapabilityRead; CapabilityWrite; CapabilityChecksum]) &&
                      negb (true && bool_decide (c ∈ mutating)))
                   || (true && bool_decide (c = CapabilityChecksum)).
Proof.
  apply (Capabilities_spec read_only_sample [CapabilityRead; CapabilityWrite; CapabilityChecksum]);
    [decide_now|reflexivity].
Defined.

Lemma read_only_refuses_witness :
  let rq := RqDelete Background (mkPath (bs "x")) in
  let e := CapabilityError (bs "decorator/read-only") CapabilityDelete OperationDelete in
  perform (decorate read_only_sample) rq 7 (mkDec tt []) =
    (Err e, (7, mkDec tt (observed true rq 7 7 (Err (A:=unit) e) []))) ∧
  Is e ErrUnsupportedCapability = true.
Proof.
  apply (read_only_refuses read_only_sample (RqDelete Background (mkPath (bs "x"))) CapabilityDelete
           7 (mkDec tt [])); reflexivity.
Defined.
