(* ===== verification/DecoratedMemory.v ===== *)
(** * A prefixed adapter over the in-memory store

    [memory.Adapter] as a [decorator.Backend], and the refinement that makes
    [WithPrefix] a sandbox: through the decorator a client sees a store of its
    own, and the rest of the backend's store is out of reach.

    The refinement is relational: [simulates] relates a computation over the
    shared store to one over a private store, and is closed under the monad's
    operations, so each operation's proof follows its program text. *)

From S2P Require Import Prelude GoStrings Errors Effects Paths Capability Contracts Iterator Digest Memory MemoryList Decorator DecoratorPolicy.

(** [*memory.Adapter] as the decorator's [Backend]. *)
Definition memory_backend {R : MapRange} : Backend Memory.Adapter Iterator.iterator :=
  mkBackend Memory.Capabilities Memory.Open Memory.OpenRange Memory.Write Memory.OpenWriter
    Memory.Delete Memory.ListObjects Memory.Stat Memory.Copy Memory.Move Memory.SetMetadata
    Memory.ChecksumOf Memory.VisibilityOf Memory.SetVisibility None.

(** ** Requests with their answers *)

Inductive reply :=
  | RpDone
  | RpStream (s : stream)
  | RpMetadata (m : Metadata)
  | RpChecksum (c : Checksum)
  | RpVisibility (v : Visibility).

(** The requests of a client that reads and changes objects; an upload through
    [OpenWriter] is opened, fed and closed. *)
Inductive client_request :=
  | CrOpen (ctx : context) (path : Path)
  | CrOpenRange (ctx : context) (path : Path) (byteRange : ByteRange)
  | CrWrite (ctx : context) (path : Path) (source : reader) (options : WriteOptions)
  | CrUpload (ctx : context) (path : Path) (source : reader) (options : WriteOptions)
  | CrDelete (ctx : context) (path : Path)
  | CrStat (ctx : context) (path : Path)
  | CrCopy (ctx : context) (source destination : Path) (options : CopyOptions)
  | CrMove (ctx : context) (source destination : Path) (options : MoveOptions)
  | CrSetMetadata (ctx : context) (path : Path) (metadata : stringmap)
  | CrChecksum (ctx : context) (path : Path) (algorithm : ChecksumAlgorithm)
  | CrVisibility (ctx : context) (path : Path)
  | CrSetVisibility (ctx : context) (path : Path) (visibility : Visibility).

Definition answer {S I} (b : Backend S I) (rq : client_request) : M S reply :=
  match rq with
  | CrOpen ctx path => let! s := bOpen b ctx path in ret (RpStream s)
  | CrOpenRange ctx path r => let! s := bOpenRange b ctx path r in ret (RpStream s)
  | CrWrite ctx path source options =>
      let! m := bWrite b ctx path source options in ret (RpMetadata m)
  | CrUpload ctx path source options =>
      let! w := bOpenWriter b ctx path options in do! w source in ret RpDone
  | CrDelete ctx path => do! bDelete b ctx path in ret RpDone
  | CrStat ctx path => let! m := bStat b ctx path in ret (RpMetadata m)
  | CrCopy ctx source destination options =>
      do! bCopy b ctx source destination options in ret RpDone
  | CrMove ctx source destination options =>
      do! bMove b ctx source destination options in ret RpDone
  | CrSetMetadata ctx path metadata => do! bSetMetadata b ctx path metadata in ret RpDone
  | CrChecksum ctx path algorithm =>
      let! c := bChecksum b ctx path algorithm in ret (RpChecksum c)
  | CrVisibility ctx path => let! v := bVisibility b ctx path in ret (RpVisibility v)
  | CrSetVisibility ctx path visibility =>
      do! bSetVisibility b ctx path visibility in ret RpDone
  end.

(** A client's session: each request is answered in turn, whatever the last
    one returned. *)
Fixpoint session {S I} (b : Backend S I) (rqs : list client_request) (t : Z) (s : S)
    : list (result reply) * (Z * S) :=
  match rqs with
  | [] => ([], (t, s))
  | rq :: rest =>
      let '(r, (t1, s1)) := answer b rq t s in
      let '(rs, w) := session b rest t1 s1 in (r :: rs, w)
  end.

(** Every path of the request is a parsed path, an upload does not name the
    root, and a checksum names one of the algorithms both sides implement. *)
Definition client_ok (rq : client_request) : Prop :=
  match rq with
  | CrOpen _ p | CrOpenRange _ p _ | CrWrite _ p _ _ | CrDelete _ p | CrStat _ p | CrSetMetadata _ p _ | CrVisibility _ p | CrSetVisibility _ p _ => wf_path p
  | CrUpload _ p _ _ => wf_path p ∧ p ≠ Root
  | CrCopy _ p q _ | CrMove _ p q _ => wf_path p ∧ wf_path q
  | CrChecksum _ p algorithm => wf_path p ∧ is_Some (digest_Sum algorithm [])
  end.

(** ** The simulation *)

(** Results that agree: the same values up to [R], or errors that [errors.Is]
    cannot tell apart (their texts name the backend's paths). *)
Definition result_rel {A B} (R : A → B → Prop) (r : result A) (r' : result B) : Prop :=
  match r, r' with
  | Ok x, Ok y => R x y
  | Err e, Err e' => ∀ target, Is e target = Is e' target
  | Panic m, Panic m' => m = m'
  | _, _ => False
  end.

Create HintDb sim.

Section prefixed.
Context (P : Path) (HP : wf_path P).

(** [q] is the backend's name of the client's [p]. *)
Definition at_prefix (p q : Path) : Prop := wf_path p ∧ internal P p = Ok q.

(** The private store [v] is what the shared store [a] holds at the prefix. *)
Definition represents (a v : Memory.Adapter) : Prop :=
  clock a = clock v ∧
  ∀ p q, at_prefix p q → objects a !! value q = objects v !! value p.

(** A key no client path names. *)
Definition outside (k : bytes) : Prop := ∀ p q, at_prefix p q → k ≠ value q.

Definition frame (a a' : Memory.Adapter) : Prop :=
  ∀ k, outside k → objects a' !! k = objects a !! k.

Definition simulates {S A B} (π : S → Memory.Adapter) (R : A → B → Prop)
    (m : M S A) (n : M Memory.Adapter B) : Prop :=
  ∀ t s v, represents (π s) v →
    let '(r, (t1, s1)) := m t s in
    let '(r', (t2, v2)) := n t v in
    t1 = t2 ∧ represents (π s1) v2 ∧ frame (π s) (π s1) ∧ result_rel R r r'.

Lemma frame_refl a : frame a a.
Proof. by intros k. Qed.

Lemma at_prefix_inj p p' q : at_prefix p q → at_prefix p' q → p = p'.
Proof.
  intros [Hw Hi] [Hw' Hi'].
  destruct (internal_ok P p HP Hw) as (x & Hx & _ & Hs).
  destruct (internal_ok P p' HP Hw') as (x' & Hx' & _ & Hs').
  assert (x = q) as -> by congruence. assert (x' = q) as -> by congruence.
  rewrite Hs in Hs'. apply app_inv_head in Hs'. by apply segments_inj.
Qed.

Lemma at_prefix_value p p' q q' :
  at_prefix p q → at_prefix p' q' → value q = value q' ↔ value p = value p'.
Proof.
  intros Hp Hp'. split; intros E.
  - assert (q = q') as <- by (destruct q, q'; simpl in *; by subst).
    by rewrite (at_prefix_inj _ _ _ Hp Hp').
  - assert (p = p') as <- by (destruct p, p'; simpl in *; by subst).
    destruct Hp as [_ Hp], Hp' as [_ Hp']. congruence.
Qed.

Lemma represents_insert p q o a v :
  at_prefix p q → represents a v →
  represents (set_objects <[value q := o]> a) (set_objects <[value p := o]> v).
Proof.
  intros Hp [Hc Hr]. split; [done|]. intros p' q' Hp'. simpl. rewrite !lookup_insert.
  pose proof (at_prefix_value p p' q q' Hp Hp'). repeat case_decide; naive_solver.
Qed.

Lemma represents_delete p q a v :
  at_prefix p q → represents a v →
  represents (set_objects (delete (value q)) a) (set_objects (delete (value p)) v).
Proof.
  intros Hp [Hc Hr]. split; [done|]. intros p' q' Hp'. simpl. rewrite !lookup_delete.
  pose proof (at_prefix_value p p' q q' Hp Hp'). repeat case_decide; naive_solver.
Qed.

Lemma frame_insert p q o a : at_prefix p q → frame a (set_objects <[value q := o]> a).
Proof. intros Hp k Hk. simpl. rewrite lookup_insert_ne; [done|]. intros E. by apply (Hk p q). Qed.

Lemma frame_delete p q a : at_prefix p q → frame a (set_objects (delete (value q)) a).
Proof. intros Hp k Hk. simpl. rewrite lookup_delete_ne; [done|]. intros E. by apply (Hk p q). Qed.

(** *** Rules *)

Section rules.
Context {S : Type} (π : S → Memory.Adapter).

Lemma sim_ret {A B} (R : A → B → Prop) x y : R x y → simulates π R (ret x) (ret y).
Proof. intros HR t s v Hr. by split_and!. Qed.

Lemma sim_throw {A B} (R : A → B → Prop) e e' :
  (∀ target, Is e target = Is e' target) → simulates π R (throw e) (throw e').
Proof. intros HR t s v Hr. by split_and!. Qed.

Lemma sim_lift {A B} (R : A → B → Prop) r r' :
  result_rel R r r' → simulates π R (lift_result r) (lift_result r').
Proof. intros HR t s v Hr. by split_and!. Qed.

Lemma sim_bind {A B A' B'} (R : A → B → Prop) (R' : A' → B' → Prop)
    (m : M S A) n (f : A → M S A') g :
  simulates π R m n → (∀ x y, R x y → simulates π R' (f x) (g y)) →
  simulates π R' (bind m f) (bind n g).
Proof.
  intros Hm Hf t s v Hr. specialize (Hm t s v Hr). unfold bind.
  destruct (m t s) as [r [t1 s1]], (n t v) as [r' [t2 v2]].
  destruct Hm as (-> & Hr1 & Hfr & Hres).
  destruct r as [x|e|msg], r' as [y|e'|msg']; simpl in Hres; try done.
  specialize (Hf x y Hres t2 s1 v2 Hr1).
  destruct (f x t2 s1) as [r [t3 s3]], (g y t2 v2) as [r' [t4 v4]].
  destruct Hf as (-> & Hr3 & Hfr3 & Hres3). split_and!; try done.
  intros k Hk. by rewrite Hfr3, Hfr.
Qed.

Lemma sim_check_ctx ctx : simulates π eq (check_ctx ctx) (check_ctx ctx).
Proof. intros t s v Hr. unfold check_ctx. destruct (ctx_Err ctx t); by split_and!. Qed.

Lemma sim_copy_ctx ctx source : simulates π eq (copy_ctx ctx source) (copy_ctx ctx source).
Proof.
  induction source as [|[chunk err] rest IH]; simpl;
    (apply (sim_bind eq); [intros t s v Hr; by split_and!|]);
    intros [e|] ? <-; try by apply sim_ret.
  destruct err as [[[]| | | | | |]|]; try by apply sim_ret.
  apply (sim_bind eq); [done|]. intros copied ? <-. by apply sim_ret.
Qed.
End rules.

Local Abbreviation same := (simulates (λ a : Memory.Adapter, a) eq) (only parsing).

Lemma sim_read_clock : same read_clock read_clock.
Proof. intros t a v [Hc Hr]. unfold read_clock. simpl. by rewrite Hc. Qed.

(** One step of two sequential programs, and a branch both take alike. *)
Local Ltac sim_seq := apply (sim_bind _ eq); [solve [eauto with sim]|intros ? ? <-].
Local Ltac sim_auto :=
  repeat first [sim_seq | case_match | case_decide]; simplify_eq/=;
  first [by apply sim_ret | by apply sim_throw | solve [eauto with sim] | idtac].

Local Hint Resolve sim_check_ctx sim_copy_ctx sim_read_clock : sim.
Local Hint Extern 2 (simulates _ eq (lift_result ?r) (lift_result ?r)) =>
  apply sim_lift; by destruct r : sim.

Section named.
Context (p q : Path) (Hpq : at_prefix p q).

Lemma sim_lookup : same (lookup_object q) (lookup_object p).
Proof.
  intros t a v Hr. rewrite !lookup_object_spec.
  rewrite (proj2 Hr p q Hpq). by destruct (objects v !! value p).
Qed.

Lemma sim_store o : same (store_object q o) (store_object p o).
Proof.
  intros t a v Hr. simpl. split_and!; [done| |by eapply frame_insert|done].
  by apply represents_insert.
Qed.

Lemma sim_require_absent overwrite :
  same (require_absent overwrite q) (require_absent overwrite p).
Proof.
  intros t a v Hr. unfold require_absent, bind, get, throw, ret.
  rewrite (proj2 Hr p q Hpq). by destruct (negb overwrite && _).
Qed.

Local Hint Resolve sim_lookup sim_store sim_require_absent : sim.

Lemma sim_Open ctx : same (Memory.Open ctx q) (Memory.Open ctx p).
Proof. unfold Memory.Open. sim_auto. Qed.

Lemma sim_OpenRange ctx r : same (Memory.OpenRange ctx q r) (Memory.OpenRange ctx p r).
Proof. unfold Memory.OpenRange. sim_auto. Qed.

Lemma sim_Stat ctx :
  simulates (λ a, a) (λ m m', set_mPath p m = m') (Memory.Stat ctx q) (Memory.Stat ctx p).
Proof. unfold Memory.Stat. sim_auto. Qed.

Lemma sim_VisibilityOf ctx : same (Memory.VisibilityOf ctx q) (Memory.VisibilityOf ctx p).
Proof.
  unfold Memory.VisibilityOf. eapply sim_bind; [apply sim_Stat|]. intros m ? <-. by apply sim_ret.
Qed.

Lemma sim_ChecksumOf ctx algorithm :
  same (Memory.ChecksumOf ctx q algorithm) (Memory.ChecksumOf ctx p algorithm).
Proof. unfold Memory.ChecksumOf. sim_auto. Qed.

Lemma sim_Delete ctx : same (Memory.Delete ctx q) (Memory.Delete ctx p).
Proof.
  unfold Memory.Delete. sim_seq. intros t a v Hr. unfold bind, get, put.
  rewrite (proj2 Hr p q Hpq). destruct (objects v !! value p); [|done].
  split_and!; [done|by apply represents_delete|by eapply frame_delete|done].
Qed.

Lemma sim_SetMetadata ctx md :
  same (Memory.SetMetadata ctx q md) (Memory.SetMetadata ctx p md).
Proof. unfold Memory.SetMetadata. sim_auto. Qed.

Lemma sim_SetVisibility ctx vis :
  same (Memory.SetVisibility ctx q vis) (Memory.SetVisibility ctx p vis).
Proof. unfold Memory.SetVisibility. sim_auto. Qed.

Lemma at_prefix_root : p ≠ Root → IsRoot q = false.
Proof.
  intros Hp. apply not_true_is_false. rewrite IsRoot_spec. intros ->.
  destruct Hpq as [Hw Hi]. destruct (internal_ok P p HP Hw) as (x & Hx & _ & Hs).
  rewrite Hi in Hx. simplify_eq. symmetry in Hs. apply app_nil in Hs as [_ Hs].
  by apply segments_nil in Hs.
Qed.

Lemma sim_write_publish options o :
  simulates (λ a, a) (λ m m', set_mPath p m = m')
    (write_publish q options o) (write_publish p options o).
Proof.
  intros t a v Hr. unfold write_publish, bind, get, put, throw, ret.
  rewrite (proj2 Hr p q Hpq). destruct (wIfNoneMatch options && _); simpl; [done|].
  split_and!; [done|by apply represents_insert|by eapply frame_insert|done].
Qed.

Lemma sim_Write ctx source options :
  p ≠ Root →
  simulates (λ a, a) (λ m m', set_mPath p m = m')
    (Memory.Write ctx q source options) (Memory.Write ctx p source options).
Proof.
  intros Hp. unfold Memory.Write. apply (sim_bind _ eq); [|intros ? ? <-; apply sim_write_publish].
  unfold write_prepare. rewrite at_prefix_root by done.
  assert (IsRoot p = false) as -> by (apply not_true_is_false; by rewrite IsRoot_spec).
  sim_auto.
Qed.

Lemma sim_OpenWriter ctx options :
  p ≠ Root →
  simulates (λ a, a) (λ w w', ∀ source, same (w source) (w' source))
    (Memory.OpenWriter ctx q options) (Memory.OpenWriter ctx p options).
Proof.
  intros Hp. unfold Memory.OpenWriter. rewrite at_prefix_root by done.
  assert (IsRoot p = false) as -> by (apply not_true_is_false; by rewrite IsRoot_spec).
  sim_seq. apply sim_ret. intros source.
  eapply sim_bind; [by apply sim_Write|]. intros. by apply sim_ret.
Qed.
End named.

Section pair.
Context (p q p' q' : Path) (Hpq : at_prefix p q) (Hpq' : at_prefix p' q').
Local Hint Resolve sim_lookup sim_store sim_require_absent : sim.

Lemma sim_Copy ctx options :
  same (Memory.Copy ctx q q' options) (Memory.Copy ctx p p' options).
Proof. unfold Memory.Copy. sim_auto. Qed.

Lemma sim_Move ctx options :
  same (Memory.Move ctx q q' options) (Memory.Move ctx p p' options).
Proof.
  unfold Memory.Move. do 3 sim_seq.
  pose proof (at_prefix_value p p' q q' Hpq Hpq') as Hv.
  destruct (decide (p = p')) as [<-|Hne].
  - rewrite decide_True; [by apply sim_ret|]. destruct Hpq as [_ H1], Hpq' as [_ H2]. congruence.
  - rewrite decide_False by (intros <-; apply Hne; by eapply at_prefix_inj).
    do 2 sim_seq. intros t a v Hr. simpl.
    split_and!; [done|by apply represents_delete|by eapply frame_delete|done].
Qed.
End pair.

(** *** Through the decorator *)

Local Abbreviation through := (simulates (inner (S:=Memory.Adapter))) (only parsing).

Lemma sim_call {A B} (R : A → B → Prop) m n :
  simulates (λ a, a) R m n → through R (call m) n.
Proof.
  intros Hm t d v Hr. specialize (Hm t (inner d) v Hr). unfold call.
  destruct (m t (inner d)) as [r [t1 s1]]. by destruct (n t v) as [r' [t2 v2]].
Qed.

Lemma sim_observe {A B} (R : A → B → Prop) on operation path destination
    (m : M (Dec Memory.Adapter) A) n :
  through R m n → through R (observeCall on operation path destination m) n.
Proof.
  intros Hm t d v Hr. specialize (Hm t d v Hr). unfold observeCall.
  destruct (m t d) as [r [t1 s1]], (n t v) as [r' [t2 v2]].
  by destruct r, on; simpl in *.
Qed.

(** Renaming the path of the metadata restores the client's view of it. *)
Lemma sim_set_mPath p (m : M (Dec Memory.Adapter) Metadata) n :
  through (λ x y, set_mPath p x = y) m n →
  through eq (let! md := m in ret (set_mPath p md)) n.
Proof.
  intros Hm t d v Hr. specialize (Hm t d v Hr). unfold bind, ret.
  destruct (m t d) as [r [t1 s1]], (n t v) as [r' [t2 v2]].
  destruct r; simpl in *; naive_solver.
Qed.

(** The digest of what a memory stream delivers is the memory checksum. *)
Lemma digest_Sum_memory algorithm b :
  EncodeToString <$> digest_Sum algorithm b =
  if decide (algorithm = ChecksumMD5) then Some (EncodeToString (md5_Sum b))
  else if decide (algorithm = ChecksumSHA256) then Some (EncodeToString (sha256_Sum256 b))
  else if decide (algorithm = ChecksumCRC32C) then Some (Sprintf08x (crc32_Checksum b))
  else None.
Proof.
  unfold digest_Sum. repeat case_decide; [done|done| |done].
  exact (f_equal Some (EncodeToString_be_bytes 4 (crc32_Checksum b))).
Qed.

Context {R : MapRange} (checksums observer : bool).
Definition prefixed_memory : Adapter Memory.Adapter Iterator.iterator :=
  mkAdapter memory_backend (mkConfiguration P false checksums None observer).

Lemma sim_at_internal {A B} (R' : A → B → Prop) p q (f : Path → M Memory.Adapter A) n :
  at_prefix p q → simulates (λ a, a) R' (f q) n →
  through R' (at_internal prefixed_memory p f) n.
Proof.
  intros [_ Hi] Hm. unfold at_internal. simpl. rewrite Hi.
  unfold lift_result, bind. by apply sim_call.
Qed.

Lemma sim_stream_checksum p q ctx algorithm :
  at_prefix p q → is_Some (digest_Sum algorithm []) →
  through eq (stream_checksum prefixed_memory ctx p algorithm)
    (Memory.ChecksumOf ctx p algorithm).
Proof.
  intros Hpq Hdig. unfold stream_checksum.
  rewrite decide_False by (intros Hn; rewrite Hn in Hdig; by destruct Hdig).
  unfold at_internal. simpl. rewrite (proj2 Hpq). intros t d v Hr.
  unfold Memory.Open, Memory.ChecksumOf, call, bind, lift_result, check_ctx.
  destruct (ctx_Err ctx t); [by destruct d|]. rewrite !lookup_object_spec.
  rewrite (proj2 Hr p q Hpq). destruct (objects v !! value p) as [o|]; [|by destruct d].
  simpl. rewrite app_nil_r. pose proof (digest_Sum_memory algorithm (content o)) as Hd.
  assert (is_Some (digest_Sum algorithm (content o))) as [sum Hsum].
  { revert Hdig. unfold digest_Sum. repeat case_decide; by eauto. }
  rewrite Hsum in Hd |- *. simpl in Hd.
  repeat case_decide; simplify_eq/=; rewrite ?Hd; by destruct d.
Qed.

(** An operation that hands its path to the backend. *)
Local Ltac via Hq :=
  apply (sim_bind _ eq); [|intros ? ? <-; by apply sim_ret];
  apply sim_observe; simpl; eapply sim_at_internal; [exact Hq|].

Lemma sim_decorated_Write ctx p q source options :
  at_prefix p q →
  through eq (Decorator.Write prefixed_memory ctx p source options)
    (Memory.Write ctx p source options).
Proof.
  intros Hq. apply sim_observe. simpl. destruct (IsRoot p) eqn:Hr.
  - apply IsRoot_spec in Hr as ->. intros t d v Hrep. by split_and!.
  - apply sim_set_mPath. eapply sim_at_internal; [done|]. apply sim_Write; [done|].
    by rewrite <- IsRoot_spec, Hr.
Qed.

Lemma sim_decorated_OpenWriter ctx p q options :
  at_prefix p q → p ≠ Root →
  through (λ w w', ∀ source, through eq (w source) (w' source))
    (Decorator.OpenWriter prefixed_memory ctx p options) (Memory.OpenWriter ctx p options).
Proof.
  intros Hq Hr. apply sim_observe. simpl.
  assert (IsRoot p = false) as -> by (apply not_true_is_false; by rewrite IsRoot_spec).
  intros t d v Hrep.
  pose proof (sim_at_internal _ p q (λ x, Memory.OpenWriter ctx x options) _ Hq
                (sim_OpenWriter p q Hq ctx options Hr) t d v Hrep) as Hw. simpl in Hw.
  unfold bind at 1, ret.
  destruct (at_internal _ _ _ t d) as [r [t1 d1]], (Memory.OpenWriter _ _ _ t v) as [r' [t2 v2]].
  destruct r, r'; simpl in *; try done. destruct Hw as (-> & ? & ? & Hw).
  split_and!; [done..|]. intros source. by apply sim_call.
Qed.

(** Every request of a client, with its answer. *)
Lemma sim_answer rq :
  client_ok rq →
  through eq (answer (decorate prefixed_memory) rq) (answer memory_backend rq).
Proof.
  assert (Hat : ∀ p, wf_path p → ∃ q, at_prefix p q).
  { intros p Hp. destruct (internal_ok P p HP Hp) as (q & ? & _). by exists q. }
  destruct rq as [ctx p|ctx p r|ctx p src o|ctx p src o|ctx p|ctx p|ctx p p' o|ctx p p' o|ctx p md
    |ctx p al|ctx p|ctx p vis]; simpl; intros Hok.
  all: first [destruct (Hat p Hok) as [q Hq]
             |destruct Hok as [Hp Hok]; destruct (Hat p Hp) as [q Hq]].
  - via Hq. by apply sim_Open.
  - via Hq. by apply sim_OpenRange.
  - eapply sim_bind; [by eapply sim_decorated_Write|]. intros ? ? <-. by apply sim_ret.
  - eapply sim_bind; [by eapply sim_decorated_OpenWriter|]. intros w w' Hw.
    apply (sim_bind _ eq); [apply Hw|]. intros. by apply sim_ret.
  - via Hq. by apply sim_Delete.
  - apply (sim_bind _ eq); [|intros ? ? <-; by apply sim_ret].
    apply sim_observe, sim_set_mPath. eapply sim_at_internal; [done|]. by apply sim_Stat.
  - destruct (Hat p' Hok) as [q' Hq']. apply (sim_bind _ eq); [|intros; by apply sim_ret].
    apply sim_observe. simpl. rewrite (proj2 Hq). unfold lift_result, bind at 1.
    eapply sim_at_internal; [exact Hq'|]. by apply sim_Copy.
  - destruct (Hat p' Hok) as [q' Hq']. apply (sim_bind _ eq); [|intros; by apply sim_ret].
    apply sim_observe. simpl. rewrite (proj2 Hq). unfold lift_result, bind at 1.
    eapply sim_at_internal; [exact Hq'|]. by apply sim_Move.
  - via Hq. by apply sim_SetMetadata.
  - apply (sim_bind _ eq); [|intros ? ? <-; by apply sim_ret].
    apply sim_observe. simpl. destruct checksums; simpl.
    + by eapply sim_stream_checksum.
    + eapply sim_at_internal; [done|]. by apply sim_ChecksumOf.
  - via Hq. by apply sim_VisibilityOf.
  - via Hq. by apply sim_SetVisibility.
Qed.

Lemma sim_session rqs t d v :
  Forall client_ok rqs → represents (inner d) v →
  let '(rs, (t1, d1)) := session (decorate prefixed_memory) rqs t d in
  let '(rs', (t2, v2)) := session memory_backend rqs t v in
  t1 = t2 ∧ represents (inner d1) v2 ∧ frame (inner d) (inner d1) ∧
  Forall2 (result_rel eq) rs rs'.
Proof.
  intros Hok. revert t d v. induction Hok as [|rq rqs Hrq _ IH]; intros t d v Hr; [done|].
  cbn [session]. pose proof (sim_answer rq Hrq t d v Hr) as Ha.
  destruct (answer _ rq t d) as [r [t1 d1]], (answer _ rq t v) as [r' [t2 v2]].
  destruct Ha as (-> & Hr1 & Hf1 & Hres). specialize (IH t2 d1 v2 Hr1).
  destruct (session _ rqs t2 d1) as [rs [t3 d3]], (session _ rqs t2 v2) as [rs' [t4 v4]].
  destruct IH as (-> & Hr3 & Hf3 & Hrs). split_and!; [done..| |by constructor].
  intros k Hk. by rewrite Hf3, Hf1.
Qed.
End prefixed.

(** C1: a prefix is a sandbox.  Let a client work through a decorator with a
    parsed prefix over a shared in-memory store, with or without decorator
    checksums and an observer.  For every private store that holds what the
    shared store has at the prefix, every sequence of the
    following requests at parsed paths gets the same answers as from a plain adapter
    over the private store (the same values, and errors [errors.Is] cannot tell apart),
    at the same times: reads, range reads, writes, uploads to a path other than the
    root, deletes, status, copies, moves, metadata, visibility, and checksums of an
    algorithm both sides implement.  The shared store still holds exactly the private
    store at the prefix afterwards, and no object outside the prefix was changed.
    Listings are not among these requests: they agree when no name below the prefix
    starts with a drive ([prefixed_listing]); nor are temporary URLs, which the
    in-memory adapter does not offer. *)
Theorem prefixed_memory_refines {R : MapRange} P checksums observer rqs t d v :
  wf_path P → Forall client_ok rqs → represents P (inner d) v →
  let '(rs, (t1, d1)) := session (decorate (prefixed_memory P checksums observer)) rqs t d in
  let '(rs', (t2, v2)) := session memory_backend rqs t v in
  t1 = t2 ∧ represents P (inner d1) v2 ∧ frame P (inner d) (inner d1) ∧
  Forall2 (result_rel eq) rs rs'.
Proof. intros HP. by apply sim_session. Qed.

(** ** Listings *)

(** An entry and its form below the prefix. *)
Definition stripped (P : Path) (e e' : Entry) : Prop :=
  externalPath P (ePath e) = Ok (ePath e') ∧ e' = set_ePath (ePath e') e.

Lemma drain_decorated P es es' cur has cur' fuel :
  Forall2 (stripped P) es es' → (length es < fuel)%nat →
  ∃ it', drain fuel (Decorator.mkIterator (Iterator.mkIterator es cur has false) P cur' None)
           = Some (es', it') ∧ IterErr it' = None.
Proof.
  intros Hs. revert cur has cur' fuel. induction Hs as [|e e' es es' [He Hpath] _ IH];
    intros cur has cur' [|fuel] Hf; simpl in *; try lia; [by eexists|].
  unfold Decorator.iterator_Next. simpl. unfold Iterator.iterator_Entry. simpl.
  rewrite He, <- Hpath.
  destruct (IH e true e' fuel ltac:(lia)) as (it' & Hd & ?). rewrite Hd. by eexists.
Qed.

(** No object at the prefix has a name whose first segment below the prefix is a
    drive: such a name cannot be a client's path. *)
Definition no_drive_below (P : Path) (a : Memory.Adapter) : Prop :=
  ∀ name o rest, objects a !! name = Some o → segments (mkPath name) = segments P ++ rest →
    no_volume rest.

Lemma stripped_listed P p q a recursive e :
  wf_path P → wf_path p → wf_adapter a → no_drive_below P a →
  segments q = segments P ++ segments p → listed a q recursive e →
  ∃ e', stripped P e e' ∧ wf_path (ePath e') ∧ segments (ePath e) = segments P ++ segments (ePath e').
Proof.
  intros HP Hp Ha Hnd Hq He.
  assert (Hseg : ∃ name o child rest tail, objects a !! name = Some o ∧
    segments (mkPath name) = segments P ++ (segments p ++ child :: rest) ++ tail ∧
    segments (ePath e) = segments P ++ segments p ++ child :: rest).
  { destruct He as [name o child rest Ho Hb _|name o child rest Ho Hb _ _].
    - exists name, o, child, rest, []. rewrite app_nil_r. unfold below in Hb.
      simpl. rewrite Hb, Hq, <- app_assoc. done.
    - assert (Hall : Forall segment_ok (segments q ++ [child])).
      { destruct (Ha _ _ Ho) as ([Hall _] & _). unfold below in Hb. rewrite Hb in Hall.
        rewrite cons_middle, app_assoc in Hall. by apply Forall_app in Hall as [? _]. }
      exists name, o, child, [], rest. unfold below in Hb. simpl.
      rewrite (segments_ofSegments _ Hall), Hb, Hq, <- !app_assoc. done. }
  destruct Hseg as (name & o & child & rest & tail & Ho & Hname & Hpath).
  set (segs := segments p ++ child :: rest) in *.
  assert (Hok : segments_ok segs).
  { destruct (Ha _ _ Ho) as ([Hall _] & _). rewrite Hname in Hall.
    apply Forall_app in Hall as [_ [Hsegs _]%Forall_app]. split; [done|].
    apply (no_volume_app segs tail); [by destruct (segments p)|]. by apply (Hnd name o). }
  exists (set_ePath (ofSegments segs) e). unfold stripped. simpl.
  rewrite segments_ofSegments by apply Hok. split_and!; [|done|by auto with paths|done].
  apply externalPath_segments; [done|by auto with paths|]. rewrite segments_ofSegments; [done|apply Hok].
Qed.

Lemma Forall_exists_Forall2 {A B} (Rel : A → B → Prop) l :
  Forall (λ x, ∃ y, Rel x y) l → ∃ l', Forall2 Rel l l'.
Proof.
  induction 1 as [|x l [y Hy] _ [l' IH]]; [by exists []|]. exists (y :: l'). by constructor.
Qed.

(** What a client may see in a listing of [p]: the backend's entries of the
    prefixed directory, with the prefix removed. *)
Definition visible (P p : Path) (a : Memory.Adapter) (recursive : bool) (e : Entry) : Prop :=
  wf_path (ePath e) ∧ ∃ q e0, internal P p = Ok q ∧ listed a q recursive e0 ∧ stripped P e0 e.

(** A prefixed listing shows the prefix's contents and nothing else.  Over
    a well-formed store in which no object at the prefix has a drive-like first
    name, a listing of any parsed directory through the decorator succeeds, the
    iterator ends without an error, every entry it yields is a backend entry of
    that directory with the prefix removed, at most [Limit] of them if a limit is
    given, and without a limit none of them is missing. *)
Theorem prefixed_listing {R : MapRange} P p options checksums observer t d :
  wf_path P → wf_path p → wf_adapter (inner d) → no_drive_below P (inner d) →
  0 ≤ Limit options → Recursive options = true ∨ prefix_free (inner d) →
  ∃ it es it',
    run_result (ListEntries (prefixed_memory P checksums observer) Background p options) t d = Ok it ∧
    drain (S (length es)) it = Some (es, it') ∧ IterErr it' = None ∧
    Forall (visible P p (inner d) (Recursive options)) es ∧
    (Limit options = 0 → ∀ e, visible P p (inner d) (Recursive options) e → e ∈ es) ∧
    (Limit options ≠ 0 → len es ≤ Limit options).
Proof.
  intros HP Hp Ha Hnd Hl Hpf. destruct (internal_ok P p HP Hp) as (q & Hi & Hw & Hq).
  destruct (ListObjects_total (inner d) q options t Ha Hw Hl Hpf) as (all & Hrun & _ & _ & Hall).
  assert (Hsub : ∀ e, e ∈ limited (Limit options) all → listed (inner d) q (Recursive options) e).
  { intros e He. apply Hall. unfold limited in He. case_match; [done|].
    by apply subseteq_take in He. }
  destruct (Forall_exists_Forall2 (λ e e', stripped P e e' ∧ wf_path (ePath e'))
              (limited (Limit options) all)) as [es Hes].
  { apply Forall_forall. intros e He.
    destruct (stripped_listed P p q (inner d) (Recursive options) e) as (e' & ? & ? & _); eauto. }
  assert (Hlen : length es = length (limited (Limit options) all)) by (symmetry; by eapply Forall2_length).
  edestruct (drain_decorated P (limited (Limit options) all) es zeroEntry false zeroEntry
               (S (length es))) as (it' & Hdrain & Herr); [|lia|].
  { eapply Forall2_impl; [exact Hes|]. by intros ?? [? _]. }
  eexists _, es, it'. split; [|split; [exact Hdrain|split; [exact Herr|]]].
  - unfold run_result in *. unfold ListEntries, observeCall, at_internal. simpl. rewrite Hi.
    unfold bind, lift_result, call, ret.
    destruct (ListObjects Background q options t (inner d)) as [r [t1 s1]]. simpl in Hrun. by subst.
  - split_and!.
    + apply Forall_forall. intros e He.
      apply list_elem_of_lookup in He as [i Hi'].
      destruct (Forall2_lookup_r _ _ _ _ _ Hes Hi') as (e0 & He0 & Hst & Hwe).
      split; [done|]. exists q, e0. split_and!; [done| |done].
      apply Hsub. by eapply list_elem_of_lookup_2.
    + intros H0 e (Hwe & q' & e0 & Hq' & Hlist & Hst). assert (q' = q) as -> by congruence.
      apply Hall in Hlist. unfold limited in Hes. rewrite H0 in Hes. simpl in Hes.
      apply list_elem_of_lookup in Hlist as [i Hi'].
      destruct (Forall2_lookup_l _ _ _ _ _ Hes Hi') as (e1 & He1 & [Hx1 Hx2] & _).
      destruct Hst as [Hy1 Hy2]. apply list_elem_of_lookup. exists i. rewrite He1. f_equal.
      rewrite Hx2, Hy2. congruence.
    + intros H0. unfold len. rewrite Hlen. unfold limited.
      destruct (Limit options =? 0) eqn:E; [lia|]. rewrite length_take. lia.
Qed.

Lemma prefixed_listing_witness :
  ∃ it es it',
    run_result (ListEntries (prefixed_memory (R := model_range) (mkPath (bs "d")) false false)
                  Background Root (mkListOptions true 0)) 0 (mkDec sample []) = Ok it ∧
    drain (S (length es)) it = Some (es, it') ∧ IterErr it' = None ∧
    Forall (visible (mkPath (bs "d")) Root sample true) es ∧
    (0 = 0 → ∀ e, visible (mkPath (bs "d")) Root sample true e → e ∈ es) ∧
    (0 ≠ 0 → len es ≤ 0).
Proof.
  apply (prefixed_listing (R := model_range) (mkPath (bs "d")) Root (mkListOptions true 0) false false 0
           (mkDec sample [])).
  - decide_now.
  - decide_now.
  - exact sample_wf.
  - intros name o rest Ho Hs. simpl in Ho.
    repeat (apply lookup_insert_Some in Ho as [[<- _]|[_ Ho]];
            [vm_compute in Hs; simplify_eq; decide_now|]). done.
  - simpl. lia.
  - by left.
Defined.

(** ** Instances *)

(** A store whose only object is beside the prefix ["tenant"]. *)
Definition shared : Memory.Adapter :=
  Memory.mkAdapter {[ bs "other" := mkObject (bs "x") None [] VisibilityPrivate 0 ]} (λ t, t).

Definition empty_store : Memory.Adapter := Memory.mkAdapter ∅ (λ t, t).

Lemma shared_represents : represents (mkPath (bs "tenant")) shared empty_store.
Proof.
  split; [done|]. intros p q [Hw Hi]. simpl. rewrite lookup_empty, lookup_singleton_None.
  destruct (internal_ok (mkPath (bs "tenant")) p) as (x & Hx & _ & Hs); [decide_now|done|].
  assert (x = q) as -> by congruence. destruct q as [v]. simpl. intros <-. by vm_compute in Hs.
Qed.

Lemma prefixed_memory_refines_witness :
  let rqs := [CrWrite Background (mkPath (bs "a")) [(bs "1", None)] (mkWriteOptions [] None [] true);
              CrChecksum Background (mkPath (bs "a")) ChecksumCRC32C;
              CrMove Background (mkPath (bs "a")) (mkPath (bs "b/c")) (mkMoveOptions false);
              CrOpen Background (mkPath (bs "other"))] in
  let '(rs, (t1, d1)) :=
    session (decorate (prefixed_memory (R := model_range) (mkPath (bs "tenant")) true true)) rqs 0
      (mkDec shared []) in
  let '(rs', (t2, v2)) := session (memory_backend (R := model_range)) rqs 0 empty_store in
  t1 = t2 ∧ represents (mkPath (bs "tenant")) (inner d1) v2 ∧
  frame (mkPath (bs "tenant")) shared (inner d1) ∧ Forall2 (result_rel eq) rs rs'.
Proof.
  apply (prefixed_memory_refines (R := model_range) (mkPath (bs "tenant")) true true _ 0
           (mkDec shared []) empty_store); [decide_now| |exact shared_represents].
  repeat constructor; try decide_now.
Defined.

Lemma memory_reads_pure {R : MapRange} : reads_pure memory_backend.
Proof.
  split; simpl; [..|done]; intros; intros t a; unfold Memory.Open, Memory.OpenRange,
    Memory.ListObjects, Memory.Stat, Memory.ChecksumOf, lookup_object; monad_cases.
Qed.

Lemma read_only_immutable_witness :
  let a := mkAdapter (memory_backend (R := model_range))
             (mkConfiguration Root true false None false) in
  inner (perform_all (decorate a)
           [RqDelete Background (mkPath (bs "other")); RqOpen Background (mkPath (bs "other"))]
           0 (mkDec shared [])).2 = shared.
Proof.
  apply (read_only_immutable
           (mkAdapter (memory_backend (R := model_range))
              (mkConfiguration Root true false None false))
           [RqDelete Background (mkPath (bs "other")); RqOpen Background (mkPath (bs "other"))]
           0 (mkDec shared [])); [done|exact memory_reads_pure].
Defined.

(** Streaming a checksum through the decorator gives the backend's own
    checksum: over any in-memory store, under any context and for each of the
    three algorithms, [WithChecksums] returns the same algorithm and hexadecimal
    value as [memory.Checksum], or an error of the same class, although one reads
    the stored bytes and formats the CRC with ["%08x"] and the other digests the
    opened stream and hex-encodes its big-endian sum. *)
Theorem streamed_checksum_agrees {R : MapRange} ctx path algorithm observer t a log :
  algorithm ∈ [ChecksumMD5; ChecksumSHA256; ChecksumCRC32C] → wf_path path →
  result_rel eq
    (run_result (Decorator.ChecksumOf (prefixed_memory Root true observer) ctx path algorithm) t
       (mkDec a log))
    (run_result (Memory.ChecksumOf ctx path algorithm) t a).
Proof.
  intros Hal Hp. assert (Hat : at_prefix Root path path) by done.
  assert (Hdig : is_Some (digest_Sum algorithm [])).
  { rewrite !elem_of_cons, elem_of_nil in Hal.
    destruct Hal as [-> |[-> |[-> |[]]]]; unfold digest_Sum;
      rewrite ?decide_True by done; rewrite ?decide_False by done; eauto. }
  pose proof (sim_observe Root eq observer OperationChecksum path Root _ _
    (sim_stream_checksum Root true observer path path ctx algorithm Hat Hdig) t (mkDec a log) a) as Hs.
  unfold run_result, Decorator.ChecksumOf. simpl in Hs |- *.
  destruct (observeCall _ _ _ _ _ _ _) as [r [t1 d1]], (Memory.ChecksumOf _ _ _ _ _) as [r' [t2 v2]].
  apply Hs. split; [done|]. intros p q [_ Hi]. change (Ok p = Ok q) in Hi. by simplify_eq.
Qed.

Lemma streamed_checksum_agrees_witness :
  result_rel eq
    (run_result (Decorator.ChecksumOf (prefixed_memory (R := model_range) Root true false) Background
                   (mkPath (bs "other")) ChecksumCRC32C) 0 (mkDec shared []))
    (run_result (Memory.ChecksumOf Background (mkPath (bs "other")) ChecksumCRC32C) 0 shared).
Proof.
  apply (streamed_checksum_agrees (R := model_range) Background (mkPath (bs "other")) ChecksumCRC32C
           false 0 shared []); decide_now.
Defined.
