(* ===== verification/IOFS.v ===== *)
(** * The [io/fs] bridge: [iofs.go]

    [IOFS] over arbitrary read, stat and list capabilities, and the directory
    handle with its cursor.  The bridge always passes [context.Background]. *)

From S2P Require Import Prelude GoStrings Errors Effects Paths Contracts.

(** ** Names *)

(** [fs.ValidPath]: valid UTF-8, and ["."] or non-empty elements other than
    ["."] and [".."] between slashes. *)
Definition ValidPath (name : bytes) : bool :=
  ValidString name &&
  (bool_decide (name = dot) ||
   forallb (λ elem, bool_decide (elem ≠ [] ∧ elem ≠ dot ∧ elem ≠ dotdot)) (Split name slash)).

Definition ioFSPath (name : bytes) : result Path :=
  if negb (ValidPath name) || ContainsByte name backslash then Err (Sentinel FsErrInvalid)
  else if decide (name = dot) then Ok Root
  else match ParsePath name with
       | Ok logicalPath => Ok logicalPath
       | Err _ => Err (Sentinel FsErrInvalid)
       | Panic m => Panic m
       end.

Definition ioFSBase (name : bytes) : result bytes :=
  if decide (name = dot) then Ok dot
  else result_map Base (MustParsePath name).

Definition pathError (operation name : bytes) (err : error) : error :=
  let err :=
    if Is err ErrNotFound then Sentinel FsErrNotExist
    else if Is err ErrInvalidPath then Sentinel FsErrInvalid
    else err in
  PathError operation name err.

(** ** File information *)

Record ioFSInfo := mkIoFSInfo { info_metadata : Metadata; Name : bytes }.

Definition Size (i : ioFSInfo) : Z := mSize (info_metadata i).
Definition ModTime (i : ioFSInfo) : Z := mModified (info_metadata i).
Definition IsDir (i : ioFSInfo) : bool :=
  bool_decide (mKind (info_metadata i) = EntryKindDirectory).

(** The bits of [fs.FileMode]. *)
Definition ModeDir : Z := Z.shiftl 1 31.
Definition ModeType : Z :=
  foldr Z.lor 0 (map (Z.shiftl 1) [31; 27; 25; 24; 26; 21; 19]).

Definition Mode (i : ioFSInfo) : Z :=
  if IsDir i then Z.lor ModeDir 0x16d (* 0o555 *) else 0x124 (* 0o444 *).

(** [ioFSDirEntry] wraps the same information. *)
Record ioFSDirEntry := mkIoFSDirEntry { Info : ioFSInfo }.
Definition entry_Name (e : ioFSDirEntry) : bytes := Name (Info e).
Definition entry_IsDir (e : ioFSDirEntry) : bool := IsDir (Info e).
Definition entry_Type (e : ioFSDirEntry) : Z := Z.land (Mode (Info e)) ModeType.

(** ** Opened files *)

Record ioFSFile := mkIoFSFile { file_stream : stream; file_info : ioFSInfo }.

Record ioFSDirectory := mkIoFSDirectory {
  dir_name : bytes;
  dir_info : ioFSInfo;
  dir_entries : list ioFSDirEntry;
  offset : Z;
  dir_closed : bool;
}.

Inductive File := FsFile (f : ioFSFile) | FsDirectory (d : ioFSDirectory).

Definition dir_Read (d : ioFSDirectory) : result Z :=
  Err (pathError (bs "read") (dir_name d) (Sentinel EISDIR)).

Definition dir_Close (d : ioFSDirectory) : option error * ioFSDirectory :=
  (None, mkIoFSDirectory (dir_name d) (dir_info d) (dir_entries d) (offset d) true).

Definition dir_Stat (d : ioFSDirectory) : result ioFSInfo :=
  if dir_closed d then Err (pathError (bs "stat") (dir_name d) (Sentinel FsErrClosed))
  else Ok (dir_info d).

Definition set_offset (z : Z) (d : ioFSDirectory) : ioFSDirectory :=
  mkIoFSDirectory (dir_name d) (dir_info d) (dir_entries d) z (dir_closed d).

(** [int] is 64 bits wide: the sum of the cursor and the count wraps. *)
Definition dir_ReadDir (d : ioFSDirectory) (count : Z)
    : result (list ioFSDirEntry) * ioFSDirectory :=
  if dir_closed d then
    (Err (pathError (bs "readdir") (dir_name d) (Sentinel FsErrClosed)), d)
  else if count <=? 0 then
    match slice (dir_entries d) (offset d) (len (dir_entries d)) with
    | Some result => (Ok result, set_offset (len (dir_entries d)) d)
    | None => (Panic "slice bounds out of range", d)
    end
  else if offset d >=? len (dir_entries d) then (Err (Sentinel EOF), d)
  else
    let stop := Z.min (wrap64 (offset d + count)) (len (dir_entries d)) in
    match slice (dir_entries d) (offset d) stop with
    | Some result => (Ok result, set_offset stop d)
    | None => (Panic "slice bounds out of range", d)
    end.

(** ** The file system *)

Record IOFS (S I : Type) := mkIOFS {
  fs_reader : context → Path → M S stream;
  fs_statter : context → Path → M S Metadata;
  fs_lister : context → Path → ListOptions → M S I;
}.
Arguments fs_reader {_ _}.
Arguments fs_statter {_ _}.
Arguments fs_lister {_ _}.
Arguments mkIOFS {_ _}.

(** [None] is a nil capability. *)
Definition NewIOFS {S I} (reader : option (context → Path → M S stream))
    (statter : option (context → Path → M S Metadata))
    (lister : option (context → Path → ListOptions → M S I)) : result (IOFS S I) :=
  match reader, statter, lister with
  | Some reader, Some statter, Some lister => Ok (mkIOFS reader statter lister)
  | _, _, _ => Panic "filesystem: NewIOFS requires reader, statter, and lister"
  end.

(** [Metadata{Path: p, Kind: EntryKindDirectory}]. *)
Definition directory_metadata (p : Path) : Metadata :=
  mkMetadata p EntryKindDirectory 0 0 [] [] None [].

Definition entry_metadata (e : Entry) : Metadata :=
  mkMetadata (ePath e) (eKind e) (eSize e) (eModified e) [] [] None [].

(** [m], with a failure reported as a path error. *)
Definition or_pathError {S A} (operation name : bytes) (m : M S A) : M S A :=
  let! r := attempt m in
  match r with
  | inl x => ret x
  | inr err => throw (pathError operation name err)
  end.

Section IOFS.
Context {S I : Type} `{FiniteIterator I} (f : IOFS S I).

Definition metadata (ctx : context) (logicalPath : Path) : M S Metadata :=
  if IsRoot logicalPath then ret (directory_metadata Root)
  else
    let! r := attempt (fs_statter f ctx logicalPath) in
    match r with
    | inl metadata => ret metadata
    | inr err =>
        if negb (Is err ErrNotFound) then throw err
        else
          let! iterator := fs_lister f ctx logicalPath (mkListOptions false 1) in
          let '(hasEntry, iterator) := Next iterator in
          let iteratorErr := IterErr iterator in
          let closeErr := (CloseIter iterator).1 in
          match Join2 iteratorErr closeErr with
          | Some joined => throw joined
          | None => if hasEntry then ret (directory_metadata logicalPath) else throw err
          end
    end.

(** The loop over the iterator ends by [FiniteIterator]; equal names may come
    out of Go's [sort.Slice] in any order. *)
Definition directoryEntries (ctx : context) (logicalPath : Path) : M S (list ioFSDirEntry) :=
  let! iterator := fs_lister f ctx logicalPath (mkListOptions false 0) in
  match drain (Datatypes.S (remaining iterator)) iterator with
  | None => panic "unreachable"
  | Some (es, iterator) =>
      let entries :=
        map (λ e, mkIoFSDirEntry (mkIoFSInfo (entry_metadata e) (Base (ePath e)))) es in
      match Join2 (IterErr iterator) (CloseIter iterator).1 with
      | Some joined => throw joined
      | None => ret (SortFunc entry_Name entries)
      end
  end.

Definition Open (name : bytes) : M S File :=
  let! logicalPath := or_pathError (bs "open") name (lift_result (ioFSPath name)) in
  let! md := or_pathError (bs "open") name (metadata Background logicalPath) in
  if decide (mKind md = EntryKindDirectory) then
    let! entries := or_pathError (bs "open") name (directoryEntries Background logicalPath) in
    let! base := lift_result (ioFSBase name) in
    ret (FsDirectory (mkIoFSDirectory name (mkIoFSInfo md base) entries 0 false))
  else
    let! stream := or_pathError (bs "open") name (fs_reader f Background logicalPath) in
    let! base := lift_result (ioFSBase name) in
    ret (FsFile (mkIoFSFile stream (mkIoFSInfo md base))).

Definition Stat (name : bytes) : M S ioFSInfo :=
  let! logicalPath := or_pathError (bs "stat") name (lift_result (ioFSPath name)) in
  let! md := or_pathError (bs "stat") name (metadata Background logicalPath) in
  let! base := lift_result (ioFSBase name) in
  ret (mkIoFSInfo md base).

Definition ReadDir (name : bytes) : M S (list ioFSDirEntry) :=
  let! logicalPath := or_pathError (bs "readdir") name (lift_result (ioFSPath name)) in
  let! md := or_pathError (bs "readdir") name (metadata Background logicalPath) in
  if decide (mKind md ≠ EntryKindDirectory) then
    throw (pathError (bs "readdir") name (Sentinel ENOTDIR))
  else or_pathError (bs "readdir") name (directoryEntries Background logicalPath).
End IOFS.

(** ** Names *)

Lemma ValidPath_segments name :
  ValidPath name = true → name ≠ dot →
  ValidString name = true ∧
  Forall (λ seg, seg ≠ [] ∧ seg ≠ dot ∧ seg ≠ dotdot) (Split name slash).
Proof.
  unfold ValidPath. rewrite andb_true_iff, orb_true_iff, bool_decide_eq_true, forallb_forall.
  intros [Hv Hor] Hne. split; [done|]. destruct Hor as [?|Hall]; [done|].
  apply Forall_forall. intros seg Hin. apply list_elem_of_In in Hin.
  specialize (Hall seg Hin). by rewrite bool_decide_eq_true in Hall.
Qed.

(** A name the bridge accepts is its own canonical text. *)
Lemma ParsePath_valid name p :
  ValidPath name = true → name ≠ dot → backslash ∉ name → ParsePath name = Ok p → value p = name.
Proof.
  intros Hv Hd Hb Hp. apply ParsePath_kept in Hp as ->.
  destruct (ValidPath_segments name Hv Hd) as [_ Hall].
  rewrite ReplaceByte_id by done. rewrite filter_all; [apply Join_Split|].
  eapply Forall_impl; [exact Hall|]. naive_solver.
Qed.

Lemma wf_ValidPath p :
  wf_path p → p ≠ Root → ValidString (value p) = true →
  ValidPath (value p) = true ∧ ContainsByte (value p) backslash = false ∧ value p ≠ dot.
Proof.
  intros [Hall _] Hr Hv.
  assert (Hne : value p ≠ []) by (intros E; apply Hr; destruct p; simpl in *; by subst).
  rewrite segments_value in Hall by done. split_and!.
  - unfold ValidPath. rewrite Hv. simpl. apply orb_true_iff. right.
    apply forallb_forall. intros seg Hin%list_elem_of_In.
    rewrite bool_decide_eq_true. rewrite Forall_forall in Hall.
    destruct (Hall _ Hin) as [(? & ? & ? & _) _]. naive_solver.
  - apply bool_decide_eq_false. rewrite <- (Join_Split (value p) slash).
    by apply wf_no_backslash.
  - intros E. rewrite E in Hall. by apply Forall_singleton in Hall as [(_ & ? & _) _].
Qed.

(** Names cross the bridge unchanged: [ioFSPath] accepts a name exactly
    when it is ["."], which names the root, or the canonical text of a parsed
    path in valid UTF-8, which names that path; it never normalizes, every other
    name is [fs.ErrInvalid], it does not panic, and neither does [ioFSBase] on an
    accepted name. *)
Theorem ioFSPath_spec name :
  match ioFSPath name with
  | Ok p => (name = dot ∧ p = Root ∨ wf_path p ∧ p ≠ Root ∧ name = value p) ∧
            ValidString name = true ∧ is_ok (ioFSBase name) = true
  | Err e => e = Sentinel FsErrInvalid ∧ name ≠ dot ∧
             ∀ p, wf_path p → p ≠ Root → name = value p → ValidString name = false
  | Panic _ => False
  end.
Proof.
  unfold ioFSPath. destruct (decide (name = dot)) as [->|Hd].
  { replace (negb (ValidPath dot) || ContainsByte dot backslash) with false by reflexivity.
    split; [by left|]. by split. }
  destruct (negb (ValidPath name) || _) eqn:Hbad.
  - split_and!; [done..|]. intros p Hw Hr ->. apply not_true_is_false. intros Hv.
    destruct (wf_ValidPath p Hw Hr Hv) as (Hvp & Hb & _). by rewrite Hvp, Hb in Hbad.
  - apply orb_false_iff in Hbad as [Hvp%negb_false_iff Hb%bool_decide_eq_false].
    destruct (ParsePath_cases name) as [(segs & Hp & Hne & Hok)|(e & He & _)].
    + pose proof (ParsePath_valid name _ Hvp Hd Hb Hp) as Hval. rewrite Hp. split_and!.
      * right. split_and!; [by auto with paths| |done].
        rewrite <- segments_nil. by rewrite segments_ofSegments by apply Hok.
      * by apply ValidPath_segments.
      * unfold ioFSBase. rewrite decide_False by done. unfold MustParsePath. by rewrite Hp.
    + rewrite He. split_and!; [done..|]. intros p Hw Hr ->.
      rewrite ParsePath_String in He by done. done.
Qed.

(** ** The directory cursor *)

(** A handle whose cursor is inside its entries. *)
Definition dir_ok (d : ioFSDirectory) : Prop :=
  dir_closed d = false ∧ 0 ≤ offset d ≤ len (dir_entries d) ∧ is_int64 (len (dir_entries d)).

(** What is left to read. *)
Definition unread (d : ioFSDirectory) : list ioFSDirEntry :=
  drop (Z.to_nat (offset d)) (dir_entries d).

(** One page, or the rest when [count] is not positive. *)
Lemma dir_ReadDir_page d count :
  dir_ok d → count ≤ MaxInt64 - len (dir_entries d) → 0 < count → unread d ≠ [] →
  ∃ d', dir_ReadDir d count = (Ok (take (Z.to_nat count) (unread d)), d') ∧
    dir_ok d' ∧ unread d' = drop (Z.to_nat count) (unread d) ∧ dir_entries d' = dir_entries d.
Proof.
  intros (Hcl & Hoff & Hlen) Hc Hpos Hun. unfold dir_ReadDir. rewrite Hcl.
  rewrite (proj2 (Z.leb_gt count 0)) by lia.
  assert (offset d < len (dir_entries d)).
  { destruct (Z.eq_dec (offset d) (len (dir_entries d))); [|lia]. exfalso. apply Hun.
    unfold unread, len in *. by rewrite drop_ge by lia. }
  rewrite Z.geb_leb, (proj2 (Z.leb_gt _ _)) by lia. unfold is_int64, MaxInt64 in *.
  rewrite wrap64_id by (unfold is_int64, MaxInt64; lia).
  replace (Z.min (offset d + count) (len (dir_entries d)))
    with (offset d + Z.min count (len (dir_entries d) - offset d)) by lia.
  rewrite slice_min by lia. eexists. split; [done|]. split.
  - split; [done|]. simpl. unfold is_int64, MaxInt64. lia.
  - split; [|done]. unfold unread. simpl. rewrite drop_drop.
    destruct (Z.le_gt_cases count (len (dir_entries d) - offset d)); unfold len in *.
    + f_equal. lia.
    + rewrite !drop_ge by lia. done.
Qed.

Lemma dir_ReadDir_rest d count :
  dir_ok d → count ≤ 0 →
  ∃ d', dir_ReadDir d count = (Ok (unread d), d') ∧ dir_ok d' ∧ unread d' = [].
Proof.
  intros (Hcl & Hoff & Hlen) Hc. unfold dir_ReadDir. rewrite Hcl, (proj2 (Z.leb_le _ _)) by done.
  pose proof (slice_min (dir_entries d) (offset d) (len (dir_entries d))) as Hs.
  replace (offset d + Z.min (len (dir_entries d)) (len (dir_entries d) - offset d))
    with (len (dir_entries d)) in Hs by lia.
  rewrite Hs by lia. rewrite take_ge by (rewrite length_drop; unfold len; lia).
  eexists. split; [done|]. split; [split; [done|simpl; unfold is_int64 in *; lia]|].
  unfold unread. simpl. rewrite drop_ge; [done|]. unfold len. lia.
Qed.

(** A client's pages: [ReadDir] with each count in turn, up to the first that
    fails. *)
Fixpoint read_pages (d : ioFSDirectory) (counts : list Z)
    : list (list ioFSDirEntry) * option error * ioFSDirectory :=
  match counts with
  | [] => ([], None, d)
  | count :: rest =>
      match dir_ReadDir d count with
      | (Ok page, d') => let '(pages, err, d'') := read_pages d' rest in (page :: pages, err, d'')
      | (Err e, d') => ([], Some e, d')
      | (Panic _, d') => ([], Some (NewError "panic"), d')
      end
  end.

(** Paging through a directory loses and repeats nothing: reading with any
    positive counts that leave room for the cursor's sum delivers consecutive
    pages of at most [count] entries each, [io.EOF] exactly when a page is asked
    for at the end, and the pages followed by one unbounded read are all the
    entries that were left, in order. *)
Theorem paged_ReadDir_complete d counts :
  dir_ok d → Forall (λ count, 0 < count ≤ MaxInt64 - len (dir_entries d)) counts →
  let '(pages, err, d') := read_pages d counts in
  (∃ rest, (dir_ReadDir d' (-1)).1 = Ok rest ∧ concat pages ++ rest = unread d) ∧
  Forall2 (λ page count, page ≠ [] ∧ len page ≤ count) pages (take (length pages) counts) ∧
  (err = None ∧ length pages = length counts ∨ err = Some (Sentinel EOF) ∧ unread d' = []).
Proof.
  intros Hd Hc. revert d Hd Hc. induction counts as [|count rest IH]; intros d Hd Hc; simpl.
  { destruct (dir_ReadDir_rest d (-1) Hd ltac:(lia)) as (d' & Hr & _).
    split_and!; [|constructor|by left]. exists (unread d). by rewrite Hr. }
  apply Forall_cons in Hc as [[Hpos Hmax] Hc].
  destruct (decide (unread d = [])) as [Hnil|Hne].
  - destruct Hd as (Hcl & Hoff & Hlen).
    assert (dir_ReadDir d count = (Err (Sentinel EOF), d)) as Heof.
    { unfold dir_ReadDir. rewrite Hcl, (proj2 (Z.leb_gt count 0)) by lia.
      assert (len (dir_entries d) ≤ offset d).
      { unfold unread, len in *. apply (f_equal length) in Hnil. rewrite length_drop in Hnil.
        simpl in Hnil. lia. }
      by rewrite Z.geb_leb, (proj2 (Z.leb_le _ _)) by lia. }
    rewrite Heof. destruct (dir_ReadDir_rest d (-1)) as (d' & Hr & _); [done|lia|].
    split_and!; [|constructor|by right]. exists (unread d). by rewrite Hr.
  - destruct (dir_ReadDir_page d count Hd Hmax Hpos Hne) as (d1 & Hp & Hd1 & Hun & Hent).
    rewrite Hp. specialize (IH d1 Hd1). rewrite Hent in IH. specialize (IH Hc).
    destruct (read_pages d1 rest) as [[pages err] d'].
    destruct IH as ((tail & Htail & Hcat) & Hall & Herr). split_and!.
    + exists tail. split; [done|]. simpl. rewrite <- app_assoc, Hcat, Hun. apply take_drop.
    + simpl. constructor; [|done]. split.
      * destruct (unread d); [done|]. destruct (Z.to_nat count) eqn:E; [lia|done].
      * unfold len. rewrite length_take. lia.
    + simpl. destruct Herr as [[-> Hl]|?]; [left|by right]. split; [done|]. lia.
Qed.

(** A handle on two entries. *)
Definition two_entries : ioFSDirectory :=
  let e n := mkIoFSDirEntry (mkIoFSInfo (entry_metadata zeroEntry) (bs n)) in
  mkIoFSDirectory (bs ".") (mkIoFSInfo (directory_metadata Root) dot) [e "a"; e "b"] 0 false.

Lemma paged_ReadDir_complete_witness :
  let '(pages, err, d') := read_pages two_entries [1; 5; 1] in
  (∃ rest, (dir_ReadDir d' (-1)).1 = Ok rest ∧ concat pages ++ rest = unread two_entries) ∧
  Forall2 (λ page count, page ≠ [] ∧ len page ≤ count) pages (take (length pages) [1; 5; 1]) ∧
  (err = None ∧ length pages = length [1; 5; 1] ∨ err = Some (Sentinel EOF) ∧ unread d' = []).
Proof.
  apply (paged_ReadDir_complete two_entries [1; 5; 1]).
  - split; [done|]. unfold is_int64, MaxInt64. vm_compute. repeat split; discriminate.
  - repeat constructor; vm_compute; congruence.
Defined.

(** The cursor's sum is not guarded: on an open directory that has been
    partly read, [ReadDir] with a count so large that cursor plus count exceeds
    the 64-bit range panics instead of returning the remaining entries; with the
    cursor at the start the same count is fine. *)
Theorem ReadDir_count_overflow d count :
  dir_ok d → 0 < offset d < len (dir_entries d) →
  count ≤ MaxInt64 → MaxInt64 < offset d + count →
  (dir_ReadDir d count).1 = Panic "slice bounds out of range" ∧
  (dir_ReadDir (set_offset 0 d) count).1 = Ok (take (Z.to_nat count) (dir_entries d)).
Proof.
  intros (Hcl & _ & Hlen) Hoff Hmax Hover. unfold is_int64, MaxInt64 in *.
  unfold dir_ReadDir. simpl. rewrite Hcl, (proj2 (Z.leb_gt count 0)) by lia.
  rewrite !Z.geb_leb, !(proj2 (Z.leb_gt _ _)) by lia. split.
  - replace (offset d + count) with (offset d + count - 2 ^ 64 + 1 * 2 ^ 64) by lia.
    rewrite wrap64_periodic, wrap64_id by (unfold is_int64, MaxInt64; lia).
    unfold slice. rewrite (proj2 (Z.leb_gt (offset d) (Z.min _ _))) by lia.
    by rewrite andb_false_r.
  - rewrite wrap64_id by (unfold is_int64, MaxInt64; lia).
    replace (Z.min (0 + count) (len (dir_entries d)))
      with (0 + Z.min count (len (dir_entries d) - 0)) by lia.
    rewrite slice_min by lia. done.
Qed.

Lemma ReadDir_count_overflow_witness :
  (dir_ReadDir (set_offset 1 two_entries) MaxInt64).1 = Panic "slice bounds out of range" ∧
  (dir_ReadDir (set_offset 0 (set_offset 1 two_entries)) MaxInt64).1 =
    Ok (take (Z.to_nat MaxInt64) (dir_entries (set_offset 1 two_entries))).
Proof.
  apply (ReadDir_count_overflow (set_offset 1 two_entries) MaxInt64).
  - split; [done|]. unfold is_int64, MaxInt64. vm_compute. repeat split; discriminate.
  - vm_compute. done.
  - lia.
  - vm_compute. done.
Defined.

(** ** Failures *)

Lemma or_pathError_spec {S A} operation name (m : M S A) t s :
  or_pathError operation name m t s =
  match m t s with
  | (Err e, w) => (Err (pathError operation name e), w)
  | r => r
  end.
Proof. unfold or_pathError, bind, attempt, ret, throw. by destruct (m t s) as [[] [??]]. Qed.

(** An error of the [io/fs] contract: it names the operation and the caller's
    name, and the library's own classes for a missing object and an invalid path
    have been replaced by the standard ones. *)
Definition fs_error (operation name : bytes) (e : error) : Prop :=
  (∃ cause, e = PathError operation name cause) ∧
  Is e ErrNotFound = false ∧ Is e ErrInvalidPath = false.

Lemma pathError_fs operation name e : fs_error operation name (pathError operation name e).
Proof.
  unfold pathError. split; [by eexists|]. simpl.
  destruct (Is e ErrNotFound) eqn:H1; [done|]. by destruct (Is e ErrInvalidPath) eqn:H2.
Qed.

(** Every failure of a computation is such an error. *)
Definition fails_as {S A} (operation name : bytes) (m : M S A) : Prop :=
  ∀ t s, match run_result m t s with Err e => fs_error operation name e | _ => True end.

Section failures.
Context {S : Type} (operation name : bytes).

Lemma fails_ret {A} (x : A) : fails_as (S:=S) operation name (ret x).
Proof. done. Qed.
Lemma fails_throw {A} e : fails_as (S:=S) operation name (throw (A:=A) (pathError operation name e)).
Proof. intros t s. apply pathError_fs. Qed.
Lemma fails_or {A} (m : M S A) : fails_as operation name (or_pathError operation name m).
Proof.
  intros t s. unfold run_result. rewrite or_pathError_spec.
  destruct (m t s) as [[] [??]]; simpl; auto using pathError_fs.
Qed.
Lemma fails_bind {A B} (m : M S A) (g : A → M S B) :
  fails_as operation name m → (∀ x, fails_as operation name (g x)) →
  fails_as operation name (bind m g).
Proof.
  intros Hm Hg t s. specialize (Hm t s). unfold run_result, bind in *.
  destruct (m t s) as [[] [??]]; [apply Hg|done..].
Qed.
(** The base of an accepted name never fails. *)
Lemma fails_base : fails_as (S:=S) operation name (lift_result (ioFSBase name)).
Proof.
  intros t s. unfold run_result, lift_result, ioFSBase, MustParsePath. simpl.
  case_decide; [done|]. by destruct (ParsePath name).
Qed.
End failures.

(** Every failure of the bridge follows the [io/fs] contract: whatever the
    providers and the name, an error of [Open], [Stat] or [ReadDir] is a
    [*fs.PathError] naming the operation and the caller's name, in which a
    missing object and an invalid path appear as the standard [fs] errors and
    never as the library's own. *)
Theorem iofs_errors_are_PathErrors {S I} `{FiniteIterator I} (f : IOFS S I) name :
  fails_as (bs "open") name (Open f name) ∧ fails_as (bs "stat") name (Stat f name) ∧
  fails_as (bs "readdir") name (ReadDir f name).
Proof.
  unfold Open, Stat, ReadDir.
  split_and!; repeat first
    [ apply fails_base | apply fails_ret | apply fails_throw | apply fails_or
    | apply fails_bind | intros ? | case_decide ].
Qed.
