(* ===== verification/IOFSMemory.v ===== *)
(** * The [io/fs] bridge over the in-memory adapter

    [iofs.go] composed with [memory/memory.go]: which names exist, what they
    are, and what a directory contains. *)

From S2P Require Import Prelude GoStrings Errors Effects Paths Contracts Iterator Digest Memory MemoryList IOFS.

(** [NewIOFS(adapter, adapter, adapter)]. *)
Definition memory_fs {R : MapRange} : IOFS Memory.Adapter Iterator.iterator :=
  mkIOFS Memory.Open Memory.Stat Memory.ListObjects.

(** Some object lies below [p]. *)
Definition has_below (a : Memory.Adapter) (p : Path) : Prop :=
  ∃ name o child rest, objects a !! name = Some o ∧ below p name child rest.

Lemma listed_has_below a p recursive : (∃ e, listed a p recursive e) ↔ has_below a p.
Proof.
  split.
  - intros [e []]; unfold has_below; eauto 10.
  - intros (name & o & child & rest & Ho & Hb).
    destruct recursive.
    + eexists. eapply listed_file; eauto.
    + destruct (decide (rest = [])); eexists; [eapply listed_file|eapply listed_directory]; eauto.
Qed.

Section memory_fs.
Context {R : MapRange} (a : Memory.Adapter) (Ha : wf_adapter a) (Hpf : prefix_free a).

Lemma ListObjects_run p limit t :
  wf_path p → 0 ≤ limit →
  ∃ all t',
    ListObjects Background p (mkListOptions false limit) t a =
      (Ok (newIterator (limited limit all)), (t', a)) ∧
    NoDup ((λ e, value (ePath e)) <$> all) ∧ ∀ e, e ∈ all ↔ listed a p false e.
Proof.
  intros Hp Hl.
  destruct (ListObjects_total a p (mkListOptions false limit) t Ha Hp Hl (or_intror Hpf))
    as (all & Hrun & _ & Hnd & Hall).
  assert (Hpure : run_state (ListObjects Background p (mkListOptions false limit)) t a = a).
  { unfold ListObjects. monad_cases. }
  unfold run_result, run_state in *. simpl in Hrun.
  destruct (ListObjects Background p _ t a) as [r [t' a']]. simpl in *. subst. by eauto.
Qed.

(** What [metadata] finds at a path. *)
Lemma metadata_memory p t :
  wf_path p →
  ∃ r t', metadata memory_fs Background p t a = (r, (t', a)) ∧
    match objects a !! value p with
    | Some o => p ≠ Root ∧ r = Ok (metadataFor p o)
    | None => (p = Root ∨ has_below a p) ∧ r = Ok (directory_metadata p) ∨
              p ≠ Root ∧ ¬ has_below a p ∧ r = Err (notFound p)
    end.
Proof.
  intros Hp. unfold metadata. destruct (IsRoot p) eqn:Hr.
  { apply IsRoot_spec in Hr as ->. eexists _, _. split; [done|]. simpl.
    destruct (objects a !! []) as [o|] eqn:Ho; [|by left; auto].
    by destruct (Ha _ _ Ho) as (_ & ? & _). }
  assert (Hne : p ≠ Root) by (by rewrite <- IsRoot_spec, Hr).
  unfold bind at 1, attempt. simpl. unfold Memory.Stat, bind at 1, check_ctx. simpl.
  unfold bind at 1. rewrite lookup_object_spec.
  destruct (objects a !! value p) as [o|] eqn:Ho; [by eexists _, _|]. simpl.
  destruct (ListObjects_run p 1 (t + 1) Hp ltac:(lia)) as (all & t' & Hl & _ & Hall).
  unfold bind. rewrite Hl. unfold limited. simpl.
  assert (Hbelow : has_below a p ↔ all ≠ []).
  { rewrite <- (listed_has_below a p false). split.
    - intros [e He] ->. apply Hall in He. by apply elem_of_nil in He.
    - intros Hn. destruct all as [|e rest]; [done|]. exists e. apply Hall. by left. }
  destruct all as [|e rest]; simpl; eexists _, _; (split; [done|]).
  - right. split_and!; [done| |done]. rewrite Hbelow. naive_solver.
  - left. split; [|done]. right. by apply Hbelow.
Qed.
End memory_fs.

(** An accepted name and its path. *)
Lemma ioFSPath_Ok name p :
  ioFSPath name = Ok p →
  wf_path p ∧ ioFSBase name = Ok (if decide (p = Root) then dot else Base p).
Proof.
  intros Hp. unfold ioFSPath, ioFSBase, MustParsePath in *.
  destruct (_ || _); [done|]. case_decide as Hd; simplify_eq/=; [by auto with paths|].
  destruct (ParsePath_cases name) as [(segs & Hs & Hne & Hok)|(e & He & _)];
    [|by rewrite He in Hp]. rewrite Hs in *. simplify_eq.
  rewrite decide_False; [by auto with paths|].
  rewrite <- segments_nil. by rewrite segments_ofSegments by apply Hok.
Qed.

(** How a present object and a directory look through the bridge. *)
Definition file_at (a : Memory.Adapter) (p : Path) (info : ioFSInfo) : Prop :=
  ∃ o, objects a !! value p = Some o ∧ IsDir info = false ∧ Mode info = 292 ∧
    Size info = len (content o) ∧ ModTime info = modified o ∧ Name info = Base p.

Definition directory_at (a : Memory.Adapter) (p : Path) (info : ioFSInfo) : Prop :=
  objects a !! value p = None ∧ (p = Root ∨ has_below a p) ∧ IsDir info = true ∧
  Size info = 0 ∧ ModTime info = 0 ∧ Name info = if decide (p = Root) then dot else Base p.

(** Which names exist: over a well-formed store in which no object is also a
    directory, [Stat] of an accepted name reports a regular file with the
    object's size, time and base name when there is an object at the path, a
    directory when the path is the root or some object lies below it, and
    [fs.ErrNotExist] otherwise. *)
Theorem memory_fs_Stat {R : MapRange} name p t a :
  wf_adapter a → prefix_free a → ioFSPath name = Ok p →
  match run_result (Stat memory_fs name) t a with
  | Ok info => file_at a p info ∨ directory_at a p info
  | Err e => Is e FsErrNotExist = true ∧
             objects a !! value p = None ∧ p ≠ Root ∧ ¬ has_below a p
  | Panic _ => False
  end.
Proof.
  intros Ha Hpf Hn. destruct (ioFSPath_Ok name p Hn) as [Hp Hbase].
  unfold run_result, Stat, bind. rewrite !or_pathError_spec. unfold lift_result. rewrite Hn.
  rewrite or_pathError_spec.
  destruct (metadata_memory a Ha Hpf p t Hp) as (r & t' & -> & Hr). rewrite Hbase.
  destruct (objects a !! value p) as [o|] eqn:Ho.
  - destruct Hr as [Hroot ->]. simpl. left. exists o. rewrite decide_False by done. by split_and!.
  - destruct Hr as [[Hdir ->]|(Hroot & Hb & ->)]; simpl; [|done].
    right. by split_and!.
Qed.

(** The entry of [n] in a listing of [p]. *)
Definition child_path (p : Path) (n : bytes) : Path := ofSegments (segments p ++ [n]).

Lemma child_segments a p key o n rest :
  wf_adapter a → objects a !! key = Some o → below p key n rest →
  segments (child_path p n) = segments p ++ [n].
Proof.
  intros Ha Ho Hb. destruct (Ha _ _ Ho) as ([Hall _] & _). unfold below in Hb.
  rewrite Hb, cons_middle, app_assoc in Hall. apply Forall_app in Hall as [Hall _].
  by apply segments_ofSegments.
Qed.

Lemma NoDup_fmap_inj_on {A B} (f : A → B) l x y :
  NoDup (f <$> l) → x ∈ l → y ∈ l → f x = f y → x = y.
Proof.
  intros Hnd [i Hi]%list_elem_of_lookup [j Hj]%list_elem_of_lookup Hxy.
  assert (i = j) as ->; [|congruence].
  eapply NoDup_lookup; [exact Hnd|..]; rewrite list_lookup_fmap;
    [by rewrite Hi|by rewrite Hj, Hxy].
Qed.

(** What one entry of a directory listing says. *)
Lemma listed_child p a e :
  wf_adapter a → prefix_free a → listed a p false e →
  ∃ n, ePath e = child_path p n ∧ Base (ePath e) = n ∧
    (∃ key o rest, objects a !! key = Some o ∧ below p key n rest) ∧
    let info := mkIoFSInfo (entry_metadata e) n in
    file_at a (ePath e) info ∨ directory_at a (ePath e) info.
Proof.
  intros Ha Hpf He.
  assert (Hchild : ∀ key o n rest, objects a !! key = Some o → below p key n rest →
    wf_path (child_path p n) ∧ segments (child_path p n) = segments p ++ [n] ∧
    Base (child_path p n) = n ∧ child_path p n ≠ Root).
  { intros key o n rest Ho Hb. destruct (Ha _ _ Ho) as (Hw & _). unfold wf_path in Hw.
    unfold below in Hb. rewrite Hb, cons_middle, app_assoc in Hw.
    apply segments_ok_app_l in Hw. unfold child_path.
    assert (Hseg : segments (ofSegments (segments p ++ [n])) = segments p ++ [n])
      by (by rewrite segments_ofSegments by apply Hw).
    split_and!; [by auto with paths|done| |].
    - eapply Base_snoc; [by auto with paths|exact Hseg].
    - rewrite <- segments_nil, Hseg. by destruct (segments p). }
  inversion He as [key o n rest Ho Hb Hr|key o n rest Ho Hb _ Hne]; subst;
    destruct (Hchild _ _ _ _ Ho Hb) as (Hw & Hseg & Hbase & Hroot); simpl.
  - destruct Hr as [?| ->]; [done|].
    assert (mkPath key = child_path p n) as Hpath.
    { apply segments_inj. by rewrite Hseg. }
    rewrite Hpath. exists n. split_and!; [done..|by eauto 10|]. left. exists o.
    rewrite Hbase, <- Hpath. by split_and!.
  - exists n. split_and!; [done..|by eauto 10|]. right. split_and!; [| |done..|].
    + apply eq_None_not_Some. intros [o' Ho']. apply Hne.
      apply (Hpf _ _ _ _ rest Ho' Ho). fold (child_path p n).
      transitivity (segments (child_path p n) ++ rest); [|done].
      rewrite Hseg, Hb, <- app_assoc. done.
    + right. destruct rest as [|r rest]; [done|]. exists key, o, r, rest. split; [done|].
      unfold below. rewrite Hb. fold (child_path p n). rewrite Hseg, <- app_assoc. done.
    + fold (child_path p n). rewrite decide_False by done. done.
Qed.

(** Every immediate child is listed, under its name. *)
Lemma child_listed p a key o n rest :
  wf_adapter a → prefix_free a → objects a !! key = Some o → below p key n rest →
  ∃ e, listed a p false e ∧ Base (ePath e) = n.
Proof.
  intros Ha Hpf Ho Hb.
  assert (He : ∃ e, listed a p false e ∧ ePath e = child_path p n).
  { destruct (decide (rest = [])) as [->|Hne].
    - eexists. split; [by eapply listed_file; auto|]. simpl. unfold child_path. rewrite <- Hb.
      symmetry. apply (ofSegments_segments (mkPath key)).
    - eexists. split; [by eapply listed_directory|done]. }
  destruct He as (e & He & Hpath). exists e. split; [done|].
  destruct (listed_child p a e Ha Hpf He) as (n' & Hpath' & -> & (key' & o' & rest' & Ho' & Hb2) & _).
  assert (Hs : segments p ++ [n] = segments p ++ [n']); [|by simplify_list_eq].
  rewrite <- (child_segments a p key o n rest), <- (child_segments a p key' o' n' rest') by done.
  congruence.
Qed.

(** Distinct entries of one directory have distinct names. *)
Lemma NoDup_child_names p a all :
  wf_adapter a → prefix_free a → (∀ e, e ∈ all → listed a p false e) →
  NoDup ((λ e, value (ePath e)) <$> all) → NoDup ((λ e, Base (ePath e)) <$> all).
Proof.
  intros Ha Hpf Hall Hnd. apply NoDup_fmap_2_strong; [|by eapply NoDup_fmap_1].
  intros x y Hx Hy Hxy.
  destruct (listed_child p a x Ha Hpf (Hall x Hx)) as (n & Hpx & Hbx & _).
  destruct (listed_child p a y Ha Hpf (Hall y Hy)) as (n' & Hpy & Hby & _).
  apply (NoDup_fmap_inj_on (λ e, value (ePath e)) all); [done..|]. congruence.
Qed.

Definition dir_entry (e : Entry) : ioFSDirEntry :=
  mkIoFSDirEntry (mkIoFSInfo (entry_metadata e) (Base (ePath e))).

Lemma directoryEntries_memory {R : MapRange} p t a :
  wf_adapter a → prefix_free a → wf_path p →
  ∃ all t', directoryEntries memory_fs Background p t a =
      (Ok (SortFunc entry_Name (map dir_entry all)), (t', a)) ∧
    NoDup ((λ e, value (ePath e)) <$> all) ∧ ∀ e, e ∈ all ↔ listed a p false e.
Proof.
  intros Ha Hpf Hp. destruct (ListObjects_run a Ha Hpf p 0 t Hp ltac:(lia)) as (all & t' & Hl & Hnd & Hall).
  exists all, t'. split; [|done]. unfold directoryEntries, bind. simpl fs_lister. rewrite Hl.
  change (limited 0 all) with all.
  destruct (drain_iterator all zeroEntry false (Datatypes.S (length all)) ltac:(lia))
    as (it' & Hd & _ & _).
  unfold newIterator in *. cbn [remaining iterator_Finite entries]. rewrite Hd. done.
Qed.

(** C39: what a directory contains: over a well-formed store in which no object is
    also a directory, [ReadDir] of an accepted name that is the root or has
    objects below it returns, sorted by name and without repetition, exactly the
    names of its immediate children, and each entry describes what is there: a
    file with its object's size and time, or a directory. *)
Theorem memory_fs_ReadDir {R : MapRange} name p t a :
  wf_adapter a → prefix_free a → ioFSPath name = Ok p →
  p = Root ∨ has_below a p →
  ∃ es, run_result (ReadDir memory_fs name) t a = Ok es ∧
    Sorted (key_le entry_Name) es ∧ NoDup (entry_Name <$> es) ∧
    (∀ n, n ∈ entry_Name <$> es ↔ ∃ key o rest, objects a !! key = Some o ∧ below p key n rest) ∧
    Forall (λ e, let q := child_path p (entry_Name e) in
                 file_at a q (Info e) ∨ directory_at a q (Info e)) es.
Proof.
  intros Ha Hpf Hn Hdir. destruct (ioFSPath_Ok name p Hn) as [Hp Hbase].
  destruct (metadata_memory a Ha Hpf p t Hp) as (r & t1 & Hmd & Hr).
  assert (r = Ok (directory_metadata p)) as ->.
  { destruct (objects a !! value p) as [o|] eqn:Ho; [|naive_solver].
    destruct Hr as [Hroot _]. destruct Hdir as [?|(key & o' & n & rest & Hk & Hb)]; [done|].
    by specialize (Hpf _ _ _ _ _ Ho Hk Hb). }
  destruct (directoryEntries_memory p t1 a Ha Hpf Hp) as (all & t2 & Hde & Hnd & Hall).
  exists (SortFunc entry_Name (map dir_entry all)). split.
  { unfold run_result, ReadDir, bind. rewrite or_pathError_spec. unfold lift_result. rewrite Hn.
    rewrite or_pathError_spec, Hmd. rewrite decide_False by (intros E; by apply E).
    by rewrite or_pathError_spec, Hde. }
  split_and!.
  - apply SortFunc_sorted.
  - rewrite SortFunc_perm, <- list_fmap_compose.
    apply (NoDup_child_names p a); [done..| |done]. intros e. apply Hall.
  - intros n. rewrite SortFunc_perm, <- list_fmap_compose, list_elem_of_fmap. split.
    + intros (e & -> & He%Hall). destruct (listed_child p a e Ha Hpf He) as (n & _ & <- & Hex & _).
      exact Hex.
    + intros (key & o & rest & Ho & Hb). destruct (child_listed p a key o n rest) as (e & He & Hn'); [done..|].
      exists e. by rewrite Hall.
  - rewrite SortFunc_perm. apply Forall_fmap, Forall_forall. intros e He%Hall.
    destruct (listed_child p a e Ha Hpf He) as (n & Hpath & Hb & _ & Hinfo).
    unfold compose, dir_entry, entry_Name. simpl. rewrite Hb, <- Hpath. exact Hinfo.
Qed.

(** ** Instances *)

Lemma sample_prefix_free : prefix_free sample.
Proof.
  intros n1 n2 o1 o2 rest H1 H2 Hs. simpl in H1, H2.
  repeat (apply lookup_insert_Some in H1 as [[<- _]|[_ H1]];
    [repeat (apply lookup_insert_Some in H2 as [[<- _]|[_ H2]];
      [vm_compute in Hs; by simplify_eq|]); done|]). done.
Qed.

Lemma memory_fs_Stat_witness :
  match run_result (Stat (memory_fs (R := model_range)) (bs "d/b")) 0 sample with
  | Ok info => file_at sample (mkPath (bs "d/b")) info ∨ directory_at sample (mkPath (bs "d/b")) info
  | Err e => Is e FsErrNotExist = true ∧
             objects sample !! value (mkPath (bs "d/b")) = None ∧ mkPath (bs "d/b") ≠ Root ∧
             ¬ has_below sample (mkPath (bs "d/b"))
  | Panic _ => False
  end.
Proof.
  apply (memory_fs_Stat (R := model_range) (bs "d/b") (mkPath (bs "d/b")) 0 sample);
    [exact sample_wf|exact sample_prefix_free|reflexivity].
Defined.

Lemma memory_fs_ReadDir_witness :
  ∃ es, run_result (ReadDir (memory_fs (R := model_range)) dot) 0 sample = Ok es ∧
    Sorted (key_le entry_Name) es ∧ NoDup (entry_Name <$> es) ∧
    (∀ n, n ∈ entry_Name <$> es ↔
          ∃ key o rest, objects sample !! key = Some o ∧ below Root key n rest) ∧
    Forall (λ e, let q := child_path Root (entry_Name e) in
                 file_at sample q (Info e) ∨ directory_at sample q (Info e)) es.
Proof.
  apply (memory_fs_ReadDir (R := model_range) dot Root 0 sample);
    [exact sample_wf|exact sample_prefix_free|reflexivity|by left].
Defined.
