(* ===== verification/Fault.v ===== *)
(** * Fault injection: [fstest/fault.go]

    The reader, writer and iterator that the conformance suite uses to provoke
    short reads, corruption, short writes and failures.  Wrapped readers and
    writers are given by their behaviour; [time.Sleep] advances the time. *)

From S2P Require Import Prelude GoStrings Errors Effects Paths Contracts Digest.

(** ** The wrapped interfaces *)

(** [io.Reader] over its own state: [Read] into a buffer of [n] bytes delivers
    at most [n] bytes and possibly an error. *)
Class Reader (U : Type) := {
  Read : Z → U → (bytes * option error) * U;
  Read_fits n u : 0 ≤ n → len (Read n u).1.1 ≤ n;
}.

(** [bytes.Reader]: the content and the position. *)
Record bytesReader := mkBytesReader { br_content : bytes; br_pos : Z }.

Definition bytesReader_Read (n : Z) (r : bytesReader) : (bytes * option error) * bytesReader :=
  if br_pos r >=? len (br_content r) then (([], Some (Sentinel EOF)), r)
  else
    let chunk := take (Z.to_nat n) (drop (Z.to_nat (br_pos r)) (br_content r)) in
    ((chunk, None), mkBytesReader (br_content r) (br_pos r + len chunk)).

#[export] Program Instance bytesReader_Reader : Reader bytesReader := {
  Read := bytesReader_Read;
}.
Next Obligation.
  intros n r Hn. unfold bytesReader_Read. case_match; unfold len; simpl; [lia|].
  rewrite length_take. lia.
Qed.

(** [io.Writer]: how many bytes of the buffer were accepted, and an error. *)
Class Writer (U : Type) := {
  WriteTo : bytes → U → (Z * option error) * U;
  WriteTo_fits b u : 0 ≤ (WriteTo b u).1.1 ≤ len b;
}.

(** A writer that accepts everything, such as [bytes.Buffer]. *)
#[export] Program Instance buffer_Writer : Writer bytes := {
  WriteTo := λ b u, ((len b, None), u ++ b);
}.
Next Obligation. intros b u. simpl. pose proof (len_nonneg b). lia. Qed.

(** ** The reader *)

Record FaultReaderOptions := mkFaultReaderOptions {
  oMaxChunk : Z;
  oFailAfter : Z;
  oErr : option error;
  oLatency : Z;
  CorruptOffsets : list Z;
}.

Record FaultReader (U : Type) := mkFaultReader {
  fr_reader : U;
  fr_maxChunk : Z;
  fr_failAfter : Z;
  fr_err : error;
  fr_read : Z;
  fr_latency : Z;
  fr_corrupt : gset Z;
}.
Arguments fr_reader {_}.
Arguments fr_maxChunk {_}.
Arguments fr_failAfter {_}.
Arguments fr_err {_}.
Arguments fr_read {_}.
Arguments fr_latency {_}.
Arguments fr_corrupt {_}.
Arguments mkFaultReader {_}.

Definition NewFaultReader {U} (reader : U) (options : FaultReaderOptions) : FaultReader U :=
  let injected := default (Sentinel ErrUnexpectedEOF) (oErr options) in
  let corrupt := list_to_set (filter (λ offset, offset >= 0) (CorruptOffsets options)) in
  mkFaultReader reader (oMaxChunk options) (oFailAfter options) injected 0 (oLatency options)
    corrupt.

(** [^b] on a byte. *)
Definition invert (b : Ascii.ascii) : Ascii.ascii := ascii_of_Z (255 - code b).

(** The loop over the delivered bytes, the first of them at offset [start]. *)
Fixpoint corrupt_bytes (corrupt : gset Z) (start : Z) (b : bytes) : bytes :=
  match b with
  | [] => []
  | c :: rest =>
      (if decide (start ∈ corrupt) then invert c else c)
        :: corrupt_bytes corrupt (start + 1) rest
  end.

(** The number of bytes one call may move, lines 72-81 and 147-156. *)
Definition fault_limit (maxChunk failAfter moved limit : Z) : Z :=
  let limit := if (maxChunk >? 0) && (limit >? maxChunk) then maxChunk else limit in
  if (failAfter >=? 0) && (limit >? failAfter - moved) then failAfter - moved else limit.

Definition sleep {S} (latency : Z) : M S unit := λ t s, (Ok tt, (t + Z.max 0 latency, s)).

(** [Read] into a buffer of [n] bytes: what the buffer holds, and the error. *)
Definition FaultReader_Read {U} `{Reader U} (n : Z) : M (FaultReader U) (bytes * option error) :=
  let! r0 := get in
  do! sleep (fr_latency r0) in
  let! r := get in
  if (fr_failAfter r >=? 0) && (fr_read r >=? fr_failAfter r) then ret ([], Some (fr_err r))
  else
    let limit := fault_limit (fr_maxChunk r) (fr_failAfter r) (fr_read r) n in
    let start := fr_read r in
    let '((chunk, err), reader') := Read limit (fr_reader r) in
    let read' := wrap64 (fr_read r + len chunk) in
    do! put (mkFaultReader reader' (fr_maxChunk r) (fr_failAfter r) (fr_err r) read'
               (fr_latency r) (fr_corrupt r)) in
    ret (corrupt_bytes (fr_corrupt r) start chunk,
         if (fr_failAfter r >=? 0) && (read' >=? fr_failAfter r) then Some (fr_err r) else err).

(** ** The writer *)

Record FaultWriterOptions := mkFaultWriterOptions {
  owMaxChunk : Z;
  owFailAfter : Z;
  owErr : option error;
  owLatency : Z;
}.

Record FaultWriter (U : Type) := mkFaultWriter {
  fw_writer : U;
  fw_maxChunk : Z;
  fw_failAfter : Z;
  fw_err : error;
  fw_latency : Z;
  fw_written : Z;
}.
Arguments fw_writer {_}.
Arguments fw_maxChunk {_}.
Arguments fw_failAfter {_}.
Arguments fw_err {_}.
Arguments fw_latency {_}.
Arguments fw_written {_}.
Arguments mkFaultWriter {_}.

Definition NewFaultWriter {U} (writer : U) (options : FaultWriterOptions) : FaultWriter U :=
  mkFaultWriter writer (owMaxChunk options) (owFailAfter options)
    (default (Sentinel ErrUnexpectedEOF) (owErr options)) (owLatency options) 0.

Definition FaultWriter_Write {U} `{Writer U} (buffer : bytes)
    : M (FaultWriter U) (Z * option error) :=
  let! w0 := get in
  do! sleep (fw_latency w0) in
  let! w := get in
  if (fw_failAfter w >=? 0) && (fw_written w >=? fw_failAfter w) then ret (0, Some (fw_err w))
  else
    let limit := fault_limit (fw_maxChunk w) (fw_failAfter w) (fw_written w) (len buffer) in
    let '((count, err), writer') := WriteTo (take (Z.to_nat limit) buffer) (fw_writer w) in
    let written' := wrap64 (fw_written w + count) in
    do! put (mkFaultWriter writer' (fw_maxChunk w) (fw_failAfter w) (fw_err w) (fw_latency w)
               written') in
    ret (count,
         if (fw_failAfter w >=? 0) && (written' >=? fw_failAfter w) then Some (fw_err w) else err).

Definition Written {U} (w : FaultWriter U) : Z := fw_written w.

(** ** The iterator *)

Record FaultIterator := mkFaultIterator {
  fi_entries : list Entry;
  fi_failAfter : Z;
  fi_fault : error;
  fi_index : nat;  (* an [int] that starts at 0 and only grows *)
  fi_current : Entry;
  fi_err : option error;
  fi_closed : bool;
}.

Definition NewFaultIterator (entries : list Entry) (failAfter : Z) (fault : option error)
    : FaultIterator :=
  mkFaultIterator entries failAfter
    (default (NewError "fstest: injected listing failure") fault) 0%nat zeroEntry None false.

Definition FaultIterator_Next (i : FaultIterator) : bool * FaultIterator :=
  if fi_closed i || bool_decide (is_Some (fi_err i)) then (false, i)
  else if (fi_failAfter i >=? 0) && (Z.of_nat (fi_index i) >=? fi_failAfter i) then
    (false, mkFaultIterator (fi_entries i) (fi_failAfter i) (fi_fault i) (fi_index i)
              (fi_current i) (Some (fi_fault i)) (fi_closed i))
  else match fi_entries i !! fi_index i with
       | None => (false, i)
       | Some e =>
           (true, mkFaultIterator (fi_entries i) (fi_failAfter i) (fi_fault i) (S (fi_index i))
                    e (fi_err i) (fi_closed i))
       end.

Definition FaultIterator_Entry (i : FaultIterator) : Entry := fi_current i.
Definition FaultIterator_Err (i : FaultIterator) : option error := fi_err i.
Definition FaultIterator_Close (i : FaultIterator) : option error * FaultIterator :=
  (None, mkFaultIterator (fi_entries i) (fi_failAfter i) (fi_fault i) (fi_index i)
           (fi_current i) (fi_err i) true).
Definition Closed (i : FaultIterator) : bool := fi_closed i.

#[export] Instance FaultIterator_EntryIterator : EntryIterator FaultIterator := {
  Next := FaultIterator_Next;
  EntryOf := FaultIterator_Entry;
  IterErr := FaultIterator_Err;
  CloseIter := FaultIterator_Close;
}.

#[export] Program Instance FaultIterator_Finite : FiniteIterator FaultIterator := {
  remaining := λ i, (length (fi_entries i) - fi_index i)%nat;
}.
Next Obligation.
  intros i i'. simpl. unfold FaultIterator_Next. destruct (_ || _); [done|].
  destruct (_ && _); [done|]. destruct (fi_entries i !! _) as [e|] eqn:He; [|done].
  intros [= <-]. apply lookup_lt_Some in He. simpl. lia.
Qed.

(** ** Listings *)

(** The entries before the fault. *)
Definition before_fault {A} (failAfter : Z) (l : list A) : list A :=
  if failAfter <? 0 then l else take (Z.to_nat failAfter) l.

Lemma before_fault_lookup {A} k (l : list A) i :
  before_fault k l !! i = if (0 <=? k) && (k <=? Z.of_nat i) then None else l !! i.
Proof.
  unfold before_fault. destruct (k <? 0) eqn:Hk.
  - by rewrite (proj2 (Z.leb_gt 0 k)) by lia.
  - rewrite (proj2 (Z.leb_le 0 k)) by lia. simpl. destruct (k <=? Z.of_nat i) eqn:Hi.
    + apply lookup_take_ge. lia.
    + apply lookup_take_lt. lia.
Qed.

Lemma drain_FaultIterator es k fault i cur fuel :
  (i ≤ length es)%nat → (length es - i < fuel)%nat → (0 ≤ k → Z.of_nat i ≤ k) →
  ∃ it', drain fuel (mkFaultIterator es k fault i cur None false)
      = Some (drop i (before_fault k es), it') ∧
    fi_err it' = (if (0 <=? k) && (k <=? len es) then Some fault else None).
Proof.
  revert i cur. induction fuel as [|fuel IH]; intros i cur Hi Hf Hk; [lia|].
  pose proof (before_fault_lookup k es i) as Hl. cbn [drain Next FaultIterator_EntryIterator].
  unfold FaultIterator_Next. cbn [fi_closed fi_err fi_fault fi_current fi_failAfter fi_index fi_entries orb].
  rewrite bool_decide_eq_false_2 by (by intros []). rewrite !Z.geb_leb.
  destruct ((0 <=? k) && (k <=? Z.of_nat i)) eqn:Hstop.
  - eexists. split; [|].
    + rewrite drop_ge; [done|]. by apply lookup_ge_None.
    + simpl. apply andb_true_iff in Hstop as [H0 H1].
      rewrite H0, (proj2 (Z.leb_le k (len es))); [done|]. unfold len. lia.
  - destruct (es !! i) as [e|] eqn:He.
    + apply lookup_lt_Some in He as Hlt.
      destruct (IH (S i) e) as (it' & Hd & Herr); [lia..| |].
      { intros H0. rewrite (proj2 (Z.leb_le 0 k)) in Hstop by lia. simpl in Hstop. lia. }
      rewrite Hd. eexists. split; [|exact Herr]. by rewrite (drop_S _ _ _ Hl).
    + apply lookup_ge_None in He. eexists. split.
      * rewrite drop_ge; [done|]. by apply lookup_ge_None.
      * simpl. assert (i = length es) as -> by lia. unfold len. by rewrite Hstop.
Qed.

(** The faulty iterator fails exactly where it is told to: a loop over it
    yields the first [failAfter] entries (all of them when [failAfter] is
    negative), then ends; it reports the injected error, by default one of its
    own, exactly when [failAfter] is not negative and at most the number of
    entries; and after [Close] it yields nothing. *)
Theorem FaultIterator_spec es failAfter fault :
  (∃ it', drain (S (length es)) (NewFaultIterator es failAfter fault) =
            Some (before_fault failAfter es, it') ∧
    IterErr it' = if (0 <=? failAfter) && (failAfter <=? len es)
      then Some (default (NewError "fstest: injected listing failure") fault) else None) ∧
  ∀ i : FaultIterator, Next (CloseIter i).2 = (false, (CloseIter i).2).
Proof.
  split; [|done]. unfold NewFaultIterator.
  destruct (drain_FaultIterator es failAfter
    (default (NewError "fstest: injected listing failure") fault) 0 zeroEntry (S (length es)))
    as (it' & Hd & Herr); [lia..|]. by exists it'.
Qed.

(** ** Reads *)

(** Successive reads into buffers of the given sizes, up to the first error. *)
Fixpoint reads {U} `{Reader U} (sizes : list Z) : M (FaultReader U) (bytes * option error) :=
  match sizes with
  | [] => ret ([], None)
  | n :: rest =>
      let! r := FaultReader_Read n in
      match r.2 with
      | Some e => ret (r.1, Some e)
      | None => let! more := reads rest in ret (r.1 ++ more.1, more.2)
      end
  end.

Lemma corrupt_bytes_app corrupt start x y :
  corrupt_bytes corrupt start (x ++ y) =
  corrupt_bytes corrupt start x ++ corrupt_bytes corrupt (start + len x) y.
Proof.
  revert start. induction x as [|c x IH]; intros start; simpl.
  - unfold len. simpl. by rewrite Z.add_0_r.
  - rewrite IH. do 3 f_equal. unfold len. simpl. lia.
Qed.

Lemma length_corrupt_bytes corrupt start b : length (corrupt_bytes corrupt start b) = length b.
Proof. revert start. induction b; intros; simpl; auto. Qed.

Lemma fault_limit_pos maxChunk k m n :
  0 < n → (0 ≤ k → m < k) →
  0 < fault_limit maxChunk k m n ≤ n ∧ (0 ≤ k → fault_limit maxChunk k m n ≤ k - m).
Proof.
  intros Hn Hk. unfold fault_limit.
  destruct (maxChunk >? 0) eqn:Hc, (n >? maxChunk) eqn:Hm, (k >=? 0) eqn:H0; simpl;
    rewrite ?Z.gtb_ltb, ?Z.geb_leb in *; try case_match; rewrite ?Z.gtb_ltb in *; lia.
Qed.

Section reader.
Context (b : bytes) (o : FaultReaderOptions).
Local Abbreviation k := (oFailAfter o) (only parsing).

(** The reader after [m] bytes. *)
Definition reader_at (m : Z) : FaultReader bytesReader :=
  let r := NewFaultReader (mkBytesReader b m) o in
  mkFaultReader (fr_reader r) (fr_maxChunk r) (fr_failAfter r) (fr_err r) m (fr_latency r)
    (fr_corrupt r).

(** How the stream ends. *)
Definition reader_end : error :=
  if (0 <=? k) && (k <=? len b) then fr_err (reader_at 0) else Sentinel EOF.

Definition left_at (m : Z) : bytes := drop (Z.to_nat m) (before_fault k b).

Lemma left_at_take m n :
  0 ≤ m → (0 ≤ k → m + n ≤ k) → 0 ≤ n →
  take (Z.to_nat n) (drop (Z.to_nat m) b) = take (Z.to_nat n) (left_at m).
Proof.
  intros Hm Hk Hn. unfold left_at, before_fault. destruct (k <? 0) eqn:H0; [done|].
  rewrite !take_drop_commute, take_take. do 2 f_equal. lia.
Qed.

Lemma FaultReader_Read_at n m t :
  0 < n → 0 ≤ m ≤ len b → (0 ≤ k → m ≤ k) → is_int64 (len b) →
  ∃ chunk rest err t', left_at m = chunk ++ rest ∧
    FaultReader_Read n t (reader_at m) =
      (Ok (corrupt_bytes (fr_corrupt (reader_at 0)) m chunk, err), (t', reader_at (m + len chunk))) ∧
    match err with
    | None => chunk ≠ [] ∧ m + len chunk ≤ len b ∧ (0 ≤ k → m + len chunk ≤ k)
    | Some e => rest = [] ∧ e = reader_end
    end.
Proof.
  intros Hn Hm Hk Hlen. unfold FaultReader_Read, bind, get, sleep. simpl.
  rewrite !Z.geb_leb. destruct ((0 <=? k) && (k <=? m)) eqn:Hstop; simpl.
  { assert (m = k) as -> by lia. eexists [], [], _, _. split; [|split; [by rewrite Z.add_0_r|split; [done|]]].
    - unfold left_at, before_fault. rewrite (proj2 (Z.ltb_ge _ _)) by lia.
      rewrite drop_ge; [done|]. rewrite length_take. lia.
    - unfold reader_end. by rewrite (proj2 (Z.leb_le 0 _)), (proj2 (Z.leb_le _ (len b))) by lia. }
  destruct (fault_limit_pos (oMaxChunk o) k m n Hn ltac:(lia)) as [HL HLk].
  set (L := fault_limit _ _ _ _) in *. unfold bytesReader_Read. simpl.
  rewrite Z.geb_leb. destruct (len b <=? m) eqn:Hend; simpl.
  - eexists [], [], (Some (Sentinel EOF)), _. unfold len at 2. simpl. rewrite !Z.add_0_r. split; [|split; [|split; [done|]]].
    + unfold left_at, before_fault. unfold len in *. case_match; rewrite drop_ge; rewrite ?length_take; (done || lia).
    + unfold is_int64 in *. rewrite wrap64_id by (unfold is_int64, MaxInt64 in *; lia).
      rewrite Z.geb_leb, Hstop. done.
    + unfold reader_end. destruct (0 <=? k) eqn:H0; [|done]. simpl in *.
      by rewrite (proj2 (Z.leb_gt _ _)) by lia.
  - rewrite (left_at_take m L) by lia. set (chunk := take (Z.to_nat L) (left_at m)).
    assert (Hne : chunk ≠ [] ∧ len chunk ≤ L ∧ m + len chunk ≤ len b).
    { unfold chunk. rewrite <- (left_at_take m L) by lia. unfold len in *.
      rewrite length_take, length_drop. split_and!; [|lia..].
      intros E%(f_equal length). rewrite length_take, length_drop in E. simpl in E. lia. }
    destruct Hne as (Hne & HcL & Hcb). pose proof (len_nonneg chunk).
    exists chunk, (drop (Z.to_nat L) (left_at m)).
    unfold is_int64 in *. rewrite wrap64_id by (unfold is_int64, MaxInt64 in *; lia).
    rewrite Z.geb_leb. eexists _, _. split; [symmetry; apply take_drop|]. split; [done|].
    destruct ((0 <=? k) && (k <=? m + len chunk)) eqn:Hfin; simpl.
    + assert (L = k - m) as -> by lia. split.
      * unfold left_at, before_fault. rewrite (proj2 (Z.ltb_ge _ _)) by lia.
        rewrite drop_drop, drop_ge; [done|]. rewrite length_take. lia.
      * unfold reader_end. by rewrite (proj2 (Z.leb_le 0 _)), (proj2 (Z.leb_le _ (len b))) by lia.
    + split_and!; [done|lia..].
Qed.

Lemma reads_at sizes m t :
  Forall (λ n, 0 < n) sizes → 0 ≤ m ≤ len b → (0 ≤ k → m ≤ k) → is_int64 (len b) →
  ∃ got err t' r', reads sizes t (reader_at m) = (Ok (got, err), (t', r')) ∧
    let want := corrupt_bytes (fr_corrupt (reader_at 0)) m (left_at m) in
    match err with
    | None => (length sizes ≤ length got)%nat ∧ ∃ rest, want = got ++ rest
    | Some e => got = want ∧ e = reader_end
    end.
Proof.
  intros Hs. revert m t. induction Hs as [|n sizes Hn _ IH]; intros m t Hm Hk Hlen.
  { eexists _, _, _, _. split; [done|]. simpl. split; [lia|by eexists]. }
  destruct (FaultReader_Read_at n m t Hn Hm Hk Hlen) as (chunk & rest & err & t1 & Hleft & Hr & Herr).
  cbn [reads]. unfold bind at 1. rewrite Hr. simpl.
  destruct err as [e|].
  - destruct Herr as [-> ->]. rewrite app_nil_r in Hleft. eexists _, _, _, _.
    split; [done|]. by rewrite Hleft.
  - destruct Herr as (Hne & Hmb & Hmk). pose proof (len_nonneg chunk).
    destruct (IH (m + len chunk) t1) as (got & err & t2 & r2 & Hreads & Hspec); [lia|done|done|].
    unfold bind. rewrite Hreads. eexists _, _, _, _. split; [done|]. simpl.
    assert (Hrest : left_at (m + len chunk) = rest).
    { unfold left_at in *. rewrite Z2Nat.inj_add, <- drop_drop, Hleft by lia.
      unfold len. by rewrite Nat2Z.id, drop_app_length. }
    rewrite Hrest in Hspec. rewrite Hleft, corrupt_bytes_app. simpl in Hspec.
    destruct err as [e|].
    + destruct Hspec as [-> ->]. done.
    + destruct Hspec as [Hl [tail ->]]. split.
      * rewrite length_app, length_corrupt_bytes. destruct chunk; [done|]. simpl. lia.
      * exists tail. by rewrite app_assoc.
Qed.
End reader.

(** The faulty reader delivers what it says: over a reader of the bytes
    [b], reads into buffers of any positive sizes deliver, in order, the bytes
    before the fault with exactly the bytes at the configured offsets inverted;
    each read that returns no error delivers at least one byte, so the loop ends;
    the first error comes when all of them have been delivered and is the injected
    error if the fault lies within the content and [io.EOF] otherwise. *)
Theorem FaultReader_delivers b o sizes t :
  Forall (λ n, 0 < n) sizes → is_int64 (len b) →
  ∃ got err t' r',
    reads sizes t (NewFaultReader (mkBytesReader b 0) o) = (Ok (got, err), (t', r')) ∧
    let want := corrupt_bytes (list_to_set (filter (λ i, i >= 0) (CorruptOffsets o))) 0
                  (before_fault (oFailAfter o) b) in
    match err with
    | None => (length sizes ≤ length got)%nat ∧ ∃ rest, want = got ++ rest
    | Some e => got = want ∧
        e = if (0 <=? oFailAfter o) && (oFailAfter o <=? len b)
            then default (Sentinel ErrUnexpectedEOF) (oErr o) else Sentinel EOF
    end.
Proof.
  intros Hs Hlen. pose proof (len_nonneg b).
  apply (reads_at b o sizes 0 t Hs); [lia|done|done].
Qed.

Lemma FaultReader_delivers_witness :
  let o := mkFaultReaderOptions 2 3 None 1 [1; 7] in
  ∃ got err t' r',
    reads [4; 4; 4] 0 (NewFaultReader (mkBytesReader (bs "hello") 0) o) = (Ok (got, err), (t', r')) ∧
    let want := corrupt_bytes (list_to_set (filter (λ i, i >= 0) (CorruptOffsets o))) 0
                  (before_fault (oFailAfter o) (bs "hello")) in
    match err with
    | None => (length [4; 4; 4] ≤ length got)%nat ∧ ∃ rest, want = got ++ rest
    | Some e => got = want ∧
        e = if (0 <=? oFailAfter o) && (oFailAfter o <=? len (bs "hello"))
            then default (Sentinel ErrUnexpectedEOF) (oErr o) else Sentinel EOF
    end.
Proof.
  apply (FaultReader_delivers (bs "hello") (mkFaultReaderOptions 2 3 None 1 [1; 7]) [4; 4; 4] 0).
  - repeat constructor; lia.
  - unfold is_int64, MaxInt64. vm_compute. split; discriminate.
Defined.

(** ** Writes *)

(** Successive writes, whatever each returns. *)
Fixpoint writes {U} `{Writer U} (buffers : list bytes)
    : M (FaultWriter U) (list (Z * option error)) :=
  match buffers with
  | [] => ret []
  | b :: rest =>
      let! r := FaultWriter_Write b in
      let! rs := writes rest in ret (r :: rs)
  end.

Definition total (l : list Z) : Z := foldr Z.add 0 l.

Lemma total_len_nonneg (l : list bytes) : 0 ≤ total (map len l).
Proof. induction l as [|b l IH]; simpl; [lia|]. pose proof (len_nonneg b). lia. Qed.

Section writer.
Context {U : Type} `{Writer U} (o : FaultWriterOptions).
Local Abbreviation k := (owFailAfter o) (only parsing).

Definition writer_at (u : U) (m : Z) : FaultWriter U :=
  let w := NewFaultWriter u o in
  mkFaultWriter u (fw_maxChunk w) (fw_failAfter w) (fw_err w) (fw_latency w) m.

Lemma FaultWriter_Write_at b u m t :
  0 ≤ m → (0 ≤ k → m ≤ k) → m + len b ≤ MaxInt64 →
  ∃ count err u' t',
    FaultWriter_Write b t (writer_at u m) = (Ok (count, err), (t', writer_at u' (m + count))) ∧
    0 ≤ count ≤ len b ∧ (0 ≤ k → m + count ≤ k) ∧
    (0 ≤ k → m + count = k → err = Some (fw_err (writer_at u 0))) ∧
    (0 ≤ k → m = k → count = 0 ∧ u' = u).
Proof.
  intros Hm Hk Hmax. pose proof (len_nonneg b).
  unfold FaultWriter_Write, bind, get, sleep. simpl.
  destruct ((k >=? 0) && (m >=? k)) eqn:Hstop.
  { eexists _, _, _, _. rewrite Z.add_0_r. split; [done|]. split_and!; (done || lia). }
  assert (Hlim : 0 ≤ fault_limit (owMaxChunk o) k m (len b) ≤ len b ∧
                 (0 ≤ k → fault_limit (owMaxChunk o) k m (len b) ≤ k - m)).
  { destruct (decide (len b = 0)) as [E|]; [rewrite E|]; [|pose proof (fault_limit_pos (owMaxChunk o) k m (len b)); lia].
    unfold fault_limit. rewrite !Z.gtb_ltb, !Z.geb_leb in *. repeat case_match; lia. }
  destruct Hlim as [HL HLk]. set (L := fault_limit _ _ _ _) in *.
  pose proof (WriteTo_fits (take (Z.to_nat L) b) u) as Hfits.
  destruct (WriteTo (take (Z.to_nat L) b) u) as [[count err] u']. simpl in Hfits.
  assert (Hcount : 0 ≤ count ≤ L).
  { unfold len in Hfits. rewrite length_take in Hfits. lia. }
  rewrite wrap64_id by (unfold is_int64, MaxInt64 in *; lia).
  eexists _, _, _, _. split; [done|]. simpl. split_and!; try lia.
  intros Hk0 Heq. by rewrite (proj2 (Z.geb_le k 0)), (proj2 (Z.geb_le _ k)) by lia.
Qed.

Lemma writes_at buffers u m t :
  0 ≤ m → (0 ≤ k → m ≤ k) → m + total (map len buffers) ≤ MaxInt64 →
  ∃ rs u' t',
    writes buffers t (writer_at u m) = (Ok rs, (t', writer_at u' (m + total rs.*1))) ∧
    Forall2 (λ b r, 0 ≤ r.1 ≤ len b) buffers rs ∧
    (0 ≤ k → m + total rs.*1 ≤ k) ∧ (0 ≤ k → m = k → u' = u).
Proof.
  revert u m t. induction buffers as [|b rest IH]; intros u m t Hm Hk Hmax.
  { exists [], u, t. simpl. rewrite Z.add_0_r. by split_and!. }
  simpl in Hmax. pose proof (total_len_nonneg rest).
  destruct (FaultWriter_Write_at b u m t) as (count & err & u1 & t1 & Hw & Hc & Hck & _ & Hfix); [lia..|].
  destruct (IH u1 (m + count) t1) as (rs & u2 & t2 & Hws & Hall & Hb & Hfix2); [lia..|].
  simpl. unfold bind. rewrite Hw, Hws. exists ((count, err) :: rs), u2, t2. simpl.
  rewrite Z.add_assoc. split; [done|].
  split_and!; [by constructor|exact Hb|]. intros Hk0 Hmk. destruct (Hfix Hk0 Hmk) as [-> ->].
  apply Hfix2; lia.
Qed.
End writer.

(** The faulty writer never lets more than [FailAfter] bytes through: over
    any writer, after any sequence of writes, whatever their results, each write
    accepted between none and all of its buffer, [Written] is the sum of what the
    writes accepted, and with a non-negative [FailAfter] it is at most
    [FailAfter]; once that many bytes went through, further writes do not reach
    the wrapped writer. *)
Theorem FaultWriter_bounded {U} `{Writer U} (u : U) o buffers more t :
  total (map len buffers) + total (map len more) ≤ MaxInt64 →
  ∃ rs w t' rs' w' t'',
    writes buffers t (NewFaultWriter u o) = (Ok rs, (t', w)) ∧
    Forall2 (λ b r, 0 ≤ r.1 ≤ len b) buffers rs ∧ Written w = total rs.*1 ∧
    (0 ≤ owFailAfter o → Written w ≤ owFailAfter o) ∧
    writes more t' w = (Ok rs', (t'', w')) ∧
    (0 ≤ owFailAfter o → Written w = owFailAfter o → fw_writer w' = fw_writer w).
Proof.
  intros Hmax.
  pose proof (total_len_nonneg more). pose proof (total_len_nonneg buffers).
  destruct (writes_at o buffers u 0 t) as (rs & u1 & t1 & Hw & Hall & Hb & _); [lia..|].
  assert (Hsum : 0 ≤ total rs.*1 ≤ total (map len buffers)).
  { clear -Hall. induction Hall; csimpl; lia. }
  destruct (writes_at o more u1 (total rs.*1) t1) as (rs2 & u2 & t2 & Hw2 & _ & _ & Hfix); [lia..|].
  eexists rs, _, t1, rs2, _, t2. split; [exact Hw|]. simpl in Hw2 |- *.
  split_and!; [done|done|done|exact Hw2|done].
Qed.

Lemma FaultWriter_bounded_witness :
  let o := mkFaultWriterOptions 2 3 None 0 in
  ∃ rs w t' rs' w' t'',
    writes [bs "ab"; bs "cd"] 0 (NewFaultWriter (bs "") o) = (Ok rs, (t', w)) ∧
    Forall2 (λ b r, 0 ≤ r.1 ≤ len b) [bs "ab"; bs "cd"] rs ∧ Written w = total rs.*1 ∧
    (0 ≤ owFailAfter o → Written w ≤ owFailAfter o) ∧
    writes [bs "ef"] t' w = (Ok rs', (t'', w')) ∧
    (0 ≤ owFailAfter o → Written w = owFailAfter o → fw_writer w' = fw_writer w).
Proof.
  apply (FaultWriter_bounded (bs "") (mkFaultWriterOptions 2 3 None 0) [bs "ab"; bs "cd"] [bs "ef"] 0).
  vm_compute. discriminate.
Defined.
