(* ===== verification/StreamWriter.v ===== *)
(** * Streaming uploads: [internal/streamwriter/writer.go]

    A producer writes into an [io.Pipe] whose read end a consumer goroutine
    drains; a context callback closes the pipe early.  The goroutines interleave,
    so the component is a step relation.  The consumer is arbitrary: it reads when
    it likes, with buffers of any size, and returns what it likes. *)

From S2P Require Import Prelude GoStrings Errors Effects.

(** ** State *)

(** What the producer is doing: nothing, inside [Write] with these bytes still to
    hand over, or inside the [once] of [Close], waiting for the consumer. *)
Inductive producer := Idle | Writing (written : Z) (rest : bytes) | Closing.

(** The consumer goroutine: running, with the error its last [Read] returned if
    one did, or returned and its result sent on [done]. *)
Inductive consumer := Running (read_err : option error) | Finished (err : option error).

Record state := mkState {
  ctx_err : option error;        (* ctx.Err() *)
  werr : option error;           (* the pipe's write-side close error *)
  rerr : option error;           (* the pipe's read-side close error *)
  prod : producer;
  cons : consumer;
  done : option (option error);  (* the buffered channel *)
  once : bool;                   (* the body of once.Do has run *)
  w_err : option error;          (* w.err *)
  received : bytes;              (* bytes the consumer has read *)
  attempted : bytes;             (* bytes passed to Write before Close *)
  writes : list (Z * option error);   (* results of Write *)
  closes : list (option error);       (* results of Close *)
}.

(** [io.Pipe]: done is closed as soon as either end is. *)
Definition pipe_closed (s : state) : bool :=
  bool_decide (is_Some (werr s)) || bool_decide (is_Some (rerr s)).

Definition readCloseError (s : state) : error :=
  match rerr s, werr s with
  | None, Some e => e
  | _, _ => Sentinel ErrClosedPipe
  end.

Definition writeCloseError (s : state) : error :=
  match werr s, rerr s with
  | None, Some e => e
  | _, _ => Sentinel ErrClosedPipe
  end.

(** [onceError.Store]: the first error stays. *)
Definition store_first (old : option error) (err : error) : option error :=
  match old with Some e => Some e | None => Some err end.

(** ** Operations *)

(** Lines 28-41. *)
Definition New : state :=
  mkState None None None Idle (Running None) None false None [] [] [] [].

(** The error [Write] returns for a pipe error, lines 45-50. *)
Definition write_error (s : state) (err : error) : error :=
  match ctx_err s with Some e => e | None => err end.

Definition set_prod (p : producer) (s : state) : state :=
  mkState (ctx_err s) (werr s) (rerr s) p (cons s) (done s) (once s) (w_err s) (received s)
    (attempted s) (writes s) (closes s).

Definition log_write (r : Z * option error) (s : state) : state :=
  mkState (ctx_err s) (werr s) (rerr s) (prod s) (cons s) (done s) (once s) (w_err s) (received s)
    (attempted s) (writes s ++ [r]) (closes s).

Definition attempt_write (b : bytes) (s : state) : state :=
  mkState (ctx_err s) (werr s) (rerr s) (prod s) (cons s) (done s) (once s) (w_err s) (received s)
    (if once s then attempted s else attempted s ++ b) (writes s) (closes s).

Definition receive (b : bytes) (s : state) : state :=
  mkState (ctx_err s) (werr s) (rerr s) (prod s) (cons s) (done s) (once s) (w_err s)
    (received s ++ b) (attempted s) (writes s) (closes s).

(** [writer.CloseWithError(err)]. *)
Definition close_writer (err : error) (s : state) : state :=
  mkState (ctx_err s) (store_first (werr s) err) (rerr s) (prod s) (cons s) (done s) (once s)
    (w_err s) (received s) (attempted s) (writes s) (closes s).

Inductive step : state → state → Prop :=
  (** a [Write] that finds the pipe closed *)
  | step_write_refused b s :
      prod s = Idle → pipe_closed s = true →
      step s (log_write (0, Some (write_error s (writeCloseError s))) (attempt_write b s))
  (** a [Write] that starts waiting for the reader *)
  | step_write_start b s :
      prod s = Idle → pipe_closed s = false →
      step s (set_prod (Writing 0 b) (attempt_write b s))
  (** the consumer reads [n] bytes of the pending write; Go's [select] may still
      pick the hand-over when the pipe has just been closed *)
  | step_transfer n written rest s read_err :
      prod s = Writing written rest → cons s = Running read_err → (n ≤ length rest)%nat →
      let s' := receive (take n rest) s in
      step s (if decide (drop n rest = [])
              then log_write (written + Z.of_nat n, None) (set_prod Idle s')
              else set_prod (Writing (written + Z.of_nat n) (drop n rest)) s')
  (** a pending [Write] whose pipe was closed *)
  | step_write_aborted written rest s :
      prod s = Writing written rest → pipe_closed s = true →
      step s (log_write (written, Some (write_error s (writeCloseError s))) (set_prod Idle s))
  (** the consumer's [Read] finds the pipe closed *)
  | step_read_closed read_err s :
      cons s = Running read_err → pipe_closed s = true →
      step s (mkState (ctx_err s) (werr s) (rerr s) (prod s) (Running (Some (readCloseError s)))
                (done s) (once s) (w_err s) (received s) (attempted s) (writes s) (closes s))
  (** the consumer returns: [reader.CloseWithError(err)], [done <- err] *)
  | step_consumer_returns read_err err s :
      cons s = Running read_err →
      step s (mkState (ctx_err s) (werr s)
                (store_first (rerr s) (default (Sentinel ErrClosedPipe) err)) (prod s)
                (Finished err) (Some err) (once s) (w_err s) (received s) (attempted s)
                (writes s) (closes s))
  (** the context is done; its callback may still be pending *)
  | step_ctx_done cause s :
      ctx_err s = None →
      step s (mkState (Some (ctx_error_value cause)) (werr s) (rerr s) (prod s) (cons s) (done s)
                (once s) (w_err s) (received s) (attempted s) (writes s) (closes s))
  (** the callback closes the pipe with the context's error *)
  | step_cancel e s :
      ctx_err s = Some e → step s (close_writer e s)
  (** [Close]: [once.Do] closes the pipe and waits *)
  | step_close s :
      prod s = Idle → once s = false →
      step s (set_prod Closing (close_writer (Sentinel EOF)
        (mkState (ctx_err s) (werr s) (rerr s) (prod s) (cons s) (done s) true (w_err s)
           (received s) (attempted s) (writes s) (closes s))))
  (** the consumer's result arrives *)
  | step_join err s :
      prod s = Closing → done s = Some err →
      step s (mkState (ctx_err s) (werr s) (rerr s) Idle (cons s) (done s) (once s) err
                (received s) (attempted s) (writes s) (closes s ++ [err]))
  (** a later [Close] *)
  | step_close_again s :
      prod s = Idle → once s = true →
      step s (mkState (ctx_err s) (werr s) (rerr s) (prod s) (cons s) (done s) (once s) (w_err s)
                (received s) (attempted s) (writes s) (closes s ++ [w_err s])).

Definition reachable (s : state) : Prop := rtc step New s.

(** ** Invariant *)

Definition pending (s : state) : bytes :=
  match prod s with Writing _ rest => rest | _ => [] end.

Definition is_ctx_value (e : error) : Prop := ∃ cause, e = ctx_error_value cause.

Record inv (s : state) : Prop := {
  inv_ctx : ∀ e, ctx_err s = Some e → is_ctx_value e;
  inv_werr : ∀ e, werr s = Some e → e = Sentinel EOF ∨ is_ctx_value e;
  inv_once : once s = true → is_Some (werr s);
  inv_closing : prod s = Closing → once s = true;
  inv_eof : werr s = Some (Sentinel EOF) → once s = true ∧ pending s = [] ∧ ∀ w r, prod s ≠ Writing w r;
  inv_cons : match cons s with
             | Running re => rerr s = None ∧ done s = None ∧ ∀ e, re = Some e → werr s = Some e
             | Finished err => is_Some (rerr s) ∧ done s = Some err
             end;
  inv_bytes : ∀ re, cons s = Running re → (werr s = None ∨ werr s = Some (Sentinel EOF)) →
              received s ++ pending s = attempted s;
  inv_closes : Forall (λ r, done s = Some r) (closes s);
  inv_w_err : once s = true → prod s = Closing ∨ done s = Some (w_err s);
}.

Lemma inv_New : inv New.
Proof. split; simpl; (done || naive_solver). Qed.

Lemma ctx_value_not_eof : ¬ is_ctx_value (Sentinel EOF).
Proof. by intros [[] ?]. Qed.

Lemma closed_running s re :
  inv s → cons s = Running re → pipe_closed s = bool_decide (is_Some (werr s)).
Proof.
  intros Hi Hc. pose proof (inv_cons _ Hi) as H. rewrite Hc in H. destruct H as (Hr & _).
  unfold pipe_closed. rewrite Hr. rewrite (bool_decide_eq_false_2 (is_Some None)) by (by intros []).
  apply orb_false_r.
Qed.

(** Split the invariant of a successor state and settle what did not change. *)
Local Ltac inv_split :=
  split; simpl; unfold pending in *; simpl;
  repeat match goal with
  | H : prod _ = _ |- _ => rewrite H in *
  | H : cons _ = _ |- _ => rewrite H in *
  end; try done.

(** An end that is already closed stays as it is. *)
Lemma close_writer_closed e e' s : werr s = Some e' → close_writer e s = s.
Proof. destruct s. simpl. by intros ->. Qed.

(** The end-of-file mark and a pending write exclude each other. *)
Lemma writing_no_eof s wr rest :
  inv s → prod s = Writing wr rest → werr s ≠ Some (Sentinel EOF).
Proof. intros Hi Hp E. destruct (inv_eof _ Hi E) as (_ & _ & Hnw). by apply (Hnw wr rest). Qed.

Lemma inv_transfer s n wr rest re :
  inv s → prod s = Writing wr rest → cons s = Running re →
  let s' := receive (take n rest) s in
  inv (if decide (drop n rest = [])
       then log_write (wr + Z.of_nat n, None) (set_prod Idle s')
       else set_prod (Writing (wr + Z.of_nat n) (drop n rest)) s').
Proof.
  intros Hi Hp Hco s'. pose proof (writing_no_eof s wr rest Hi Hp) as Hneof.
  destruct Hi as [Hctx Hw Ho Hcl Heof Hc Hb Hcs Hwe].
  subst s'. destruct (decide (drop n rest = [])) as [Hd|Hd]; inv_split.
  - intros re' Hre Hwerr. rewrite <- (Hb re' Hre Hwerr).
    rewrite app_nil_r. f_equal. rewrite <- (take_drop n rest) at 2. by rewrite Hd, app_nil_r.
  - intros E. destruct (Hwe E); [done|by right].
  - intros re' Hre Hwerr. rewrite <- (Hb re' Hre Hwerr), <- app_assoc. by rewrite take_drop.
  - intros E. destruct (Hwe E); [done|by right].
Qed.

Lemma inv_cancelled s e : inv s → ctx_err s = Some e → inv (close_writer e s).
Proof.
  intros Hi He. pose proof ctx_value_not_eof as Hne.
  destruct (werr s) as [e'|] eqn:Hwerr; [by rewrite (close_writer_closed _ e')|].
  destruct Hi as [Hctx Hw Ho Hcl Heof Hc Hb Hcs Hwe]. pose proof (Hctx e He) as Hce.
  assert (Hee : Some e ≠ Some (Sentinel EOF)) by (intros [= ->]; done).
  inv_split; rewrite Hwerr in *; simpl; try done.
  - intros e0 [= <-]. by right.
  - destruct (cons s); [|done]. destruct Hc as (? & ? & Hre). split_and!; [done..|].
    intros e0 E. by apply Hre in E.
  - by intros re _ [?|?].
Qed.

Lemma inv_step s s' : inv s → step s s' → inv s'.
Proof.
  intros Hi Hs. pose proof ctx_value_not_eof as Hne.
  assert (Hrun : ∀ re, cons s = Running re → pipe_closed s = true → is_Some (werr s)).
  { intros re Hre Hcl. rewrite (closed_running s re Hi Hre) in Hcl. by apply bool_decide_eq_true in Hcl. }
  pose proof Hi as Hinv. destruct Hi as [Hctx Hw Ho Hcl Heof Hc Hb Hcs Hwe].
  destruct Hs as [b s Hp Hclosed|b s Hp Hclosed|n wr rest s re Hp Hco Hn s'|wr rest s Hp Hclosed
    |re s Hco Hclosed|re err s Hco|cause s Hctx0|e s He|s Hp Honce|err s Hp Hd|s Hp Honce].
  - (* refused *) inv_split. intros re Hre Hwerr. destruct (Hrun re Hre Hclosed) as [e He].
    assert (once s = true) as -> by (apply Heof; naive_solver). by rewrite (Hb re).
  - (* started *) apply orb_false_iff in Hclosed as [Hcw%bool_decide_eq_false _].
    assert (Hwn : werr s = None) by (by apply eq_None_not_Some).
    assert (once s = false) as Hof by (apply not_true_is_false; intros E; by apply Ho in E).
    inv_split; rewrite ?Hof, ?Hwn; [done| |done].
    intros re Hre Hwerr. rewrite <- (Hb re Hre) by auto. by rewrite app_nil_r.
  - (* transfer *) by eapply inv_transfer.
  - (* aborted *) pose proof (writing_no_eof s wr rest Hinv Hp). inv_split.
    + intros re Hre Hwerr. destruct (Hrun re Hre Hclosed) as [e He]. naive_solver.
    + intros E. destruct (Hwe E); [done|by right].
  - (* closed read *) destruct (Hrun re Hco Hclosed) as [e He].
    rewrite Hco in Hc. destruct Hc as (Hr & Hd & _). inv_split.
    + split_and!; [done..|]. intros e' [= <-]. unfold readCloseError. by rewrite Hr, He.
    + intros re' _ Hwerr. by apply (Hb re).
  - (* returned *) rewrite Hco in Hc. destruct Hc as (Hr & Hd & _). inv_split; rewrite Hd in *.
    + rewrite Hr. by split.
    + eapply Forall_impl; [exact Hcs|done].
    + intros E. destruct (Hwe E); [by left|done].
  - (* context done *) inv_split. intros e [= <-]. by eexists.
  - (* cancelled *) by apply inv_cancelled.
  - (* close *) inv_split.
    + intros e E. destruct (werr s) as [e'|]; simplify_eq/=; [by apply Hw|by left].
    + intros _. by destruct (werr s).
    + destruct (cons s); [|done]. destruct Hc as (? & ? & Hre). split_and!; [done..|].
      intros e0 E. by rewrite (Hre e0 E).
    + intros re Hre Hor. apply (Hb re Hre). destruct (werr s); [by right; destruct Hor|by left].
    + intros _. by left.
  - (* join *) inv_split.
    + intros E. by destruct (Heof E).
    + apply Forall_app. by rewrite Forall_singleton.
    + by right.
  - (* close again *) inv_split. apply Forall_app. rewrite Forall_singleton.
    split; [done|]. by destruct (Hwe Honce).
Qed.

Lemma reachable_inv s : reachable s → inv s.
Proof.
  intros Hs. refine (rtc_ind_r _ _ inv_New _ s Hs). intros x y _ Hstep Hx. by eapply inv_step.
Qed.

(** ** Properties *)

(** C9: the consumer sees a clean end only of a complete upload: in every
    interleaving of the producer, the consumer and a cancellation, when the
    consumer's read returns [io.EOF] the producer has called [Close], and the
    bytes the consumer has read are exactly the bytes the producer passed to
    [Write] before it, in order; a cancelled, failed or unfinished upload never
    reads as complete. *)
Theorem eof_means_complete s :
  reachable s → cons s = Running (Some (Sentinel EOF)) →
  once s = true ∧ received s = attempted s.
Proof.
  intros Hs Hc. apply reachable_inv in Hs as Hi.
  pose proof (inv_cons _ Hi) as Hcons. rewrite Hc in Hcons. destruct Hcons as (_ & _ & Hw).
  specialize (Hw _ eq_refl). destruct (inv_eof _ Hi Hw) as (Ho & Hp & _). split; [done|].
  rewrite <- (inv_bytes _ Hi _ Hc) by auto. by rewrite Hp, app_nil_r.
Qed.

(** [Close] reports the consumer's result, every time: in every reachable
    state each call of [Close] that has returned gave the result with which the
    consumer function returned, so repeated calls agree, and none has returned
    while the consumer was still running. *)
Theorem close_reports_consumer s :
  reachable s →
  closes s = [] ∨ ∃ err, cons s = Finished err ∧ Forall (eq err) (closes s).
Proof.
  intros Hs. apply reachable_inv in Hs as Hi. destruct (closes s) as [|r rs] eqn:Hcs; [by left|right].
  pose proof (inv_closes _ Hi) as Hall. rewrite Hcs in Hall. pose proof (inv_cons _ Hi) as Hc.
  apply Forall_cons in Hall as Hd. destruct Hd as [Hd _].
  destruct (cons s) as [re|err]; [by destruct Hc as (_ & ? & _); congruence|].
  destruct Hc as [_ Hd']. exists err. split; [done|].
  eapply Forall_impl; [exact Hall|]. simpl. intros r' Hr'. congruence.
Qed.

(** The producer is inside a call. *)
Definition busy (s : state) : Prop := prod s ≠ Idle.

(** Nothing but a running consumer holds the producer: in every reachable
    state a [Write] or [Close] in progress can return at once unless the consumer
    is still running; and a [Write] can return at once, whatever the consumer
    does, as soon as the pipe is closed, in particular after the cancellation
    callback ran. *)
Theorem producer_not_stuck s :
  reachable s → busy s →
  ((∃ err, cons s = Finished err) → ∃ s', step s s' ∧ prod s' = Idle) ∧
  (prod s ≠ Closing → pipe_closed s = true → ∃ s', step s s' ∧ prod s' = Idle).
Proof.
  intros Hs Hbusy. apply reachable_inv in Hs as Hi.
  assert (Habort : prod s ≠ Closing → pipe_closed s = true → ∃ s', step s s' ∧ prod s' = Idle).
  { intros Hncl Hcl. unfold busy in Hbusy. destruct (prod s) as [|w r|] eqn:Hp; [done| |done].
    eexists. split; [by eapply step_write_aborted|done]. }
  split; [|done]. intros [err Hc]. pose proof (inv_cons _ Hi) as Hcons. rewrite Hc in Hcons.
  destruct Hcons as [Hr Hd]. assert (Hcl : pipe_closed s = true).
  { unfold pipe_closed. by rewrite (bool_decide_eq_true_2 _ Hr), orb_true_r. }
  destruct (prod s) eqn:Hp; [by destruct (Hbusy Hp)|by apply Habort|].
  eexists. split; [by eapply step_join|done].
Qed.

(** ** A run *)

(** The producer writes two bytes and closes; the consumer reads them, then the
    end of the stream, and returns. *)
Definition run_writing : state := set_prod (Writing 0 (bs "ab")) (attempt_write (bs "ab") New).
Definition run_written : state :=
  log_write (2, None) (set_prod Idle (receive (bs "ab") run_writing)).
Definition run_closing : state :=
  mkState None (Some (Sentinel EOF)) None Closing (Running None) None true None (bs "ab") (bs "ab")
    [(2, None)] [].
Definition run_eof : state :=
  mkState None (Some (Sentinel EOF)) None Closing (Running (Some (Sentinel EOF))) None true None
    (bs "ab") (bs "ab") [(2, None)] [].

Lemma run_reachable : reachable run_closing.
Proof.
  apply (rtc_l _ _ run_writing); [by apply step_write_start|].
  apply (rtc_l _ _ run_written); [by apply (step_transfer 2 0 (bs "ab") run_writing None)|].
  apply (rtc_l _ _ run_closing); [by apply (step_close run_written)|]. apply rtc_refl.
Qed.

Lemma run_eof_reachable : reachable run_eof.
Proof.
  eapply rtc_r; [exact run_reachable|]. by apply (step_read_closed None run_closing).
Qed.

Definition run_returned : state :=
  mkState None (Some (Sentinel EOF)) (Some (Sentinel ErrClosedPipe)) Closing (Finished None)
    (Some None) true None (bs "ab") (bs "ab") [(2, None)] [].
Definition run_closed : state :=
  mkState None (Some (Sentinel EOF)) (Some (Sentinel ErrClosedPipe)) Idle (Finished None)
    (Some None) true None (bs "ab") (bs "ab") [(2, None)] [None].

Lemma run_closed_reachable : reachable run_closed.
Proof.
  eapply rtc_r; [eapply rtc_r; [exact run_eof_reachable|]|].
  - by apply (step_consumer_returns (Some (Sentinel EOF)) None run_eof).
  - by apply (step_join None run_returned).
Qed.

Lemma eof_means_complete_witness : once run_eof = true ∧ received run_eof = attempted run_eof.
Proof. apply (eof_means_complete run_eof); [exact run_eof_reachable|reflexivity]. Defined.

Lemma close_reports_consumer_witness :
  closes run_closed = [] ∨
  ∃ err, cons run_closed = Finished err ∧ Forall (eq err) (closes run_closed).
Proof. apply (close_reports_consumer run_closed). exact run_closed_reachable. Defined.

Lemma producer_not_stuck_witness :
  ((∃ err, cons run_closing = Finished err) → ∃ s', step run_closing s' ∧ prod s' = Idle) ∧
  (prod run_closing ≠ Closing → pipe_closed run_closing = true →
   ∃ s', step run_closing s' ∧ prod s' = Idle).
Proof. apply (producer_not_stuck run_closing); [exact run_reachable|done]. Defined.
