(* ===== verification/Redact.v ===== *)
(** * Redaction of error text: [internal/redact/redact.go]

    The text of an error with its URLs sanitized, the values of authentication headers
    cut off and the given secrets replaced.  The parser and the printer of [net/url]
    are parameters over the package's [URL] structure; the case-insensitive patterns
    are matched on bytes, with the two letters beyond ASCII that fold into [s] and
    [k]. *)

From S2P Require Import Prelude GoStrings Errors.

(** [net/url.URL]; [User] is the name and the password, if set. *)
Record URL := mkURL {
  Scheme : bytes;
  Opaque : bytes;
  User : option (bytes * option bytes);
  Host : bytes;
  uPath : bytes;
  RawPath : bytes;
  OmitHost : bool;
  ForceQuery : bool;
  RawQuery : bytes;
  Fragment : bytes;
  RawFragment : bytes;
}.

Definition newline : Ascii.ascii := Eval vm_compute in Ascii.ascii_of_nat 10.
Definition lbracket : Ascii.ascii := "["%char.
Definition rbracket : Ascii.ascii := "]"%char.

(** ** Patterns *)

(** A matcher gives what follows a match at the head of the text. *)
Abbreviation matcher := (bytes → option bytes) (only parsing).

(** The [(?i)] match of one lower-case ASCII letter or other character: U+017F folds
    into [s] and U+212A into [k]. *)
Definition lower (c : Ascii.ascii) : Ascii.ascii :=
  if in_range (code c) 65 90 then Ascii.ascii_of_N (Ascii.N_of_ascii c + 32) else c.

Definition long_s : bytes := Eval vm_compute in Ascii.ascii_of_nat <$> [197; 191]%nat.
Definition kelvin : bytes := Eval vm_compute in Ascii.ascii_of_nat <$> [226; 132; 170]%nat.

Definition match_char (c : Ascii.ascii) : matcher := λ s,
  match s with
  | [] => None
  | b :: rest =>
      if decide (lower b = c) then Some rest
      else if decide (c = "s"%char) then CutPrefix s long_s
      else if decide (c = "k"%char) then CutPrefix s kelvin
      else None
  end.

Fixpoint match_fold (pattern : bytes) : matcher := λ s,
  match pattern with
  | [] => Some s
  | c :: pattern' => s' ← match_char c s; match_fold pattern' s'
  end.

(** [(?i)https?://]. *)
Definition match_scheme : matcher := λ s,
  rest ← match_fold (bs "http") s;
  match match_fold (bs "s://") rest with
  | Some after => Some after
  | None => match_fold (bs "://") rest
  end.

(** The index of the leftmost match. *)
Fixpoint index (m : matcher) (s : bytes) : option nat :=
  match m s with
  | Some _ => Some 0%nat
  | None => match s with [] => None | _ :: s' => Datatypes.S <$> index m s' end
  end.

Definition indexFold (value substring : bytes) : option nat := index (match_fold substring) value.
Definition firstURLIndex (message : bytes) : option nat := index match_scheme message.

(** ** Headers *)

Definition header_marker : bytes := bs "[REDACTED HEADER]".

(** [redactHeaders]; [fuel] bounds the replacements. *)
Fixpoint redact_headers (fuel : nat) (message header : bytes) : option bytes :=
  match fuel with
  | O => None
  | S fuel' =>
      match indexFold message header with
      | None => Some message
      | Some index =>
          let prefix := take index message in
          let remainder := drop index message in
          let '(_, suffix, found) := Cut remainder newline in
          let suffix := if found : bool then newline :: suffix else suffix in
          redact_headers fuel' (prefix ++ header_marker ++ suffix) header
      end
  end.
Definition redactHeaders (message header : bytes) : option bytes :=
  redact_headers (1 + length message) message header.

Definition headers : list bytes :=
  [bs "authorization:"; bs "proxy-authorization:"; bs "x-amz-security-token:";
   bs "x-amz-credential:"; bs "x-amz-signature:"].

(** ** Secrets *)

(** [strings.ReplaceAll] for a non-empty [old]; [skip] bytes belong to a match. *)
Fixpoint replace_from (skip : nat) (s old new : bytes) : bytes :=
  match s with
  | [] => []
  | c :: s' =>
      match skip with
      | S skip' => replace_from skip' s' old new
      | O =>
          if HasPrefix s old then new ++ replace_from (length old - 1) s' old new
          else c :: replace_from 0 s' old new
      end
  end.
Definition ReplaceAll (s old new : bytes) : bytes := replace_from 0 s old new.

Definition secret_marker : bytes := bs "[REDACTED]".

(** ** URLs *)

(** The offset of the first space a [range] loop meets, or the length. *)
Fixpoint space_from (skip : nat) (s : bytes) : nat :=
  match s with
  | [] => 0
  | _ :: s' =>
      match skip with
      | S skip' => 1 + space_from skip' s'
      | O =>
          let '(r, w) := DecodeRune s in
          if IsSpace r then 0 else 1 + space_from (w - 1) s'
      end
  end.

Section redact.
(** [url.Parse], with [None] for an error, and [URL.String]. *)
Context (url_Parse : bytes → option URL) (url_String : URL → bytes).

(** [parsed.User = nil; if parsed.RawQuery != "" { parsed.RawQuery = "REDACTED" }]. *)
Definition strip_url (u : URL) : URL :=
  mkURL (Scheme u) (Opaque u) None (Host u) (uPath u) (RawPath u) (OmitHost u) (ForceQuery u)
    (if decide (RawQuery u = []) then [] else bs "REDACTED") (Fragment u) (RawFragment u).

Definition sanitize_url (raw : bytes) : bytes :=
  match url_Parse raw with
  | None => bs "[REDACTED URL]"
  | Some parsed => url_String (strip_url parsed)
  end.

(** [redactURLs]; [fuel] bounds the URLs found. *)
Fixpoint redact_urls (fuel : nat) (message : bytes) : option bytes :=
  match fuel with
  | O => None
  | S fuel' =>
      if decide (message = []) then Some []
      else
        match firstURLIndex message with
        | None => Some message
        | Some index =>
            let rest := drop index message in
            let stop := space_from 0 rest in
            tail ← redact_urls fuel' (drop stop rest);
            Some (take index message ++ sanitize_url (take stop rest) ++ tail)
        end
  end.
Definition redactURLs (message : bytes) : option bytes := redact_urls (1 + length message) message.

(** The loops of [Error] over the headers and the secrets. *)
Fixpoint redact_all_headers (message : bytes) (headers : list bytes) : option bytes :=
  match headers with
  | [] => Some message
  | header :: rest => message ← redactHeaders message header; redact_all_headers message rest
  end.

Definition redact_secrets (message : bytes) (secrets : list bytes) : bytes :=
  foldl (λ message secret,
    if decide (secret ≠ []) then ReplaceAll message secret secret_marker else message) message secrets.

(** The sanitized text of [Error]. *)
Definition redact_message (text : bytes) (secrets : list bytes) : option bytes :=
  message ← redactURLs text;
  message ← redact_all_headers message headers;
  Some (redact_secrets message secrets).

(** [type sanitizedError struct]. *)
Record sanitizedError := mkSanitized { cause : error; message : bytes }.

(** [Error]; [text] is the text an error renders to.  [Unwrap] is [cause]. *)
Definition Error (text : error → bytes) (err : option error) (secrets : list bytes)
    : option (option sanitizedError) :=
  match err with
  | None => Some None
  | Some err => message ← redact_message (text err) secrets; Some (Some (mkSanitized err message))
  end.
End redact.

(** The cases of the package's tests. *)
Example redact_headers_ex :
  redactHeaders (bs "plain") (bs "authorization:") = Some (bs "plain") ∧
  redactHeaders (bs "Authorization: secret") (bs "authorization:") = Some header_marker ∧
  redactHeaders (bs "before" ++ newline :: bs "AUTHORIZATION: first" ++ newline :: bs "after")
    (bs "authorization:") = Some (bs "before" ++ newline :: header_marker ++ newline :: bs "after") ∧
  firstURLIndex (bs "x HTTPS://secure.test http://plain.test") = Some 2%nat ∧
  indexFold (bs "X-Amz-" ++ long_s ++ bs "ignature: v") (bs "x-amz-signature:") = Some 0%nat.
Proof. vm_compute. auto. Qed.

(** ** Lemmas: matchers *)

(** [x] ends every match, whatever follows. *)
Definition stops (m : matcher) (x : Ascii.ascii) : Prop :=
  ∀ l s, m (l ++ x :: s) = (λ r, r ++ x :: s) <$> m l.
(** A match does not depend on what follows it. *)
Definition grows (m : matcher) : Prop := ∀ l r s, m l = Some r → m (l ++ s) = Some (r ++ s).

Definition free (m : matcher) (s : bytes) : Prop := index m s = None.

Lemma free_cons m c s : free m (c :: s) ↔ m (c :: s) = None ∧ free m s.
Proof. unfold free. simpl. destruct (m (c :: s)), (index m s); naive_solver. Qed.

Lemma free_head m s : free m s → m s = None.
Proof. unfold free. destruct s; simpl; by destruct (m _). Qed.

Lemma free_app m a b : grows m → free m (a ++ b) → free m a ∧ free m b.
Proof.
  intros Hg. induction a as [|c a IH]; simpl.
  - intros H. split; [|done]. unfold free. simpl. destruct (m []) as [r|] eqn:E; [|done].
    apply free_head in H. by rewrite (Hg [] r b E : m b = _) in H.
  - rewrite !free_cons. intros [Hn H]. apply IH in H as [Ha Hb]. split_and!; [|done..].
    destruct (m (c :: a)) as [r|] eqn:E; [|done].
    by rewrite (Hg (c :: a) r b E : m (c :: a ++ b) = _) in Hn.
Qed.

Lemma stops_nil m x s : stops m x → m [] = None → m (x :: s) = None.
Proof. intros Hs Hn. by rewrite (Hs [] s : m (x :: s) = _), Hn. Qed.

(** The leftmost match of a text cut at a byte no match contains. *)
Lemma index_sep m x a b :
  stops m x → m [] = None →
  index m (a ++ x :: b) =
  match index m a with Some i => Some i | None => (λ j, length a + 1 + j)%nat <$> index m b end.
Proof.
  intros Hs Hn. induction a as [|c a IH].
  - cbn [app index]. rewrite stops_nil, Hn by done. by destruct (index m b).
  - cbn [app index]. rewrite (Hs (c :: a) b : m (c :: a ++ x :: b) = _).
    destruct (m (c :: a)); [done|]. cbn. rewrite IH. destruct (index m a); [done|].
    by destruct (index m b).
Qed.

Lemma free_sep m x a b : stops m x → m [] = None → free m (a ++ x :: b) ↔ free m a ∧ free m b.
Proof.
  intros Hs Hn. unfold free. rewrite index_sep by done. destruct (index m a), (index m b); naive_solver.
Qed.

Lemma free_take m s i : grows m → m [] = None → index m s = Some i → free m (take i s).
Proof.
  intros Hg Hn. assert (Hnil : free m []) by (unfold free; simpl; by rewrite Hn).
  revert i. induction s as [|c s IH]; intros i Hi; simpl in Hi; [by rewrite Hn in Hi|].
  destruct (m (c :: s)) eqn:E; [by injection Hi as <-|].
  destruct (index m s) as [j|]; [|done]. injection Hi as <-. simpl. apply free_cons. split; [|by apply IH].
  destruct (m (c :: take j s)) as [r|] eqn:E'; [|done].
  apply (Hg _ _ (drop j s)) in E'. cbn [app] in E'. rewrite take_drop in E'. congruence.
Qed.

Lemma index_le m s i : index m s = Some i → (i ≤ length s)%nat.
Proof.
  revert i. induction s as [|c s IH]; intros i; simpl; [destruct (m []); naive_solver|].
  destruct (m (c :: s)); [intros [= <-]; lia|]. destruct (index m s) as [j|]; [|done].
  intros [= <-]. specialize (IH j eq_refl). lia.
Qed.

Lemma CutPrefix_stops p x : x ∉ p → stops (λ s, CutPrefix s p) x.
Proof.
  intros Hx l s. revert l. induction p as [|c p IH]; intros l; simpl; [done|].
  apply not_elem_of_cons in Hx as [Hc Hx]. destruct l as [|b l]; simpl; [by rewrite decide_False|].
  case_decide; [by apply IH|done].
Qed.

Lemma CutPrefix_grows p : grows (λ s, CutPrefix s p).
Proof. intros l r s ->%CutPrefix_Some. by rewrite <- app_assoc, CutPrefix_app. Qed.

(** A byte that is no letter and in neither of the two encodings. *)
Definition separator (x : Ascii.ascii) : Prop := lower x = x ∧ x ∉ long_s ∧ x ∉ kelvin.

Lemma match_char_stops c x : separator x → x ≠ c → stops (match_char c) x.
Proof.
  intros (Hl & Hs & Hk) Hc l s. unfold match_char. destruct l as [|b l].
  - cbn [app]. rewrite decide_False by congruence.
    repeat case_decide; try done; [apply (CutPrefix_stops _ _ Hs [])|apply (CutPrefix_stops _ _ Hk [])].
  - cbn [app]. repeat case_decide; try done;
      [apply (CutPrefix_stops _ _ Hs (b :: l))|apply (CutPrefix_stops _ _ Hk (b :: l))].
Qed.

Lemma match_char_grows c : grows (match_char c).
Proof.
  intros l r s. unfold match_char. destruct l as [|b l]; [done|]. cbn [app].
  repeat case_decide; intros; simplify_eq; try done;
    by apply (CutPrefix_grows _ (b :: l)).
Qed.

Lemma match_fold_stops pattern x : separator x → x ∉ pattern → stops (match_fold pattern) x.
Proof.
  intros Hx. induction pattern as [|c pattern IH]; intros Hp l s; simpl; [done|].
  apply not_elem_of_cons in Hp as [Hc Hp]. rewrite (match_char_stops c x Hx Hc l s).
  destruct (match_char c l) as [r|]; simpl; [by apply IH|done].
Qed.

Lemma match_fold_grows pattern : grows (match_fold pattern).
Proof.
  induction pattern as [|c pattern IH]; intros l r s; simpl; [by intros [= ->]|].
  destruct (match_char c l) as [l'|] eqn:E; simpl; [|done]. intros Hr.
  rewrite (match_char_grows c _ _ s E). simpl. by apply IH.
Qed.

Lemma match_fold_nil pattern : pattern ≠ [] → match_fold pattern [] = None.
Proof. by destruct pattern. Qed.

(** ** Headers by line *)

(** A line with its header's value cut off. *)
Definition redact_line (header line : bytes) : bytes :=
  match indexFold line header with
  | Some i => take i line ++ header_marker
  | None => line
  end.

(** What [redactHeaders] assumes of a header's name. *)
Definition header_name (header : bytes) : Prop :=
  header ≠ [] ∧ newline ∉ header ∧ lbracket ∉ header ∧ rbracket ∉ header ∧
  free (match_fold header) (bs "REDACTED HEADER").

Lemma separators : separator newline ∧ separator lbracket ∧ separator rbracket.
Proof. unfold separator. repeat split; try done; decide_now. Qed.

Section matcher.
(** A matcher whose matches contain neither a bracket nor what the markers hold. *)
Context (m : matcher) (Hg : grows m) (Hn : m [] = None)
  (Hl : stops m lbracket) (Hr : stops m rbracket).

Lemma free_marker text a b :
  free m text → free m a → free m b → free m (a ++ (lbracket :: text ++ [rbracket]) ++ b).
Proof.
  intros Ht Ha Hb. cbn [app]. rewrite <- app_assoc. cbn [app].
  rewrite !(free_sep m) by done. done.
Qed.
End matcher.

Section lines.
Context (header : bytes) (Hh : header_name header).
Local Abbreviation m := (match_fold header).

Lemma header_stops x : x = newline ∨ x = lbracket ∨ x = rbracket → stops m x.
Proof.
  destruct separators as (? & ? & ?), Hh as (_ & ? & ? & ? & _).
  intros [->|[->| ->]]; by apply match_fold_stops.
Qed.

Lemma header_nil : m [] = None.
Proof. apply match_fold_nil, Hh. Qed.

Lemma redact_line_free line : free m (redact_line header line).
Proof.
  unfold redact_line, indexFold. destruct (index m line) as [i|] eqn:E; [|done].
  rewrite <- (app_nil_r header_marker).
  apply (free_marker m header_nil (header_stops lbracket ltac:(auto)) (header_stops rbracket ltac:(auto)) (bs "REDACTED HEADER")).
  - apply Hh.
  - by apply free_take; [apply match_fold_grows|apply header_nil|].
  - unfold free. simpl. by rewrite header_nil.
Qed.

Lemma free_Join lines : Forall (free m) lines → free m (Join lines newline).
Proof.
  induction 1 as [|line lines Hl _ IH]; [unfold free; simpl; by rewrite header_nil|].
  destruct lines as [|l2 lines]; [done|]. rewrite Join_cons by done.
  apply free_sep; [apply header_stops; auto|apply header_nil|done].
Qed.

(** The text before the lines [todo] and after their first. *)
Definition before (done : list bytes) : bytes := match done with [] => [] | _ => Join done newline ++ [newline] end.
Definition after (todo : list bytes) : bytes := match todo with [] => [] | _ => newline :: Join todo newline end.

Lemma Join_middle done line todo :
  Join (done ++ line :: todo) newline = before done ++ line ++ after todo.
Proof.
  assert (Ht : Join (line :: todo) newline = line ++ after todo).
  { destruct todo; [by rewrite app_nil_r|by rewrite Join_cons]. }
  destruct done as [|d done]; [exact Ht|]. rewrite Join_app, Ht by done.
  unfold before. by rewrite <- app_assoc.
Qed.

Lemma index_middle done line todo i :
  Forall (free m) done → index m line = Some i →
  index m (before done ++ line ++ after todo) = Some (length (before done) + i)%nat.
Proof.
  intros Hd Hi. pose proof header_nil as Hn.
  assert (Hs : stops m newline) by (apply header_stops; auto).
  assert (Ht : index m (line ++ after todo) = Some i).
  { destruct todo as [|t todo]; [by rewrite app_nil_r|]. unfold after. by rewrite index_sep, Hi. }
  destruct done as [|d done]; [done|]. unfold before. rewrite <- app_assoc. cbn [app].
  rewrite index_sep by done. apply (free_Join (d :: done)) in Hd. unfold free in Hd. rewrite Hd, Ht.
  simpl. f_equal. rewrite length_app. simpl. lia.
Qed.

Lemma Cut_line (line : bytes) todo :
  newline ∉ line →
  (let '(_, suffix, found) := Cut (line ++ after todo) newline in
   if found : bool then newline :: suffix else suffix) = after todo.
Proof.
  intros Hl. destruct todo as [|t todo]; [by rewrite app_nil_r, Cut_no_sep|]. unfold after.
  by rewrite Cut_sep.
Qed.

Lemma redact_headers_lines fuel done todo :
  Forall (free m) done → Forall (λ line, newline ∉ line) todo →
  (length (filter (λ line, line ≠ []) todo) < fuel)%nat →
  redact_headers fuel (Join (done ++ todo) newline) header =
  Some (Join (done ++ (redact_line header <$> todo)) newline).
Proof.
  revert fuel done. induction todo as [|line todo IH]; intros fuel done Hd Hl Hf.
  - destruct fuel as [|fuel]; [simpl in Hf; lia|]. simpl. rewrite app_nil_r. unfold indexFold.
    by rewrite (free_Join done Hd : index _ _ = None).
  - apply Forall_cons in Hl as [Hline Hl].
    assert (Hone : Forall (free m) (done ++ [redact_line header line])).
    { apply Forall_app. split; [done|]. constructor; [apply redact_line_free|constructor]. }
    cbn [fmap list_fmap]. rewrite (cons_middle (redact_line header line)), app_assoc.
    destruct (index m line) as [i|] eqn:E.
    + assert (Hne : line ≠ []) by (intros ->; cbn [index] in E; by rewrite header_nil in E).
      rewrite filter_cons_True in Hf by done. simpl in Hf. destruct fuel as [|fuel]; [lia|].
      cbn [redact_headers]. rewrite Join_middle. unfold indexFold. rewrite (index_middle done line todo i) by done.
      pose proof (index_le _ _ _ E) as Hi.
      rewrite take_app_add, (take_app_le line), drop_app_add, (drop_app_le line) by done.
      assert (Hcut : newline ∉ drop i line) by (intros Hin; apply Hline; rewrite <- (take_drop i line); set_solver).
      pose proof (Cut_line (drop i line) todo Hcut) as Hc.
      destruct (Cut (drop i line ++ after todo) newline) as [[x suffix] found]. rewrite Hc.
      rewrite <- (IH fuel); [|done|done|lia]. f_equal.
      rewrite <- (app_assoc done). cbn [app]. rewrite Join_middle.
      unfold redact_line, indexFold. rewrite E. by rewrite <- !app_assoc.
    + assert (redact_line header line = line) as Hr by (unfold redact_line, indexFold; by rewrite E).
      rewrite <- (IH fuel); [by rewrite <- app_assoc, Hr|done|done|].
      destruct (decide (line = [])) as [->|Hne];
        [rewrite filter_cons_False in Hf by naive_solver|rewrite filter_cons_True in Hf by done; simpl in Hf]; lia.
Qed.

Lemma split_nonempty s : (length (filter (λ line : bytes, line ≠ []) (Split s newline)) ≤ length s)%nat.
Proof.
  induction s as [|c s IH]; [done|]. simpl. case_decide.
  - rewrite filter_cons_False by naive_solver. lia.
  - destruct (Split s newline) as [|seg rest] eqn:E; [by destruct (Split_not_nil s newline)|].
    rewrite filter_cons_True by done. simpl.
    destruct (decide (seg = [])) as [->|];
      [rewrite filter_cons_False in IH by naive_solver|rewrite filter_cons_True in IH by done; simpl in IH]; lia.
Qed.

Lemma redactHeaders_by_line message :
  redactHeaders message header = Some (Join (redact_line header <$> Split message newline) newline).
Proof.
  pose proof (redact_headers_lines (1 + length message) [] (Split message newline)) as H.
  rewrite !app_nil_l, Join_Split in H. apply H; [constructor|apply Split_segments|].
  pose proof (split_nonempty message). lia.
Qed.
End lines.

(** ** Lemmas: secrets *)

Lemma replace_skip skip s old new : replace_from skip s old new = ReplaceAll (drop skip s) old new.
Proof.
  revert s. induction skip as [|skip IH]; intros s; [by rewrite drop_0|].
  destruct s as [|c s]; [done|]. simpl. apply IH.
Qed.

Lemma ReplaceAll_step s old new :
  old ≠ [] →
  ReplaceAll s old new =
  match index (λ s, CutPrefix s old) s with
  | None => s
  | Some i => take i s ++ new ++ ReplaceAll (drop (i + length old) s) old new
  end.
Proof.
  intros Hne. induction s as [|c s IH]; [by destruct old|].
  unfold ReplaceAll. cbn [replace_from index]. unfold HasPrefix.
  destruct (CutPrefix (c :: s) old) as [r|] eqn:E.
  - simpl. rewrite replace_skip. destruct old as [|o old]; [done|]. simpl. by rewrite Nat.sub_0_r.
  - fold (ReplaceAll s old new). rewrite IH. by destruct (index _ s).
Qed.

(** A text from which matches of [old] were replaced, when the pieces between them
    are free of [m]. *)
Lemma ReplaceAll_pieces (m : matcher) (P : bytes → Prop) s old :
  old ≠ [] → m [] = None → stops m lbracket → stops m rbracket → free m (bs "REDACTED") →
  (∀ s, P s → match index (λ s, CutPrefix s old) s with
              | None => free m s
              | Some i => free m (take i s) ∧ P (drop (i + length old) s)
              end) →
  P s → free m (ReplaceAll s old secret_marker).
Proof.
  intros Hne Hn Hl Hr Hm HP. remember (length s) as k eqn:Hk. revert s Hk.
  induction k as [k IH] using lt_wf_ind. intros s -> Hs. specialize (HP s Hs) as Hpiece.
  rewrite ReplaceAll_step by done.
  destruct (index (λ s, CutPrefix s old) s) as [i|] eqn:Hi; [|done]. destruct Hpiece as [Ht Hd].
  apply (free_marker m Hn Hl Hr (bs "REDACTED")); [done..|].
  eapply IH; [|done|done]. rewrite length_drop.
  assert (s ≠ []) by (intros ->; by destruct old). destruct s, old; simpl in *; [done..|lia].
Qed.

(** A matcher that no marker and no separator of the redaction satisfies. *)
Record nice (m : matcher) : Prop := {
  nice_grows : grows m;
  nice_nil : m [] = None;
  nice_lbracket : stops m lbracket;
  nice_rbracket : stops m rbracket;
  nice_secret : free m (bs "REDACTED");
}.

(** Replacing keeps a text free, *)
Lemma ReplaceAll_keeps m s old :
  nice m → old ≠ [] → free m s → free m (ReplaceAll s old secret_marker).
Proof.
  intros [Hg Hn Hl Hr Hm] Hne. apply (ReplaceAll_pieces m (free m)); [done..|].
  clear s. intros s Hs. destruct (index _ s) as [i|]; [|done]. split.
  - rewrite <- (take_drop i s) in Hs. by apply free_app in Hs as [? _].
  - rewrite <- (take_drop (i + length old) s) in Hs. by apply free_app in Hs as [_ ?].
Qed.

(** and makes it free of what was replaced. *)
Lemma ReplaceAll_removes s old :
  nice (λ s, CutPrefix s old) → old ≠ [] → free (λ s, CutPrefix s old) (ReplaceAll s old secret_marker).
Proof.
  intros [Hg Hn Hl Hr Hm] Hne. apply (ReplaceAll_pieces _ (λ _, True)); [done..| |done].
  clear s. intros s _. destruct (index _ s) as [i|] eqn:E; [|done]. split; [|done].
  by apply free_take.
Qed.

(** A secret the replacement hides: not empty, without brackets, and not part of the
    marker's word. *)
Definition hidable (secret : bytes) : Prop :=
  secret ≠ [] ∧ lbracket ∉ secret ∧ rbracket ∉ secret ∧
  free (λ s, CutPrefix s secret) (bs "REDACTED").

Lemma hidable_nice secret : hidable secret → nice (λ s, CutPrefix s secret).
Proof.
  intros (Hne & Hl & Hr & Hm). split; [apply CutPrefix_grows|by destruct secret|..|done];
    by apply CutPrefix_stops.
Qed.

Lemma redact_secrets_keeps m message secrets :
  nice m → free m message → free m (redact_secrets message secrets).
Proof.
  intros Hm. revert message. induction secrets as [|s secrets IH]; intros message Hf; [done|].
  simpl. apply IH. case_decide; [by apply ReplaceAll_keeps|done].
Qed.

Lemma redact_secrets_removes message secrets secret :
  hidable secret → secret ∈ secrets → free (λ s, CutPrefix s secret) (redact_secrets message secrets).
Proof.
  intros Hs Hin. pose proof (hidable_nice _ Hs) as Hn. revert message.
  induction secrets as [|s secrets IH]; intros message; [set_solver|]. simpl.
  apply elem_of_cons in Hin as [->|Hin]; [|by apply IH].
  apply redact_secrets_keeps; [done|]. rewrite decide_True by apply Hs.
  apply ReplaceAll_removes; [done|apply Hs].
Qed.

(** ** Lemmas: headers *)

Lemma headers_named : Forall header_name headers.
Proof.
  unfold headers. repeat constructor; unfold free; try done; try decide_now; vm_compute; reflexivity.
Qed.

(** A header's matcher is not met by the markers. *)
Lemma header_nice header : header ∈ headers →
  nice (match_fold header) ∧ free (match_fold header) (bs "REDACTED HEADER") ∧ stops (match_fold header) newline.
Proof.
  intros Hin. pose proof headers_named as Hall. rewrite Forall_forall in Hall.
  pose proof (Hall _ Hin) as Hh. split_and!; [|apply Hh|by apply header_stops; auto].
  split; [apply match_fold_grows|apply match_fold_nil, Hh|by apply header_stops; auto..|].
  destruct Hh as (_ & _ & _ & _ & Hf). change (bs "REDACTED HEADER") with (bs "REDACTED" ++ bs " HEADER") in Hf.
  by apply free_app in Hf as [? _]; [|apply match_fold_grows].
Qed.

(** Redacting one header keeps a text free of another. *)
Lemma redact_lines_keeps m header message :
  nice m → free m (bs "REDACTED HEADER") → stops m newline → free m message →
  free m (Join (redact_line header <$> Split message newline) newline).
Proof.
  intros [Hg Hn Hl Hr _] Hm Hnl Hf. rewrite <- (Join_Split message newline) in Hf.
  revert Hf. generalize (Split message newline). intros lines Hf.
  induction lines as [|line lines IH]; [done|].
  assert (Hparts : free m line ∧ free m (Join lines newline)).
  { destruct lines; [split; [done|]; unfold free; simpl; by rewrite Hn|].
    rewrite Join_cons in Hf by done. by apply free_sep in Hf. }
  destruct Hparts as [Hline Hrest].
  assert (Hone : free m (redact_line header line)).
  { unfold redact_line. destruct (indexFold line header) as [i|]; [|done].
    rewrite <- (app_nil_r header_marker).
    apply (free_marker m Hn Hl Hr (bs "REDACTED HEADER")); [done| |unfold free; simpl; by rewrite Hn].
    rewrite <- (take_drop i line) in Hline. by apply free_app in Hline as [? _]. }
  cbn [fmap list_fmap]. destruct lines as [|l2 lines]; [done|].
  rewrite Join_cons by done. apply free_sep; [done..|]. split; [done|]. by apply IH.
Qed.

Lemma redact_all_headers_free message names :
  Forall header_name names → names ⊆ headers →
  ∃ out, redact_all_headers message names = Some out ∧
    (∀ m, nice m → free m (bs "REDACTED HEADER") → stops m newline → free m message → free m out) ∧
    (∀ header, header ∈ names → free (match_fold header) out).
Proof.
  revert message. induction names as [|h names IH]; intros message Hn Hsub.
  { exists message. split_and!; [done|done|set_solver]. }
  apply Forall_cons in Hn as [Hh Hn]. simpl. rewrite redactHeaders_by_line by done. simpl.
  set (next := Join _ newline).
  destruct (IH next Hn ltac:(set_solver)) as (out & -> & Hkeep & Hfree). exists out. split; [done|].
  split; [intros m Hm H1 H2 Hf; apply Hkeep; [done..|]; by apply redact_lines_keeps|].
  intros header [->|Hin]%elem_of_cons; [|by apply Hfree].
  destruct (header_nice h ltac:(set_solver)) as (Hm & H1 & H2). apply Hkeep; [done..|].
  apply free_Join; [done|]. apply Forall_fmap, Forall_true. intros line. by apply redact_line_free.
Qed.

(** ** URLs *)

Lemma lower_h b : lower b = "h"%char → code b = 72 ∨ code b = 104.
Proof. destruct b as [[] [] [] [] [] [] [] []]; vm_compute; intros; simplify_eq; auto. Qed.

(** A URL is at least one byte long. *)
Lemma space_after_scheme s : is_Some (match_scheme s) → (1 ≤ space_from 0 s)%nat.
Proof.
  unfold match_scheme. intros [r Hr]. destruct s as [|b s]; [done|].
  assert (Hb : lower b = "h"%char).
  { unfold match_fold at 1 in Hr. simpl in Hr. by repeat case_decide. }
  cbn [space_from DecodeRune].
  destruct (lower_h b Hb) as [-> | ->]; simpl; lia.
Qed.

Lemma index_match m s i : index m s = Some i → is_Some (m (drop i s)).
Proof.
  revert i. induction s as [|c s IH]; intros i; simpl.
  - destruct (m []) eqn:E; [|done]. intros [= <-]. simpl. rewrite E. by eexists.
  - destruct (m (c :: s)) eqn:E; [intros [= <-]; simpl; rewrite E; by eexists|].
    destruct (index m s) as [j|]; [|done]. intros [= <-]. simpl. by apply IH.
Qed.

Section urls.
Context (url_Parse : bytes → option URL) (url_String : URL → bytes).
Local Abbreviation urls := (redact_urls url_Parse url_String).

(** The rest of the text after a URL is shorter. *)
Lemma url_progress message i :
  firstURLIndex message = Some i →
  (length (drop (space_from 0 (drop i message)) (drop i message)) < length message)%nat.
Proof.
  intros Hi. pose proof (index_match _ _ _ Hi) as Hm. pose proof (space_after_scheme _ Hm).
  pose proof (index_le _ _ _ Hi). rewrite !length_drop.
  assert (drop i message ≠ []) by (intros Hn; rewrite Hn in Hm; by destruct Hm).
  assert (length (drop i message) ≠ 0%nat) by by destruct (drop i message).
  rewrite length_drop in *. lia.
Qed.

(** The fuel does not matter once it suffices. *)
Lemma redact_urls_total fuel message :
  (length message < fuel)%nat → ∃ out, ∀ fuel', (length message < fuel')%nat → urls fuel' message = Some out.
Proof.
  revert message. induction fuel as [|fuel IH]; intros message Hf; [lia|].
  destruct (decide (message = [])) as [->|Hne].
  { exists []. intros [|fuel'] Hf'; [simpl in Hf'; lia|]. done. }
  destruct (firstURLIndex message) as [i|] eqn:Hi.
  - pose proof (url_progress _ _ Hi) as Hp.
    destruct (IH (drop (space_from 0 (drop i message)) (drop i message)) ltac:(lia)) as [tail Ht].
    eexists. intros [|fuel'] Hf'; [lia|]. cbn [redact_urls]. rewrite decide_False, Hi by done.
    rewrite (Ht fuel') by lia. done.
  - exists message. intros [|fuel'] Hf'; [lia|]. cbn [redact_urls]. by rewrite decide_False, Hi.
Qed.

(** [raw] is the first URL of [pre ++ raw ++ post]. *)
Definition url_at (pre raw post : bytes) : Prop :=
  firstURLIndex (pre ++ raw ++ post) = Some (length pre) ∧ space_from 0 (raw ++ post) = length raw.

Lemma redactURLs_at pre raw post :
  url_at pre raw post →
  redactURLs url_Parse url_String (pre ++ raw ++ post) =
  (λ tail, pre ++ sanitize_url url_Parse url_String raw ++ tail) <$> redactURLs url_Parse url_String post.
Proof.
  intros [Hi Hs]. unfold redactURLs.
  destruct (redact_urls_total (1 + length post) post ltac:(lia)) as [out Ho].
  rewrite (Ho (1 + length post)%nat) by lia. cbn [Nat.add redact_urls].
  pose proof (url_progress _ _ Hi) as Hp. rewrite drop_app_length, Hs, drop_app_length in Hp.
  assert (pre ++ raw ++ post ≠ []) by (intros Hn; rewrite Hn in Hp; simpl in Hp; lia).
  rewrite decide_False, Hi, drop_app_length, Hs, drop_app_length by done.
  rewrite Ho by lia. simpl. by rewrite !take_app_length.
Qed.

(** Two texts that differ in the credentials and in the query values of their URLs
    only. *)
Inductive same_but_credentials : bytes → bytes → Prop :=
  | same_text text : same_but_credentials text text
  | same_url pre raw raw' post post' u u' :
      url_at pre raw post → url_at pre raw' post' →
      url_Parse raw = Some u → url_Parse raw' = Some u' → strip_url u = strip_url u' →
      same_but_credentials post post' →
      same_but_credentials (pre ++ raw ++ post) (pre ++ raw' ++ post').

Lemma redactURLs_same text text' :
  same_but_credentials text text' →
  redactURLs url_Parse url_String text = redactURLs url_Parse url_String text'.
Proof.
  induction 1 as [|pre raw raw' post post' u u' Hu Hu' Hp Hp' Hs _ IH]; [done|].
  rewrite !redactURLs_at by done. rewrite IH. unfold sanitize_url. by rewrite Hp, Hp', Hs.
Qed.
End urls.

(** The redacted text exists and is clean. *)
Lemma redact_clean url_Parse url_String text secrets :
  ∃ out, redact_message url_Parse url_String text secrets = Some out ∧
    (∀ header, header ∈ headers → indexFold out header = None) ∧
    (∀ secret, secret ∈ secrets → hidable secret → index (λ s, CutPrefix s secret) out = None).
Proof.
  destruct (redact_urls_total url_Parse url_String (1 + length text) text ltac:(lia)) as [plain Hp].
  destruct (redact_all_headers_free plain headers headers_named ltac:(set_solver)) as (cut & Hc & _ & Hfree).
  exists (redact_secrets cut secrets). split_and!.
  - unfold redact_message, redactURLs. rewrite Hp by lia. unfold mbind, option_bind. by rewrite Hc.
  - intros header Hin. apply redact_secrets_keeps; [by apply header_nice|by apply Hfree].
  - intros secret Hin Hs. by apply redact_secrets_removes.
Qed.

(** C35: The redacted text of an error always exists (every loop ends) and is clean,
    whatever [net/url] makes of its URLs: no name of an authentication header occurs in
    it, in any case and any folding, so no header's value is left on its line; and no
    given secret occurs in it that is not empty, has no bracket and is not part of the
    marker's own word.  It does not depend on the credentials of a URL that parses, nor
    on the value of its query. *)
Theorem redact_removes url_Parse url_String text secrets :
  ∃ out, redact_message url_Parse url_String text secrets = Some out ∧
    (∀ header, header ∈ headers → indexFold out header = None) ∧
    (∀ secret, secret ∈ secrets → hidable secret → index (λ s, CutPrefix s secret) out = None) ∧
    (∀ text', same_but_credentials url_Parse text text' →
       redact_message url_Parse url_String text' secrets = Some out).
Proof.
  destruct (redact_clean url_Parse url_String text secrets) as (out & Hout & Hh & Hs).
  exists out. split_and!; [done..|]. intros text' Hsame. rewrite <- Hout. unfold redact_message.
  by rewrite (redactURLs_same _ url_String _ _ Hsame).
Qed.

(** C40: Redacting a header is redacting each line on its own: every line that names it is
    cut at the name and marked, and every other line is left as it is. *)
Theorem redactHeaders_lines message header :
  header ∈ headers →
  redactHeaders message header = Some (Join (redact_line header <$> Split message newline) newline).
Proof.
  intros Hin. apply redactHeaders_by_line. pose proof headers_named as Hall. rewrite Forall_forall in Hall.
  by apply Hall.
Qed.

Lemma redactHeaders_lines_witness :
  bs "authorization:" ∈ headers ∧
  redactHeaders (bs "a Authorization: b" ++ newline :: bs "c") (bs "authorization:") =
    Some (bs "a [REDACTED HEADER]" ++ newline :: bs "c").
Proof.
  assert (Hin : bs "authorization:" ∈ headers) by decide_now. split; [exact Hin|].
  rewrite (redactHeaders_lines _ _ Hin). vm_compute. reflexivity.
Defined.

(** A text with all three kinds of credentials. *)
Lemma redact_removes_witness :
  let text := bs "get https://u:p@h/?token=t failed" ++ newline :: bs "X-Amz-Signature: s3cret key-1" in
  redact_message (λ _, None) Host text [bs "key-1"; bs "failed"] =
    Some (bs "get [REDACTED URL] [REDACTED]" ++ newline :: header_marker) ∧
  ∃ out, redact_message (λ _, None) Host text [bs "key-1"; bs "failed"] = Some out ∧
    index (λ s, CutPrefix s (bs "key-1")) out = None.
Proof.
  intros text. split; [vm_compute; reflexivity|].
  destruct (redact_removes (λ _, None) Host text [bs "key-1"; bs "failed"]) as (out & Ho & _ & Hs & _).
  exists out. split; [exact Ho|]. apply Hs; [decide_now|].
  repeat split; try discriminate; decide_now.
Defined.

(** Secrets are replaced one after the other: where one is part of the next, the next
    is no longer found and the rest of it stays. *)
Lemma overlapping_secret_leaks :
  redact_message (λ _, None) Host (bs "AKIA-rest-of-key") [bs "AKIA"; bs "AKIA-rest-of-key"] =
    Some (bs "[REDACTED]-rest-of-key").
Proof. vm_compute. reflexivity. Qed.
