(* ===== verification/S3.v ===== *)
(** * The S3 adapter: [s3/s3.go]

    The AWS SDK is not part of the repository: its clients are a record of
    operations over a service state of their own, and [errors.As] to
    [smithy.APIError] is a function from errors to codes.  Everything the adapter
    itself decides is defined here: validation, keys, ranges, paging, metadata
    limits and the classification of errors. *)

From S2P Require Import Prelude GoStrings Errors Effects Paths Capability Contracts Iterator Digest.

(** ** Standard library helpers *)

(** [strings.Trim(s, c)] for one ASCII character. *)
Fixpoint trim_left (s : bytes) (c : Ascii.ascii) : bytes :=
  match s with
  | x :: rest => if decide (x = c) then trim_left rest c else s
  | [] => []
  end.
Definition Trim (s : bytes) (c : Ascii.ascii) : bytes :=
  reverse (trim_left (reverse (trim_left s c)) c).

(** [url.PathEscape]: letters, digits and [-_.~$&+:=@] stay. *)
Definition unescaped (c : Ascii.ascii) : bool :=
  let x := code c in
  in_range x 97 122 || in_range x 65 90 || in_range x 48 57 ||
  bool_decide (c ∈ bs "-_.~$&+:=@").
Definition upper_hex (n : Z) : Ascii.ascii := ascii_of_Z (if n <? 10 then 48 + n else 55 + n).
Definition percent : Ascii.ascii := ascii_of_Z 37.
Definition PathEscape (s : bytes) : bytes :=
  flat_map (λ c, if unescaped c then [c]
                 else [percent; upper_hex (code c / 16); upper_hex (code c mod 16)]) s.

(** ** Configuration *)

(** Nanoseconds in seven days. *)
Definition maximumTemporaryURLLifetime : Z := 7 * 24 * 3600 * 1000000000.
Definition defaultMaxMetadataEntries : Z := 128.
Definition defaultMaxMetadataBytes : Z := 64 * 1024.

(** A callback on [transfermanager.Options]: opaque, identified by a number. *)
Abbreviation TransferOption := Z (only parsing).

Record config := mkConfig {
  adapterName : bytes;
  bucket : bytes;
  prefix : bytes;
  maxList : Z;
  maxMetadataEntries : Z;
  maxMetadataBytes : Z;
  uploadOptions : list TransferOption;
}.

Definition validateMetadataLimits (maxEntries maxBytes : Z) : option error :=
  if maxEntries <=? 0 then Some (NewError "s3: maximum metadata entries must be positive")
  else if maxBytes <=? 0 then Some (NewError "s3: maximum metadata bytes must be positive")
  else None.

Definition positiveListLimit (limit : Z) : bool := limit >? 0.

Inductive Option :=
  | WithMetadataLimits (maxEntries maxBytes : Z)
  | WithPrefix (prefix : bytes)
  | WithMaxListEntries (limit : Z)
  | WithTransferOptions (options : list TransferOption).

Definition apply_option (o : Option) (c : config) : result config :=
  match o with
  | WithMetadataLimits maxEntries maxBytes =>
      match validateMetadataLimits maxEntries maxBytes with
      | Some err => Err err
      | None => Ok (mkConfig (adapterName c) (bucket c) (prefix c) (maxList c) maxEntries maxBytes
                      (uploadOptions c))
      end
  | WithPrefix prefix =>
      Ok (mkConfig (adapterName c) (bucket c) prefix (maxList c) (maxMetadataEntries c)
            (maxMetadataBytes c) (uploadOptions c))
  | WithMaxListEntries limit =>
      if negb (positiveListLimit limit) then
        Err (NewError "s3: maximum list entries must be positive")
      else Ok (mkConfig (adapterName c) (bucket c) (prefix c) limit (maxMetadataEntries c)
                 (maxMetadataBytes c) (uploadOptions c))
  | WithTransferOptions options =>
      Ok (mkConfig (adapterName c) (bucket c) (prefix c) (maxList c) (maxMetadataEntries c)
            (maxMetadataBytes c) (uploadOptions c ++ options))
  end.

Fixpoint apply_options (options : list Option) (c : config) : result config :=
  match options with
  | [] => Ok c
  | o :: rest => result_bind (apply_option o c) (apply_options rest)
  end.

(** ** The SDK *)

Record HeadObjectOutput := mkHeadObjectOutput {
  hContentLength : option Z;
  hLastModified : option Z;
  hETag : option bytes;
  hContentType : option bytes;
  hMetadata : stringmap;
}.

Record UploadObjectInput := mkUploadObjectInput {
  uBucket : bytes;
  uKey : bytes;
  uBody : reader;
  uContentType : option bytes;
  uMetadata : stringmap;
  uIfNoneMatch : option bytes;
}.

Record CopyObjectInput := mkCopyObjectInput {
  cBucket : bytes;
  cKey : bytes;
  cCopySource : bytes;
  cMetadata : stringmap;
  cReplaceMetadata : bool;
  cContentType : option bytes;
}.

Record ListObjectsV2Input := mkListObjectsV2Input {
  lBucket : bytes;
  lPrefix : option bytes;
  lMaxKeys : Z;
  lDelimiter : option bytes;
  lContinuationToken : option bytes;
}.

Record ListedObject := mkListedObject {
  oKey : option bytes;
  oSize : option Z;
  oLastModified : option Z;
}.

Record ListObjectsV2Output := mkListObjectsV2Output {
  Contents : list ListedObject;
  CommonPrefixes : list (option bytes);
  IsTruncated : option bool;
  NextContinuationToken : option bytes;
}.

(** The [Range] header [bytes=lo-hi]. *)
Record RangeHeader := mkRangeHeader { range_first : Z; range_last : Z }.

(** The signed request: the attachment's file name stands for the rendered
    [Content-Disposition]. *)
Record PresignInput := mkPresignInput {
  pBucket : bytes;
  pKey : bytes;
  pAttachment : option bytes;
  pContentType : option bytes;
  pExpires : Z;
}.

Record Clients (S : Type) := mkClients {
  GetObject : context → bytes → bytes → option RangeHeader → M S stream;
  HeadObject : context → bytes → bytes → M S HeadObjectOutput;
  DeleteObject : context → bytes → bytes → M S unit;
  CopyObject : context → CopyObjectInput → M S unit;
  ListObjectsV2 : context → ListObjectsV2Input → M S ListObjectsV2Output;
  UploadObject : context → UploadObjectInput → list TransferOption → M S unit;
  PresignGetObject : context → PresignInput → M S bytes;
}.
Arguments GetObject {_}.
Arguments HeadObject {_}.
Arguments DeleteObject {_}.
Arguments CopyObject {_}.
Arguments ListObjectsV2 {_}.
Arguments UploadObject {_}.
Arguments PresignGetObject {_}.
Arguments mkClients {_}.

(** ** Construction *)

Record Adapter (S : Type) := mkAdapter {
  clients : Clients S;
  settings : config;
  adapter_capabilities : CapabilitySet;
}.
Arguments clients {_}.
Arguments settings {_}.
Arguments adapter_capabilities {_}.
Arguments mkAdapter {_}.

Definition capabilities : list Capability :=
  [CapabilityRead; CapabilityWrite; CapabilityStreamingWrite; CapabilityDelete; CapabilityList;
   CapabilityStat; CapabilityCopy; CapabilityRangeRead; CapabilityMetadata;
   CapabilityTemporaryURL; CapabilityMultipart].

(** [None] stands for a nil client among the three. *)
Definition newAdapter {S} (client : option (Clients S)) (c : config) : result (Adapter S) :=
  match client with
  | None => Err (NewError "s3: object, upload, and presign clients are required")
  | Some client =>
      if blank (bucket c) then Err (NewError "s3: bucket is required")
      else if maxList c <=? 0 then Err (NewError "s3: maximum list entries must be positive")
      else
        let unset := (maxMetadataEntries c =? 0) && (maxMetadataBytes c =? 0) in
        let maxEntries := if unset then defaultMaxMetadataEntries else maxMetadataEntries c in
        let maxBytes := if unset then defaultMaxMetadataBytes else maxMetadataBytes c in
        match validateMetadataLimits maxEntries maxBytes with
        | Some err => Err err
        | None =>
            if decide (adapterName c ≠ bs "s3" ∧ adapterName c ≠ bs "r2") then
              Err (Errorf "s3: invalid adapter profile %q" [] [FStr (adapterName c)])
            else
              result_bind
                (if decide (prefix c = []) then Ok []
                 else match ParsePath (prefix c) with
                      | Ok p => Ok (value p)
                      | Err err => Err (Errorf "s3: invalid prefix: %w" [err] [])
                      | Panic m => Panic m
                      end)
                (λ prefix,
                  result_map
                    (mkAdapter client
                       (mkConfig (adapterName c) (bucket c) prefix (maxList c) maxEntries maxBytes
                          (uploadOptions c)))
                    (NewCapabilitySet capabilities))
        end
  end.

(** [New] and [NewR2Transport] differ in the profile's name. *)
Definition new_profile {S} (name : bytes) (missing : error) (client : option (Clients S))
    (bucket : bytes) (options : list Option) : result (Adapter S) :=
  match client with
  | None => Err missing
  | Some _ =>
      result_bind
        (apply_options options
           (mkConfig name bucket [] 10000 defaultMaxMetadataEntries defaultMaxMetadataBytes []))
        (newAdapter client)
  end.

Definition New {S} (client : option (Clients S)) (bucket : bytes) (options : list Option)
    : result (Adapter S) :=
  new_profile (bs "s3") (NewError "s3: client is required") client bucket options.

Definition NewR2Transport {S} (client : option (Clients S)) (bucket : bytes)
    (options : list Option) : result (Adapter S) :=
  new_profile (bs "r2") (NewError "r2: client is required") client bucket options.

(** ** Helpers *)

Definition key (prefix : bytes) (logicalPath : Path) : bytes :=
  if decide (prefix = []) then value logicalPath else prefix ++ slash :: value logicalPath.

(** [None] is the answer [false]. *)
Definition logicalPath (prefix key : bytes) (directory : bool) : option Path :=
  let key := if directory then TrimSuffix key [slash] else key in
  let stripped :=
    if decide (prefix = []) then Some key
    else
      let prefix := prefix ++ [slash] in
      if negb (HasPrefix key prefix) then None else Some (TrimPrefix key prefix) in
  match stripped with
  | None => None
  | Some key => match ParsePath key with Ok p => Some p | _ => None end
  end.

Definition optionalString (value : bytes) : option bytes :=
  if decide (value = []) then None else Some value.

Definition inclusiveRangeEnd (byteRange : ByteRange) : option Z :=
  if (Offset byteRange <? 0) || (Length byteRange <=? 0) then None
  else if wrap64 (Length byteRange - 1) >? wrap64 (MaxInt64 - Offset byteRange) then None
  else Some (wrap64 (wrap64 (Offset byteRange + Length byteRange) - 1)).

Definition effectiveListLimit (requested maximum : Z) : Z :=
  if requested =? 0 then maximum else Z.min requested maximum.

(** The sum does not depend on the order in which the map is ranged over. *)
Definition metadataSize (m : gmap bytes bytes) : Z :=
  map_fold (λ k v size, wrap64 (size + (len k + len v))) 0 m.

Definition paginationComplete (output : ListObjectsV2Output) : bool :=
  if negb (default false (IsTruncated output)) then true
  else bool_decide (NextContinuationToken output = None).

(** Conversion to [int32]. *)
Definition wrap32 (z : Z) : Z := (z + 2 ^ 31) mod 2 ^ 32 - 2 ^ 31.
Definition pageSize (limit collected : Z) : Z := wrap32 (Z.min (limit - collected) 1000).

Definition validTemporaryURLLifetime (lifetime : Z) : bool :=
  (lifetime >? 0) && (lifetime <=? maximumTemporaryURLLifetime).

Definition newIterator (entries : list Entry) : Iterator.iterator :=
  Iterator.newIterator (SortFunc (λ e, value (ePath e)) entries).

(** ** Operations *)

Section adapter.
(** [ErrorCode] is [errors.As] to an API error and its code; [sanitized] is the
    text [redact.Error] gives an error, the [message] of [Redact.v]. *)
Context {S : Type} (a : Adapter S) (ErrorCode : error → option bytes)
  (sanitized : error → bytes).

Local Abbreviation cfg := (settings a) (only parsing).
Local Abbreviation keyOf p := (key (prefix (settings a)) p) (only parsing).

(** [redact.Error]: another text, the same cause. *)
Definition redact_Error (err : error) : error := Errorf "%s" [err] [FStr (sanitized err)].

Definition mapError (path : Path) (err : error) : error :=
  if Is err Canceled then err
  else if Is err DeadlineExceeded then err
  else match ErrorCode err with
       | Some c =>
           if decide (c ∈ [bs "NoSuchKey"; bs "NotFound"; bs "NoSuchBucket"]) then
             Errorf "%w: %s" [Sentinel ErrNotFound] [FStr (value path)]
           else if decide (c = bs "PreconditionFailed") then
             Errorf "%w: %s" [Sentinel ErrPreconditionFailed] [FStr (value path)]
           else if decide (c ∈ [bs "InvalidRange"; bs "RequestedRangeNotSatisfiable"]) then
             Errorf "%w: %s" [Sentinel ErrInvalidRange] [FStr (value path)]
           else redact_Error err
       | None => redact_Error err
       end.

(** [m], with a failure mapped. *)
Definition mapped {A} (path : Path) (m : M S A) : M S A :=
  let! r := attempt m in
  match r with inl x => ret x | inr err => throw (mapError path err) end.

Definition cloneMetadata (source : stringmap) : result stringmap :=
  match source with
  | None => Ok None
  | Some m =>
      if Z.of_nat (size m) >? maxMetadataEntries cfg then
        Err (Errorf "%w: %s metadata has %d entries, maximum %d" [Sentinel ErrResourceLimit]
               [FStr (adapterName cfg); FInt (Z.of_nat (size m)); FInt (maxMetadataEntries cfg)])
      else if metadataSize m >? maxMetadataBytes cfg then
        Err (Errorf "%w: %s metadata exceeds %d bytes" [Sentinel ErrResourceLimit]
               [FStr (adapterName cfg); FInt (maxMetadataBytes cfg)])
      else Ok (Some m)
  end.

Definition Capabilities : CapabilitySet := adapter_capabilities a.

Definition Open (ctx : context) (path : Path) : M S stream :=
  mapped path (GetObject (clients a) ctx (bucket cfg) (keyOf path) None).

Definition OpenRange (ctx : context) (path : Path) (byteRange : ByteRange) : M S stream :=
  match inclusiveRangeEnd byteRange with
  | None => throw (Errorf "%w: offset=%d length=%d" [Sentinel ErrInvalidRange]
                     [FInt (Offset byteRange); FInt (Length byteRange)])
  | Some last =>
      mapped path (GetObject (clients a) ctx (bucket cfg) (keyOf path)
                     (Some (mkRangeHeader (Offset byteRange) last)))
  end.

Definition Stat (ctx : context) (path : Path) : M S Metadata :=
  let! output := mapped path (HeadObject (clients a) ctx (bucket cfg) (keyOf path)) in
  let! metadata := lift_result (cloneMetadata (hMetadata output)) in
  ret (mkMetadata path EntryKindFile (default 0 (hContentLength output))
         (default 0 (hLastModified output)) (Trim (default [] (hETag output)) (ascii_of_Z 34))
         (default [] (hContentType output)) metadata []).

Definition Write (ctx : context) (path : Path) (source : reader) (options : WriteOptions)
    : M S Metadata :=
  if IsRoot path then throw (Errorf "%w: object path is root" [Sentinel ErrInvalidPath] [])
  else
    let! metadata := lift_result (cloneMetadata (wMetadata options)) in
    let input := mkUploadObjectInput (bucket cfg) (keyOf path) source
                   (optionalString (wContentType options)) metadata
                   (if wIfNoneMatch options then Some (bs "*") else None) in
    do! mapped path (UploadObject (clients a) ctx input (uploadOptions cfg)) in
    do! check_ctx ctx in
    Stat ctx path.

Definition OpenWriter (ctx : context) (path : Path) (options : WriteOptions) : M S (writer S) :=
  do! check_ctx ctx in
  if IsRoot path then throw (Errorf "%w: object path is root" [Sentinel ErrInvalidPath] [])
  else ret (λ source, do! Write ctx path source options in ret tt).

Definition Delete (ctx : context) (path : Path) : M S unit :=
  mapped path (DeleteObject (clients a) ctx (bucket cfg) (keyOf path)).

(** The two inner loops of [List]: the entries collected, and whether the limit
    was reached. *)
Fixpoint add_contents (limit : Z) (objects : list ListedObject) (entries : list Entry)
    : list Entry * bool :=
  match objects with
  | [] => (entries, false)
  | o :: rest =>
      match logicalPath (prefix cfg) (default [] (oKey o)) false with
      | None => add_contents limit rest entries
      | Some p =>
          let entries := entries ++ [mkEntry p EntryKindFile (default 0 (oSize o))
                                       (default 0 (oLastModified o))] in
          if len entries >=? limit then (entries, true) else add_contents limit rest entries
      end
  end.

Fixpoint add_prefixes (limit : Z) (prefixes : list (option bytes)) (entries : list Entry)
    : list Entry * bool :=
  match prefixes with
  | [] => (entries, false)
  | commonPrefix :: rest =>
      match logicalPath (prefix cfg) (default [] commonPrefix) true with
      | None => add_prefixes limit rest entries
      | Some p =>
          let entries := entries ++ [mkEntry p EntryKindDirectory 0 0] in
          if len entries >=? limit then (entries, true) else add_prefixes limit rest entries
      end
  end.

(** The paging loop, with at most [fuel] requests. *)
Fixpoint list_pages (fuel : nat) (ctx : context) (directory : Path) (limit : Z)
    (input : ListObjectsV2Input) (entries : list Entry) : M S (list Entry) :=
  match fuel with
  | O => panic "out of fuel"
  | Datatypes.S fuel' =>
      let! output := mapped directory (ListObjectsV2 (clients a) ctx input) in
      let '(entries, full) := add_contents limit (Contents output) entries in
      if (full : bool) then ret entries
      else
        let '(entries, full) := add_prefixes limit (CommonPrefixes output) entries in
        if (full : bool) then ret entries
        else if paginationComplete output then ret entries
        else
          let input := mkListObjectsV2Input (lBucket input) (lPrefix input)
                         (pageSize limit (len entries)) (lDelimiter input)
                         (NextContinuationToken output) in
          list_pages fuel' ctx directory limit input entries
  end.

Definition list_prefix (directory : Path) : bytes :=
  let prefix := if negb (IsRoot directory) then keyOf directory else prefix cfg in
  if decide (prefix = []) then [] else prefix ++ [slash].

(** The first request. *)
Definition list_input (directory : Path) (options : ListOptions) (limit : Z)
    : ListObjectsV2Input :=
  mkListObjectsV2Input (bucket cfg) (optionalString (list_prefix directory))
    (wrap32 (Z.min limit 1000)) (if negb (Recursive options) then Some [slash] else None) None.

(** [make([]filesystem.Entry, 0, limit)] on a 64-bit platform: an [Entry] takes 64
    bytes, and the runtime panics when the capacity exceeds its 48-bit address space. *)
Definition entry_size : Z := 64.
Definition maxAlloc : Z := 2 ^ 48.

Definition make_entries (limit : Z) : M S (list Entry) :=
  if (limit <? 0) || (entry_size * limit >? maxAlloc) then panic "makeslice: cap out of range" else ret [].

Definition ListEntries (fuel : nat) (ctx : context) (directory : Path) (options : ListOptions)
    : M S Iterator.iterator :=
  if Limit options <? 0 then throw (NewError "s3: list limit must not be negative")
  else
    let limit := effectiveListLimit (Limit options) (maxList cfg) in
    let! entries := make_entries limit in
    let! entries := list_pages fuel ctx directory limit (list_input directory options limit) entries in
    ret (newIterator entries).

Definition Copy (ctx : context) (source destination : Path) (options : CopyOptions) : M S unit :=
  if negb (cOverwrite options) then
    throw (Unsupported (adapterName cfg) CapabilityCopy OperationCopy)
  else
    let copySource := PathEscape (bucket cfg ++ slash :: keyOf source) in
    mapped source (CopyObject (clients a) ctx
      (mkCopyObjectInput (bucket cfg) (keyOf destination) copySource None false None)).

Definition Move (ctx : context) (source destination : Path) (options : MoveOptions) : M S unit :=
  throw (Unsupported (adapterName cfg) CapabilityMove OperationMove).

Definition SetMetadata (ctx : context) (path : Path) (metadata : stringmap) : M S unit :=
  let! bounded := lift_result (cloneMetadata metadata) in
  let! current := Stat ctx path in
  mapped path (CopyObject (clients a) ctx
    (mkCopyObjectInput (bucket cfg) (keyOf path) (PathEscape (bucket cfg ++ slash :: keyOf path))
       bounded true (optionalString (mContentType current)))).

Definition ChecksumOf (ctx : context) (path : Path) (algorithm : ChecksumAlgorithm)
    : M S Checksum :=
  throw (Unsupported (adapterName cfg) CapabilityChecksum OperationChecksum).

Definition TemporaryURL (ctx : context) (path : Path) (lifetime : Z)
    (options : TemporaryURLOptions) : M S bytes :=
  if negb (validTemporaryURLLifetime lifetime) then
    throw (Errorf "s3: temporary URL lifetime must be between 1ns and %s" []
             [FInt maximumTemporaryURLLifetime])
  else if bool_decide (DownloadName options ≠ []) && has_control (DownloadName options) then
    throw (NewError "s3: download name contains a control character")
  else
    mapped path (PresignGetObject (clients a) ctx
      (mkPresignInput (bucket cfg) (keyOf path) (optionalString (DownloadName options))
         (optionalString (tContentType options)) lifetime)).

Definition VisibilityOf (ctx : context) (path : Path) : M S Visibility :=
  throw (Unsupported (adapterName cfg) CapabilityVisibility OperationVisibility).

Definition SetVisibility (ctx : context) (path : Path) (visibility : Visibility) : M S unit :=
  throw (Unsupported (adapterName cfg) CapabilityVisibility OperationSetVisibility).
End adapter.
