(* ===== verification/S3Spec.v ===== *)
(** * What the S3 adapter guarantees: [s3/s3.go]

    Keys, byte ranges, construction and paged listings, for any SDK clients. *)

From S2P Require Import Prelude GoStrings Errors Effects Paths Capability Contracts Iterator Digest S3.

(** ** Byte ranges *)

Lemma wrap64_shift z : ∃ k, wrap64 z = z + k * 2 ^ 64.
Proof.
  exists (- ((z + 2 ^ 63) / 2 ^ 64)). unfold wrap64.
  pose proof (Z.div_mod (z + 2 ^ 63) (2 ^ 64)). lia.
Qed.

Lemma wrap64_sub1 z : wrap64 (wrap64 z - 1) = wrap64 (z - 1).
Proof.
  destruct (wrap64_shift z) as [k ->].
  replace (z + k * 2 ^ 64 - 1) with (z - 1 + k * 2 ^ 64) by lia. apply wrap64_periodic.
Qed.

(** The last byte of a requested range is exact: for every 64-bit offset and
    length, [inclusiveRangeEnd] answers [offset + length - 1] when the offset is
    not negative, the length is positive and that last byte is representable, and
    refuses otherwise; although [offset + length] itself may wrap around, the
    answer never does. *)
Theorem inclusiveRangeEnd_exact r :
  is_int64 (Offset r) → is_int64 (Length r) →
  inclusiveRangeEnd r =
  if decide (0 ≤ Offset r ∧ 0 < Length r ∧ Offset r + Length r - 1 ≤ MaxInt64)
  then Some (Offset r + Length r - 1) else None.
Proof.
  intros Ho Hl. unfold inclusiveRangeEnd.
  destruct (_ || _) eqn:Hbad.
  { rewrite decide_False; [done|]. apply orb_true_iff in Hbad. lia. }
  apply orb_false_iff in Hbad as [Hoff Hlen]. unfold is_int64, MaxInt64 in *.
  rewrite !(wrap64_id (_ - _)) by (unfold is_int64, MaxInt64; lia).
  destruct (_ >? _) eqn:Hgt; rewrite Z.gtb_ltb in Hgt.
  - rewrite decide_False by lia. done.
  - rewrite decide_True by lia. f_equal. rewrite wrap64_sub1.
    apply wrap64_id. unfold is_int64, MaxInt64. lia.
Qed.

Lemma inclusiveRangeEnd_exact_witness :
  inclusiveRangeEnd (mkByteRange MaxInt64 1) = Some MaxInt64.
Proof.
  transitivity (if decide (0 ≤ MaxInt64 ∧ 0 < 1 ∧ MaxInt64 + 1 - 1 ≤ MaxInt64)
                then Some (MaxInt64 + 1 - 1) else None).
  - apply (inclusiveRangeEnd_exact (mkByteRange MaxInt64 1)); unfold is_int64, MaxInt64; simpl; lia.
  - vm_compute. reflexivity.
Defined.

(** ** Keys *)

Lemma logicalPath_parsed pre k d p :
  S3.logicalPath pre k d = Some p → wf_path p ∧ p ≠ Root.
Proof.
  unfold S3.logicalPath. case_match; [|done].
  destruct (ParsePath_cases l) as [(segs & -> & Hne & Hok)|(e & -> & _)]; [|done].
  intros [= <-]. split; [by auto with paths|].
  rewrite <- segments_nil. by rewrite segments_ofSegments by apply Hok.
Qed.

(** Logical paths and object keys round trip under any prefix: the key
    of a parsed path is read back as that path, with or without the trailing
    slash of a common prefix; two paths never share a key; and whatever key the
    service lists, a path the adapter accepts is a parsed path whose own key lies
    below the configured prefix. *)
Theorem s3_keys pre p :
  wf_path p → p ≠ Root →
  S3.logicalPath pre (key pre p) false = Some p ∧
  S3.logicalPath pre (key pre p ++ [slash]) true = Some p ∧
  (∀ q, key pre q = key pre p → q = p) ∧
  (∀ k d q, S3.logicalPath pre k d = Some q →
     wf_path q ∧ q ≠ Root ∧ HasPrefix (key pre q) (if decide (pre = []) then [] else pre ++ [slash]) = true).
Proof.
  intros Hp Hr.
  assert (Hlog : S3.logicalPath pre (key pre p) false = Some p).
  { unfold S3.logicalPath, key. simpl. case_decide as Hd; [by rewrite ParsePath_String|].
    replace (pre ++ slash :: value p) with ((pre ++ [slash]) ++ value p) by (by rewrite <- app_assoc).
    rewrite HasPrefix_app, TrimPrefix_app. simpl. by rewrite ParsePath_String. }
  split_and!; [done| | |].
  - unfold S3.logicalPath in *. by rewrite TrimSuffix_app.
  - intros q. unfold key. case_decide; intros E.
    + destruct p, q. simpl in E. by subst.
    + apply app_inv_head in E. destruct p, q. simpl in E. by simplify_eq.
  - intros k d q Hq. destruct (logicalPath_parsed _ _ _ _ Hq) as [Hw Hne].
    split_and!; [done..|]. unfold key. case_decide; [by destruct (value q)|].
    replace (pre ++ slash :: value q) with ((pre ++ [slash]) ++ value q) by (by rewrite <- app_assoc).
    apply HasPrefix_app.
Qed.

Lemma s3_keys_witness :
  S3.logicalPath (bs "tenant") (key (bs "tenant") (mkPath (bs "a/b"))) false = Some (mkPath (bs "a/b")) ∧
  S3.logicalPath (bs "tenant") (key (bs "tenant") (mkPath (bs "a/b")) ++ [slash]) true
    = Some (mkPath (bs "a/b")) ∧
  (∀ q, key (bs "tenant") q = key (bs "tenant") (mkPath (bs "a/b")) → q = mkPath (bs "a/b")) ∧
  (∀ k d q, S3.logicalPath (bs "tenant") k d = Some q →
     wf_path q ∧ q ≠ Root ∧
     HasPrefix (key (bs "tenant") q)
       (if decide (bs "tenant" = []) then [] else bs "tenant" ++ [slash]) = true).
Proof.
  apply (s3_keys (bs "tenant") (mkPath (bs "a/b"))); [decide_now|done].
Defined.

(** A listing is ambiguous for keys the adapter did not write: distinct
    objects whose keys differ in empty or dot segments or in the separator are
    listed under one logical path, and opening that path reads another key. *)
Theorem listed_keys_ambiguous :
  let p := mkPath (bs "a/b") in
  S3.logicalPath (bs "tenant") (bs "tenant/a//b") false = Some p ∧
  S3.logicalPath (bs "tenant") (bs "tenant/./a/b") false = Some p ∧
  S3.logicalPath (bs "tenant") (bs "tenant/a\b") false = Some p ∧
  key (bs "tenant") p = bs "tenant/a/b".
Proof. by vm_compute. Qed.

(** ** Construction *)

(** The configuration of a constructed adapter. *)
Definition valid_settings (c : config) : Prop :=
  blank (bucket c) = false ∧ 0 < maxList c ∧ 0 < maxMetadataEntries c ∧ 0 < maxMetadataBytes c ∧
  (adapterName c = bs "s3" ∨ adapterName c = bs "r2") ∧
  (prefix c = [] ∨ ∃ p, wf_path p ∧ p ≠ Root ∧ prefix c = value p).

Lemma newAdapter_valid {S} (client : option (Clients S)) c :
  match newAdapter client c with
  | Ok a => valid_settings (settings a) ∧ client = Some (clients a) ∧
            ∀ cap, Supports (adapter_capabilities a) cap = bool_decide (cap ∈ S3.capabilities)
  | Err _ => True
  | Panic _ => False
  end.
Proof.
  unfold newAdapter. destruct client as [client|]; [|done].
  destruct (blank (bucket c)) eqn:Hb; [done|]. destruct (maxList c <=? 0) eqn:Hm; [done|].
  cbv zeta. set (unset := (maxMetadataEntries c =? 0) && (maxMetadataBytes c =? 0)).
  set (entries := if unset then defaultMaxMetadataEntries else maxMetadataEntries c).
  set (nbytes := if unset then defaultMaxMetadataBytes else maxMetadataBytes c).
  unfold validateMetadataLimits. destruct (entries <=? 0) eqn:He; [done|].
  destruct (nbytes <=? 0) eqn:Hn; [done|]. case_decide as Hname; [done|].
  rewrite NewCapabilitySet_known by decide_now.
  assert (Hsup : ∀ cap, Supports (set_of S3.capabilities) cap = bool_decide (cap ∈ S3.capabilities))
    by apply Supports_set_of.
  assert (Hnames : adapterName c = bs "s3" ∨ adapterName c = bs "r2").
  { destruct (decide (adapterName c = bs "s3")); [by left|].
    destruct (decide (adapterName c = bs "r2")); [by right|]. by destruct Hname. }
  assert (0 < maxList c ∧ 0 < entries ∧ 0 < nbytes) as (? & ? & ?) by lia.
  clearbody entries nbytes. destruct (decide (prefix c = [])) as [Hp|Hp]; simpl.
  - split_and!; [|done|done]. unfold valid_settings. simpl. split_and!; auto.
  - destruct (ParsePath_cases (prefix c)) as [(segs & Hs & Hne & Hok)|(e & He' & _)];
      [rewrite Hs|by rewrite He']. simpl.
    split_and!; [|done|done]. unfold valid_settings. simpl. split_and!; auto.
    right. exists (ofSegments segs). split_and!; [by auto with paths| |done].
    rewrite <- segments_nil. by rewrite segments_ofSegments by apply Hok.
Qed.

(** Construction validates everything the operations rely on: whatever the
    client, bucket and options, [New] and [NewR2Transport] do not panic, and an
    adapter they return has a non-blank bucket, positive list and metadata limits,
    a known profile name, a prefix that is empty or the text of a parsed path, and
    exactly the declared capabilities, which do not include [Move]. *)
Theorem s3_New_validates {S} (client : option (Clients S)) bucket options :
  Forall (λ r, match r with
    | Ok a => valid_settings (settings a) ∧
              (∀ cap, Supports (adapter_capabilities a) cap = bool_decide (cap ∈ S3.capabilities)) ∧
              Supports (adapter_capabilities a) CapabilityMove = false
    | Err _ => True
    | Panic _ => False
    end) [New client bucket options; NewR2Transport client bucket options].
Proof.
  assert (Hopt : ∀ c m, apply_options options c ≠ Panic m).
  { induction options as [|o rest IH]; intros c m; simpl; [done|].
    destruct o; simpl; repeat case_match; simpl; (done || apply IH). }
  assert (Hprof : ∀ name missing, match new_profile name missing client bucket options with
    | Ok a => valid_settings (settings a) ∧
              (∀ cap, Supports (adapter_capabilities a) cap = bool_decide (cap ∈ S3.capabilities)) ∧
              Supports (adapter_capabilities a) CapabilityMove = false
    | Err _ => True
    | Panic _ => False
    end).
  { intros name missing. unfold new_profile. destruct client as [client|]; [|done].
    destruct (apply_options _ _) as [c|e|m] eqn:Ho; cbn [result_bind];
      [|done|by apply Hopt in Ho].
    pose proof (newAdapter_valid (Some client) c) as Hv.
    destruct (newAdapter (Some client) c) as [a| |]; [|done..].
    destruct Hv as (Hset & _ & Hcap). split_and!; [done..|]. rewrite Hcap. by vm_compute. }
  repeat constructor; apply Hprof.
Qed.

(** ** Paged listings *)

(** The entries of one response, in order. *)
Definition content_entry (pre : bytes) (o : ListedObject) : option Entry :=
  (λ p, mkEntry p EntryKindFile (default 0 (oSize o)) (default 0 (oLastModified o)))
    <$> S3.logicalPath pre (default [] (oKey o)) false.
Definition prefix_entry (pre : bytes) (p : option bytes) : option Entry :=
  (λ q, mkEntry q EntryKindDirectory 0 0) <$> S3.logicalPath pre (default [] p) true.
Definition page_entries (pre : bytes) (output : ListObjectsV2Output) : list Entry :=
  omap (content_entry pre) (Contents output) ++ omap (prefix_entry pre) (CommonPrefixes output).

(** A service together with a log of its listing requests and answers. *)
Abbreviation request_log := (list (ListObjectsV2Input * result ListObjectsV2Output)).

Definition lifted {S L A} (m : M S A) : M (L * S) A := λ t w,
  let '(r, (t', s')) := m t w.2 in (r, (t', (w.1, s'))).

Definition logged {S} (c : Clients S) : Clients (request_log * S) :=
  mkClients (λ ctx b k r, lifted (GetObject c ctx b k r)) (λ ctx b k, lifted (HeadObject c ctx b k))
    (λ ctx b k, lifted (DeleteObject c ctx b k)) (λ ctx i, lifted (CopyObject c ctx i))
    (λ ctx i t w, let '(r, (t', s')) := ListObjectsV2 c ctx i t w.2 in
                  (r, (t', (w.1 ++ [(i, r)], s'))))
    (λ ctx i o, lifted (UploadObject c ctx i o)) (λ ctx i, lifted (PresignGetObject c ctx i)).

Definition with_log {S} (a : Adapter S) : Adapter (request_log * S) :=
  S3.mkAdapter (logged (clients a)) (settings a) (adapter_capabilities a).

(** The answers in a log, and what they contain. *)
Definition answers (log : request_log) : list ListObjectsV2Output :=
  omap (λ x, match x.2 with Ok output => Some output | _ => None end) log.

(** Collecting decoded entries up to a limit. *)
Fixpoint add_all {X} (f : X → option Entry) (limit : Z) (xs : list X) (entries : list Entry)
    : list Entry * bool :=
  match xs with
  | [] => (entries, false)
  | x :: rest =>
      match f x with
      | None => add_all f limit rest entries
      | Some e =>
          let entries := entries ++ [e] in
          if len entries >=? limit then (entries, true) else add_all f limit rest entries
      end
  end.

Lemma add_all_spec {X} (f : X → option Entry) limit xs entries :
  len entries < limit →
  add_all f limit xs entries =
    (take (Z.to_nat limit) (entries ++ omap f xs), limit <=? len (entries ++ omap f xs)).
Proof.
  revert entries. induction xs as [|x rest IH]; intros entries Hl; csimpl.
  { rewrite app_nil_r, take_ge by (unfold len in Hl; lia).
    by rewrite (proj2 (Z.leb_gt limit (len entries))) by lia. }
  destruct (f x) as [e|]; [|by apply IH]. rewrite Z.geb_leb.
  replace (entries ++ e :: omap f rest) with ((entries ++ [e]) ++ omap f rest)
    by (by rewrite <- app_assoc).
  destruct (limit <=? len (entries ++ [e])) eqn:Hfull; [|apply IH; lia].
  apply Z.leb_le in Hfull. unfold len in *. rewrite length_app in Hfull. simpl in Hfull.
  rewrite take_app_le, take_ge by (rewrite ?length_app; simpl; lia).
  rewrite (proj2 (Z.leb_le limit _)); [done|]. rewrite !length_app. simpl. lia.
Qed.

Lemma add_contents_all {S} (a : Adapter S) limit xs entries :
  add_contents a limit xs entries = add_all (content_entry (prefix (settings a))) limit xs entries.
Proof.
  revert entries. induction xs as [|x rest IH]; intros entries; simpl; [done|].
  unfold content_entry at 1. destruct (S3.logicalPath _ _ false); simpl; [|done].
  case_match; [done|apply IH].
Qed.

Lemma add_prefixes_all {S} (a : Adapter S) limit xs entries :
  add_prefixes a limit xs entries = add_all (prefix_entry (prefix (settings a))) limit xs entries.
Proof.
  revert entries. induction xs as [|x rest IH]; intros entries; simpl; [done|].
  unfold prefix_entry at 1. destruct (S3.logicalPath _ _ true); simpl; [|done].
  case_match; [done|apply IH].
Qed.

(** One item of a bucket's listing: an object, or a common prefix. *)
Abbreviation listed_item := (ListedObject + option bytes)%type (only parsing).

Definition item_object (x : listed_item) : option ListedObject :=
  match x with inl o => Some o | inr _ => None end.
Definition item_prefix (x : listed_item) : option (option bytes) :=
  match x with inl _ => None | inr p => Some p end.
Definition item_entry (pre : bytes) (x : listed_item) : option Entry :=
  match x with inl o => content_entry pre o | inr p => prefix_entry pre p end.

(** What [ListObjectsV2] documents of a bucket that nobody changes meanwhile.  The
    listing of a bucket, prefix and delimiter is a list of items; a continuation token
    stands for the items after a point of it, no token for all of them; an answer holds
    the next items, at most [MaxKeys] of them, and is truncated, with at least one item
    and the token for what follows, exactly when items are left.  A request may fail. *)
Class PagedListing {S : Type} (C : Clients S) (s : S) := {
  listing_items : bytes → option bytes → option bytes → list listed_item;
  items_after : bytes → option bytes → option bytes → option bytes → list listed_item;
  items_after_none b p d : items_after b p d None = listing_items b p d;
  page_law ctx i t :
    1 ≤ lMaxKeys i →
    let rest := items_after (lBucket i) (lPrefix i) (lDelimiter i) (lContinuationToken i) in
    let '(r, (_, s')) := ListObjectsV2 C ctx i t s in
    s' = s ∧
    match r with
    | Ok output => ∃ n, Z.of_nat n ≤ lMaxKeys i ∧
        Contents output = omap item_object (take n rest) ∧
        CommonPrefixes output = omap item_prefix (take n rest) ∧
        if bool_decide (drop n rest = []) then IsTruncated output = Some false
        else IsTruncated output = Some true ∧ (0 < n)%nat ∧
          ∃ token, NextContinuationToken output = Some token ∧
            items_after (lBucket i) (lPrefix i) (lDelimiter i) (Some token) = drop n rest
    | Err _ => True
    | Panic _ => False
    end;
}.

Lemma page_items pre (items : list listed_item) :
  omap (content_entry pre) (omap item_object items) ++ omap (prefix_entry pre) (omap item_prefix items)
    ≡ₚ omap (item_entry pre) items.
Proof.
  induction items as [|[o|p] items IH]; csimpl; [done| |].
  - destruct (content_entry pre o); simpl; by rewrite IH.
  - destruct (prefix_entry pre p); simpl; [|by rewrite IH]. by rewrite <- Permutation_middle, IH.
Qed.

Lemma omap_length_le {X Y} (f : X → option Y) l : (length (omap f l) <= length l)%nat.
Proof. induction l as [|x l IH]; csimpl; [lia|]. destruct (f x); simpl; lia. Qed.

Section listing.
Context {S : Type} (a : Adapter S) (ErrorCode : error → option bytes) (sanitized : error → bytes).
Local Abbreviation pre := (prefix (settings a)) (only parsing).
Local Abbreviation pages := (list_pages (with_log a) ErrorCode sanitized) (only parsing).

(** Every request asks for between 1 and 1000 keys of the same listing. *)
Definition request_ok (first : ListObjectsV2Input) (i : ListObjectsV2Input) : Prop :=
  1 ≤ lMaxKeys i ≤ 1000 ∧ lBucket i = lBucket first ∧ lPrefix i = lPrefix first ∧
  lDelimiter i = lDelimiter first.

(** The first request carries [token], and each later one the token of the answer before it. *)
Fixpoint tokens_follow (token : option bytes) (log : request_log) : Prop :=
  match log with
  | [] => True
  | (i, r) :: rest => lContinuationToken i = token ∧
      match r with
      | Ok output => tokens_follow (NextContinuationToken output) rest
      | _ => rest = []
      end
  end.

(** What a listing of [items] that made the requests [log] returned. *)
Definition list_outcome (directory : Path) (limit : Z) (items : list listed_item) (log : request_log)
    (r : result (list Entry)) : Prop :=
  match r with
  | Ok es => es ≡ₚ take (Z.to_nat limit) (omap (item_entry pre) items)
  | Err e => ∃ i e', last log = Some (i, Err e') ∧ e = mapError ErrorCode sanitized directory e'
  | Panic _ => False
  end.

Lemma page_step limit (output : ListObjectsV2Output) entries :
  len entries < limit →
  let all := entries ++ page_entries pre output in
  let '(es, full) := add_contents (with_log a) limit (Contents output) entries in
  if (full : bool) then es = take (Z.to_nat limit) all ∧ limit ≤ len all
  else let '(es, full) := add_prefixes (with_log a) limit (CommonPrefixes output) es in
       es = take (Z.to_nat limit) all ∧ (if (full : bool) then limit ≤ len all else len all < limit).
Proof.
  intros Hl. cbv zeta. rewrite add_contents_all, add_all_spec by done. simpl prefix.
  unfold page_entries. rewrite app_assoc.
  destruct (limit <=? _) eqn:Hfull.
  - apply Z.leb_le in Hfull. rewrite (take_app_le (entries ++ _)) by (unfold len in *; lia). split; [done|].
    unfold len in *. rewrite length_app. lia.
  - apply Z.leb_gt in Hfull. rewrite take_ge by (unfold len in *; lia).
    rewrite add_prefixes_all, add_all_spec by lia. split; [done|]. simpl prefix.
    destruct (limit <=? _) eqn:Hfull2; [apply Z.leb_le in Hfull2|apply Z.leb_gt in Hfull2]; done.
Qed.


(** The items of a page that was asked for no more than is missing all fit. *)
Lemma page_fits limit output (rest : list listed_item) n entries :
  len entries < limit → Z.of_nat n ≤ limit - len entries →
  Contents output = omap item_object (take n rest) →
  CommonPrefixes output = omap item_prefix (take n rest) →
  take (Z.to_nat limit) (entries ++ page_entries pre output) = entries ++ page_entries pre output ∧
  entries ++ page_entries pre output ≡ₚ entries ++ omap (item_entry pre) (take n rest).
Proof.
  intros Hl Hn Hc Hp.
  assert (E : page_entries pre output ≡ₚ omap (item_entry pre) (take n rest))
    by (unfold page_entries; rewrite Hc, Hp; apply page_items).
  split; [|by rewrite E]. apply take_ge. rewrite length_app, E.
  pose proof (omap_length_le (item_entry pre) (take n rest)). rewrite length_take in *.
  unfold len in *. lia.
Qed.

(** Entries of a prefix of the listing that reach the limit, or of all of it. *)
Lemma first_entries limit (items : list listed_item) m es :
  es ≡ₚ omap (item_entry pre) (take m items) →
  len es = limit ∨ (drop m items = [] ∧ len es ≤ limit) →
  es ≡ₚ take (Z.to_nat limit) (omap (item_entry pre) items).
Proof.
  intros Hes Hend. rewrite <- (take_drop m items), omap_app, Hes.
  apply Permutation_length in Hes. unfold len in Hend. destruct Hend as [Hl|[-> Hl]].
  - by rewrite take_app_le, (take_ge (omap _ _)) by lia.
  - simpl. by rewrite app_nil_r, (take_ge (omap _ _)) by lia.
Qed.

Lemma list_pages_spec fuel ctx directory limit first input entries m t log s `{!PagedListing (clients a) s} :
  let items := listing_items (lBucket first) (lPrefix first) (lDelimiter first) in
  (length (drop m items) < fuel)%nat → len entries < limit → request_ok first input →
  lMaxKeys input ≤ limit - len entries →
  items_after (lBucket first) (lPrefix first) (lDelimiter first) (lContinuationToken input) = drop m items →
  entries ≡ₚ omap (item_entry pre) (take m items) →
  ∃ r t' log',
    pages fuel ctx directory limit input entries t (log, s) = (r, (t', (log ++ log', s))) ∧
    Forall (λ x, request_ok first x.1) log' ∧ tokens_follow (lContinuationToken input) log' ∧
    list_outcome directory limit items log' r.
Proof.
  intros items. revert input entries m t log.
  induction fuel as [|fuel IH]; intros input entries m t log Hf Hl Hi Hk Htok Hes; [lia|].
  destruct Hi as (H1 & Hb & Hp & Hd). 
  cbn [list_pages]. unfold bind at 1, mapped, bind at 1, attempt. simpl.
  pose proof (page_law ctx input t ltac:(lia)) as Hsvc. rewrite Hb, Hp, Hd, Htok in Hsvc. cbv zeta in Hsvc.
  destruct (ListObjectsV2 (clients a) ctx input t s) as [[output|e|msg] [t1 s1]] eqn:Hcall;
    destruct Hsvc as [-> Hsvc]; [| |done].
  2:{ eexists _, _, _. split; [done|]. split; [by apply Forall_singleton|]. split; [by split|]. by eexists _, _. }
  destruct Hsvc as (n & Hn & Hcs & Hps & Hmore). rewrite drop_drop in Hmore.
  simpl. pose proof (page_step limit output entries Hl) as Hpage. cbv zeta in Hpage.
  destruct (page_fits limit output (drop m items) n entries) as [Htake Hall]; [done|lia|done..|].
  set (all := entries ++ page_entries pre output) in *.
  rewrite Hes, <- omap_app, take_take_drop in Hall. rewrite Htake in Hpage.
  assert (Hdone : limit ≤ len all ∨ drop (m + n) items = [] →
    list_outcome directory limit items [(input, Ok output)] (Ok all)).
  { intros Hor. eapply first_entries; [exact Hall|]. apply (f_equal length) in Htake.
    rewrite length_take in Htake. unfold len in *. destruct Hor; [left; lia|right; split; [done|lia]]. }
  assert (Hlog : Forall (λ x, request_ok first x.1) [(input, Ok output)]) by (by apply Forall_singleton).
  destruct (add_contents _ _ _ _) as [es full]. destruct full.
  { destruct Hpage as [-> Hlim]. eexists _, _, _. split; [done|]. split_and!; auto. by split. }
  destruct (add_prefixes _ _ _ _) as [es' full]. destruct Hpage as [-> Hlim]. destruct full.
  { eexists _, _, _. split; [done|]. split_and!; auto. by split. }
  unfold paginationComplete. case_bool_decide as Hrest.
  { rewrite Hmore. eexists _, _, _. split; [done|]. split_and!; auto. by split. }
  destruct Hmore as (-> & Hpos & token & Htoken & Hafter). simpl. rewrite Htoken. simpl.
  set (input' := mkListObjectsV2Input _ _ _ _ _).
  destruct (IH input' all (m + n)%nat t1 (log ++ [(input, Ok output)])) as (r & t2 & log' & Hrun & Hreq & Hfol & Hout).
  - rewrite <- length_zero_iff_nil, length_drop in Hrest. rewrite length_drop in *. lia.
  - done.
  - unfold request_ok, input', pageSize, wrap32. simpl. split; [|done].
    pose proof (len_nonneg all). rewrite Z.mod_small; lia.
  - unfold input', pageSize, wrap32. simpl. pose proof (len_nonneg all). rewrite Z.mod_small; lia.
  - done.
  - done.
  - eexists r, t2, ((input, Ok output) :: log'). rewrite <- app_assoc in Hrun.
    split; [exact Hrun|]. split; [by constructor|]. split; [split; [done|]; by rewrite Htoken|].
    destruct r as [found|e|msg]; simpl in *; [done| |done].
    destruct Hout as (i & e' & Hlast & He). exists i, e'. by rewrite last_cons, Hlast.
Qed.
End listing.

(** C14: listings page correctly and stop.  On a validly configured adapter whose effective
    limit is one the runtime can reserve, over a bucket that nobody changes meanwhile and
    whose continuation tokens mean what [PagedListing] documents, a listing with a
    non-negative limit ends within one request per item of the listing and one more; every
    request asks for between 1 and 1000 keys of the same bucket, prefix and delimiter; the
    first carries no token and each later one the token of the answer before it; on
    success the iterator holds, sorted by path, exactly the first decodable items of the
    bucket's listing, up to the smaller of the requested and the configured limit; and
    otherwise the last request failed and its error is returned mapped. *)
Theorem s3_List_pages {S} (a : Adapter S) ErrorCode sanitized fuel ctx directory options t s
    `{!PagedListing (clients a) s} :
  let limit := S3.effectiveListLimit (Limit options) (maxList (settings a)) in
  let first := list_input a directory options limit in
  let items := listing_items (lBucket first) (lPrefix first) (lDelimiter first) in
  valid_settings (settings a) → 0 ≤ Limit options → limit ≤ 2 ^ 42 → (length items < fuel)%nat →
  ∃ r t' log,
    ListEntries (with_log a) ErrorCode sanitized fuel ctx directory options t ([], s) =
      (r, (t', (log, s))) ∧
    Forall (λ x, request_ok first x.1) log ∧ tokens_follow None log ∧
    match r with
    | Ok it => ∃ es, it = S3.newIterator es ∧
        es ≡ₚ take (Z.to_nat limit) (omap (item_entry (prefix (settings a))) items)
    | Err e => ∃ i e', last log = Some (i, Err e') ∧ e = mapError ErrorCode sanitized directory e'
    | Panic _ => False
    end.
Proof.
  intros limit first items (_ & Hmax & _) Hl Hcap Hf.
  assert (Hlim : 0 < limit).
  { unfold limit, S3.effectiveListLimit. destruct (Limit options =? 0) eqn:E; lia. }
  destruct (list_pages_spec a ErrorCode sanitized fuel ctx directory limit first first [] 0 t [] s)
    as (r & t' & log & Hrun & Hreq & Hfol & Hout); [done|done|..].
  - unfold request_ok, first, list_input, wrap32. simpl. split; [|done]. rewrite Z.mod_small; lia.
  - unfold first, list_input, wrap32, len. simpl. rewrite Z.mod_small; lia.
  - apply items_after_none.
  - done.
  - unfold ListEntries, make_entries, entry_size, maxAlloc. rewrite (proj2 (Z.ltb_ge _ _)) by done.
    simpl settings. fold limit. rewrite Z.gtb_ltb, (proj2 (Z.ltb_ge limit 0)), (proj2 (Z.ltb_ge _ (64 * limit))) by lia.
    simpl orb. cbn iota. change (list_input (with_log a) directory options limit) with first.
    unfold bind, ret at 1. rewrite Hrun. simpl app.
    destruct r as [es|e|m]; [| |done]; eexists _, t', log; (split; [done|]); (split_and!; [done..|]); eauto.
Qed.

(** A listing without a limit panics on an adapter whose configured maximum, which any
    positive integer may be, is more than the runtime can reserve. *)
Lemma s3_List_huge_panics {S} (a : Adapter S) ErrorCode sanitized fuel ctx directory t s :
  2 ^ 42 < maxList (settings a) →
  ListEntries a ErrorCode sanitized fuel ctx directory (mkListOptions true 0) t s
    = (Panic "makeslice: cap out of range", (t, s)).
Proof.
  intros Hm. unfold ListEntries, make_entries, entry_size, maxAlloc, S3.effectiveListLimit. simpl.
  by rewrite Z.gtb_ltb, (proj2 (Z.ltb_lt _ (64 * _))), orb_true_r by lia.
Qed.

(** ** A service of two items a page *)

(** Its tokens count the items already answered. *)
Definition paged_clients (items : list listed_item) : Clients unit :=
  mkClients (λ _ _ _ _, throw (Sentinel ErrNotFound)) (λ _ _ _, throw (Sentinel ErrNotFound))
    (λ _ _ _, throw (Sentinel ErrNotFound)) (λ _ _, throw (Sentinel ErrNotFound))
    (λ _ i,
      let rest := drop (length (default [] (lContinuationToken i))) items in
      let n := Nat.min 2 (Z.to_nat (lMaxKeys i)) in
      let more := negb (bool_decide (drop n rest = [])) in
      ret (mkListObjectsV2Output (omap item_object (take n rest)) (omap item_prefix (take n rest)) (Some more)
             (if more then Some (replicate (length (default [] (lContinuationToken i)) + n) slash) else None)))
    (λ _ _ _, throw (Sentinel ErrNotFound)) (λ _ _, throw (Sentinel ErrNotFound)).

#[export] Program Instance paged_listing items : PagedListing (paged_clients items) () := {
  listing_items _ _ _ := items;
  items_after _ _ _ token := drop (length (default [] token)) items;
}.
Next Obligation. done. Qed.
Next Obligation.
  intros items ctx i t Hk. simpl. split; [done|]. exists (Nat.min 2 (Z.to_nat (lMaxKeys i))).
  split_and!; [lia|done..|]. destruct (bool_decide _); [done|]. split_and!; [done|lia|].
  eexists. split; [done|]. simpl. by rewrite length_replicate, drop_drop.
Qed.

Definition paged_adapter : Adapter unit :=
  S3.mkAdapter (paged_clients
    (let o k := inl (mkListedObject (Some (bs k)) (Some 1) (Some 0)) in
     [o "t/b"; o "x/escape"; inr (Some (bs "t/a/")); o "t/c"; o "t/d"; o "t/e"]))
    (mkConfig (bs "s3") (bs "bucket") (bs "t") 4 128 65536 []) (set_of S3.capabilities).

(** Three requests, the last one for a single key: the first four of the five entries. *)
Lemma s3_List_pages_witness :
  let options := mkListOptions true 0 in
  let first := list_input paged_adapter Root options 4 in
  let items := listing_items (PagedListing := paged_listing _) (s := ()) (C := clients paged_adapter)
    (lBucket first) (lPrefix first) (lDelimiter first) in
  ∃ r t' log,
    ListEntries (with_log paged_adapter) (λ _, None) (λ _, []) 7 Background Root options 0 ([], ()) =
      (r, (t', (log, ()))) ∧
    Forall (λ x, request_ok first x.1) log ∧ tokens_follow None log ∧
    match r with
    | Ok it => ∃ es, it = S3.newIterator es ∧ es ≡ₚ take 4 (omap (item_entry (bs "t")) items)
    | Err e => ∃ i e', last log = Some (i, Err e') ∧ e = mapError (λ _, None) (λ _, []) Root e'
    | Panic _ => False
    end.
Proof.
  apply (s3_List_pages paged_adapter (λ _, None) (λ _, []) 7 Background Root (mkListOptions true 0) 0 ()).
  - unfold valid_settings. simpl. split_and!; [by vm_compute|lia..|by left|].
    right. exists (mkPath (bs "t")). split_and!; [decide_now|done|done].
  - simpl. lia.
  - by vm_compute.
  - simpl. lia.
Defined.
