(* ===== verification/S3Store.v ===== *)
(** * The S3 adapter as an object store: [s3/s3.go]

    What a bucket promises through the SDK is the class [S3Service]; against it
    every operation of the adapter acts on the objects below its prefix as an
    object store keyed by logical paths would, up to the failures of the service. *)

From S2P Require Import Prelude GoStrings Errors Effects Paths Capability Contracts Iterator Digest Decorator DecoratedMemory S3 S3Spec.

(** ** Copy sources *)

(** [url.PathUnescape]: percent-decoding. *)
Definition unhex (c : Ascii.ascii) : option Z :=
  let x := code c in
  if in_range x 48 57 then Some (x - 48)
  else if in_range x 65 70 then Some (x - 55)
  else if in_range x 97 102 then Some (x - 87)
  else None.

Fixpoint PathUnescape (s : bytes) : option bytes :=
  match s with
  | [] => Some []
  | c :: rest =>
      if decide (c = percent) then
        match rest with
        | h :: l :: rest' =>
            match unhex h, unhex l with
            | Some x, Some y => (λ tail, ascii_of_Z (16 * x + y) :: tail) <$> PathUnescape rest'
            | _, _ => None
            end
        | _ => None
        end
      else (λ tail, c :: tail) <$> PathUnescape rest
  end.

Lemma PathEscape_cons c s : PathEscape (c :: s) = PathEscape [c] ++ PathEscape s.
Proof. unfold PathEscape. simpl. by rewrite app_nil_r. Qed.

Lemma PathUnescape_char c rest :
  PathUnescape (PathEscape [c] ++ rest) = (λ tail, c :: tail) <$> PathUnescape rest.
Proof. by destruct c as [[] [] [] [] [] [] [] []]. Qed.

Lemma PathUnescape_escape s : PathUnescape (PathEscape s) = Some s.
Proof.
  induction s as [|c s IH]; [done|].
  by rewrite PathEscape_cons, PathUnescape_char, IH.
Qed.

Definition question : Ascii.ascii := "?"%char.

Lemma PathEscape_no_query s : question ∉ PathEscape s.
Proof.
  induction s as [|c s IH]; [by apply not_elem_of_nil|].
  rewrite PathEscape_cons, not_elem_of_app. split; [|done]. by destruct c as [[] [] [] [] [] [] [] []]; decide_now.
Qed.

Definition plus : Ascii.ascii := "+"%char.

(** [url.PathEscape] leaves a plus sign as it is and makes no others. *)
Lemma PathEscape_plus s : plus ∈ PathEscape s ↔ plus ∈ s.
Proof.
  induction s as [|c s IH]; [done|].
  rewrite PathEscape_cons, elem_of_app, IH, elem_of_cons.
  by destruct c as [[] [] [] [] [] [] [] []]; vm_compute (PathEscape [_]); rewrite ?elem_of_cons, ?elem_of_nil; naive_solver.
Qed.

(** The bucket and key that a decoding of the header reads in a copy source:
    [bucket/key], encoded, before an optional [?versionId]. *)
Definition copy_source (decode : bytes → option bytes) (source : bytes) : option (bytes * bytes) :=
  match decode (Cut source question).1.1 with
  | None => None
  | Some name =>
      match Cut name slash with (bucket, key, true) => Some (bucket, key) | _ => None end
  end.

(** The documentation asks for the header to be URL-encoded; whether a plus sign in it
    stands for itself or, as in a form, for a space is not said, so a service is only
    taken to percent-decode texts without one. *)
Definition url_decodes (decode : bytes → option bytes) : Prop :=
  ∀ source, plus ∉ source → decode source = PathUnescape source.

(** What the adapter escapes is what the service reads when the name has no plus sign. *)
Lemma copy_source_key decode bucket key :
  url_decodes decode → slash ∉ bucket → plus ∉ bucket ++ slash :: key →
  copy_source decode (PathEscape (bucket ++ slash :: key)) = Some (bucket, key).
Proof.
  intros Hd Hb Hp. unfold copy_source. rewrite Cut_no_sep by apply PathEscape_no_query. simpl.
  rewrite Hd by (by rewrite PathEscape_plus). by rewrite PathUnescape_escape, Cut_sep.
Qed.

(** Form decoding, as of the query of a URL: a plus sign is a space. *)
Definition form_decode (source : bytes) : option bytes :=
  PathUnescape ((λ c, if decide (c = plus) then " "%char else c) <$> source).

Lemma form_decodes : url_decodes form_decode.
Proof.
  intros source Hp. unfold form_decode. f_equal. induction source as [|c s IH]; [done|].
  apply not_elem_of_cons in Hp as [Hc Hs]. csimpl. by rewrite decide_False, IH.
Qed.

(** Under a service that decodes so, the source of a copy of [a+b] is the object [a b]. *)
Lemma plus_copies_another :
  copy_source form_decode (PathEscape (bs "data" ++ slash :: bs "tenant/a+b"))
    = Some (bs "data", bs "tenant/a b").
Proof. by vm_compute. Qed.

(** ** The service *)

Record s3_object := mkS3Object {
  s3_content : bytes;
  s3_type : option bytes;
  s3_metadata : stringmap;
}.

(** What a response body delivers of [b]: all of it, or a part of it and an error. *)
Definition delivers (b : bytes) (response : stream) : Prop :=
  let '(content, err) := ReadAll (body response) in
  content `prefix_of` b ∧ (err = None → content = b).

(** The bytes a [Range] header asks for, and whether there are any. *)
Definition requested (range : option RangeHeader) (b : bytes) : bytes :=
  match range with
  | None => b
  | Some h => take (Z.to_nat (range_last h - range_first h + 1)) (drop (Z.to_nat (range_first h)) b)
  end.

Definition satisfiable (range : option RangeHeader) (b : bytes) : Prop :=
  match range with None => True | Some h => range_first h < len b end.

(** An error of the SDK about the object [o]: it is none of the package's own
    errors, and its code tells the truth. *)
Definition honest (ErrorCode : error → option bytes) (range : option RangeHeader)
    (o : option s3_object) (e : error) : Prop :=
  Is e ErrNotFound = false ∧ Is e ErrInvalidRange = false ∧
  ∀ c, ErrorCode e = Some c →
    (c ∈ [bs "NoSuchKey"; bs "NotFound"; bs "NoSuchBucket"] → o = None) ∧
    (c ∈ [bs "InvalidRange"; bs "RequestedRangeNotSatisfiable"] →
       ∃ x, o = Some x ∧ ¬ satisfiable range (s3_content x)).

(** The object of a complete upload, and the object a copy makes of [o]. *)
Definition uploaded (input : UploadObjectInput) (content : bytes) : s3_object :=
  mkS3Object content (uContentType input) (uMetadata input).

Definition copied (input : CopyObjectInput) (o : s3_object) : s3_object :=
  if cReplaceMetadata input then mkS3Object (s3_content o) (cContentType input) (cMetadata input) else o.

(** The bucket after an upload or a copy took effect. *)
Definition upload_effect (input : UploadObjectInput) (m m' : gmap (bytes * bytes) s3_object) : Prop :=
  ∃ content, ReadAll (uBody input) = (content, None) ∧
    (uIfNoneMatch input = Some (bs "*") → m !! (uBucket input, uKey input) = None) ∧
    m' = <[(uBucket input, uKey input) := uploaded input content]> m.

Definition copy_effect (decode : bytes → option bytes) (input : CopyObjectInput)
    (m m' : gmap (bytes * bytes) s3_object) : Prop :=
  ∃ source o, copy_source decode (cCopySource input) = Some source ∧ m !! source = Some o ∧
    m' = <[(cBucket input, cKey input) := copied input o]> m.

(** What the service documents of each request.  A request that changes the bucket
    may fail before or after its effect; a body may break off. *)
Class S3Service {S : Type} (C : Clients S) (ErrorCode : error → option bytes) := {
  store : S → gmap (bytes * bytes) s3_object;
  header_decode : bytes → option bytes;
  header_decode_law : url_decodes header_decode;
  GetObject_law ctx b k range t s :
    let '(r, (_, s')) := GetObject C ctx b k range t s in
    store s' = store s ∧
    match r with
    | Ok response => ∃ o, store s !! (b, k) = Some o ∧ satisfiable range (s3_content o) ∧
        delivers (requested range (s3_content o)) response
    | Err e => honest ErrorCode range (store s !! (b, k)) e
    | Panic _ => False
    end;
  HeadObject_law ctx b k t s :
    let '(r, (_, s')) := HeadObject C ctx b k t s in
    store s' = store s ∧
    match r with
    | Ok output => ∃ o, store s !! (b, k) = Some o ∧ hContentLength output = Some (len (s3_content o)) ∧
        ∀ ty, s3_type o = Some ty → hContentType output = Some ty
    | Err e => honest ErrorCode None (store s !! (b, k)) e
    | Panic _ => False
    end;
  DeleteObject_law ctx b k t s :
    let '(r, (_, s')) := DeleteObject C ctx b k t s in
    match r with
    | Ok _ => store s' = delete (b, k) (store s)
    | Err e => store s' = store s ∨ store s' = delete (b, k) (store s)
    | Panic _ => False
    end;
  CopyObject_law ctx input t s :
    let '(r, (_, s')) := CopyObject C ctx input t s in
    match r with
    | Ok _ => copy_effect header_decode input (store s) (store s')
    | Err e => (store s' = store s ∨ copy_effect header_decode input (store s) (store s')) ∧
        ∀ source, copy_source header_decode (cCopySource input) = Some source →
          honest ErrorCode None (store s !! source) e
    | Panic _ => False
    end;
  UploadObject_law ctx input options t s :
    let '(r, (_, s')) := UploadObject C ctx input options t s in
    match r with
    | Ok _ => upload_effect input (store s) (store s')
    | Err _ => store s' = store s ∨ upload_effect input (store s) (store s')
    | Panic _ => False
    end;
}.

(** ** The store a client sees *)

(** [*s3.Adapter] as the decorator's [Backend]; [fuel] bounds the pages of a listing. *)
Definition s3_backend {S} (a : Adapter S) ErrorCode sanitized (fuel : nat) : Backend S Iterator.iterator :=
  mkBackend (Ok (S3.Capabilities a)) (S3.Open a ErrorCode sanitized) (S3.OpenRange a ErrorCode sanitized)
    (S3.Write a ErrorCode sanitized) (S3.OpenWriter a ErrorCode sanitized)
    (S3.Delete a ErrorCode sanitized) (S3.ListEntries a ErrorCode sanitized fuel)
    (S3.Stat a ErrorCode sanitized) (S3.Copy a ErrorCode sanitized) (S3.Move a)
    (S3.SetMetadata a ErrorCode sanitized) (S3.ChecksumOf a) (S3.VisibilityOf a) (S3.SetVisibility a)
    (Some (S3.TemporaryURL a ErrorCode sanitized)).

Abbreviation view := (Path → option s3_object) (only parsing).

Definition unchanged (v v' : view) : Prop := ∀ q, v' q = v q.
Definition put_at (p : Path) (o : s3_object) (v v' : view) : Prop :=
  ∀ q, v' q = if decide (q = p) then Some o else v q.
Definition removed (p : Path) (v v' : view) : Prop :=
  ∀ q, v' q = if decide (q = p) then None else v q.

Definition described (p : Path) (o : s3_object) (m : Metadata) : Prop :=
  mPath m = p ∧ mKind m = EntryKindFile ∧ mSize m = len (s3_content o) ∧
  ∀ ty, s3_type o = Some ty → mContentType m = ty.

(** A write took effect: the whole source is at [p], which was free if the write was
    to create it. *)
Definition written_at (p : Path) (source : reader) (options : WriteOptions) (v v' : view)
    (o : s3_object) : Prop :=
  p ≠ Root ∧ ReadAll source = (s3_content o, None) ∧ s3_type o = optionalString (wContentType options) ∧
  s3_metadata o = wMetadata options ∧ (wIfNoneMatch options = true → v p = None) ∧ put_at p o v v'.

(** A copy took effect: the destination alone changed, and, when the service reads the
    source's name as it was meant ([plain]), it holds the source's object. *)
Definition copied_to (plain : Prop) (source destination : Path) (v v' : view) : Prop :=
  ∃ o, (plain → v source = Some o) ∧ put_at destination o v v'.

(** New metadata took effect: the path alone changed, and, when [plain], its content and
    a known content type are kept. *)
Definition retagged (plain : Prop) (p : Path) (metadata : stringmap) (v v' : view) : Prop :=
  ∃ o content ty, v p = Some o ∧ put_at p (mkS3Object content ty metadata) v v' ∧
    (plain → content = s3_content o) ∧ ∀ x, s3_type o = Some x → ty = optionalString x.

(** Asked of an adapter without the capability. *)
Definition unsupported_reply (r : result reply) (v v' : view) : Prop :=
  unchanged v v' ∧ ∃ e, r = Err e ∧ Is e ErrUnsupportedCapability = true.

(** What a client may see of each request: the reply, and the store after it; [plain]
    paths are those whose object names have no plus sign. *)
Definition s3_allows (plain : Path → Prop) (rq : client_request) (v : view) (r : result reply) (v' : view) : Prop :=
  match rq with
  | CrOpen _ p =>
      unchanged v v' ∧
      match r with
      | Ok (RpStream st) => ∃ o, v p = Some o ∧ delivers (s3_content o) st
      | Err e => Is e ErrNotFound = true → v p = None
      | _ => False
      end
  | CrOpenRange _ p (mkByteRange offset length as range) =>
      unchanged v v' ∧
      match r with
      | Ok (RpStream st) => ∃ o, v p = Some o ∧ 0 ≤ offset < len (s3_content o) ∧ 0 < length ∧
          delivers (take (Z.to_nat length) (drop (Z.to_nat offset) (s3_content o))) st
      | Err e => (Is e ErrNotFound = true → v p = None) ∧
          (Is e ErrInvalidRange = true →
             ¬ (0 ≤ offset ∧ 0 < length ∧ offset + length - 1 ≤ MaxInt64) ∨
             ∃ o, v p = Some o ∧ len (s3_content o) ≤ offset)
      | _ => False
      end
  | CrStat _ p =>
      unchanged v v' ∧
      match r with
      | Ok (RpMetadata m) => ∃ o, v p = Some o ∧ described p o m
      | Err e => Is e ErrNotFound = true → v p = None
      | _ => False
      end
  | CrWrite _ p source options =>
      match r with
      | Ok (RpMetadata m) => ∃ o, written_at p source options v v' o ∧ described p o m
      | Err _ => unchanged v v' ∨ ∃ o, written_at p source options v v' o
      | _ => False
      end
  | CrUpload _ p source options =>
      match r with
      | Ok RpDone => ∃ o, written_at p source options v v' o
      | Err _ => unchanged v v' ∨ ∃ o, written_at p source options v v' o
      | _ => False
      end
  | CrDelete _ p =>
      match r with
      | Ok RpDone => removed p v v'
      | Err _ => unchanged v v' ∨ removed p v v'
      | _ => False
      end
  | CrCopy _ source destination options =>
      match r with
      | Ok RpDone => cOverwrite options = true ∧ copied_to (plain source) source destination v v'
      | Err e => (unchanged v v' ∨
            (cOverwrite options = true ∧ copied_to (plain source) source destination v v')) ∧
          (plain source → Is e ErrNotFound = true → v source = None)
      | _ => False
      end
  | CrSetMetadata _ p metadata =>
      match r with
      | Ok RpDone => retagged (plain p) p metadata v v'
      | Err _ => unchanged v v' ∨ retagged (plain p) p metadata v v'
      | _ => False
      end
  | CrMove _ _ _ _ | CrChecksum _ _ _ | CrVisibility _ _ | CrSetVisibility _ _ _ =>
      unsupported_reply r v v'
  end.

(** ** The refinement *)

Lemma key_inj pre p q : key pre p = key pre q → p = q.
Proof.
  unfold key. destruct p as [p], q as [q]. simpl.
  case_decide; [by intros ->|]. by intros [= ->]%app_inv_head.
Qed.

Section refines.
Context {S : Type} (a : Adapter S) (ErrorCode : error → option bytes) (sanitized : error → bytes).
Context `{!S3Service (clients a) ErrorCode}.

Definition name_of (p : Path) : bytes * bytes := (bucket (settings a), key (prefix (settings a)) p).

(** What the adapter's bucket holds under its prefix. *)
Definition view_of (s : S) : view := λ p, store s !! name_of p.

(** Names no logical path of the adapter has. *)
Definition outside (name : bytes * bytes) : Prop := ∀ p, name ≠ name_of p.

Definition framed (s s' : S) : Prop := ∀ name, outside name → store s' !! name = store s !! name.

Lemma same_store s s' : store s' = store s → unchanged (view_of s) (view_of s') ∧ framed s s'.
Proof. intros E. unfold view_of. split; [intros q|intros n _]; by rewrite E. Qed.

Lemma insert_store p o s s' :
  store s' = <[name_of p := o]> (store s) → put_at p o (view_of s) (view_of s') ∧ framed s s'.
Proof.
  intros E. unfold view_of. split.
  - intros q. rewrite E. case_decide as Hq; [subst; apply lookup_insert_eq|].
    apply lookup_insert_ne. intros [= Hk%key_inj]. by subst.
  - intros n Hn. rewrite E. apply lookup_insert_ne. intros <-. by apply (Hn p).
Qed.

Lemma delete_store p s s' :
  store s' = delete (name_of p) (store s) → removed p (view_of s) (view_of s') ∧ framed s s'.
Proof.
  intros E. unfold view_of. split.
  - intros q. rewrite E. case_decide as Hq; [subst; apply lookup_delete_eq|].
    apply lookup_delete_ne. intros [= Hk%key_inj]. by subst.
  - intros n Hn. rewrite E. apply lookup_delete_ne. intros <-. by apply (Hn p).
Qed.

Lemma unchanged_refl v : unchanged v v.
Proof. by intros q. Qed.
Lemma framed_refl s : framed s s.
Proof. by intros n _. Qed.
Local Hint Resolve unchanged_refl framed_refl : core.

(** *** Errors *)

Definition mapped_result {A} (p : Path) (r : result A) : result A :=
  match r with Err e => Err (mapError ErrorCode sanitized p e) | r => r end.

Lemma mapped_spec {A} p (m : M S A) t s :
  mapped ErrorCode sanitized p m t s = (mapped_result p (m t s).1, (m t s).2).
Proof. unfold mapped, bind, attempt. by destruct (m t s) as [[x|e|msg] [t' s']]. Qed.

Lemma mapError_not_found p range o e :
  honest ErrorCode range o e → Is (mapError ErrorCode sanitized p e) ErrNotFound = true → o = None.
Proof.
  intros (Hn & _ & Hcode). unfold mapError. destruct (Is e Canceled); [congruence|].
  destruct (Is e DeadlineExceeded); [congruence|].
  destruct (ErrorCode e) as [c|] eqn:Hc; [|simpl; rewrite orb_false_r; congruence].
  case_decide; [intros _; by apply (Hcode c)|].
  repeat case_decide; simpl; rewrite ?orb_false_r; congruence.
Qed.

Lemma mapError_invalid_range p range o e :
  honest ErrorCode range o e → Is (mapError ErrorCode sanitized p e) ErrInvalidRange = true →
  ∃ x, o = Some x ∧ ¬ satisfiable range (s3_content x).
Proof.
  intros (_ & Hr & Hcode). unfold mapError. destruct (Is e Canceled); [congruence|].
  destruct (Is e DeadlineExceeded); [congruence|].
  destruct (ErrorCode e) as [c|] eqn:Hc; [|simpl; rewrite orb_false_r; congruence].
  do 2 (case_decide; [done|]). case_decide; [intros _; by apply (Hcode c)|].
  simpl. rewrite orb_false_r. congruence.
Qed.

Lemma cloneMetadata_Ok m m' : cloneMetadata a m = Ok m' → m' = m.
Proof. unfold cloneMetadata. repeat case_match; naive_solver. Qed.

Lemma cloneMetadata_Err m e target :
  cloneMetadata a m = Err e → Is e target = true → target = ErrResourceLimit.
Proof.
  unfold cloneMetadata. destruct m as [m|]; [|done].
  repeat (case_match; [intros [= <-]; simpl; rewrite orb_false_r; intros ?%bool_decide_eq_true; done|]).
  done.
Qed.

Lemma cloneMetadata_not_panic m msg : cloneMetadata a m ≠ Panic msg.
Proof. unfold cloneMetadata. repeat case_match; naive_solver. Qed.

(** *** Operations *)

(** The view and the frame after a run, for a request that changes nothing. *)
Local Ltac stable H := apply same_store in H as [? ?].

Lemma Open_allowed ctx p t s :
  let '(r, (_, s')) := Open a ErrorCode sanitized ctx p t s in
  unchanged (view_of s) (view_of s') ∧ framed s s' ∧
  match r with
  | Ok st => ∃ o, view_of s p = Some o ∧ delivers (s3_content o) st
  | Err e => Is e ErrNotFound = true → view_of s p = None
  | Panic _ => False
  end.
Proof.
  unfold Open. rewrite mapped_spec.
  pose proof (GetObject_law ctx (bucket (settings a)) (key (prefix (settings a)) p) None t s) as H.
  destruct (GetObject _ _ _ _ _ t s) as [[st|e|msg] [t' s']]; simpl in *; destruct H as [Hs H];
    stable Hs; (split_and!; [done..|]).
  - destruct H as (o & Ho & _ & Hd). eauto.
  - by eapply mapError_not_found.
  - done.
Qed.

Lemma OpenRange_allowed ctx p range t s :
  is_int64 (Offset range) → is_int64 (Length range) →
  let '(r, (_, s')) := OpenRange a ErrorCode sanitized ctx p range t s in
  unchanged (view_of s) (view_of s') ∧ framed s s' ∧
  match r with
  | Ok st => ∃ o, view_of s p = Some o ∧ 0 ≤ Offset range < len (s3_content o) ∧ 0 < Length range ∧
      delivers (take (Z.to_nat (Length range)) (drop (Z.to_nat (Offset range)) (s3_content o))) st
  | Err e => (Is e ErrNotFound = true → view_of s p = None) ∧
      (Is e ErrInvalidRange = true →
         ¬ (0 ≤ Offset range ∧ 0 < Length range ∧ Offset range + Length range - 1 ≤ MaxInt64) ∨
         ∃ o, view_of s p = Some o ∧ len (s3_content o) ≤ Offset range)
  | Panic _ => False
  end.
Proof.
  intros Ho Hl. unfold OpenRange. rewrite inclusiveRangeEnd_exact by done.
  case_decide as Hok; [|simpl; split_and!; [by auto..|by intros|by left]].
  rewrite mapped_spec.
  pose proof (GetObject_law ctx (bucket (settings a)) (key (prefix (settings a)) p)
    (Some (mkRangeHeader (Offset range) (Offset range + Length range - 1))) t s) as H.
  destruct (GetObject _ _ _ _ _ t s) as [[st|e|msg] [t' s']]; simpl in *; destruct H as [Hs H];
    stable Hs; (split; [done|split; [done|]]).
  - destruct H as (o & Hv & Hsat & Hd). exists o. split_and!; [done|lia|lia|lia|].
    replace (Length range) with (Offset range + Length range - 1 - Offset range + 1) by lia. done.
  - split; [by eapply mapError_not_found|].
    intros Hr. eapply mapError_invalid_range in Hr as (o & Hv & Hsat); [|done].
    right. exists o. split; [done|]. simpl in Hsat. lia.
  - done.
Qed.

Lemma Stat_allowed ctx p t s :
  let '(r, (_, s')) := Stat a ErrorCode sanitized ctx p t s in
  store s' = store s ∧
  match r with
  | Ok m => ∃ o, view_of s p = Some o ∧ described p o m
  | Err e => Is e ErrNotFound = true → view_of s p = None
  | Panic _ => False
  end.
Proof.
  unfold Stat, bind. rewrite mapped_spec.
  pose proof (HeadObject_law ctx (bucket (settings a)) (key (prefix (settings a)) p) t s) as H.
  destruct (HeadObject _ _ _ _ t s) as [[h|e|msg] [t' s']]; simpl in *; destruct H as [Hs H]; [| |done].
  - unfold lift_result. destruct (cloneMetadata a (hMetadata h)) as [m|e|msg] eqn:Hc; simpl;
      (split; [done|]).
    + destruct H as (o & Ho & Hlen & Hty). exists o. split; [done|].
      split_and!; [done..|by simpl; rewrite Hlen|]. intros ty Ht. simpl. by rewrite (Hty ty Ht).
    + intros Hn. by apply (cloneMetadata_Err _ _ _ Hc) in Hn.
    + by apply cloneMetadata_not_panic in Hc.
  - split; [done|]. by eapply mapError_not_found.
Qed.

Lemma upload_written p source options metadata s s' :
  p ≠ Root → cloneMetadata a (wMetadata options) = Ok metadata →
  upload_effect (mkUploadObjectInput (bucket (settings a)) (key (prefix (settings a)) p) source
    (optionalString (wContentType options)) metadata
    (if wIfNoneMatch options then Some (bs "*") else None)) (store s) (store s') →
  (∃ o, written_at p source options (view_of s) (view_of s') o ∧ view_of s' p = Some o) ∧ framed s s'.
Proof.
  intros Hp Hm (content & Hread & Hfree & Hs). simpl in *.
  destruct (insert_store p _ s s' Hs) as [Hput Hfr]. split; [|done].
  apply cloneMetadata_Ok in Hm as ->. eexists. split; [|by rewrite Hput, decide_True by done].
  split_and!; [done..| |done]. intros Ho. apply Hfree. by rewrite Ho.
Qed.

Lemma Write_allowed ctx p source options t s :
  let '(r, (_, s')) := Write a ErrorCode sanitized ctx p source options t s in
  framed s s' ∧
  match r with
  | Ok m => ∃ o, written_at p source options (view_of s) (view_of s') o ∧ described p o m
  | Err _ => unchanged (view_of s) (view_of s') ∨
      ∃ o, written_at p source options (view_of s) (view_of s') o
  | Panic _ => False
  end.
Proof.
  unfold Write. destruct (IsRoot p) eqn:Hroot; [by simpl; auto|].
  assert (Hp : p ≠ Root) by (intros ->; by vm_compute in Hroot).
  unfold bind, lift_result. destruct (cloneMetadata a (wMetadata options)) as [md|e|msg] eqn:Hc;
    [|by simpl; auto|by apply cloneMetadata_not_panic in Hc].
  rewrite mapped_spec.
  pose proof (UploadObject_law ctx (mkUploadObjectInput (bucket (settings a))
    (key (prefix (settings a)) p) source (optionalString (wContentType options)) md
    (if wIfNoneMatch options then Some (bs "*") else None)) (uploadOptions (settings a)) t s) as H.
  destruct (UploadObject _ _ _ _ t s) as [[[]|e|msg] [t' s1]]; simpl in H |- *; [| |done].
  - destruct (upload_written p source options md s s1 Hp Hc H) as [(o & Hw & Ho) Hfr].
    unfold check_ctx. destruct (ctx_Err ctx t'); [by split; eauto|].
    pose proof (Stat_allowed ctx p (t' + 1) s1) as Hst.
    destruct (Stat _ _ _ _ _ _ s1) as [[m|e|msg] [t2 s2]]; destruct Hst as [Hs Hst]; [| |done];
      (assert (Hv : view_of s2 = view_of s1) by (unfold view_of; by rewrite Hs)); rewrite Hv;
      (split; [intros n Hn; rewrite Hs; by apply Hfr|]).
    + destruct Hst as (o' & Ho' & Hd). rewrite Ho in Ho'. simplify_eq. eauto.
    + eauto.
  - destruct H as [Hs|H]; [stable Hs; by eauto|].
    destruct (upload_written p source options md s s1 Hp Hc H) as [(o & Hw & _) Hfr]. eauto.
Qed.

Lemma OpenWriter_allowed ctx p source options t s :
  let '(r, (_, s')) := (let! w := OpenWriter a ErrorCode sanitized ctx p options in w source) t s in
  framed s s' ∧
  match r with
  | Ok _ => ∃ o, written_at p source options (view_of s) (view_of s') o
  | Err _ => unchanged (view_of s) (view_of s') ∨
      ∃ o, written_at p source options (view_of s) (view_of s') o
  | Panic _ => False
  end.
Proof.
  unfold OpenWriter, bind, check_ctx. destruct (ctx_Err ctx t); [by auto|].
  destruct (IsRoot p); [by simpl; auto|]. unfold ret at 1.
  pose proof (Write_allowed ctx p source options (t + 1) s) as H.
  destruct (Write _ _ _ _ _ _ _ _ s) as [[m|e|msg] [t' s']]; simpl; destruct H as [Hf H]; [|done|done].
  split; [done|]. destruct H as (o & Hw & _). eauto.
Qed.

Lemma Delete_allowed ctx p t s :
  let '(r, (_, s')) := Delete a ErrorCode sanitized ctx p t s in
  framed s s' ∧
  match r with
  | Ok _ => removed p (view_of s) (view_of s')
  | Err _ => unchanged (view_of s) (view_of s') ∨ removed p (view_of s) (view_of s')
  | Panic _ => False
  end.
Proof.
  unfold Delete. rewrite mapped_spec.
  pose proof (DeleteObject_law ctx (bucket (settings a)) (key (prefix (settings a)) p) t s) as H.
  destruct (DeleteObject _ _ _ _ t s) as [[[]|e|msg] [t' s']]; simpl in *; [| |done].
  - by destruct (delete_store p s s' H).
  - destruct H as [H|H]; [stable H; auto|destruct (delete_store p s s' H); auto].
Qed.

Context (Hbucket : slash ∉ bucket (settings a)).

(** Paths whose object names the service reads back from a copy source. *)
Definition plain_path (p : Path) : Prop := plus ∉ bucket (settings a) ++ slash :: key (prefix (settings a)) p.

(** The copy source the adapter sends for such a path names its object. *)
Lemma copy_of_path source input s s' :
  cCopySource input = PathEscape (bucket (settings a) ++ slash :: key (prefix (settings a)) source) →
  copy_effect header_decode input (store s) (store s') →
  ∃ o, (plain_path source → view_of s source = Some o) ∧
    store s' = <[(cBucket input, cKey input) := copied input o]> (store s).
Proof.
  intros Hsrc (name & o & Hname & Ho & Hs). exists o. split; [|done]. intros Hp.
  rewrite Hsrc, copy_source_key in Hname; [by simplify_eq|apply header_decode_law|done|done].
Qed.

Lemma Copy_allowed ctx source destination options t s :
  let '(r, (_, s')) := Copy a ErrorCode sanitized ctx source destination options t s in
  framed s s' ∧
  match r with
  | Ok _ => cOverwrite options = true ∧
      copied_to (plain_path source) source destination (view_of s) (view_of s')
  | Err e => (unchanged (view_of s) (view_of s') ∨ (cOverwrite options = true ∧
       copied_to (plain_path source) source destination (view_of s) (view_of s'))) ∧
      (plain_path source → Is e ErrNotFound = true → view_of s source = None)
  | Panic _ => False
  end.
Proof.
  unfold Copy. destruct (cOverwrite options); [|by simpl; split_and!; auto]. simpl.
  rewrite mapped_spec. set (input := mkCopyObjectInput _ _ _ _ _ _).
  pose proof (CopyObject_law ctx input t s) as H.
  assert (Hdone : ∀ s', copy_effect header_decode input (store s) (store s') →
    copied_to (plain_path source) source destination (view_of s) (view_of s') ∧ framed s s').
  { intros s' (o & Ho & Hs)%(copy_of_path source); [|done].
    destruct (insert_store destination _ s s' Hs) as [Hput Hfr]. split; [|done]. by exists o. }
  destruct (CopyObject _ _ _ t s) as [[[]|e|msg] [t' s']]; simpl in *; [| |done].
  - destruct (Hdone s' H); auto.
  - destruct H as [Hs Hh].
    assert (Hn : plain_path source → Is (mapError ErrorCode sanitized source e) ErrNotFound = true →
      view_of s source = None).
    { intros Hp. eapply mapError_not_found, Hh, copy_source_key; [apply header_decode_law|done..]. }
    destruct Hs as [Hs|Hs]; [stable Hs|destruct (Hdone s' Hs)]; auto.
Qed.

Lemma SetMetadata_allowed ctx p metadata t s :
  let '(r, (_, s')) := SetMetadata a ErrorCode sanitized ctx p metadata t s in
  framed s s' ∧
  match r with
  | Ok _ => retagged (plain_path p) p metadata (view_of s) (view_of s')
  | Err _ => unchanged (view_of s) (view_of s') ∨ retagged (plain_path p) p metadata (view_of s) (view_of s')
  | Panic _ => False
  end.
Proof.
  unfold SetMetadata, bind, lift_result. destruct (cloneMetadata a metadata) as [md|e|msg] eqn:Hc;
    [|by simpl; auto|by apply cloneMetadata_not_panic in Hc].
  apply cloneMetadata_Ok in Hc as ->.
  pose proof (Stat_allowed ctx p t s) as Hst.
  destruct (Stat _ _ _ _ _ t s) as [[m|e|msg] [t1 s1]]; destruct Hst as [Hs1 Hst]; [| |done].
  2:{ stable Hs1. auto. }
  destruct Hst as (o & Ho & _ & _ & _ & Hty). rewrite mapped_spec. set (input := mkCopyObjectInput _ _ _ _ _ _).
  pose proof (CopyObject_law ctx input t1 s1) as H. rewrite Hs1 in H.
  assert (Hdone : ∀ s', copy_effect header_decode input (store s) (store s') →
    retagged (plain_path p) p metadata (view_of s) (view_of s') ∧ framed s s').
  { intros s' (o' & Ho' & Hs)%(copy_of_path p); [|done].
    destruct (insert_store p _ s s' Hs) as [Hput Hfr]. split; [|done].
    exists o, (s3_content o'), (optionalString (mContentType m)). split_and!; [done..| |].
    - intros Hp%Ho'. by simplify_eq.
    - intros x Hx. by rewrite (Hty x Hx). }
  destruct (CopyObject _ _ _ t1 s1) as [[[]|e|msg] [t' s']]; simpl in *; [| |done].
  - destruct (Hdone s' H); auto.
  - destruct H as [[Hs|Hs] _]; [stable Hs|destruct (Hdone s' Hs)]; auto.
Qed.
End refines.

Lemma refused_allowed {S} (a : Adapter S) ErrorCode `{!S3Service (clients a) ErrorCode} name c op s :
  unsupported_reply (Err (Unsupported name c op)) (view_of a ErrorCode s) (view_of a ErrorCode s) ∧
  framed a ErrorCode s s.
Proof. split; [|apply framed_refl]. split; [apply unchanged_refl|by eexists]. Qed.

(** The range of a request is a pair of 64-bit integers. *)
Definition range_ok (rq : client_request) : Prop :=
  match rq with CrOpenRange _ _ r => is_int64 (Offset r) ∧ is_int64 (Length r) | _ => True end.

(** C2: The S3 adapter is an object store keyed by logical paths: against any service that
    meets [S3Service] and for a bucket name without a slash, every request other than
    [List] and [TemporaryURL] has an outcome [s3_allows].  Reads deliver the object's own
    bytes (the requested range of them) and an object that cannot be found is absent; a
    write or an upload that succeeds has stored the whole source with its type and metadata
    under that path alone, and created it when it was to; a copy or new metadata change one
    path alone, and act on the source's own object whatever else its name holds when it
    has no plus sign; a failed change left everything as it was or took effect completely;
    what is not supported is refused; and nothing outside the bucket or the prefix ever
    changes. *)
Theorem s3_refines {S} (a : Adapter S) ErrorCode sanitized `{!S3Service (clients a) ErrorCode}
    fuel rq t s :
  slash ∉ bucket (settings a) → range_ok rq →
  let '(r, (_, s')) := answer (s3_backend a ErrorCode sanitized fuel) rq t s in
  s3_allows (plain_path a) rq (view_of a ErrorCode s) r (view_of a ErrorCode s') ∧ framed a ErrorCode s s'.
Proof.
  intros Hb Hr. unfold answer. destruct rq; cbn [s3_backend bOpen bOpenRange bWrite bOpenWriter
    bDelete bStat bCopy bMove bSetMetadata bChecksum bVisibility bSetVisibility].
  - pose proof (Open_allowed a ErrorCode sanitized ctx path t s) as H. unfold bind.
    destruct (Open _ _ _ _ _ t s) as [[x|e|msg] [t' s']]; naive_solver.
  - destruct Hr as [Ho Hl].
    pose proof (OpenRange_allowed a ErrorCode sanitized ctx path byteRange t s Ho Hl) as H. unfold bind.
    destruct byteRange.
    destruct (OpenRange _ _ _ _ _ _ t s) as [[x|e|msg] [t' s']]; naive_solver.
  - pose proof (Write_allowed a ErrorCode sanitized ctx path source options t s) as H. unfold bind.
    destruct (Write _ _ _ _ _ _ _ t s) as [[x|e|msg] [t' s']]; naive_solver.
  - pose proof (OpenWriter_allowed a ErrorCode sanitized ctx path source options t s) as H.
    unfold bind in *. destruct (OpenWriter _ _ _ _ _ _ t s) as [[w|e|msg] [t1 s1]]; [|naive_solver..].
    destruct (w source t1 s1) as [[[]|e|msg] [t' s']]; naive_solver.
  - pose proof (Delete_allowed a ErrorCode sanitized ctx path t s) as H. unfold bind.
    destruct (Delete _ _ _ _ _ t s) as [[[]|e|msg] [t' s']]; naive_solver.
  - pose proof (Stat_allowed a ErrorCode sanitized ctx path t s) as H. unfold bind.
    destruct (Stat _ _ _ _ _ t s) as [[x|e|msg] [t' s']]; destruct H as [Hs%same_store H]; naive_solver.
  - pose proof (Copy_allowed a ErrorCode sanitized Hb ctx source destination options t s) as H. unfold bind.
    destruct (Copy _ _ _ _ _ _ _ t s) as [[[]|e|msg] [t' s']]; naive_solver.
  - by apply refused_allowed.
  - pose proof (SetMetadata_allowed a ErrorCode sanitized Hb ctx path metadata t s) as H. unfold bind.
    destruct (SetMetadata _ _ _ _ _ _ t s) as [[[]|e|msg] [t' s']]; naive_solver.
  - by apply refused_allowed.
  - by apply refused_allowed.
  - by apply refused_allowed.
Qed.
