(* ===== verification/R2.v ===== *)
(** * The R2 adapter: [r2/r2.go]

    Construction of an R2 adapter: validation of the account, the credentials, the
    options and the endpoint, the loading of the SDK's configuration, and the R2
    transport of the S3 package, which is the model of [S3.v].  The SDK and the
    functions of [net/url] and [net] on hosts are parameters. *)

From S2P Require Import Prelude GoStrings Errors Effects Hoare Paths Capability Contracts Iterator Redact S3.

Record Config := mkR2Config {
  AccountID : bytes;
  Bucket : bytes;
  AccessKeyID : bytes;
  SecretAccessKey : bytes;
  Prefix : bytes;
}.

Record Profile := mkProfile {
  Endpoint : bytes;
  Region : bytes;
  PathStyle : bool;
  SupportsACL : bool;
  SupportsCopyChecksums : bool;
  MultipartRequiresUniformPartSize : bool;
}.

(** A value of the interface [aws.HTTPClient]: nil, a nil pointer or the like inside
    the interface, or a client. *)
Inductive HTTPClient := NilInterface | NilValue | LiveClient (id : Z).

Definition isNilHTTPClient (client : HTTPClient) : bool :=
  match client with NilInterface | NilValue => true | LiveClient _ => false end.

(** A nil transfer option is [None]. *)
Record settings := mkSettings {
  endpoint : bytes;
  developmentEndpoint : bool;
  maxListEntries : Z;
  maxMetadataEntries : Z;
  maxMetadataBytes : Z;
  transferOptions : list (option TransferOption);
  httpClient : HTTPClient;
  httpClientSet : bool;
}.

Inductive Option :=
  | WithEndpoint (endpoint : bytes)
  | WithDevelopmentEndpoint (endpoint : bytes)
  | WithMaxListEntries (limit : Z)
  | WithMetadataLimits (maxEntries maxBytes : Z)
  | WithTransferOptions (options : list (option TransferOption))
  | WithHTTPClient (client : HTTPClient).

Definition apply_option (option : Option) (c : settings) : settings :=
  let '(mkSettings endpoint development maxList maxEntries maxBytes transfer client set) := c in
  match option with
  | WithEndpoint endpoint => mkSettings endpoint false maxList maxEntries maxBytes transfer client set
  | WithDevelopmentEndpoint endpoint =>
      mkSettings endpoint true maxList maxEntries maxBytes transfer client set
  | WithMaxListEntries limit => mkSettings endpoint development limit maxEntries maxBytes transfer client set
  | WithMetadataLimits maxEntries maxBytes =>
      mkSettings endpoint development maxList maxEntries maxBytes transfer client set
  | WithTransferOptions options =>
      mkSettings endpoint development maxList maxEntries maxBytes (transfer ++ options) client set
  | WithHTTPClient client => mkSettings endpoint development maxList maxEntries maxBytes transfer client true
  end.

(** The loop over the options; a nil option is [None]. *)
Fixpoint apply_options (options : list (option Option)) (c : settings) : result settings :=
  match options with
  | [] => Ok c
  | None :: _ => Err (NewError "r2: option must not be nil")
  | Some option :: rest => apply_options rest (apply_option option c)
  end.

Definition default_settings : settings :=
  mkSettings [] false 10000 128 (64 * 1024) [] NilInterface false.

Definition validateLimits (c : settings) : option error :=
  if maxListEntries c <=? 0 then Some (NewError "r2: maximum list entries must be positive")
  else if maxMetadataEntries c <=? 0 then Some (NewError "r2: maximum metadata entries must be positive")
  else if maxMetadataBytes c <=? 0 then Some (NewError "r2: maximum metadata bytes must be positive")
  else None.

(** [accountIDPattern]. *)
Definition is_hex (c : Ascii.ascii) : bool :=
  in_range (code c) 48 57 || in_range (code c) 97 102 || in_range (code c) 65 70.
Definition accountIDPattern (id : bytes) : bool := (length id =? 32)%nat && forallb is_hex id.

Section url.
(** [url.Parse], [URL.Hostname] and [URL.String]; whether [net.ParseIP] of a host is a
    loopback address. *)
Context (url_Parse : bytes → option URL) (Hostname : URL → bytes) (url_String : URL → bytes)
  (loopback_address : bytes → bool).

(** [strings.EqualFold(host, "localhost")], or a loopback address. *)
Definition isLoopback (host : bytes) : bool :=
  bool_decide (match_fold (bs "localhost") host = Some []) || loopback_address host.

(** [parsed.Path = ""]. *)
Definition clear_path (u : URL) : URL :=
  mkURL (Scheme u) (Opaque u) (User u) (Host u) [] (RawPath u) (OmitHost u) (ForceQuery u)
    (RawQuery u) (Fragment u) (RawFragment u).

Definition validateEndpoint (raw : bytes) (development : bool) : result bytes :=
  match url_Parse raw with
  | None => Err (NewError "r2: endpoint must be an absolute URL")
  | Some parsed =>
      if decide (Hostname parsed = []) then Err (NewError "r2: endpoint must be an absolute URL")
      else if decide (User parsed ≠ None) then Err (NewError "r2: endpoint must not contain credentials")
      else if decide (RawQuery parsed ≠ [] ∨ Fragment parsed ≠ []) then
        Err (NewError "r2: endpoint must not contain a query or fragment")
      else if decide (uPath parsed ≠ [] ∧ uPath parsed ≠ [slash]) then
        Err (NewError "r2: endpoint must not contain a path")
      else
        result_bind
          (if development : bool then
             if decide (Scheme parsed ≠ bs "http" ∧ Scheme parsed ≠ bs "https") then
               Err (NewError "r2: development endpoint must use HTTP or HTTPS")
             else if negb (isLoopback (Hostname parsed)) then
               Err (NewError "r2: development endpoint must use loopback")
             else Ok tt
           else if decide (Scheme parsed ≠ bs "https") then Err (NewError "r2: endpoint must use HTTPS")
           else Ok tt)
          (λ _, Ok (TrimSuffix (url_String (clear_path parsed)) [slash]))
  end.

(** The endpoint of an account without an override. *)
Definition account_endpoint (account : bytes) : bytes :=
  bs "https://" ++ (lower <$> account) ++ bs ".r2.cloudflarestorage.com".

(** *** Construction *)

(** What the loader is asked for. *)
Record LoadOptions := mkLoadOptions {
  lRegion : bytes;
  lAccessKeyID : bytes;
  lSecretAccessKey : bytes;
  lHTTPClient : HTTPClient;
}.

Context {S AwsConfig : Type}.
(** [awsconfig.LoadDefaultConfig]; [awss3.NewFromConfig] with a base endpoint and
    path-style addressing; the text an error renders to. *)
Context (loader : context → LoadOptions → M S AwsConfig)
  (NewFromConfig : AwsConfig → bytes → bool → Clients S) (text : error → bytes).

Record Adapter := mkR2Adapter {
  transport : S3.Adapter S;
  profile : Profile;
}.

(** The checks before anything external is called: the settings and the endpoint. *)
Definition validate (configuration : Config) (options : list (option Option)) : result (settings * bytes) :=
  if negb (accountIDPattern (AccountID configuration)) then
    Err (NewError "r2: account ID must be 32 hexadecimal characters")
  else if blank (Bucket configuration) then Err (NewError "r2: bucket is required")
  else if decide (AccessKeyID configuration = []) then Err (NewError "r2: access key ID is required")
  else if decide (SecretAccessKey configuration = []) then Err (NewError "r2: secret access key is required")
  else
    result_bind (apply_options options default_settings) (λ c,
      if decide (None ∈ transferOptions c) then Err (NewError "r2: transfer option must not be nil")
      else if httpClientSet c && isNilHTTPClient (httpClient c) then
        Err (NewError "r2: HTTP client must not be nil")
      else
        let raw := if decide (endpoint c = []) then account_endpoint (AccountID configuration) else endpoint c in
        result_bind (validateEndpoint raw (developmentEndpoint c)) (λ endpoint,
          match validateLimits c with
          | Some err => Err err
          | None =>
              if decide (Prefix configuration ≠ []) then
                match ParsePath (Prefix configuration) with
                | Ok _ => Ok (c, endpoint)
                | Err err => Err (Errorf "r2: invalid prefix: %w" [err] [])
                | Panic msg => Panic msg
                end
              else Ok (c, endpoint)
          end)).

Definition transport_options (configuration : Config) (c : settings) : list S3.Option :=
  [S3.WithMaxListEntries (maxListEntries c);
   S3.WithMetadataLimits (maxMetadataEntries c) (maxMetadataBytes c)] ++
  (if decide (Prefix configuration ≠ []) then [S3.WithPrefix (Prefix configuration)] else []) ++
  [S3.WithTransferOptions (omap id (transferOptions c))].

(** [redact.Error] wrapped: another text, the same cause. *)
Definition load_error (configuration : Config) (err : error) : error :=
  let message := redact_message url_Parse url_String (text err)
                   [AccessKeyID configuration; SecretAccessKey configuration] in
  Errorf "r2: load AWS configuration: %w"
    [Errorf "%s" [err] [FStr (default [] message)]] [].

(** [newWithLoaderAndTransport] with the R2 transport: [Load] and [New]. *)
Definition Load (ctx : option context) (configuration : Config) (options : list (option Option))
    : M S Adapter :=
  match ctx with
  | None => throw (Sentinel ErrContextRequired)
  | Some ctx =>
      do! check_ctx ctx in
      let! x := lift_result (validate configuration options) in
      let '(c, endpoint) := x in
      do! check_ctx ctx in
      let! loaded := attempt (loader ctx (mkLoadOptions (bs "auto") (AccessKeyID configuration)
                                (SecretAccessKey configuration) (httpClient c))) in
      match loaded with
      | inr err => throw (load_error configuration err)
      | inl awsConfiguration =>
          do! check_ctx ctx in
          let client := NewFromConfig awsConfiguration endpoint true in
          let! transport := lift_result (NewR2Transport (Some client) (Bucket configuration)
                              (transport_options configuration c)) in
          ret (mkR2Adapter transport (mkProfile endpoint (bs "auto") true false false true))
      end
  end.

Definition ProfileOf (a : Adapter) : Profile := profile a.
Definition Capabilities (a : Adapter) : CapabilitySet := S3.Capabilities (transport a).
End url.

(** ** What construction enforces *)

Section policy.
Context (url_Parse : bytes → option URL) (Hostname : URL → bytes) (url_String : URL → bytes)
  (loopback_address : bytes → bool).
Local Abbreviation validateEndpoint := (validateEndpoint url_Parse Hostname url_String loopback_address).
Local Abbreviation validate := (validate url_Parse Hostname url_String loopback_address).
Local Abbreviation isLoopback := (isLoopback loopback_address).

(** An endpoint without credentials, path, query or fragment, over HTTPS or, in
    development, on a loopback host. *)
Definition secure_endpoint (raw : bytes) (development : bool) (endpoint : bytes) : Prop :=
  ∃ u, url_Parse raw = Some u ∧ Hostname u ≠ [] ∧ User u = None ∧ RawQuery u = [] ∧ Fragment u = [] ∧
    (uPath u = [] ∨ uPath u = [slash]) ∧
    (if development then (Scheme u = bs "http" ∨ Scheme u = bs "https") ∧ isLoopback (Hostname u) = true
     else Scheme u = bs "https") ∧
    endpoint = TrimSuffix (url_String (clear_path u)) [slash].

Lemma validateEndpoint_secure raw development :
  match validateEndpoint raw development with
  | Ok endpoint => secure_endpoint raw development endpoint
  | Err _ => ∀ endpoint, ¬ secure_endpoint raw development endpoint
  | Panic _ => False
  end.
Proof.
  unfold R2.validateEndpoint, secure_endpoint. destruct (url_Parse raw) as [u|]; [|by intros ? (? & ? & _)].
  destruct (decide (Hostname u = [])) as [|Hh]; [naive_solver|].
  destruct (decide (User u ≠ None)) as [|Hu]; [naive_solver|]. apply dec_stable in Hu.
  destruct (decide (RawQuery u ≠ [] ∨ Fragment u ≠ [])) as [|Hq]; [naive_solver|].
  apply Decidable.not_or in Hq as [Hq Hf]. apply dec_stable in Hq, Hf.
  destruct (decide (uPath u ≠ [] ∧ uPath u ≠ [slash])) as [|Hp]; [naive_solver|].
  assert (Hpath : uPath u = [] ∨ uPath u = [slash])
    by (destruct (decide (uPath u = [])); [by left|]; right; apply dec_stable; naive_solver).
  destruct development.
  - destruct (decide (Scheme u ≠ bs "http" ∧ Scheme u ≠ bs "https")) as [|Hs]; simpl; [naive_solver|].
    assert (Hscheme : Scheme u = bs "http" ∨ Scheme u = bs "https")
      by (destruct (decide (Scheme u = bs "http")); [by left|]; right; apply dec_stable; naive_solver).
    destruct (isLoopback (Hostname u)) eqn:El; simpl; [by exists u|].
    intros e (u' & [= <-] & _ & _ & _ & _ & _ & [_ ?] & _). congruence.
  - destruct (decide (Scheme u ≠ bs "https")) as [|Hs]; simpl; [naive_solver|]. apply dec_stable in Hs.
    by exists u.
Qed.

(** What [Load] accepts: the settings [c] its options make and the endpoint. *)
Definition acceptable (configuration : Config) (options : list (option Option)) (c : settings)
    (endpoint : bytes) : Prop :=
  accountIDPattern (AccountID configuration) = true ∧ blank (Bucket configuration) = false ∧
  AccessKeyID configuration ≠ [] ∧ SecretAccessKey configuration ≠ [] ∧
  apply_options options default_settings = Ok c ∧ None ∉ transferOptions c ∧
  httpClientSet c && isNilHTTPClient (httpClient c) = false ∧
  secure_endpoint (if decide (R2.endpoint c = []) then account_endpoint (AccountID configuration)
                   else R2.endpoint c) (developmentEndpoint c) endpoint ∧
  0 < maxListEntries c ∧ 0 < maxMetadataEntries c ∧ 0 < maxMetadataBytes c ∧
  (Prefix configuration ≠ [] → ∃ p, ParsePath (Prefix configuration) = Ok p).

Lemma validate_acceptable configuration options :
  match validate configuration options with
  | Ok (c, endpoint) => acceptable configuration options c endpoint
  | Err _ => ∀ c endpoint, ¬ acceptable configuration options c endpoint
  | Panic _ => False
  end.
Proof.
  unfold R2.validate, acceptable.
  destruct (accountIDPattern (AccountID configuration)); simpl; [|naive_solver].
  destruct (blank (Bucket configuration)); [naive_solver|].
  destruct (decide (AccessKeyID configuration = [])); [naive_solver|].
  destruct (decide (SecretAccessKey configuration = [])); [naive_solver|].
  assert (Hpanic : ∀ c, match apply_options options c with Panic _ => False | _ => True end).
  { induction options as [|[o|] options IH]; intros c; simpl; [done|apply IH|done]. }
  specialize (Hpanic default_settings).
  destruct (apply_options options default_settings) as [c|e|msg]; simpl; [|naive_solver|done].
  destruct (decide (None ∈ transferOptions c)); [naive_solver|].
  destruct (httpClientSet c && isNilHTTPClient (httpClient c)) eqn:Hc; [naive_solver congruence|].
  pose proof (validateEndpoint_secure
    (if decide (R2.endpoint c = []) then account_endpoint (AccountID configuration) else R2.endpoint c)
    (developmentEndpoint c)) as He.
  destruct (R2.validateEndpoint _ _ _ _ _ _) as [e|err|msg]; simpl; [|naive_solver|done].
  unfold validateLimits.
  destruct (maxListEntries c <=? 0) eqn:H1; [intros c' e' Ha; destruct_and! Ha; simplify_eq; lia|].
  destruct (maxMetadataEntries c <=? 0) eqn:H2; [intros c' e' Ha; destruct_and! Ha; simplify_eq; lia|].
  destruct (maxMetadataBytes c <=? 0) eqn:H3; [intros c' e' Ha; destruct_and! Ha; simplify_eq; lia|].
  destruct (decide (Prefix configuration ≠ [])) as [Hp|Hp].
  - destruct (ParsePath_cases (Prefix configuration)) as [(segs & -> & _)|(err & -> & _)].
    + split_and!; try done; [lia..|]. by eexists.
    + naive_solver.
  - split_and!; try done; lia.
Qed.
End policy.

(** The transport that accepted settings give. *)
Definition transport_config (configuration : Config) (c : settings) (prefix : bytes) : S3.config :=
  S3.mkConfig (bs "r2") (Bucket configuration) prefix (maxListEntries c) (maxMetadataEntries c)
    (maxMetadataBytes c) (omap id (transferOptions c)).

Lemma newAdapter_accepts {S} (client : Clients S) bucket raw prefix limit entries bytes transfers :
  blank bucket = false → 0 < limit → 0 < entries → 0 < bytes →
  (if decide (raw = []) then prefix = [] else ParsePath raw = Ok (mkPath prefix)) →
  ∃ caps, S3.newAdapter (Some client) (S3.mkConfig (bs "r2") bucket raw limit entries bytes transfers) =
    Ok (S3.mkAdapter client (S3.mkConfig (bs "r2") bucket prefix limit entries bytes transfers) caps).
Proof.
  intros Hb H1 H2 H3 Hp.
  assert (Hcaps : ∃ caps, NewCapabilitySet S3.capabilities = Ok caps) by (eexists; vm_compute; reflexivity).
  destruct Hcaps as [caps Hcaps]. exists caps. unfold S3.newAdapter.
  cbn [S3.bucket S3.maxList S3.maxMetadataEntries S3.maxMetadataBytes S3.adapterName S3.prefix S3.uploadOptions].
  rewrite Hb, (proj2 (Z.leb_gt _ _) H1). cbn zeta.
  rewrite (proj2 (Z.eqb_neq entries 0)) by lia. cbn [andb].
  unfold validateMetadataLimits. rewrite (proj2 (Z.leb_gt _ _) H2), (proj2 (Z.leb_gt _ _) H3).
  rewrite decide_False by naive_solver.
  case_decide; [subst prefix|rewrite Hp]; cbn [result_bind]; by rewrite Hcaps.
Qed.

Lemma transport_accepts {S} url_Parse Hostname url_String loopback_address (client : Clients S)
    configuration options c endpoint :
  acceptable url_Parse Hostname url_String loopback_address configuration options c endpoint →
  ∃ prefix caps,
    NewR2Transport (Some client) (Bucket configuration) (transport_options configuration c) =
      Ok (S3.mkAdapter client (transport_config configuration c prefix) caps) ∧
    (if decide (Prefix configuration = []) then prefix = []
     else ParsePath (Prefix configuration) = Ok (mkPath prefix)).
Proof.
  intros (_ & Hb & _ & _ & _ & _ & _ & _ & H1 & H2 & H3 & Hp).
  assert (Hprefix : ∃ prefix, if decide (Prefix configuration = []) then prefix = []
                              else ParsePath (Prefix configuration) = Ok (mkPath prefix)).
  { case_decide as Hn; [by exists []|]. destruct (Hp Hn) as [[v] ->]. by exists v. }
  destruct Hprefix as [prefix Hprefix].
  destruct (newAdapter_accepts client (Bucket configuration) (Prefix configuration) prefix (maxListEntries c)
    (maxMetadataEntries c) (maxMetadataBytes c) (omap id (transferOptions c)) Hb H1 H2 H3 Hprefix) as [caps Ha].
  exists prefix, caps. split; [|done].
  unfold NewR2Transport, new_profile, transport_options. cbn [S3.apply_options S3.apply_option app result_bind].
  unfold positiveListLimit, validateMetadataLimits.
  rewrite Z.gtb_ltb, (proj2 (Z.ltb_lt _ _) H1), (proj2 (Z.leb_gt _ _) H2), (proj2 (Z.leb_gt _ _) H3).
  cbn [negb]. destruct (decide (Prefix configuration ≠ [])) as [Hne|Hnil];
    cbn [S3.apply_options S3.apply_option app result_bind]; [exact Ha|].
  apply dec_stable in Hnil. rewrite Hnil in Ha. exact Ha.
Qed.

(** The error of a failed load: every classification of the cause is kept, and the text
    holds neither credential that can be hidden. *)
Lemma load_error_redacted url_Parse url_String text configuration err :
  ∃ out, load_error url_Parse url_String text configuration err =
      Errorf "r2: load AWS configuration: %w" [Errorf "%s" [err] [FStr out]] [] ∧
    (∀ target, Is (load_error url_Parse url_String text configuration err) target = Is err target) ∧
    ∀ secret, secret = AccessKeyID configuration ∨ secret = SecretAccessKey configuration →
      hidable secret → index (λ s, CutPrefix s secret) out = None.
Proof.
  destruct (redact_clean url_Parse url_String (text err)
    [AccessKeyID configuration; SecretAccessKey configuration]) as (out & Ho & _ & Hs).
  exists out. unfold load_error. rewrite Ho. split_and!; [done| |].
  - intros target. simpl. by rewrite !orb_false_r.
  - intros secret Hin. apply Hs. destruct Hin as [->| ->]; set_solver.
Qed.


(** ** A run *)

(** A parser of plain HTTPS origins. *)
Definition origin_Parse (raw : bytes) : option URL :=
  match CutPrefix raw (bs "https://") with
  | Some host => Some (mkURL (bs "https") [] None host [] [] false false [] [] [])
  | None => None
  end.
Definition origin_String (u : URL) : bytes := Scheme u ++ bs "://" ++ Host u ++ uPath u.

Definition demo_config : Config :=
  mkR2Config (bs "0123456789ABCDEF0123456789abcdef") (bs "bucket") (bs "access-key") (bs "secret-key")
    (bs "tenant//objects").

Definition no_clients (endpoint : bytes) (pathStyle : bool) : Clients unit :=
  mkClients (λ _ _ _ _, throw (Sentinel EOF)) (λ _ _ _, throw (Sentinel EOF)) (λ _ _ _, ret tt)
    (λ _ _, ret tt) (λ _ _, throw (Sentinel EOF)) (λ _ _ _, ret tt) (λ _ _, ret endpoint).

