(* ===== verification/Remote.v ===== *)
(** * What the remote adapters share

    The SFTP and FTP packages declare the same helpers over their own session
    types: the session that is dialled on demand, replaced after a connection
    error and closed once ([currentSession], [invalidate], the retrying wrapper,
    [Close]), and readers that consult a context.  They are defined here over any
    session type, with the proof that no connection is open but the one such an
    adapter holds. *)

From S2P Require Import Prelude GoStrings Errors Effects Hoare Paths Contracts.

(** ** Adapter state *)

(** The mutable fields of an adapter beside the remote state; a section under the
    adapter's mutex is one step of it. *)
Record world (Sess S : Type) := mkWorld {
  remote : S;
  current_session : option Sess;
  adapter_closed : bool;
}.
Arguments remote {_ _}.
Arguments current_session {_ _}.
Arguments adapter_closed {_ _}.
Arguments mkWorld {_ _}.

(** A library call from within the adapter. *)
Definition call {Sess S A} (m : M S A) : M (world Sess S) A := λ t w,
  let '(r, (t', s')) := m t (remote w) in
  (r, (t', mkWorld s' (current_session w) (adapter_closed w))).

Definition set_session {Sess S} (s : option Sess) : M (world Sess S) unit := λ t w,
  (Ok tt, (t, mkWorld (remote w) s (adapter_closed w))).

(** Run [m] for its effect, as [_ = m()]. *)
Definition ignored {S A} (m : M S A) : M S unit := do! attempt m in ret tt.

(** The world of a new adapter. *)
Definition new_world {Sess S} (session : Sess) (s : S) : world Sess S :=
  mkWorld s (Some session) false.

(** ** Readers *)

(** One [Read] of an [io.Reader] with state [R], at a buffer length. *)
Abbreviation read_fn W R := (R → Z → M W (bytes * option error * R)).

(** A reader given by its answers, cut for the buffers it meets. *)
Definition list_Read {W} : read_fn W reader := λ r _,
  match r with
  | [] => ret ([], Some (Sentinel EOF), [])
  | (chunk, err) :: r' => ret (chunk, err, r')
  end.

(** [contextReader.Read]: the context first, then the reader. *)
Definition context_Read {W R} (ctx : context) (Read : read_fn W R) : read_fn W R := λ r n,
  let! done := poll ctx in
  match done with
  | Some err => ret ([], Some err, r)
  | None => Read r n
  end.

(** [io.Copy]: read into a buffer of 32 KiB and write what was read, until the
    reader ends or one side fails.  [fuel] bounds the number of reads. *)
Fixpoint io_Copy {W R} (fuel : nat) (Write : bytes → M W unit) (Read : read_fn W R) (r : R)
    : M W (option error * R) :=
  match fuel with
  | O => panic "out of fuel"
  | S fuel' =>
      let! x := Read r (32 * 1024) in
      let '(chunk, er, r') := x in
      let! w := match chunk with [] => ret (inl tt) | _ => attempt (Write chunk) end in
      match w with
      | inr ew => ret (Some ew, r')
      | inl _ =>
          match er with
          | None => io_Copy fuel' Write Read r'
          | Some (Sentinel EOF) => ret (None, r')
          | Some er => ret (Some er, r')
          end
      end
  end.

(** What one read of a wrapped list reader answers: a context error, or the
    next answer of the list. *)
Lemma context_list_Read {W} ctx source n t (w : W) :
  ∃ x, context_Read ctx list_Read source n t w = (Ok x, (t + 1, w)) ∧
    ((∃ ce, x = ([], Some (ctx_error_value ce), source)) ∨
     x = match source with [] => ([], Some (Sentinel EOF), []) | (b, e) :: r => (b, e, r) end).
Proof.
  unfold context_Read, list_Read, bind, poll, ret. simpl.
  destruct (ctx_Err ctx t) as [err|] eqn:He.
  - apply ctx_Err_value in He as [ce ->]. eauto.
  - destruct source as [|[b e] r]; eauto.
Qed.

(** ** The shared session *)

Section session.
Context {Sess S : Type} `{!EqDecision Sess}.
(** [connector] dials; [disconnect] is [Close] of an SFTP and [Quit] of an FTP
    session; [isConnectionError] classifies. *)
Context (connector : context → M S Sess) (disconnect : Sess → M S unit)
  (isConnectionError : error → bool).

Definition close_adapter : M (world Sess S) unit :=
  let! w := get in
  if adapter_closed w then ret tt
  else
    do! put (mkWorld (remote w) (current_session w) true) in
    match current_session w with
    | None => ret tt
    | Some session =>
        let! err := attempt (call (disconnect session)) in
        do! set_session None in
        match err with inl _ => ret tt | inr err => throw err end
    end.

Definition current_or_dial (ctx : context) : M (world Sess S) Sess :=
  do! check_ctx ctx in
  let! w := get in
  if adapter_closed w then throw (Sentinel NetErrClosed)
  else match current_session w with
       | Some session => ret session
       | None =>
           let! session := call (connector ctx) in
           do! set_session (Some session) in
           ret session
       end.

Definition drop_session (failed : Sess) : M (world Sess S) unit :=
  let! w := get in
  if decide (current_session w = Some failed) then
    do! ignored (call (disconnect failed)) in
    set_session None
  else ret tt.

Definition reconnecting {T} (ctx : context) (retry : bool)
    (operation : Sess → M (world Sess S) T) : M (world Sess S) T :=
  let! session := current_or_dial ctx in
  let! r := attempt (operation session) in
  match r with
  | inl result => ret result
  | inr err =>
      if negb retry || negb (isConnectionError err) then throw err
      else
        do! drop_session session in
        let! s := attempt (current_or_dial ctx) in
        match s with
        | inr reconnectErr => throw (Joined [err; reconnectErr])
        | inl session => operation session
        end
  end.
End session.

(** ** Rules *)

Section rules.
Context {S : Type} (panics : Prop) (P : S → Prop).

Lemma keeps_ignored {A} (m : M S A) : keeps panics P m → keeps panics P (ignored m).
Proof. intros Hm. unfold ignored. keeps_split. Qed.

Lemma keeps_list_Read source n : keeps panics P (list_Read source n).
Proof. unfold list_Read. keeps_split. Qed.

Lemma keeps_context_Read {R} ctx (rd : read_fn S R) r n :
  (∀ r n, keeps panics P (rd r n)) → keeps panics P (context_Read ctx rd r n).
Proof. intros. unfold context_Read. keeps_split. Qed.

Lemma keeps_io_Copy {R} fuel wr (rd : read_fn S R) r :
  panics → (∀ b, keeps panics P (wr b)) → (∀ r n, keeps panics P (rd r n)) →
  keeps panics P (io_Copy fuel wr rd r).
Proof.
  intros Hp Hw Hr. revert r. induction fuel as [|fuel IH]; intros r; simpl; keeps_split.
Qed.
End rules.
#[export] Hint Resolve keeps_ignored keeps_list_Read keeps_context_Read keeps_io_Copy : keeps.

(** [_ = m()] goes on whatever [m] returned. *)
Lemma triple_ignored {S A} (P Q : S → Prop) (m : M S A) :
  triple P m (λ r s, Q s ∧ match r with Panic _ => False | _ => True end) →
  triple P (ignored m) (λ r s, r = Ok tt ∧ Q s).
Proof.
  intros H. apply (triple_bind _ (λ _, Q)); [|intros _; by apply triple_ret].
  eapply triple_attempt; [exact H|]. intros s. simpl. naive_solver.
Qed.

Lemma triple_after_ignored {S A B} (P Q : S → Prop) (m : M S A) (k : M S B) (K : result B → S → Prop) :
  triple P m (λ r s, Q s ∧ match r with Panic _ => False | _ => True end) →
  triple Q k K → triple P (do! ignored m in k) K.
Proof.
  intros Hm Hk. apply (triple_bind _ (λ _, Q)); [|by intros _].
  eapply triple_conseq; [by apply triple_ignored|done|]. by intros r s [-> HQ].
Qed.

(** A rule for the remote state is one for the world. *)
Lemma triple_call {Sess S A} (P : S → Prop) (m : M S A) (Q : result A → S → Prop) :
  triple P m Q →
  triple (λ w : world Sess S, P (remote w)) (call m) (λ r w, Q r (remote w)).
Proof.
  intros H t w HP. specialize (H t (remote w) HP).
  unfold run_result, run_state, call in *. by destruct (m t (remote w)) as [r [t' s']].
Qed.

Lemma keeps_call_remote {Sess S A} panics (P : S → Prop) (m : M S A) :
  keeps panics P m → keeps panics (λ w : world Sess S, P (remote w)) (call m).
Proof.
  intros H. apply (triple_call P m (λ r s, P s ∧ match r with Panic _ => panics | _ => True end) H).
Qed.

Section session_rules.
Context {Sess S : Type} `{!EqDecision Sess}.
Context (connector : context → M S Sess) (disconnect : Sess → M S unit)
  (isConnectionError : error → bool).
Context (panics : Prop) (P : world Sess S → Prop).
Local Abbreviation current := (current_or_dial connector).
Local Abbreviation drop := (drop_session disconnect).

Lemma keeps_reconnecting {T} ctx retry (op : Sess → M (world Sess S) T) :
  keeps panics P (current ctx) → (∀ ss, keeps panics P (drop ss)) →
  (∀ ss, keeps panics P (op ss)) →
  keeps panics P (reconnecting connector disconnect isConnectionError ctx retry op).
Proof. intros. unfold reconnecting. keeps_split. Qed.

(** What the operation establishes, the wrapper does, when every failure may
    end it. *)
Lemma triple_reconnecting {T} ctx retry (op : Sess → M (world Sess S) T) Q :
  keeps False P (current ctx) → (∀ ss, keeps False P (drop ss)) →
  (∀ e w, P w → Q (Err e) w) →
  (∀ ss, triple P (op ss) (λ r w, P w ∧ Q r w)) →
  triple P (reconnecting connector disconnect isConnectionError ctx retry op) Q.
Proof.
  intros Hc Hd He Hop. unfold reconnecting.
  apply (triple_keeps_bind False); [done|by split; [intros; apply He|]|]. intros ss.
  apply (triple_bind _ (λ x w, P w ∧ match x with inl y => Q (Ok y) w | inr e => Q (Err e) w end)).
  { eapply triple_attempt; [apply Hop|]. intros w. split_and!; [done..|]. by intros msg [_ ?]. }
  intros [y|e]; [apply triple_ret; by intros w [_ ?]|].
  destruct (negb retry || negb (isConnectionError e)); [apply triple_throw; by intros w [_ ?]|].
  eapply triple_conseq; [|by intros w [? _]|done].
  apply (triple_keeps_bind False); [done|by split; [intros; apply He|]|]. intros _.
  apply (triple_keeps_bind False); [by apply keeps_attempt|by split; [intros; apply He|]|].
  intros [ss'|e']; [|apply triple_throw; intros w; apply He].
  eapply triple_conseq; [apply Hop|done|]. by intros r w [_ ?].
Qed.
End session_rules.

(** A property of the remote state that neither dialling nor disconnecting
    changes. *)
Section remote_rules.
Context {Sess S : Type} `{!EqDecision Sess}.
Context (connector : context → M S Sess) (disconnect : Sess → M S unit).
Context (panics : Prop) (P : S → Prop).
Local Abbreviation at_remote := (λ w : world Sess S, P (remote w)).
Hypothesis connector_keeps : ∀ ctx, keeps panics P (connector ctx).
Hypothesis disconnect_keeps : ∀ ss, keeps panics P (disconnect ss).

Lemma keeps_set_session_remote ss : keeps panics at_remote (set_session ss).
Proof. by intros t w Hw. Qed.
Local Hint Resolve keeps_set_session_remote keeps_call_remote : keeps.

Lemma keeps_current_remote ctx : keeps panics at_remote (current_or_dial connector ctx).
Proof. unfold current_or_dial. keeps_split. Qed.
Lemma keeps_drop_remote ss : keeps panics at_remote (drop_session disconnect ss).
Proof. unfold drop_session. keeps_split. Qed.
Lemma keeps_close_remote : keeps panics at_remote (close_adapter disconnect).
Proof.
  intros t w Hw. unfold close_adapter, run_result, run_state, bind, get, put, ret, attempt, call,
    set_session, throw. simpl. destruct (adapter_closed w); [done|].
  destruct (current_session w) as [ss|]; [|done]. pose proof (disconnect_keeps ss t (remote w) Hw) as H.
  unfold run_result, run_state in H. simpl. by destruct (disconnect ss t (remote w)) as [[] [t' s']].
Qed.
End remote_rules.

(** ** Session ownership *)

(** The connections an adapter accounts for; [key] is the connection a session
    runs over. *)
Definition owned {Sess S K} `{Countable K} (key : Sess → K) (w : world Sess S) : gset K :=
  match current_session w with Some ss => {[key ss]} | None => ∅ end.

Section ownership.
Context {Sess S K : Type} `{!EqDecision Sess, Countable K}.
(** [Conn l s]: no connection but those of [l], and what the package accounts for
    elsewhere, is open in [s]. *)
Context (key : Sess → K) (Conn : gset K → S → Prop).
Context (connector : context → M S Sess) (disconnect : Sess → M S unit).

(** Dialling opens the connection of the session it returns, or none; disconnecting
    closes it whatever it returns. *)
Hypothesis dial_conn : ∀ ctx l,
  triple (Conn l) (connector ctx)
    (λ r s, match r with
            | Ok ss => Conn ({[key ss]} ∪ l) s
            | Err _ => Conn l s
            | Panic _ => False
            end).
Hypothesis disconnect_conn : ∀ ss l,
  triple (Conn l) (disconnect ss)
    (λ r s, Conn (l ∖ {[key ss]}) s ∧ match r with Panic _ => False | _ => True end).

(** Only the connection the adapter holds is open; a closed adapter holds none, and
    once closed it stays closed. *)
Definition session_inv (was_closed : bool) (w : world Sess S) : Prop :=
  Conn (owned key w) (remote w) ∧
  (adapter_closed w = true → current_session w = None) ∧
  (was_closed = true → adapter_closed w = true).

(** A call that opens no connection. *)
Definition calm {A} (m : M S A) : Prop := ∀ l, keeps True (Conn l) m.

Lemma calm_of {A} (m : M S A) :
  (∀ l t s, Conn l s → Conn l (run_state m t s)) → calm m.
Proof. intros Hm l. by apply keeps_any, Hm. Qed.

Lemma keeps_call {A} c (m : M S A) : calm m → keeps True (session_inv c) (call m).
Proof.
  intros Hm. apply keeps_any. intros t w (Hl & Hc).
  pose proof (proj1 (keeps_any _ _) (Hm (owned key w)) t (remote w) Hl) as Hl'.
  unfold session_inv, run_state, call in *. by destruct (m t (remote w)) as [[] [t' s']].
Qed.

Lemma keeps_current c ctx : keeps True (session_inv c) (current_or_dial connector ctx).
Proof.
  unfold current_or_dial. apply keeps_bind; [auto with keeps|].
  intros _. apply keeps_any. intros t w Hinv. pose proof Hinv as (Hl & Hc & Hk).
  unfold bind, get, throw, run_state, call, set_session, ret.
  destruct (adapter_closed w) eqn:Ec; [exact Hinv|].
  destruct (current_session w) as [ss|] eqn:Es; [exact Hinv|].
  pose proof (dial_conn ctx ∅ t (remote w)) as Hd.
  unfold owned in Hl. rewrite Es in Hl. specialize (Hd Hl).
  unfold run_result, run_state in Hd. simpl.
  destruct (connector ctx t (remote w)) as [[ss|e|msg] [t' s']]; simpl in *;
    unfold session_inv, owned; simpl; [|by rewrite Es, Ec|done].
  rewrite union_empty_r_L in Hd. by rewrite Ec in *.
Qed.

(** Disconnecting the session that is held, with any outcome, leaves none. *)
Lemma disconnect_owned ss t (s : S) :
  Conn {[key ss]} s →
  Conn ∅ (run_state (disconnect ss) t s) ∧
  match run_result (disconnect ss) t s with Panic _ => False | _ => True end.
Proof.
  intros Hl. destruct (disconnect_conn ss {[key ss]} t s Hl) as (Hd & ?).
  by rewrite difference_diag_L in Hd.
Qed.

Lemma keeps_drop c ss : keeps True (session_inv c) (drop_session disconnect ss).
Proof.
  apply keeps_any. intros t w (Hl & Hc & Hk).
  unfold drop_session, ignored, bind, get, ret, attempt, call, set_session.
  unfold run_state. simpl. case_decide as Es; [|done]. unfold owned in Hl. rewrite Es in Hl.
  destruct (disconnect_owned ss t (remote w) Hl) as [Hl' Hp]. unfold run_state, run_result in *.
  destruct (disconnect ss t (remote w)) as [[x|e|msg] [t' s']]; simpl in *; [..|done];
    unfold session_inv, owned; simpl; auto.
Qed.

Lemma keeps_close c : triple (session_inv c) (close_adapter disconnect) (λ _, session_inv true).
Proof.
  intros t w (Hl & Hc & Hk).
  unfold close_adapter, bind, get, put, ret, attempt, call, set_session, throw.
  unfold run_state. simpl. destruct (adapter_closed w) eqn:Ec.
  { unfold session_inv. simpl. auto. }
  destruct (current_session w) as [ss|] eqn:Es; simpl; unfold owned in Hl; rewrite Es in Hl;
    [|by unfold session_inv, owned; simpl].
  destruct (disconnect_owned ss t (remote w) Hl) as [Hl' Hp]. unfold run_state, run_result in *.
  destruct (disconnect ss t (remote w)) as [[x|e|msg] [t' s']]; simpl in *; [..|done];
    unfold session_inv, owned; simpl; auto.
Qed.

(** A sequence of requests that keep the invariant, some of which close. *)
Section requests.
Context {Rq : Type} (perform : Rq → M (world Sess S) unit) (closes : Rq → bool).
Hypothesis perform_keeps : ∀ c rq, keeps True (session_inv c) (perform rq).
Hypothesis perform_closes : ∀ c rq, closes rq = true →
  triple (session_inv c) (perform rq) (λ _, session_inv true).

Fixpoint perform_seq (requests : list Rq) : M (world Sess S) unit :=
  match requests with
  | [] => ret tt
  | rq :: rest => do! perform rq in perform_seq rest
  end.

Lemma perform_seq_owned c requests :
  triple (session_inv c) (perform_seq requests)
    (λ r w, session_inv c w ∧
       (r = Ok tt → existsb closes requests = true → session_inv true w)).
Proof.
  revert c. induction requests as [|rq requests IH]; intros c; simpl; [by apply triple_ret|].
  destruct (closes rq) eqn:Ec; simpl.
  - apply (triple_bind _ (λ _, session_inv true)).
    + intros t w Hw. destruct (perform_keeps c rq t w Hw) as [? _].
      pose proof (perform_closes c rq Ec t w Hw). by destruct (run_result _ t w).
    + intros _. eapply triple_conseq; [apply IH|done|].
      intros r w [(? & ? & ?) ?]. split; [by repeat split; auto|done].
  - apply (triple_bind _ (λ _, session_inv c)); [|intros _; apply IH].
    eapply triple_conseq; [apply perform_keeps|done|]. by intros [] w [? ?].
Qed.
End requests.
End ownership.

(** ** Remote files by name *)

(** The file [old] is now called [new]. *)
Definition renamed (old new : bytes) (f f' : gmap bytes bytes) : Prop :=
  ∃ c, f !! old = Some c ∧ f' = <[new := c]> (delete old f).

(** Only [name] may differ. *)
Definition agree_off (name : bytes) (f f' : gmap bytes bytes) : Prop :=
  ∀ q, q ≠ name → f' !! q = f !! q.

(** Only [a] and [b] may differ. *)
Definition agree_off2 (a b : bytes) (f f' : gmap bytes bytes) : Prop :=
  ∀ q, q ≠ a → q ≠ b → f' !! q = f !! q.

Lemma agree_off_left tmp f f' :
  f !! tmp = None → agree_off tmp f f' →
  f' = f ∨ ∃ c, f' = <[tmp := c]> f.
Proof.
  intros Hn Ha. destruct (f' !! tmp) as [c|] eqn:E; [right; exists c|left]; apply map_eq; intros q;
    (destruct (decide (q = tmp)) as [->|Hne]; [|rewrite ?lookup_insert_ne by done; by apply Ha]).
  - by rewrite lookup_insert_eq.
  - by rewrite E, Hn.
Qed.

Lemma agree_off_delete tmp f f' : agree_off tmp f f' → agree_off tmp f (delete tmp f').
Proof. intros H q Hq. by rewrite lookup_delete_ne, H. Qed.

Lemma agree_off_insert tmp c f : agree_off tmp f (<[tmp := c]> f).
Proof. intros q Hq. by rewrite lookup_insert_ne. Qed.
