(* ===== verification/Proxy.v ===== *)
(** * The TCP fault proxy: construction and forwarding, [fstest/proxy.go]

    The options and their validation, and one direction of a forwarded
    connection: [io.Copy] from a faulty reader over the source connection to a
    faulty writer over the destination.  The goroutines around it are in
    [ProxyConc.v]. *)

From S2P Require Import Prelude GoStrings Errors Effects Contracts Digest Fault Remote.

(** ** Options *)

Record TCPFaultDirection := mkTCPFaultDirection {
  DisconnectAfter : Z;
  Latency : Z;
  dCorruptOffsets : list Z;
}.

Record TCPFaultProxyOptions := mkTCPFaultProxyOptions {
  ClientToServer : TCPFaultDirection;
  ServerToClient : TCPFaultDirection;
}.

Definition colon : Ascii.ascii := ":"%char.
Definition lbracket : Ascii.ascii := "["%char.
Definition rbracket : Ascii.ascii := "]"%char.

(** The text up to the last [:] and the text after it. *)
Definition cut_last_colon (s : bytes) : option (bytes * bytes) :=
  match Cut (reverse s) colon with
  | (after, before, true) => Some (reverse before, reverse after)
  | _ => None
  end.

(** [net.SplitHostPort]: host and port, or [None] for one of its errors. *)
Definition SplitHostPort (hostport : bytes) : option (bytes * bytes) :=
  match cut_last_colon hostport with
  | None => None
  | Some (front, port) =>
      match hostport with
      | "["%char :: rest =>
          match Cut rest rbracket with
          | (host, after, true) =>
              (* the first ] stands just before the last : *)
              if decide (front = lbracket :: host ++ [rbracket]) then
                if ContainsByte rest lbracket || ContainsByte after rbracket then None
                else Some (host, port)
              else None
          | _ => None
          end
      | _ =>
          if ContainsByte front colon then None
          else if ContainsByte hostport lbracket || ContainsByte hostport rbracket then None
          else Some (front, port)
      end
  end.

(** The checks of [NewTCPFaultProxy] before it listens. *)
Definition validate_proxy (upstream : bytes) (options : TCPFaultProxyOptions) : option error :=
  match SplitHostPort upstream with
  | None => Some (NewError "fstest: TCP fault proxy upstream must include host and port")
  | Some _ =>
      if (DisconnectAfter (ClientToServer options) <? 0) || (DisconnectAfter (ServerToClient options) <? 0)
      then Some (NewError "fstest: TCP fault proxy cutoff must not be negative")
      else if (Latency (ClientToServer options) <? 0) || (Latency (ServerToClient options) <? 0)
      then Some (NewError "fstest: TCP fault proxy latency must not be negative")
      else None
  end.

Example split_plain : SplitHostPort (bs "127.0.0.1:80") = Some (bs "127.0.0.1", bs "80").
Proof. reflexivity. Qed.
Example split_brackets : SplitHostPort (bs "[::1]:80") = Some (bs "::1", bs "80").
Proof. reflexivity. Qed.
Example split_rejects :
  SplitHostPort <$> [bs "localhost"; bs "::1:80"; bs "[::1]"; bs "[a]b:80"; bs "a[b]:80"; bs "[a:80"]
  = [None; None; None; None; None; None].
Proof. reflexivity. Qed.

(** ** One direction *)

Section direction.
Context {U V : Type} `{Reader U} `{Writer V}.
(** [CloseWrite] of a [net.TCPConn], [Close] of any other destination. *)
Context (shutdown : V → V).

(** What [io.Copy] moves between. *)
Record relay := mkRelay { rl_reader : FaultReader U; rl_writer : FaultWriter V }.

Definition relay_Read : read_fn relay unit := λ _ n t x,
  match FaultReader_Read n t (rl_reader x) with
  | (Ok (chunk, err), (t', r')) => (Ok (chunk, err, tt), (t', mkRelay r' (rl_writer x)))
  | (Err e, (t', r')) => (Err e, (t', mkRelay r' (rl_writer x)))
  | (Panic msg, (t', r')) => (Panic msg, (t', mkRelay r' (rl_writer x)))
  end.

(** One write of [io.Copy]: a short count without an error is [io.ErrShortWrite]. *)
Definition relay_Write (b : bytes) : M relay unit := λ t x,
  match FaultWriter_Write b t (rl_writer x) with
  | (Ok (count, err), (t', w')) =>
      (match err with
       | Some e => Err e
       | None => if count =? len b then Ok tt else Err (NewError "short write")
       end, (t', mkRelay (rl_reader x) w'))
  | (Err e, (t', w')) => (Err e, (t', mkRelay (rl_reader x) w'))
  | (Panic msg, (t', w')) => (Panic msg, (t', mkRelay (rl_reader x) w'))
  end.

Definition failAfter (direction : TCPFaultDirection) : Z :=
  if DisconnectAfter direction >? 0 then DisconnectAfter direction else -1.

Definition reader_options (direction : TCPFaultDirection) : FaultReaderOptions :=
  mkFaultReaderOptions 0 (failAfter direction) (Some (Sentinel EOF)) 0 (dCorruptOffsets direction).

Definition writer_options (direction : TCPFaultDirection) : FaultWriterOptions :=
  mkFaultWriterOptions 0 (-1) None (Latency direction).

(** [copyDirection] on a source and a destination; [fuel] bounds the reads.  What
    [io.Copy] returns is dropped. *)
Definition copyDirection (fuel : nat) (direction : TCPFaultDirection) : M (U * V) unit := λ t x,
  let start := mkRelay (NewFaultReader x.1 (reader_options direction))
                 (NewFaultWriter x.2 (writer_options direction)) in
  match io_Copy fuel relay_Write relay_Read tt t start with
  | (Panic msg, (t', y)) => (Panic msg, (t', (fr_reader (rl_reader y), fw_writer (rl_writer y))))
  | (_, (t', y)) => (Ok tt, (t', (fr_reader (rl_reader y), shutdown (fw_writer (rl_writer y)))))
  end.
End direction.
Arguments relay : clear implicits.
Arguments mkRelay {_ _}.

(** ** Connections *)

(** The bytes that arrive on a connection, as the network cuts them, and how it
    ends: [io.EOF], or an error when it is reset or closed locally. *)
Record inbound := mkInbound { arriving : list bytes; ending : error }.

Definition inbound_Read (n : Z) (c : inbound) : (bytes * option error) * inbound :=
  match arriving c with
  | [] => (([], Some (ending c)), c)
  | segment :: rest =>
      let left := drop (Z.to_nat n) segment in
      ((take (Z.to_nat n) segment, None),
       mkInbound (if decide (left = []) then rest else left :: rest) (ending c))
  end.

#[export] Program Instance inbound_Reader : Reader inbound := { Read := inbound_Read }.
Next Obligation.
  intros n c Hn. unfold inbound_Read. destruct (arriving c) as [|segment rest]; unfold len; simpl; [lia|].
  rewrite length_take. lia.
Qed.

(** The sending half: what the peer was sent, how much it will still take before
    the connection breaks ([None]: it does not), and whether it was shut down. *)
Record outbound := mkOutbound { delivered : bytes; room : option nat; shut : bool }.

Definition broken : error := NewError "write: broken pipe".

Definition outbound_Write (b : bytes) (c : outbound) : (Z * option error) * outbound :=
  match room c with
  | None => ((len b, None), mkOutbound (delivered c ++ b) None (shut c))
  | Some r =>
      if (length b <=? r)%nat
      then ((len b, None), mkOutbound (delivered c ++ b) (Some (r - length b)%nat) (shut c))
      else ((Z.of_nat r, Some broken), mkOutbound (delivered c ++ take r b) (Some 0%nat) (shut c))
  end.

#[export] Program Instance outbound_Writer : Writer outbound := { WriteTo := outbound_Write }.
Next Obligation.
  intros b c. unfold outbound_Write, len. destruct (room c) as [r|]; [|simpl; lia].
  destruct (length b <=? r)%nat eqn:Hr; simpl; [lia|]. apply Nat.leb_gt in Hr. lia.
Qed.

Definition CloseWrite (c : outbound) : outbound := mkOutbound (delivered c) (room c) true.

(** The first [room] bytes. *)
Definition clip (room : option nat) (b : bytes) : bytes :=
  match room with None => b | Some r => take r b end.

(** ** What a direction forwards *)

(** Reads left on a connection, at least one byte or one cut each. *)
Definition pending_reads (c : inbound) : nat := length (arriving c) + length (concat (arriving c)).

Section relayed.
Context (direction : TCPFaultDirection).
Local Abbreviation k := (failAfter direction).
#[local] Arguments failAfter : simpl never.

Definition corrupted : gset Z :=
  list_to_set (filter (λ offset, offset >= 0) (dCorruptOffsets direction)).

(** The relay after [m] bytes. *)
Definition relay_at (c : inbound) (m : Z) (d : outbound) (written : Z) : relay inbound outbound :=
  mkRelay (mkFaultReader c 0 k (Sentinel EOF) m 0 corrupted)
    (mkFaultWriter d 0 (-1) (Sentinel ErrUnexpectedEOF) (Latency direction) written).

(** One read: some of what arrives, with an error exactly at the cutoff or at the
    end of the connection. *)
Lemma relay_Read_at n c m d written t :
  0 < n → 0 ≤ m → (0 ≤ k → m ≤ k) → m + len (concat (arriving c)) ≤ MaxInt64 →
  ∃ chunk err c', concat (arriving c) = chunk ++ concat (arriving c') ∧ ending c' = ending c ∧
    relay_Read tt n t (relay_at c m d written) =
      (Ok (corrupt_bytes corrupted m chunk, err, tt), (t, relay_at c' (m + len chunk) d written)) ∧
    (0 ≤ k → m + len chunk ≤ k) ∧
    match err with
    | None => (pending_reads c' < pending_reads c)%nat
    | Some e => (0 ≤ k ∧ m + len chunk = k ∧ e = Sentinel EOF) ∨
                (concat (arriving c') = [] ∧ (0 ≤ k → m + len chunk < k) ∧ e = ending c)
    end.
Proof.
  intros Hn Hm Hk Hmax. unfold relay_Read, FaultReader_Read, bind, get, sleep, ret, put.
  cbn [rl_reader rl_writer relay_at fr_latency fr_failAfter fr_read fr_err fr_maxChunk fr_reader fr_corrupt].
  rewrite Z.add_0_r, !Z.geb_leb. destruct ((0 <=? k) && (k <=? m)) eqn:Hstop.
  { eexists [], _, c. change (len (@nil Ascii.ascii)) with 0. rewrite Z.add_0_r.
    split_and!; [done|done|done|lia|]. left. split_and!; (done || lia). }
  destruct (fault_limit_pos 0 k m n Hn ltac:(lia)) as [HL HLk].
  set (L := fault_limit 0 k m n) in *. cbn [Read inbound_Reader]. unfold inbound_Read.
  destruct (arriving c) as [|segment rest] eqn:Ha.
  - eexists [], (Some (ending c)), c. rewrite Ha. simpl in *.
    change (len (@nil Ascii.ascii)) with 0 in *. rewrite !Z.add_0_r.
    rewrite wrap64_id by (unfold is_int64, MaxInt64 in *; lia).
    rewrite Z.geb_leb, Hstop. split_and!; [done|done|done|lia|]. right. split_and!; (done || lia).
  - set (chunk := take (Z.to_nat L) segment). set (left := drop (Z.to_nat L) segment).
    assert (Hseg : segment = chunk ++ left) by (symmetry; apply take_drop).
    assert (HcL : len chunk ≤ L) by (unfold len, chunk; rewrite length_take; lia).
    pose proof (len_nonneg chunk). simpl in Hmax. rewrite len_app, Hseg, len_app in Hmax.
    pose proof (len_nonneg left). pose proof (len_nonneg (concat rest)).
    rewrite wrap64_id by (unfold is_int64, MaxInt64 in *; lia). rewrite Z.geb_leb.
    eexists chunk, _, _. split; [|split; [|split; [done|split; [lia|]]]]; simpl.
    + rewrite Hseg, <- app_assoc. f_equal. by case_decide as E; [rewrite E|].
    + done.
    + destruct ((0 <=? k) && (k <=? m + len chunk)) eqn:Hfin.
      * left. split_and!; (done || lia).
      * unfold pending_reads. simpl. rewrite Ha. simpl. rewrite Hseg, !length_app.
        case_decide as E; simpl; rewrite ?length_app, ?E; simpl; [lia|].
        assert (chunk ≠ []); [|destruct chunk; simpl in *; [done|lia]].
        intros Hc. apply E. rewrite Hc in Hseg. simpl in Hseg. fold left.
        destruct segment; [done|]. unfold chunk in Hc. destruct (Z.to_nat L) eqn:HL'; [lia|done].
Qed.

(** One write: all of it, or what the peer still takes. *)
Lemma relay_Write_at b c m d written t :
  0 ≤ written → written + len b ≤ MaxInt64 →
  ∃ r d' written' t', relay_Write b t (relay_at c m d written) = (r, (t', relay_at c m d' written')) ∧
    delivered d' = delivered d ++ clip (room d) b ∧ shut d' = shut d ∧
    match r with
    | Ok _ => written' = written + len b ∧
        room d' = (λ r, (r - length b)%nat) <$> room d ∧ (∀ r, room d = Some r → (length b ≤ r)%nat)
    | Err _ => ∃ r, room d = Some r ∧ (r < length b)%nat
    | Panic _ => False
    end.
Proof.
  intros Hw Hmax. pose proof (len_nonneg b).
  unfold relay_Write, FaultWriter_Write, bind, get, sleep, ret, put. cbn.
  match goal with |- context [take ?n b] =>
    replace (take n b) with b by (symmetry; apply take_ge; unfold fault_limit, len; simpl; lia) end.
  unfold outbound_Write.
  destruct (room d) as [r|] eqn:Hr; [destruct (length b <=? r)%nat eqn:Hle|]; cbn.
  - apply Nat.leb_le in Hle. rewrite Z.eqb_refl, wrap64_id by (unfold is_int64, MaxInt64 in *; lia).
    eexists _, _, _, _. split; [done|]. simpl. rewrite take_ge by done. split_and!; [done..|naive_solver].
  - apply Nat.leb_gt in Hle. rewrite wrap64_id by (unfold is_int64, MaxInt64, len in *; lia).
    eexists _, _, _, _. split; [done|]. simpl. split_and!; [done..|]. eauto.
  - rewrite Z.eqb_refl, wrap64_id by (unfold is_int64, MaxInt64 in *; lia).
    eexists _, _, _, _. split; [done|]. simpl. by split_and!.
Qed.

(** What the cutoff lets through of the bytes that follow the first [m]. *)
Definition let_through (m : Z) (b : bytes) : bytes :=
  if k <? 0 then b else take (Z.to_nat (k - m)) b.

Lemma let_through_app m x y :
  0 ≤ m → (0 ≤ k → m + len x ≤ k) → let_through m (x ++ y) = x ++ let_through (m + len x) y.
Proof.
  intros Hm Hk. unfold let_through. destruct (k <? 0) eqn:E; [done|].
  rewrite take_app_ge by (unfold len in *; lia). do 2 f_equal. unfold len in *. lia.
Qed.

Lemma let_through_end m y : 0 ≤ k → m = k → let_through m y = [].
Proof.
  intros Hk ->. unfold let_through. rewrite (proj2 (Z.ltb_ge _ _)) by lia.
  by rewrite Z.sub_diag.
Qed.

Lemma clip_app room x y :
  (∀ r, room = Some r → (length x ≤ r)%nat) →
  clip room (x ++ y) = x ++ clip ((λ r, (r - length x)%nat) <$> room) y.
Proof.
  intros Hr. destruct room as [r|]; [|done]. simpl. by rewrite take_app_ge by auto.
Qed.

Lemma clip_nil room : clip room [] = [].
Proof. destruct room; [apply take_nil|done]. Qed.

Lemma clip_short room x y r : room = Some r → (r < length x)%nat → clip room (x ++ y) = clip room x.
Proof. intros -> Hr. simpl. by rewrite take_app_le by lia. Qed.

(** One iteration's write, skipped when nothing was read. *)
Lemma relay_write_step (b : bytes) c m d written t :
  0 ≤ written → written + len b ≤ MaxInt64 →
  ∃ r d' written' t',
    (match b with [] => ret (inl tt) | _ => attempt (relay_Write b) end) t (relay_at c m d written)
      = (Ok r, (t', relay_at c m d' written')) ∧
    delivered d' = delivered d ++ clip (room d) b ∧ shut d' = shut d ∧
    match r with
    | inl _ => written' = written + len b ∧
        room d' = (λ r, (r - length b)%nat) <$> room d ∧ (∀ r, room d = Some r → (length b ≤ r)%nat)
    | inr _ => ∃ r, room d = Some r ∧ (r < length b)%nat
    end.
Proof.
  intros Hw Hmax. destruct b as [|x b].
  - eexists (inl tt), d, written, t. change (len (@nil Ascii.ascii)) with 0. simpl.
    split_and!; [done| |done|lia| |].
    + by rewrite clip_nil, app_nil_r.
    + destruct (room d); simpl; [|done]. by rewrite Nat.sub_0_r.
    + intros. lia.
  - destruct (relay_Write_at (x :: b) c m d written t Hw Hmax) as (r & d' & w' & t' & Hr & Hd & Hs & Hcase).
    unfold attempt. rewrite Hr. destruct r as [u|e|msg]; [| |done]; (eexists _, d', w', t'; split_and!; [done..|]); done.
Qed.

Lemma io_Copy_relayed fuel c m d t :
  0 ≤ m → (0 ≤ k → m ≤ k) → m + len (concat (arriving c)) ≤ MaxInt64 → (pending_reads c < fuel)%nat →
  ∃ r t' c' m' d' w', io_Copy fuel relay_Write relay_Read tt t (relay_at c m d m)
      = (Ok r, (t', relay_at c' m' d' w')) ∧ shut d' = shut d ∧
    delivered d' = delivered d ++
      clip (room d) (corrupt_bytes corrupted m (let_through m (concat (arriving c)))).
Proof.
  revert c m d t. induction fuel as [|fuel IH]; intros c m d t Hm Hk Hmax Hf; [lia|].
  destruct (relay_Read_at (32 * 1024) c m d m t ltac:(lia) Hm Hk Hmax)
    as (chunk & err & c' & Hc & Hend & Hread & Hk' & Herr).
  cbn [io_Copy]. unfold bind at 1. rewrite Hread. cbn beta iota. unfold bind.
  rewrite Hc, len_app in Hmax. pose proof (len_nonneg chunk). pose proof (len_nonneg (concat (arriving c'))).
  assert (Hl : len (corrupt_bytes corrupted m chunk) = len chunk)
    by (unfold len; by rewrite length_corrupt_bytes).
  destruct (relay_write_step (corrupt_bytes corrupted m chunk) c' (m + len chunk) d m t) as
    (r & d1 & w1 & t1 & Hw & Hd1 & Hs1 & Hcase); [lia|lia|].
  rewrite Hw. rewrite Hc, let_through_app, corrupt_bytes_app by done.
  destruct r as [[]|ew].
  - destruct Hcase as (-> & Hroom & Hfits). rewrite Hl. rewrite (clip_app _ _ _ Hfits), <- Hroom.
    rewrite app_assoc.
    assert (Hd1' : delivered d1 = delivered d ++ corrupt_bytes corrupted m chunk).
    { rewrite Hd1. destruct (room d) as [r|]; [|done]. simpl. by rewrite take_ge by auto. }
    destruct err as [e|].
    + assert (Hnil : let_through (m + len chunk) (concat (arriving c')) = []).
      { destruct Herr as [(Hk0 & Hmk & _)|(-> & _ & _)]; [by apply let_through_end|].
        unfold let_through. destruct (k <? 0); [done|apply take_nil]. }
      destruct e as [[]| | | | | |]; (eexists _, _, _, _, _, _; split; [done|split; [done|]]);
        by rewrite Hd1', Hnil, clip_nil, app_nil_r.
    + destruct (IH c' (m + len chunk) d1 t1) as (r & t2 & c2 & m2 & d2 & w2 & Hio & Hs2 & Hd2); [lia|done|lia|lia|].
      rewrite Hio. eexists _, _, _, _, _, _. split; [done|]. split; [congruence|].
      by rewrite Hd2, Hd1'.
  - destruct Hcase as (r & Hr & Hlt). eexists _, _, _, _, _, _. split; [done|]. split; [done|].
    rewrite Hd1. by rewrite (clip_short _ _ _ r).
Qed.
End relayed.

(** C12: One direction of the proxy forwards exactly what it is told to: whatever way the
    network cuts the bytes [b] of the source and however the source ends, the
    forwarding ends, and the destination has been sent the bytes of [b] up to the
    cutoff, in order, with exactly the bytes at the configured offsets inverted, as
    far as its peer took them; its write half is then shut down. *)
Theorem copyDirection_forwards direction segments ending d fuel t :
  len (concat segments) ≤ MaxInt64 →
  (length segments + length (concat segments) < fuel)%nat →
  ∃ t' c' d', copyDirection CloseWrite fuel direction t (mkInbound segments ending, d) =
      (Ok tt, (t', (c', d'))) ∧ shut d' = true ∧
    delivered d' = delivered d ++ clip (room d)
      (corrupt_bytes (list_to_set (filter (λ i, i >= 0) (dCorruptOffsets direction))) 0
         (if DisconnectAfter direction >? 0
          then take (Z.to_nat (DisconnectAfter direction)) (concat segments) else concat segments)).
Proof.
  intros Hmax Hf. unfold copyDirection.
  destruct (io_Copy_relayed direction fuel (mkInbound segments ending) 0 d t)
    as (r & t' & c' & m' & d' & w' & Hio & Hs & Hd); [lia| |done|done|].
  { unfold failAfter. case_match; lia. }
  change (mkRelay _ _) with (relay_at direction (mkInbound segments ending) 0 d 0).
  rewrite Hio. eexists _, _, _. split; [done|]. split; [done|]. simpl. rewrite Hd. do 3 f_equal.
  unfold let_through, failAfter. destruct (DisconnectAfter direction >? 0) eqn:E; [|done].
  rewrite (proj2 (Z.ltb_ge _ _)) by lia. by rewrite Z.sub_0_r.
Qed.

(** Five bytes in two cuts, the second byte inverted, cut off after four; the peer
    takes them all. *)
Lemma copyDirection_forwards_witness :
  let direction := mkTCPFaultDirection 4 1 [1; -3] in
  ∃ t' c' d', copyDirection CloseWrite 8 direction 0
      (mkInbound [bs "hel"; bs "lo"] (Sentinel EOF), mkOutbound [] (Some 9%nat) false) =
      (Ok tt, (t', (c', d'))) ∧ shut d' = true ∧
    delivered d' = [] ++ clip (Some 9%nat)
      (corrupt_bytes (list_to_set (filter (λ i, i >= 0) [1; -3])) 0 (bs "hell")).
Proof.
  apply (copyDirection_forwards (mkTCPFaultDirection 4 1 [1; -3]) [bs "hel"; bs "lo"] (Sentinel EOF)
    (mkOutbound [] (Some 9%nat) false) 8 0); [vm_compute; discriminate|simpl; lia].
Defined.
