(* ===== verification/ProxyConc.v ===== *)
(** * The TCP fault proxy: goroutines and shutdown, [fstest/proxy.go]

    [accept], one [forward] per client, two [copyDirection] goroutines per
    forwarded connection and the caller of [Close] interleave, so the proxy is a
    step relation.  What a direction forwards is in [Proxy.v]; here it copies
    until it ends.  The network is arbitrary: a dial succeeds or fails, a copy
    ends when it ends. *)

From S2P Require Import Prelude Errors Effects Proxy.

(** A [net.Conn]. *)
Abbreviation conn := nat (only parsing).

(** ** State *)

(** The goroutine of [accept]. *)
Inductive accepter :=
  | Accepting
  (** [Accept] returned a client that no goroutine serves yet *)
  | Accepted (client : conn)
  | Stopped.

(** The goroutine of [forward]. *)
Inductive worker :=
  | Dialing (client : conn)
  | Dialled (client server : conn)
  (** the dial failed or [track] refused: about to close what it holds *)
  | Rejecting (client : conn) (server : option conn)
  (** whether each of the two directions still copies *)
  | Forwarding (client server : conn) (up down : bool)
  (** the deferred function, after the two connections were closed *)
  | Untracking (client server : conn)
  | Returning.

(** The goroutine inside [closeOnce]. *)
Inductive closer :=
  | NotCalled
  | ListenerClosed
  (** the critical section is over: inside [wait.Wait] *)
  | Joining
  | Returned.

Record state := mkState {
  listening : bool;              (* p.listener accepts *)
  closed : bool;                 (* p.closed *)
  active : gset conn;            (* p.active *)
  wait : Z;                      (* the counter of p.wait *)
  acc : accepter;
  workers : gmap nat worker;
  live : gset conn;              (* connections that are not closed *)
  clo : closer;
}.

(** A new proxy after [wait.Add(1)] and [go accept]. *)
Definition started : state := mkState true false ∅ 1 Accepting ∅ ∅ NotCalled.

(** [listen] is the answer of [net.Listen]. *)
Definition NewTCPFaultProxy (listen : result unit) (upstream : bytes) (options : TCPFaultProxyOptions)
    : result state :=
  match validate_proxy upstream options with
  | Some err => Err err
  | None => result_bind listen (λ _, Ok started)
  end.

(** The error [Close] returns for that of [listener.Close]: nil for a listener that
    was closed already.  A second [Close] waits for the first and returns nil. *)
Definition close_error (closeErr : option error) : option error :=
  match closeErr with
  | Some err => if Is err NetErrClosed then None else closeErr
  | None => None
  end.

Definition holds (w : worker) : gset conn :=
  match w with
  | Dialing c | Rejecting c None => {[c]}
  | Dialled c s | Rejecting c (Some s) | Forwarding c s _ _ | Untracking c s => {[c; s]}
  | Returning => ∅
  end.

Definition acc_holds (a : accepter) : gset conn :=
  match a with Accepted c => {[c]} | _ => ∅ end.

(** A connection no goroutine holds, such as a new one. *)
Definition unheld (c : conn) (p : state) : Prop :=
  c ∉ acc_holds (acc p) ∧ ∀ i w, workers p !! i = Some w → c ∉ holds w.

(** *** The critical sections *)

Definition track (connections : gset conn) (p : state) : bool * state :=
  if closed p then (false, p)
  else (true, mkState (listening p) (closed p) (active p ∪ connections) (wait p) (acc p) (workers p)
                (live p) (clo p)).

Definition untrack (connections : gset conn) (p : state) : state :=
  mkState (listening p) (closed p) (active p ∖ connections) (wait p) (acc p) (workers p) (live p) (clo p).

(** The critical section of [Close]: no more tracking, and every tracked connection
    closed. *)
Definition close_tracked (p : state) : state :=
  mkState (listening p) true (active p) (wait p) (acc p) (workers p) (live p ∖ active p) Joining.

(** *** Updates *)

Definition set_worker (i : nat) (w : worker) (p : state) : state :=
  mkState (listening p) (closed p) (active p) (wait p) (acc p) (<[i := w]> (workers p)) (live p) (clo p).

Definition set_acc (a : accepter) (p : state) : state :=
  mkState (listening p) (closed p) (active p) (wait p) a (workers p) (live p) (clo p).

Definition opened (c : conn) (p : state) : state :=
  mkState (listening p) (closed p) (active p) (wait p) (acc p) (workers p) (live p ∪ {[c]}) (clo p).

(** [Close] of connections; closing one again does nothing. *)
Definition close_conns (connections : gset conn) (p : state) : state :=
  mkState (listening p) (closed p) (active p) (wait p) (acc p) (workers p) (live p ∖ connections) (clo p).

(** [p.wait.Add(n)]. *)
Definition wait_add (n : Z) (p : state) : state :=
  mkState (listening p) (closed p) (active p) (wait p + n) (acc p) (workers p) (live p) (clo p).

Definition end_worker (i : nat) (p : state) : state :=
  mkState (listening p) (closed p) (active p) (wait p) (acc p) (delete i (workers p)) (live p) (clo p).

(** ** Steps *)

(** The steps, with or without the cooperation of the [peers]: a client that connects,
    or one that ends its side of a connection.  Without it a blocked read returns only
    when its connection is closed here, and [Accept] only when the listener is. *)
Inductive step (peers : bool) : state → state → Prop :=
  (** [listener.Accept] *)
  | step_accept c p :
      peers = true → acc p = Accepting → listening p = true → unheld c p →
      step peers p (set_acc (Accepted c) (opened c p))
  (** [wait.Add(1)], [go forward(client)] *)
  | step_spawn i c p :
      acc p = Accepted c → workers p !! i = None →
      step peers p (set_acc Accepting (set_worker i (Dialing c) (wait_add 1 p)))
  (** [Accept] fails, as it does once the listener is closed; [wait.Done] *)
  | step_accept_fails p :
      peers = true ∨ listening p = false → acc p = Accepting →
      step peers p (set_acc Stopped (wait_add (-1) p))
  | step_dial_fails i c p :
      workers p !! i = Some (Dialing c) → step peers p (set_worker i (Rejecting c None) p)
  | step_dial i c s p :
      workers p !! i = Some (Dialing c) → unheld s p →
      step peers p (set_worker i (Dialled c s) (opened s p))
  | step_track i c s p tracked p' :
      workers p !! i = Some (Dialled c s) → track {[c; s]} p = (tracked, p') →
      step peers p (set_worker i (if tracked then Forwarding c s true true else Rejecting c (Some s)) p')
  | step_reject i c s p :
      workers p !! i = Some (Rejecting c s) →
      step peers p (set_worker i Returning (close_conns (holds (Rejecting c s)) p))
  (** a direction ends and signals [done]: its source ended, or was closed here *)
  | step_up_done i c s down p :
      peers = true ∨ c ∉ live p → workers p !! i = Some (Forwarding c s true down) →
      step peers p (set_worker i (Forwarding c s false down) p)
  | step_down_done i c s up p :
      peers = true ∨ s ∉ live p → workers p !! i = Some (Forwarding c s up true) →
      step peers p (set_worker i (Forwarding c s up false) p)
  (** both did: the deferred function closes the connections, *)
  | step_close_conns i c s p :
      workers p !! i = Some (Forwarding c s false false) →
      step peers p (set_worker i (Untracking c s) (close_conns {[c; s]} p))
  (** forgets them, *)
  | step_untrack i c s p :
      workers p !! i = Some (Untracking c s) →
      step peers p (set_worker i Returning (untrack {[c; s]} p))
  (** and the deferred [wait.Done] runs *)
  | step_return i p :
      workers p !! i = Some Returning → step peers p (end_worker i (wait_add (-1) p))
  (** [Close]: [listener.Close], *)
  | step_close_listener p :
      clo p = NotCalled →
      step peers p (mkState false (closed p) (active p) (wait p) (acc p) (workers p) (live p) ListenerClosed)
  (** the critical section, *)
  | step_close_tracked p : clo p = ListenerClosed → step peers p (close_tracked p)
  (** and [wait.Wait] returns *)
  | step_joined p :
      clo p = Joining → wait p = 0 →
      step peers p (mkState (listening p) (closed p) (active p) (wait p) (acc p) (workers p) (live p) Returned).

(** The states of a proxy that was constructed, whatever its upstream and options. *)
Definition reachable (p : state) : Prop :=
  ∃ listen upstream options p0,
    NewTCPFaultProxy listen upstream options = Ok p0 ∧ rtc (step true) p0 p.

(** ** The invariant *)

(** The connections [forward] registered and has not yet forgotten. *)
Definition registered (w : worker) : gset conn :=
  match w with Forwarding c s _ _ | Untracking c s => {[c; s]} | _ => ∅ end.

(** The connections it knows to be closed: after its deferred [Close]s. *)
Definition released (w : worker) : gset conn :=
  match w with Untracking c s => {[c; s]} | _ => ∅ end.

(** The goroutines [wait] counts. *)
Definition accepting (a : accepter) : Z := match a with Stopped => 0 | _ => 1 end.
Definition goroutines (p : state) : Z := accepting (acc p) + Z.of_nat (size (workers p)).

Record inv (p : state) : Prop := {
  inv_wait : wait p = goroutines p;
  inv_active c : c ∈ active p ↔ ∃ i w, workers p !! i = Some w ∧ c ∈ registered w;
  inv_live c : c ∈ live p → c ∈ acc_holds (acc p) ∨ ∃ i w, workers p !! i = Some w ∧ c ∈ holds w;
  inv_disjoint i j w w' :
    workers p !! i = Some w → workers p !! j = Some w' → i ≠ j → holds w ## holds w';
  inv_accepted i w : workers p !! i = Some w → holds w ## acc_holds (acc p);
  inv_released i w : workers p !! i = Some w → released w ## live p;
  inv_closed i w : closed p = true → workers p !! i = Some w → registered w ## live p;
  inv_phase : match clo p with
              | NotCalled => closed p = false
              | ListenerClosed => listening p = false ∧ closed p = false
              | Joining => listening p = false ∧ closed p = true
              | Returned => listening p = false ∧ closed p = true ∧ wait p = 0
              end;
}.

Lemma registered_holds w : registered w ⊆ holds w.
Proof. by destruct w. Qed.

Lemma released_registered w : released w ⊆ registered w.
Proof. by destruct w. Qed.

(** A worker goes from [w] to [w'], possibly with connections [N] that nobody held. *)
Lemma inv_update (N : gset conn) i w w' A' L' p :
  inv p → workers p !! i = Some w →
  (∀ c, c ∈ N → unheld c p) → holds w' ⊆ holds w ∪ N →
  (∀ c, c ∈ L' → (c ∈ live p ∧ (c ∈ holds w → c ∈ holds w')) ∨ (c ∈ N ∧ c ∈ holds w')) →
  released w' ## L' → (closed p = true → registered w' ## L') →
  (∀ c, c ∈ A' ↔ c ∈ registered w' ∨ (c ∈ active p ∧ c ∉ registered w)) →
  inv (mkState (listening p) (closed p) A' (wait p) (acc p) (<[i := w']> (workers p)) L' (clo p)).
Proof.
  intros [] Hw HN Hh HL Hr Hc HA. pose proof (registered_holds w) as Hrw.
  assert (Hfresh : ∀ j u c, workers p !! j = Some u → c ∈ N → c ∉ holds u) by (intros; by eapply HN).
  assert (Hlive : ∀ j u, workers p !! j = Some u → ∀ c, c ∈ L' → c ∈ holds u → i ≠ j → c ∈ live p)
    by (intros j u Hu c [[]|[]]%HL ? ?; [done|naive_solver]).
  split; simpl.
  - rewrite inv_wait0. unfold goroutines. simpl. by rewrite map_size_insert_Some.
  - intros c. rewrite HA, inv_active0. split.
    + intros [Hc'|[(j & u & Hu & Hcu) Hn]]; [by exists i, w'; rewrite lookup_insert_eq|].
      exists j, u. rewrite lookup_insert_ne by naive_solver. done.
    + intros (j & u & [[-> ->]|[Hne Hu]]%lookup_insert_Some & Hcu); [by left|right].
      split; [by exists j, u|]. intros Hcw. pose proof (registered_holds u).
      apply (inv_disjoint0 i j w u Hw Hu Hne c); set_solver.
  - intros c [[Hcl Hcw]|[_ Hcw]]%HL; [|right; exists i, w'; by rewrite lookup_insert_eq].
    destruct (inv_live0 c Hcl) as [|(j & u & Hu & Hcu)]; [by left|right].
    destruct (decide (i = j)) as [->|Hne]; [exists j, w'; rewrite lookup_insert_eq; naive_solver|].
    exists j, u. by rewrite lookup_insert_ne.
  - intros j j' u u' [[<- <-]|[Hne Hu]]%lookup_insert_Some [[<- <-]|[Hne' Hu']]%lookup_insert_Some Hd;
      [done| | |by eapply inv_disjoint0].
    + intros c Hc' Hu''. apply Hh, elem_of_union in Hc' as [Hcw|HcN]; [|by eapply (Hfresh j')].
      by apply (inv_disjoint0 i j' w u' Hw Hu' Hd c).
    + intros c Hu'' Hc'. apply Hh, elem_of_union in Hc' as [Hcw|HcN]; [|by eapply (Hfresh j)].
      by apply (inv_disjoint0 j i u w Hu Hw Hd c).
  - intros j u [[<- <-]|[Hne Hu]]%lookup_insert_Some; [|by eapply inv_accepted0].
    specialize (inv_accepted0 i w Hw). intros c Hcu Hca. apply Hh, elem_of_union in Hcu as [|HcN]; [set_solver|].
    by apply (HN c HcN).
  - intros j u [[<- <-]|[Hne Hu]]%lookup_insert_Some; [done|]. intros c Hcu HcL.
    pose proof (released_registered u). pose proof (registered_holds u).
    apply (inv_released0 j u Hu c Hcu). eapply Hlive; [done..| |done]. set_solver.
  - intros j u Hcl [[<- <-]|[Hne Hu]]%lookup_insert_Some; [by apply Hc|]. intros c Hcu HcL.
    pose proof (registered_holds u). apply (inv_closed0 j u Hcl Hu c Hcu).
    eapply Hlive; [done..| |done]. set_solver.
  - done.
Qed.

(** A worker that holds nothing ends. *)
Lemma inv_end i p : inv p → workers p !! i = Some Returning → inv (end_worker i (wait_add (-1) p)).
Proof.
  intros [] Hw. assert (Hkeep : ∀ j u c, workers p !! j = Some u → c ∈ holds u → delete i (workers p) !! j = Some u).
  { intros j u c Hu Hcu. rewrite lookup_delete_ne; [done|]. intros <-. rewrite Hw in Hu. by simplify_eq/=. }
  assert (Hsize : size (workers p) ≠ 0%nat).
  { apply map_size_non_empty_iff. intros E. by rewrite E, lookup_empty in Hw. }
  split; simpl.
  - rewrite inv_wait0. unfold goroutines. simpl. rewrite map_size_delete_Some by done.
    lia.
  - intros c. rewrite inv_active0. split; intros (j & u & Hu & Hcu); exists j, u.
    + split; [|done]. pose proof (registered_holds u). eapply (Hkeep j u c); [done|set_solver].
    + by apply lookup_delete_Some in Hu as [_ ?].
  - intros c Hc. destruct (inv_live0 c Hc) as [|(j & u & Hu & Hcu)]; [by left|right]. eauto.
  - intros j j' u u' [_ Hu]%lookup_delete_Some [_ Hu']%lookup_delete_Some. by eapply inv_disjoint0.
  - intros j u [_ Hu]%lookup_delete_Some. by eapply inv_accepted0.
  - intros j u [_ Hu]%lookup_delete_Some. by eapply inv_released0.
  - intros j u Hcl [_ Hu]%lookup_delete_Some. by eapply inv_closed0.
  - destruct (clo p); [done..|]. destruct inv_phase0 as (_ & _ & Hz). rewrite inv_wait0 in Hz.
    unfold goroutines, accepting in Hz. destruct (acc p); lia.
Qed.

(** The accepting goroutine takes a client. *)
Lemma inv_accept c p :
  inv p → acc p = Accepting → listening p = true → unheld c p → inv (set_acc (Accepted c) (opened c p)).
Proof.
  intros [] Ha Hl [_ Hu]. rewrite Ha in *. simpl in *. split; simpl; try done.
  - rewrite inv_wait0. unfold goroutines. simpl. by rewrite Ha.
  - intros x [Hx|Hx]%elem_of_union; [|by left].
    destruct (inv_live0 x Hx); [set_solver|by right].
  - intros i w Hw. specialize (Hu i w Hw). set_solver.
  - intros i w Hw. specialize (inv_released0 i w Hw). specialize (Hu i w Hw).
    pose proof (released_registered w). pose proof (registered_holds w). set_solver.
  - intros i w Hc Hw. specialize (inv_closed0 i w Hc Hw). specialize (Hu i w Hw).
    pose proof (registered_holds w). set_solver.
Qed.

(** It hands the client to a goroutine of its own. *)
Lemma inv_spawn i c p :
  inv p → acc p = Accepted c → workers p !! i = None →
  inv (set_acc Accepting (set_worker i (Dialing c) (wait_add 1 p))).
Proof.
  intros [] Ha Hi. rewrite Ha in *. simpl in *. split; simpl.
  - rewrite inv_wait0. unfold goroutines. rewrite Ha. simpl. rewrite map_size_insert_None by done. lia.
  - intros x. rewrite inv_active0. split; intros (j & w & Hw & Hx).
    + exists j, w. by rewrite lookup_insert_ne by congruence.
    + apply lookup_insert_Some in Hw as [[<- <-]|[_ Hw]]; [set_solver|eauto].
  - intros x Hx. right. destruct (inv_live0 x Hx) as [Hc|(j & w & Hw & Hc)].
    + exists i, (Dialing c). by rewrite lookup_insert_eq.
    + exists j, w. by rewrite lookup_insert_ne by congruence.
  - intros j j' w w' [[<- <-]|[Hne Hw]]%lookup_insert_Some [[<- <-]|[Hne' Hw']]%lookup_insert_Some Hd;
      [done| | |by eapply inv_disjoint0].
    + symmetry. exact (inv_accepted0 _ _ Hw').
    + exact (inv_accepted0 _ _ Hw).
  - set_solver.
  - intros j w [[<- <-]|[_ Hw]]%lookup_insert_Some; [set_solver|by eapply inv_released0].
  - intros j w Hc [[<- <-]|[_ Hw]]%lookup_insert_Some; [set_solver|by eapply inv_closed0].
  - destruct (clo p); [done..|]. destruct inv_phase0 as (_ & _ & Hz). rewrite inv_wait0 in Hz.
    unfold goroutines in Hz. rewrite Ha in Hz. simpl in Hz. lia.
Qed.

(** It ends when [Accept] fails. *)
Lemma inv_accept_fails p : inv p → acc p = Accepting → inv (set_acc Stopped (wait_add (-1) p)).
Proof.
  intros [] Ha. rewrite Ha in *. simpl in *. split; simpl; try done.
  - rewrite inv_wait0. unfold goroutines. rewrite Ha. simpl. lia.
  - destruct (clo p); [done..|]. destruct inv_phase0 as (_ & _ & Hz). rewrite inv_wait0 in Hz.
    unfold goroutines in Hz. rewrite Ha in Hz. simpl in Hz. lia.
Qed.

Lemma inv_close_tracked p : inv p → clo p = ListenerClosed → inv (close_tracked p).
Proof.
  intros [] Hc. rewrite Hc in *. split; simpl; try done.
  - set_solver.
  - intros i w Hw. specialize (inv_released0 i w Hw). set_solver.
  - intros i w _ Hw x Hx Hl. apply elem_of_difference in Hl as [_ Hl]. apply Hl, inv_active0. eauto.
  - naive_solver.
Qed.

Lemma registered_still p i w : inv p → workers p !! i = Some w →
  ∀ c, c ∈ active p ↔ c ∈ registered w ∨ (c ∈ active p ∧ c ∉ registered w).
Proof.
  intros Hi Hw c. destruct (decide (c ∈ registered w)); [|naive_solver].
  split; [by left|intros _]. apply (inv_active _ Hi). eauto.
Qed.

Lemma track_cases connections p b p' :
  track connections p = (b, p') →
  (closed p = true ∧ b = false ∧ p' = p) ∨
  (closed p = false ∧ b = true ∧ p' = mkState (listening p) (closed p) (active p ∪ connections) (wait p)
     (acc p) (workers p) (live p) (clo p)).
Proof. unfold track. destruct (closed p) eqn:Hc; intros [= <- <-]; [by left|by right]. Qed.

Lemma proxy_inv_step peers p p' : inv p → step peers p p' → inv p'.
Proof.
  intros Hi Hs. destruct Hs as [c p _ Ha Hl Hu|i c p Ha Hw|p _ Ha|i c p Hw|i c s p Hw Hu|i c s p tracked p' Hw Ht
    |i c s p Hw|i c s down p _ Hw|i c s up p _ Hw|i c s p Hw|i c s p Hw|i p Hw|p Hc|p Hc|p Hc Hz].
  - by apply inv_accept.
  - by apply inv_spawn.
  - by apply inv_accept_fails.
  - apply (inv_update ∅ i _ _ _ _ p Hi Hw); [set_solver..].
  - apply (inv_update {[s]} i _ _ _ _ p Hi Hw); [set_solver..].
  - apply track_cases in Ht as [(Hc & -> & ->)|(Hc & -> & ->)].
    + apply (inv_update ∅ i _ _ _ _ p Hi Hw); [set_solver..].
    + apply (inv_update ∅ i _ _ _ _ p Hi Hw); [set_solver|set_solver|set_solver|set_solver|congruence|set_solver].
  - apply (inv_update ∅ i _ _ _ _ p Hi Hw); [set_solver..].
  - apply (inv_update ∅ i _ _ _ _ p Hi Hw); [set_solver|set_solver|set_solver|set_solver| |].
    + intros Hc. apply (inv_closed _ Hi i _ Hc Hw).
    + exact (registered_still p i _ Hi Hw).
  - apply (inv_update ∅ i _ _ _ _ p Hi Hw); [set_solver|set_solver|set_solver|set_solver| |].
    + intros Hc. apply (inv_closed _ Hi i _ Hc Hw).
    + exact (registered_still p i _ Hi Hw).
  - apply (inv_update ∅ i _ _ _ _ p Hi Hw); [set_solver..|].
    exact (registered_still p i _ Hi Hw).
  - pose proof (inv_released _ Hi i _ Hw). apply (inv_update ∅ i _ _ _ _ p Hi Hw); [set_solver..].
  - by apply inv_end.
  - destruct Hi. rewrite Hc in *. by split.
  - by apply inv_close_tracked.
  - destruct Hi. rewrite Hc in *. split; try done. naive_solver.
Qed.

Lemma NewTCPFaultProxy_Ok listen upstream options p :
  NewTCPFaultProxy listen upstream options = Ok p → p = started.
Proof.
  unfold NewTCPFaultProxy. destruct (validate_proxy upstream options); [done|].
  destruct listen; simpl; naive_solver.
Qed.

Lemma proxy_reachable_inv p : reachable p → inv p.
Proof.
  intros (listen & upstream & options & p0 & Hnew & Hsteps). apply NewTCPFaultProxy_Ok in Hnew as ->.
  revert p Hsteps. apply rtc_ind_r; [|by intros ? ? _ Hs Hi; eapply proxy_inv_step].
  split; simpl; try done. intros c. split; [set_solver|]. by intros (i & w & Hw & _).
Qed.

(** A run goes on. *)
Lemma reachable_rtc p q : reachable p → rtc (step true) p q → reachable q.
Proof.
  intros (listen & upstream & options & p0 & Hnew & Hsteps) Hq.
  exists listen, upstream, options, p0. split; [done|]. by transitivity p.
Qed.

(** ** Ownership *)

(** C11: The proxy loses no connection: in every reachable state each open connection
    is held by the accepting goroutine or by exactly one [forward], [active] is
    exactly what the [forward]s have registered, and the wait group counts the
    goroutines, so that its counter is positive whenever one of them is about to
    call [Add] or [Done]. *)
Theorem proxy_owns p :
  reachable p →
  (∀ c, c ∈ live p → c ∈ acc_holds (acc p) ∨ ∃ i w, workers p !! i = Some w ∧ c ∈ holds w) ∧
  (∀ i j w w', workers p !! i = Some w → workers p !! j = Some w' → i ≠ j → holds w ## holds w') ∧
  (∀ c, c ∈ active p ↔ ∃ i w, workers p !! i = Some w ∧ c ∈ registered w) ∧
  wait p = goroutines p ∧
  (acc p ≠ Stopped ∨ workers p ≠ ∅ → 0 < wait p).
Proof.
  intros [] %proxy_reachable_inv. split_and!; [done|done|done|done|].
  rewrite inv_wait0. unfold goroutines. intros [Ha|Hw%map_size_non_empty_iff].
  - destruct (acc p); simpl; [lia..|done].
  - destruct (acc p); simpl; lia.
Qed.

(** ** Shutdown *)

Lemma returned_empty p :
  inv p → clo p = Returned → listening p = false ∧ acc p = Stopped ∧ workers p = ∅.
Proof.
  intros [] Hc. rewrite Hc in *. destruct inv_phase0 as (Hl & _ & Hz).
  rewrite inv_wait0 in Hz. unfold goroutines, accepting in Hz.
  split_and!; [done|by destruct (acc p); [lia..|]|apply map_size_empty_inv].
  destruct (acc p); lia.
Qed.

Lemma returned_final p : inv p → clo p = Returned → ∀ peers p', ¬ step peers p p'.
Proof.
  intros Hi Hc peers p' Hs. destruct (returned_empty p Hi Hc) as (_ & Ha & Hw).
  inversion Hs; subst; rewrite ?Hw in *; try congruence; by simplify_map_eq.
Qed.

(** The proxy is gone: nothing listens, every goroutine has returned, every
    connection it ever held is closed and none is tracked, and nothing happens any
    more. *)
Definition gone (p : state) : Prop :=
  listening p = false ∧ acc p = Stopped ∧ workers p = ∅ ∧ live p = ∅ ∧ active p = ∅ ∧
  ∀ peers p', ¬ step peers p p'.

Lemma returned_gone p : inv p → clo p = Returned → gone p.
Proof.
  intros Hi Hc. destruct (returned_empty p Hi Hc) as (Hl & Ha & Hw). unfold gone.
  split_and!; [done..| | |by apply returned_final]; apply set_eq; intros c; (split; [|set_solver]).
  - intros [Hc'|(i & w & Hi' & _)]%(inv_live _ Hi); [by rewrite Ha in Hc'|by rewrite Hw in Hi'].
  - intros (i & w & Hi' & _)%(inv_active _ Hi). by rewrite Hw in Hi'.
Qed.

(** *** [Close] returns *)

(** How many steps a goroutine has left once nothing new can be accepted. *)
Definition weight (w : worker) : nat :=
  match w with
  | Dialing _ => 7
  | Dialled _ _ => 6
  | Forwarding _ _ up down => 3 + (if up then 1 else 0) + (if down then 1 else 0)
  | Rejecting _ _ | Untracking _ _ => 2
  | Returning => 1
  end.

Definition weights (m : gmap nat worker) : nat := map_fold (λ _ w n, (weight w + n)%nat) 0%nat m.

Definition steps_left (p : state) : nat :=
  (match acc p with Accepted _ => 9 | Accepting => 1 | Stopped => 0 end) + weights (workers p) +
  (match clo p with Returned => 0 | _ => 1 end).

Lemma weights_insert i w m : weights (<[i := w]> m) = (weight w + weights (delete i m))%nat.
Proof.
  unfold weights. rewrite <- insert_delete_eq.
  apply (map_fold_insert_L (λ _ w n, (weight w + n)%nat) 0%nat i w (delete i m)); [intros; lia|].
  apply lookup_delete_eq.
Qed.

Lemma weights_split i w m : m !! i = Some w → weights m = (weight w + weights (delete i m))%nat.
Proof. intros Hi. rewrite <- (insert_id m i w Hi) at 1. apply weights_insert. Qed.

Lemma step_decreases peers p p' :
  inv p → clo p = Joining → step peers p p' →
  (steps_left p' < steps_left p)%nat ∧ (clo p' = Joining ∨ clo p' = Returned).
Proof.
  intros Hi Hc Hs. pose proof (inv_phase _ Hi) as Hp. rewrite Hc in Hp. destruct Hp as [Hl Hcl].
  unfold steps_left. destruct Hs; try congruence;
    try match goal with H : track _ _ = _ |- _ => apply track_cases in H as [(_ & -> & ->)|(_ & -> & ->)] end;
    simpl; rewrite ?Hc; (split; [|by auto]);
    try match goal with H : acc _ = _ |- _ => rewrite H end;
    try match goal with H : workers _ !! _ = Some _ |- _ => rewrite (weights_split _ _ _ H) end;
    rewrite ?weights_insert; simpl; try lia.
  rewrite delete_id by done. lia.
Qed.

(** No goroutine waits for a peer: a dial returns, and a copy whose connections [Close]
    has closed ends. *)
Lemma worker_steps p i w :
  inv p → closed p = true → workers p !! i = Some w → ∃ p', step false p p'.
Proof.
  intros Hi Hcl Hw. pose proof (inv_closed _ Hi i w Hcl Hw) as Hdead.
  destruct w as [c|c s|c s|c s up down|c s|]; eauto using step.
  - destruct (track {[c; s]} p) as [tracked p'] eqn:Ht. eauto using step.
  - simpl in Hdead. assert (c ∉ live p ∧ s ∉ live p) as [Hdc Hds] by set_solver.
    destruct up; [by eauto using step|]. destruct down; eauto using step.
Qed.

Lemma joining_steps p : inv p → clo p = Joining → ∃ p', step false p p'.
Proof.
  intros Hi Hc. pose proof (inv_phase _ Hi) as Hp. rewrite Hc in Hp. destruct Hp as [Hl Hcl].
  destruct (acc p) as [|c|] eqn:Ha.
  - eauto using step.
  - eexists. apply (step_spawn false (fresh (dom (workers p))) c p Ha). apply not_elem_of_dom, is_fresh.
  - destruct (map_choose_or_empty (workers p)) as [(i & w & Hw)|Hw].
    + by eapply worker_steps.
    + eexists. apply step_joined; [done|]. rewrite (inv_wait _ Hi). unfold goroutines. by rewrite Ha, Hw.
Qed.

(** C10: [Close] returns and the proxy is gone: once it has closed the tracked
    connections, every run of the proxy, whatever the clients, the upstream and the
    goroutines do, is finite, with at most [steps_left] steps; as long as [Close] has
    not returned, a step is possible that waits for no peer, even if no client ever
    closes its connection; and when it has, nothing listens, every goroutine has
    returned, every connection is closed and none is tracked. *)
Theorem proxy_Close_terminates p n p' :
  reachable p → clo p = Joining → nsteps (step true) n p p' →
  (n ≤ steps_left p)%nat ∧ ((clo p' = Returned ∧ gone p') ∨ ∃ p'', step false p' p'').
Proof.
  intros Hi%proxy_reachable_inv Hc Hn. assert (Hc' : clo p = Joining ∨ clo p = Returned) by auto. clear Hc.
  induction Hn as [p|n p q p' Hs Hn IH].
  - split; [lia|]. destruct Hc'; [right; by apply joining_steps|left; eauto using returned_gone].
  - destruct Hc' as [Hc|Hc].
    + destruct (step_decreases true p q Hi Hc Hs) as [Hlt Hq].
      destruct IH as [Hle Hend]; [by eapply proxy_inv_step|done|]. split; [lia|done].
    + exfalso. by apply (returned_final p Hi Hc true q).
Qed.

(** ** A run *)

(** One client is served until the proxy is closed under it. *)
Definition run_accepted : state := set_acc (Accepted 1%nat) (opened 1%nat started).
Definition run_spawned : state := set_acc Accepting (set_worker 0 (Dialing 1%nat) (wait_add 1 run_accepted)).
Definition run_dialled : state := set_worker 0 (Dialled 1%nat 2%nat) (opened 2%nat run_spawned).
Definition run_forwarding : state :=
  set_worker 0 (Forwarding 1%nat 2%nat true true) (track {[1%nat; 2%nat]} run_dialled).2.
Definition run_unlistened : state :=
  mkState false false (active run_forwarding) 2 Accepting (workers run_forwarding) (live run_forwarding)
    ListenerClosed.
Definition run_joining : state := close_tracked run_unlistened.
Definition run_drained : state :=
  set_worker 0 (Forwarding 1%nat 2%nat false false) (set_worker 0 (Forwarding 1%nat 2%nat false true) run_joining).
Definition run_forgotten : state :=
  set_worker 0 Returning (untrack {[1%nat; 2%nat]}
    (set_worker 0 (Untracking 1%nat 2%nat) (close_conns {[1%nat; 2%nat]} run_drained))).
Definition run_alone : state :=
  set_acc Stopped (wait_add (-1) (end_worker 0 (wait_add (-1) run_forgotten))).
Definition run_returned : state :=
  mkState false true (active run_alone) 0 Stopped (workers run_alone) (live run_alone) Returned.

Lemma run_spawned_unheld : unheld 2%nat run_spawned.
Proof.
  split; [set_solver|]. intros i w Hw. simpl in Hw. apply lookup_insert_Some in Hw as [[_ <-]|[_ Hw]]; [set_solver|].
  by rewrite lookup_empty in Hw.
Qed.

Lemma run_forwarding_reachable : reachable run_forwarding.
Proof.
  exists (Ok tt), (bs "127.0.0.1:21"),
    (mkTCPFaultProxyOptions (mkTCPFaultDirection 4 1 [1]) (mkTCPFaultDirection 0 0 [])), started.
  split; [done|].
  eapply rtc_l; [apply (step_accept true 1%nat); [done..|]; split; [set_solver|by intros i w Hw]|].
  eapply rtc_l; [by apply (step_spawn true 0%nat 1%nat)|].
  eapply rtc_l; [apply (step_dial true 0%nat 1%nat 2%nat); [done|exact run_spawned_unheld]|].
  apply rtc_once, (step_track true 0%nat 1%nat 2%nat run_dialled true _ eq_refl eq_refl).
Qed.

Lemma run_joining_reachable : reachable run_joining.
Proof.
  eapply reachable_rtc; [apply run_forwarding_reachable|].
  eapply rtc_l; [by apply step_close_listener|]. eapply rtc_l; [by apply step_close_tracked|]. apply rtc_refl.
Qed.

Lemma run_returns : nsteps (step true) 7 run_joining run_returned.
Proof.
  eapply nsteps_l; [apply (step_up_done true 0%nat 1%nat 2%nat true); [by left|done]|].
  eapply nsteps_l; [apply (step_down_done true 0%nat 1%nat 2%nat false); [by left|done]|].
  eapply nsteps_l; [by apply (step_close_conns true 0%nat 1%nat 2%nat)|].
  eapply nsteps_l; [by apply (step_untrack true 0%nat 1%nat 2%nat)|].
  eapply nsteps_l; [by apply (step_return true 0%nat)|].
  eapply nsteps_l; [apply step_accept_fails; [by left|done]|]. eapply nsteps_l; [by apply step_joined|].
  apply nsteps_O.
Qed.

(** While the client is served. *)
Lemma proxy_owns_witness :
  live run_forwarding = {[1%nat; 2%nat]} ∧ wait run_forwarding = 2 ∧
  ∃ i w, workers run_forwarding !! i = Some w ∧ 1%nat ∈ registered w.
Proof.
  destruct (proxy_owns run_forwarding run_forwarding_reachable) as (_ & _ & Hactive & _ & _).
  split; [vm_compute; reflexivity|]. split; [reflexivity|]. apply Hactive. decide_now.
Defined.

Lemma proxy_Close_terminates_witness :
  nsteps (step true) 7 run_joining run_returned ∧ (7 ≤ steps_left run_joining)%nat ∧ live run_returned = ∅.
Proof.
  split; [exact run_returns|].
  destruct (proxy_Close_terminates run_joining 7 run_returned run_joining_reachable eq_refl run_returns)
    as [Hn _].
  split; [exact Hn|reflexivity].
Defined.
