(* ===== verification/RemoteNames.v ===== *)
(** * Remote names

    How the SFTP and FTP packages validate a root and turn logical paths into
    absolute remote names, the names a link check examines, and the names of
    temporary files.  Both packages declare these helpers with the same bodies;
    [package] is the name their messages start with. *)

From S2P Require Import Prelude GoStrings Errors Effects Paths Digest.

Definition root_error (package reason : String.string) : error :=
  NewError (String.append package (String.append ": " reason)).

Fixpoint root_segments (package : String.string) (segments : list bytes) : result unit :=
  match segments with
  | [] => Ok tt
  | segment :: rest =>
      if decide (segment = dotdot) then
        Err (root_error package "root must not contain parent segments")
      else if existsb (λ character, (character =? 0) || IsControl character) (runes segment) then
        Err (root_error package "root contains a control character")
      else root_segments package rest
  end.

Definition validate_root (package : String.string) (root : bytes) : result bytes :=
  if decide (root = []) then Ok [slash]
  else if negb (HasPrefix root [slash]) || ContainsByte root backslash then
    Err (root_error package "root must be an absolute POSIX path")
  else result_map (λ _, Clean root) (root_segments package (Split root slash)).

Definition remote_name (root : bytes) (logicalPath : Path) : bytes :=
  if IsRoot logicalPath then root else path_Join [root; value logicalPath].

(** The names a link check examines. *)
Definition link_names (root : bytes) (logicalPath : Path) (includeFinal : bool) : list bytes :=
  let segments := Split (value logicalPath) slash in
  let segmentCount := if includeFinal then length segments else (length segments - 1)%nat in
  (λ index, path_Join [root; path_Join (take (index + 1) segments)]) <$> seq 0 segmentCount.

Definition temporary_name (directory random : bytes) : bytes :=
  path_Join [directory; bs ".filesystem-" ++ EncodeToString random ++ bs ".tmp"].

(** A temporary name beside [target]. *)
Definition temporary_of (target temporary : bytes) : Prop :=
  ∃ random, temporary = temporary_name (path_Dir target) random.

(** ** Absolute names *)

(** The absolute name with the given segments. *)
Definition abs_name (segs : list bytes) : bytes := slash :: Join segs slash.

Lemma clean_fold_kept rooted out segs :
  dotdot ∉ segs →
  foldl (clean_step rooted) out segs = out ++ filter (λ seg, seg ≠ [] ∧ seg ≠ dot) segs.
Proof.
  revert out. induction segs as [|seg segs IH]; intros out Hdd; [by rewrite app_nil_r|].
  apply not_elem_of_cons in Hdd as [Hseg Hdd]. simpl. rewrite IH by done.
  unfold clean_step. case_decide as Hskip.
  - by rewrite filter_cons_False by naive_solver.
  - rewrite decide_False by done. rewrite filter_cons_True by naive_solver.
    by rewrite <- app_assoc.
Qed.

Lemma Clean_rooted p :
  dotdot ∉ Split (slash :: p) slash →
  Clean (slash :: p) = abs_name (filter (λ seg, seg ≠ [] ∧ seg ≠ dot) (Split (slash :: p) slash)).
Proof.
  intros Hdd. unfold Clean.
  assert (HasPrefix (slash :: p) [slash] = true) as -> by apply (HasPrefix_app [slash] p).
  by rewrite clean_fold_kept.
Qed.

Lemma filter_plain segs :
  Forall plain_segment segs → filter (λ seg, seg ≠ [] ∧ seg ≠ dot) segs = segs.
Proof. intros H. apply filter_all. eapply Forall_impl; [exact H|]. by intros s (? & ? & _). Qed.

Lemma Split_Join_kept segs :
  Forall plain_segment segs →
  filter (λ seg, seg ≠ [] ∧ seg ≠ dot) (Split (Join segs slash) slash) = segs ∧
  dotdot ∉ Split (Join segs slash) slash.
Proof.
  intros H. destruct segs as [|s segs]; [by split; [|set_solver]|].
  rewrite Split_Join by eauto using plain_no_slash. split; [by apply filter_plain|].
  intros Hin. rewrite Forall_forall in H. by destruct (H _ Hin) as (_ & _ & ? & _).
Qed.

Lemma path_Join_plain segs :
  segs ≠ [] → Forall plain_segment segs → path_Join segs = Join segs slash.
Proof.
  intros Hne H. unfold path_Join. rewrite filter_all.
  - destruct segs; [done|]. by apply Clean_plain.
  - eapply Forall_impl; [exact H|]. by intros s (? & _).
Qed.

Lemma path_Join_abs rs segs :
  segs ≠ [] → Forall plain_segment rs → Forall plain_segment segs →
  path_Join [abs_name rs; Join segs slash] = abs_name (rs ++ segs).
Proof.
  intros Hne Hrs Hsegs. unfold path_Join.
  destruct (Join_plain_head segs Hne Hsegs) as (c & rest & Hc & _).
  rewrite filter_all by (repeat constructor; [done|by rewrite Hc]).
  destruct (Split_Join_kept rs Hrs) as [Frs Drs].
  destruct (Split_Join_kept segs Hsegs) as [Fs Ds].
  assert (Hsplit : Split (slash :: Join rs slash ++ slash :: Join segs slash) slash =
    [] :: Split (Join rs slash) slash ++ Split (Join segs slash) slash)
    by by rewrite Split_cons_sep, Split_app_sep.
  cbn [Join abs_name]. unfold abs_name. cbn [app].
  rewrite Clean_rooted; rewrite Hsplit.
  - rewrite filter_cons_False by naive_solver. by rewrite filter_app, Frs, Fs.
  - rewrite not_elem_of_cons, elem_of_app. by split; [|intros [|]].
Qed.

Lemma abs_name_inj segs segs' :
  Forall plain_segment segs → Forall plain_segment segs' →
  abs_name segs = abs_name segs' → segs = segs'.
Proof.
  intros H H' [= Heq]. destruct (Split_Join_kept _ H) as [<- _].
  destruct (Split_Join_kept _ H') as [<- _]. by rewrite Heq.
Qed.

(** A segment a root may have. *)
Definition root_segment (seg : bytes) : Prop :=
  seg ≠ dotdot ∧ existsb (λ character, (character =? 0) || IsControl character) (runes seg) = false.

Lemma root_segments_ok package segs :
  root_segments package segs = Ok tt ↔ Forall root_segment segs.
Proof.
  induction segs as [|seg segs IH]; simpl; [done|]. rewrite Forall_cons, <- IH. unfold root_segment.
  repeat case_match; naive_solver congruence.
Qed.

Lemma validate_root_total package r msg : validate_root package r ≠ Panic msg.
Proof.
  assert (Hs : ∀ segs, root_segments package segs ≠ Panic msg).
  { induction segs as [|seg segs IH]; simpl; [done|]. by repeat (case_decide || case_match). }
  unfold validate_root. repeat case_match; try done.
  specialize (Hs (Split r slash)). destruct (root_segments _ _); simpl; congruence.
Qed.

Lemma root_segment_not_dotdot segs : Forall root_segment segs → dotdot ∉ segs.
Proof. rewrite Forall_forall. intros H Hin. by destruct (H _ Hin). Qed.

(** A validated root is an absolute name without special segments. *)
Lemma validate_root_abs package r root' :
  validate_root package r = Ok root' → ∃ rs, root' = abs_name rs ∧ Forall plain_segment rs.
Proof.
  unfold validate_root. case_decide; [intros [= <-]; by exists []|].
  destruct (HasPrefix r [slash]) eqn:Hp; [|done]. simpl.
  destruct (ContainsByte r backslash); [done|].
  destruct (root_segments package (Split r slash)) as [[]|e|m] eqn:E; [|done..].
  intros [= <-]. apply root_segments_ok, root_segment_not_dotdot in E.
  apply HasPrefix_true in Hp as [p ->]. cbn [app] in *.
  eexists. split; [by apply Clean_rooted|].
  apply Forall_forall. intros seg [[? ?] Hin]%list_elem_of_filter.
  pose proof (Split_segments (slash :: p) slash) as Hsl. rewrite Forall_forall in Hsl.
  split_and!; [done|done|by intros ->|by apply Hsl].
Qed.

(** Validating a validated root, as [newAdapter] does after [Open], changes nothing. *)
Lemma validate_root_idem package r root' :
  validate_root package r = Ok root' → validate_root package root' = Ok root'.
Proof.
  intros H. pose proof H as (rs & -> & Hrs)%validate_root_abs.
  assert (Hok : Forall root_segment rs ∧ backslash ∉ Join rs slash).
  { revert H. unfold validate_root. case_decide.
    { intros [= Hj]. symmetry in Hj. apply Join_nil_inv in Hj as ->.
      - split; [constructor|simpl; set_solver].
      - eapply Forall_impl; [exact Hrs|]. by intros ? (? & _). }
    destruct (HasPrefix r [slash]) eqn:Hp; [|done]. simpl.
    destruct (ContainsByte r backslash) eqn:Hb; [done|].
    destruct (root_segments package (Split r slash)) as [[]|e|m] eqn:E; [|done..].
    intros Hc%(f_equal (λ x, match x with Ok y => y | _ => [] end)). simpl in Hc.
    apply root_segments_ok in E. apply HasPrefix_true in Hp as [p ->]. cbn [app] in *.
    rewrite Clean_rooted in Hc by by apply root_segment_not_dotdot.
    apply abs_name_inj in Hc as <-; [| |done].
    - split; [rewrite Forall_forall in *; intros seg [_ Hin]%list_elem_of_filter; by apply E|].
      intros Hin. apply bool_decide_eq_false in Hb. apply Hb.
      apply Join_elem_of in Hin as [?|(seg & Hseg & Hin)]; [done|].
      apply list_elem_of_filter in Hseg as [_ Hseg]. by eapply Split_elem_of.
    - apply Forall_forall. intros seg [[? ?] Hin]%list_elem_of_filter.
      pose proof (Split_segments (slash :: p) slash) as Hsl. rewrite Forall_forall in Hsl, E.
      destruct (E _ Hin) as [? _]. split_and!; [done..|by apply Hsl]. }
  destruct Hok as [Hsegs Hb]. destruct (Split_Join_kept rs Hrs) as [Hf Hd].
  unfold validate_root, abs_name. rewrite decide_False by done.
  rewrite (HasPrefix_app [slash] (Join rs slash) : HasPrefix (slash :: _) _ = true). cbn [negb orb].
  unfold ContainsByte. rewrite bool_decide_eq_false_2 by (intros [?|?]%elem_of_cons; done).
  rewrite Split_cons_sep, (proj2 (root_segments_ok _ _)).
  - cbn [result_map]. rewrite Clean_rooted; rewrite Split_cons_sep.
    + by rewrite filter_cons_False, Hf by naive_solver.
    + rewrite not_elem_of_cons. done.
  - apply Forall_cons. split; [done|]. destruct rs as [|seg rs]; [by repeat constructor|].
    by rewrite Split_Join by eauto using plain_no_slash.
Qed.

(** The names of the directories on the way to [rs ++ segs], from the first
    segment below [rs] on. *)
Definition ancestors (rs segs : list bytes) (count : nat) : list bytes :=
  (λ n, abs_name (rs ++ take (n + 1) segs)) <$> seq 0 count.

Lemma remote_name_abs rs q :
  Forall plain_segment rs → wf_path q → remote_name (abs_name rs) q = abs_name (rs ++ segments q).
Proof.
  intros Hrs [Hq _]. unfold remote_name, IsRoot. case_bool_decide as Hv.
  - by rewrite (proj2 (segments_nil q)), app_nil_r by by destruct q; simpl in *; subst.
  - assert (Hj : value q = Join (segments q) slash) by by rewrite segments_value, Join_Split.
    rewrite Hj, path_Join_abs; [done| |done|by apply segment_ok_plain].
    rewrite segments_nil. by intros ->.
Qed.

Lemma link_names_abs rs p :
  Forall plain_segment rs → wf_path p → p ≠ Root →
  link_names (abs_name rs) p true = ancestors rs (segments p) (length (segments p)) ∧
  link_names (abs_name rs) p false = ancestors rs (segments p) (length (segments p) - 1).
Proof.
  intros Hrs Hp Hne.
  assert (Hv : value p ≠ []) by (intros Hv; apply Hne; by destruct p; simpl in *; subst).
  assert (Hc : ∀ n, (n < length (segments p))%nat →
    path_Join [abs_name rs; path_Join (take (n + 1) (segments p))] =
    abs_name (rs ++ take (n + 1) (segments p))).
  { intros n Hn. assert (Hne' : take (n + 1) (segments p) ≠ []).
    { destruct (segments p); simpl in *; [lia|]. by rewrite Nat.add_comm. }
    assert (Hpl : Forall plain_segment (take (n + 1) (segments p)))
      by (apply Forall_take, segment_ok_plain, Hp).
    by rewrite (path_Join_plain (take _ _)), path_Join_abs. }
  unfold link_names, ancestors. rewrite <- (segments_value p Hv).
  split; apply list_fmap_ext; intros i n [-> Hi]%lookup_seq; apply Hc; lia.
Qed.

(** Distinct paths have distinct names. *)
Lemma remote_name_inj rs p q :
  Forall plain_segment rs → wf_path p → wf_path q →
  remote_name (abs_name rs) p = remote_name (abs_name rs) q → p = q.
Proof.
  intros Hrs Hp Hq. rewrite !remote_name_abs by done. intros Heq.
  apply segments_inj, (app_inv_head rs), abs_name_inj; [..|done];
    (apply Forall_app; split; [done|]); apply segment_ok_plain; [apply Hp|apply Hq].
Qed.
