(* ===== verification/Reading.v ===== *)
(** * Readers that serve a known content

    What a consumer of an [io.Reader] relies on, for readers over the state of a
    world: each [Read] hands out the next bytes of what is left, an answer without
    an error makes progress, and [io.EOF] means that nothing is left.  The wrappers
    of the adapters keep that promise, and [io.Copy] of such a reader moves exactly
    what was left. *)

From S2P Require Import Prelude GoStrings Errors Effects Hoare Contracts Remote.

Section serves.
Context {W : Type}.

(** [Inv x rest]: the world as it is while the reader [x] has [rest] left. *)
Definition serves_read {R} (Read : read_fn W R) (Inv : R → bytes → W → Prop) : Prop :=
  ∀ x rest n, 0 < n →
    triple (Inv x rest) (Read x n)
      (λ r w, match r with
        | Ok (chunk, err, x') => ∃ rest', rest = chunk ++ rest' ∧ len chunk ≤ n ∧ Inv x' rest' w ∧
            match err with
            | None => chunk ≠ []
            | Some (Sentinel EOF) => rest' = []
            | Some _ => True
            end
        | Err _ => Inv x rest w
        | Panic _ => False
        end).

Lemma triple_exists {X A} (P : X → W → Prop) (m : M W A) Q :
  (∀ x, triple (P x) m Q) → triple (λ w, ∃ x, P x w) m Q.
Proof. intros H t w [x Hx]. by eapply H. Qed.

(** Two facts about one computation. *)
Lemma triple_conj {A} (P P' : W → Prop) (m : M W A) Q Q' :
  triple P m Q → triple P' m Q' → triple (λ w, P w ∧ P' w) m (λ r w, Q r w ∧ Q' r w).
Proof. intros H H' t w [HP HP']. split; [by apply H|by apply H']. Qed.

(** A context in front of the reader. *)
Lemma serves_context {R} ctx (Read : read_fn W R) Inv :
  serves_read Read Inv → serves_read (context_Read ctx Read) Inv.
Proof.
  intros HR x rest n Hn. unfold context_Read.
  apply (triple_bind _ (λ e w, Inv x rest w ∧ ∀ err, e = Some err → ∃ ce, err = ctx_error_value ce)).
  { intros t w Hw. split; [done|]. intros err. apply ctx_Err_value. }
  intros [err|]; apply triple_pure; intros He; [|by apply HR].
  apply triple_ret. intros w Hw. exists rest. split_and!; [done|unfold len; simpl; lia|done|].
  destruct (He err eq_refl) as [[] ->]; done.
Qed.

(** [io.Copy] of the reader to a writer.  [Inv c x rest] holds when [c] has been
    written; [fails] when the copy may stop early. *)
Section copy.
Context {R : Type} (Read : read_fn W R) (Write : bytes → M W unit).
Context (Inv : bytes → R → bytes → W → Prop) (fails : W → Prop).
Hypothesis reads : ∀ c, serves_read Read (Inv c).
Hypothesis writes : ∀ c x rest chunk,
  triple (Inv c x rest)
    (match chunk with [] => ret (inl tt) | _ => attempt (Write chunk) end)
    (λ r w, match r with
      | Ok (inl _) => Inv (c ++ chunk) x rest w
      | Ok (inr _) => fails w
      | _ => False
      end).
Hypothesis gives_up : ∀ c x rest w, Inv c x rest w → fails w.

Lemma io_Copy_serves fuel c x rest :
  (length rest < fuel)%nat →
  triple (Inv c x rest) (io_Copy fuel Write Read x)
    (λ r w, match r with
      | Ok (None, x') => Inv (c ++ rest) x' [] w
      | Ok (Some _, _) | Err _ => fails w
      | Panic _ => False
      end).
Proof.
  revert c x rest. induction fuel as [|fuel IH]; intros c x rest Hf; [lia|]. cbn [io_Copy].
  apply (triple_bind _ (λ y w, ∃ rest', (Inv c y.2 rest' w) ∧ rest = y.1.1 ++ rest' ∧
    match y.1.2 with None => y.1.1 ≠ [] | Some (Sentinel EOF) => rest' = [] | Some _ => True end)).
  { eapply triple_conseq; [apply (reads c x rest (32 * 1024)); lia|done|].
    intros [[[chunk err] x']|e|msg] w; [by intros (rest' & ? & _ & ? & ?); exists rest'| |done].
    apply gives_up. }
  intros [[chunk err] x']. apply triple_exists. intros rest'. apply triple_pure. intros [-> Herr].
  simpl in Herr. apply (triple_bind _ (λ y w, match y with
    | inl _ => Inv (c ++ chunk) x' rest' w | inr _ => fails w end)).
  { eapply triple_conseq; [apply writes|done|]. by intros [[]| |] w. }
  intros [[]|ew]; [|by apply triple_ret].
  destruct err as [e|].
  - destruct e as [[]| | | | | |]; apply triple_ret; intros w; try apply gives_up.
    subst rest'. by rewrite app_nil_r.
  - rewrite app_assoc. apply IH. rewrite length_app in Hf. destruct chunk; [done|]. simpl in Hf. lia.
Qed.
End copy.

(** Reading to the end without writing. *)
Lemma io_Copy_drains {R} (Read : read_fn W R) Inv fuel x rest :
  serves_read Read Inv → (length rest < fuel)%nat →
  triple (Inv x rest) (io_Copy fuel (λ _, ret tt) Read x)
    (λ r w, match r with
      | Ok (None, x') => Inv x' [] w
      | Ok (Some _, _) | Err _ => ∃ x' rest', Inv x' rest' w
      | Panic _ => False
      end).
Proof.
  intros HR Hf.
  apply (io_Copy_serves Read (λ _, ret tt) (λ _, Inv) (λ w, ∃ x' rest', Inv x' rest' w) (λ _, HR)) with (c := []);
    [|by eauto|done].
  intros _ x' rest' [|b chunk]; [by apply triple_ret|]. by intros t w Hw.
Qed.
End serves.
