(* ===== verification/Interfaces.v ===== *)
(** * The capability interfaces: [contracts.go]

    One record per interface a provider may implement, over the provider's state
    [S], its [io.ReadCloser] values [R], its [io.WriteCloser] values [W] and its
    iterators [I].  [fstest/conformance.go] asks for a provider of all of them
    but [TemporaryURLer]. *)

From S2P Require Import Prelude GoStrings Errors Effects Paths Capability Contracts Remote.

(** ** Streams *)

(** [io.ReadCloser]: one [Read] into a buffer of the given length, and [Close].
    The value is threaded; what it shares with its provider is in [S]. *)
Class ReadCloser (S R : Type) := {
  rc_Read : R → Z → M S (bytes * option error * R);
  rc_Close : R → M S (option error * R);
}.

(** [io.WriteCloser]. *)
Class WriteCloser (S W : Type) := {
  wc_Write : W → bytes → M S (option error * W);
  wc_Close : W → M S (option error * W);
}.

(** A provider with two implementations of [io.ReadCloser]. *)
#[export] Instance sum_ReadCloser {S A B} `{ReadCloser S A, ReadCloser S B}
    : ReadCloser S (A + B) := {|
  rc_Read r n :=
    match r with
    | inl x => let! y := rc_Read x n in ret (y.1.1, y.1.2, inl y.2)
    | inr x => let! y := rc_Read x n in ret (y.1.1, y.1.2, inr y.2)
    end;
  rc_Close r :=
    match r with
    | inl x => let! y := rc_Close x in ret (y.1, inl y.2)
    | inr x => let! y := rc_Close x in ret (y.1, inr y.2)
    end;
|}.

(** The room [io.ReadAll] offers when it holds [n] bytes: its buffer has 512 bytes
    and [append] grows it when it is full. *)
Definition readall_room (n : Z) : Z := if n <? 512 then 512 - n else 512.

(** [io.ReadAll]: the bytes read and the first error other than [io.EOF].  [fuel]
    bounds the number of reads. *)
Fixpoint io_ReadAll {S R} `{ReadCloser S R} (fuel : nat) (r : R) (b : bytes)
    : M S (bytes * option error * R) :=
  match fuel with
  | O => panic "out of fuel"
  | Datatypes.S fuel' =>
      let! x := rc_Read r (readall_room (len b)) in
      let '(chunk, err, r') := x in
      match err with
      | None => io_ReadAll fuel' r' (b ++ chunk)
      | Some (Sentinel EOF) => ret (b ++ chunk, None, r')
      | Some err => ret (b ++ chunk, Some err, r')
      end
  end.

(** The value streams of [Contracts.v]. *)
#[export] Instance stream_ReadCloser {S} : ReadCloser S stream := {|
  rc_Read r n :=
    let! x := list_Read (body r) n in ret (x.1.1, x.1.2, mkStream x.2 (close_err r));
  rc_Close r := ret (close_err r, r);
|}.

(** A streaming upload: what the producer has sent, and the consumer that runs on
    it (see [StreamWriter.v] for the interleavings of the two). *)
Record upload (S : Type) := mkUpload { sent : reader; consumer : writer S }.
Arguments sent {_}.
Arguments consumer {_}.
Arguments mkUpload {_}.

#[export] Instance upload_WriteCloser {S} : WriteCloser S (upload S) := {|
  wc_Write w b := ret (None, mkUpload (sent w ++ [(b, None)]) (consumer w));
  wc_Close w :=
    let! r := attempt (consumer w (sent w)) in
    ret (match r with inl _ => None | inr err => Some err end, w);
|}.

Definition open_upload {S} (m : M S (writer S)) : M S (upload S) :=
  let! w := m in ret (mkUpload [] w).

(** ** Providers *)

Record CapabilityReporter := mkCapabilityReporter {
  Capabilities : result CapabilitySet;
}.

Record Reader (S R : Type) := mkReader {
  Open : context → Path → M S R;
}.

Record RangeReader (S R : Type) := mkRangeReader {
  OpenRange : context → Path → ByteRange → M S R;
}.

(** The source of a write is an [io.Reader], given by its answers. *)
Record Writer (S : Type) := mkWriter {
  Write : context → Path → reader → WriteOptions → M S Metadata;
}.

Record WriteOpener (S W : Type) := mkWriteOpener {
  OpenWriter : context → Path → WriteOptions → M S W;
}.

Record Deleter (S : Type) := mkDeleter {
  Delete : context → Path → M S unit;
}.

Record Lister (S I : Type) := mkLister {
  ListEntries : context → Path → ListOptions → M S I;
}.

Record Statter (S : Type) := mkStatter {
  Stat : context → Path → M S Metadata;
}.

Record Copier (S : Type) := mkCopier {
  Copy : context → Path → Path → CopyOptions → M S unit;
}.

Record Mover (S : Type) := mkMover {
  Move : context → Path → Path → MoveOptions → M S unit;
}.

Record MetadataSetter (S : Type) := mkMetadataSetter {
  SetMetadata : context → Path → stringmap → M S unit;
}.

Record Checksummer (S : Type) := mkChecksummer {
  ChecksumOf : context → Path → ChecksumAlgorithm → M S Checksum;
}.

Record TemporaryURLer (S : Type) := mkTemporaryURLer {
  TemporaryURL : context → Path → Z → TemporaryURLOptions → M S bytes;
}.

Record VisibilityManager (S : Type) := mkVisibilityManager {
  VisibilityOf : context → Path → M S Visibility;
  SetVisibility : context → Path → Visibility → M S unit;
}.

Arguments Open {_ _}.
Arguments OpenRange {_ _}.
Arguments Write {_}.
Arguments OpenWriter {_ _}.
Arguments Delete {_}.
Arguments ListEntries {_ _}.
Arguments Stat {_}.
Arguments Copy {_}.
Arguments Move {_}.
Arguments SetMetadata {_}.
Arguments ChecksumOf {_}.
Arguments TemporaryURL {_}.
Arguments VisibilityOf {_}.
Arguments SetVisibility {_}.
Arguments mkReader {_ _}.
Arguments mkRangeReader {_ _}.
Arguments mkWriter {_}.
Arguments mkWriteOpener {_ _}.
Arguments mkDeleter {_}.
Arguments mkLister {_ _}.
Arguments mkStatter {_}.
Arguments mkCopier {_}.
Arguments mkMover {_}.
Arguments mkMetadataSetter {_}.
Arguments mkChecksummer {_}.
Arguments mkTemporaryURLer {_}.
Arguments mkVisibilityManager {_}.
