(* ===== verification/Conformance.v ===== *)
(** * The conformance suite: [fstest/conformance.go]

    [TestFilesystem] as a function of an adapter: each subtest gets a fresh
    adapter and runs against the capability interfaces of [Interfaces.v].  The
    running test is the adapter's state together with the failures logged so far;
    [t.Errorf] logs one and goes on, [t.Fatal] logs one and stops the subtest. *)

From S2P Require Import Prelude GoStrings Errors Effects Paths Capability Contracts Remote Interfaces.

(** ** The tested surface *)

(** [type Filesystem interface], which embeds the capability interfaces. *)
Record Filesystem (S R W I : Type) := mkFilesystem {
  capabilityReporter :> CapabilityReporter;
  readerOf :> Reader S R;
  rangeReader :> RangeReader S R;
  writerOf :> Writer S;
  writeOpener :> WriteOpener S W;
  deleter :> Deleter S;
  lister :> Lister S I;
  statter :> Statter S;
  copier :> Copier S;
  mover :> Mover S;
  metadataSetter :> MetadataSetter S;
  checksummer :> Checksummer S;
  visibilityManager :> VisibilityManager S;
}.
Arguments mkFilesystem {_ _ _ _}.
Arguments capabilityReporter {_ _ _ _}.
Arguments readerOf {_ _ _ _}.
Arguments rangeReader {_ _ _ _}.
Arguments writerOf {_ _ _ _}.
Arguments writeOpener {_ _ _ _}.
Arguments deleter {_ _ _ _}.
Arguments lister {_ _ _ _}.
Arguments statter {_ _ _ _}.
Arguments copier {_ _ _ _}.
Arguments mover {_ _ _ _}.
Arguments metadataSetter {_ _ _ _}.
Arguments checksummer {_ _ _ _}.
Arguments visibilityManager {_ _ _ _}.

(** ** Running tests *)

Record running (S : Type) := mkRunning { adapter_state : S; failures : list String.string }.
Arguments adapter_state {_}.
Arguments failures {_}.
Arguments mkRunning {_}.

(** A test body of type [T]. *)
Definition test (S A : Type) : Type := M (running S) A.

(** A call of the adapter; its error is a value for the test to judge. *)
Definition on {S A} (m : M S A) : test S (A + error) := λ t x,
  let '(r, (t', s')) := attempt m t (adapter_state x) in (r, (t', mkRunning s' (failures x))).

(** [t.Errorf]. *)
Definition t_Errorf {S} (msg : String.string) : test S unit := λ t x,
  (Ok tt, (t, mkRunning (adapter_state x) (failures x ++ [msg]))).

(** [t.Fatal] and [t.Fatalf]: log and leave the subtest. *)
Definition t_Fatal {S A} (msg : String.string) : test S A :=
  do! t_Errorf msg in throw (NewError "FailNow").

(** [if err != nil { t.Fatal(err) }] after a call. *)
Definition must {S A} (msg : String.string) (m : M S A) : test S A :=
  let! r := on m in
  match r with inl x => ret x | inr _ => t_Fatal msg end.

(** [if !cond { t.Fatalf(...) }]. *)
Definition require {S} (msg : String.string) (cond : bool) : test S unit :=
  if cond then ret tt else t_Fatal msg.

(** [if err := ...; !errors.Is(err, target) { t.Fatalf(...) }]. *)
Definition must_fail {S A} (msg : String.string) (target : sentinel) (m : M S A) : test S unit :=
  let! r := on m in
  require msg match r with inl _ => false | inr err => Is err target end.

(** [t.Run] on a fresh adapter: whether the subtest passes, and the time after. *)
Definition t_Run {S} (body : test S unit) (fresh : S) (t : Z) : bool * Z :=
  match body t (mkRunning fresh []) with
  | (Panic _, (t', _)) => (false, t')
  | (_, (t', x)) => (bool_decide (failures x = []), t')
  end.

(** [filesystem.MustParsePath] of a literal. *)
Definition path_literal {S} (text : String.string) : test S Path :=
  lift_result (MustParsePath (bs text)).

(** [context.WithCancel] whose [cancel] was called at once. *)
Definition canceled_context {S} : test S context := λ t x, (Ok (DoneAt t CtxCanceled), (t, x)).

(** [cancel()] of a context that is cancelled at [at_time]: the test goroutine
    reaches the call no later than that and makes it then. *)
Definition cancel {S} (at_time : Z) : test S unit := λ t x,
  if t <=? at_time then (Ok tt, (at_time, x))
  else (Panic "the context was cancelled before cancel was called", (t, x)).

Fixpoint containsPath (paths : list bytes) (target : bytes) : bool :=
  match paths with
  | [] => false
  | candidate :: rest => if decide (candidate = target) then true else containsPath rest target
  end.

Definition no_options : WriteOptions := mkWriteOptions [] None [] false.
Definition text_plain : WriteOptions := mkWriteOptions (bs "text/plain") None [] false.

(** [strings.NewReader]. *)
Definition NewReader (text : String.string) : reader := [(bs text, None)].

(** ** The subtests *)

Section suite.
Context {S R W I : Type} `{ReadCloser S R} `{WriteCloser S W} `{EntryIterator I}.
Context (adapter : Filesystem S R W I).
(** The number of reads, and of entries, no stream or listing exceeds. *)
Context (fuel : nat).

Definition supports (capability : Capability) : test S bool :=
  let! set := lift_result (Capabilities adapter) in ret (Supports set capability).

(** [io.ReadAll], [Close], and both errors nil. *)
Definition read_and_close (stream : R) : test S bytes :=
  let! x := on (let! x := io_ReadAll fuel stream [] in ret (x.1.1, x.1.2, x.2)) in
  match x with
  | inr _ => t_Fatal "read error"
  | inl (content, readErr, stream) =>
      let! y := on (rc_Close stream) in
      match readErr, y with
      | None, inl (None, _) => ret content
      | _, _ => t_Fatal "read error, close error"
      end
  end.

(** [io.WriteString] of one chunk. *)
Definition write_string (writer : W) (chunk : bytes) : test S W :=
  let! x := must "io.WriteString" (wc_Write writer chunk) in
  match x.1 with None => ret x.2 | Some _ => t_Fatal "io.WriteString" end.

Fixpoint write_strings (writer : W) (chunks : list bytes) : test S W :=
  match chunks with
  | [] => ret writer
  | chunk :: rest => let! writer := write_string writer chunk in write_strings writer rest
  end.

(** [writer.Close()]: its error. *)
Definition close_writer (writer : W) : test S (option error) :=
  let! x := on (wc_Close writer) in
  ret match x with inl (err, _) => err | inr err => Some err end.

Fixpoint check_capabilities (capabilities : list Capability) : test S unit :=
  match capabilities with
  | [] => ret tt
  | capability :: rest =>
      let! supported := supports capability in
      do! (if negb supported then t_Errorf "Capabilities().Supports(%q) = false" else ret tt) in
      check_capabilities rest
  end.

Definition test_capabilities : test S unit :=
  check_capabilities [CapabilityRead; CapabilityWrite; CapabilityStreamingWrite; CapabilityDelete;
                      CapabilityList; CapabilityStat].

Definition test_open_writer_streams : test S unit :=
  let! path := path_literal "streamed/writer.txt" in
  let! writer := must "OpenWriter" (OpenWriter adapter Background path text_plain) in
  let! writer := write_strings writer [bs "hello "; bs "streaming "; bs "writer"] in
  let! err := close_writer writer in
  do! require "Close" (bool_decide (err = None)) in
  let! stream := must "Open" (Open adapter Background path) in
  let! content := read_and_close stream in
  require "Open() content" (bool_decide (content = bs "hello streaming writer")).

Definition test_open_writer_validates : test S unit :=
  let! ctx := canceled_context in
  let! path := path_literal "canceled.txt" in
  do! must_fail "OpenWriter(canceled) error" Canceled (OpenWriter adapter ctx path no_options) in
  must_fail "OpenWriter(root) error" ErrInvalidPath (OpenWriter adapter Background Root no_options).

(** [cancel_at] is when the test cancels. *)
Definition test_open_writer_cancellation (cancel_at : Z) : test S unit :=
  let ctx := DoneAt cancel_at CtxCanceled in
  let! path := path_literal "canceled-writer.txt" in
  let! writer := must "OpenWriter" (OpenWriter adapter ctx path no_options) in
  let! writer := write_string writer (bs "partial") in
  do! cancel cancel_at in
  let! err := close_writer writer in
  require "Close() error, want context.Canceled"
    match err with Some err => Is err Canceled | None => false end.

Definition test_write_read_stat : test S unit :=
  let! path := path_literal "nested/object.txt" in
  let! metadata := must "Write"
    (Write adapter Background path (NewReader "hello filesystem") text_plain) in
  do! require "Write() metadata"
    (bool_decide (mPath metadata = path) && (mSize metadata =? len (bs "hello filesystem"))) in
  let! stream := must "Open" (Open adapter Background path) in
  let! content := read_and_close stream in
  do! require "Open() content" (bool_decide (content = bs "hello filesystem")) in
  let! stat := must "Stat" (Stat adapter Background path) in
  do! require "Stat()" (bool_decide (mKind stat = EntryKindFile)) in
  let! metadata := supports CapabilityMetadata in
  require "Stat().ContentType, want text/plain"
    (negb (metadata && negb (bool_decide (mContentType stat = bs "text/plain")))).

Definition test_range_read : test S unit :=
  let! path := path_literal "range.txt" in
  do! must "Write" (Write adapter Background path (NewReader "0123456789") no_options) in
  let! opened := on (OpenRange adapter Background path (mkByteRange 2 4)) in
  let! supported := supports CapabilityRangeRead in
  if negb supported then
    require "OpenRange() error, want ErrUnsupportedCapability"
      match opened with inl _ => false | inr err => Is err ErrUnsupportedCapability end
  else
    match opened with
    | inr _ => t_Fatal "OpenRange"
    | inl stream =>
        let! content := read_and_close stream in
        require "OpenRange() content, want 2345" (bool_decide (content = bs "2345"))
    end.

(** The copy, or the refusal of one: the path listed from then on. *)
Definition test_copy (source copyPath : Path) : test S Path :=
  let! supported := supports CapabilityCopy in
  if supported : bool then
    do! must "Copy" (Copy adapter Background source copyPath (mkCopyOptions true)) in
    ret copyPath
  else
    do! must_fail "Copy() error, want ErrUnsupportedCapability" ErrUnsupportedCapability
      (Copy adapter Background source copyPath (mkCopyOptions false)) in
    ret source.

Definition test_move (listedPath movedPath : Path) : test S Path :=
  let! supported := supports CapabilityMove in
  if supported : bool then
    do! must "Move" (Move adapter Background listedPath movedPath (mkMoveOptions true)) in
    do! must_fail "Stat(move source) error, want ErrNotFound" ErrNotFound
      (Stat adapter Background listedPath) in
    ret movedPath
  else
    do! must_fail "Move() error, want ErrUnsupportedCapability" ErrUnsupportedCapability
      (Move adapter Background listedPath movedPath (mkMoveOptions false)) in
    ret listedPath.

(** The loop over the listing and the checks after it. *)
Definition test_listed (source listedPath : Path) : test S unit :=
  let! iterator := must "List" (ListEntries adapter Background Root (mkListOptions true 10)) in
  match drain fuel iterator with
  | None => panic "out of fuel"
  | Some (entries, iterator) =>
      let paths := (λ e, value (ePath e)) <$> filter (λ e, eKind e = EntryKindFile) entries in
      do! require "iterator.Err" (bool_decide (IterErr iterator = None)) in
      do! require "iterator.Close" (bool_decide ((CloseIter iterator).1 = None)) in
      require "List() paths"
        (negb (negb (containsPath paths (value listedPath)) || negb (containsPath paths (value source))))
  end.

(** Up to the listing: the path written first, and the path of its copy or of the
    copy moved. *)
Definition test_copy_move : test S (Path * Path) :=
  let! source := path_literal "source.txt" in
  let! copyPath := path_literal "directory/copy.txt" in
  let! movedPath := path_literal "directory/moved.txt" in
  do! must "Write" (Write adapter Background source (NewReader "content") no_options) in
  let! listedPath := test_copy source copyPath in
  let! listedPath := test_move listedPath movedPath in
  ret (source, listedPath).

Definition test_copy_move_list_delete : test S unit :=
  let! paths := test_copy_move in
  let '(source, listedPath) := paths in
  do! test_listed source listedPath in
  do! must "Delete" (Delete adapter Background listedPath) in
  must_fail "Open(deleted) error, want ErrNotFound" ErrNotFound (Open adapter Background listedPath).

Definition test_metadata (path : Path) : test S unit :=
  let! supported := supports CapabilityMetadata in
  if supported : bool then
    must "SetMetadata"
      (SetMetadata adapter Background path (Some {[bs "owner" := bs "test"]}))
  else
    must_fail "SetMetadata() error, want ErrUnsupportedCapability" ErrUnsupportedCapability
      (SetMetadata adapter Background path None).

Definition test_visibility (path : Path) : test S unit :=
  let! supported := supports CapabilityVisibility in
  if supported : bool then
    do! must "SetVisibility" (SetVisibility adapter Background path VisibilityPublic) in
    let! visibility := must "Visibility" (VisibilityOf adapter Background path) in
    require "Visibility()" (bool_decide (visibility = VisibilityPublic))
  else
    must_fail "Visibility() error, want ErrUnsupportedCapability" ErrUnsupportedCapability
      (VisibilityOf adapter Background path).

Definition test_checksum (path : Path) : test S unit :=
  let! checksum := on (ChecksumOf adapter Background path ChecksumSHA256) in
  let! supported := supports CapabilityChecksum in
  if negb supported then
    require "Checksum() error, want ErrUnsupportedCapability"
      match checksum with inl _ => false | inr err => Is err ErrUnsupportedCapability end
  else
    match checksum with
    | inr _ => t_Fatal "Checksum"
    | inl checksum =>
        require "Checksum()" (bool_decide (Value checksum =
          bs "ed7002b439e9ac845f22357d822bac1444730fbdb6016d3ec9432297b9ec9f73"))
    end.

Definition test_properties : test S unit :=
  let! path := path_literal "properties.txt" in
  do! must "Write" (Write adapter Background path (NewReader "content") no_options) in
  do! test_metadata path in
  do! test_visibility path in
  test_checksum path.

(** The subtests in their order; the third is told how long after its start the
    test cancels. *)
Definition subtests : list (String.string * (Z → test S unit)) :=
  [("capabilities match conformance surface", λ _, test_capabilities);
   ("open writer streams and publishes on close", λ _, test_open_writer_streams);
   ("open writer validates setup before starting", λ _, test_open_writer_validates);
   ("open writer reports cancellation from close", test_open_writer_cancellation);
   ("write read and stat stream", λ _, test_write_read_stat);
   ("range read", λ _, test_range_read);
   ("copy move list and delete", λ _, test_copy_move_list_delete);
   ("metadata checksum and visibility", λ _, test_properties)]%string.

(** [TestFilesystem] with a factory that answers [fresh]: the names of the
    subtests that fail.  [patience] is how long after the start of its subtest
    the test calls [cancel]. *)
Fixpoint run_subtests (patience : Z) (fresh : S) (subtests : list (String.string * (Z → test S unit)))
    (t : Z) : list String.string :=
  match subtests with
  | [] => []
  | (name, body) :: rest =>
      let '(passed, t') := t_Run (body (t + patience)) fresh t in
      (if passed : bool then [] else [name]) ++ run_subtests patience fresh rest t'
  end.

Definition TestFilesystem (patience : Z) (fresh : S) (t : Z) : list String.string :=
  run_subtests patience fresh subtests t.
End suite.
