(* ===== verification/ConformanceMemory.v ===== *)
(** * Conformance of the in-memory adapter

    The suite of [Conformance.v] run on [memory.Adapter], for every map order,
    clock, starting time and moment of cancellation. *)

From S2P Require Import Prelude GoStrings Errors Effects Paths Capability Contracts Iterator Digest Memory Decorator DecoratorPolicy DecoratedMemory Remote Interfaces Conformance.

(** A [decorator.Backend] is a [Filesystem]. *)
Definition backend_filesystem {S I} (b : Backend S I) : Filesystem S stream (upload S) I :=
  mkFilesystem (mkCapabilityReporter (bCapabilities b)) (mkReader (bOpen b))
    (mkRangeReader (bOpenRange b)) (mkWriter (bWrite b))
    (mkWriteOpener (λ ctx path options, open_upload (bOpenWriter b ctx path options)))
    (mkDeleter (bDelete b)) (mkLister (bList b)) (mkStatter (bStat b)) (mkCopier (bCopy b))
    (mkMover (bMove b)) (mkMetadataSetter (bSetMetadata b)) (mkChecksummer (bChecksum b))
    (mkVisibilityManager (bVisibility b) (bSetVisibility b)).

(** ** Verdicts *)

(** The subtest passes whenever it starts. *)
Definition passes {S} (fresh : S) (patience : Z) (body : Z → test S unit) : Prop :=
  ∀ t, (t_Run (body (t + patience)) fresh t).1 = true.

Lemma run_subtests_pass {S} patience (fresh : S) subtests t :
  Forall (λ x, passes fresh patience x.2) subtests → run_subtests patience fresh subtests t = [].
Proof.
  intros Hp. revert t. induction Hp as [|[name body] rest Hx _ IH]; intros t; [done|].
  simpl. specialize (Hx t). destruct (t_Run _ fresh t) as [passed t']. simpl in Hx. subst. apply IH.
Qed.

(** ** The in-memory adapter *)

(** Every constructed adapter starts empty. *)
Lemma New_empty now options : ∃ c, Memory.New now options = Memory.mkAdapter ∅ c.
Proof.
  unfold Memory.New. generalize now. induction options as [|[[c|]] rest IH]; intros c'; [by eexists|apply IH..].
Qed.

(** A map of two bindings is ranged over in one of two orders. *)
Lemma range_two `{R : MapRange} {V} (k1 k2 : bytes) (v1 v2 : V) :
  k1 ≠ k2 →
  range (<[k1 := v1]> {[k2 := v2]}) = [(k1, v1); (k2, v2)] ∨
  range (<[k1 := v1]> {[k2 := v2]}) = [(k2, v2); (k1, v1)].
Proof.
  intros Hk. apply Permutation_length_2_inv. symmetry. etransitivity; [apply range_perm|].
  rewrite map_to_list_insert by (by apply lookup_singleton_ne). by rewrite map_to_list_singleton.
Qed.

(** A step of a test whose outcome is known. *)
Lemma bind_Ok {S A B} (m : M S A) (f : A → M S B) t s a t' s' :
  m t s = (Ok a, (t', s')) → bind m f t s = f a t' s'.
Proof. unfold bind. by intros ->. Qed.

Lemma must_Ok {S A} msg (m : M S A) t x a t' x' :
  on m t x = (Ok (inl a), (t', x')) → must msg m t x = (Ok a, (t', x')).
Proof. unfold must, bind. by intros ->. Qed.

Section memory.
Context {R : MapRange} (c : Z → Z) (more : nat).
Local Abbreviation fs := (backend_filesystem (memory_backend (R:=R))).
Local Abbreviation fresh := (Memory.mkAdapter ∅ c).

(** *** The writer subtests *)

Lemma on_OpenWriter_done ctx path options t x e :
  ctx_Err ctx t = Some e → on (OpenWriter fs ctx path options) t x = (Ok (inr e), (t + 1, x)).
Proof.
  intros He. unfold on, attempt. cbn. unfold open_upload, Memory.OpenWriter, bind, check_ctx.
  rewrite He. by destruct x.
Qed.

Lemma on_OpenWriter ctx path options t x :
  ctx_Err ctx t = None → path ≠ Root →
  on (OpenWriter fs ctx path options) t x =
    (Ok (inl (mkUpload [] (λ source, do! Memory.Write ctx path source options in ret tt))), (t + 1, x)).
Proof.
  intros He Hp. unfold on, attempt. cbn. unfold open_upload, Memory.OpenWriter, bind, check_ctx.
  rewrite He. unfold IsRoot. rewrite bool_decide_eq_false_2; [by destruct x|].
  intros Hv. apply Hp. destruct path. by simpl in Hv; subst.
Qed.

Lemma memory_validates p : passes fresh p (λ _, test_open_writer_validates fs).
Proof.
  intros t. unfold t_Run, test_open_writer_validates.
  rewrite (bind_Ok _ _ _ _ (DoneAt t CtxCanceled) t (mkRunning fresh [])) by done.
  rewrite (bind_Ok _ _ _ _ (mkPath (bs "canceled.txt")) t (mkRunning fresh [])) by done.
  rewrite (bind_Ok _ _ _ _ tt (t + 1) (mkRunning fresh [])); [by vm_compute|].
  unfold must_fail. erewrite bind_Ok; [|apply on_OpenWriter_done; simpl; by rewrite Z.leb_refl].
  done.
Qed.

Lemma memory_cancellation p : 1 ≤ p → passes fresh p (test_open_writer_cancellation fs).
Proof.
  intros Hp t. unfold t_Run, test_open_writer_cancellation.
  rewrite (bind_Ok _ _ _ _ (mkPath (bs "canceled-writer.txt")) t (mkRunning fresh [])) by done.
  set (ctx := DoneAt (t + p) CtxCanceled).
  erewrite bind_Ok; [|apply must_Ok, on_OpenWriter; [|discriminate]].
  2:{ simpl. by rewrite (proj2 (Z.leb_gt _ _)) by lia. }
  erewrite bind_Ok by done. unfold cancel.
  rewrite (bind_Ok _ _ _ _ tt (t + p) (mkRunning fresh []))
    by (by rewrite (proj2 (Z.leb_le _ _)) by lia).
  rewrite (bind_Ok _ _ _ _ (Some (Sentinel Canceled)) (t + p + 1) (mkRunning fresh [])); [done|].
  unfold close_writer, on, attempt, bind. cbn. unfold attempt, bind, Memory.Write, write_prepare, bind.
  cbn. by rewrite Z.leb_refl.
Qed.

(** *** The listing subtest *)

Definition two_listing (o1 o2 : object) : list Entry :=
  [mkEntry (mkPath (bs "directory/moved.txt")) EntryKindFile (len (content o2)) (modified o2);
   mkEntry (mkPath (bs "source.txt")) EntryKindFile (len (content o1)) (modified o1)].

Lemma two_listed o1 o2 t :
  let a := Memory.mkAdapter (<[bs "source.txt" := o1]> {[bs "directory/moved.txt" := o2]}) c in
  ListObjects Background Root (mkListOptions true 10) t a =
    (Ok (Iterator.newIterator (two_listing o1 o2)), (t + 1, a)).
Proof.
  intros a. set (e o name := mkEntry (mkPath name) EntryKindFile (len (content o)) (modified o)).
  pose (m := <[bs "source.txt" := e o1 (bs "source.txt")]>
     {[bs "directory/moved.txt" := e o2 (bs "directory/moved.txt")]} : gmap bytes Entry).
  unfold ListObjects. rewrite (bind_Ok _ _ _ _ tt (t + 1) a) by done.
  cbn [Limit Recursive Z.ltb Z.compare]. rewrite (bind_Ok _ _ _ _ a (t + 1) a) by done.
  rewrite (bind_Ok _ _ _ _ m (t + 1) a).
  - unfold ret, list_finish, m.
    destruct (range_two (bs "source.txt") (bs "directory/moved.txt") (e o1 (bs "source.txt"))
      (e o2 (bs "directory/moved.txt")) ltac:(discriminate)) as [-> | ->]; reflexivity.
  - unfold lift_result, a. cbn [objects]. 
    destruct (range_two (bs "source.txt") (bs "directory/moved.txt") o1 o2 ltac:(discriminate)) as [-> | ->]; reflexivity.
Qed.


Lemma memory_copy_move t :
  ∃ t' o1 o2, test_copy_move fs t (mkRunning fresh []) =
    (Ok (mkPath (bs "source.txt"), mkPath (bs "directory/moved.txt")),
     (t', mkRunning (Memory.mkAdapter (<[bs "source.txt" := o1]> {[bs "directory/moved.txt" := o2]}) c) [])).
Proof. do 3 eexists. vm_compute. reflexivity. Qed.

Lemma memory_listed o1 o2 t :
  let x := mkRunning (Memory.mkAdapter (<[bs "source.txt" := o1]> {[bs "directory/moved.txt" := o2]}) c) [] in
  test_listed fs (3 + more) (mkPath (bs "source.txt")) (mkPath (bs "directory/moved.txt")) t x =
    (Ok tt, (t + 1, x)).
Proof.
  intros x. unfold test_listed, x.
  erewrite bind_Ok; [|apply must_Ok; unfold on, attempt; simpl; by rewrite two_listed].
  vm_compute. reflexivity.
Qed.

Lemma memory_copy_move_list_delete p : passes fresh p (λ _, test_copy_move_list_delete fs (3 + more)).
Proof.
  intros t. unfold t_Run, test_copy_move_list_delete.
  destruct (memory_copy_move t) as (t' & o1 & o2 & H). rewrite (bind_Ok _ _ _ _ _ _ _ H).
  rewrite (bind_Ok _ _ _ _ _ _ _ (memory_listed o1 o2 t')). vm_compute. reflexivity.
Qed.

(** *** All of them *)

Lemma memory_suite p : 1 ≤ p → Forall (λ x, passes fresh p x.2) (subtests fs (3 + more)).
Proof.
  intros Hp. repeat apply Forall_cons_2; [| |apply memory_validates|by apply memory_cancellation
    | | |apply memory_copy_move_list_delete| |by apply Forall_nil_2];
    intros t; vm_compute; reflexivity.
Qed.
End memory.

(** C4: The in-memory adapter conforms: however it was constructed, whatever order
    Go ranges over its maps in, whatever its clock shows, whenever the suite starts
    and however late the test cancels its upload, every subtest of
    [TestFilesystem] passes.  Three reads and three calls of [Next] are as many as
    the suite ever needs. *)
Theorem memory_conforms {R : MapRange} now options fuel patience t :
  (3 ≤ fuel)%nat → 1 ≤ patience →
  TestFilesystem (backend_filesystem memory_backend) fuel patience (Memory.New now options) t = [].
Proof.
  intros Hf Hp. destruct (New_empty now options) as [c ->].
  replace fuel with (3 + (fuel - 3))%nat by lia.
  apply run_subtests_pass. by apply memory_suite.
Qed.

Lemma memory_conforms_witness :
  TestFilesystem (backend_filesystem (memory_backend (R:=model_range))) 3 1
    (Memory.New (λ t, t) [WithClock (Some (λ t, 7))]) 0 = [].
Proof. apply (memory_conforms (R:=model_range) (λ t, t) [WithClock (Some (λ t, 7))] 3 1 0); lia. Defined.
