(* ===== verification/ConformanceSim.v ===== *)
(** * Conformance through a simulation

    A backend that simulates another, request by request, gets the same verdict
    from the suite of [Conformance.v]; and a prefixed decorator over a shared
    in-memory store simulates the plain adapter, so it conforms. *)

From S2P Require Import Prelude GoStrings Errors Effects Paths Capability Contracts Iterator Digest Memory MemoryList Decorator DecoratorPolicy DecoratedMemory Remote Interfaces Conformance ConformanceMemory.

(** ** Simulations *)

(** The requests the suite makes; an upload is opened, fed and closed apart. *)
Definition suite_ok (rq : client_request) : Prop :=
  match rq with
  | CrUpload _ _ _ _ => False
  | CrCopy _ _ q _ | CrMove _ _ q _ => client_ok rq ∧ q ≠ Root
  | _ => client_ok rq
  end.

(** Two iterators that yield the same entries to a loop and end alike. *)
Definition same_listing {I J} `{EntryIterator I, EntryIterator J} (i : I) (j : J) : Prop :=
  ∀ fuel,
    match drain fuel i, drain fuel j with
    | Some (es, i'), Some (es', j') =>
        es = es' ∧ IterErr i' = IterErr j' ∧ (CloseIter i').1 = (CloseIter j').1
    | None, None => True
    | _, _ => False
    end.

(** [OpenWriter] of the root is refused as an invalid path. *)
Definition rejects_root {S I} (b : Backend S I) : Prop :=
  ∀ options t s, ∃ e w, bOpenWriter b Background Root options t s = (Err e, w) ∧ Is e ErrInvalidPath = true.

Section simulation.
Context {S T I J : Type} `{EntryIterator I, EntryIterator J} (Rel : S → T → Prop).

(** Run side by side, at the same times. *)
Definition sim {A B} (Q : A → B → Prop) (m : M S A) (n : M T B) : Prop :=
  ∀ t s v, Rel s v →
    let '(r, (t1, s')) := m t s in
    let '(r', (t2, v')) := n t v in
    t1 = t2 ∧ Rel s' v' ∧ result_rel Q r r'.

Record simulated (b : Backend S I) (c : Backend T J) : Prop := {
  sim_capabilities :
    result_rel (λ x y, ∀ k, Supports x k = Supports y k) (bCapabilities b) (bCapabilities c);
  sim_request rq : suite_ok rq → sim eq (answer b rq) (answer c rq);
  sim_writer ctx p options : wf_path p → p ≠ Root →
    sim (λ w w', ∀ source, sim eq (w source) (w' source))
      (bOpenWriter b ctx p options) (bOpenWriter c ctx p options);
  sim_listing limit : 0 ≤ limit →
    sim same_listing (bList b Background Root (mkListOptions true limit))
      (bList c Background Root (mkListOptions true limit));
  sim_root : rejects_root b;
  sim_root' : rejects_root c;
}.

(** A test and its counterpart: they log the same failures; [simT] keeps the states
    related, [simF] is for the end of a subtest. *)
Definition simT {A B} (Q : A → B → Prop) (m : test S A) (n : test T B) : Prop :=
  ∀ t x y, Rel (adapter_state x) (adapter_state y) → failures x = failures y →
    let '(r, (t1, x')) := m t x in
    let '(r', (t2, y')) := n t y in
    t1 = t2 ∧ Rel (adapter_state x') (adapter_state y') ∧ failures x' = failures y' ∧ result_rel Q r r'.

Definition simF {A B} (m : test S A) (n : test T B) : Prop :=
  ∀ t x y, Rel (adapter_state x) (adapter_state y) → failures x = failures y →
    let '(r, (_, x')) := m t x in
    let '(r', (_, y')) := n t y in
    failures x' = failures y' ∧ result_rel (λ _ _, True) r r'.

Lemma simF_of {A B} (Q : A → B → Prop) m n : simT Q m n → simF m n.
Proof.
  intros Hm t x y HR Hf. specialize (Hm t x y HR Hf).
  destruct (m t x) as [r [t1 x']], (n t y) as [r' [t2 y']].
  destruct Hm as (_ & _ & Hf' & Hr). split; [done|]. by destruct r, r'.
Qed.

Lemma t_Run_sim m n s v t : simF m n → Rel s v → (t_Run m s t).1 = (t_Run n v t).1.
Proof.
  intros Hm HR. specialize (Hm t (mkRunning s []) (mkRunning v []) HR eq_refl). unfold t_Run.
  destruct (m t _) as [r [t1 x']], (n t _) as [r' [t2 y']]. destruct Hm as [Hf Hr].
  by destruct r, r'; simpl in *; rewrite ?Hf.
Qed.

(** *** Rules *)

Lemma simT_ret {A B} (Q : A → B → Prop) x y : Q x y → simT Q (ret x) (ret y).
Proof. intros HQ t u v HR Hf. by split_and!. Qed.

Lemma simT_lift {A B} (Q : A → B → Prop) r r' :
  result_rel Q r r' → simT Q (lift_result r) (lift_result r').
Proof. intros HQ t u v HR Hf. by split_and!. Qed.

Lemma simT_bind {A B A' B'} (Q : A → B → Prop) (Q' : A' → B' → Prop) m n f g :
  simT Q m n → (∀ x y, Q x y → simT Q' (f x) (g y)) → simT Q' (bind m f) (bind n g).
Proof.
  intros Hm Hf t u v HR Hl. specialize (Hm t u v HR Hl). unfold bind.
  destruct (m t u) as [r [t1 u1]], (n t v) as [r' [t2 v1]]. destruct Hm as (-> & HR1 & Hl1 & Hr).
  destruct r as [x|e|msg], r' as [y|e'|msg']; simpl in Hr; try done. by apply Hf.
Qed.

Lemma simF_bind {A B A' B'} (Q : A → B → Prop) m n (f : A → test S A') (g : B → test T B') :
  simT Q m n → (∀ x y, Q x y → simF (f x) (g y)) → simF (bind m f) (bind n g).
Proof.
  intros Hm Hf t u v HR Hl. specialize (Hm t u v HR Hl). unfold bind.
  destruct (m t u) as [r [t1 u1]], (n t v) as [r' [t2 v1]]. destruct Hm as (-> & HR1 & Hl1 & Hr).
  destruct r as [x|e|msg], r' as [y|e'|msg']; simpl in Hr; try done. by apply Hf.
Qed.

(** A value, or an error of the same kind. *)
Definition outcome {A B} (Q : A → B → Prop) (x : A + error) (y : B + error) : Prop :=
  match x, y with
  | inl a, inl b => Q a b
  | inr e, inr e' => ∀ target, Is e target = Is e' target
  | _, _ => False
  end.

Lemma simT_on {A B} (Q : A → B → Prop) m n : sim Q m n → simT (outcome Q) (on m) (on n).
Proof.
  intros Hm t x y HR Hf. specialize (Hm t _ _ HR). unfold on, attempt.
  destruct (m t _) as [r [t1 s']], (n t _) as [r' [t2 v']]. destruct Hm as (-> & HR' & Hr).
  destruct r, r'; simpl in *; try done.
Qed.

Lemma simT_Errorf msg : simT eq (t_Errorf msg) (t_Errorf msg).
Proof. intros t x y HR Hf. simpl. by rewrite Hf. Qed.

Lemma simT_Fatal {A B} (Q : A → B → Prop) msg : simT Q (t_Fatal msg) (t_Fatal msg).
Proof. intros t x y HR Hf. simpl. by rewrite Hf. Qed.

Lemma simT_require msg cond cond' : cond = cond' → simT eq (require msg cond) (require msg cond').
Proof. intros <-. destruct cond; [by apply simT_ret|apply simT_Fatal]. Qed.

Lemma simT_must {A B} (Q : A → B → Prop) msg m n : sim Q m n → simT Q (must msg m) (must msg n).
Proof.
  intros Hm. eapply simT_bind; [by apply simT_on|]. intros [x|e] [y|e'] Hxy; simpl in Hxy;
    [by apply simT_ret|done|done|apply simT_Fatal].
Qed.

Lemma simT_must_fail {A B} (Q : A → B → Prop) msg target m n :
  sim Q m n → simT eq (must_fail msg target m) (must_fail msg target n).
Proof.
  intros Hm. eapply simT_bind; [by apply simT_on|]. intros [x|e] [y|e'] Hxy; simpl in Hxy;
    [by apply simT_require|done|done|by apply simT_require].
Qed.

Lemma simT_cancel at_time : simT eq (cancel at_time) (cancel at_time).
Proof. intros t x y HR Hf. unfold cancel. by destruct (t <=? at_time). Qed.

Lemma simT_canceled : simT eq canceled_context canceled_context.
Proof. intros t x y HR Hf. by split_and!. Qed.

(** A literal path is the same well-formed path for both. *)
Lemma simT_path text :
  simT (λ p q, p = q ∧ wf_path p ∧ p ≠ Root) (path_literal text) (path_literal text).
Proof.
  apply simT_lift. unfold MustParsePath.
  destruct (ParsePath_cases (bs text)) as [(segs & -> & Hne & Hok)|(e & -> & _)]; [|done].
  split_and!; [done|by auto with paths|]. rewrite <- segments_nil. by rewrite segments_ofSegments by apply Hok.
Qed.

(** *** Requests *)

Context (b : Backend S I) (c : Backend T J) (Hsim : simulated b c) (fuel : nat).
Local Abbreviation fs := (backend_filesystem b).
Local Abbreviation fs' := (backend_filesystem c).

(** The value in a reply. *)
Lemma sim_unwrap {A} (f : A → reply) (m : M S A) (n : M T A) :
  (∀ x y, f x = f y → x = y) →
  sim eq (let! x := m in ret (f x)) (let! x := n in ret (f x)) → sim eq m n.
Proof.
  intros Hf Hm t s v HR. specialize (Hm t s v HR). unfold bind, ret in Hm.
  destruct (m t s) as [[x|e|msg] [t1 s1]], (n t v) as [[y|e'|msg'] [t2 v1]]; simpl in *; try done.
  destruct Hm as (? & ? & ?). auto.
Qed.

Local Ltac by_request rq :=
  intros; eapply (sim_unwrap _); [|apply (sim_request _ _ Hsim rq); simpl; by auto];
  let x := fresh in let y := fresh in intros x y ?; first [by simplify_eq | by destruct x, y].

Lemma req_Open ctx p : wf_path p → sim eq (bOpen b ctx p) (bOpen c ctx p).
Proof. by_request (CrOpen ctx p). Qed.
Lemma req_OpenRange ctx p r : wf_path p → sim eq (bOpenRange b ctx p r) (bOpenRange c ctx p r).
Proof. by_request (CrOpenRange ctx p r). Qed.
Lemma req_Write ctx p source options :
  wf_path p → sim eq (bWrite b ctx p source options) (bWrite c ctx p source options).
Proof. by_request (CrWrite ctx p source options). Qed.
Lemma req_Delete ctx p : wf_path p → sim eq (bDelete b ctx p) (bDelete c ctx p).
Proof. by_request (CrDelete ctx p). Qed.
Lemma req_Stat ctx p : wf_path p → sim eq (bStat b ctx p) (bStat c ctx p).
Proof. by_request (CrStat ctx p). Qed.
Lemma req_Copy ctx p q options :
  wf_path p → wf_path q → q ≠ Root → sim eq (bCopy b ctx p q options) (bCopy c ctx p q options).
Proof. by_request (CrCopy ctx p q options). Qed.
Lemma req_Move ctx p q options :
  wf_path p → wf_path q → q ≠ Root → sim eq (bMove b ctx p q options) (bMove c ctx p q options).
Proof. by_request (CrMove ctx p q options). Qed.
Lemma req_SetMetadata ctx p md :
  wf_path p → sim eq (bSetMetadata b ctx p md) (bSetMetadata c ctx p md).
Proof. by_request (CrSetMetadata ctx p md). Qed.
Lemma req_Checksum ctx p : wf_path p →
  sim eq (bChecksum b ctx p ChecksumSHA256) (bChecksum c ctx p ChecksumSHA256).
Proof.
  intros. eapply (sim_unwrap _); [|apply (sim_request _ _ Hsim (CrChecksum ctx p ChecksumSHA256))].
  - intros. by simplify_eq.
  - split; [done|]. by eexists.
Qed.
Lemma req_Visibility ctx p : wf_path p → sim eq (bVisibility b ctx p) (bVisibility c ctx p).
Proof. by_request (CrVisibility ctx p). Qed.
Lemma req_SetVisibility ctx p v : wf_path p → sim eq (bSetVisibility b ctx p v) (bSetVisibility c ctx p v).
Proof. by_request (CrSetVisibility ctx p v). Qed.

(** Streams do not touch the backend. *)
Lemma sim_ret_eq {A} (x : A) : sim eq (ret x) (ret x).
Proof. by intros t s v HR. Qed.

Lemma sim_seq {A B A' B'} (Q : A → B → Prop) (Q' : A' → B' → Prop) (m : M S A) n (f : A → M S A') (g : B → M T B') :
  sim Q m n → (∀ x y, Q x y → sim Q' (f x) (g y)) → sim Q' (bind m f) (bind n g).
Proof.
  intros Hm Hf t s v HR. specialize (Hm t s v HR). unfold bind.
  destruct (m t s) as [r [t1 s1]], (n t v) as [r' [t2 v1]]. destruct Hm as (-> & HR1 & Hr).
  destruct r as [x|e|msg], r' as [y|e'|msg']; simpl in Hr; try done. by apply Hf.
Qed.

Lemma sim_stream_Read (r : stream) n : sim eq (rc_Read r n) (rc_Read r n).
Proof. by destruct r as [[|[]] ?]; intros t s v HR. Qed.

Lemma sim_ReadAll n (r : stream) x : sim eq (io_ReadAll n r x) (io_ReadAll n r x).
Proof.
  revert r x. induction n as [|n IH]; intros r x; [by intros t s v HR|]. simpl.
  apply (sim_seq eq); [apply sim_stream_Read|]. intros [[chunk err] r'] ? <-.
  destruct err as [[[]| | | | | |]|]; [..|apply IH]; apply sim_ret_eq.
Qed.

(** *** Subtests *)

Lemma simT_supports k : simT eq (supports fs k) (supports fs' k).
Proof.
  eapply simT_bind; [apply simT_lift, (sim_capabilities _ _ Hsim)|].
  intros x y Hxy. apply simT_ret, Hxy.
Qed.

Lemma simT_read_and_close (st : stream) : simT eq (read_and_close fuel st) (read_and_close fuel st).
Proof.
  eapply simT_bind; [apply simT_on, (sim_seq eq); [apply sim_ReadAll|intros x ? <-; apply sim_ret_eq]|].
  intros [[[content err] r]|e] [[[content' err'] r']|e'] Hx; simpl in Hx;
    [simplify_eq|done|done|apply simT_Fatal].
  eapply simT_bind; [apply simT_on, sim_ret_eq|]. intros [x|e] [y|e'] Hxy; simpl in Hxy;
    [simplify_eq|done|done|destruct err'; apply simT_Fatal].
  destruct err'; [apply simT_Fatal|]. destruct y as [[]]; [apply simT_Fatal|by apply simT_ret].
Qed.

(** Two uploads that were sent the same and end alike. *)
Definition same_upload (w : upload S) (w' : upload T) : Prop :=
  sent w = sent w' ∧ ∀ source, sim eq (consumer w source) (consumer w' source).

Lemma sim_open_upload ctx p options :
  wf_path p → p ≠ Root →
  sim same_upload (open_upload (bOpenWriter b ctx p options)) (open_upload (bOpenWriter c ctx p options)).
Proof.
  intros Hp Hr. eapply sim_seq; [by apply (sim_writer _ _ Hsim)|]. intros w w' Hw.
  intros t s v HR. by split_and!.
Qed.

Lemma simT_write_string w w' chunk :
  same_upload w w' → simT same_upload (write_string w chunk) (write_string w' chunk).
Proof.
  intros [Hs Hw] t x y HR Hf. simpl. split_and!; [done..|]. simpl. by rewrite Hs.
Qed.

Lemma simT_write_strings w w' chunks :
  same_upload w w' → simT same_upload (write_strings w chunks) (write_strings w' chunks).
Proof.
  revert w w'. induction chunks as [|chunk rest IH]; intros w w' Hw; [by apply simT_ret|].
  eapply simT_bind; [by apply simT_write_string|]. intros x y Hxy. by apply IH.
Qed.

(** The errors of [Close] are of the same kind. *)
Definition same_error (e e' : option error) : Prop :=
  match e, e' with
  | None, None => True
  | Some e, Some e' => ∀ target, Is e target = Is e' target
  | _, _ => False
  end.

Lemma simT_close_writer w w' :
  same_upload w w' → simT same_error (close_writer w) (close_writer w').
Proof.
  intros [Hs Hw] t x y HR Hf. specialize (Hw (sent w) t _ _ HR).
  unfold close_writer, bind, on, attempt. simpl. unfold bind, attempt. rewrite <- Hs.
  destruct (consumer w _ t _) as [r [t1 s1]], (consumer w' _ t _) as [r' [t2 v1]].
  destruct Hw as (-> & HR1 & Hr). by destruct r, r'.
Qed.

Local Ltac step_with r := eapply simT_bind; [apply r|]; cbn beta.
Local Ltac literal := eapply simT_bind; [apply simT_path|]; let p := fresh "p" in intros p ? (<- & ? & ?).

Lemma simT_capabilities : simT eq (test_capabilities fs) (test_capabilities fs').
Proof.
  unfold test_capabilities. generalize [CapabilityRead; CapabilityWrite; CapabilityStreamingWrite;
    CapabilityDelete; CapabilityList; CapabilityStat].
  intros l. induction l as [|k l IH]; [by apply simT_ret|]. simpl.
  step_with simT_supports. intros x ? <-.
  eapply (simT_bind eq); [|by intros]. destruct (negb x); [apply simT_Errorf|by apply simT_ret].
Qed.

Lemma simT_streams : simT eq (test_open_writer_streams fs fuel) (test_open_writer_streams fs' fuel).
Proof.
  unfold test_open_writer_streams. literal.
  eapply simT_bind; [by apply simT_must, sim_open_upload|]. intros w w' Hw.
  eapply simT_bind; [by apply simT_write_strings|]. clear w w' Hw. intros w w' Hw.
  eapply simT_bind; [by apply simT_close_writer|]. intros e e' He.
  eapply (simT_bind eq); [apply simT_require; by destruct e, e'|]. intros _ _ _.
  eapply simT_bind; [by apply simT_must, req_Open|]. intros st ? <-.
  step_with simT_read_and_close. intros x ? <-. by apply simT_require.
Qed.

Lemma simF_validates : simF (test_open_writer_validates fs) (test_open_writer_validates fs').
Proof.
  unfold test_open_writer_validates. eapply simF_bind; [apply simT_canceled|]. intros ctx ? <-.
  eapply simF_bind; [apply simT_path|]. intros p ? (<- & Hp & Hr).
  eapply simF_bind; [by eapply simT_must_fail, sim_open_upload|]. intros _ _ _ t x y HR Hf.
  destruct (sim_root _ _ Hsim no_options t (adapter_state x)) as (e & [t1 s1] & He & Hi).
  destruct (sim_root' _ _ Hsim no_options t (adapter_state y)) as (e' & [t2 s2] & He' & Hi').
  unfold must_fail, on, attempt, bind. simpl. unfold open_upload, bind. rewrite He, He'. simpl.
  by rewrite Hi, Hi'.
Qed.

Lemma simT_cancellation at_time :
  simT eq (test_open_writer_cancellation fs at_time) (test_open_writer_cancellation fs' at_time).
Proof.
  unfold test_open_writer_cancellation. literal.
  eapply simT_bind; [by apply simT_must, sim_open_upload|]. intros w w' Hw.
  eapply simT_bind; [by apply simT_write_string|]. clear w w' Hw. intros w w' Hw.
  step_with simT_cancel. intros _ _ _. eapply simT_bind; [by apply simT_close_writer|]. intros e e' He.
  apply simT_require. by destruct e, e'; simpl in He.
Qed.

Lemma simT_write_read_stat :
  simT eq (test_write_read_stat fs fuel) (test_write_read_stat fs' fuel).
Proof.
  unfold test_write_read_stat. literal. eapply simT_bind; [by apply simT_must, req_Write|]. intros m ? <-.
  eapply simT_bind; [by apply simT_require|]. intros _ _ _.
  eapply simT_bind; [by apply simT_must, req_Open|]. intros st ? <-.
  step_with simT_read_and_close. intros x ? <-. eapply simT_bind; [by apply simT_require|]. intros _ _ _.
  eapply simT_bind; [by apply simT_must, req_Stat|]. intros md ? <-.
  eapply simT_bind; [by apply simT_require|]. intros _ _ _. step_with simT_supports. intros k ? <-.
  by apply simT_require.
Qed.

Lemma simT_range_read : simT eq (test_range_read fs fuel) (test_range_read fs' fuel).
Proof.
  unfold test_range_read. literal. eapply simT_bind; [by apply simT_must, req_Write|]. intros m ? _.
  eapply simT_bind; [by apply simT_on, req_OpenRange|]. intros o o' Ho.
  step_with simT_supports. intros k ? <-. destruct (negb k).
  - apply simT_require. by destruct o, o'; simpl in Ho.
  - destruct o as [st|], o' as [st'|]; simpl in Ho; [subst|done|done|apply simT_Fatal].
    step_with simT_read_and_close. intros x ? <-. by apply simT_require.
Qed.

Local Abbreviation same_path := (λ p q : Path, p = q ∧ wf_path p ∧ p ≠ Root).

Lemma simT_copy source copyPath :
  wf_path source → source ≠ Root → wf_path copyPath → copyPath ≠ Root →
  simT same_path (test_copy fs source copyPath) (test_copy fs' source copyPath).
Proof.
  intros. unfold test_copy. step_with simT_supports. intros [] ? <-.
  - eapply simT_bind; [by apply simT_must, req_Copy|]. intros _ _ _. by apply simT_ret.
  - eapply simT_bind; [by eapply simT_must_fail, req_Copy|]. intros _ _ _. by apply simT_ret.
Qed.

Lemma simT_move listedPath movedPath :
  wf_path listedPath → listedPath ≠ Root → wf_path movedPath → movedPath ≠ Root →
  simT same_path (test_move fs listedPath movedPath) (test_move fs' listedPath movedPath).
Proof.
  intros. unfold test_move. step_with simT_supports. intros [] ? <-.
  - eapply simT_bind; [by apply simT_must, req_Move|]. intros _ _ _.
    eapply simT_bind; [by eapply simT_must_fail, req_Stat|]. intros _ _ _. by apply simT_ret.
  - eapply simT_bind; [by eapply simT_must_fail, req_Move|]. intros _ _ _. by apply simT_ret.
Qed.

Lemma simT_listed source listedPath :
  simT eq (test_listed fs fuel source listedPath) (test_listed fs' fuel source listedPath).
Proof.
  unfold test_listed. eapply simT_bind; [apply simT_must, (sim_listing _ _ Hsim); lia|]. intros i j Hij.
  specialize (Hij fuel). destruct (drain fuel i) as [[es i']|], (drain fuel j) as [[es' j']|]; try done.
  destruct Hij as (<- & He & Hc). rewrite He, Hc.
  eapply simT_bind; [by apply simT_require|]. intros _ _ _.
  eapply simT_bind; [by apply simT_require|]. intros _ _ _. by apply simT_require.
Qed.

Lemma simT_copy_move_list_delete :
  simT eq (test_copy_move_list_delete fs fuel) (test_copy_move_list_delete fs' fuel).
Proof.
  unfold test_copy_move_list_delete.
  eapply (simT_bind (λ x y, x = y ∧ wf_path x.2)).
  - unfold test_copy_move. do 3 literal. eapply simT_bind; [by apply simT_must, req_Write|]. intros m ? _.
    eapply simT_bind; [by apply simT_copy|]. intros q ? (<- & ? & ?).
    eapply simT_bind; [by apply simT_move|]. intros q' ? (<- & ? & ?). by apply simT_ret.
  - intros [source listedPath] ? [<- Hp]. simpl in Hp. step_with simT_listed. intros _ _ _.
    eapply simT_bind; [by apply simT_must, req_Delete|]. intros _ _ _. by eapply simT_must_fail, req_Open.
Qed.

Lemma simT_properties : simT eq (test_properties fs) (test_properties fs').
Proof.
  unfold test_properties. literal. eapply simT_bind; [by apply simT_must, req_Write|]. intros m ? _.
  eapply simT_bind; [|intros _ _ _; eapply simT_bind; [|intros _ _ _]].
  - unfold test_metadata. step_with simT_supports. intros [] ? <-;
      [by apply simT_must, req_SetMetadata|by eapply simT_must_fail, req_SetMetadata].
  - unfold test_visibility. step_with simT_supports. intros [] ? <-;
      [|by eapply simT_must_fail, req_Visibility].
    eapply simT_bind; [by apply simT_must, req_SetVisibility|]. intros _ _ _.
    eapply simT_bind; [by apply simT_must, req_Visibility|]. intros v ? <-. by apply simT_require.
  - unfold test_checksum. eapply simT_bind; [by apply simT_on, req_Checksum|]. intros o o' Ho.
    step_with simT_supports. intros k ? <-. destruct (negb k).
    + apply simT_require. by destruct o, o'; simpl in Ho.
    + destruct o as [st|], o' as [st'|]; simpl in Ho; [subst|done|done|apply simT_Fatal].
      by apply simT_require.
Qed.

(** The verdict on each subtest is the same. *)
Lemma passes_simulated p s v f g :
  (∀ at_time, simF (f at_time) (g at_time)) → Rel s v → passes v p g → passes s p f.
Proof. intros Hfg HR Hg t. rewrite (t_Run_sim _ (g (t + p)) s v t); [apply Hg|apply Hfg|done]. Qed.

Lemma subtests_alike :
  Forall2 (λ x y, ∀ at_time, simF (x.2 at_time) (y.2 at_time)) (subtests fs fuel) (subtests fs' fuel).
Proof.
  repeat apply Forall2_cons_2; try apply Forall2_nil_2; intros at_time; simpl;
    [eapply simF_of, simT_capabilities|eapply simF_of, simT_streams|apply simF_validates
    |eapply simF_of, simT_cancellation|eapply simF_of, simT_write_read_stat|eapply simF_of, simT_range_read
    |eapply simF_of, simT_copy_move_list_delete|eapply simF_of, simT_properties].
Qed.

Lemma subtests_simulated p s v :
  Rel s v → Forall (λ x, passes v p x.2) (subtests fs' fuel) → Forall (λ x, passes s p x.2) (subtests fs fuel).
Proof.
  intros HR Hv. pose proof subtests_alike as Hall. revert Hv.
  induction Hall as [|x y l l' Hxy _ IH]; [done|]. intros [Hy Hl]%Forall_cons.
  apply Forall_cons_2; [by eapply passes_simulated|auto].
Qed.
End simulation.
