(* ===== verification/ConformancePrefix.v ===== *)
(** * Conformance of a prefixed decorator

    A decorator with a prefix over a shared in-memory store simulates a plain
    adapter over a private store, listings included, so it passes the suite
    whatever else the shared store holds. *)

From S2P Require Import Prelude GoStrings Errors Effects Paths Capability Contracts Iterator Digest Memory MemoryList Decorator DecoratorPolicy DecoratedMemory Remote Interfaces Conformance ConformanceMemory ConformanceSim.

(** ** Order below a prefix *)

Lemma bytes_leb_app x a b : bytes_leb (x ++ a) (x ++ b) = bytes_leb a b.
Proof. induction x as [|c x IH]; [done|]. simpl. by rewrite Z.ltb_irrefl, Z.eqb_refl. Qed.

Lemma Sorted_Forall2 {A B} (R : A → A → Prop) (R' : B → B → Prop) (Q : A → B → Prop) l l' :
  (∀ x x' y y', Q x y → Q x' y' → R x x' → R' y y') →
  Forall2 Q l l' → Sorted R l → Sorted R' l'.
Proof.
  intros HQ Hl Hs. revert l' Hl. induction Hs as [|x l Hs IH Hd]; intros l' Hl.
  - apply Forall2_nil_inv_l in Hl as ->. constructor.
  - apply Forall2_cons_inv_l in Hl as (y & k & Hxy & Hk & ->). constructor; [by apply IH|].
    destruct Hk as [|x' y' l k Hx' _]; constructor. apply HdRel_inv in Hd. eauto.
Qed.

Section prefixed.
Context (P : Path) (HP : wf_path P).

(** *** Names at the prefix *)

(** The logical path a name would have. *)
Definition candidate (k : bytes) : Path :=
  ofSegments (drop (length (segments P)) (segments (mkPath k))).

Lemma at_prefix_segments p q : at_prefix P p q → wf_path q ∧ segments q = segments P ++ segments p.
Proof. intros [Hp Hi]. destruct (internal_ok P p HP Hp) as (q' & Hi' & Hw & Hs).
  rewrite Hi in Hi'. by injection Hi' as <-. Qed.

Lemma at_prefix_candidate p q : at_prefix P p q → candidate (value q) = p.
Proof.
  intros Hpq. destruct (at_prefix_segments p q Hpq) as [_ Hs]. unfold candidate.
  replace (mkPath (value q)) with q by by destruct q.
  rewrite Hs, drop_app_length. apply ofSegments_segments.
Qed.

Lemma name_cases k : (∃ p, at_prefix P p (mkPath k)) ∨ outside P k.
Proof.
  destruct (decide (wf_path (candidate k))) as [Hw|Hn].
  - destruct (internal_ok P (candidate k) HP Hw) as (q & Hi & _ & _).
    destruct (decide (value q = k)) as [<-|Hne].
    + left. exists (candidate (value q)). split; [done|]. by destruct q.
    + right. intros p q' Hpq ->. apply Hne. rewrite (at_prefix_candidate p q' Hpq) in Hi.
      destruct Hpq as [_ Hi']. rewrite Hi in Hi'. by injection Hi' as <-.
  - right. intros p q Hpq ->. apply Hn. rewrite (at_prefix_candidate p q Hpq). apply Hpq.
Qed.

Lemma at_prefix_of p : wf_path p → ∃ q, at_prefix P p q.
Proof. intros Hp. destruct (internal_ok P p HP Hp) as (q & ? & _). by exists q. Qed.

(** The shared store beside the private one it contains. *)
Record sandbox (d : Dec Memory.Adapter) (v : Memory.Adapter) : Prop := {
  sb_represents : represents P (inner d) v;
  sb_shared : wf_adapter (inner d);
  sb_private : wf_adapter v;
  sb_confined name o rest :
    objects (inner d) !! name = Some o → segments (mkPath name) = segments P ++ rest →
    ∃ p, at_prefix P p (mkPath name);
}.

Lemma sandbox_kept d d' v v' :
  sandbox d v → represents P (inner d') v' → frame P (inner d) (inner d') → wf_adapter v' → sandbox d' v'.
Proof.
  intros [Hr Ha Hv Hc] Hr' Hf Hv'. split; [done| |done|].
  - intros k o Hk. destruct (name_cases k) as [[p Hp]|Ho]; [|apply Ha; by rewrite <- Hf].
    assert (Ho : objects v' !! value p = Some o).
    { rewrite <- (proj2 Hr' p (mkPath k) Hp). done. }
    destruct (Hv' _ _ Ho) as (_ & Hne & Hvis). destruct (at_prefix_segments p _ Hp) as [Hw _].
    split_and!; [done| |done]. intros ->.
    assert (IsRoot (mkPath []) = false); [|done]. apply (at_prefix_root P HP p); [done|].
    intros ->. done.
  - intros name o rest Hk Hs. destruct (name_cases name) as [[p Hp]|Ho]; [by exists p|].
    apply (Hc name o rest); [by rewrite <- Hf|done].
Qed.

(** *** Requests *)

Context {R : MapRange} (checksums observer : bool).
Local Abbreviation dec := (decorate (prefixed_memory P checksums observer)).

Lemma answer_wf rq t v :
  suite_ok rq → wf_adapter v → wf_adapter (run_state (answer memory_backend rq) t v).
Proof.
  intros Hok Hv. pose proof (memory_reads_pure (R:=R)) as Hpure.
  assert (Hsame : ∀ {A} (m : M Memory.Adapter A) (f : A → reply),
    pure_state m → wf_adapter (run_state (let! x := m in ret (f x)) t v)).
  { intros A m f Hm. specialize (Hm t v). unfold run_state, bind, ret in *.
    destruct (m t v) as [[] [t' v']]; simpl in *; by subst. }
  assert (Hexec : ∀ o {A} (m : M Memory.Adapter A) (f : A → reply),
    op_ok o → run_state m t v = run_state (exec o) t v →
    wf_adapter (run_state (let! x := m in ret (f x)) t v)).
  { intros o A m f Ho He. pose proof (exec_wf o t v Ho Hv) as Hw. rewrite <- He in Hw.
    unfold run_state, bind, ret in *. by destruct (m t v) as [[] [t' v']]. }
  destruct rq; simpl in Hok |- *.
  - apply Hsame, (pure_Open _ Hpure).
  - apply Hsame, (pure_OpenRange _ Hpure).
  - apply (Hexec (OpWrite ctx path source options)); [done|].
    unfold run_state, exec, bind, ret. by destruct (Memory.Write _ _ _ _ t v) as [[] [? ?]].
  - done.
  - by apply (Hexec (OpDelete ctx path)).
  - apply Hsame, (pure_Stat _ Hpure).
  - apply (Hexec (OpCopy ctx source destination options)); [simpl; naive_solver|done].
  - apply (Hexec (OpMove ctx source destination options)); [simpl; naive_solver|done].
  - by apply (Hexec (OpSetMetadata ctx path metadata)).
  - apply Hsame, (pure_Checksum _ Hpure).
  - apply Hsame. apply pure_state_bind; [apply (pure_Stat _ Hpure)|done].
  - by apply (Hexec (OpSetVisibility ctx path visibility)).
Qed.

Lemma prefixed_request rq :
  suite_ok rq → sim sandbox eq (answer dec rq) (answer memory_backend rq).
Proof.
  intros Hok t d v HR.
  assert (Hc : client_ok rq) by (destruct rq; simpl in *; naive_solver).
  pose proof (sim_answer P HP checksums observer rq Hc t d v (sb_represents d v HR)) as Hs.
  pose proof (answer_wf rq t v Hok (sb_private d v HR)) as Hw. unfold run_state in Hw.
  destruct (answer dec rq t d) as [r [t1 d1]], (answer memory_backend rq t v) as [r' [t2 v2]].
  destruct Hs as (? & ? & ? & ?). split_and!; [done| |done]. by eapply sandbox_kept.
Qed.

Lemma prefixed_writer ctx p options :
  wf_path p → p ≠ Root →
  sim sandbox (λ w w', ∀ source, sim sandbox eq (w source) (w' source))
    (bOpenWriter dec ctx p options) (bOpenWriter memory_backend ctx p options).
Proof.
  intros Hp Hr t d v HR. destruct (at_prefix_of p Hp) as [q Hq].
  pose proof (sim_decorated_OpenWriter P HP checksums observer ctx p q options Hq Hr t d v
    (sb_represents d v HR)) as Hs.
  change (bOpenWriter dec ctx p options) with (Decorator.OpenWriter (prefixed_memory P checksums observer) ctx p options).
  change (bOpenWriter memory_backend ctx p options) with (Memory.OpenWriter ctx p options) in *.
  assert (Hw : ∀ w', run_result (Memory.OpenWriter ctx p options) t v = Ok w' →
    ∀ source t' v', wf_adapter v' → wf_adapter (run_state (w' source) t' v')).
  { intros w'. unfold run_result, Memory.OpenWriter, bind, check_ctx.
    destruct (ctx_Err ctx t); [done|]. destruct (IsRoot p); [done|]. intros [= <-] source t' v' Hv'.
    by apply (exec_wf (OpWrite ctx p source options)). }
  assert (Hv2 : (Memory.OpenWriter ctx p options t v).2.2 = v).
  { unfold Memory.OpenWriter, bind, check_ctx. destruct (ctx_Err ctx t); [done|]. by destruct (IsRoot p). }
  unfold run_result in Hw.
  destruct (Decorator.OpenWriter _ _ _ _ t d) as [r [t1 d1]], (Memory.OpenWriter _ _ _ t v) as [r' [t2 v2]].
  simpl in Hv2, Hw. subst v2. destruct Hs as (Ht & Hrep & Hf & Hres). split_and!; [done| |].
  { eapply sandbox_kept; [exact HR|done..|apply (sb_private _ _ HR)]. }
  destruct r as [w|e|msg], r' as [w'|e'|msg']; simpl in Hres |- *; try done.
  intros source t' d' v' HR'. specialize (Hres source t' d' v' (sb_represents _ _ HR')).
  specialize (Hw w' eq_refl source t' v' (sb_private _ _ HR')). unfold run_state in Hw.
  destruct (w source t' d') as [x [t3 d3]], (w' source t' v') as [x' [t4 v4]].
  destruct Hres as (? & ? & ? & ?). split_and!; [done| |done]. by eapply sandbox_kept.
Qed.

Lemma prefixed_rejects_root : rejects_root dec.
Proof.
  intros options t s. simpl. unfold Decorator.OpenWriter, observeCall. simpl.
  destruct observer; eexists _, _; (split; [reflexivity|done]).
Qed.

Lemma memory_rejects_root : rejects_root (memory_backend (R:=R)).
Proof. intros options t s. eexists _, _. split; [reflexivity|done]. Qed.

(** *** Listings *)

Lemma same_listing_stripped es es' cur has cur' cur2 has2 :
  Forall2 (stripped P) es es' →
  same_listing (Decorator.mkIterator (Iterator.mkIterator es cur has false) P cur' None)
    (Iterator.mkIterator es' cur2 has2 false).
Proof.
  intros Hs fuel. revert cur has cur' cur2 has2 es es' Hs. induction fuel as [|fuel IH];
    intros cur has cur' cur2 has2 es es' Hs; [done|].
  destruct Hs as [|e e' es es' [He Hpath] Hs]; [done|]. simpl. unfold Decorator.iterator_Next. simpl.
  unfold Iterator.iterator_Entry at 1 2. simpl. rewrite He, <- Hpath.
  specialize (IH e true e' e' true es es' Hs).
  destruct (drain fuel _) as [[x i]|], (drain fuel _) as [[y j]|]; try done.
  destruct IH as (<- & ? & ?). done.
Qed.

(** The value of a name at the prefix, up to a common first part. *)
Lemma at_prefix_le p p' q q' :
  at_prefix P p q → at_prefix P p' q' → p ≠ Root → p' ≠ Root →
  bytes_le (value q) (value q') → bytes_le (value p) (value p').
Proof.
  intros Hp Hp' Hr Hr'.
  assert (Hval : ∃ x, ∀ p q, at_prefix P p q → p ≠ Root → value q = x ++ value p).
  { destruct (decide (P = Root)) as [E|HPr].
    - exists []. intros p0 q0 [_ Hi] _. rewrite E in Hi. change (Ok p0 = Ok q0) in Hi. by simplify_eq.
    - exists (value P ++ [slash]). intros p0 q0 Hpq Hr0. destruct (at_prefix_segments p0 q0 Hpq) as [_ Hs].
      rewrite <- app_assoc. simpl. rewrite value_app by done. rewrite <- Hs.
      by rewrite <- (ofSegments_segments q0) at 1. }
  destruct Hval as [x Hx]. rewrite (Hx p q), (Hx p' q') by done.
  unfold bytes_le. by rewrite bytes_leb_app.
Qed.

(** What a recursive listing of the prefix shows is a file of the private store. *)
Lemma stripped_file d v q e e' :
  sandbox d v → segments q = segments P → listed (inner d) q true e → stripped P e e' →
  listed v Root true e' ∧ ePath e' ≠ Root ∧ at_prefix P (ePath e') (ePath e).
Proof.
  intros HR Hq He [Hpath ->]. inversion He as [name o child rest Ho Hb _|]; subst; [|done].
  unfold below in Hb. rewrite Hq in Hb.
  destruct (sb_confined d v HR name o (child :: rest) Ho Hb) as [p Hp].
  destruct (at_prefix_segments p _ Hp) as [_ Hs].
  assert (Hseg : segments p = child :: rest) by (rewrite Hs in Hb; by simplify_list_eq).
  simpl in Hpath. rewrite (externalPath_segments P p) in Hpath; [|done|apply Hp|done].
  injection Hpath as Hpp. simpl. rewrite <- Hpp.
  split_and!; [|by rewrite <- segments_nil, Hseg|done].
  replace p with (mkPath (value p)) at 1 by by destruct p.
  eapply listed_file; [|exact Hseg|by left].
  rewrite <- (proj2 (sb_represents d v HR) p _ Hp). done.
Qed.

(** Every file of the private store is shown. *)
Lemma private_file d v q e' :
  sandbox d v → segments q = segments P → listed v Root true e' →
  ∃ e, listed (inner d) q true e ∧ stripped P e e'.
Proof.
  intros HR Hq He. inversion He as [name o child rest Ho Hb _|]; subst; [|done].
  destruct (sb_private d v HR _ _ Ho) as (Hw & _). destruct (at_prefix_of _ Hw) as [[k] Hk].
  destruct (at_prefix_segments _ _ Hk) as [_ Hs].
  exists (mkEntry (mkPath k) EntryKindFile (len (content o)) (modified o)). split.
  - eapply listed_file; [|unfold below; rewrite Hs, Hq, Hb; done|by left].
    pose proof (proj2 (sb_represents d v HR) _ _ Hk) as Hrep. simpl in Hrep. by rewrite Hrep.
  - split; [|done]. simpl. by apply externalPath_segments.
Qed.

Lemma prefixed_entries d v q all all' :
  sandbox d v → segments q = segments P →
  Sorted (key_le (λ e, value (ePath e))) all → NoDup ((λ e, value (ePath e)) <$> all) →
  (∀ e, e ∈ all ↔ listed (inner d) q true e) →
  Sorted (key_le (λ e, value (ePath e))) all' → NoDup ((λ e, value (ePath e)) <$> all') →
  (∀ e, e ∈ all' ↔ listed v Root true e) → Forall2 (stripped P) all all'.
Proof.
  intros HR Hq Hs Hnd Hall Hs' Hnd' Hall'.
  set (Q e e' := stripped P e e' ∧ ePath e' ≠ Root ∧ at_prefix P (ePath e') (ePath e)).
  destruct (Forall_exists_Forall2 Q all) as [es Hes].
  { apply Forall_forall. intros e He%Hall.
    destruct (stripped_listed P Root q (inner d) true e HP wf_Root (sb_shared d v HR)) as (e' & Hst & _);
      [|by rewrite app_nil_r|done|].
    - intros name o rest Ho Hb. destruct (sb_confined d v HR name o rest Ho Hb) as [p Hp].
      destruct (at_prefix_segments p _ Hp) as [_ Hsp]. rewrite Hsp in Hb. simplify_list_eq. apply Hp.
    - exists e'. split; [done|]. by eapply stripped_file. }
  assert (Hstr : Forall2 (stripped P) all es) by (eapply Forall2_impl; [exact Hes|by intros ? ? []]).
  assert (Hmem : ∀ e', e' ∈ es ↔ listed v Root true e').
  { intros e'. split.
    - intros [i Hi]%list_elem_of_lookup. destruct (Forall2_lookup_r _ _ _ _ _ Hes Hi) as (e & He & Hst & _).
      eapply stripped_file; [done|done| |exact Hst]. apply Hall. by eapply list_elem_of_lookup_2.
    - intros He'. destruct (private_file d v q e' HR Hq He') as (e & He%Hall & [Hx Hx']).
      apply list_elem_of_lookup in He as [i Hi].
      destruct (Forall2_lookup_l _ _ _ _ _ Hstr Hi) as (e1 & He1 & [Hy Hy']).
      apply list_elem_of_lookup. exists i. rewrite He1, Hy', Hx'. do 2 f_equal. congruence. }
  replace all' with es; [done|].
  assert (Hndes : NoDup es).
  { apply NoDup_alt. intros i j x Hi Hj.
    destruct (Forall2_lookup_r _ _ _ _ _ Hes Hi) as (e & He & _ & _ & Hat).
    destruct (Forall2_lookup_r _ _ _ _ _ Hes Hj) as (e1 & He1 & _ & _ & Hat1).
    eapply (NoDup_lookup _ i j (value (ePath e)) Hnd); rewrite list_lookup_fmap; [by rewrite He|].
    rewrite He1. simpl. do 2 f_equal. destruct Hat as [_ Hat], Hat1 as [_ Hat1]. congruence. }
  symmetry. apply (sorted_perm_unique (λ e, value (ePath e))); [done| |done|].
  - apply NoDup_Permutation; [by eapply NoDup_fmap_1|done|]. intros x. by rewrite Hmem, Hall'.
  - eapply (Sorted_Forall2 _ _ Q); [|exact Hes|exact Hs].
    intros x x' y y' (_ & ? & ?) (_ & ? & ?). by eapply at_prefix_le.
Qed.

Lemma ListObjects_state directory options t a :
  (ListObjects Background directory options t a).2 = (t + 1, a).
Proof. unfold ListObjects, bind, check_ctx, get, lift_result, ret, throw. simpl. by repeat case_match. Qed.

Lemma prefixed_list limit :
  0 ≤ limit →
  sim sandbox same_listing (bList dec Background Root (mkListOptions true limit))
    (bList memory_backend Background Root (mkListOptions true limit)).
Proof.
  intros Hl t d v HR. destruct (at_prefix_of Root wf_Root) as [q Hq].
  destruct (at_prefix_segments Root q Hq) as [Hw Hs]. rewrite app_nil_r in Hs.
  destruct (ListObjects_total (inner d) q (mkListOptions true limit) t (sb_shared d v HR) Hw Hl
    ltac:(by left)) as (all & Hrun & Hso & Hnd & Hall).
  destruct (ListObjects_total v Root (mkListOptions true limit) t (sb_private d v HR) wf_Root Hl
    ltac:(by left)) as (all' & Hrun' & Hso' & Hnd' & Hall').
  pose proof (prefixed_entries d v q all all' HR Hs Hso Hnd Hall Hso' Hnd' Hall') as Hst.
  pose proof (ListObjects_state q (mkListOptions true limit) t (inner d)) as Hstate.
  pose proof (ListObjects_state Root (mkListOptions true limit) t v) as Hstate'.
  change (bList memory_backend Background Root (mkListOptions true limit)) with
    (ListObjects Background Root (mkListOptions true limit)).
  change (bList dec Background Root (mkListOptions true limit)) with
    (Decorator.ListEntries (prefixed_memory P checksums observer) Background Root (mkListOptions true limit)).
  unfold Decorator.ListEntries, observeCall, at_internal. simpl. rewrite (proj2 Hq).
  unfold run_result in *. unfold bind, lift_result, Decorator.call, ret.
  destruct (ListObjects Background q _ t (inner d)) as [r [t1 a1]].
  destruct (ListObjects Background Root _ t v) as [r' [t2 v2]]. simpl in *. simplify_eq.
  assert (Hkept : ∀ log, sandbox (mkDec (inner d) log) v).
  { intros log. eapply sandbox_kept; [exact HR|apply (sb_represents _ _ HR)|done|apply (sb_private _ _ HR)]. }
  assert (Hlim : Forall2 (stripped P) (limited limit all) (limited limit all')).
  { unfold limited. case_match; [done|by apply Forall2_take]. }
  destruct observer; simpl; (split_and!; [done|apply Hkept|by apply same_listing_stripped]).
Qed.

Lemma prefixed_capabilities :
  Decorator.Capabilities (prefixed_memory P checksums observer) = Memory.Capabilities.
Proof. destruct checksums; vm_compute; reflexivity. Qed.

Lemma prefixed_simulated : simulated sandbox dec memory_backend.
Proof.
  split; [|apply prefixed_request|apply prefixed_writer|apply prefixed_list|apply prefixed_rejects_root
    |apply memory_rejects_root].
  simpl. rewrite prefixed_capabilities. by vm_compute.
Qed.
End prefixed.

(** Nothing of the store is at the prefix or below it. *)
Definition unused (P : Path) (a : Memory.Adapter) : Prop :=
  ∀ name o rest, objects a !! name = Some o → segments (mkPath name) ≠ segments P ++ rest.

(** C5: A prefixed decorator conforms: over any well-formed in-memory store, whatever it
    holds outside the prefix, with or without decorator checksums and an observer, every
    subtest of [TestFilesystem] passes through a decorator with a parsed prefix nothing is
    stored under, for every map order, clock, starting time and moment of cancellation. *)
Theorem prefixed_memory_conforms {R : MapRange} P checksums observer d fuel patience t :
  wf_path P → wf_adapter (inner d) → unused P (inner d) → (3 ≤ fuel)%nat → 1 ≤ patience →
  TestFilesystem (backend_filesystem (decorate (prefixed_memory P checksums observer))) fuel patience d t = [].
Proof.
  intros HP Hd Hu Hf Hp. replace fuel with (3 + (fuel - 3))%nat by lia.
  apply run_subtests_pass. eapply (subtests_simulated (sandbox P)) with (v := Memory.mkAdapter ∅ (clock (inner d))).
  - by apply prefixed_simulated.
  - split; [split; [reflexivity|]|done| |].
    + intros p q Hpq. simpl. rewrite lookup_empty. apply eq_None_not_Some. intros [o Ho].
      destruct (at_prefix_segments P HP p q Hpq) as [_ Hs]. apply (Hu _ _ (segments p) Ho). by destruct q.
    + apply map_Forall_empty.
    + intros name o rest Ho Hs. by destruct (Hu name o rest Ho).
  - by apply memory_suite.
Qed.

(** A prefix beside another client's object. *)
Lemma shared_unused : unused (mkPath (bs "tenant/1")) shared.
Proof.
  intros name o rest Ho Hs. unfold shared in Ho. cbn [objects] in Ho. apply lookup_singleton_Some in Ho as [<- _]. by vm_compute in Hs.
Qed.

Lemma prefixed_memory_conforms_witness :
  TestFilesystem (backend_filesystem
    (decorate (prefixed_memory (R:=model_range) (mkPath (bs "tenant/1")) true true))) 3 1 (mkDec shared []) 5 = [].
Proof.
  apply (prefixed_memory_conforms (R:=model_range) (mkPath (bs "tenant/1")) true true (mkDec shared []) 3 1 5);
    [decide_now|decide_now|exact shared_unused|lia|lia].
Defined.
