(* ===== verification/S3Mem.v ===== *)
(** * A bucket in memory

    A service that meets [S3Service], with listings in pages, and the conformance
    suite run on the S3 adapter over it. *)

From S2P Require Import Prelude GoStrings Errors Effects Paths Capability Contracts Iterator Digest Decorator DecoratedMemory S3 S3Spec S3Store Remote Interfaces Conformance ConformanceMemory.

(** ** The service *)

Abbreviation buckets := (gmap (bytes * bytes) s3_object) (only parsing).

(** API errors, and [errors.As] with [ErrorCode] of one. *)
Definition no_such_key : error := Foreign 404 [].
Definition precondition_failed : error := Foreign 412 [].
Definition invalid_range : error := Foreign 416 [].

Definition api_code (e : error) : option bytes :=
  match e with
  | Foreign 404 _ => Some (bs "NoSuchKey")
  | Foreign 412 _ => Some (bs "PreconditionFailed")
  | Foreign 416 _ => Some (bs "InvalidRange")
  | _ => None
  end.

Definition m_find (name : bytes * bytes) : M buckets s3_object :=
  let! m := get in
  match m !! name with Some o => ret o | None => throw no_such_key end.

Definition m_GetObject (ctx : context) (b k : bytes) (range : option RangeHeader) : M buckets stream :=
  do! check_ctx ctx in
  let! o := m_find (b, k) in
  match range with
  | Some h => if len (s3_content o) <=? range_first h then throw invalid_range
              else ret (mkStream [(requested range (s3_content o), None)] None)
  | None => ret (mkStream [(s3_content o, None)] None)
  end.

Definition m_HeadObject (ctx : context) (b k : bytes) : M buckets HeadObjectOutput :=
  do! check_ctx ctx in
  let! o := m_find (b, k) in
  ret (mkHeadObjectOutput (Some (len (s3_content o))) (Some 0) (Some (ascii_of_Z 34 :: bs "etag"))
         (Some (default (bs "binary/octet-stream") (s3_type o))) (s3_metadata o)).

Definition m_DeleteObject (ctx : context) (b k : bytes) : M buckets unit :=
  do! check_ctx ctx in
  let! m := get in put (delete (b, k) m).

Definition m_CopyObject (ctx : context) (input : CopyObjectInput) : M buckets unit :=
  do! check_ctx ctx in
  match copy_source PathUnescape (cCopySource input) with
  | None => throw (Foreign 400 [])
  | Some source =>
      let! o := m_find source in
      let! m := get in put (<[(cBucket input, cKey input) := copied input o]> m)
  end.

Definition m_UploadObject (ctx : context) (input : UploadObjectInput) (options : list Z)
    : M buckets unit :=
  let! x := copy_ctx ctx (uBody input) in
  match x with
  | (_, Some err) => throw err
  | (content, None) =>
      let! m := get in
      if bool_decide (uIfNoneMatch input = Some (bs "*")) &&
         bool_decide (is_Some (m !! (uBucket input, uKey input))) then throw precondition_failed
      else put (<[(uBucket input, uKey input) := uploaded input content]> m)
  end.

(** *** Listings *)

(** One line of a listing: the name that orders it, and an object or a common prefix. *)
Definition listing_line (prefix : bytes) (delimiter : option bytes) (k : bytes) (o : s3_object)
    : bytes * option s3_object :=
  match delimiter with
  | None => (k, Some o)
  | Some _ =>
      match Cut (TrimPrefix k prefix) slash with
      | (first, _, true) => (prefix ++ first ++ [slash], None)
      | _ => (k, Some o)
      end
  end.

Fixpoint dedup (lines : list (bytes * option s3_object)) : list (bytes * option s3_object) :=
  match lines with
  | x :: (y :: _) as rest => if decide (x.1 = y.1) then dedup rest else x :: dedup rest
  | rest => rest
  end.

Definition listing_lines (input : ListObjectsV2Input) (m : buckets) : list (bytes * option s3_object) :=
  let prefix := default [] (lPrefix input) in
  let named := filter (λ x, x.1.1 = lBucket input ∧ HasPrefix x.1.2 prefix = true) (map_to_list m) in
  dedup (SortFunc fst ((λ x, listing_line prefix (lDelimiter input) x.1.2 x.2) <$> named)).

Fixpoint after_token (token : option bytes) (lines : list (bytes * option s3_object))
    : list (bytes * option s3_object) :=
  match token, lines with
  | None, _ => lines
  | _, [] => []
  | Some name, x :: rest => if decide (x.1 = name) then rest else after_token token rest
  end.

Definition m_ListObjectsV2 (ctx : context) (input : ListObjectsV2Input) : M buckets ListObjectsV2Output :=
  do! check_ctx ctx in
  let! m := get in
  let lines := after_token (lContinuationToken input) (listing_lines input m) in
  let page := take (Z.to_nat (lMaxKeys input)) lines in
  let more := bool_decide (length page < length lines)%nat in
  ret (mkListObjectsV2Output
         (omap (λ x, (λ o, mkListedObject (Some x.1) (Some (len (s3_content o))) (Some 0)) <$> x.2) page)
         (omap (λ x, match x.2 with None => Some (Some x.1) | Some _ => None end) page)
         (Some more) (if more : bool then fst <$> last page else None)).

Definition bucket_clients : Clients buckets :=
  mkClients m_GetObject m_HeadObject m_DeleteObject m_CopyObject m_ListObjectsV2 m_UploadObject
    (λ _ input, ret (pKey input)).

(** ** Its laws *)

(** A code that is not in a list of others. *)
Local Ltac other_code :=
  let H := fresh in
  intros H; repeat (apply elem_of_cons in H as [H|H]; [discriminate H|]); by apply elem_of_nil in H.

Lemma honest_ctx range o ctx t e : ctx_Err ctx t = Some e → honest api_code range o e.
Proof. intros He. destruct (ctx_Err_value _ _ _ He) as [[] ->]; by split_and!. Qed.

Lemma honest_missing range : honest api_code range None no_such_key.
Proof. split_and!; [done..|]. intros c [= <-]. split; [done|]. other_code. Qed.

#[export] Program Instance bucket_service : S3Service bucket_clients api_code := { store m := m; header_decode := PathUnescape }.
Next Obligation. by intros source. Qed.
Next Obligation.
  intros ctx b k range t m. simpl. unfold m_GetObject, m_find, bind, check_ctx, get.
  destruct (ctx_Err ctx t) eqn:He; [by split; [|eapply honest_ctx]|].
  destruct (m !! (b, k)) as [o|]; [|by split; [|apply honest_missing]]. simpl.
  destruct range as [h|].
  - destruct (len (s3_content o) <=? range_first h) eqn:Hle; simpl; (split; [done|]).
    + split_and!; [done..|]. intros c [= <-]. split; [other_code|].
      intros _. exists o. split; [done|]. simpl. lia.
    + exists o. split_and!; [done|lia|]. unfold delivers. simpl. by rewrite app_nil_r.
  - split; [done|]. exists o. split_and!; [done..|]. unfold delivers. simpl. by rewrite app_nil_r.
Qed.
Next Obligation.
  intros ctx b k t m. simpl. unfold m_HeadObject, m_find, bind, check_ctx, get.
  destruct (ctx_Err ctx t) eqn:He; [by split; [|eapply honest_ctx]|].
  destruct (m !! (b, k)) as [o|]; [|by split; [|apply honest_missing]]. simpl.
  split; [done|]. exists o. split_and!; [done..|]. by intros ty ->.
Qed.
Next Obligation.
  intros ctx b k t m. simpl. unfold m_DeleteObject, bind, check_ctx, get, put.
  destruct (ctx_Err ctx t); simpl; auto.
Qed.
Next Obligation.
  intros ctx input t m. simpl. unfold m_CopyObject, m_find, bind, check_ctx, get, put.
  destruct (ctx_Err ctx t) eqn:He; [by split; [left|intros; eapply honest_ctx]|].
  destruct (copy_source PathUnescape (cCopySource input)) as [source|] eqn:Hs; [|by split; [left|]].
  destruct (m !! source) as [o|] eqn:Ho; simpl.
  - by exists source, o.
  - split; [by left|]. intros ? [= <-]. rewrite Ho. apply honest_missing.
Qed.
Next Obligation.
  intros ctx input options t m. simpl. unfold m_UploadObject, bind.
  destruct (copy_ctx_result ctx (uBody input) t m) as (b & e & t' & -> & _ & Hread).
  destruct e as [e|]; [by left|]. destruct Hread as [Hread|[? ?]]; [|done].
  unfold get, put. destruct (_ && _) eqn:Hif; simpl; [by left|].
  exists b. split_and!; [done| |done]. intros Hn. rewrite bool_decide_eq_true_2 in Hif by done.
  apply bool_decide_eq_false in Hif. by apply eq_None_not_Some.
Qed.

(** ** The adapter over it *)

(** An adapter of the bucket [data] under the prefix [tenant]; [New] would not fail. *)
Definition tenant_adapter : option (S3.Adapter buckets) :=
  match S3.New (Some bucket_clients) (bs "data") [WithPrefix (bs "tenant"); WithMaxListEntries 2000] with
  | Ok a => Some a
  | _ => None
  end.

Definition sanitized_text (e : error) : bytes := bs "redacted".

(** [TestFilesystem] on it, in a bucket another client uses too. *)
Definition shared_bucket : buckets :=
  <[(bs "data", bs "other/source.txt") := mkS3Object (bs "theirs") None None]>
    {[(bs "backup", bs "tenant/range.txt") := mkS3Object (bs "old") None None]}.

Definition s3_suite : option (list String.string) :=
  (λ a, TestFilesystem (backend_filesystem (s3_backend a api_code sanitized_text 3)) 3 10 shared_bucket 0)
    <$> tenant_adapter.

Lemma s3_run : s3_suite = Some [].
Proof. vm_compute. reflexivity. Qed.

(** A copy of an object whose key needs escaping. *)
Definition demo_s3 : S3.Adapter buckets :=
  mkAdapter bucket_clients (mkConfig (bs "s3") (bs "data") (bs "tenant") 100 128 65536 []) (mkCapabilitySet [] ∅).

Definition odd_path : Path := mkPath (bs "a b/100%?x=1#c").

Definition demo_bucket : buckets :=
  {[(bs "data", bs "tenant/a b/100%?x=1#c") := mkS3Object (bs "content") (Some (bs "text/plain")) None]}.

Lemma s3_refines_witness :
  let copy := CrCopy Background odd_path (mkPath (bs "d")) (mkCopyOptions true) in
  let '(r, (_, s')) := answer (s3_backend demo_s3 api_code sanitized_text 1) copy 0 demo_bucket in
  is_ok r = true ∧
  s3_allows (plain_path demo_s3) copy (view_of demo_s3 api_code (S3Service0:=bucket_service) demo_bucket) r
    (view_of demo_s3 api_code (S3Service0:=bucket_service) s') ∧
  s' !! (bs "data", bs "tenant/d") = Some (mkS3Object (bs "content") (Some (bs "text/plain")) None).
Proof.
  intros copy.
  assert (Hb : slash ∉ bucket (settings demo_s3)) by decide_now.
  pose proof (s3_refines demo_s3 api_code sanitized_text (S3Service0:=bucket_service) 1 copy 0 demo_bucket Hb I) as H.
  assert (Hok : is_ok (run_result (answer (s3_backend demo_s3 api_code sanitized_text 1) copy) 0 demo_bucket) = true)
    by (vm_compute; reflexivity).
  assert (Hs : run_state (answer (s3_backend demo_s3 api_code sanitized_text 1) copy) 0 demo_bucket
    !! (bs "data", bs "tenant/d") = Some (mkS3Object (bs "content") (Some (bs "text/plain")) None))
    by (vm_compute; reflexivity).
  unfold run_result, run_state in Hok, Hs.
  destruct (answer (s3_backend demo_s3 api_code sanitized_text 1) copy 0 demo_bucket) as [r [t' s']].
  destruct H as [H _]. split; [exact Hok|split; [exact H|exact Hs]].
Defined.
