(* ===== verification/Walk.v ===== *)
(** * Bounded directory walks

    The listing loop of the SFTP and FTP packages: a queue of directories, the
    children of each sorted by name, links refused, one entry collected per child
    until the limit is reached, and the entries sorted at the end.  The packages
    differ in what they read a directory with and in the type of a child. *)

From S2P Require Import Prelude GoStrings Errors Effects Hoare Paths Contracts.

Section walk.
Context {X W : Type}.
(** What a child is called and whether it is a link or a directory, ... *)
Context (name : X → bytes) (link directory : X → bool) (size modified : X → Z) (denied : X → error).
(** ... and how the children of a directory are read. *)
Context (read_dir : Path → M W (list X)).

(** The loop over one directory's children: the queue and the entries so far, and
    whether the limit was reached. *)
Fixpoint collect (current : Path) (recursive : bool) (limit : Z) (children : list X)
    (queue : list Path) (entries : list Entry) : result (list Path * list Entry * bool) :=
  match children with
  | [] => Ok (queue, entries, false)
  | child :: rest =>
      if link child then Err (denied child)
      else
        result_bind (JoinPath current (name child)) (λ logicalPath,
          let kind := if directory child then EntryKindDirectory else EntryKindFile in
          let queue := if directory child && recursive then queue ++ [logicalPath] else queue in
          let entries := entries ++ [mkEntry logicalPath kind (size child) (modified child)] in
          if len entries >=? limit then Ok (queue, entries, true)
          else collect current recursive limit rest queue entries)
  end.

Definition sort_entries (entries : list Entry) : list Entry :=
  SortFunc (λ e, value (ePath e)) entries.

(** The loop over the queue; [fuel] bounds the directories read. *)
Fixpoint walk (fuel : nat) (recursive : bool) (limit : Z) (queue : list Path)
    (entries : list Entry) : M W (list Entry) :=
  match queue with
  | [] => ret (sort_entries entries)
  | current :: queue =>
      match fuel with
      | O => panic "out of fuel"
      | S fuel' =>
          let! children := read_dir current in
          let! x := lift_result
            (collect current recursive limit (SortFunc name children) queue entries) in
          let '(queue, entries, reached) := x in
          if reached : bool then ret (sort_entries entries)
          else walk fuel' recursive limit queue entries
      end
  end.
End walk.

Lemma keeps_walk {X W} name link directory size modified denied (read_dir : Path → M W (list X)) P
    fuel recursive limit queue entries :
  (∀ p, keeps True P (read_dir p)) →
  keeps True P (walk name link directory size modified denied read_dir fuel recursive limit queue
                  entries).
Proof.
  intros Hr. revert queue entries.
  induction fuel as [|fuel IH]; intros [|current queue] entries; simpl; keeps_split.
Qed.
#[export] Hint Resolve keeps_walk : keeps.

(** A computation that does not panic. *)
Definition returns {S A} (m : M S A) : Prop :=
  triple (λ _, True) m (λ r _, match r with Panic _ => False | _ => True end).

(** A path strictly below a directory. *)
Definition below (directory p : Path) : Prop :=
  wf_path p ∧ ∃ ext, ext ≠ [] ∧ segments p = segments directory ++ ext.

Lemma below_Join directory current name logicalPath :
  below directory current ∨ (wf_path directory ∧ current = directory) →
  JoinPath current name = Ok logicalPath → below directory logicalPath.
Proof.
  intros Hcur Hj.
  assert (Hwf : wf_path current) by (destruct Hcur as [[? _]|[? ->]]; done).
  pose proof (JoinPath_below current name Hwf) as H. rewrite Hj in H.
  destruct H as (? & ext & Hext & Hs). split; [done|].
  destruct Hcur as [(_ & e1 & ? & He1)|[_ ->]]; [|by eauto].
  exists (e1 ++ ext). rewrite Hs, He1, app_assoc. split; [by destruct e1|done].
Qed.

(** What a bounded listing of [dir] delivers. *)
Definition listed (dir : Path) (limit : Z) (r : result (list Entry)) : Prop :=
  match r with
  | Ok entries =>
      Sorted (key_le (λ e, value (ePath e))) entries ∧ len entries ≤ limit ∧
      Forall (λ e, below dir (ePath e)) entries
  | Err _ => True
  | Panic _ => False
  end.

Lemma listed_sorted dir limit entries :
  len entries ≤ limit → Forall (λ e, below dir (ePath e)) entries →
  listed dir limit (Ok (sort_entries entries)).
Proof.
  intros Hl Hf. split_and!; [apply SortFunc_sorted|..]; unfold sort_entries, len in *;
    by rewrite SortFunc_perm.
Qed.

Section listing.
Context {X W : Type}.
Context (name : X → bytes) (link directory : X → bool) (size modified : X → Z) (denied : X → error).
Context (read_dir : Path → M W (list X)) (dir : Path).
Hypothesis read_dir_returns : ∀ p, returns (read_dir p).

Local Abbreviation inside p := (below dir p ∨ (wf_path dir ∧ p = dir)).
Local Abbreviation collect := (collect name link directory size modified denied).
Local Abbreviation walk := (walk name link directory size modified denied read_dir).

(** What the loop over one directory adds, and that it never panics. *)
Lemma collect_spec current recursive limit children queue entries :
  inside current → len entries < limit →
  match collect current recursive limit children queue entries with
  | Ok (queue', entries', reached) => ∃ q es,
      queue' = queue ++ q ∧ entries' = entries ++ es ∧ (length q ≤ length es)%nat ∧
      Forall (λ p, below dir p) q ∧ Forall (λ e, below dir (ePath e)) es ∧
      len entries' ≤ limit ∧ (reached = false → len entries' < limit)
  | Err _ => True
  | Panic _ => False
  end.
Proof.
  intros Hcur. revert queue entries.
  induction children as [|child children IH]; intros queue entries Hlt; simpl.
  { exists [], []. rewrite !app_nil_r. repeat split; try constructor; lia. }
  destruct (link child); [done|]. unfold result_bind.
  assert (Hwf : wf_path current) by (destruct Hcur as [[? _]|[? ->]]; done).
  pose proof (JoinPath_below current (name child) Hwf) as Hnp.
  destruct (JoinPath current (name child)) as [lp|e|m] eqn:Hj; [clear Hnp|done..].
  pose proof (below_Join _ _ _ _ Hcur Hj) as Hlp.
  set (queue1 := if directory child && recursive then queue ++ [lp] else queue).
  set (entry := mkEntry lp _ _ _).
  assert (Hq1 : ∃ q, queue1 = queue ++ q ∧ (length q ≤ 1)%nat ∧ Forall (λ p, below dir p) q).
  { subst queue1. destruct (_ && _); [exists [lp]|exists []; rewrite app_nil_r]; (split; [done|]);
      (split; [simpl; lia|]); [by apply Forall_singleton|apply Forall_nil_2]. }
  destruct Hq1 as (q & -> & Hql & Hqb).
  destruct (len (entries ++ [entry]) >=? limit) eqn:Hlim.
  - exists q, [entry]. rewrite len_app in *. unfold len in *. simpl in *.
    split_and!; try done; [by apply Forall_singleton|lia].
  - specialize (IH (queue ++ q) (entries ++ [entry]) ltac:(lia)).
    destruct (collect _ _ _ _ _ _) as [[[queue' entries'] reached]|e|m]; [|done..].
    destruct IH as (q' & es & -> & -> & Hle & Hq' & Hes & Hlim' & Hr).
    exists (q ++ q'), (entry :: es). rewrite <- !app_assoc. cbn [app] in *.
    rewrite <- !app_assoc in *. rewrite length_app. simpl.
    split_and!; try done; [lia|by apply Forall_app|by apply Forall_cons].
Qed.

Lemma walk_spec fuel recursive limit queue entries :
  Forall (λ p, inside p) queue → Forall (λ e, below dir (ePath e)) entries →
  len entries < limit → len queue + (limit - len entries) ≤ Z.of_nat fuel →
  triple (λ _, True) (walk fuel recursive limit queue entries)
    (λ r _, listed dir limit r).
Proof.
  revert queue entries. induction fuel as [|fuel IH]; intros [|current queue] entries Hq He Hlt Hf;
    simpl; try (apply triple_ret; intros w _; apply listed_sorted; [lia|done]).
  { unfold len in *. simpl in *. lia. }
  apply Forall_cons in Hq as [Hcur Hq].
  apply (triple_bind _ (λ _ _, True)).
  { eapply triple_conseq; [apply read_dir_returns|done|]. by intros [] w. }
  intros children. apply (triple_bind _ (λ x _,
    collect current recursive limit (SortFunc name children) queue entries = Ok x)).
  { apply triple_lift. intros w _.
    pose proof (collect_spec current recursive limit (SortFunc name children) queue entries Hcur Hlt).
    by destruct (collect _ _ _ _ _ _). }
  intros [[queue' entries'] reached] t w Hx.
  pose proof (collect_spec current recursive limit (SortFunc name children) queue entries Hcur Hlt) as H.
  rewrite Hx in H. destruct H as (q & es & -> & -> & Hle & Hqb & Hes & Hlim & Hr).
  destruct reached.
  - apply listed_sorted; [done|by apply Forall_app].
  - apply IH; try done; [|by apply Forall_app|by apply Hr|].
    + apply Forall_app. split; [done|]. eapply Forall_impl; [exact Hqb|]. by left.
    + rewrite !len_app in *. unfold len in *. simpl in *. lia.
Qed.

(** Every directory queued is an entry collected, and fewer than [limit] entries
    are collected before the walk stops, so [limit + 1] directories suffice. *)
Lemma walk_bounded recursive limit t w :
  wf_path dir → 0 < limit →
  listed dir limit (run_result (walk (1 + Z.to_nat limit) recursive limit [dir] []) t w).
Proof.
  intros Hd Hl. apply (walk_spec (1 + Z.to_nat limit) recursive limit [dir] []); try done;
    [by apply Forall_singleton; right|unfold len; simpl; lia..].
Qed.
End listing.
