(* ===== verification/FileInfo.v ===== *)
(** * Files as [io/fs] and [os] describe them

    The SFTP and the local adapter both see a file through an [fs.FileInfo] and an
    open handle. *)

From S2P Require Import Prelude.

(** [fs.FileInfo]; [iMode] holds the bits of [fs.FileMode]. *)
Record FileInfo := mkFileInfo {
  iName : bytes;
  iSize : Z;
  iMode : Z;
  iModTime : Z;
}.

Definition ModeDir : Z := Z.shiftl 1 31.
Definition ModeSymlink : Z := Z.shiftl 1 27.
(** [ModeDir | ModeSymlink | ModeNamedPipe | ModeSocket | ModeDevice |
    ModeCharDevice | ModeIrregular]. *)
Definition ModeType : Z := Eval vm_compute in
  foldr (λ bit m, Z.lor (Z.shiftl 1 bit) m) 0 [31; 27; 25; 24; 26; 21; 19].

Definition FileInfo_Type (i : FileInfo) : Z := Z.land (iMode i) ModeType.
Definition FileInfo_IsDir (i : FileInfo) : bool := negb (Z.land (iMode i) ModeDir =? 0).

(** The identity of an open file. *)
Abbreviation handle := Z (only parsing).

(** [os.O_WRONLY|os.O_CREATE|os.O_EXCL] as the flags are named. *)
Inductive open_flag := O_WRONLY | O_CREATE | O_EXCL.
