(* ===== verification/Publish.v ===== *)
(** * Publication through a temporary file

    The SFTP and the local adapter write an object the same way: they create a
    temporary file exclusively, copy the source into it under the context, make it
    durable, close it, and give it the object's name.  What the steps up to the last
    do to the files and to the open handles is shown here once, from the laws of
    writing, closing and removing. *)

From S2P Require Import Prelude GoStrings Errors Effects Hoare Contracts FileInfo Remote RemoteNames.

(** The files after an attempt to publish: untouched; one temporary file more, where
    there was none; or the whole content under its name. *)
Definition untouched_or_left (temporary : bytes → Prop) (f f' : gmap bytes bytes) : Prop :=
  f' = f ∨ ∃ tmp c, temporary tmp ∧ f !! tmp = None ∧ f' = <[tmp := c]> f.

(** [whole] tells the complete contents of the source: for a reader given by its
    answers, what they amount to. *)
Definition reads (source : reader) (content : bytes) : Prop := ReadAll source = (content, None).

Definition published (target : bytes) (whole : bytes → Prop) (f f' : gmap bytes bytes) : Prop :=
  ∃ content, whole content ∧ f' = <[target := content]> f.

Lemma agree_off_untouched (temporary : bytes → Prop) (tmp : bytes) f f' :
  temporary tmp → f !! tmp = None → agree_off tmp f f' → untouched_or_left temporary f f'.
Proof.
  intros Ht Hn [->|[c ->]]%agree_off_left; [by left|right; eauto|done].
Qed.

Section publish.
Context {W : Type} (files_of : W → gmap bytes bytes) (handles_of : W → gmap handle (bytes * Z)).
(** The file of this name has no other name: writing it changes no other file. *)
Context (sole : bytes → W → Prop).
Context (write_to : handle → bytes → M W unit) (close_file : handle → M W unit)
  (remove_file : bytes → M W unit).

(** The files and the open handles, with the name and the offset of each. *)
Definition at_state (f : gmap bytes bytes) (h : gmap handle (bytes * Z)) (w : W) : Prop :=
  files_of w = f ∧ handles_of w = h.

Record file_laws : Prop := {
  (** a write at the end of a file appends; a failed one may have changed that file
      only *)
  write_law fd b n c f h :
    h !! fd = Some (n, len c) → f !! n = Some c →
    triple (λ w, at_state f h w ∧ sole n w) (write_to fd b)
      (λ r w, match r with
              | Ok _ => at_state (<[n := c ++ b]> f) (<[fd := (n, len (c ++ b))]> h) w ∧ sole n w
              | Err _ => agree_off n f (files_of w) ∧ ∃ off', handles_of w = <[fd := (n, off')]> h
              | Panic _ => False
              end);
  (** closing releases the handle whatever it returns *)
  close_law fd f h :
    triple (at_state f h) (close_file fd)
      (λ r w, at_state f (delete fd h) w ∧ match r with Panic _ => False | _ => True end);
  remove_law n f h :
    triple (at_state f h) (remove_file n)
      (λ r w, (files_of w = f ∨ files_of w = delete n f) ∧ handles_of w = h ∧
        match r with Panic _ => False | _ => True end);
}.
Hypothesis L : file_laws.

(** *** One attempt: the temporary file [tmp], open as [fd] *)

Context (f : gmap bytes bytes) (h : gmap handle (bytes * Z)) (tmp : bytes) (fd : handle).
Hypothesis tmp_free : f !! tmp = None.
Hypothesis fd_free : h !! fd = None.

(** [c] has been written so far. *)
Definition filled (c : bytes) (w : W) : Prop :=
  at_state (<[tmp := c]> f) (<[fd := (tmp, len c)]> h) w ∧ sole tmp w.

(** The temporary file holds something and is still open, *)
Definition opened (w : W) : Prop :=
  agree_off tmp f (files_of w) ∧ ∃ off, handles_of w = <[fd := (tmp, off)]> h.
(** or was closed. *)
Definition released (w : W) : Prop := agree_off tmp f (files_of w) ∧ handles_of w = h.

Lemma filled_opened c w : filled c w → opened w.
Proof. intros [[Hf Hh] _]. unfold opened. rewrite Hf, Hh. split; [apply agree_off_insert|by eexists]. Qed.

(** Handing a chunk to the file. *)
Lemma write_chunk c chunk :
  triple (filled c)
    (match chunk with [] => ret (inl tt) | _ => attempt (write_to fd chunk) end)
    (λ r w, match r with
            | Ok (inl _) => filled (c ++ chunk) w
            | Ok (inr _) => opened w
            | _ => False
            end).
Proof.
  destruct chunk as [|x chunk]; [rewrite app_nil_r; by apply triple_ret|].
  eapply triple_attempt.
  - apply (write_law L fd (x :: chunk) tmp c (<[tmp := c]> f) (<[fd := (tmp, len c)]> h));
      by rewrite lookup_insert_eq.
  - intros w. split_and!; [intros []|intros e|done].
    + intros [[Hf Hh] Hs]. rewrite insert_insert_eq in Hf. rewrite insert_insert_eq in Hh. done.
    + intros [Ha [off Hh]]. rewrite insert_insert_eq in Hh. split; [|by eexists].
      intros q Hq. rewrite Ha by done. by apply agree_off_insert.
Qed.

Lemma copy_filled ctx source fuel c :
  (length source < fuel)%nat →
  triple (filled c)
    (io_Copy fuel (λ b, write_to fd b) (context_Read ctx list_Read) source)
    (λ r w, match r with
            | Ok (None, _) => ∃ b, ReadAll source = (b, None) ∧ filled (c ++ b) w
            | Ok (Some _, _) => opened w
            | _ => False
            end).
Proof.
  revert source c. induction fuel as [|fuel IH]; intros source c Hf; [lia|]. cbn [io_Copy].
  apply (triple_bind _ (λ x w, filled c w ∧
    ((∃ ce, x = ([], Some (ctx_error_value ce), source)) ∨
     x = match source with [] => ([], Some (Sentinel EOF), []) | (b, e) :: r => (b, e, r) end))).
  { intros t w Hw. unfold run_result, run_state.
    destruct (context_list_Read ctx source (32 * 1024) t w) as (x & -> & Hx). by split. }
  intros [[chunk er] r']. apply triple_pure. intros Hx.
  apply (triple_bind _ (λ x w, match x with inl _ => filled (c ++ chunk) w | inr _ => opened w end)).
  { eapply triple_conseq; [apply write_chunk|done|]. by intros [[]| |] w. }
  intros [[]|ew]; [|by apply triple_ret].
  destruct Hx as [[ce [= -> -> ->]]|Hx].
  { destruct ce; apply triple_ret; intros w; apply filled_opened. }
  destruct source as [|[b e] r]; simplify_eq.
  { apply triple_ret. intros w Hw. by exists []. }
  cbn [ReadAll]. simpl in Hf. destruct e as [e|].
  - destruct e as [[]| | | | | |]; apply triple_ret; intros w Hw;
      first [by eapply filled_opened|by eexists].
  - eapply triple_conseq; [apply (IH r (c ++ b)); lia|done|].
    intros [[[e|] ?]| |] w; try done. intros (b' & -> & Hw). exists (b ++ b'). by rewrite app_assoc.
Qed.

Lemma close_opened :
  triple opened (close_file fd)
    (λ r w, released w ∧ match r with Panic _ => False | _ => True end).
Proof.
  intros t w [Ha [off Hh]].
  destruct (close_law L fd (files_of w) (<[fd := (tmp, off)]> h) t w) as [[Hf' Hh'] Hr]; [done|].
  rewrite delete_insert_id in Hh' by done. unfold released. by rewrite Hf'.
Qed.

Lemma close_filled c :
  triple (filled c) (close_file fd)
    (λ r w, at_state (<[tmp := c]> f) h w ∧ match r with Panic _ => False | _ => True end).
Proof.
  intros t w [Hw _]. destruct (close_law L fd _ _ t w Hw) as [[Hf' Hh'] Hr].
  rewrite delete_insert_id in Hh' by done. by repeat split.
Qed.

(** Closing again changes nothing. *)
Lemma close_released : keeps False released (close_file fd).
Proof.
  intros t w [Ha Hh]. destruct (close_law L fd (files_of w) h t w) as [[Hf' Hh'] Hr]; [done|].
  rewrite delete_id in Hh' by done. unfold released. by rewrite Hf'.
Qed.

Lemma remove_released : keeps False released (remove_file tmp).
Proof.
  intros t w [Ha Hh]. destruct (remove_law L tmp (files_of w) h t w) as (Hf' & Hh' & Hr); [done|].
  split; [|done]. split; [|done]. destruct Hf' as [->| ->]; [done|by apply agree_off_delete].
Qed.

(** The temporary file removed after a failure past its closing. *)
Lemma remove_then_fail {A : Type} err :
  triple released (do! ignored (remove_file tmp) in throw (A:=A) err)
    (λ r w, r = Err err ∧ released w).
Proof. eapply triple_after_ignored; [apply remove_released|by apply triple_throw]. Qed.

(** Closing, removing, then the error that caused it. *)
Lemma cleanup_released {A : Type} err :
  triple opened
    (do! (do! ignored (close_file fd) in ignored (remove_file tmp)) in throw (A:=A) err)
    (λ r w, r = Err err ∧ released w).
Proof.
  apply (triple_bind _ (λ _, released)); [|intros _; by apply triple_throw].
  eapply triple_after_ignored; [apply close_opened|].
  eapply triple_conseq; [apply triple_ignored, remove_released|done|]. by intros r w [-> ?].
Qed.

(** What an attempt leaves: no handle more than before, and the outcome of the files
    as [r] reports it. *)
Definition attempted {A : Type} (temporary : bytes → Prop) (target : bytes) (whole : bytes → Prop)
    (r : result A) (w : W) : Prop :=
  handles_of w = h ∧
  match r with
  | Ok _ => published target whole f (files_of w)
  | Err _ => untouched_or_left temporary f (files_of w) ∨ published target whole f (files_of w)
  | Panic _ => False
  end.

Lemma released_attempted {A : Type} (temporary : bytes → Prop) target whole (err : error) w :
  temporary tmp → released w → attempted (A:=A) temporary target whole (Err err) w.
Proof. intros Ht [Ha Hh]. split; [done|]. left. by eapply agree_off_untouched. Qed.

Lemma fail_attempted {A : Type} (temporary : bytes → Prop) target whole P (m : M W A) err :
  temporary tmp → triple P m (λ r w, r = Err err ∧ released w) →
  triple P m (attempted temporary target whole).
Proof.
  intros Ht Hm. eapply triple_conseq; [exact Hm|done|]. intros r w [-> Hw].
  by apply released_attempted.
Qed.
End publish.
