(* ===== verification/Sftp.v ===== *)
(** * The SFTP adapter: [sftp/sftp.go]

    The SSH and SFTP client libraries are not part of the repository: sessions,
    remote files and the transport that opens them are records of operations
    over a remote state.  Everything the adapter decides is defined here: root
    validation and the mapping of paths, the link checks, the session that is
    shared, replaced and closed, the temporary file a write goes through, the
    bounded walk of a listing and the classification of errors.

    The mutable fields of [Adapter] are a [world] beside the remote state
    ([Remote.v]); names and the listing loop are shared with the FTP package
    ([RemoteNames.v], [Walk.v]). *)

From S2P Require Import Prelude GoStrings Errors Effects Paths Capability Contracts Iterator Digest FileInfo Remote RemoteNames Walk.

(** ** Files and sessions *)

(** The identity of a session: its SFTP client and the SSH client below it. *)
Abbreviation session := (Z * Z)%type (only parsing).
Abbreviation sftp_world S := (world (Z * Z) S) (only parsing).

(** [type remoteFile interface]; [fRead] is one [Read] into a buffer of the
    given length. *)
Record remoteFile (S : Type) := mkRemoteFile {
  fRead : handle → Z → M S (bytes * option error);
  fWrite : handle → bytes → M S unit;
  fClose : handle → M S unit;
  fSeek : handle → Z → M S unit;
  fSync : handle → M S unit;
}.
Arguments fRead {_}.
Arguments fWrite {_}.
Arguments fClose {_}.
Arguments fSeek {_}.
Arguments fSync {_}.
Arguments mkRemoteFile {_}.

(** [type remoteSession interface]. *)
Record remoteSession (S : Type) := mkRemoteSession {
  rOpen : session → bytes → M S handle;
  rOpenFile : session → bytes → list open_flag → M S handle;
  rStat : session → bytes → M S FileInfo;
  rLstat : session → bytes → M S FileInfo;
  rReadDirContext : session → context → bytes → M S (list FileInfo);
  rRemove : session → bytes → M S unit;
  rMkdirAll : session → bytes → M S unit;
  rRename : session → bytes → bytes → M S unit;
  rPosixRename : session → bytes → bytes → M S unit;
  rHasExtension : session → bytes → M S bool;
  rClose : session → M S unit;
}.
Arguments rOpen {_}.
Arguments rOpenFile {_}.
Arguments rStat {_}.
Arguments rLstat {_}.
Arguments rReadDirContext {_}.
Arguments rRemove {_}.
Arguments rMkdirAll {_}.
Arguments rRename {_}.
Arguments rPosixRename {_}.
Arguments rHasExtension {_}.
Arguments rClose {_}.
Arguments mkRemoteSession {_}.

(** [type connector func(context.Context) (remoteSession, error)]. *)
Definition connector (S : Type) : Type := context → M S session.

Definition posixRenameExtension : bytes := bs "posix-rename@openssh.com".

(** [type Adapter struct]: the fields that never change; the others are the
    [world]. *)
Record Adapter (S : Type) := mkAdapter {
  files_api : remoteFile S;
  sessions_api : remoteSession S;
  connect : connector S;
  (** [io.ReadFull] of 16 bytes from the adapter's random source *)
  random16 : M S bytes;
  root : bytes;
  maxList : Z;
  atomicRename : bool;
  capabilities : CapabilitySet;
}.
Arguments files_api {_}.
Arguments sessions_api {_}.
Arguments connect {_}.
Arguments random16 {_}.
Arguments root {_}.
Arguments maxList {_}.
Arguments atomicRename {_}.
Arguments capabilities {_}.
Arguments mkAdapter {_}.

(** ** Configuration *)

Definition validateRoot (root : bytes) : result bytes := validate_root "sftp" root.

Definition defaultTimeout (timeout : Z) : Z :=
  if timeout =? 0 then 30 * 1000000000 else timeout.

Definition defaultMaxList (limit : Z) : Z := if limit =? 0 then 10000 else limit.

Definition effectiveListLimit (requested maximum : Z) : Z :=
  if requested =? 0 then maximum else Z.min requested maximum.

Definition validByteRange (byteRange : ByteRange) : bool :=
  if (Offset byteRange <? 0) || (Length byteRange <=? 0) then false
  else wrap64 (Length byteRange - 1) <=? wrap64 (MaxInt64 - Offset byteRange).

(** An [ssh.AuthMethod]: a nil interface, a nil function or pointer inside one,
    or a usable method. *)
Inductive AuthMethod := AuthNil | AuthNilFunc | AuthNilPointer | AuthSome (id : Z).

Definition isNilAuthMethod (method : AuthMethod) : bool :=
  match method with AuthSome _ => false | _ => true end.

Record Config := mkConfig {
  Address : bytes;
  User : bytes;
  Auth : list AuthMethod;
  HostKeyCallback : option Z;
  ConfigRoot : bytes;
  AllowUnsafeSubroot : bool;
  Timeout : Z;
  MaxListEntries : Z;
}.

(** What [ssh.NewClientConn] is given. *)
Record ClientConfig := mkClientConfig {
  sshUser : bytes;
  sshAuth : list AuthMethod;
  sshHostKeyCallback : option Z;
  sshTimeout : Z;
}.

(** The [net], [ssh] and [pkgsftp] calls of the connector.  Calls made while the
    cancellation callback is armed take the context: the callback closes the
    connection under them. *)
Record Transport (S : Type) := mkTransport {
  DialContext : context → Z → bytes → M S Z;
  NewClientConn : context → Z → bytes → ClientConfig → M S Z;
  NewClient : context → Z → M S Z;
  conn_Close : Z → M S unit;
  ssh_Close : Z → M S unit;
  sftp_Close : Z → M S unit;
}.
Arguments DialContext {_}.
Arguments NewClientConn {_}.
Arguments NewClient {_}.
Arguments conn_Close {_}.
Arguments ssh_Close {_}.
Arguments sftp_Close {_}.

Definition acquisitionError {S A} (ctx : context) (operation : String.string) (err : error)
    : M S A :=
  let! contextErr := poll ctx in
  match contextErr with
  | Some e => throw e
  | None => throw (Errorf "%s: %w" [err] [FStr (bs operation)])
  end.

(** The closure [dial] of [Open]. *)
Definition dial {S} (T : Transport S) (address : bytes) (c : ClientConfig) : connector S := λ ctx,
  let! connection := attempt (DialContext T ctx (sshTimeout c) address) in
  match connection with
  | inr err => throw (Errorf "sftp: dial SSH server: %w" [err] [])
  | inl connection =>
      let! client := attempt (NewClientConn T ctx connection address c) in
      match client with
      | inr err =>
          do! ignored (conn_Close T connection) in
          acquisitionError ctx "sftp: establish SSH connection" err
      | inl sshClient =>
          let! sftpClient := attempt (NewClient T ctx sshClient) in
          match sftpClient with
          | inr err =>
              do! ignored (ssh_Close T sshClient) in
              acquisitionError ctx "sftp: start subsystem" err
          | inl sftpClient => ret (sftpClient, sshClient)
          end
      end
  end.

(** [realSession.Close]. *)
Definition realSession_Close {S} (T : Transport S) (s : session) : M S unit :=
  let! sftpErr := attempt (sftp_Close T s.1) in
  let! sshErr := attempt (ssh_Close T s.2) in
  let sftpErr := match sftpErr with inl _ => None | inr e => Some e end in
  let sshErr := match sshErr with
                | inl _ => None
                | inr e => if Is e NetErrClosed then None else Some e
                end in
  match Join2 sftpErr sshErr with None => ret tt | Some e => throw e end.

(** The methods of [*pkgsftp.Client] that [realSession] calls, by client;
    [HasExtension] looks into what the server announced when the client started. *)
Record sftpClient (S : Type) := mkSftpClient {
  cOpen : Z → bytes → M S handle;
  cOpenFile : Z → bytes → list open_flag → M S handle;
  cStat : Z → bytes → M S FileInfo;
  cLstat : Z → bytes → M S FileInfo;
  cReadDirContext : Z → context → bytes → M S (list FileInfo);
  cRemove : Z → bytes → M S unit;
  cMkdirAll : Z → bytes → M S unit;
  cRename : Z → bytes → bytes → M S unit;
  cPosixRename : Z → bytes → bytes → M S unit;
  cHasExtension : Z → bytes → S → bool;
}.
Arguments cOpen {_}.
Arguments cOpenFile {_}.
Arguments cStat {_}.
Arguments cLstat {_}.
Arguments cReadDirContext {_}.
Arguments cRemove {_}.
Arguments cMkdirAll {_}.
Arguments cRename {_}.
Arguments cPosixRename {_}.
Arguments cHasExtension {_}.
Arguments mkSftpClient {_}.

(** [*realSession] as a [remoteSession]. *)
Definition realSession {S} (T : Transport S) (C : sftpClient S) : remoteSession S := {|
  rOpen s := cOpen C s.1;
  rOpenFile s := cOpenFile C s.1;
  rStat s := cStat C s.1;
  rLstat s := cLstat C s.1;
  rReadDirContext s := cReadDirContext C s.1;
  rRemove s := cRemove C s.1;
  rMkdirAll s := cMkdirAll C s.1;
  rRename s := cRename C s.1;
  rPosixRename s := cPosixRename C s.1;
  rHasExtension s n := let! st := get in ret (cHasExtension C s.1 n st);
  rClose := realSession_Close T;
|}.

(** ** Construction *)

Definition base_capabilities : list Capability :=
  [CapabilityRead; CapabilityWrite; CapabilityStreamingWrite; CapabilityDelete; CapabilityList;
   CapabilityStat; CapabilityCopy; CapabilityRangeRead; CapabilityChecksum].

(** [newAdapter]; the result carries the session the adapter starts with.  A nil
    context or connector is [None]. *)
Definition newAdapter {S} (F : remoteFile S) (R : remoteSession S) (rnd : M S bytes)
    (ctx : option context) (dial : option (connector S)) (root : bytes) (maxList : Z)
    : M S (Adapter S * session) :=
  match ctx, dial with
  | None, _ => throw (Sentinel ErrContextRequired)
  | Some _, None => throw (NewError "sftp: connector is required")
  | Some ctx, Some dial =>
      let! root := lift_result (validateRoot root) in
      if maxList <=? 0 then throw (NewError "sftp: maximum list entries must be positive")
      else
        do! check_ctx ctx in
        let! session := dial ctx in
        let! err := poll ctx in
        match err with
        | Some err => do! ignored (rClose R session) in throw err
        | None =>
            let! atomicRename := rHasExtension R session posixRenameExtension in
            let! set := lift_result (NewCapabilitySet
              (base_capabilities ++ (if atomicRename : bool then [CapabilityMove] else []))) in
            ret (mkAdapter F R dial rnd root maxList atomicRename set, session)
        end
  end.

(** [Open]: the validation of the configuration, then [newAdapter]. *)
Definition OpenAdapter {S} (T : Transport S) (C : sftpClient S) (F : remoteFile S)
    (rnd : M S bytes) (ctx : option context) (configuration : Config)
    : M S (Adapter S * session) :=
  match ctx with
  | None => throw (Sentinel ErrContextRequired)
  | Some ctx =>
      do! check_ctx ctx in
      if blank (Address configuration) then throw (NewError "sftp: address is required")
      else if blank (User configuration) then throw (NewError "sftp: user is required")
      else if len (Auth configuration) =? 0 then
        throw (NewError "sftp: at least one authentication method is required")
      else if existsb isNilAuthMethod (Auth configuration) then
        throw (NewError "sftp: authentication methods must not be nil")
      else if bool_decide (HostKeyCallback configuration = None) then
        throw (NewError "sftp: host-key callback is required")
      else
        let! root := lift_result (validateRoot (ConfigRoot configuration)) in
        if bool_decide (root ≠ [slash]) && negb (AllowUnsafeSubroot configuration) then
          throw (NewError "sftp: subroot requires explicit unsafe opt-in and server-side isolation")
        else if Timeout configuration <? 0 then
          throw (NewError "sftp: timeout must not be negative")
        else if MaxListEntries configuration <? 0 then
          throw (NewError "sftp: maximum list entries must be positive")
        else
          let timeout := defaultTimeout (Timeout configuration) in
          let maxList := defaultMaxList (MaxListEntries configuration) in
          do! check_ctx ctx in
          newAdapter F (realSession T C) rnd (Some ctx)
            (Some (dial T (Address configuration)
                     (mkClientConfig (User configuration) (Auth configuration)
                        (HostKeyCallback configuration) timeout)))
            root maxList
  end.

(** ** Streams *)

(** [type contextReadCloser struct]: [closedWith] is [closeErr] once [closeOnce]
    has run. *)
Record contextReadCloser := mkContextReadCloser {
  stream_ctx : context;
  stream_file : handle;
  closedWith : option (option error);
}.

Definition newContextReadCloser (ctx : context) (file : handle) : contextReadCloser :=
  mkContextReadCloser ctx file None.

Section stream.
Context {S : Type} (F : remoteFile S).

Definition stream_Read : read_fn (sftp_world S) contextReadCloser := λ r n,
  let! done := poll (stream_ctx r) in
  match done with
  | Some err => ret ([], Some err, r)
  | None =>
      let! x := call (fRead F (stream_file r) n) in
      ret (x.1, x.2, r)
  end.

(** [Close]: the error of the first call, which alone closes the file. *)
Definition stream_Close (r : contextReadCloser)
    : M (sftp_world S) (option error * contextReadCloser) :=
  match closedWith r with
  | Some closeErr => ret (closeErr, r)
  | None =>
      let! x := attempt (call (fClose F (stream_file r))) in
      let closeErr := match x with inl _ => None | inr e => Some e end in
      ret (closeErr, mkContextReadCloser (stream_ctx r) (stream_file r) (Some closeErr))
  end.

(** The goroutine of [newContextReadCloser], when it is scheduled: it closes the
    stream once the context is done. *)
Definition stream_watch (r : contextReadCloser) : M (sftp_world S) contextReadCloser :=
  let! done := poll (stream_ctx r) in
  match done with
  | Some _ => let! x := stream_Close r in ret x.2
  | None => ret r
  end.

(** [limitedReadCloser]: [io.LimitReader] over the stream, by the bytes left. *)
Definition limited_Read : read_fn (sftp_world S) (contextReadCloser * Z) := λ r n,
  if r.2 <=? 0 then ret ([], Some (Sentinel EOF), r)
  else
    let! x := stream_Read r.1 (Z.min n r.2) in
    let '(chunk, err, stream) := x in
    ret (chunk, err, (stream, wrap64 (r.2 - len chunk))).

Definition limited_Close (r : contextReadCloser * Z)
    : M (sftp_world S) (option error * (contextReadCloser * Z)) :=
  let! x := stream_Close r.1 in ret (x.1, (x.2, r.2)).
End stream.

(** ** Operations *)

Section adapter.
(** [AsOpError] is [errors.As] to a [*net.OpError]; [AsUnsupportedStatus] is
    [errors.As] to a [*pkgsftp.StatusError] whose code is
    [ErrSSHFxOpUnsupported]. *)
Context {S : Type} (a : Adapter S) (AsOpError AsUnsupportedStatus : error → bool).

Local Abbreviation F := (files_api a) (only parsing).
Local Abbreviation R := (sessions_api a) (only parsing).

Definition isConnectionError (err : error) : bool :=
  if Is err ErrSSHFxConnectionLost || Is err ErrSSHFxNoConnection || Is err EOF || Is err NetErrClosed
  then true else AsOpError err.

Definition isNotFound (err : error) : bool :=
  Is err FsErrNotExist || Is err ErrSSHFxNoSuchFile.

Definition isOperationUnsupported (err : error) : bool :=
  if Is err ErrSSHFxOpUnsupported then true else AsUnsupportedStatus err.

Definition mapError (logicalPath : Path) (err : error) : error :=
  if isNotFound err then Errorf "%w: %s" [Sentinel ErrNotFound] [FStr (value logicalPath)] else err.

(** [m], with a failure mapped. *)
Definition mapped {W A} (logicalPath : Path) (m : M W A) : M W A :=
  let! r := attempt m in
  match r with inl x => ret x | inr err => throw (mapError logicalPath err) end.

(** *** The shared session *)

Definition Close : M (sftp_world S) unit := close_adapter (rClose R).

Definition currentSession (ctx : context) : M (sftp_world S) session :=
  current_or_dial (connect a) ctx.

Definition invalidate (failed : session) : M (sftp_world S) unit := drop_session (rClose R) failed.

Definition withSession {T} (ctx : context) (retry : bool)
    (operation : session → M (sftp_world S) T) : M (sftp_world S) T :=
  reconnecting (connect a) (rClose R) isConnectionError ctx retry operation.

(** *** Names *)

Definition remotePath (logicalPath : Path) : bytes := remote_name (root a) logicalPath.

(** The names [rejectSymlinks] examines. *)
Definition link_candidates (logicalPath : Path) (includeFinal : bool) : list bytes :=
  link_names (root a) logicalPath includeFinal.

Fixpoint reject_loop (session : session) (candidates : list bytes) : M (sftp_world S) unit :=
  match candidates with
  | [] => ret tt
  | candidate :: rest =>
      let! info := attempt (call (rLstat R session candidate)) in
      match info with
      | inr err => if isNotFound err then ret tt else throw err
      | inl info =>
          if FileInfo_Type info =? ModeSymlink then
            throw (Errorf "sftp: symbolic link %q is denied" [] [FStr candidate])
          else reject_loop session rest
      end
  end.

Definition rejectSymlinks (session : session) (logicalPath : Path) (includeFinal : bool)
    : M (sftp_world S) unit :=
  reject_loop session (link_candidates logicalPath includeFinal).

Definition temporaryPath (directory : bytes) : M (sftp_world S) bytes :=
  let! random := attempt (call (random16 a)) in
  match random with
  | inr err => throw (Errorf "sftp: generate temporary path: %w" [err] [])
  | inl random =>
      ret (temporary_name directory random)
  end.

(** *** Reading *)

Definition Open (ctx : context) (logicalPath : Path) : M (sftp_world S) contextReadCloser :=
  let! file := mapped logicalPath (withSession ctx true (λ session,
    do! rejectSymlinks session logicalPath true in
    call (rOpen R session (remotePath logicalPath)))) in
  ret (newContextReadCloser ctx file).

Definition OpenRange (ctx : context) (logicalPath : Path) (byteRange : ByteRange)
    : M (sftp_world S) (contextReadCloser * Z) :=
  if negb (validByteRange byteRange) then
    throw (Errorf "%w: offset=%d length=%d" [Sentinel ErrInvalidRange]
             [FInt (Offset byteRange); FInt (Length byteRange)])
  else
    let! file := mapped logicalPath (withSession ctx true (λ session,
      do! rejectSymlinks session logicalPath true in
      let! opened := call (rOpen R session (remotePath logicalPath)) in
      let! sought := attempt (call (fSeek F opened (Offset byteRange))) in
      match sought with
      | inr err => do! ignored (call (fClose F opened)) in throw err
      | inl _ => ret opened
      end)) in
    ret (newContextReadCloser ctx file, Length byteRange).

Definition Stat (ctx : context) (logicalPath : Path) : M (sftp_world S) Metadata :=
  let! info := mapped logicalPath (withSession ctx true (λ session,
    do! rejectSymlinks session logicalPath true in
    call (rStat R session (remotePath logicalPath)))) in
  let kind := if FileInfo_IsDir info then EntryKindDirectory else EntryKindFile in
  ret (mkMetadata logicalPath kind (iSize info) (iModTime info) [] [] None []).

(** *** Writing *)

(** From the temporary file on: fill it, make it durable, publish it. *)
Definition write_file {Src} (fuel : nat) (Read : read_fn (sftp_world S) Src) (ctx : context)
    (session : session) (logicalPath : Path) (remotePath temporary : bytes) (file : handle)
    (source : Src) : M (sftp_world S) unit :=
  let cleanup :=
    do! ignored (call (fClose F file)) in ignored (call (rRemove R session temporary)) in
  let! copied := io_Copy fuel (λ b, call (fWrite F file b)) (context_Read ctx Read) source in
  match copied.1 with
  | Some err => do! cleanup in throw err
  | None =>
      let! err := poll ctx in
      match err with
      | Some err => do! cleanup in throw err
      | None =>
          let! synced := attempt (call (fSync F file)) in
          let sync_err := match synced with
                          | inl _ => None
                          | inr err => if isOperationUnsupported err then None else Some err
                          end in
          match sync_err with
          | Some err => do! cleanup in throw err
          | None =>
              let! closed := attempt (call (fClose F file)) in
              match closed with
              | inr err => do! ignored (call (rRemove R session temporary)) in throw err
              | inl _ =>
                  let! renamed := attempt (call
                    ((if atomicRename a then rPosixRename R else rRename R)
                       session temporary remotePath)) in
                  match renamed with
                  | inr err =>
                      do! ignored (call (rRemove R session temporary)) in
                      throw (mapError logicalPath err)
                  | inl _ => ret tt
                  end
              end
          end
      end
  end.

(** [Write]; [fuel] bounds the reads of the source. *)
Definition Write {Src} (fuel : nat) (Read : read_fn (sftp_world S) Src) (ctx : context)
    (logicalPath : Path) (source : Src) (options : WriteOptions) : M (sftp_world S) Metadata :=
  if IsRoot logicalPath then
    throw (Errorf "%w: object path is root" [Sentinel ErrInvalidPath] [])
  else if wIfNoneMatch options then
    throw (Unsupported (bs "sftp") CapabilityWrite OperationWrite)
  else
    let! session := currentSession ctx in
    do! mapped logicalPath (rejectSymlinks session logicalPath false) in
    let target := remotePath logicalPath in
    let! existing := attempt (call (rStat R session target)) in
    do! match existing with
        | inl _ =>
            if negb (atomicRename a) then
              throw (Unsupported (bs "sftp") CapabilityWrite OperationWrite)
            else ret tt
        | inr err => if negb (isNotFound err) then throw (mapError logicalPath err) else ret tt
        end in
    do! mapped logicalPath (call (rMkdirAll R session (path_Dir target))) in
    let! temporary := temporaryPath (path_Dir target) in
    let! file := mapped logicalPath
      (call (rOpenFile R session temporary [O_WRONLY; O_CREATE; O_EXCL])) in
    do! write_file fuel Read ctx session logicalPath target temporary file source in
    Stat ctx logicalPath.

(** [OpenWriter]: the writer's consumer is [Write] on what the producer sends. *)
Definition OpenWriter (ctx : context) (logicalPath : Path) (options : WriteOptions)
    : M (sftp_world S) (writer (sftp_world S)) :=
  do! check_ctx ctx in
  if IsRoot logicalPath then
    throw (Errorf "%w: object path is root" [Sentinel ErrInvalidPath] [])
  else
    ret (λ source,
      do! Write (1 + length source) list_Read ctx logicalPath source options in ret tt).

Definition Delete (ctx : context) (logicalPath : Path) : M (sftp_world S) unit :=
  let! session := currentSession ctx in
  do! mapped logicalPath (rejectSymlinks session logicalPath true) in
  mapped logicalPath (call (rRemove R session (remotePath logicalPath))).

(** [Copy]: the deferred [Close] runs on every path out of the upload. *)
Definition Copy (fuel : nat) (ctx : context) (source destination : Path) (options : CopyOptions)
    : M (sftp_world S) unit :=
  if negb (cOverwrite options) then throw (Unsupported (bs "sftp") CapabilityCopy OperationCopy)
  else
    let! stream := Open ctx source in
    let! written := attempt (Write fuel (stream_Read F) ctx destination stream
                               (mkWriteOptions [] None [] false)) in
    do! stream_Close F stream in
    match written with inl _ => ret tt | inr err => throw err end.

Definition Move (ctx : context) (source destination : Path) (options : MoveOptions)
    : M (sftp_world S) unit :=
  if negb (atomicRename a) || negb (mOverwrite options) then
    throw (Unsupported (bs "sftp") CapabilityMove OperationMove)
  else
    let! session := currentSession ctx in
    do! mapped source (rejectSymlinks session source true) in
    do! mapped destination (rejectSymlinks session destination false) in
    do! call (rMkdirAll R session (path_Dir (remotePath destination))) in
    mapped source (call (rPosixRename R session (remotePath source) (remotePath destination))).

(** *** Listing *)

(** A symbolic link among a directory's entries, and its error. *)
Definition info_is_link (info : FileInfo) : bool := FileInfo_Type info =? ModeSymlink.
Definition info_denied (info : FileInfo) : error :=
  Errorf "sftp: symbolic link %q is denied" [] [FStr (iName info)].

Definition list_queue (fuel : nat) (ctx : context) (session : session) (recursive : bool)
    (limit : Z) (queue : list Path) (entries : list Entry) : M (sftp_world S) (list Entry) :=
  walk iName info_is_link FileInfo_IsDir iSize iModTime info_denied
    (λ current, call (rReadDirContext R session ctx (remotePath current)))
    fuel recursive limit queue entries.

(** [list].  Every directory queued is an entry collected, and fewer than
    [limit] entries are collected before the walk stops. *)
Definition list_entries (ctx : context) (session : session) (directory : Path) (recursive : bool)
    (limit : Z) : M (sftp_world S) (list Entry) :=
  do! (if negb (IsRoot directory) then rejectSymlinks session directory true else ret tt) in
  list_queue (1 + Z.to_nat limit) ctx session recursive limit [directory] [].

Definition ListEntries (ctx : context) (directory : Path) (options : ListOptions)
    : M (sftp_world S) iterator :=
  if Limit options <? 0 then throw (NewError "sftp: list limit must not be negative")
  else
    let limit := effectiveListLimit (Limit options) (maxList a) in
    let! entries := mapped directory (withSession ctx true (λ session,
      list_entries ctx session directory (Recursive options) limit)) in
    ret (newIterator entries).

(** *** Checksums *)

(** A reader that remembers what it delivered: what a digest was fed. *)
Definition hashing_Read {W Src} (Read : read_fn W Src) : read_fn W (Src * bytes) := λ r n,
  let! x := Read r.1 n in
  let '(chunk, err, r') := x in
  ret (chunk, err, (r', r.2 ++ chunk)).

Definition digest (algorithm : ChecksumAlgorithm) : option (bytes → bytes) :=
  if decide (algorithm = ChecksumMD5) then Some (λ b, EncodeToString (md5_Sum b))
  else if decide (algorithm = ChecksumSHA256) then Some (λ b, EncodeToString (sha256_Sum256 b))
  else if decide (algorithm = ChecksumCRC32C) then Some (λ b, Sprintf08x (crc32_Checksum b))
  else None.

Definition ChecksumOf (fuel : nat) (ctx : context) (logicalPath : Path)
    (algorithm : ChecksumAlgorithm) : M (sftp_world S) Checksum :=
  let! stream := Open ctx logicalPath in
  let! value := attempt
    match digest algorithm with
    | None => throw (Unsupported (bs "sftp") CapabilityChecksum OperationChecksum)
    | Some sum =>
        let! copied := io_Copy fuel (λ _, ret tt) (hashing_Read (stream_Read F)) (stream, []) in
        match copied.1 with
        | Some err => throw err
        | None => ret (sum copied.2.2)
        end
    end in
  do! stream_Close F stream in
  match value with inl v => ret (mkChecksum algorithm v) | inr err => throw err end.

(** *** Unsupported operations *)

Definition SetMetadata (ctx : context) (path : Path) (metadata : stringmap) : M (sftp_world S) unit :=
  throw (Unsupported (bs "sftp") CapabilityMetadata OperationSetMetadata).

Definition TemporaryURL (ctx : context) (path : Path) (lifetime : Z)
    (options : TemporaryURLOptions) : M (sftp_world S) bytes :=
  throw (Unsupported (bs "sftp") CapabilityTemporaryURL OperationTemporaryURL).

Definition VisibilityOf (ctx : context) (path : Path) : M (sftp_world S) Visibility :=
  throw (Unsupported (bs "sftp") CapabilityVisibility OperationVisibility).

Definition SetVisibility (ctx : context) (path : Path) (visibility : Visibility)
    : M (sftp_world S) unit :=
  throw (Unsupported (bs "sftp") CapabilityVisibility OperationSetVisibility).

Definition Capabilities : CapabilitySet := capabilities a.
End adapter.
