(* ===== verification/SftpServer.v ===== *)
(** * What an SFTP server promises

    [SftpServer] observes two things of the remote state: the contents of the
    regular files by name and the open file handles with the name and offset of
    each.  Its laws say what each call may do to them, failures included: a call
    that fails because its answer was lost may or may not have taken effect.  Other
    clients of the server are not modelled.  The network connections are the
    subject of [SftpSessions.v]. *)

From S2P Require Import Prelude GoStrings Errors Effects Hoare Paths Capability Contracts Iterator Digest FileInfo Remote RemoteNames Walk Sftp.

Class SftpServer {S} (F : remoteFile S) (R : remoteSession S) (dial : connector S)
    (rnd : M S bytes) := {
  files : S → gmap bytes bytes;
  handles : S → gmap handle (bytes * Z);

  (** a call that changes neither *)
  silent : ∀ {A}, M S A → Prop := λ A m,
    ∀ f h, keeps False (λ s, files s = f ∧ handles s = h) m;

  silent_Stat ss n : silent (rStat R ss n);
  silent_Lstat ss n : silent (rLstat R ss n);
  silent_ReadDir ss ctx n : silent (rReadDirContext R ss ctx n);
  silent_MkdirAll ss n : silent (rMkdirAll R ss n);
  silent_HasExtension ss n : silent (rHasExtension R ss n);
  silent_Sync h : silent (fSync F h);
  silent_random : silent rnd;

  (** exclusive creation: the name was free, and only it changes *)
  Create_law ss n f h :
    triple (λ s, files s = f ∧ handles s = h)
      (rOpenFile R ss n [O_WRONLY; O_CREATE; O_EXCL])
      (λ r s, match r with
        | Ok fd => f !! n = None ∧ files s = <[n := []]> f ∧
                   h !! fd = None ∧ handles s = <[fd := (n, 0)]> h
        | Err _ => handles s = h ∧ (files s = f ∨ (f !! n = None ∧ files s = <[n := []]> f))
        | Panic _ => False
        end);

  (** a write at the end of a file appends; a failed one may have changed that
      file only *)
  Write_law fd b n c f h :
    h !! fd = Some (n, len c) → f !! n = Some c →
    triple (λ s, files s = f ∧ handles s = h) (fWrite F fd b)
      (λ r s, match r with
        | Ok _ => files s = <[n := c ++ b]> f ∧ handles s = <[fd := (n, len (c ++ b))]> h
        | Err _ => agree_off n f (files s) ∧ ∃ off', handles s = <[fd := (n, off')]> h
        | Panic _ => False
        end);

  (** closing releases the handle whatever it returns *)
  Close_law fd f h :
    triple (λ s, files s = f ∧ handles s = h) (fClose F fd)
      (λ r s, files s = f ∧ handles s = delete fd h ∧
        match r with Panic _ => False | _ => True end);

  Remove_law ss n f h :
    triple (λ s, files s = f ∧ handles s = h) (rRemove R ss n)
      (λ r s, (files s = f ∨ files s = delete n f) ∧ handles s = h ∧
        match r with Panic _ => False | _ => True end);

  (** renaming a regular file replaces its target at once, or does nothing *)
  Rename_law (posix : bool) ss old new f h :
    is_Some (f !! old) →
    triple (λ s, files s = f ∧ handles s = h)
      ((if posix then rPosixRename R else rRename R) ss old new)
      (λ r s, handles s = h ∧
        match r with
        | Ok _ => renamed old new f (files s)
        | Err _ => files s = f ∨ renamed old new f (files s)
        | Panic _ => False
        end);

  (** connecting and disconnecting *)
  silent_Dial ctx : silent (dial ctx);
  silent_CloseSession ss : silent (rClose R ss);
}.

(** ** Requests *)

(** The requests of a client. *)
Inductive request :=
  | ROpen (p : Path)
  | ROpenRange (p : Path) (r : ByteRange)
  | RRead (stream : contextReadCloser) (n : Z)
  | RCloseStream (stream : contextReadCloser)
  | RWrite (p : Path) (source : reader) (o : WriteOptions)
  | RUpload (p : Path) (source : reader) (o : WriteOptions)
  | RDelete (p : Path)
  | RStat (p : Path)
  | RList (p : Path) (o : ListOptions)
  | RCopy (fuel : nat) (src dst : Path) (o : CopyOptions)
  | RMove (src dst : Path) (o : MoveOptions)
  | RChecksum (fuel : nat) (p : Path) (alg : ChecksumAlgorithm)
  | RClose.

Section requests.
Context {S : Type} (a : Adapter S) (AsOpError AsUnsupportedStatus : error → bool).
Local Abbreviation F := (files_api a) (only parsing).

Definition perform (ctx : context) (rq : request) : M (sftp_world S) unit :=
  ignored match rq with
  | ROpen p => ignored (Open a AsOpError ctx p)
  | ROpenRange p r => ignored (OpenRange a AsOpError ctx p r)
  | RRead stream n => ignored (stream_Read F stream n)
  | RCloseStream stream => ignored (stream_Close F stream)
  | RWrite p source o =>
      ignored (Write a AsOpError AsUnsupportedStatus (1 + length source) list_Read ctx p source o)
  | RUpload p source o =>
      let! upload := OpenWriter a AsOpError AsUnsupportedStatus ctx p o in upload source
  | RDelete p => Delete a ctx p
  | RStat p => ignored (Stat a AsOpError ctx p)
  | RList p o => ignored (ListEntries a AsOpError ctx p o)
  | RCopy fuel src dst o => Copy a AsOpError AsUnsupportedStatus fuel ctx src dst o
  | RMove src dst o => Move a ctx src dst o
  | RChecksum fuel p alg => ignored (ChecksumOf a AsOpError fuel ctx p alg)
  | RClose => Close a
  end.

Definition perform_all (requests : list (context * request)) : M (sftp_world S) unit :=
  perform_seq (λ x, perform x.1 x.2) requests.
End requests.

(** ** Rules for the adapter's combinators *)

Section combinators.
Context {S : Type} (a : Adapter S) (panics : Prop) (P : sftp_world S → Prop).

Lemma keeps_mapped {A} p (m : M (sftp_world S) A) : keeps panics P m → keeps panics P (mapped p m).
Proof. intros Hm. unfold mapped. keeps_split. Qed.

Lemma keeps_withSession {T} AsOpError ctx retry (op : session → M (sftp_world S) T) :
  keeps panics P (currentSession a ctx) → (∀ ss, keeps panics P (invalidate a ss)) →
  (∀ ss, keeps panics P (op ss)) → keeps panics P (withSession a AsOpError ctx retry op).
Proof. apply keeps_reconnecting. Qed.

Lemma keeps_rejectSymlinks ss p final :
  (∀ n, keeps panics P (call (rLstat (sessions_api a) ss n))) →
  keeps panics P (rejectSymlinks a ss p final).
Proof.
  intros. unfold rejectSymlinks. induction (link_candidates a p final); simpl; keeps_split.
Qed.
End combinators.
#[export] Hint Resolve keeps_mapped keeps_withSession keeps_rejectSymlinks : keeps.

(** Splitting along these combinators too. *)
Ltac keeps_sftp :=
  keeps_with ltac:(apply keeps_mapped || apply keeps_withSession || apply keeps_ignored ||
                   apply keeps_rejectSymlinks || apply keeps_io_Copy || apply keeps_context_Read).
