(* ===== verification/SftpSessions.v ===== *)
(** * Who owns the connections of the SFTP adapter

    What the network and the SSH and SFTP client libraries promise of the connections
    they open is the class [SftpTransport].  Over it, the connector of [Open] ([dial]),
    [realSession] and everything above them leave no connection open but that of the
    session the adapter holds. *)

From S2P Require Import Prelude GoStrings Errors Effects Hoare Paths Capability Contracts Iterator Digest FileInfo Remote RemoteNames Walk Sftp SftpServer.

(** ** The libraries *)

(** [live] are the network connections that are open.  Any call may lose some; only
    [DialContext] opens one.  An SSH client runs over the connection it was given
    ([carrier]), and closing either closes that connection, whatever it returns; closing
    an SFTP client does not have to. *)
Class SftpTransport {S} (T : Transport S) (C : sftpClient S) (F : remoteFile S) (rnd : M S bytes) := {
  live : S → gset Z;
  carrier : Z → Z;

  (** a call that opens no connection and returns *)
  steady : ∀ {A}, M S A → Prop := λ A m, ∀ l, keeps False (λ s, live s ⊆ l) m;

  DialContext_law ctx timeout address l :
    triple (λ s, live s ⊆ l) (DialContext T ctx timeout address)
      (λ r s, match r with
        | Ok connection => live s ⊆ {[connection]} ∪ l
        | Err _ => live s ⊆ l
        | Panic _ => False
        end);
  steady_NewClientConn ctx connection address c : steady (NewClientConn T ctx connection address c);
  NewClientConn_carrier ctx connection address c :
    triple (λ _, True) (NewClientConn T ctx connection address c)
      (λ r _, match r with Ok ssh => carrier ssh = connection | _ => True end);
  steady_NewClient ctx ssh : steady (NewClient T ctx ssh);
  conn_Close_law connection l :
    triple (λ s, live s ⊆ l) (conn_Close T connection)
      (λ r s, live s ⊆ l ∖ {[connection]} ∧ match r with Panic _ => False | _ => True end);
  ssh_Close_law ssh l :
    triple (λ s, live s ⊆ l) (ssh_Close T ssh)
      (λ r s, live s ⊆ l ∖ {[carrier ssh]} ∧ match r with Panic _ => False | _ => True end);
  steady_sftp_Close c : steady (sftp_Close T c);

  steady_cOpen c n : steady (cOpen C c n);
  steady_cOpenFile c n flags : steady (cOpenFile C c n flags);
  steady_cStat c n : steady (cStat C c n);
  steady_cLstat c n : steady (cLstat C c n);
  steady_cReadDir c ctx n : steady (cReadDirContext C c ctx n);
  steady_cRemove c n : steady (cRemove C c n);
  steady_cMkdirAll c n : steady (cMkdirAll C c n);
  steady_cRename c old new : steady (cRename C c old new);
  steady_cPosixRename c old new : steady (cPosixRename C c old new);

  steady_Read fd n : steady (fRead F fd n);
  steady_Write fd b : steady (fWrite F fd b);
  steady_Close fd : steady (fClose F fd);
  steady_Seek fd n : steady (fSeek F fd n);
  steady_Sync fd : steady (fSync F fd);
  steady_random : steady rnd;
}.

(** ** The connector and the session *)

(** A property that none of the library calls changes is kept by the connector and by
    [realSession.Close]: so [SftpServer] holds of them when those calls touch no file. *)
Section keeping.
Context {S : Type} (T : Transport S) (panics : Prop) (P : S → Prop).
Hypothesis DialContext_keeps : ∀ ctx timeout address, keeps panics P (DialContext T ctx timeout address).
Hypothesis NewClientConn_keeps : ∀ ctx c address cfg, keeps panics P (NewClientConn T ctx c address cfg).
Hypothesis NewClient_keeps : ∀ ctx c, keeps panics P (NewClient T ctx c).
Hypothesis conn_Close_keeps : ∀ c, keeps panics P (conn_Close T c).
Hypothesis ssh_Close_keeps : ∀ c, keeps panics P (ssh_Close T c).
Hypothesis sftp_Close_keeps : ∀ c, keeps panics P (sftp_Close T c).

Lemma keeps_dial address cfg ctx : keeps panics P (dial T address cfg ctx).
Proof. unfold dial, acquisitionError. keeps_with ltac:(apply keeps_ignored). Qed.
Lemma keeps_realSession_Close ss : keeps panics P (realSession_Close T ss).
Proof. unfold realSession_Close. keeps_split. Qed.
End keeping.

Section connections.
Context {S : Type} {T : Transport S} {C : sftpClient S} {F : remoteFile S} {rnd : M S bytes}.
Context `{!SftpTransport T C F rnd}.

(** Only connections of [l] are open; a session is known by the connection below it. *)
Definition only (l : gset Z) (s : S) : Prop := live s ⊆ l.
Definition connection_of (ss : session) : Z := carrier ss.2.

Lemma acquisition_fails {A : Type} ctx operation err l (Q : result A → S → Prop) :
  (∀ e s, only l s → Q (Err e) s) → triple (only l) (acquisitionError ctx operation err) Q.
Proof.
  intros HQ. apply (triple_bind _ (λ _, only l)); [by intros t s Hs|].
  intros [e|]; apply triple_throw; intros s; apply HQ.
Qed.

(** After closing the connection or the SSH client of a failed acquisition, nothing of it
    is left. *)
Lemma closed_only {A : Type} c l (m : M S A) :
  (∀ l, triple (only l) m (λ r s, only (l ∖ {[c]}) s ∧ match r with Panic _ => False | _ => True end)) →
  triple (only ({[c]} ∪ l)) m (λ r s, only l s ∧ match r with Panic _ => False | _ => True end).
Proof.
  intros Hm. eapply triple_conseq; [apply Hm|done|]. intros r s [Hs Hr]. split; [|done].
  unfold only in *. set_solver.
Qed.

(** The connector opens the connection of the session it returns, or none. *)
Lemma dial_only address cfg ctx l :
  triple (only l) (dial T address cfg ctx)
    (λ r s, match r with
      | Ok ss => only ({[connection_of ss]} ∪ l) s
      | Err _ => only l s
      | Panic _ => False
      end).
Proof.
  apply (triple_bind _ (λ x, match x with inl c => only ({[c]} ∪ l) | inr _ => only l end)).
  { eapply triple_attempt; [apply DialContext_law|]. by intros s. }
  intros [connection|e]; [|by apply triple_throw].
  apply (triple_bind _ (λ x s, only ({[connection]} ∪ l) s ∧
    match x with inl ssh => carrier ssh = connection | inr _ => True end)).
  { intros t s Hs. destruct (steady_NewClientConn ctx connection address cfg _ t s Hs) as [Hl Hp].
    pose proof (NewClientConn_carrier ctx connection address cfg t s I) as Hc.
    unfold run_result, run_state, attempt in *.
    by destruct (NewClientConn T ctx connection address cfg t s) as [[] [t' s']]. }
  intros [ssh|e]; apply triple_pure; intros Hc.
  2:{ eapply triple_after_ignored; [apply closed_only, conn_Close_law|]. by apply acquisition_fails. }
  subst connection. apply (triple_bind _ (λ _, only ({[carrier ssh]} ∪ l))).
  { eapply triple_attempt; [apply steady_NewClient|]. simpl. naive_solver. }
  intros [client|e]; [by apply triple_ret|].
  eapply triple_after_ignored; [apply closed_only, ssh_Close_law|]. by apply acquisition_fails.
Qed.

(** Closing a session closes its connection, whatever its two halves return. *)
Lemma realSession_Close_only ss l :
  triple (only l) (realSession_Close T ss)
    (λ r s, only (l ∖ {[connection_of ss]}) s ∧ match r with Panic _ => False | _ => True end).
Proof.
  apply (triple_bind _ (λ _, only l)).
  { eapply triple_attempt; [apply steady_sftp_Close|]. simpl. naive_solver. }
  intros sftpErr. apply (triple_bind _ (λ _, only (l ∖ {[connection_of ss]}))).
  { eapply triple_attempt; [apply ssh_Close_law|]. simpl. naive_solver. }
  intros sshErr. cbv zeta. destruct (Join2 _ _); [by apply triple_throw|by apply triple_ret].
Qed.

Lemma steady_calm {A : Type} (m : M S A) : steady m → calm only m.
Proof. intros Hm. apply calm_of. intros l t s Hl. by destruct (Hm l t s Hl). Qed.
End connections.

(** ** The adapter *)

Section sessions.
Context {S : Type} {T : Transport S} {C : sftpClient S} {F : remoteFile S} {rnd : M S bytes}.
Context `{!SftpTransport T C F rnd}.
Context (address : bytes) (cfg : ClientConfig).
Context (root : bytes) (maxList : Z) (atomicRename : bool) (caps : CapabilitySet).
Context (AsOpError AsUnsupportedStatus : error → bool).
Local Abbreviation R := (realSession T C).
Let a : Adapter S := mkAdapter F R (dial T address cfg) rnd root maxList atomicRename caps.

Local Abbreviation session_inv := (session_inv connection_of only).
Local Abbreviation calm := (calm only).

Lemma keeps_currentSession c ctx : keeps True (session_inv c) (currentSession a ctx).
Proof. apply (keeps_current connection_of _ _ (dial_only address cfg)). Qed.
Lemma keeps_invalidate c ss : keeps True (session_inv c) (invalidate a ss).
Proof. apply (keeps_drop connection_of _ _ realSession_Close_only). Qed.

(** The calls of a session open no connection. *)
Lemma calm_Lstat ss n : calm (rLstat (sessions_api a) ss n).
Proof. apply steady_calm, steady_cLstat. Qed.
Lemma calm_renaming (posix : bool) ss old new :
  calm ((if posix then rPosixRename R else rRename R) ss old new).
Proof. destruct posix; [apply steady_calm, steady_cPosixRename|apply steady_calm, steady_cRename]. Qed.

Local Hint Resolve keeps_call steady_calm steady_Read steady_Write steady_Close steady_Seek steady_Sync
  steady_random calm_Lstat steady_cOpen steady_cOpenFile steady_cStat steady_cLstat steady_cReadDir steady_cRemove
  steady_cMkdirAll steady_cPosixRename keeps_currentSession keeps_invalidate : keeps.

Lemma keeps_stream_Read c stream n : keeps True (session_inv c) (stream_Read F stream n).
Proof. unfold stream_Read. keeps_sftp. Qed.
Lemma keeps_stream_Close c stream : keeps True (session_inv c) (stream_Close F stream).
Proof. unfold stream_Close. keeps_sftp. Qed.
Lemma keeps_Open c ctx p : keeps True (session_inv c) (Open a AsOpError ctx p).
Proof. unfold Open. simpl. keeps_sftp. Qed.
Lemma keeps_Stat c ctx p : keeps True (session_inv c) (Stat a AsOpError ctx p).
Proof. unfold Stat. simpl. keeps_sftp. Qed.
Local Hint Resolve keeps_stream_Read keeps_stream_Close keeps_Open keeps_Stat : keeps.

Lemma keeps_renaming c ss old new :
  keeps True (session_inv c)
    (call ((if atomicRename then rPosixRename R else rRename R) ss old new)).
Proof. apply keeps_call, calm_renaming. Qed.

Lemma keeps_Write {Src} c fuel rd ctx p (source : Src) o :
  (∀ r n, keeps True (session_inv c) (rd r n)) →
  keeps True (session_inv c) (Write a AsOpError AsUnsupportedStatus fuel rd ctx p source o).
Proof.
  intros Hr. unfold Write, write_file, temporaryPath. pose proof (keeps_renaming c) as Hren.
  simpl in *. keeps_sftp.
Qed.

Local Hint Resolve keeps_Write : keeps.

(** A streaming upload runs [Write] in the background. *)
Lemma keeps_upload c ctx p source o :
  keeps True (session_inv c)
    (let! upload := OpenWriter a AsOpError AsUnsupportedStatus ctx p o in upload source).
Proof.
  apply (triple_bind _ (λ upload w, session_inv c w ∧ keeps True (session_inv c) (upload source))).
  - apply (triple_bind _ (λ _, session_inv c)).
    + eapply triple_conseq; [apply (keeps_check_ctx True)|done|]. by intros [] w [? ?].
    + intros _. case_match; [by apply triple_throw|]. apply triple_ret. intros w Hw.
      split; [done|]. keeps_sftp.
  - intros upload t w [Hw Hup]. by apply Hup.
Qed.
Local Hint Resolve keeps_upload : keeps.

Definition is_close (x : context * request) : bool :=
  match x.2 with RClose => true | _ => false end.

Lemma perform_closes c x :
  is_close x = true →
  triple (session_inv c) (perform a AsOpError AsUnsupportedStatus x.1 x.2) (λ _, session_inv true).
Proof.
  destruct x as [ctx []]; try done. intros _.
  apply (triple_bind _ (λ _, session_inv true)); [|by intros; apply triple_ret].
  eapply triple_attempt; [apply (keeps_close connection_of _ _ realSession_Close_only)|]. intros w. simpl. auto.
Qed.

Lemma keeps_perform c x :
  keeps True (session_inv c) (perform a AsOpError AsUnsupportedStatus x.1 x.2).
Proof.
  destruct (is_close x) eqn:Ex.
  { eapply triple_conseq; [by apply perform_closes|done|].
    intros r w (? & ? & ?). split; [by repeat split; auto|by destruct r]. }
  destruct x as [ctx rq]; destruct rq; try done; unfold perform, OpenRange, Delete, ListEntries,
    list_entries, list_queue, Copy, Move, ChecksumOf, hashing_Read; simpl;
    keeps_sftp.
Qed.

Lemma perform_all_owned c requests :
  triple (session_inv c) (perform_all a AsOpError AsUnsupportedStatus requests)
    (λ r w, session_inv c w ∧ (r = Ok tt → existsb is_close requests = true → session_inv true w)).
Proof. apply perform_seq_owned; [apply keeps_perform|apply perform_closes]. Qed.


(** What a new adapter holds, and that a failed construction holds nothing. *)
Definition constructed (r : result (Adapter S * session)) (s : S) : Prop :=
  match r with
  | Ok (a, ss) => only {[connection_of ss]} s ∧ ∃ rt max ar cs,
      a = mkAdapter F R (dial T address cfg) rnd rt max ar cs
  | _ => only ∅ s
  end.

Lemma newAdapter_owned ctx r max :
  triple (only ∅) (newAdapter F R rnd (Some ctx) (Some (dial T address cfg)) r max) constructed.
Proof.
  unfold newAdapter. apply triple_lift_bind; [by destruct (validateRoot r)|].
  intros rt _. case_match; [by apply triple_throw|]. apply triple_check_ctx_bind; [done|].
  apply (triple_bind _ (λ ss, only {[connection_of ss]})).
  { eapply triple_conseq; [apply (dial_only address cfg ctx ∅)|done|].
    intros [] s; [by rewrite union_empty_r_L|done..]. }
  intros ss. apply (triple_bind _ (λ _, only {[connection_of ss]})); [by intros t s Hs|]. intros [err|].
  - apply (triple_after_ignored _ (only ∅)); [|by apply triple_throw].
    eapply triple_conseq; [apply (realSession_Close_only ss {[connection_of ss]})|done|].
    by rewrite difference_diag_L.
  - apply (triple_bind _ (λ _, only {[connection_of ss]})); [by intros t s Hs|]. intros ar.
    rewrite NewCapabilitySet_known by (destruct ar; decide_now).
    intros t s Hs. split; [exact Hs|by eexists _, _, _, _].
Qed.
End sessions.

Lemma OpenAdapter_owned {S} (T : Transport S) C F rnd `{!SftpTransport T C F rnd} ctx configuration :
  ∃ address cfg, triple (only ∅) (OpenAdapter T C F rnd ctx configuration) (constructed address cfg).
Proof.
  eexists (Address configuration), _. unfold OpenAdapter. destruct ctx as [ctx|]; [|by apply triple_throw].
  apply triple_check_ctx_bind; [done|].
  repeat (case_match; [by apply triple_throw|]).
  apply triple_lift_bind; [by destruct (validateRoot (ConfigRoot configuration))|].
  intros root _. repeat (case_match; [by apply triple_throw|]).
  apply triple_check_ctx_bind; [done|]. apply newAdapter_owned.
Qed.

(** C16: No connection but the adapter's own is open, for every configuration and every
    network, SSH and SFTP library that meet [SftpTransport].  When [Open] fails, at
    whatever step of the validation, the dialling, the SSH handshake or the start of the
    subsystem, or because the context was done meanwhile, no connection is left open; after
    any sequence of requests, with failures, lost connections and cancellations anywhere,
    no connection is open but the one below the session the adapter holds, so that of a
    session replaced after a connection error was closed; and once [Close] ran, none is
    open and no later request opens one. *)
Theorem sessions_owned {S} (T : Transport S) C F rnd `{!SftpTransport T C F rnd}
    AsOpError AsUnsupportedStatus ctx configuration t s :
  live s = ∅ →
  match OpenAdapter T C F rnd ctx configuration t s with
  | (Ok (a, ss), (t', s')) => ∀ requests,
      let '(res, (_, w)) :=
        perform_all a AsOpError AsUnsupportedStatus requests t' (new_world ss s') in
      live (remote w) ⊆ owned connection_of w ∧
      (res = Ok tt → (∃ ctx, (ctx, RClose) ∈ requests) →
        adapter_closed w = true ∧ live (remote w) = ∅)
  | (_, (_, s')) => live s' = ∅
  end.
Proof.
  intros Hs. destruct (OpenAdapter_owned T C F rnd ctx configuration) as (address & cfg & Hn).
  specialize (Hn t s (reflexive_eq _ _ Hs)). unfold run_result, run_state in Hn.
  destruct (OpenAdapter T C F rnd ctx configuration t s) as [[[a ss]| |] [t' s']];
    [|apply (anti_symm (⊆)); [exact Hn|set_solver]..].
  destruct Hn as (Hl & rt & max & ar & cs & ->). intros requests.
  pose proof (perform_all_owned address cfg rt max ar cs AsOpError AsUnsupportedStatus false requests t'
    (new_world ss s')) as Hp.
  unfold run_result, run_state in Hp. destruct (perform_all _ _ _ _ _ _) as [res [t'' w]].
  destruct Hp as [[? _] Hc]; [by repeat split|]. split; [done|].
  intros Hres (ctx' & Hin). destruct (Hc Hres) as (Hlive & Hnone & Hcl).
  { apply existsb_exists. exists (ctx', RClose). by rewrite <- list_elem_of_In. }
  split; [by apply Hcl|]. apply (anti_symm (⊆)); [|set_solver].
  unfold owned in Hlive. by rewrite Hnone in Hlive by by apply Hcl.
Qed.
