(* ===== verification/SftpNames.v ===== *)
(** * The remote names the SFTP adapter uses

    Which names the adapter hands to its SFTP client: the client is instrumented to
    note them, and every name noted by any sequence of requests is the configured root
    or below it.  The names [rejectSymlinks] examines, the directory and the temporary
    file of a write, and the directories of a recursive listing, whose names come from
    the server, are all covered. *)

From S2P Require Import Prelude GoStrings Errors Effects Hoare Paths Capability Contracts Iterator Digest FileInfo Remote RemoteNames Walk Sftp SftpServer SftpSessions.

(** ** A client that notes names *)

Definition noting {S A} (names : list bytes) (m : M S A) : M (list bytes * S) A := λ t st,
  let '(r, (t', s')) := m t st.2 in (r, (t', (st.1 ++ names, s'))).

Definition noting_client {S} (C : sftpClient S) : sftpClient (list bytes * S) := {|
  cOpen c n := noting [n] (cOpen C c n);
  cOpenFile c n flags := noting [n] (cOpenFile C c n flags);
  cStat c n := noting [n] (cStat C c n);
  cLstat c n := noting [n] (cLstat C c n);
  cReadDirContext c ctx n := noting [n] (cReadDirContext C c ctx n);
  cRemove c n := noting [n] (cRemove C c n);
  cMkdirAll c n := noting [n] (cMkdirAll C c n);
  cRename c old new := noting [old; new] (cRename C c old new);
  cPosixRename c old new := noting [old; new] (cPosixRename C c old new);
  cHasExtension c n st := cHasExtension C c n st.2;
|}.

(** The calls that take no name. *)
Definition noting_transport {S} (T : Transport S) : Transport (list bytes * S) := {|
  DialContext ctx timeout address := noting [] (DialContext T ctx timeout address);
  NewClientConn ctx c address cfg := noting [] (NewClientConn T ctx c address cfg);
  NewClient ctx c := noting [] (NewClient T ctx c);
  conn_Close c := noting [] (conn_Close T c);
  ssh_Close c := noting [] (ssh_Close T c);
  sftp_Close c := noting [] (sftp_Close T c);
|}.

Definition noting_files {S} (F : remoteFile S) : remoteFile (list bytes * S) := {|
  fRead fd n := noting [] (fRead F fd n);
  fWrite fd b := noting [] (fWrite F fd b);
  fClose fd := noting [] (fClose F fd);
  fSeek fd n := noting [] (fSeek F fd n);
  fSync fd := noting [] (fSync F fd);
|}.

(** ** Names at or below a root *)

(** [n] is the name with segments [rs], or below it. *)
Definition inside (rs : list bytes) (n : bytes) : Prop :=
  ∃ segs, Forall plain_segment segs ∧ n = abs_name (rs ++ segs).

Lemma path_Dir_abs rs seg :
  Forall plain_segment (rs ++ [seg]) → path_Dir (abs_name (rs ++ [seg])) = abs_name rs.
Proof.
  intros Hp. unfold path_Dir, path_split_dir, abs_name at 1. rewrite Split_cons_sep.
  rewrite Split_Join by (eauto using plain_no_slash || by destruct rs).
  change ([] :: rs ++ [seg]) with (([] :: rs) ++ [seg]). rewrite removelast_last.
  apply Forall_app in Hp as [Hrs _]. destruct rs as [|s0 rs]; [done|].
  change (Join ([] :: s0 :: rs) slash ++ [slash]) with (slash :: (Join (s0 :: rs) slash ++ [slash])).
  assert (Hs : Split (slash :: (Join (s0 :: rs) slash ++ [slash])) slash = [] :: (s0 :: rs) ++ [[]])
    by by rewrite Split_cons_sep, Split_app_sep, Split_Join by eauto using plain_no_slash.
  rewrite Clean_rooted; rewrite Hs.
  - rewrite filter_cons_False by naive_solver. rewrite filter_app, filter_plain by done.
    by rewrite filter_cons_False, filter_nil, app_nil_r by naive_solver.
  - rewrite not_elem_of_cons, elem_of_app, list_elem_of_singleton. split; [done|].
    intros [Hin|?]; [|done]. rewrite Forall_forall in Hrs. by destruct (Hrs _ Hin) as (_ & _ & ? & _).
Qed.

(** The hexadecimal digits have no separator among them. *)
Lemma EncodeToString_no_slash b : slash ∉ EncodeToString b.
Proof.
  assert (Hd : ∀ n, 0 ≤ n < 16 → hex_digit n ≠ slash).
  { intros n Hn Heq. unfold hex_digit in Heq. apply (f_equal code) in Heq.
    rewrite code_ascii_of_Z in Heq by (case_match; lia). change (code slash) with 47 in Heq.
    case_match; lia. }
  induction b as [|c b IH]; cbn [EncodeToString flat_map app]; [set_solver|].
  pose proof (code_range c).
  rewrite !not_elem_of_cons. split_and!; [..|exact IH]; apply not_eq_sym, Hd.
  - split; [apply Z.div_pos; lia|apply Z.div_lt_upper_bound; lia].
  - apply Z.mod_pos_bound. lia.
Qed.

Lemma temporary_segment random : plain_segment (bs ".filesystem-" ++ EncodeToString random ++ bs ".tmp").
Proof.
  split_and!; [done..|]. rewrite !not_elem_of_app.
  split_and!; [decide_now|apply EncodeToString_no_slash|decide_now].
Qed.

Section inside.
Context (rs : list bytes) (Hrs : Forall plain_segment rs).

Lemma inside_remote_name p : wf_path p → inside rs (remote_name (abs_name rs) p).
Proof.
  intros Hp. exists (segments p). split; [by apply segment_ok_plain, Hp|by apply remote_name_abs].
Qed.

(** The directory of a target other than the root. *)
Lemma inside_Dir p : wf_path p → p ≠ Root → inside rs (path_Dir (remote_name (abs_name rs) p)).
Proof.
  intros Hp Hne. rewrite remote_name_abs by done. pose proof (segment_ok_plain _ (proj1 Hp)) as Hs.
  destruct (segments p) as [|seg segs _] eqn:E using rev_ind; [by apply segments_nil in E|].
  pose proof Hs as [Hsegs _]%Forall_app. exists segs. split; [done|].
  rewrite app_assoc. apply path_Dir_abs. rewrite <- app_assoc. by apply Forall_app.
Qed.

Lemma inside_temporary d random : inside rs d → inside rs (temporary_name d random).
Proof.
  intros (segs & Hs & ->). exists (segs ++ [bs ".filesystem-" ++ EncodeToString random ++ bs ".tmp"]).
  pose proof (temporary_segment random) as Ht. split; [by apply Forall_app; split; [|constructor]|].
  unfold temporary_name. rewrite (app_assoc rs segs).
  apply (path_Join_abs (rs ++ segs) [_]); [done|by apply Forall_app|by constructor].
Qed.

(** The root has one candidate, the root itself. *)
Lemma link_names_Root final :
  link_names (abs_name rs) Root final = if final then [abs_name rs] else [].
Proof.
  unfold link_names. destruct final; [|done]. simpl.
  change (path_Join [[]]) with (@nil Ascii.ascii). f_equal. unfold path_Join.
  rewrite filter_cons_True, filter_cons_False, filter_nil by (done || naive_solver).
  destruct (Split_Join_kept rs Hrs) as [Hf Hd]. simpl. unfold abs_name at 1.
  rewrite Clean_rooted; rewrite Split_cons_sep; [by rewrite filter_cons_False, Hf by naive_solver|].
  rewrite not_elem_of_cons. done.
Qed.

Lemma inside_link_names p final :
  wf_path p → Forall (inside rs) (link_names (abs_name rs) p final).
Proof.
  intros Hp. destruct (decide (p = Root)) as [->|Hne].
  { rewrite link_names_Root. destruct final; repeat constructor. exists []. by rewrite app_nil_r. }
  assert (∀ n, Forall (inside rs) (ancestors rs (segments p) n)).
  { intros n. apply Forall_fmap, Forall_forall. intros k _. eexists. split; [|done].
    apply Forall_take, segment_ok_plain, Hp. }
  destruct (link_names_abs rs p Hrs Hp Hne) as [Ht Hf]. destruct final; by rewrite ?Ht, ?Hf.
Qed.
End inside.

(** ** The listing walk *)

(** The directories queued are well-formed paths, whatever names the server sent. *)
Lemma collect_wf {X} name link directory size modified denied current recursive limit
    (children : list X) queue entries queue' entries' reached :
  wf_path current → Forall wf_path queue →
  collect name link directory size modified denied current recursive limit children queue entries =
    Ok (queue', entries', reached) → Forall wf_path queue'.
Proof.
  intros Hc. revert queue entries. induction children as [|child children IH]; intros queue entries Hq; simpl.
  { by intros [= <- _ _]. }
  case_match; [done|]. unfold result_bind. pose proof (JoinPath_below current (name child) Hc) as Hj.
  destruct (JoinPath current (name child)) as [lp|e|m]; [|done..]. destruct Hj as [Hlp _].
  assert (Hq' : Forall wf_path (if directory child && recursive then queue ++ [lp] else queue)).
  { case_match; [|done]. apply Forall_app. split; [done|]. by apply Forall_singleton. }
  cbv zeta. destruct (_ >=? _); [by intros [= <- _ _]|by apply IH].
Qed.

Lemma keeps_walk_wf {X W} name link directory size modified denied (read_dir : Path → M W (list X)) P
    fuel recursive limit queue entries :
  (∀ p, wf_path p → keeps True P (read_dir p)) → Forall wf_path queue →
  keeps True P (walk name link directory size modified denied read_dir fuel recursive limit queue
                  entries).
Proof.
  intros Hr. revert queue entries.
  induction fuel as [|fuel IH]; intros queue entries Hq; destruct Hq as [|current queue Hc Hq]; simpl;
    try solve [keeps_split].
  apply keeps_bind; [by apply Hr|]. intros children. apply triple_lift_bind; [by case_match|].
  intros [[queue' entries'] reached] Hx.
  pose proof (collect_wf _ _ _ _ _ _ _ _ _ _ _ _ _ _ _ Hc Hq Hx) as Hq'.
  destruct reached; [apply keeps_ret|by apply IH].
Qed.

(** ** The adapter *)

(** Requests at well-formed paths; a move to the root is left out ([SftpMem.Move_to_root_above]). *)
Definition confined_request (rq : request) : Prop :=
  match rq with
  | ROpen p | ROpenRange p _ | RWrite p _ _ | RUpload p _ _ | RDelete p | RStat p | RList p _
  | RChecksum _ p _ => wf_path p
  | RCopy _ src dst _ => wf_path src ∧ wf_path dst
  | RMove src dst _ => wf_path src ∧ wf_path dst ∧ dst ≠ Root
  | RRead _ _ | RCloseStream _ | RClose => True
  end.

Section confined.
Context {S : Type} (T : Transport S) (C : sftpClient S) (F : remoteFile S) (rnd : M S bytes).
Context (address : bytes) (cfg : ClientConfig).
Context (rs : list bytes) (Hrs : Forall plain_segment rs).
Context (maxList : Z) (atomicRename : bool) (caps : CapabilitySet).
Context (AsOpError AsUnsupportedStatus : error → bool).
Local Abbreviation F' := (noting_files F).
Local Abbreviation T' := (noting_transport T).
Local Abbreviation R' := (realSession T' (noting_client C)).
Let a : Adapter (list bytes * S) :=
  mkAdapter F' R' (dial T' address cfg) (noting [] rnd) (abs_name rs) maxList atomicRename caps.

(** The names noted so far are inside. *)
Definition noted (st : list bytes * S) : Prop := Forall (inside rs) st.1.
Local Abbreviation ok := (λ w : world session (list bytes * S), noted (remote w)).

Lemma keeps_noting {A} names (m : M S A) : Forall (inside rs) names → keeps True noted (noting names m).
Proof.
  intros Hn. apply keeps_any. intros t [log s] Hl. unfold run_state, noting, noted in *. simpl.
  destruct (m t s) as [r [t' s']]. by apply Forall_app.
Qed.

Lemma keeps_noted_call {A} names (m : M S A) :
  Forall (inside rs) names → keeps True ok (call (noting names m)).
Proof. intros. by apply (keeps_call_remote True noted), keeps_noting. Qed.

Lemma noted_dial ctx : keeps True noted (dial T' address cfg ctx).
Proof. apply keeps_dial; intros; by apply keeps_noting. Qed.
Lemma noted_disconnect ss : keeps True noted (rClose R' ss).
Proof. apply keeps_realSession_Close; intros; by apply keeps_noting. Qed.

Lemma noted_currentSession ctx : keeps True ok (currentSession a ctx).
Proof. apply (keeps_current_remote _ True noted), noted_dial. Qed.
Lemma noted_invalidate ss : keeps True ok (invalidate a ss).
Proof. apply (keeps_drop_remote _ True noted), noted_disconnect. Qed.

Lemma noted_rejectSymlinks ss p final : wf_path p → keeps True ok (rejectSymlinks a ss p final).
Proof.
  intros Hp. unfold rejectSymlinks. pose proof (inside_link_names rs Hrs p final Hp) as Hc.
  change (link_names (abs_name rs) p final) with (link_candidates a p final) in Hc.
  induction Hc; simpl; [apply keeps_ret|].
  apply keeps_bind; [apply keeps_attempt, keeps_noted_call; by constructor|]. intros. keeps_split.
Qed.

Lemma inside_remotePath p : wf_path p → inside rs (remotePath a p).
Proof. by apply inside_remote_name. Qed.

Local Hint Resolve keeps_noted_call noted_currentSession noted_invalidate noted_rejectSymlinks
  inside_remotePath Forall_nil_2 Forall_cons_2 : keeps.

(** The names a call is given, at any session. *)
Lemma noted_Open ctx p : wf_path p → keeps True ok (Open a AsOpError ctx p).
Proof. intros Hp. unfold Open. simpl. keeps_sftp. Qed.
Lemma noted_Stat ctx p : wf_path p → keeps True ok (Stat a AsOpError ctx p).
Proof. intros Hp. unfold Stat. simpl. keeps_sftp. Qed.
Lemma noted_stream_Read stream n : keeps True ok (stream_Read F' stream n).
Proof. unfold stream_Read. simpl. keeps_sftp. Qed.
Lemma noted_stream_Close stream : keeps True ok (stream_Close F' stream).
Proof. unfold stream_Close. simpl. keeps_sftp. Qed.
Local Hint Resolve noted_Open noted_Stat noted_stream_Read noted_stream_Close : keeps.

Lemma noted_temporary {A} d (k : bytes → M (sftp_world (list bytes * S)) A) :
  inside rs d → (∀ temporary, inside rs temporary → keeps True ok (k temporary)) →
  keeps True ok (let! temporary := temporaryPath a d in k temporary).
Proof.
  intros Hd Hk.
  apply (triple_bind _ (λ temporary w, ok w ∧ inside rs temporary)); [|intros; by apply triple_pure, Hk].
  apply (triple_keeps_bind True); [simpl; auto with keeps|done|].
  intros [random|err]; [|by apply triple_throw].
  apply triple_ret. intros w Hw. split; [done|by apply inside_temporary].
Qed.

Lemma noted_write_file {Src} fuel rd ctx ss p target temporary fd (source : Src) :
  (∀ r n, keeps True ok (rd r n)) → inside rs target → inside rs temporary →
  keeps True ok (write_file a AsUnsupportedStatus fuel rd ctx ss p target temporary fd source).
Proof. intros. unfold write_file. simpl. destruct atomicRename; simpl; keeps_sftp. Qed.

Lemma noted_Write {Src} fuel rd ctx p (source : Src) o :
  wf_path p → (∀ r n, keeps True ok (rd r n)) →
  keeps True ok (Write a AsOpError AsUnsupportedStatus fuel rd ctx p source o).
Proof.
  intros Hp Hr. unfold Write. destruct (IsRoot p) eqn:Hroot; [apply keeps_throw|].
  assert (Hd : inside rs (path_Dir (remotePath a p)))
    by (apply inside_Dir; [done..|]; by intros ->).
  case_match; [apply keeps_throw|]. cbv zeta.
  do 5 (apply keeps_bind; [simpl; keeps_sftp|intros ?]). apply noted_temporary; [done|].
  intros temporary Ht. apply keeps_bind; [simpl; keeps_sftp|]. intros fd.
  apply keeps_bind; [|auto with keeps]. apply noted_write_file; auto with keeps.
Qed.
Local Hint Resolve noted_Write : keeps.

Lemma noted_upload ctx p source o :
  wf_path p →
  keeps True ok (let! upload := OpenWriter a AsOpError AsUnsupportedStatus ctx p o in upload source).
Proof.
  intros Hp.
  apply (triple_bind _ (λ upload w, ok w ∧ keeps True ok (upload source))).
  - apply triple_check_ctx_bind; [done|]. case_match; [by apply triple_throw|].
    apply triple_ret. intros w Hw. split; [done|]. keeps_sftp.
  - intros upload. apply triple_pure. done.
Qed.

Lemma noted_list ctx ss p recursive limit :
  wf_path p → keeps True ok (list_entries a ctx ss p recursive limit).
Proof.
  intros Hp. unfold list_entries, list_queue. apply keeps_bind; [keeps_sftp|]. intros _.
  apply keeps_walk_wf; [|by constructor]. intros q Hq. simpl. auto with keeps.
Qed.

Lemma noted_Move ctx src dst o : wf_path src → wf_path dst → dst ≠ Root → keeps True ok (Move a ctx src dst o).
Proof.
  intros Hs Hd Hne. unfold Move. pose proof (inside_Dir rs Hrs dst Hd Hne : inside rs (path_Dir (remotePath a dst))).
  simpl. keeps_sftp.
Qed.

Lemma noted_Close : keeps True ok (Close a).
Proof. apply (keeps_close_remote _ True noted), noted_disconnect. Qed.
Local Hint Resolve noted_upload noted_list noted_Move noted_Close : keeps.

Lemma noted_perform ctx rq :
  confined_request rq → keeps True ok (perform a AsOpError AsUnsupportedStatus ctx rq).
Proof.
  intros Hrq. unfold perform. apply keeps_ignored. destruct rq; simpl in Hrq; destruct_and?;
    unfold OpenRange, Delete, ListEntries, Copy, ChecksumOf, hashing_Read; simpl; keeps_sftp.
Qed.

Lemma noted_perform_all requests :
  Forall (λ x, confined_request x.2) requests →
  keeps True ok (perform_all a AsOpError AsUnsupportedStatus requests).
Proof.
  unfold perform_all. induction 1 as [|x requests Hx _ IH]; simpl; [apply keeps_ret|].
  apply keeps_bind; [by apply noted_perform|done].
Qed.
End confined.

(** What [OpenAdapter] returns: an adapter at the validated root of the configuration. *)
Definition opened {S} (T : Transport S) C F rnd (configuration : Config)
    (r : result (Adapter S * session)) : Prop :=
  match r with
  | Ok (a, _) => ∃ address cfg rt max ar cs,
      a = mkAdapter F (realSession T C) (dial T address cfg) rnd rt max ar cs ∧
      validateRoot (ConfigRoot configuration) = Ok rt
  | _ => True
  end.

Lemma OpenAdapter_opened {S} (T : Transport S) C F rnd ctx configuration (P : S → Prop) :
  (∀ address cfg ctx, keeps True P (dial T address cfg ctx)) →
  (∀ ss, keeps True P (realSession_Close T ss)) →
  triple P (OpenAdapter T C F rnd ctx configuration) (λ r s, P s ∧ opened T C F rnd configuration r).
Proof.
  intros Hd Hc. unfold OpenAdapter. destruct ctx as [ctx|]; [|by apply triple_throw].
  apply triple_check_ctx_bind; [done|]. repeat (case_match; [by apply triple_throw|]).
  apply triple_lift_bind; [by destruct (validateRoot (ConfigRoot configuration))|].
  intros root Hroot. repeat (case_match; [by apply triple_throw|]).
  apply triple_check_ctx_bind; [done|]. unfold newAdapter.
  pose proof (validate_root_idem _ _ _ Hroot : validateRoot root = Ok root) as Hidem. rewrite Hidem.
  apply triple_lift_bind; [done|]. intros rt [= <-]. case_match; [by apply triple_throw|].
  apply triple_check_ctx_bind; [done|].
  apply (triple_keeps_bind True); [by apply Hd|done|]. intros ss.
  apply (triple_keeps_bind True); [auto with keeps|done|]. intros [err|].
  - apply (triple_keeps_bind True); [by apply keeps_ignored, Hc|done|]. intros _. by apply triple_throw.
  - apply (triple_keeps_bind True); [simpl; keeps_split|done|]. intros ar.
    rewrite NewCapabilitySet_known by (destruct ar; decide_now).
    intros t s Hs. split; [exact Hs|]. by eexists _, _, _, _, _, _.
Qed.

(** C17: The SFTP adapter names nothing above its root.  For every configuration that
    [Open] accepts, the adapter's root is the validated root of the configuration, an
    absolute name of plain segments; and after any sequence of requests at well-formed
    paths (reads, ranges, writes, uploads, deletes, stats, listings, copies, checksums,
    and moves to a destination other than the root), with any answers of the server, the
    names that were passed to the SFTP client (checked for links, opened, created, listed,
    removed, renamed from or to, directories made, temporary files included) are all the
    root's segments followed by plain segments, none of them a parent segment. *)
Theorem sftp_names_confined {S} (T : Transport S) C F rnd AsOpError AsUnsupportedStatus
    ctx configuration t s :
  match OpenAdapter (noting_transport T) (noting_client C) (noting_files F) (noting [] rnd)
          ctx configuration t ([], s) with
  | (Ok (a, ss), (t', st)) => ∃ rs,
      validateRoot (ConfigRoot configuration) = Ok (root a) ∧
      root a = abs_name rs ∧ Forall plain_segment rs ∧
      ∀ requests, Forall (λ x, confined_request x.2) requests →
        let '(_, (_, w)) :=
          perform_all a AsOpError AsUnsupportedStatus requests t' (new_world ss st) in
        Forall (inside rs) (remote w).1
  | _ => True
  end.
Proof.
  pose proof (OpenAdapter_opened (noting_transport T) (noting_client C) (noting_files F) (noting [] rnd)
    ctx configuration (λ st, st.1 = [])) as H.
  assert (Hn : ∀ A (m : M S A), keeps True (λ st, st.1 = []) (noting [] m)).
  { intros A m. apply keeps_any. intros t0 [log s0] Hlog. unfold run_state, noting. simpl in *.
    subst. by destruct (m t0 s0) as [? [? ?]]. }
  specialize (H ltac:(intros; apply keeps_dial; intros; apply Hn)
    ltac:(intros; apply keeps_realSession_Close; intros; apply Hn) t ([], s) eq_refl).
  unfold run_result, run_state in H.
  destruct (OpenAdapter _ _ _ _ _ _ _ _) as [[[a ss]|e|msg] [t' st]]; [|done..].
  destruct H as [Hlog (address & cfg & rt & max & ar & cs & -> & Hroot)].
  destruct (validate_root_abs _ _ _ Hroot) as (rs & -> & Hrs). exists rs.
  split_and!; [done..|]. intros requests Hrq.
  pose proof (noted_perform_all T C F rnd address cfg rs Hrs max ar cs AsOpError AsUnsupportedStatus
    requests Hrq t' (new_world ss st)) as [Hw _]; [unfold noted; simpl in *; by rewrite Hlog|].
  unfold run_state in Hw. by destruct (perform_all _ _ _ _ _ _) as [res [t'' w]].
Qed.
