(* ===== verification/SftpWrite.v ===== *)
(** * Publication by the SFTP adapter

    [Write] against any server that meets [SftpServer]: what the remote files are
    after a write that succeeded, failed or was cancelled at any step. *)

From S2P Require Import Prelude GoStrings Errors Effects Hoare Paths Capability Contracts Iterator Digest FileInfo Remote RemoteNames Publish Walk Sftp SftpServer.

Section write.
Context {S : Type} {F : remoteFile S} {R : remoteSession S} {dial : connector S} {rnd : M S bytes}.
Context `{!SftpServer F R dial rnd}.
Context (root : bytes) (maxList : Z) (atomicRename : bool) (caps : CapabilitySet).
Context (AsOpError AsUnsupportedStatus : error → bool).
Let a : Adapter S := mkAdapter F R dial rnd root maxList atomicRename caps.

(** The remote files and the open handles. *)
Local Abbreviation files_of := (λ w : sftp_world S, files (remote w)).
Local Abbreviation handles_of := (λ w : sftp_world S, handles (remote w)).
Local Abbreviation at_state := (at_state files_of handles_of).
(** A file of the server is known by one name. *)
Local Abbreviation sole := (λ (_ : bytes) (_ : sftp_world S), True).

Implicit Types (f : gmap bytes bytes) (h : gmap handle (bytes * Z)).

Lemma call_at {A : Type} f h (m : M S A) (Q : result A → gmap bytes bytes → gmap handle (bytes * Z) → Prop) :
  triple (λ s, files s = f ∧ handles s = h) m
    (λ r s, Q r (files s) (handles s)) →
  triple (at_state f h) (call m) (λ r w, Q r (files (remote w)) (handles (remote w))).
Proof.
  intros H t w [Hf Hh]. specialize (H t (remote w) ltac:(done)).
  unfold run_result, run_state, call in *. by destruct (m t (remote w)) as [r [t' s']].
Qed.

Lemma at_call {A : Type} f h (m : M S A) :
  triple (λ s, files s = f ∧ handles s = h) m
    (λ r s, files s = f ∧ handles s = h ∧ match r with Panic _ => False | _ => True end) →
  keeps False (at_state f h) (call m).
Proof.
  intros H. eapply triple_conseq;
    [apply (call_at f h m (λ r f' h', f' = f ∧ h' = h ∧ match r with Panic _ => False | _ => True end));
     exact H|done|].
  intros r w (? & ? & ?). by repeat split.
Qed.

Lemma at_silent {A : Type} f h (m : M S A) : silent m → keeps False (at_state f h) (call m).
Proof.
  intros Hm. apply at_call. eapply triple_conseq; [apply (Hm f h)|done|].
  by intros r s ((? & ?) & ?).
Qed.

Lemma at_dial f h ctx : keeps False (at_state f h) (call (dial ctx)).
Proof. apply at_silent, silent_Dial. Qed.
Lemma at_rClose f h ss : keeps False (at_state f h) (call (rClose R ss)).
Proof. apply at_silent, silent_CloseSession. Qed.
Lemma at_set_session f h ss : keeps False (at_state f h) (set_session ss).
Proof. by intros t w Hw. Qed.
Local Hint Resolve at_silent at_dial at_rClose at_set_session silent_Stat silent_Lstat silent_ReadDir
  silent_MkdirAll silent_Sync silent_random : keeps.

Lemma at_currentSession f h ctx : keeps False (at_state f h) (currentSession a ctx).
Proof. unfold currentSession, current_or_dial. simpl. keeps_sftp. Qed.
Lemma at_invalidate f h ss : keeps False (at_state f h) (invalidate a ss).
Proof. unfold invalidate, drop_session. keeps_sftp. Qed.
Local Hint Resolve at_currentSession at_invalidate : keeps.
Lemma at_Stat f h ctx p : keeps False (at_state f h) (Stat a AsOpError ctx p).
Proof. unfold Stat. keeps_sftp. Qed.

Lemma call_any {A : Type} (P : gmap bytes bytes → gmap handle (bytes * Z) → Prop) (m : M S A)
    (Q : result A → gmap bytes bytes → gmap handle (bytes * Z) → Prop) :
  (∀ f h, P f h → triple (λ s, files s = f ∧ handles s = h) m (λ r s, Q r (files s) (handles s))) →
  triple (λ w : sftp_world S, P (files (remote w)) (handles (remote w))) (call m)
    (λ r w, Q r (files (remote w)) (handles (remote w))).
Proof.
  intros H t w HP. apply (call_at (files (remote w)) (handles (remote w))); [|done].
  by apply H.
Qed.

(** The calls of a session obey the laws of publication. *)
Lemma sftp_file_laws ss :
  file_laws files_of handles_of sole (λ fd b, call (fWrite F fd b)) (λ fd, call (fClose F fd))
    (λ n, call (rRemove R ss n)).
Proof.
  split.
  - intros fd b n c f h Hfd Hn. eapply triple_conseq; [apply (call_at f h _ (λ r f' h', match r with
      | Ok _ => f' = <[n := c ++ b]> f ∧ h' = <[fd := (n, len (c ++ b))]> h
      | Err _ => agree_off n f f' ∧ ∃ off', h' = <[fd := (n, off')]> h
      | Panic _ => False end))|by intros w [? _]|by intros [] w].
    by apply (Write_law fd b n c f h).
  - intros fd f h. apply (call_at f h _ (λ r f' h', (f' = f ∧ h' = delete fd h) ∧
      match r with Panic _ => False | _ => True end)).
    eapply triple_conseq; [apply (Close_law fd f h)|done|]. by intros r s (? & ? & ?).
  - intros n f h. apply (call_at f h _ (λ r f' h', (f' = f ∨ f' = delete n f) ∧ h' = h ∧
      match r with Panic _ => False | _ => True end)).
    apply (Remove_law ss n f h).
Qed.

(** *** One attempt: the temporary file [tmp], open as [fd] *)

Context (f : gmap bytes bytes) (h : gmap handle (bytes * Z)) (tmp : bytes) (fd : handle).
Hypothesis tmp_free : f !! tmp = None.
Hypothesis fd_free : h !! fd = None.
Local Abbreviation filled := (filled files_of handles_of sole f h tmp fd).
Local Abbreviation attempted target := (attempted files_of handles_of f h (temporary_of target) target).

(** The rename, and what follows its failure. *)
Lemma publish_spec ss p target content source :
  temporary_of target tmp → ReadAll source = (content, None) →
  triple (at_state (<[tmp := content]> f) h)
    (let! renamed := attempt (call
       ((if atomicRename then rPosixRename R else rRename R) ss tmp target)) in
     match renamed with
     | inr err =>
         do! ignored (call (rRemove R ss tmp)) in
         throw (mapError p err)
     | inl _ => ret tt
     end)
    (λ r w, handles (remote w) = h ∧
       match r with
       | Ok _ => published target (reads source) f (files (remote w))
       | Err _ => untouched_or_left (temporary_of target) f (files (remote w)) ∨
                  published target (reads source) f (files (remote w))
       | Panic _ => False
       end).
Proof.
  intros Htmp Hsrc. set (f1 := <[tmp := content]> f).
  assert (Hren : ∀ f', renamed tmp target f1 f' → f' = <[target := content]> f).
  { intros f' (c & Hc & ->). unfold f1 in *. rewrite lookup_insert_eq in Hc. simplify_eq.
    by rewrite delete_insert_id. }
  apply (triple_bind _ (λ x w, handles (remote w) = h ∧
    match x with
    | inl _ => files (remote w) = <[target := content]> f
    | inr _ => files (remote w) = f1 ∨ files (remote w) = <[target := content]> f
    end)).
  - eapply triple_attempt.
    + apply (call_at f1 h _ (λ r f' h', h' = h ∧ match r with
        | Ok _ => renamed tmp target f1 f'
        | Err _ => f' = f1 ∨ renamed tmp target f1 f'
        | Panic _ => False end)).
      apply (Rename_law atomicRename ss tmp target f1 h). unfold f1. by rewrite lookup_insert_eq.
    + intros w. simpl. split_and!; naive_solver.
  - intros [[]|err].
    + apply triple_ret. intros w [? ?]. split; [done|]. by exists content.
    + eapply triple_after_ignored; [|apply triple_throw; intros w Hw; exact Hw].
      apply (call_any (λ f' h', h' = h ∧ (f' = f1 ∨ f' = <[target := content]> f)) _
        (λ r f' h', (h' = h ∧ (untouched_or_left (temporary_of target) f f' ∨ published target (reads source) f f')) ∧
           match r with Panic _ => False | _ => True end)).
      intros f' h' [-> Hf']. eapply triple_conseq; [apply (Remove_law ss tmp f' h)|done|].
      intros r s (Hf & Hh & Hr). split; [split; [done|]|done].
      destruct Hf' as [->| ->]; destruct Hf as [->| ->].
      * left. by apply (agree_off_untouched _ tmp); [..|apply agree_off_insert].
      * left. by apply (agree_off_untouched _ tmp); [..|apply agree_off_delete, agree_off_insert].
      * right. by exists content.
      * destruct (decide (tmp = target)) as [->|Hne].
        -- left. left. by rewrite delete_insert_id.
        -- right. exists content. split; [done|].
           by rewrite delete_insert_ne, delete_id.
Qed.

Lemma write_file_spec ctx ss p target source fuel :
  temporary_of target tmp → (length source < fuel)%nat →
  triple (filled [])
    (write_file a AsUnsupportedStatus fuel list_Read ctx ss p target tmp fd source)
    (attempted target (reads source)).
Proof.
  intros Ht Hfuel. pose proof (sftp_file_laws ss) as L. unfold write_file.
  assert (Hclean : ∀ err, triple (opened files_of handles_of f h tmp fd)
    (do! (do! ignored (call (fClose F fd)) in ignored (call (rRemove R ss tmp))) in throw (A:=unit) err)
    (attempted target (reads source))).
  { intros err. eapply fail_attempted; [done..|]. by apply (cleanup_released _ _ _ _ _ _ L). }
  apply (triple_bind _ (λ x w, match x.1 with
    | None => filled (ReadAll source).1 w ∧ (ReadAll source).2 = None
    | Some _ => opened files_of handles_of f h tmp fd w end)).
  { eapply triple_conseq; [by apply (copy_filled _ _ _ _ _ _ L)|done|].
    intros [[[e|] ?]| |] w; try done. by intros (b & -> & Hw). }
  intros [[err|] ?]; cbn [fst]; [apply Hclean|].
  apply triple_pure. intros Hnone. destruct (ReadAll source) as [content e] eqn:Hsrc.
  simpl in Hnone. subst e. cbn [fst].
  apply (triple_bind _ (λ _, filled content)); [by intros t w Hw|]. intros [err|].
  { eapply triple_conseq; [apply Hclean|intros w; apply filled_opened|done]. }
  apply (triple_bind _ (λ _, filled content)).
  { eapply triple_attempt.
    - eapply triple_conseq; [|by intros w [Hw _]; exact Hw|by intros r w Hr; exact Hr].
      apply (at_silent _ _ _ (silent_Sync fd)).
    - intros w. simpl. unfold Publish.filled. naive_solver. }
  intros synced. case_match.
  { eapply triple_conseq; [apply Hclean|intros w; apply filled_opened|done]. }
  apply (triple_bind _ (λ _, at_state (<[tmp := content]> f) h)).
  { eapply triple_attempt; [by apply (close_filled _ _ _ _ _ _ L)|]. intros w. simpl. naive_solver. }
  intros [[]|err]; [by apply (publish_spec ss p target content source)|].
  eapply triple_conseq; [eapply fail_attempted; [done..|by apply (remove_then_fail _ _ _ _ _ _ L)]| |done].
  intros w [Hf Hh]. split; [rewrite Hf; apply agree_off_insert|done].
Qed.
End write.

Section publication.
Context {S : Type} {F : remoteFile S} {R : remoteSession S} {dial : connector S} {rnd : M S bytes}.
Context `{!SftpServer F R dial rnd}.
Context (root : bytes) (maxList : Z) (atomicRename : bool) (caps : CapabilitySet).
Context (AsOpError AsUnsupportedStatus : error → bool).
Local Abbreviation a := (mkAdapter F R dial rnd root maxList atomicRename caps).
Context (f : gmap bytes bytes) (h : gmap handle (bytes * Z)) (source : reader).
Local Abbreviation files_of := (λ w : sftp_world S, files (remote w)).
Local Abbreviation handles_of := (λ w : sftp_world S, handles (remote w)).
Local Abbreviation at_state := (at_state files_of handles_of).
Local Abbreviation sole := (λ (_ : bytes) (_ : sftp_world S), True).
Local Abbreviation filled := (filled files_of handles_of sole).
Local Abbreviation attempted f h target :=
  (attempted files_of handles_of f h (temporary_of target) target).

Local Hint Resolve at_silent at_currentSession silent_Stat silent_Lstat silent_MkdirAll : keeps.

(** Failing before anything was created. *)
Lemma untouched_attempted {A : Type} target w :
  at_state f h w →
  (∀ e, attempted f h target (reads source) (Err (A:=A) e) w) ∧
  (False → ∀ msg, attempted f h target (reads source) (Panic (A:=A) msg) w).
Proof. intros [Hf Hh]. split; [|done]. intros e. split; [done|]. by left; left. Qed.

Lemma temporaryPath_spec target :
  triple (at_state f h) (temporaryPath a (path_Dir target))
    (λ r w, at_state f h w ∧
       match r with Ok tmp => temporary_of target tmp | Err _ => True | Panic _ => False end).
Proof.
  apply (triple_bind _ (λ _, at_state f h)).
  - eapply triple_attempt; [apply (at_silent _ _ _ silent_random)|]. intros w. simpl. naive_solver.
  - intros [random|err]; [apply triple_ret|by apply triple_throw].
    intros w Hw. split; [done|]. by exists random.
Qed.

Lemma create_spec ss p target tmp :
  temporary_of target tmp →
  triple (at_state f h) (mapped p (call (rOpenFile R ss tmp [O_WRONLY; O_CREATE; O_EXCL])))
    (λ r w, match r with
            | Ok fd => f !! tmp = None ∧ h !! fd = None ∧ filled f h tmp fd [] w
            | Err e => attempted f h target (reads source) (Err (A:=unit) e) w
            | Panic _ => False
            end).
Proof.
  intros Ht. apply (triple_bind _ (λ x w, match x with
    | inl fd => f !! tmp = None ∧ h !! fd = None ∧ filled f h tmp fd [] w
    | inr e => ∀ e, attempted f h target (reads source) (Err (A:=unit) e) w
    end)).
  - eapply triple_attempt.
    + apply (call_at f h _ (λ r f' h', match r with
        | Ok fd => f !! tmp = None ∧ f' = <[tmp := []]> f ∧ h !! fd = None ∧ h' = <[fd := (tmp, 0)]> h
        | Err _ => h' = h ∧ (f' = f ∨ (f !! tmp = None ∧ f' = <[tmp := []]> f))
        | Panic _ => False end)).
      apply (Create_law ss tmp f h).
    + intros w. split_and!; [|intros _ [Hh Hf] e; split; [done|left]|done].
      * intros fd (? & Hf & ? & Hh). by repeat split.
      * destruct Hf as [->|[Hn ->]]; [by left|].
        by apply (agree_off_untouched _ tmp); [..|apply agree_off_insert].
  - intros [fd|e]; [by apply triple_ret|by apply triple_throw].
Qed.

Lemma Write_spec ctx p options fuel :
  (length source < fuel)%nat →
  triple (at_state f h)
    (Write a AsOpError AsUnsupportedStatus fuel list_Read ctx p source options)
    (attempted f h (remotePath a p) (reads source)).
Proof.
  intros Hfuel. unfold Write.
  destruct (IsRoot p); [apply triple_throw; intros; by apply untouched_attempted|].
  destruct (wIfNoneMatch options); [apply triple_throw; intros; by apply untouched_attempted|].
  do 5 (apply (triple_keeps_bind False);
    [solve [keeps_sftp]|intros w Hw; by apply untouched_attempted|intros ?]).
  apply (triple_bind _ (λ tmp w, at_state f h w ∧ temporary_of (remotePath a p) tmp)).
  { eapply triple_conseq; [apply temporaryPath_spec|done|].
    intros [] w [Hw ?]; try done. by apply untouched_attempted. }
  intros tmp. apply triple_pure. intros Ht.
  apply (triple_bind _ (λ fd w, filled f h tmp fd [] w ∧ (f !! tmp = None ∧ h !! fd = None))).
  { eapply triple_conseq; [by apply create_spec|done|]. intros [fd| |] w; [|done..]. naive_solver. }
  intros fd. apply triple_pure. intros [Hn Hfd].
  apply (triple_bind _ (λ _ w, handles (remote w) = h ∧
    published (remotePath a p) (reads source) f (files (remote w)))).
  { eapply triple_conseq; [by apply write_file_spec|done|]. by intros [] w. }
  intros _ t w [Hh Hp].
  destruct (at_Stat root maxList atomicRename caps AsOpError (files (remote w)) h ctx p t w)
    as [[Hf' Hh'] Hr]; [done|].
  split; [done|]. rewrite Hf'. by destruct (run_result _ t w); [|right|].
Qed.
End publication.

(** C15: Publication is atomic, for every server that meets [SftpServer]: whatever
    fails or is cancelled and at whatever step, a write ends, leaves no remote
    handle open, and leaves the remote files in one of three states: exactly as
    they were; as they were with one temporary file more beside the target, under
    a name that was free; or as they were with the target holding the whole
    source.  A write that reports success left the third. *)
Theorem sftp_Write_atomic {S} (F : remoteFile S) R dial rnd `{!SftpServer F R dial rnd}
    root maxList atomicRename caps AsOpError AsUnsupportedStatus ctx p source options t w :
  let a := mkAdapter F R dial rnd root maxList atomicRename caps in
  let target := remotePath a p in
  let '(r, (_, w')) := Write a AsOpError AsUnsupportedStatus (1 + length source) list_Read ctx p
                         source options t w in
  let f := files (remote w) in
  let f' := files (remote w') in
  handles (remote w') = handles (remote w) ∧
  match r with
  | Ok _ => published target (reads source) f f'
  | Err _ => f' = f ∨
             (∃ tmp c, temporary_of target tmp ∧ f !! tmp = None ∧ f' = <[tmp := c]> f) ∨
             published target (reads source) f f'
  | Panic _ => False
  end.
Proof.
  intros a target.
  pose proof (Write_spec root maxList atomicRename caps AsOpError AsUnsupportedStatus
    (files (remote w)) (handles (remote w)) source ctx p options (1 + length source)) as H.
  specialize (H ltac:(lia) t w ltac:(done)). unfold run_result, run_state in H. fold a in H.
  destruct (Write a _ _ _ _ _ _ _ _ t w) as [[] [t' w']]; destruct H as [Hh Hr]; (split; [done|]);
    [done| |done]. destruct Hr as [[?|?]|?]; auto.
Qed.
