(* ===== verification/SftpSpec.v ===== *)
(** * Listings of the SFTP adapter

    The bounded walk of a listing; the ownership of connections is in [SftpSessions.v]
    and the atomic publication of a write in [SftpWrite.v]. *)

From S2P Require Import Prelude GoStrings Errors Effects Hoare Paths Capability Contracts Iterator Digest FileInfo Remote RemoteNames Walk Sftp.

(** ** Listing *)

Lemma call_returns {S A} (m : M S A) : returns m → returns (call (Sess:=session) m).
Proof. intros H. apply (triple_call _ _ _ H). Qed.

Lemma rejectSymlinks_returns {S} (a : Adapter S) session p final :
  (∀ name, returns (rLstat (sessions_api a) session name)) →
  returns (rejectSymlinks a session p final).
Proof.
  intros H. unfold rejectSymlinks. induction (link_candidates a p final) as [|c cs IH]; simpl;
    [by apply triple_ret|].
  apply (triple_bind _ (λ _ _, True)).
  - eapply triple_attempt; [apply call_returns, H|]. intros w. simpl. auto.
  - intros [info|e]; case_match; try done; by (apply triple_throw || apply triple_ret).
Qed.

(** C26: A listing is bounded and confined, whatever the server answers: for a
    positive limit the walk ends after at most [limit + 1] directories (the fuel
    of the model is never exhausted, so no panic), and a listing that succeeds
    is sorted by path, has at most [limit] entries, and every entry is a
    well-formed path strictly below the listed directory, also when the server
    sends names with separators or parent segments. *)
Theorem list_walk_bounded {S} (a : Adapter S) ctx session directory options t w :
  wf_path directory → 0 < maxList a → 0 ≤ Limit options →
  (∀ session ctx name,
     returns (rReadDirContext (sessions_api a) session ctx name) ∧
     returns (rLstat (sessions_api a) session name)) →
  let limit := effectiveListLimit (Limit options) (maxList a) in
  match run_result (list_entries a ctx session directory (Recursive options) limit) t w with
  | Ok entries =>
      Sorted (key_le (λ e, value (ePath e))) entries ∧ len entries ≤ limit ∧
      Forall (λ e, below directory (ePath e)) entries
  | Err _ => True
  | Panic _ => False
  end.
Proof.
  intros Hd Hmax Hl Hret limit.
  assert (Hlim : 0 < limit) by (unfold limit, effectiveListLimit; case_match; lia).
  apply (triple_bind (λ _, True) (λ _ _, True) (λ r _, listed directory limit r)
    (if negb (IsRoot directory) then rejectSymlinks a session directory true else ret tt)); [| |done].
  - destruct (negb (IsRoot directory)); [|by apply triple_ret].
    eapply triple_conseq; [apply rejectSymlinks_returns; intros; by apply Hret|done|].
    by intros [] s.
  - intros _ t' w' _. apply walk_bounded; [|done..]. intros p. by apply call_returns, Hret.
Qed.
