(* ===== verification/SftpMem.v ===== *)
(** * A server that meets [SftpServer] and [SftpTransport]

    An SFTP server without directories that keeps its files in memory, reached through
    [dial] and [realSession], and the properties of [SftpSessions.v], [SftpNames.v],
    [SftpWrite.v] and [SftpSpec.v] at it. *)

From S2P Require Import Prelude GoStrings Errors Effects Hoare Paths Capability Contracts Iterator Digest FileInfo Remote RemoteNames Publish Walk Sftp SftpServer SftpSessions SftpNames SftpWrite SftpSpec.

Record server := mkServer {
  sfiles : gmap bytes bytes;
  shandles : gmap handle (bytes * Z);
  slive : gset Z;
}.

Definition not_exist : error := Sentinel FsErrNotExist.
Definition info (n c : bytes) : FileInfo := mkFileInfo (path_Base n) (len c) 0x1a4 0.

Definition s_stat (n : bytes) : M server FileInfo :=
  let! s := get in
  match sfiles s !! n with Some c => ret (info n c) | None => throw not_exist end.

(** Open [n], holding [c], under a new handle. *)
Definition s_open (n c : bytes) : M server handle :=
  let! s := get in
  let fd := fresh (dom (shandles s)) in
  do! put (mkServer (<[n := c]> (sfiles s)) (<[fd := (n, 0)]> (shandles s)) (slive s)) in
  ret fd.

Definition s_rename (replace : bool) (old new : bytes) : M server unit :=
  let! s := get in
  match sfiles s !! old with
  | None => throw not_exist
  | Some c =>
      if negb replace && bool_decide (is_Some (sfiles s !! new)) then throw (Sentinel FsErrExist)
      else put (mkServer (<[new := c]> (delete old (sfiles s))) (shandles s) (slive s))
  end.

Definition s_client : sftpClient server := {|
  cOpen _ n :=
    let! s := get in
    match sfiles s !! n with Some c => s_open n c | None => throw not_exist end;
  cOpenFile _ n _ :=
    let! s := get in
    match sfiles s !! n with Some _ => throw (Sentinel FsErrExist) | None => s_open n [] end;
  cStat _ := s_stat;
  cLstat _ := s_stat;
  cReadDirContext _ _ _ :=
    let! s := get in ret ((λ x, info x.1 x.2) <$> map_to_list (sfiles s));
  cRemove _ n :=
    let! s := get in put (mkServer (delete n (sfiles s)) (shandles s) (slive s));
  cMkdirAll _ _ := ret tt;
  cRename _ := s_rename false;
  cPosixRename _ := s_rename true;
  cHasExtension _ n _ := bool_decide (n = posixRenameExtension);
|}.

(** A client is known by the number of its connection.  *)
Definition s_hangup (c : Z) : M server unit :=
  let! s := get in put (mkServer (sfiles s) (shandles s) (slive s ∖ {[c]})).

Definition s_transport : Transport server := {|
  DialContext _ _ _ :=
    let! s := get in
    let c := fresh (slive s) in
    do! put (mkServer (sfiles s) (shandles s) ({[c]} ∪ slive s)) in ret c;
  NewClientConn _ c _ _ := ret c;
  NewClient _ c := ret c;
  conn_Close := s_hangup;
  ssh_Close := s_hangup;
  sftp_Close _ := ret tt;
|}.

Definition sessions : remoteSession server := realSession s_transport s_client.

Definition set_handle (fd : handle) (x : bytes * Z) : M server unit :=
  let! s := get in put (mkServer (sfiles s) (<[fd := x]> (shandles s)) (slive s)).

(** Run [k] on the name and the offset of an open handle. *)
Definition with_handle {A} (fd : handle) (k : bytes → Z → M server A) : M server A :=
  let! s := get in
  match shandles s !! fd with
  | Some (n, off) => k n off
  | None => throw (Sentinel FsErrClosed)
  end.

Definition remote_files : remoteFile server := {|
  fRead fd count := with_handle fd (λ n off,
    let! s := get in
    let chunk := take (Z.to_nat count) (drop (Z.to_nat off) (default [] (sfiles s !! n))) in
    do! set_handle fd (n, off + len chunk) in
    ret (chunk, match chunk with [] => Some (Sentinel EOF) | _ => None end));
  fWrite fd b := with_handle fd (λ n off,
    let! s := get in
    let c := default [] (sfiles s !! n) in
    let c' := take (Z.to_nat off) c ++ b ++ drop (Z.to_nat off + length b) c in
    do! put (mkServer (<[n := c']> (sfiles s)) (shandles s) (slive s)) in
    set_handle fd (n, off + len b));
  fClose fd := let! s := get in put (mkServer (sfiles s) (delete fd (shandles s)) (slive s));
  fSeek fd to := with_handle fd (λ n _, set_handle fd (n, to));
  fSync _ := throw (Sentinel ErrSSHFxOpUnsupported);
|}.

Definition s_dial : connector server :=
  dial s_transport (bs "sftp.example:22") (mkClientConfig (bs "user") [AuthSome 0] (Some 0) 0).

Definition s_random : M server bytes := ret (replicate 16 Ascii.zero).

Lemma fresh_handle (h : gmap handle (bytes * Z)) : h !! fresh (dom h) = None.
Proof. apply not_elem_of_dom, is_fresh. Qed.

(** Evaluate a law at a state: split on what the call does. *)
Local Ltac law :=
  intros; unfold calm, keeps, triple; intros; destruct_and?; subst;
  unfold run_result, run_state, sessions, realSession, s_client, s_transport, s_hangup, remote_files,
    with_handle, set_handle, s_open, s_rename, s_stat, s_random, bind, get, put, ret, throw, renamed in *; simpl in *;
  repeat (case_match; simplify_eq/=); split_and?; try done; naive_solver (eauto using fresh_handle).

#[export] Program Instance mem_SftpTransport :
  SftpTransport s_transport s_client remote_files s_random := {|
  live := slive;
  carrier c := c;
|}.
Solve Obligations with try law.
Next Obligation. intros ctx timeout address l t s Hl. simpl. set_solver. Qed.
Next Obligation. intros c l t s Hl. split; [simpl; set_solver|done]. Qed.
Next Obligation. intros c l t s Hl. split; [simpl; set_solver|done]. Qed.

Local Abbreviation at_server f h := (λ s : server, sfiles s = f ∧ shandles s = h).
Lemma s_dial_silent ctx f h : keeps False (at_server f h) (s_dial ctx).
Proof. apply keeps_dial; law. Qed.
Lemma s_close_silent ss f h : keeps False (at_server f h) (rClose sessions ss).
Proof. apply keeps_realSession_Close; law. Qed.

#[export] Program Instance mem_SftpServer : SftpServer remote_files sessions s_dial s_random := {|
  files := sfiles;
  handles := shandles;
  silent_Dial := s_dial_silent;
  silent_CloseSession := s_close_silent;
|}.
Solve Obligations with try law.
Next Obligation.
  intros fd b n c f h Hfd Hn t s (<- & <-).
  unfold run_result, run_state, fWrite, remote_files, with_handle, set_handle, bind, get, put.
  cbn beta iota. rewrite Hfd. cbn beta iota. rewrite Hn. simpl. unfold len. rewrite Nat2Z.id, firstn_all, drop_ge by lia.
  rewrite app_nil_r, length_app, Nat2Z.inj_add. auto.
Qed.

(** ** The properties at this server *)

Definition demo_files : gmap bytes bytes := {[bs "/srv/docs/a.txt" := bs "old"]}.
Definition demo_server : server := mkServer demo_files ∅ ∅.
Definition demo_path : Path := mkPath (bs "docs/a.txt").
Definition demo_adapter : Adapter server :=
  mkAdapter remote_files sessions s_dial s_random (bs "/srv") 10 true (mkCapabilitySet [] ∅).
Definition no_error (e : error) : bool := false.

(** Replacing a file: the write succeeds and the theorem gives its effect. *)
Lemma sftp_Write_atomic_witness :
  let write := Write demo_adapter no_error no_error 3 list_Read Background demo_path
                 [(bs "hel", None); (bs "lo", None)] (mkWriteOptions [] None [] false) in
  let w := mkWorld demo_server None false in
  is_ok (run_result write 0 w) = true ∧
  sfiles (remote (run_state write 0 w)) = {[bs "/srv/docs/a.txt" := bs "hello"]} ∧
  shandles (remote (run_state write 0 w)) = ∅.
Proof.
  intros write w.
  assert (Hok : is_ok (run_result write 0 w) = true) by (vm_compute; reflexivity).
  split; [exact Hok|].
  pose proof (sftp_Write_atomic remote_files sessions s_dial s_random (bs "/srv") 10 true
    (mkCapabilitySet [] ∅) no_error no_error Background demo_path [(bs "hel", None); (bs "lo", None)]
    (mkWriteOptions [] None [] false) 0 w) as H.
  change (Write _ _ _ _ _ _ _ _ _) with write in H. unfold run_result, run_state in *.
  destruct (write 0 w) as [[m|e|msg] [t' w']]; [|discriminate Hok..].
  destruct H as [Hh (content & Hc & Hf)]. injection Hc as <-.
  split; [etransitivity; [exact Hf|vm_compute; reflexivity]|exact Hh].
Defined.

Definition demo_config : Config :=
  mkConfig (bs "sftp.example:22") (bs "user") [AuthSome 0] (Some 0) (bs "/srv") true 0 10.

(** A session dialled, used, closed, and not dialled again. *)
Lemma sessions_owned_witness :
  live (SftpTransport:=mem_SftpTransport) demo_server = ∅ ∧
  match OpenAdapter s_transport s_client remote_files s_random (Some Background) demo_config 0 demo_server with
  | (Ok (a, ss), (t', s')) =>
      let requests := [(Background, RStat demo_path); (Background, RClose);
                       (Background, RStat demo_path)] in
      let '(res, (_, w)) := perform_all a no_error no_error requests t' (new_world ss s') in
      slive s' = {[ss.2]} ∧ res = Ok tt ∧ adapter_closed w = true ∧ slive (remote w) = ∅
  | _ => False
  end.
Proof.
  split; [reflexivity|].
  set (requests := [(Background, RStat demo_path); (Background, RClose); (Background, RStat demo_path)]).
  assert (Hres : match OpenAdapter s_transport s_client remote_files s_random (Some Background) demo_config 0
                         demo_server with
                 | (Ok (a, ss), (t', s')) =>
                     slive s' = {[ss.2]} ∧
                     (perform_all a no_error no_error requests t' (new_world ss s')).1 = Ok tt
                 | _ => False
                 end) by (split; vm_compute; reflexivity).
  pose proof (sessions_owned s_transport s_client remote_files s_random no_error no_error (Some Background)
    demo_config 0 demo_server eq_refl) as H.
  destruct (OpenAdapter _ _ _ _ _ _ _ _) as [[[a ss]|e|msg] [t' s']]; [|destruct Hres..].
  specialize (H requests). cbn zeta.
  destruct (perform_all a no_error no_error requests t' (new_world ss s')) as [res [t'' w]].
  simpl in Hres. destruct Hres as [Hl ->]. destruct H as [_ H]. split; [exact Hl|]. split; [reflexivity|].
  apply H; [reflexivity|].
  exists Background. apply elem_of_cons; right; apply elem_of_cons; left; reflexivity.
Defined.

(** The names noted by a sequence of requests over this server. *)
Definition names_of (requests : list (context * request)) : list bytes :=
  match OpenAdapter (noting_transport s_transport) (noting_client s_client) (noting_files remote_files)
          (noting [] s_random) (Some Background) demo_config 0 ([], demo_server) with
  | (Ok (a, ss), (t', st)) =>
      (remote (run_state (perform_all a no_error no_error requests) t' (new_world ss st))).1
  | _ => []
  end.

Definition demo_requests : list (context * request) :=
  [(Background, RStat demo_path);
   (Background, RWrite demo_path [(bs "new", None)] (mkWriteOptions [] None [] false));
   (Background, RList Root (mkListOptions true 0))].

(** A stat, a write through its temporary file and a recursive listing. *)
Lemma sftp_names_confined_witness :
  names_of demo_requests =
    bs <$> ["/srv/docs"; "/srv/docs/a.txt"; "/srv/docs"; "/srv/docs/a.txt"; "/srv/docs";
            "/srv/docs/.filesystem-00000000000000000000000000000000.tmp";
            "/srv/docs/.filesystem-00000000000000000000000000000000.tmp"; "/srv/docs/a.txt";
            "/srv/docs"; "/srv/docs/a.txt"; "/srv"]%string ∧
  ∃ rs, bs "/srv" = abs_name rs ∧ Forall (inside rs) (names_of demo_requests).
Proof.
  split; [vm_compute; reflexivity|]. unfold names_of.
  pose proof (sftp_names_confined s_transport s_client remote_files s_random no_error no_error
    (Some Background) demo_config 0 demo_server) as H.
  assert (Hok : match OpenAdapter (noting_transport s_transport) (noting_client s_client)
      (noting_files remote_files) (noting [] s_random) (Some Background) demo_config 0 ([], demo_server) with
      | (Ok (a, _), _) => root a = bs "/srv" | _ => False end) by (vm_compute; reflexivity).
  destruct (OpenAdapter _ _ _ _ _ _ _ _) as [[[a ss]|e|msg] [t' st]]; [|destruct Hok..].
  destruct H as (rs & _ & Hroot & _ & H). exists rs. split; [rewrite <- Hok; exact Hroot|].
  assert (Hrq : Forall (λ x : context * request, confined_request x.2) demo_requests).
  { repeat apply Forall_cons_2; [decide_now..|exact wf_Root|apply Forall_nil_2]. }
  specialize (H demo_requests Hrq). unfold run_state.
  destruct (perform_all _ _ _ _ _ _) as [res [t'' w]]. exact H.
Defined.

(** A move to the root makes the directory above the root first. *)
Lemma Move_to_root_above :
  names_of [(Background, RMove demo_path Root (mkMoveOptions true))] =
    bs <$> ["/srv/docs"; "/"; "/srv/docs/a.txt"; "/srv"]%string ∧
  ¬ inside [bs "srv"] (bs "/").
Proof.
  split; [vm_compute; reflexivity|]. intros (segs & _ & Heq). destruct segs; discriminate Heq.
Qed.

(** A flat listing with a limit below the number of files. *)
Lemma list_walk_bounded_witness :
  let w := mkWorld (mkServer {[bs "/srv/a" := []; bs "/srv/c" := []; bs "/srv/b" := []]} ∅ ∅)
             None false in
  let list := list_entries demo_adapter Background (0, 0) Root false 2 in
  is_ok (run_result list 0 w) = true ∧
  match run_result list 0 w with
  | Ok entries => Sorted (key_le (λ e, value (ePath e))) entries ∧ len entries ≤ 2 ∧
                  Forall (λ e, below Root (ePath e)) entries
  | Err _ => True
  | Panic _ => False
  end.
Proof.
  intros w list. split; [vm_compute; reflexivity|].
  apply (list_walk_bounded demo_adapter Background (0, 0) Root (mkListOptions false 2) 0 w).
  - apply wf_Root.
  - simpl. lia.
  - simpl. lia.
  - intros ss ctx name. split; intros t s _; [exact I|].
    unfold run_result. simpl. unfold s_stat, bind, get. destruct (sfiles s !! name); exact I.
Defined.
