(* ===== verification/Ftp.v ===== *)
(** * The FTP adapter: [ftp/ftp.go]

    The FTP client library is not part of the repository: its client is a record
    of operations over a remote state.  Everything the package decides is defined
    here: the policy that [Open] enforces, the connection attempt that a context
    may abandon and that then ends in the background, the entries read from machine or legacy listings, the serialised
    session, link checks, directory creation, publication by rename, listing and
    the classification of errors.

    The operation mutex serialises whole operations, so one operation is one
    computation over the [world] of [Remote.v].  What follows [Open] - the
    transfer that fills a pipe while the mutex stays held - is [FtpStream.v]. *)

From S2P Require Import Prelude GoStrings Errors Effects Paths Capability Contracts Iterator Digest Remote RemoteNames Walk.

(** ** The client library *)

Inductive protocol_option := WithTimeout (timeout : Z) | WithActiveMode | WithDisableEPSV.

(** [*protocol.MLEntry] and [*protocol.Entry]. *)
Record MLEntry := mkMLEntry { mlName : bytes; mlSize : Z; mlModTime : Z; mlType : bytes }.
Record ListEntry := mkListEntry { leName : bytes; leSize : Z; leType : bytes }.

(** [type protocolClient interface], with the calls [connect] makes; a client is
    known by a number.  [cStore] reads its source with the function it is given. *)
Record protocolClient (S : Type) := mkProtocolClient {
  cDial : bytes → list protocol_option → M S Z;
  cLogin : Z → bytes → bytes → M S unit;
  cFeatures : Z → M S (gmap bytes bytes);
  cStore : Z → bytes → read_fn S reader → reader → M S unit;
  cMLStat : Z → bytes → M S MLEntry;
  cList : Z → bytes → M S (list ListEntry);
  cModTime : Z → bytes → M S Z;
  cMLList : Z → bytes → M S (list MLEntry);
  cMakeDir : Z → bytes → M S unit;
  cDelete : Z → bytes → M S unit;
  cRename : Z → bytes → bytes → M S unit;
  cAbort : Z → M S unit;
  cQuit : Z → M S unit;
}.
Arguments cDial {_}.
Arguments cLogin {_}.
Arguments cFeatures {_}.
Arguments cStore {_}.
Arguments cMLStat {_}.
Arguments cList {_}.
Arguments cModTime {_}.
Arguments cMLList {_}.
Arguments cMakeDir {_}.
Arguments cDelete {_}.
Arguments cRename {_}.
Arguments cAbort {_}.
Arguments cQuit {_}.

(** ** Sessions *)

Record remoteEntry := mkRemoteEntry {
  Name : bytes;
  Size : Z;
  Modified : Z;
  Directory : bool;
  Link : bool;
}.

(** [realSession]: its client and whether the server announced machine
    listings. *)
Abbreviation session := (Z * bool)%type (only parsing).
Abbreviation ftp_world S := (world (Z * bool) S) (only parsing).

(** [type remoteSession interface]; [Retrieve] is in [FtpStream.v]. *)
Record remoteSession (S : Type) := mkRemoteSession {
  rStore : session → bytes → read_fn S reader → reader → M S unit;
  rStat : session → bytes → M S remoteEntry;
  rList : session → bytes → M S (list remoteEntry);
  rMakeDir : session → bytes → M S unit;
  rDelete : session → bytes → M S unit;
  rRename : session → bytes → bytes → M S unit;
  rAbort : session → M S unit;
  rQuit : session → M S unit;
  rMachineListings : session → bool;
}.
Arguments rStore {_}.
Arguments rStat {_}.
Arguments rList {_}.
Arguments rMakeDir {_}.
Arguments rDelete {_}.
Arguments rRename {_}.
Arguments rAbort {_}.
Arguments rQuit {_}.
Arguments rMachineListings {_}.
Arguments mkRemoteSession {_}.

(** [type connector func(context.Context) (remoteSession, error)]. *)
Definition connector (S : Type) : Type := context → M S session.

Definition errFileUnavailable : error := Sentinel FtpErrFileUnavailable.

(** ** Errors *)

Section errors.
(** [AsOpError] is [errors.As] to a [*net.OpError]; [ProtocolCode] is [errors.As]
    to a [*protocol.ProtocolError] and its code. *)
Context (AsOpError : error → bool) (ProtocolCode : error → option Z).

Definition isConnectionError (err : error) : bool :=
  if Is err EOF || Is err ErrUnexpectedEOF || Is err NetErrClosed then true
  else if AsOpError err then true
  else match ProtocolCode err with
       | Some code => (code =? 421) || (code =? 425) || (code =? 426)
       | None => false
       end.

Definition isNotFound (err : error) : bool :=
  if Is err FtpErrFileUnavailable then true
  else match ProtocolCode err with Some code => code =? 550 | None => false end.

Definition mapError (logicalPath : Path) (err : error) : error :=
  if isNotFound err then Errorf "%w: %s" [Sentinel ErrNotFound] [FStr (value logicalPath)] else err.
End errors.

(** ** Real sessions *)

Definition machineEntry (entry : MLEntry) : remoteEntry :=
  mkRemoteEntry (mlName entry) (mlSize entry) (mlModTime entry)
    (bool_decide (mlType entry = bs "dir" ∨ mlType entry = bs "cdir" ∨ mlType entry = bs "pdir"))
    (bool_decide (mlType entry = bs "link")).

Definition listEntry (entry : ListEntry) (modified : Z) : remoteEntry :=
  mkRemoteEntry (leName entry) (leSize entry) modified
    (bool_decide (leType entry = bs "dir")) (bool_decide (leType entry = bs "link")).

(** The listing without the directory itself and its parent. *)
Definition machineListEntries (entries : list MLEntry) : list remoteEntry :=
  machineEntry <$> filter (λ e, ¬ (mlType e = bs "cdir" ∨ mlType e = bs "pdir")) entries.

Definition supportsMachineListings (features : gmap bytes bytes) : bool :=
  bool_decide (is_Some (features !! bs "MLST")) || bool_decide (is_Some (features !! bs "MLSD")).

Section real.
Context {S : Type} (C : protocolClient S) (ProtocolCode : error → option Z).

(** The scan of the parent's legacy listing. *)
Fixpoint find_entry (client : Z) (name base : bytes) (entries : list ListEntry) : M S remoteEntry :=
  match entries with
  | [] => throw errFileUnavailable
  | entry :: rest =>
      if decide (leName entry = base) then
        let! modified := attempt (cModTime C client name) in
        ret (listEntry entry (match modified with inl m => m | inr _ => 0 end))
      else find_entry client name base rest
  end.

Definition stat_legacy (client : Z) (name : bytes) : M S remoteEntry :=
  let parent := path_Dir name in
  let! entries := cList C client parent in
  find_entry client name (path_Base name) entries.

Definition realSession_Stat (s : session) (name : bytes) : M S remoteEntry :=
  if s.2 : bool then
    let! entry := attempt (cMLStat C s.1 name) in
    match entry with
    | inl entry => ret (machineEntry entry)
    | inr err => if isNotFound ProtocolCode err then throw err else stat_legacy s.1 name
    end
  else stat_legacy s.1 name.

Definition list_legacy (client : Z) (name : bytes) : M S (list remoteEntry) :=
  let! entries := cList C client name in
  ret ((λ entry, listEntry entry 0) <$> entries).

Definition realSession_List (s : session) (name : bytes) : M S (list remoteEntry) :=
  if s.2 : bool then
    let! entries := attempt (cMLList C s.1 name) in
    match entries with
    | inl entries => ret (machineListEntries entries)
    | inr _ => list_legacy s.1 name
    end
  else list_legacy s.1 name.

(** [*realSession] as a [remoteSession]. *)
Definition realSession : remoteSession S := {|
  rStore s := cStore C s.1;
  rStat := realSession_Stat;
  rList := realSession_List;
  rMakeDir s := cMakeDir C s.1;
  rDelete s := cDelete C s.1;
  rRename s := cRename C s.1;
  rAbort s := cAbort C s.1;
  rQuit s := cQuit C s.1;
  rMachineListings s := s.2;
|}.
End real.

(** ** Connecting *)

(** Where the goroutine of [connect] is: what it does next, or the result it sends. *)
Inductive stage :=
  | ToDial (address username password : bytes) (options : list protocol_option)
  | ToLogin (client : Z) (username password : bytes)
  | LoginFailed (client : Z) (err : error)
  | ToFeatures (client : Z)
  | Arrived (result : session + error).

(** The state with the goroutines of abandoned calls of [connect], each with the one
    that waits for its result.  [turns] is the scheduler: which of them move before each
    next call of the library; [choices] decides each [select] that finds the context
    done, in favour of the context when it says [true] or has run out. *)
Record flight (S : Type) := mkFlight {
  net : S;
  pending : list stage;
  turns : list (list nat);
  choices : list bool;
}.
Arguments net {_}.
Arguments pending {_}.
Arguments turns {_}.
Arguments choices {_}.
Arguments mkFlight {_}.

Section flight.
Context {S : Type} (C : protocolClient S).

(** A call of the library. *)
Definition on_net {A} (m : M S A) : M (flight S) A := λ t fl,
  let '(r, (t', s')) := m t (net fl) in (r, (t', mkFlight s' (pending fl) (turns fl) (choices fl))).

Definition set_pending (stages : list stage) : M (flight S) unit := λ t fl,
  (Ok tt, (t, mkFlight (net fl) stages (turns fl) (choices fl))).

(** The goroutine of [connect], by one call. *)
Definition advance (st : stage) : M S stage :=
  match st with
  | ToDial address username password options =>
      let! client := attempt (cDial C address options) in
      ret (match client with
           | inl client => ToLogin client username password
           | inr err => Arrived (inr (Errorf "ftp: connect: %w" [err] []))
           end)
  | ToLogin client username password =>
      let! login := attempt (cLogin C client username password) in
      ret (match login with inl _ => ToFeatures client | inr err => LoginFailed client err end)
  | LoginFailed client err =>
      do! ignored (cQuit C client) in
      ret (Arrived (inr (Errorf "ftp: authenticate: %w" [err] [])))
  | ToFeatures client =>
      let! features := attempt (cFeatures C client) in
      ret (Arrived (inl (client, match features with
                                 | inl features => supportsMachineListings features
                                 | inr _ => false
                                 end)))
  | Arrived result => ret st
  end.

(** An abandoned goroutine, by one call: when its result arrives, the goroutine that
    waits for it closes the session.  [None] when both have ended. *)
Definition late_step (st : stage) : M S (option stage) :=
  match st with
  | Arrived (inl session) => do! ignored (cQuit C session.1) in ret None
  | Arrived (inr _) => ret None
  | st => let! st' := advance st in ret (Some st')
  end.

Definition late (i : nat) : M (flight S) unit :=
  let! fl := get in
  match pending fl !! i with
  | None => ret tt
  | Some st =>
      let! st' := on_net (late_step st) in
      set_pending (option_list st' ++ delete i (pending fl))
  end.

Fixpoint run_late (turn : list nat) : M (flight S) unit :=
  match turn with
  | [] => ret tt
  | i :: rest => do! late i in run_late rest
  end.

(** What the scheduler lets the abandoned goroutines do. *)
Definition background : M (flight S) unit :=
  let! fl := get in
  match turns fl with
  | [] => ret tt
  | turn :: rest => do! put (mkFlight (net fl) (pending fl) rest (choices fl)) in run_late turn
  end.

Definition in_flight {A} (m : M S A) : M (flight S) A := do! background in on_net m.

Definition choose : M (flight S) bool := λ t fl,
  (Ok (default true (head (choices fl))), (t, mkFlight (net fl) (pending fl) (turns fl) (tail (choices fl)))).

(** The [select] of [connect], with the goroutine at [st]: it is left behind when the
    context is chosen.  The goroutine moves at most three times before its result
    arrives. *)
Fixpoint connect_wait (fuel : nat) (ctx : context) (st : stage) : M (flight S) session :=
  let! done := poll ctx in
  let! abandoned := match done with Some _ => choose | None => ret false end in
  match done, abandoned with
  | Some err, true =>
      let! fl := get in
      do! set_pending (pending fl ++ [st]) in
      throw err
  | _, _ =>
      match st with
      | Arrived (inl session) => ret session
      | Arrived (inr err) => throw err
      | _ =>
          match fuel with
          | O => panic "out of fuel"
          | Datatypes.S fuel' =>
              let! st' := in_flight (advance st) in
              connect_wait fuel' ctx st'
          end
      end
  end.

Definition connect (address username password : bytes) (options : list protocol_option)
    (ctx : context) : M (flight S) session :=
  connect_wait 3 ctx (ToDial address username password options).

(** A reader as the library sees it. *)
Definition lowered {X} (Read : read_fn (flight S) X) (fl : flight S) : read_fn S X := λ r n t s,
  let '(x, (t', fl')) := Read r n t (mkFlight s (pending fl) (turns fl) (choices fl)) in
  (x, (t', net fl')).

(** The client, while abandoned goroutines may use the library too. *)
Definition flying : protocolClient (flight S) := {|
  cDial address options := in_flight (cDial C address options);
  cLogin c username password := in_flight (cLogin C c username password);
  cFeatures c := in_flight (cFeatures C c);
  cStore c n rd source := do! background in let! fl := get in on_net (cStore C c n (lowered rd fl) source);
  cMLStat c n := in_flight (cMLStat C c n);
  cList c n := in_flight (cList C c n);
  cModTime c n := in_flight (cModTime C c n);
  cMLList c n := in_flight (cMLList C c n);
  cMakeDir c n := in_flight (cMakeDir C c n);
  cDelete c n := in_flight (cDelete C c n);
  cRename c old new := in_flight (cRename C c old new);
  cAbort c := in_flight (cAbort C c);
  cQuit c := in_flight (cQuit C c);
|}.
End flight.

(** ** Configuration *)

(** [TLSMode] and [DataMode] are [uint8]. *)
Definition TLSExplicit : Z := 0.
Definition TLSImplicit : Z := 1.
Definition TLSPlaintext : Z := 2.
Definition Passive : Z := 0.
Definition Active : Z := 1.

(** The fields of [tls.Config] the package reads. *)
Record TLSConfiguration := mkTLSConfiguration { InsecureSkipVerify : bool; MinVersion : Z }.

Definition VersionTLS12 : Z := 0x303.

Record Config := mkConfig {
  Address : bytes;
  Username : bytes;
  Password : bytes;
  ConfigRoot : bytes;
  AllowUnsafeSubroot : bool;
  ConfigTLSMode : Z;
  TLSConfig : option TLSConfiguration;
  AllowPlaintext : bool;
  ConfigDataMode : Z;
  DisableEPSV : bool;
  Timeout : Z;
  MaxListEntries : Z;
}.

Record Profile := mkProfile { TLSMode : Z; DataMode : Z; MachineListings : bool }.

Definition invalidTLSMinimum (version : Z) : bool :=
  negb (version =? 0) && (version <? VersionTLS12).

Definition defaultTimeout (timeout : Z) : Z :=
  if timeout =? 0 then 30 * 1000000000 else timeout.

Definition defaultMaxList (limit : Z) : Z := if limit =? 0 then 10000 else limit.

Definition effectiveListLimit (requested maximum : Z) : Z :=
  if requested =? 0 then maximum else Z.min requested maximum.

Definition validateRoot (root : bytes) : result bytes := validate_root "ftp" root.

(** ** Construction *)

(** [type Adapter struct]: the fields that never change; the others are the
    [world], and [opMu] is held by the operation that runs. *)
Record Adapter (S : Type) := mkAdapter {
  sessions_api : remoteSession S;
  dial : connector S;
  (** [io.ReadFull] of 16 bytes from the adapter's random source *)
  random16 : M S bytes;
  root : bytes;
  maxList : Z;
  profile : Profile;
  capabilities : CapabilitySet;
}.
Arguments sessions_api {_}.
Arguments dial {_}.
Arguments random16 {_}.
Arguments root {_}.
Arguments maxList {_}.
Arguments profile {_}.
Arguments capabilities {_}.
Arguments mkAdapter {_}.

Definition adapter_capabilities : list Capability :=
  [CapabilityRead; CapabilityWrite; CapabilityStreamingWrite; CapabilityDelete; CapabilityList;
   CapabilityStat].

(** [newAdapter]; the result carries the session the adapter starts with.  A nil
    context or connector is [None]. *)
Definition newAdapter {S} (R : remoteSession S) (rnd : M S bytes) (ctx : option context)
    (dial : option (connector S)) (root : bytes) (maxList : Z) (profile : Profile)
    : M S (Adapter S * session) :=
  match ctx, dial with
  | None, _ => throw (Sentinel ErrContextRequired)
  | Some _, None => throw (NewError "ftp: connector is required")
  | Some ctx, Some dial =>
      let! root := lift_result (validateRoot root) in
      if maxList <=? 0 then throw (NewError "ftp: maximum list entries must be positive")
      else
        do! check_ctx ctx in
        let! session := dial ctx in
        let! err := poll ctx in
        match err with
        | Some err => do! ignored (rQuit R session) in throw err
        | None =>
            let profile := mkProfile (TLSMode profile) (DataMode profile)
                             (MachineListings profile || rMachineListings R session) in
            let! set := lift_result (NewCapabilitySet adapter_capabilities) in
            ret (mkAdapter R dial rnd root maxList profile set, session)
        end
  end.

(** The options [Open] dials with. *)
Definition dial_options (configuration : Config) : list protocol_option :=
  [WithTimeout (defaultTimeout (Timeout configuration))] ++
  (if ConfigDataMode configuration =? Active then [WithActiveMode] else []) ++
  (if DisableEPSV configuration then [WithDisableEPSV] else []).

(** [Open] of the package: the validation of the configuration, then
    [newAdapter]. *)
Definition OpenAdapter {S} (C : protocolClient S) (ProtocolCode : error → option Z) (rnd : M S bytes)
    (ctx : option context) (configuration : Config) : M (flight S) (Adapter (flight S) * session) :=
  match ctx with
  | None => throw (Sentinel ErrContextRequired)
  | Some ctx =>
      do! check_ctx ctx in
      if blank (Address configuration) then throw (NewError "ftp: address is required")
      else if blank (Username configuration) then throw (NewError "ftp: username is required")
      else if bool_decide (Password configuration = []) then
        throw (NewError "ftp: password is required")
      else if ConfigTLSMode configuration >? TLSPlaintext then
        throw (Errorf "ftp: invalid TLS mode %d" [] [FInt (ConfigTLSMode configuration)])
      else if ConfigDataMode configuration >? Active then
        throw (Errorf "ftp: invalid data mode %d" [] [FInt (ConfigDataMode configuration)])
      else if (ConfigTLSMode configuration =? TLSPlaintext) && negb (AllowPlaintext configuration) then
        throw (NewError "ftp: plaintext credentials require explicit opt-in")
      else if negb (ConfigTLSMode configuration =? TLSPlaintext) then
        match TLSConfig configuration with
        | None => throw (NewError "ftp: TLS configuration is required")
        | Some tls =>
            if InsecureSkipVerify tls then
              throw (NewError "ftp: TLS certificate verification must be enabled")
            else if invalidTLSMinimum (MinVersion tls) then
              throw (NewError "ftp: minimum TLS version must be TLS 1.2 or newer")
            else
              throw (NewError "ftp: TLS data transfers are not supported by the pinned protocol client")
        end
      else
        let! root := lift_result (validateRoot (ConfigRoot configuration)) in
        if bool_decide (root ≠ [slash]) && negb (AllowUnsafeSubroot configuration) then
          throw (NewError "ftp: subroot requires explicit unsafe opt-in and server-side isolation")
        else if Timeout configuration <? 0 then
          throw (NewError "ftp: timeout must not be negative")
        else if MaxListEntries configuration <? 0 then
          throw (NewError "ftp: maximum list entries must be positive")
        else
          do! check_ctx ctx in
          newAdapter (realSession (flying C) ProtocolCode) (on_net rnd) (Some ctx)
            (Some (connect C (Address configuration) (Username configuration)
                     (Password configuration) (dial_options configuration)))
            root (defaultMaxList (MaxListEntries configuration))
            (mkProfile (ConfigTLSMode configuration) (ConfigDataMode configuration) false)
  end.

(** ** Operations *)

Section adapter.
Context {S : Type} (a : Adapter S) (AsOpError : error → bool) (ProtocolCode : error → option Z).
Local Abbreviation R := (sessions_api a) (only parsing).

(** [m], with a failure mapped. *)
Definition mapped {W A} (logicalPath : Path) (m : M W A) : M W A :=
  let! r := attempt m in
  match r with inl x => ret x | inr err => throw (mapError ProtocolCode logicalPath err) end.

(** *** The shared session *)

Definition abortTransfer : M (ftp_world S) unit :=
  let! w := get in
  match current_session w with
  | Some session => ignored (call (rAbort R session))
  | None => ret tt
  end.

Definition Close : M (ftp_world S) unit :=
  do! abortTransfer in
  close_adapter (rQuit R).

Definition currentSession (ctx : context) : M (ftp_world S) session := current_or_dial (dial a) ctx.

Definition invalidate (failed : session) : M (ftp_world S) unit := drop_session (rQuit R) failed.

Definition withLockedResult {T} (ctx : context) (retry : bool)
    (operation : session → M (ftp_world S) T) : M (ftp_world S) T :=
  reconnecting (dial a) (rQuit R) (isConnectionError AsOpError ProtocolCode) ctx retry operation.

Definition withLocked (ctx : context) (retry : bool) (operation : session → M (ftp_world S) unit)
    (logicalPath : Path) : M (ftp_world S) unit :=
  mapped logicalPath (withLockedResult ctx retry operation).

(** *** Names *)

Definition remotePath (logicalPath : Path) : bytes := remote_name (root a) logicalPath.

Definition link_candidates (logicalPath : Path) (includeFinal : bool) : list bytes :=
  link_names (root a) logicalPath includeFinal.

Fixpoint reject_loop (session : session) (candidates : list bytes) : M (ftp_world S) unit :=
  match candidates with
  | [] => ret tt
  | candidate :: rest =>
      let! entry := attempt (call (rStat R session candidate)) in
      match entry with
      | inr err => if isNotFound ProtocolCode err then ret tt else throw err
      | inl entry =>
          if Link entry then throw (Errorf "ftp: symbolic link %q is denied" [] [FStr candidate])
          else reject_loop session rest
      end
  end.

Definition rejectLink (session : session) (logicalPath : Path) (includeFinal : bool)
    : M (ftp_world S) unit :=
  reject_loop session (link_candidates logicalPath includeFinal).

(** The directories [makeDirectories] asks for, outermost first. *)
Fixpoint make_loop (session : session) (current : bytes) (segments : list bytes)
    : M (ftp_world S) unit :=
  match segments with
  | [] => ret tt
  | segment :: rest =>
      let current := path_Join [current; segment] in
      let! made := attempt (call (rMakeDir R session current)) in
      match made with
      | inl _ => make_loop session current rest
      | inr err =>
          let! entry := attempt (call (rStat R session current)) in
          match entry with
          | inl entry => if Directory entry then make_loop session current rest else throw err
          | inr _ => throw err
          end
      end
  end.

Definition makeDirectories (session : session) (directory : bytes) : M (ftp_world S) unit :=
  if decide (directory = [slash] ∨ directory = dot) then ret tt
  else make_loop session [slash] (Split (TrimPrefix directory [slash]) slash).

Definition temporaryPath (directory : bytes) : M (ftp_world S) bytes :=
  let! random := attempt (call (random16 a)) in
  match random with
  | inr err => throw (Errorf "ftp: generate temporary path: %w" [err] [])
  | inl random => ret (temporary_name directory random)
  end.

(** *** Reading *)

(** The closure [prepare] of [prepareOpen]; [Stat] runs the same calls. *)
Definition prepare (logicalPath : Path) (candidate : session) : M (ftp_world S) remoteEntry :=
  do! rejectLink candidate logicalPath true in
  call (rStat R candidate (remotePath logicalPath)).

Definition prepareOpen (ctx : context) (current : session) (logicalPath : Path)
    : M (ftp_world S) (session * remoteEntry) :=
  let! r := attempt (prepare logicalPath current) in
  match r with
  | inl entry => ret (current, entry)
  | inr err =>
      if negb (isConnectionError AsOpError ProtocolCode err) then throw err
      else
        do! invalidate current in
        let! s := attempt (currentSession ctx) in
        match s with
        | inr reconnectErr => throw (Joined [err; reconnectErr])
        | inl reconnected =>
            let! entry := prepare logicalPath reconnected in
            ret (reconnected, entry)
        end
  end.

(** [Open], up to the start of the transfer: the session the transfer will use.
    The operation mutex stays locked when it succeeds. *)
Definition Open (ctx : context) (logicalPath : Path) : M (ftp_world S) session :=
  do! check_ctx ctx in
  let! session := currentSession ctx in
  let! x := mapped logicalPath (prepareOpen ctx session logicalPath) in
  if Directory x.2 then
    throw (Errorf "ftp: cannot open directory %q" [] [FStr (value logicalPath)])
  else ret x.1.

Definition Stat (ctx : context) (logicalPath : Path) : M (ftp_world S) Metadata :=
  let! entry := mapped logicalPath (withLockedResult ctx true (prepare logicalPath)) in
  let kind := if Directory entry then EntryKindDirectory else EntryKindFile in
  ret (mkMetadata logicalPath kind (Size entry) (Modified entry) [] [] None []).

(** What [transfer] does after its first [Retrieve] failed: the session of the
    one replay, or the error that stands. *)
Definition retry_transfer (ctx : context) (current : session) (err : error) (wroteAny : bool)
    : M (ftp_world S) (session + error) :=
  if negb (isConnectionError AsOpError ProtocolCode err) || wroteAny then ret (inr err)
  else
    let! done := poll ctx in
    match done with
    | Some _ => ret (inr err)
    | None =>
        do! invalidate current in
        let! s := attempt (currentSession ctx) in
        match s with
        | inl reconnected => ret (inl reconnected)
        | inr reconnectErr => ret (inr (Joined [err; reconnectErr]))
        end
    end.

(** *** Writing *)

(** The temporary file: fill it, then give it the destination's name. *)
Definition write_temporary (ctx : context) (session : session) (temporary destination : bytes)
    (source : reader) : M (ftp_world S) unit :=
  let! stored := attempt (call (rStore R session temporary (context_Read ctx list_Read) source)) in
  match stored with
  | inr err => do! ignored (call (rDelete R session temporary)) in throw err
  | inl _ =>
      let! done := poll ctx in
      match done with
      | Some err => do! ignored (call (rDelete R session temporary)) in throw err
      | None =>
          let! renamed := attempt (call (rRename R session temporary destination)) in
          match renamed with
          | inr err => do! ignored (call (rDelete R session temporary)) in throw err
          | inl _ => ret tt
          end
      end
  end.

Definition write (ctx : context) (session : session) (logicalPath : Path) (source : reader)
    : M (ftp_world S) unit :=
  do! rejectLink session logicalPath false in
  let destination := remotePath logicalPath in
  let! existing := attempt (call (rStat R session destination)) in
  match existing with
  | inl _ => throw (Unsupported (bs "ftp") CapabilityWrite OperationWrite)
  | inr err =>
      if negb (isNotFound ProtocolCode err) then throw err
      else
        do! makeDirectories session (path_Dir destination) in
        let! temporary := temporaryPath (path_Dir destination) in
        write_temporary ctx session temporary destination source
  end.

Definition Write (ctx : context) (logicalPath : Path) (source : reader) (options : WriteOptions)
    : M (ftp_world S) Metadata :=
  if IsRoot logicalPath then
    throw (Errorf "%w: object path is root" [Sentinel ErrInvalidPath] [])
  else if wIfNoneMatch options then
    throw (Unsupported (bs "ftp") CapabilityWrite OperationWrite)
  else
    do! mapped logicalPath
      (let! session := currentSession ctx in write ctx session logicalPath source) in
    Stat ctx logicalPath.

(** [OpenWriter]: the writer's consumer is [Write] on what the producer sends. *)
Definition OpenWriter (ctx : context) (logicalPath : Path) (options : WriteOptions)
    : M (ftp_world S) (writer (ftp_world S)) :=
  do! check_ctx ctx in
  if IsRoot logicalPath then
    throw (Errorf "%w: object path is root" [Sentinel ErrInvalidPath] [])
  else ret (λ source, do! Write ctx logicalPath source options in ret tt).

Definition Delete (ctx : context) (logicalPath : Path) : M (ftp_world S) unit :=
  withLocked ctx false (λ session,
    do! rejectLink session logicalPath true in
    call (rDelete R session (remotePath logicalPath))) logicalPath.

(** *** Listing *)

Definition link_denied (child : remoteEntry) : error :=
  Errorf "ftp: symbolic link %q is denied" [] [FStr (Name child)].

(** One directory of the walk: the context first, then its children. *)
Definition read_children (ctx : context) (session : session) (current : Path)
    : M (ftp_world S) (list remoteEntry) :=
  do! check_ctx ctx in
  call (rList R session (remotePath current)).

(** [list].  Every directory queued is an entry collected, and fewer than
    [limit] entries are collected before the walk stops. *)
Definition list_entries (ctx : context) (session : session) (directory : Path) (recursive : bool)
    (limit : Z) : M (ftp_world S) (list Entry) :=
  do! (if negb (IsRoot directory) then rejectLink session directory true else ret tt) in
  walk Name Link Directory Size Modified link_denied (read_children ctx session)
    (1 + Z.to_nat limit) recursive limit [directory] [].

Definition ListEntries (ctx : context) (directory : Path) (options : ListOptions)
    : M (ftp_world S) iterator :=
  if Limit options <? 0 then throw (NewError "ftp: list limit must not be negative")
  else
    let limit := effectiveListLimit (Limit options) (maxList a) in
    let! entries := mapped directory (withLockedResult ctx true (λ session,
      list_entries ctx session directory (Recursive options) limit)) in
    ret (newIterator entries).

(** *** Unsupported operations *)

Definition OpenRange (ctx : context) (path : Path) (byteRange : ByteRange)
    : M (ftp_world S) session :=
  throw (Unsupported (bs "ftp") CapabilityRangeRead OperationRangeRead).

Definition Copy (ctx : context) (source destination : Path) (options : CopyOptions)
    : M (ftp_world S) unit :=
  throw (Unsupported (bs "ftp") CapabilityCopy OperationCopy).

Definition Move (ctx : context) (source destination : Path) (options : MoveOptions)
    : M (ftp_world S) unit :=
  throw (Unsupported (bs "ftp") CapabilityMove OperationMove).

Definition SetMetadata (ctx : context) (path : Path) (metadata : stringmap) : M (ftp_world S) unit :=
  throw (Unsupported (bs "ftp") CapabilityMetadata OperationSetMetadata).

Definition ChecksumOf (ctx : context) (path : Path) (algorithm : ChecksumAlgorithm)
    : M (ftp_world S) Checksum :=
  throw (Unsupported (bs "ftp") CapabilityChecksum OperationChecksum).

Definition TemporaryURL (ctx : context) (path : Path) (lifetime : Z)
    (options : TemporaryURLOptions) : M (ftp_world S) bytes :=
  throw (Unsupported (bs "ftp") CapabilityTemporaryURL OperationTemporaryURL).

Definition VisibilityOf (ctx : context) (path : Path) : M (ftp_world S) Visibility :=
  throw (Unsupported (bs "ftp") CapabilityVisibility OperationVisibility).

Definition SetVisibility (ctx : context) (path : Path) (visibility : Visibility)
    : M (ftp_world S) unit :=
  throw (Unsupported (bs "ftp") CapabilityVisibility OperationSetVisibility).

Definition Capabilities : CapabilitySet := capabilities a.
Definition ProfileOf : Profile := profile a.
End adapter.
