(* ===== verification/FtpServer.v ===== *)
(** * What an FTP server promises

    [FtpServer] observes the contents of the regular files by name.  Its laws say what
    each call of the client library may do to them, failures included: a call that
    fails because its answer was lost may or may not have taken effect, and a rename
    that fails may have left either name in any state.  Nothing is assumed of what the
    server shows: a 550 or a listing without a name need not mean that there is no such
    file; [hides_nothing] is the promise that it does.  Other clients of the server are
    not modelled.  The connections are the subject of [FtpSessions.v].

    The package's own code between the library and the adapter ([connect],
    [realSession]) is not assumed: the laws are those of the library. *)

From S2P Require Import Prelude GoStrings Errors Effects Hoare Paths Capability Contracts Iterator Digest Remote RemoteNames Walk Ftp.

(** A reader that answers without touching the remote state. *)
Definition detached {S R} (Read : read_fn S R) : Prop :=
  ∀ r n t s, ∃ x t', Read r n t s = (Ok x, (t', s)).

(** The bytes a reader can deliver up to its end, read at any times and with any
    buffers. *)
Inductive delivers {S R} (Read : read_fn S R) : R → bytes → Prop :=
  | delivers_end r n t s chunk r' w :
      Read r n t s = (Ok (chunk, Some (Sentinel EOF), r'), w) → delivers Read r chunk
  | delivers_more r n t s chunk r' w b :
      Read r n t s = (Ok (chunk, None, r'), w) → delivers Read r' b → delivers Read r (chunk ++ b).

Class FtpServer {S} (C : protocolClient S) (rnd : M S bytes) := {
  files : S → gmap bytes bytes;

  (** a call that changes no file *)
  silent : ∀ {A}, M S A → Prop := λ A m, ∀ f, keeps False (λ s, files s = f) m;

  silent_Dial address options : silent (cDial C address options);
  silent_Login c user password : silent (cLogin C c user password);
  silent_Features c : silent (cFeatures C c);
  silent_MLStat c n : silent (cMLStat C c n);
  silent_List c d : silent (cList C c d);
  silent_ModTime c n : silent (cModTime C c n);
  silent_MLList c n : silent (cMLList C c n);
  silent_MakeDir c n : silent (cMakeDir C c n);
  silent_Abort c : silent (cAbort C c);
  silent_Quit c : silent (cQuit C c);
  silent_random : silent rnd;

  (** storing reads its source to the end and replaces the file; a failure may
      have changed that file only *)
  Store_law c n rd (source : reader) f :
    detached rd →
    triple (λ s, files s = f) (cStore C c n rd source)
      (λ r s, match r with
        | Ok _ => ∃ b, delivers rd source b ∧ files s = <[n := b]> f
        | Err _ => agree_off n f (files s)
        | Panic _ => False
        end);

  Delete_law c n f :
    triple (λ s, files s = f) (cDelete C c n)
      (λ r s, (files s = f ∨ files s = delete n f) ∧ match r with Panic _ => False | _ => True end);

  (** a rename that succeeds has given the file its new name; one that fails may have
      changed what the two names hold, and nothing else *)
  Rename_law c old new f :
    is_Some (f !! old) →
    triple (λ s, files s = f) (cRename C c old new)
      (λ r s, match r with
        | Ok _ => renamed old new f (files s)
        | Err _ => agree_off2 old new f (files s)
        | Panic _ => False
        end);
}.

(** The server hides no file: an unavailable name is not a file, and a listing names
    every file of its directory. *)
Definition hides_nothing {S} (C : protocolClient S) (rnd : M S bytes) (ProtocolCode : error → option Z)
    `{!FtpServer C rnd} : Prop :=
  (∀ c n f, triple (λ s, files s = f) (cMLStat C c n)
     (λ r _, ∀ e, r = Err e → isNotFound ProtocolCode e = true → f !! n = None)) ∧
  (∀ c d f, triple (λ s, files s = f) (cList C c d)
     (λ r _, match r with
       | Ok entries => ∀ n, is_Some (f !! n) → path_Dir n = d → path_Base n ∈ leName <$> entries
       | Err e => isNotFound ProtocolCode e = true → ∀ n, path_Dir n = d → f !! n = None
       | Panic _ => False
       end)).

(** ** Requests *)

(** The requests of a client; [RReplay] is the replay a read stream may ask for. *)
Inductive request :=
  | ROpen (p : Path)
  | RReplay (current : session) (err : error) (wroteAny : bool)
  | RWrite (p : Path) (source : reader) (o : WriteOptions)
  | RUpload (p : Path) (source : reader) (o : WriteOptions)
  | RDelete (p : Path)
  | RStat (p : Path)
  | RList (p : Path) (o : ListOptions)
  | RAbort
  | RClose.

Section requests.
Context {S : Type} (a : Adapter S) (AsOpError : error → bool) (ProtocolCode : error → option Z).

Definition perform (ctx : context) (rq : request) : M (ftp_world S) unit :=
  ignored match rq with
  | ROpen p => ignored (Open a AsOpError ProtocolCode ctx p)
  | RReplay current err wroteAny =>
      ignored (retry_transfer a AsOpError ProtocolCode ctx current err wroteAny)
  | RWrite p source o => ignored (Write a AsOpError ProtocolCode ctx p source o)
  | RUpload p source o =>
      let! upload := OpenWriter a AsOpError ProtocolCode ctx p o in upload source
  | RDelete p => Delete a AsOpError ProtocolCode ctx p
  | RStat p => ignored (Stat a AsOpError ProtocolCode ctx p)
  | RList p o => ignored (ListEntries a AsOpError ProtocolCode ctx p o)
  | RAbort => abortTransfer a
  | RClose => Close a
  end.

Definition perform_all (requests : list (context * request)) : M (ftp_world S) unit :=
  perform_seq (λ x, perform x.1 x.2) requests.

Definition is_close (x : context * request) : bool :=
  match x.2 with RClose => true | _ => false end.
End requests.

(** ** Rules for the adapter's combinators *)

Section combinators.
Context {S : Type} (a : Adapter S) (AsOpError : error → bool) (ProtocolCode : error → option Z).
Context (panics : Prop) (P : ftp_world S → Prop).
Local Abbreviation R := (sessions_api a).

Lemma ftp_keeps_mapped {A} p (m : M (ftp_world S) A) :
  keeps panics P m → keeps panics P (mapped ProtocolCode p m).
Proof. intros Hm. unfold mapped. keeps_split. Qed.

Lemma keeps_withLockedResult {T} ctx retry (op : session → M (ftp_world S) T) :
  keeps panics P (currentSession a ctx) → (∀ ss, keeps panics P (invalidate a ss)) →
  (∀ ss, keeps panics P (op ss)) →
  keeps panics P (withLockedResult a AsOpError ProtocolCode ctx retry op).
Proof. apply keeps_reconnecting. Qed.

Lemma keeps_rejectLink ss p final :
  (∀ n, keeps panics P (call (rStat R ss n))) →
  keeps panics P (rejectLink a ProtocolCode ss p final).
Proof.
  intros. unfold rejectLink. induction (link_candidates a p final); simpl; keeps_split.
Qed.

Lemma keeps_makeDirectories ss d :
  (∀ n, keeps panics P (call (rStat R ss n))) → (∀ n, keeps panics P (call (rMakeDir R ss n))) →
  keeps panics P (makeDirectories a ss d).
Proof.
  intros. unfold makeDirectories. case_decide; [auto with keeps|].
  generalize (Split (TrimPrefix d [slash]) slash) as segments. intros segments.
  generalize [slash] as current. induction segments; intros current; simpl; keeps_split.
Qed.
End combinators.
#[export] Hint Resolve ftp_keeps_mapped keeps_withLockedResult keeps_rejectLink keeps_makeDirectories : keeps.

(** Splitting along these combinators too. *)
Ltac keeps_ftp :=
  keeps_with ltac:(apply ftp_keeps_mapped || apply keeps_withLockedResult || apply keeps_ignored ||
                   apply keeps_rejectLink || apply keeps_makeDirectories || apply keeps_context_Read).

(** ** Sessions over the library *)

Section library.
Context {S : Type} {C : protocolClient S} {rnd : M S bytes} `{!FtpServer C rnd}.
Context (ProtocolCode : error → option Z).
Local Abbreviation at_server f := (λ s, files s = f).

Create HintDb silent.
Local Hint Resolve silent_Dial silent_Login silent_Features silent_MLStat silent_List silent_ModTime
  silent_MLList silent_MakeDir silent_Abort silent_Quit silent_random : silent.

(** A library call inside a computation that keeps the files. *)
Lemma keeps_silent {A} f (m : M S A) : silent m → keeps False (at_server f) m.
Proof. intros H. apply H. Qed.
Local Hint Extern 1 (keeps _ _ _) => apply keeps_silent; solve [auto with silent] : keeps.

Lemma silent_find_entry client name base entries : silent (find_entry C client name base entries).
Proof. intros f. induction entries; simpl; keeps_split. Qed.
Local Hint Resolve silent_find_entry : silent.
Lemma silent_Stat ss n : silent (realSession_Stat C ProtocolCode ss n).
Proof. intros f. unfold realSession_Stat, stat_legacy. keeps_split. Qed.
Lemma silent_ListDir ss n : silent (realSession_List C ss n).
Proof. intros f. unfold realSession_List, list_legacy. keeps_split. Qed.

Lemma silent_advance st : silent (advance C st).
Proof. intros f. destruct st; simpl; keeps_with ltac:(apply keeps_ignored). Qed.
Local Hint Resolve silent_advance : silent.
Lemma silent_late_step st : silent (late_step C st).
Proof. intros f. destruct st as [| | | |[]]; simpl; keeps_with ltac:(apply keeps_ignored). Qed.

Lemma find_entry_absent client name base entries t s e :
  run_result (find_entry C client name base entries) t s = Err e → base ∉ leName <$> entries.
Proof.
  revert t s. induction entries as [|entry entries IH]; intros t s; [set_solver|].
  cbn [find_entry]. case_decide as Hb; [|intros H%IH; set_solver].
  unfold run_result, bind, attempt, ret. by destruct (cModTime C client name t s) as [[] []].
Qed.

(** The legacy listing misses no file. *)
Lemma stat_legacy_absent client n f :
  hides_nothing C rnd ProtocolCode →
  triple (at_server f) (stat_legacy C client n)
    (λ r s, ∀ e, r = Err e → isNotFound ProtocolCode e = true → f !! n = None).
Proof.
  intros [_ Hlist]. apply (triple_bind _ (λ entries _,
    ∀ n', is_Some (f !! n') → path_Dir n' = path_Dir n → path_Base n' ∈ leName <$> entries)).
  - eapply triple_conseq; [apply (Hlist client (path_Dir n) f)|done|].
    intros [entries|e|msg] s H; simpl; [done| |done]. intros e' [= <-] He. by apply H.
  - intros entries t s Hall e He _. apply find_entry_absent in He.
    destruct (f !! n) eqn:E; [|done]. destruct He. apply Hall; [by eexists|done].
Qed.

(** A name that [Stat] reports unavailable is not a file, with or without machine
    listings. *)
Lemma Stat_absent ss n f :
  hides_nothing C rnd ProtocolCode →
  triple (at_server f) (realSession_Stat C ProtocolCode ss n)
    (λ r s, ∀ e, r = Err e → isNotFound ProtocolCode e = true → f !! n = None).
Proof.
  intros Hvis. unfold realSession_Stat. destruct (ss.2); [|by apply stat_legacy_absent].
  apply (triple_bind _ (λ x s, at_server f s ∧
    ∀ e, x = inr e → isNotFound ProtocolCode e = true → f !! n = None)).
  - intros t s Hs. destruct (silent_MLStat ss.1 n f t s Hs) as [Hf Hp].
    pose proof (proj1 Hvis ss.1 n f t s Hs) as Ha. unfold run_result, run_state, attempt in *.
    destruct (cMLStat C ss.1 n t s) as [[x|e|msg] [t' s']]; simpl in *; [|split; [done|]|done].
    + by split.
    + intros ? [= <-]. by apply Ha.
  - intros [entry|e]; [by apply triple_ret|]. apply triple_pure. intros Habs.
    destruct (isNotFound ProtocolCode e) eqn:E; [|by apply stat_legacy_absent].
    apply triple_throw. intros s _ e' [= <-]. by apply Habs.
Qed.

End library.

Lemma detached_context_list {S} ctx : detached (S:=S) (context_Read ctx list_Read).
Proof. intros r n t s. destruct (context_list_Read ctx r n t s) as (x & -> & _). eauto. Qed.

(** ** The library while abandoned connections end *)

(** A rule for the library is one for a call beside the abandoned goroutines. *)
Lemma triple_on_net {S A} (P : S → Prop) (m : M S A) (Q : result A → S → Prop) :
  triple P m Q → triple (λ fl, P (net fl)) (on_net m) (λ r fl, Q r (net fl)).
Proof.
  intros H t fl HP. specialize (H t (net fl) HP).
  unfold run_result, run_state, on_net in *. by destruct (m t (net fl)) as [r [t' s']].
Qed.

Lemma detached_lowered {S X} (rd : read_fn (flight S) X) fl : detached rd → detached (lowered rd fl).
Proof.
  intros Hd r n t s. unfold lowered.
  destruct (Hd r n t (mkFlight s (pending fl) (turns fl) (choices fl))) as (x & t' & ->). by eexists _, _.
Qed.

Lemma delivers_lowered {S X} (rd : read_fn (flight S) X) fl r b :
  delivers (lowered rd fl) r b → delivers rd r b.
Proof.
  induction 1 as [r n t s chunk r' w H|r n t s chunk r' w b H _ IH]; unfold lowered in H;
    destruct (rd r n t _) as [x [t' fl']] eqn:Hx; injection H as -> _.
  - by eapply delivers_end.
  - by eapply delivers_more.
Qed.

(** The goroutines hand on every error: a step of one that does not panic ends well. *)
Lemma late_step_no_error {S} (C : protocolClient S) st t s e : run_result (late_step C st) t s ≠ Err e.
Proof.
  unfold run_result. destruct st as [a u p o|c u p|c e'|c|[ss|e']]; simpl;
    unfold ignored, bind, attempt, ret; try done;
    match goal with |- context [?m t s] => by destruct (m t s) as [[] [t' s']] end.
Qed.

(** What every step of an abandoned goroutine keeps, the background does. *)
Lemma triple_background {S} (C : protocolClient S) (I : flight S → Prop) :
  (∀ i, triple I (late C i) (λ r fl, r = Ok tt ∧ I fl)) →
  (∀ fl turns', I fl → I (mkFlight (net fl) (pending fl) turns' (choices fl))) →
  triple I (background C) (λ r fl, r = Ok tt ∧ I fl).
Proof.
  intros Hlate Hturns.
  assert (Hrun : ∀ turn, triple I (run_late C turn) (λ r fl, r = Ok tt ∧ I fl)).
  { induction turn as [|i turn IH]; simpl; [by apply triple_ret|].
    apply (triple_bind _ (λ _, I)); [|by intros _].
    eapply triple_conseq; [apply (Hlate i)|done|]. by intros r fl [-> ?]. }
  intros t fl Hfl. unfold background, run_result, run_state, bind, get, put. simpl.
  destruct (turns fl) as [|turn rest]; [done|]. by apply Hrun, Hturns.
Qed.

Section flying.
Context {S : Type} {C : protocolClient S} {rnd : M S bytes} `{!FtpServer C rnd}.
Local Abbreviation at_net f := (λ fl : flight S, files (net fl) = f).

Lemma files_on_net {A} f (m : M S A) : silent m → keeps False (at_net f) (on_net m).
Proof.
  intros Hm. apply (triple_on_net (λ s, files s = f) m
    (λ r s, files s = f ∧ match r with Panic _ => False | _ => True end)), Hm.
Qed.

Lemma files_background f : triple (at_net f) (background C) (λ r fl, r = Ok tt ∧ files (net fl) = f).
Proof.
  apply triple_background; [|done]. intros i t fl Hf.
  unfold late, run_result, run_state, bind, get. simpl. destruct (pending fl !! i) as [st|]; [|done].
  unfold on_net. pose proof (late_step_no_error C st t (net fl)) as Hne.
  destruct (silent_late_step st f t (net fl) Hf) as [Hf' Hp]. unfold run_result, run_state in *.
  destruct (late_step C st t (net fl)) as [[st'|e|msg] [t' s']]; [done|by destruct (Hne e)|done].
Qed.

Lemma triple_in_flight {A} f (m : M S A) (Q : result A → S → Prop) :
  triple (λ s, files s = f) m Q → triple (at_net f) (in_flight C m) (λ r fl, Q r (net fl)).
Proof.
  intros Hm. apply (triple_bind _ (λ _, at_net f)); [|intros _; exact (triple_on_net (λ s, files s = f) m Q Hm)].
  eapply triple_conseq; [apply (files_background f)|done|]. by intros r fl [-> ?].
Qed.

Lemma files_in_flight {A} f (m : M S A) : silent m → keeps False (at_net f) (in_flight C m).
Proof.
  intros Hm. apply (triple_in_flight f m
    (λ r s, files s = f ∧ match r with Panic _ => False | _ => True end)), Hm.
Qed.
End flying.

#[export] Program Instance flying_FtpServer {S} (C : protocolClient S) rnd `{!FtpServer C rnd} :
  FtpServer (flying C) (on_net rnd) := {| files fl := files (net fl) |}.
Solve Obligations with
  try (intros S C rnd HF; intros; intros f; apply files_in_flight; solve
    [apply silent_Dial|apply silent_Login|apply silent_Features|apply silent_MLStat|apply silent_List
    |apply silent_ModTime|apply silent_MLList|apply silent_MakeDir|apply silent_Abort|apply silent_Quit]).
Next Obligation. intros S C rnd HF f. apply files_on_net, silent_random. Qed.
Next Obligation.
  intros S C rnd HF c n rd source f Hd. simpl.
  apply (triple_bind _ (λ _ fl, files (net fl) = f)).
  { eapply triple_conseq; [apply (files_background f)|done|]. by intros r fl [-> ?]. }
  intros _ t fl Hf. unfold bind, get, run_result, run_state. cbn beta iota.
  pose proof (triple_on_net _ _ _ (Store_law c n (lowered rd fl) source f (detached_lowered rd fl Hd)) t fl Hf) as H.
  unfold run_result, run_state in H. destruct (on_net _ t fl) as [[] [t' fl']]; [|done..].
  destruct H as (b & Hb & Hfiles). exists b. split; [by eapply delivers_lowered|done].
Qed.
Next Obligation. intros S C rnd HF c n f. exact (triple_in_flight f _ _ (Delete_law c n f)). Qed.
Next Obligation. intros S C rnd HF c old new f Hold. exact (triple_in_flight f _ _ (Rename_law c old new f Hold)). Qed.

Lemma flying_hides_nothing {S} (C : protocolClient S) rnd ProtocolCode `{!FtpServer C rnd} :
  hides_nothing C rnd ProtocolCode → hides_nothing (flying C) (on_net rnd) ProtocolCode.
Proof.
  intros [Hstat Hlist]. split.
  - intros c n f. exact (triple_in_flight f _ _ (Hstat c n f)).
  - intros c d f. exact (triple_in_flight f _ _ (Hlist c d f)).
Qed.

(** ** Connecting *)

(** The calls a goroutine still makes, its end included. *)
Definition calls_left (st : stage) : nat :=
  match st with ToDial _ _ _ _ => 4 | ToLogin _ _ _ => 3 | LoginFailed _ _ | ToFeatures _ => 2 | Arrived _ => 1 end.

Lemma advance_closer {S} (C : protocolClient S) st t s st' :
  run_result (advance C st) t s = Ok st' → (1 < calls_left st)%nat → (calls_left st' < calls_left st)%nat.
Proof.
  unfold run_result. destruct st as [a u p o|c u p|c e'|c|r]; simpl; [..|lia];
    unfold ignored, bind, attempt, ret;
    match goal with |- context [?m t s] => destruct (m t s) as [[] [t' s']] end;
    intros [= <-] _; simpl; lia.
Qed.

(** [connect] leaves the files alone, and its goroutine needs no more calls than the model
    has fuel for. *)
Section connect.
Context {S : Type} {C : protocolClient S} {rnd : M S bytes} `{!FtpServer C rnd}.
Local Abbreviation at_net f := (λ fl : flight S, files (net fl) = f).

Lemma advance_files f st :
  triple (at_net f) (in_flight C (advance C st))
    (λ r fl, files (net fl) = f ∧ match r with
      | Ok st' => (1 < calls_left st)%nat → (calls_left st' < calls_left st)%nat
      | Err _ => True
      | Panic _ => False
      end).
Proof.
  apply (triple_in_flight f _ (λ r s, files s = f ∧ match r with
      | Ok st' => (1 < calls_left st)%nat → (calls_left st' < calls_left st)%nat
      | Err _ => True
      | Panic _ => False
      end)).
  intros t s Hs. destruct (silent_advance st f t s Hs) as [Hf Hp]. split; [done|].
  pose proof (advance_closer C st t s) as Hc. destruct (run_result _ t s); [by apply Hc|done|done].
Qed.

Lemma connect_wait_files f fuel ctx st :
  (calls_left st ≤ 1 + fuel)%nat → keeps False (at_net f) (connect_wait C fuel ctx st).
Proof.
  assert (Hpend : ∀ stages, keeps False (at_net f) (set_pending stages)) by (by intros stages t fl Hf).
  assert (Hchoose : keeps False (at_net f) choose) by (by intros t fl Hf).
  assert (Hmove : ∀ fuel' st0, (∀ st', (calls_left st' ≤ 1 + fuel')%nat → keeps False (at_net f) (connect_wait C fuel' ctx st')) →
    (1 < calls_left st0 ≤ 2 + fuel')%nat →
    keeps False (at_net f) (let! st' := in_flight C (advance C st0) in connect_wait C fuel' ctx st')).
  { intros fuel' st0 IH Hc.
    apply (triple_bind _ (λ st' fl, files (net fl) = f ∧ (calls_left st' < calls_left st0)%nat)).
    - eapply triple_conseq; [apply (advance_files f st0)|done|].
      intros [st'|e|msg] fl [? Hr]; [split; [done|apply Hr; lia]|done|done].
    - intros st'. apply triple_pure. intros Hlt. apply IH. lia. }
  revert st. induction fuel as [|fuel IH]; intros st Hf; cbn [connect_wait];
    (apply keeps_bind; [auto with keeps|]; intros done'; apply keeps_bind; [destruct done'; auto with keeps|]; intros b;
     assert (Hleave : ∀ err, keeps False (at_net f)
       (let! fl := get in do! set_pending (pending fl ++ [st]) in throw (A:=session) err)) by (intros; keeps_split);
     destruct done' as [err|]; [destruct b; [by apply Hleave|]|]);
    destruct st as [| | | |[ss|e]]; simpl in Hf; try lia;
    solve [auto with keeps|apply Hmove; [done|simpl; lia]].
Qed.

Lemma connect_files address username password options ctx f :
  keeps False (at_net f) (connect C address username password options ctx).
Proof. by apply connect_wait_files. Qed.
End connect.
