(* ===== verification/FtpSessions.v ===== *)
(** * Who owns the connections of the FTP adapter

    What the client library promises of its connections is the class [FtpConnections].
    Over it, [connect] - also when a context abandons it and its goroutine ends in the
    background - and everything above it leave no client connected but the one of the
    session the adapter holds and those of abandoned goroutines, which end by themselves
    and close theirs. *)

From S2P Require Import Prelude GoStrings Errors Effects Hoare Paths Capability Contracts Iterator Digest Remote RemoteNames Walk Ftp FtpServer.

(** [live] are the clients that are connected.  Any call may lose some; only dialling
    connects one, and quitting disconnects whatever it returns. *)
Class FtpConnections {S} (C : protocolClient S) (rnd : M S bytes) := {
  live : S → gset Z;

  (** a call that connects no client and returns *)
  steady : ∀ {A}, M S A → Prop := λ A m, ∀ l, keeps False (λ s, live s ⊆ l) m;

  Dial_law address options l :
    triple (λ s, live s ⊆ l) (cDial C address options)
      (λ r s, match r with
        | Ok c => live s ⊆ {[c]} ∪ l
        | Err _ => live s ⊆ l
        | Panic _ => False
        end);
  Quit_law c l :
    triple (λ s, live s ⊆ l) (cQuit C c)
      (λ r s, live s ⊆ l ∖ {[c]} ∧ match r with Panic _ => False | _ => True end);

  steady_Login c username password : steady (cLogin C c username password);
  steady_Features c : steady (cFeatures C c);
  steady_MLStat c n : steady (cMLStat C c n);
  steady_List c d : steady (cList C c d);
  steady_ModTime c n : steady (cModTime C c n);
  steady_MLList c n : steady (cMLList C c n);
  steady_MakeDir c n : steady (cMakeDir C c n);
  steady_Delete c n : steady (cDelete C c n);
  steady_Rename c old new : steady (cRename C c old new);
  steady_Abort c : steady (cAbort C c);
  steady_Store c n rd source : detached rd → steady (cStore C c n rd source);
  steady_random : steady rnd;
}.

(** ** Abandoned goroutines *)

(** The client a goroutine has connected. *)
Definition stage_client (st : stage) : gset Z :=
  match st with
  | ToDial _ _ _ _ => ∅
  | ToLogin c _ _ | LoginFailed c _ | ToFeatures c => {[c]}
  | Arrived (inl ss) => {[ss.1]}
  | Arrived (inr _) => ∅
  end.

Definition pending_clients (stages : list stage) : gset Z := ⋃ (stage_client <$> stages).

Definition work (stages : list stage) : nat := sum_list (calls_left <$> stages).

Lemma pending_split stages i st :
  stages !! i = Some st → pending_clients stages = stage_client st ∪ pending_clients (delete i stages).
Proof. intros Hi. unfold pending_clients. by rewrite (delete_Permutation _ _ _ Hi) at 1. Qed.

Lemma work_split stages i st :
  stages !! i = Some st → work stages = (calls_left st + work (delete i stages))%nat.
Proof. intros Hi. unfold work. by rewrite (delete_Permutation _ _ _ Hi) at 1. Qed.

Section goroutines.
Context {S : Type} {C : protocolClient S} {rnd : M S bytes} `{!FtpConnections C rnd}.

Lemma quit_client c l :
  triple (λ s, live s ⊆ {[c]} ∪ l) (ignored (cQuit C c)) (λ r s, r = Ok tt ∧ live s ⊆ l).
Proof.
  apply triple_ignored. eapply triple_conseq; [apply (Quit_law c ({[c]} ∪ l))|done|].
  intros r s [Hs ?]. split; [set_solver|done].
Qed.

Lemma attempt_steady {A B} (Q : result B → S → Prop) l (m : M S A) :
  steady m → triple (λ s, live s ⊆ l) (attempt m) (early (λ _ s, live s ⊆ l) Q).
Proof.
  intros Hm t s Hl. destruct (Hm l t s Hl) as (Hl' & Hp).
  unfold run_result, run_state, attempt in *. by destruct (m t s) as [[] [t' s']].
Qed.

(** One call of the goroutine: it holds the client it has connected and nothing else, and
    comes closer to its result. *)
Definition advanced (st : stage) (l : gset Z) (r : result stage) (s : S) : Prop :=
  match r with
  | Ok st' => live s ⊆ stage_client st' ∪ l ∧ ((1 < calls_left st)%nat → (calls_left st' < calls_left st)%nat)
  | _ => False
  end.

Lemma advance_law st l :
  triple (λ s, live s ⊆ stage_client st ∪ l) (advance C st) (advanced st l).
Proof.
  destruct st as [address username password options|c username password|c err|c|result]; simpl stage_client.
  - rewrite union_empty_l_L. apply (triple_bind _ (λ x s, match x with
      | inl c => live s ⊆ {[c]} ∪ l | inr _ => live s ⊆ l end)).
    + eapply triple_attempt; [apply Dial_law|]. by intros s.
    + intros [c|e]; apply triple_ret; intros s Hs; (split; [set_solver|simpl; lia]).
  - apply (triple_bind _ (λ _ s, live s ⊆ {[c]} ∪ l)); [apply (attempt_steady _ _ _ (steady_Login _ _ _))|].
    intros [u|e]; apply triple_ret; intros s Hs; (split; [done|simpl; lia]).
  - apply (triple_bind _ (λ _ s, live s ⊆ l)).
    + eapply triple_conseq; [apply (quit_client c l)|done|]. by intros r s [-> ?].
    + intros _. apply triple_ret. intros s Hs. split; [set_solver|simpl; lia].
  - apply (triple_bind _ (λ _ s, live s ⊆ {[c]} ∪ l)); [apply (attempt_steady _ _ _ (steady_Features _))|].
    intros features. apply triple_ret. intros s Hs. split; [done|simpl; lia].
  - apply triple_ret. intros s Hs. split; [done|simpl; lia].
Qed.

(** One call of an abandoned goroutine: it comes closer to its end, where its client has
    been closed. *)
Lemma late_step_law st l :
  triple (λ s, live s ⊆ stage_client st ∪ l) (late_step C st)
    (λ r s, match r with
      | Ok o => live s ⊆ pending_clients (option_list o) ∪ l ∧ (work (option_list o) < calls_left st)%nat
      | _ => False
      end).
Proof.
  assert (Hmore : (1 < calls_left st)%nat → triple (λ s, live s ⊆ stage_client st ∪ l)
    (let! st' := advance C st in ret (Some st'))
    (λ r s, match r with
      | Ok o => live s ⊆ pending_clients (option_list o) ∪ l ∧ (work (option_list o) < calls_left st)%nat
      | _ => False
      end)).
  { intros H1. apply (triple_bind _ (λ st' s, live s ⊆ stage_client st' ∪ l ∧ (calls_left st' < calls_left st)%nat)).
    - eapply triple_conseq; [apply (advance_law st l)|done|]. intros [st'| |] s; [|done..]. intros [? ?]. split; auto.
    - intros st'. apply triple_ret. intros s [Hs Hlt]. unfold pending_clients, work. simpl.
      rewrite union_empty_r_L. split; [done|lia]. }
  destruct st as [| | | |[ss|e]]; try (apply Hmore; simpl; lia).
  - apply (triple_bind _ (λ _ s, live s ⊆ l)).
    + eapply triple_conseq; [apply (quit_client ss.1 l)|done|]. by intros r s [-> ?].
    + intros _. apply triple_ret. intros s Hs. split; [set_solver|unfold work; simpl; lia].
  - apply triple_ret. intros s Hs. split; [done|unfold work; simpl; lia].
Qed.

(** No client is connected but those of [l] and of the abandoned goroutines. *)
Definition only (l : gset Z) (fl : flight S) : Prop := live (net fl) ⊆ l ∪ pending_clients (pending fl).

(** A step of an abandoned goroutine, whichever the scheduler picks, brings it closer to
    its end. *)
Lemma late_run i l t fl :
  only l fl →
  ∃ t' fl', late C i t fl = (Ok tt, (t', fl')) ∧ only l fl' ∧
    (is_Some (pending fl !! i) → (work (pending fl') < work (pending fl))%nat).
Proof.
  intros Hl. unfold late, bind, get. destruct (pending fl !! i) as [st|] eqn:Hi.
  2:{ exists t, fl. split_and!; [done..|]. by intros [? ?]. }
  unfold on_net, only in *. rewrite (pending_split _ _ _ Hi) in Hl.
  pose proof (late_step_law st (l ∪ pending_clients (delete i (pending fl))) t (net fl)) as H.
  specialize (H ltac:(set_solver)). unfold run_result, run_state in H.
  destruct (late_step C st t (net fl)) as [[o|e|msg] [t' s']]; [|done..]. destruct H as [Hl' Hw'].
  eexists t', _. split; [done|]. rewrite (work_split _ _ _ Hi). simpl. unfold pending_clients, work in *.
  rewrite !fmap_app, union_list_app_L. split; [set_solver|]. intros _. rewrite sum_list_with_app. lia.
Qed.

(** Left to run, the abandoned goroutines end, and their clients are closed. *)
Definition ended (l : gset Z) (t : Z) (fl : flight S) : Prop :=
  let '(r, (_, fl')) := run_late C (replicate (work (pending fl)) 0%nat) t fl in
  r = Ok tt ∧ pending fl' = [] ∧ live (net fl') ⊆ l.

Lemma run_late_ends n l t fl :
  only l fl → (work (pending fl) ≤ n)%nat →
  ∃ t' fl', run_late C (replicate n 0%nat) t fl = (Ok tt, (t', fl')) ∧ pending fl' = [] ∧ live (net fl') ⊆ l.
Proof.
  revert t fl. induction n as [|n IH]; intros t fl Hl Hw.
  - assert (Hp : pending fl = []) by (destruct (pending fl) as [|[] ?]; [done|unfold work in Hw; simpl in Hw; lia..]).
    exists t, fl. split_and!; [done..|]. unfold only in Hl. rewrite Hp in Hl.
    change (pending_clients []) with (∅ : gset Z) in Hl. by rewrite union_empty_r_L in Hl.
  - destruct (late_run 0 l t fl Hl) as (t1 & fl1 & Hrun & Hl1 & Hw1).
    simpl. unfold bind. rewrite Hrun. apply IH; [done|].
    destruct (pending fl !! 0%nat) as [st|] eqn:Hp; [specialize (Hw1 ltac:(done)); lia|].
    unfold late, bind, get in Hrun. rewrite Hp in Hrun. injection Hrun as _ <-.
    apply lookup_ge_None in Hp. destruct (pending fl); simpl in *; [unfold work; simpl; lia|lia].
Qed.

Lemma only_ended l t fl : only l fl → ended l t fl.
Proof.
  intros Hl. destruct (run_late_ends (work (pending fl)) l t fl Hl ltac:(done)) as (t' & fl' & Hrun & H).
  unfold ended. by rewrite Hrun.
Qed.

(** *** Calls beside them *)

Lemma background_only l : triple (only l) (background C) (λ r fl, r = Ok tt ∧ only l fl).
Proof.
  apply triple_background; [|done]. intros i t fl Hl.
  destruct (late_run i l t fl Hl) as (t' & fl' & Hrun & Hl' & _).
  unfold run_result, run_state. by rewrite Hrun.
Qed.

Lemma triple_beside {A} l l' (m : M S A) (Q : result A → gset Z → S → Prop) :
  (∀ p, triple (λ s, live s ⊆ l ∪ p) m (λ r s, Q r p s)) →
  (∀ r p s, Q r p s → live s ⊆ l' r ∪ p) →
  triple (only l) (in_flight C m) (λ r fl, Q r (pending_clients (pending fl)) (net fl) ∧ only (l' r) fl).
Proof.
  intros Hm HQ. apply (triple_bind _ (λ _, only l)).
  { eapply triple_conseq; [apply (background_only l)|done|]. by intros r fl [-> ?]. }
  intros _ t fl Hl. pose proof (Hm (pending_clients (pending fl)) t (net fl) Hl) as H.
  unfold run_result, run_state, on_net, only in *. destruct (m t (net fl)) as [r [t' s']].
  split; [done|]. by apply HQ.
Qed.

Lemma steady_in_flight {A} (m : M S A) : steady m → ∀ l, keeps False (only l) (in_flight C m).
Proof.
  intros Hm l. eapply triple_conseq; [apply (triple_beside l (λ _, l) m
    (λ r p s, live s ⊆ l ∪ p ∧ match r with Panic _ => False | _ => True end))|done|].
  - intros p. apply Hm.
  - by intros r p s [? _].
  - by intros r fl [[_ ?] ?].
Qed.

Lemma quit_only c l :
  triple (only l) (cQuit (flying C) c)
    (λ r fl, only (l ∖ {[c]}) fl ∧ match r with Panic _ => False | _ => True end).
Proof.
  eapply triple_conseq; [apply (triple_beside l (λ _, l ∖ {[c]}) (cQuit C c)
    (λ r p s, live s ⊆ l ∖ {[c]} ∪ p ∧ match r with Panic _ => False | _ => True end))|done|].
  - intros p. eapply triple_conseq; [apply (Quit_law c (l ∪ p))|done|].
    intros r s [Hs ?]. split; [set_solver|done].
  - by intros r p s [? _].
  - by intros r fl [[_ ?] ?].
Qed.

(** *** [connect] *)

(** It returns a session and its client is connected, or leaves nothing but a goroutine
    that will end. *)
Definition dialled (l : gset Z) (r : result session) (fl : flight S) : Prop :=
  match r with
  | Ok ss => only ({[ss.1]} ∪ l) fl
  | Err _ => only l fl
  | Panic _ => False
  end.

Lemma advance_only st l :
  triple (only (stage_client st ∪ l)) (in_flight C (advance C st))
    (λ r fl, match r with
      | Ok st' => only (stage_client st' ∪ l) fl ∧ ((1 < calls_left st)%nat → (calls_left st' < calls_left st)%nat)
      | _ => False
      end).
Proof.
  eapply triple_conseq; [apply (triple_beside (stage_client st ∪ l) (λ r, match r with Ok st' => stage_client st' ∪ l | _ => l end)
    (advance C st) (λ r p, advanced st (l ∪ p) r))|done|].
  - intros p. eapply triple_conseq; [apply (advance_law st (l ∪ p))|simpl; intros s; by rewrite assoc_L by apply _|done].
  - intros [st'| |] p s; [|done..]. intros [Hs _]. by rewrite <- assoc_L by apply _.
  - intros [st'| |] fl [Ha Ho]; [|done..]. by destruct Ha.
Qed.

Lemma connect_wait_dialled fuel ctx st l :
  (calls_left st ≤ 1 + fuel)%nat → triple (only (stage_client st ∪ l)) (connect_wait C fuel ctx st) (dialled l).
Proof.
  revert st. induction fuel as [|fuel IH]; intros st Hf; cbn [connect_wait];
    (apply (triple_bind _ (λ _, only (stage_client st ∪ l))); [by intros t fl Hfl|]; intros done';
     apply (triple_bind _ (λ _, only (stage_client st ∪ l))); [destruct done'; by intros t fl Hfl|]; intros b;
     assert (Hleave : ∀ err, triple (only (stage_client st ∪ l))
       (let! fl := get in do! set_pending (pending fl ++ [st]) in throw (A:=session) err) (dialled l));
     [intros err t fl Hfl; unfold run_result, run_state, bind, get, set_pending, throw, dialled, only in *; simpl;
      unfold pending_clients in *; rewrite fmap_app, union_list_app_L; set_solver|]).
  - destruct st as [| | | |[ss|e]]; simpl in Hf; try lia;
      (destruct done' as [err|]; [destruct b; [by apply Hleave|]|]);
      (by apply triple_ret || (apply triple_throw; intros fl; simpl; by rewrite union_empty_l_L)).
  - assert (Hmove : (1 < calls_left st)%nat → triple (only (stage_client st ∪ l))
      (let! st' := in_flight C (advance C st) in connect_wait C fuel ctx st') (dialled l)).
    { intros H1. apply (triple_bind _ (λ st' fl, only (stage_client st' ∪ l) fl ∧ (calls_left st' < calls_left st)%nat)).
      - eapply triple_conseq; [apply (advance_only st l)|done|]. intros [st'| |] fl; [|done..].
        intros [? ?]. split; auto.
      - intros st'. apply triple_pure. intros Hlt. apply IH. lia. }
    (destruct done' as [err|]; [destruct b; [by apply Hleave|]|]);
      (destruct st as [| | | |[ss|e]];
       solve [apply Hmove; simpl; lia|by apply triple_ret|apply triple_throw; intros fl; simpl; by rewrite union_empty_l_L]).
Qed.

Lemma connect_dialled address username password options ctx l :
  triple (only l) (connect C address username password options ctx) (dialled l).
Proof.
  eapply triple_conseq; [by apply (connect_wait_dialled 3 ctx (ToDial address username password options) l)| |done].
  simpl. intros fl. by rewrite union_empty_l_L.
Qed.
End goroutines.

(** ** The shared session *)

Section sessions.
Context {S : Type} {C : protocolClient S} {rnd : M S bytes} `{!FtpConnections C rnd}.
Context (AsOpError : error → bool) (ProtocolCode : error → option Z).
(** The connector of an adapter: [connect] with what [Open] was given. *)
Context (address username password : bytes) (options : list protocol_option).
Local Abbreviation connector := (connect C address username password options).
Context (root : bytes) (maxList : Z) (prof : Profile) (caps : CapabilitySet).
Local Abbreviation a :=
  (mkAdapter (realSession (flying C) ProtocolCode) connector (on_net rnd) root maxList prof caps).
Local Abbreviation inv := (session_inv fst only).

Lemma connector_only ctx l : triple (only l) (connector ctx)
  (λ r s, match r with
          | Ok ss => only ({[ss.1]} ∪ l) s
          | Err _ => only l s
          | Panic _ => False
          end).
Proof. apply connect_dialled. Qed.
Lemma rQuit_only ss l :
  triple (only l) (rQuit (realSession (flying C) ProtocolCode) ss)
    (λ r s, only (l ∖ {[ss.1]}) s ∧ match r with Panic _ => False | _ => True end).
Proof. apply quit_only. Qed.

Lemma ftp_keeps_currentSession c ctx : keeps True (inv c) (currentSession a ctx).
Proof. apply (keeps_current fst _ _ connector_only). Qed.
Lemma ftp_keeps_invalidate c ss : keeps True (inv c) (invalidate a ss).
Proof. apply (keeps_drop fst _ _ rQuit_only). Qed.

(** The calls of a session connect no client. *)
Lemma calm_in_flight {A} (m : M S A) : steady m → calm only (in_flight C m).
Proof. intros Hm. apply calm_of. intros l t fl Hl. by destruct (steady_in_flight m Hm l t fl Hl). Qed.
Local Hint Resolve calm_in_flight steady_MLStat steady_List steady_ModTime steady_MLList steady_MakeDir
  steady_Delete steady_Rename steady_Abort : keeps.
Local Hint Extern 1 (keeps True (only _) _) => apply calm_in_flight; solve [auto with keeps] : keeps.

Local Abbreviation R := (sessions_api a).
Lemma calm_find_entry client name base entries : calm only (find_entry (flying C) client name base entries).
Proof. intros l. induction entries; simpl; keeps_split. Qed.
Local Hint Extern 1 (keeps True (only _) (find_entry _ _ _ _ _)) => apply calm_find_entry : keeps.
Lemma calm_rStat ss n : calm only (rStat R ss n).
Proof. intros l. simpl. unfold realSession_Stat, stat_legacy. simpl. keeps_split. Qed.
Lemma calm_rList ss n : calm only (rList R ss n).
Proof. intros l. simpl. unfold realSession_List, list_legacy. simpl. keeps_split. Qed.
Lemma calm_rMakeDir ss n : calm only (rMakeDir R ss n).
Proof. apply calm_in_flight, steady_MakeDir. Qed.
Lemma calm_rAbort ss : calm only (rAbort R ss).
Proof. apply calm_in_flight, steady_Abort. Qed.
Lemma calm_rDelete ss n : calm only (rDelete R ss n).
Proof. apply calm_in_flight, steady_Delete. Qed.
Lemma calm_rRename ss old new : calm only (rRename R ss old new).
Proof. apply calm_in_flight, steady_Rename. Qed.
Lemma calm_on_net {A} (m : M S A) : steady m → calm only (on_net m).
Proof.
  intros Hm. apply calm_of. intros l t fl Hl. destruct (Hm _ t (net fl) Hl) as [Hl' _].
  unfold run_state, on_net, only in *. by destruct (m t (net fl)) as [r [t' s']].
Qed.
Lemma calm_rStore ss n ctx source : calm only (rStore R ss n (context_Read ctx list_Read) source).
Proof.
  intros l. simpl. apply keeps_bind.
  - eapply triple_conseq; [apply (background_only l)|done|]. by intros r fl [-> ?].
  - intros _ t fl Hl. apply (calm_on_net _ (steady_Store ss.1 n _ source
      (detached_lowered _ fl (detached_context_list ctx))) l t fl Hl).
Qed.
Lemma calm_random : calm only (random16 a).
Proof. apply calm_on_net, steady_random. Qed.
Local Hint Resolve keeps_call calm_rStat calm_rList calm_rMakeDir calm_rAbort calm_rDelete
  calm_rRename calm_rStore calm_random ftp_keeps_currentSession ftp_keeps_invalidate : keeps.

Lemma ftp_keeps_Stat c ctx p : keeps True (inv c) (Stat a AsOpError ProtocolCode ctx p).
Proof. unfold Stat, prepare. keeps_ftp. Qed.
Local Hint Resolve ftp_keeps_Stat : keeps.

Lemma ftp_keeps_Write c ctx p source o : keeps True (inv c) (Write a AsOpError ProtocolCode ctx p source o).
Proof. unfold Write, write, write_temporary, temporaryPath. keeps_ftp. Qed.
Local Hint Resolve ftp_keeps_Write : keeps.

(** A streaming upload runs [Write] in the background. *)
Lemma ftp_keeps_upload c ctx p source o :
  keeps True (inv c)
    (let! upload := OpenWriter a AsOpError ProtocolCode ctx p o in upload source).
Proof.
  apply (triple_bind _ (λ upload w, inv c w ∧ keeps True (inv c) (upload source))).
  - apply (triple_bind _ (λ _, inv c)).
    + eapply triple_conseq; [apply (keeps_check_ctx True)|done|]. by intros [] w [? ?].
    + intros _. case_match; [by apply triple_throw|]. apply triple_ret. intros w Hw.
      split; [done|]. keeps_ftp.
  - intros upload t w [Hw Hup]. by apply Hup.
Qed.
Local Hint Resolve ftp_keeps_upload : keeps.

Lemma keeps_abortTransfer c : keeps True (inv c) (abortTransfer a).
Proof. unfold abortTransfer. keeps_ftp. Qed.
Local Hint Resolve keeps_abortTransfer : keeps.

Lemma abortTransfer_ok c : triple (inv c) (abortTransfer a) (λ r w, r = Ok tt ∧ inv c w).
Proof.
  intros t w Hw. destruct (keeps_abortTransfer c t w Hw) as [Hw' _]. split; [|done].
  unfold abortTransfer, ignored, bind, attempt, ret, call, get, run_result. simpl.
  destruct (current_session w) as [ss|] eqn:Es; [|done]. destruct Hw as [Hl _].
  destruct (steady_in_flight _ (steady_Abort ss.1) _ t (remote w) Hl) as [_ Hp].
  unfold run_result in Hp. by destruct (in_flight C (cAbort C ss.1) t (remote w)) as [[] [t' s']].
Qed.

Lemma Close_closes c : triple (inv c) (Close a) (λ _, inv true).
Proof.
  apply (triple_bind _ (λ _, inv c)).
  - eapply triple_conseq; [apply abortTransfer_ok|done|]. by intros r w [-> ?].
  - intros _. apply (keeps_close fst _ _ rQuit_only).
Qed.

Lemma ftp_perform_closes c x :
  is_close x = true →
  triple (inv c) (perform a AsOpError ProtocolCode x.1 x.2) (λ _, inv true).
Proof.
  destruct x as [ctx []]; try done. intros _.
  apply (triple_bind _ (λ _, inv true)); [|by intros; apply triple_ret].
  eapply triple_attempt; [apply (Close_closes c)|]. intros w. simpl. auto.
Qed.

Lemma ftp_keeps_perform c x : keeps True (inv c) (perform a AsOpError ProtocolCode x.1 x.2).
Proof.
  destruct (is_close x) eqn:Ex.
  { eapply triple_conseq; [by apply ftp_perform_closes|done|].
    intros r w (? & ? & ?). split; [by repeat split; auto|by destruct r]. }
  destruct x as [ctx rq]; destruct rq; try done; unfold perform, Open, prepareOpen, prepare,
    retry_transfer, Delete, withLocked, ListEntries, list_entries, read_children; cbn [fst snd];
    keeps_ftp.
Qed.

Lemma ftp_perform_all_owned c requests :
  triple (inv c) (perform_all a AsOpError ProtocolCode requests)
    (λ r w, inv c w ∧ (r = Ok tt → existsb is_close requests = true → inv true w)).
Proof. apply perform_seq_owned; [apply ftp_keeps_perform|apply ftp_perform_closes]. Qed.
End sessions.

(** ** Construction *)

Section construction.
Context {S : Type} {C : protocolClient S} {rnd : M S bytes} `{!FtpConnections C rnd}.
Context (ProtocolCode : error → option Z).

(** What a new adapter holds, and that a failed construction holds nothing. *)
Definition constructed (dial : connector (flight S)) (r : result (Adapter (flight S) * session))
    (fl : flight S) : Prop :=
  match r with
  | Ok (a, ss) => only {[ss.1]} fl ∧
                  ∃ root maxList prof caps,
                    a = mkAdapter (realSession (flying C) ProtocolCode) dial (on_net rnd) root maxList prof caps
  | _ => only ∅ fl
  end.

Lemma newAdapter_constructed address username password options ctx root max profile :
  let dial := connect C address username password options in
  triple (only ∅)
    (newAdapter (realSession (flying C) ProtocolCode) (on_net rnd) (Some ctx) (Some dial) root max profile)
    (constructed dial).
Proof.
  intros dial. unfold newAdapter. apply triple_lift_bind; [by destruct (validateRoot root)|].
  intros rt _. case_match; [by apply triple_throw|].
  apply triple_check_ctx_bind; [done|].
  apply (triple_bind _ (λ ss, only {[ss.1]})).
  { eapply triple_conseq; [apply (connect_dialled address username password options ctx ∅)|done|].
    intros [ss|e|msg] fl; simpl; [|done..]. by rewrite union_empty_r_L. }
  intros ss. apply (triple_bind _ (λ _, only {[ss.1]})); [by intros t s Hs|]. intros [err|].
  - apply (triple_after_ignored _ (only ∅)); [|by apply triple_throw].
    eapply triple_conseq; [apply (quit_only ss.1 {[ss.1]})|done|]. by rewrite difference_diag_L.
  - intros t s Hs. split; [exact Hs|by eexists _, _, _, _].
Qed.

Lemma OpenAdapter_constructed ctx configuration :
  triple (only ∅) (OpenAdapter C ProtocolCode rnd ctx configuration)
    (constructed (connect C (Address configuration) (Username configuration)
                    (Password configuration) (dial_options configuration))).
Proof.
  unfold OpenAdapter. destruct ctx as [ctx|]; [|by apply triple_throw].
  apply triple_check_ctx_bind; [done|].
  repeat (case_match; try (by apply triple_throw)).
  all: apply triple_lift_bind; [by destruct (validateRoot (ConfigRoot configuration))|].
  all: intros root _; repeat (case_match; try (by apply triple_throw)).
  all: apply triple_check_ctx_bind; [done|]; apply newAdapter_constructed.
Qed.
End construction.

(** C28: No client is connected but the adapter's own and those of connection attempts
    that a context abandoned, for every configuration, every library that meets
    [FtpConnections] and every schedule of the abandoned goroutines.  When [Open] fails,
    at whatever step, or is cancelled while it dials, the only clients connected are those
    of goroutines it left behind; after any sequence of requests, with failures, lost
    connections, replays and cancellations anywhere, they are those and the one of the
    session the adapter holds; and once [Close] ran, the adapter holds none and no later
    request gives it one.  Whenever the goroutines left behind are then run to their end,
    which takes at most four calls of each, they close their clients: after a failed [Open]
    or a [Close] none is connected, and otherwise none but the adapter's own. *)
Theorem ftp_sessions_owned {S} (C : protocolClient S) rnd ProtocolCode `{!FtpConnections C rnd}
    AsOpError ctx configuration schedule choices t s :
  live s = ∅ →
  match OpenAdapter C ProtocolCode rnd ctx configuration t (mkFlight s [] schedule choices) with
  | (Ok (a, ss), (t', fl)) => ∀ requests,
      let '(res, (t'', w)) :=
        perform_all a AsOpError ProtocolCode requests t' (new_world ss fl) in
      only (owned fst w) (remote w) ∧ ended (C:=C) (owned fst w) t'' (remote w) ∧
      (res = Ok tt → (∃ ctx, (ctx, RClose) ∈ requests) → adapter_closed w = true ∧ owned fst w = ∅)
  | (_, (t', fl)) => only ∅ fl ∧ ended (C:=C) ∅ t' fl
  end.
Proof.
  intros Hs. pose proof (OpenAdapter_constructed ProtocolCode ctx configuration t (mkFlight s [] schedule choices)) as Hn.
  specialize (Hn ltac:(unfold only; simpl; rewrite Hs; set_solver)). unfold run_result, run_state in Hn.
  destruct (OpenAdapter C ProtocolCode rnd ctx configuration t _) as [[[a ss]| |] [t' fl]];
    [|by split; [|apply only_ended]..].
  simpl in Hn. destruct Hn as (Hl & root & max & prof & caps & ->). intros requests.
  pose proof (ftp_perform_all_owned AsOpError ProtocolCode (Address configuration) (Username configuration)
    (Password configuration) (dial_options configuration) root max prof caps false requests t'
    (new_world ss fl)) as Hp.
  unfold run_result, run_state in Hp. destruct (perform_all _ _ _ _ _ _) as [res [t'' w]].
  destruct Hp as [[? _] Hc]; [by repeat split|]. split_and!; [done|by apply only_ended|].
  intros Hres (ctx' & Hin). destruct (Hc Hres) as (Hlive & Hnone & Hcl).
  { apply existsb_exists. exists (ctx', RClose). by rewrite <- list_elem_of_In. }
  split; [by apply Hcl|]. simpl in *. unfold owned. by rewrite Hnone by by apply Hcl.
Qed.
