(* ===== verification/FtpWrite.v ===== *)
(** * Publication by the FTP adapter

    [Write] against any server that meets [FtpServer]: what the remote files are
    after a write that succeeded, failed or was cancelled at any step. *)

From S2P Require Import Prelude GoStrings Errors Effects Hoare Paths Capability Contracts Iterator Digest Remote RemoteNames Walk Ftp FtpServer.

(** What the context reader over a source can deliver is the whole source: an end
    it reports is the source's own. *)
Lemma context_delivers {S} ctx source b :
  delivers (S:=S) (context_Read ctx list_Read) source b → ReadAll source = (b, None).
Proof.
  remember (context_Read ctx list_Read) as rd eqn:Hrd.
  induction 1 as [r n t s chunk r' w Hread|r n t s chunk r' w b Hread _ IH];
    rewrite Hrd in Hread; destruct (context_list_Read ctx r n t s) as (x & Hx & Hcase);
    rewrite Hx in Hread; injection Hread as -> _;
    destruct Hcase as [[[] [=]]|Hcase]; destruct r as [|[b' [e|]] r]; simplify_eq/=; try done.
  by rewrite IH.
Qed.

(** The files once the whole source is published under [target]: the temporary name is
    gone. *)
Definition published (target tmp : bytes) (source : reader) (f f' : gmap bytes bytes) : Prop :=
  ∃ content, ReadAll source = (content, None) ∧ f' = <[target := content]> (delete tmp f).

(** What a write may leave, if [visible] means that no file is hidden: the publication;
    when it failed, only the temporary name touched, or, once the whole source had been
    stored, only that name and the target. *)
Definition attempted {A : Type} (visible : Prop) (target : bytes) (source : reader) (f : gmap bytes bytes)
    (r : result A) (f' : gmap bytes bytes) : Prop :=
  ∃ tmp, temporary_of target tmp ∧
  match r with
  | Ok _ => published target tmp source f f' ∧ (visible → f !! target = None)
  | Err _ => agree_off tmp f f' ∨
      ((∃ content, ReadAll source = (content, None)) ∧ agree_off2 tmp target f f' ∧
       (visible → f !! target = None))
  | Panic _ => False
  end.

Lemma published_agrees target tmp source f f' :
  published target tmp source f f' →
  (∃ content, ReadAll source = (content, None)) ∧ agree_off2 tmp target f f'.
Proof.
  intros (content & Hc & ->). split; [by exists content|]. intros q Ht Hq.
  by rewrite lookup_insert_ne, lookup_delete_ne.
Qed.

Section write.
Context {S : Type} {C : protocolClient S} {rnd : M S bytes} `{!FtpServer C rnd}.
Context (AsOpError : error → bool) (ProtocolCode : error → option Z) (dial : connector S).
Context (root : bytes) (maxList : Z) (prof : Profile) (caps : CapabilitySet).
Local Abbreviation a := (mkAdapter (realSession C ProtocolCode) dial rnd root maxList prof caps).
Local Abbreviation R := (sessions_api a).
Local Abbreviation at_files f := (λ w : ftp_world S, files (remote w) = f).
Local Abbreviation visible := (hides_nothing C rnd ProtocolCode).
Implicit Types f : gmap bytes bytes.

(** The connector leaves the files alone. *)
Hypothesis dial_files : ∀ ctx f, keeps False (λ s, files s = f) (dial ctx).

Lemma ftp_call_at {A : Type} f (m : M S A) (Q : result A → gmap bytes bytes → Prop) :
  triple (λ s, files s = f) m (λ r s, Q r (files s)) →
  triple (at_files f) (call m) (λ r w, Q r (files (remote w))).
Proof. apply (triple_call (λ s, files s = f) m (λ r s, Q r (files s))). Qed.

Lemma ftp_at_silent {A : Type} f (m : M S A) : silent m → keeps False (at_files f) (call m).
Proof. intros Hm. apply (keeps_call_remote False (λ s, files s = f)), Hm. Qed.

Lemma at_quit f ss : keeps False (at_files f) (call (rQuit R ss)).
Proof. apply ftp_at_silent, silent_Quit. Qed.
Lemma ftp_at_dial f ctx : keeps False (at_files f) (call (dial ctx)).
Proof. apply (keeps_call_remote False (λ s, files s = f)), dial_files. Qed.
Lemma ftp_at_set_session f ss : keeps False (at_files f) (set_session ss).
Proof. by intros t w Hw. Qed.
Lemma ftp_at_Stat f ss n : keeps False (at_files f) (call (rStat R ss n)).
Proof. apply ftp_at_silent, silent_Stat. Qed.
Lemma at_MakeDir f ss n : keeps False (at_files f) (call (rMakeDir R ss n)).
Proof. apply ftp_at_silent, silent_MakeDir. Qed.
Lemma at_random f : keeps False (at_files f) (call (random16 a)).
Proof. apply ftp_at_silent, silent_random. Qed.
Local Hint Resolve at_quit ftp_at_dial ftp_at_set_session ftp_at_Stat at_MakeDir at_random : keeps.

Lemma ftp_at_currentSession f ctx : keeps False (at_files f) (currentSession a ctx).
Proof. unfold currentSession, current_or_dial. keeps_ftp. Qed.
Lemma ftp_at_invalidate f ss : keeps False (at_files f) (invalidate a ss).
Proof. unfold invalidate, drop_session. keeps_ftp. Qed.
Local Hint Resolve ftp_at_currentSession ftp_at_invalidate : keeps.
Lemma at_StatPath f ctx p : keeps False (at_files f) (Stat a AsOpError ProtocolCode ctx p).
Proof. unfold Stat, prepare. keeps_ftp. Qed.

(** The precheck: a destination that is not found names no file, unless files are
    hidden. *)
Lemma precheck f ss n :
  triple (at_files f) (attempt (call (rStat R ss n)))
    (λ r w, files (remote w) = f ∧
       match r with
       | Ok (inr e) => isNotFound ProtocolCode e = true → visible → f !! n = None
       | Ok (inl _) => True
       | _ => False
       end).
Proof.
  eapply triple_attempt; [apply (ftp_call_at f _ (λ r f', f' = f ∧ match r with
    | Ok _ => True | Err e => isNotFound ProtocolCode e = true → visible → f !! n = None | Panic _ => False end))|].
  - intros t s Hs. pose proof (λ V, Stat_absent ProtocolCode ss n f V t s Hs) as Ha.
    destruct (silent_Stat ProtocolCode ss n f t s Hs) as (? & Hp). split; [done|].
    change (rStat R ss n) with (realSession_Stat C ProtocolCode ss n).
    destruct (run_result _ t s); [done|intros; by eapply Ha|done].
  - intros w. simpl. naive_solver.
Qed.

Lemma ftp_call_any {A : Type} (P : gmap bytes bytes → Prop) (m : M S A)
    (Q : result A → gmap bytes bytes → Prop) :
  (∀ f, P f → triple (λ s, files s = f) m (λ r s, Q r (files s))) →
  triple (λ w : ftp_world S, P (files (remote w))) (call m) (λ r w, Q r (files (remote w))).
Proof. intros H t w HP. apply (ftp_call_at (files (remote w))); [|done]. by apply H. Qed.

(** Removing the temporary file before reporting [err]. *)
Lemma delete_then_fail (P P' : gmap bytes bytes → Prop) ss tmp err :
  (∀ f, P f → P' f ∧ P' (delete tmp f)) →
  triple (λ w : ftp_world S, P (files (remote w)))
    (do! ignored (call (rDelete R ss tmp)) in throw (A:=unit) err)
    (λ r w, r = Err err ∧ P' (files (remote w))).
Proof.
  intros HP. apply (triple_after_ignored _ (λ w, P' (files (remote w)))); [|by apply triple_throw].
  apply (ftp_call_any P _ (λ r f', P' f' ∧ match r with Panic _ => False | _ => True end)).
  intros f [H1 H2]%HP. eapply triple_conseq; [apply (Delete_law ss.1 tmp f)|done|].
  intros r s (Hf & Hr). split; [by destruct Hf as [->| ->]|done].
Qed.

Lemma ftp_fail_attempted (target tmp : bytes) (source : reader) f (P : gmap bytes bytes → Prop) ss err :
  temporary_of target tmp → (∀ f', P f' → agree_off tmp f f') →
  triple (λ w : ftp_world S, P (files (remote w)))
    (do! ignored (call (rDelete R ss tmp)) in throw (A:=unit) err)
    (λ r w, attempted visible target source f r (files (remote w))).
Proof.
  intros Ht HP. eapply triple_conseq; [apply (delete_then_fail P (agree_off tmp f))|done|].
  - intros f' Hf'%HP. by split; [|apply agree_off_delete].
  - intros r w [-> ?]. exists tmp. by split; [|left].
Qed.

(** The rename, and what follows its failure. *)
Lemma rename_spec target source (tmp content : bytes) f ss :
  temporary_of target tmp → (visible → f !! target = None) → ReadAll source = (content, None) →
  triple (at_files (<[tmp := content]> f))
    (let! renamed := attempt (call (rRename R ss tmp target)) in
     match renamed with
     | inr err => do! ignored (call (rDelete R ss tmp)) in throw err
     | inl _ => ret tt
     end)
    (λ r w, attempted visible target source f r (files (remote w))).
Proof.
  intros Ht Hn Hsrc. set (f1 := <[tmp := content]> f).
  assert (Hren : ∀ f', renamed tmp target f1 f' → published target tmp source f f').
  { intros f' (c & Hc & ->). unfold f1 in *. rewrite lookup_insert_eq in Hc. simplify_eq.
    exists c. by rewrite delete_insert_eq. }
  assert (Hoff : ∀ f', agree_off2 tmp target f1 f' → agree_off2 tmp target f f').
  { intros f' H q Hq Hq'. rewrite H by done. unfold f1. by rewrite lookup_insert_ne. }
  apply (triple_bind _ (λ x w, match x with
    | inl _ => published target tmp source f (files (remote w))
    | inr _ => agree_off2 tmp target f (files (remote w)) end)).
  - eapply triple_attempt; [apply (ftp_call_at f1 _ (λ r f', match r with
      | Ok _ => published target tmp source f f' | Err _ => agree_off2 tmp target f f' | Panic _ => False end))|].
    + eapply triple_conseq; [apply (Rename_law ss.1 tmp target f1)|done|].
      * unfold f1. by rewrite lookup_insert_eq.
      * intros [] s Hr; [by apply Hren|by apply Hoff|done].
    + intros w. simpl. naive_solver.
  - intros [u|err]; [apply triple_ret; intros w Hw; by exists tmp|].
    eapply triple_conseq; [apply (delete_then_fail (agree_off2 tmp target f) (agree_off2 tmp target f))|done|].
    + intros f' H. split; [done|]. intros q Hq Hq'. rewrite lookup_delete_ne by done. by apply H.
    + intros r w [-> ?]. exists tmp. split; [done|]. right. by split; [exists content|].
Qed.

Lemma write_temporary_spec ctx ss (tmp target : bytes) source f :
  temporary_of target tmp → (visible → f !! target = None) →
  triple (at_files f) (write_temporary a ctx ss tmp target source)
    (λ r w, attempted visible target source f r (files (remote w))).
Proof.
  intros Ht Hn. unfold write_temporary.
  apply (triple_bind _ (λ x w, match x with
    | inl _ => files (remote w) = <[tmp := (ReadAll source).1]> f ∧ (ReadAll source).2 = None
    | inr _ => agree_off tmp f (files (remote w)) end)).
  - eapply triple_attempt; [apply (ftp_call_at f _ (λ r f', match r with
      | Ok _ => f' = <[tmp := (ReadAll source).1]> f ∧ (ReadAll source).2 = None
      | Err _ => agree_off tmp f f' | Panic _ => False end))|].
    + eapply triple_conseq; [apply (Store_law ss.1 tmp (context_Read ctx list_Read) source f),
        detached_context_list|done|].
      intros [] s Hr; [|done..]. destruct Hr as (b & Hb & ->). by rewrite (context_delivers _ _ _ Hb).
    + intros w. simpl. naive_solver.
  - intros [u|err]; [|by apply (ftp_fail_attempted target tmp source f (agree_off tmp f))].
    apply triple_pure. intros Hnone. destruct (ReadAll source) as [content e] eqn:Hsrc.
    simpl in *. subst e.
    apply (triple_bind _ (λ _, at_files (<[tmp := content]> f))); [by intros t w Hw|].
    intros [err|]; [|by apply rename_spec].
    apply (ftp_fail_attempted target tmp source f (λ f', f' = <[tmp := content]> f)); [done|].
    intros f' ->. apply agree_off_insert.
Qed.

(** Failing before anything was stored. *)
Lemma ftp_untouched_attempted {A : Type} (target : bytes) (source : reader) f (w : ftp_world S) :
  files (remote w) = f →
  (∀ e, attempted visible target source f (Err (A:=A) e) (files (remote w))) ∧
  (False → ∀ msg, attempted visible target source f (Panic (A:=A) msg) (files (remote w))).
Proof.
  intros ->. split; [|done]. intros e. eexists. split; [by exists []|]. by left.
Qed.

Lemma ftp_temporaryPath_spec target f :
  triple (at_files f) (temporaryPath a (path_Dir target))
    (λ r w, files (remote w) = f ∧
       match r with Ok tmp => temporary_of target tmp | Err _ => True | Panic _ => False end).
Proof.
  apply (triple_bind _ (λ _, at_files f)).
  - eapply triple_attempt; [apply (at_random f)|]. intros w. simpl. naive_solver.
  - intros [random|err]; [apply triple_ret|by apply triple_throw].
    intros w Hw. split; [done|]. by exists random.
Qed.

Lemma write_spec ctx ss p source f :
  triple (at_files f) (write a ProtocolCode ctx ss p source)
    (λ r w, attempted visible (remotePath a p) source f r (files (remote w))).
Proof.
  unfold write. set (target := remotePath a p).
  apply (triple_keeps_bind False);
    [solve [keeps_ftp]|intros w Hw; by apply ftp_untouched_attempted|intros _].
  apply (triple_bind _ (λ x w, files (remote w) = f ∧
    ∀ e, x = inr e → isNotFound ProtocolCode e = true → visible → f !! target = None)).
  { eapply triple_conseq; [apply (precheck f ss target)|done|].
    intros [[entry|e]| |] w [Hw Hx]; simpl; [done|split; [done|]|done..]. by intros e' [= <-]. }
  intros [entry|e]; apply triple_pure; intros Habs;
    [apply triple_throw; intros; by apply ftp_untouched_attempted|].
  destruct (isNotFound ProtocolCode e) eqn:He; simpl;
    [|apply triple_throw; intros; by apply ftp_untouched_attempted].
  specialize (Habs e eq_refl He).
  apply (triple_keeps_bind False);
    [solve [keeps_ftp]|intros w Hw; by apply ftp_untouched_attempted|intros _].
  apply (triple_bind _ (λ tmp w, files (remote w) = f ∧ temporary_of target tmp)).
  { eapply triple_conseq; [apply (ftp_temporaryPath_spec target f)|done|].
    intros [] w [Hw ?]; try done. by apply ftp_untouched_attempted. }
  intros tmp. apply triple_pure. intros Ht. by apply write_temporary_spec.
Qed.

Lemma ftp_Write_spec ctx p source options f :
  triple (at_files f) (Write a AsOpError ProtocolCode ctx p source options)
    (λ r w, attempted visible (remotePath a p) source f r (files (remote w))).
Proof.
  unfold Write.
  destruct (IsRoot p); [apply triple_throw; intros; by apply ftp_untouched_attempted|].
  destruct (wIfNoneMatch options); [apply triple_throw; intros; by apply ftp_untouched_attempted|].
  apply (triple_bind _ (λ (_ : unit) w,
    attempted visible (remotePath a p) source f (Ok tt) (files (remote w)))).
  - apply (triple_bind _ (λ x w, match x with
      | inl _ => attempted visible (remotePath a p) source f (Ok tt) (files (remote w))
      | inr e => attempted visible (remotePath a p) source f (Err (A:=unit) e) (files (remote w)) end)).
    + apply (triple_attempt _ _ (λ r w, attempted visible (remotePath a p) source f r (files (remote w))));
        [|intros w; split_and!; [intros [] H|intros e H|intros msg H]; exact H].
      apply (triple_keeps_bind False);
        [solve [keeps_ftp]|intros w Hw; by apply ftp_untouched_attempted|intros ss; apply write_spec].
    + intros [[]|e]; [by apply triple_ret|by apply triple_throw].
  - intros _ t w (tmp & Ht & Hc).
    destruct (at_StatPath (files (remote w)) ctx p t w) as [-> Hp]; [done|].
    exists tmp. split; [done|]. destruct (run_result _ t w); [done| |done].
    right. destruct Hc as [Hpub Habs]. by destruct (published_agrees _ _ _ _ _ Hpub).
Qed.
End write.

(** C27: Publication over FTP, for every server that meets [FtpServer] and every schedule
    of abandoned connection attempts: whatever fails or is cancelled and at whatever step,
    a write ends, and there is one temporary name beside the target such that a write that
    reports success left the whole source under the target, the temporary name free and
    every other file as it was; a write that fails left every file but the temporary one
    as it was, or, when it failed after the whole source had been stored, every file but
    the temporary one and the target, whose renaming a server need not make atomic.  If the
    server hides no file (a 550 or a listing without the name means there is none), a
    write touches the target only where it named no file.  The session may come from
    machine or from legacy listings. *)
Theorem ftp_Write_creates {S} (C : protocolClient S) rnd ProtocolCode
    `{!FtpServer C rnd} AsOpError address username password dial_opts
    root maxList prof caps ctx p source options t w :
  let a := mkAdapter (realSession (flying C) ProtocolCode)
             (connect C address username password dial_opts) (on_net rnd) root maxList prof caps in
  let target := remotePath a p in
  let visible := hides_nothing C rnd ProtocolCode in
  let '(r, (_, w')) := Write a AsOpError ProtocolCode ctx p source options t w in
  let f := files (net (remote w)) in
  let f' := files (net (remote w')) in
  ∃ tmp, temporary_of target tmp ∧
  match r with
  | Ok _ => published target tmp source f f' ∧ (visible → f !! target = None)
  | Err _ => agree_off tmp f f' ∨
      ((∃ content, ReadAll source = (content, None)) ∧ agree_off2 tmp target f f' ∧
       (visible → f !! target = None))
  | Panic _ => False
  end.
Proof.
  intros a target visible.
  pose proof (ftp_Write_spec AsOpError ProtocolCode (connect C address username password dial_opts)
    root maxList prof caps (connect_files address username password dial_opts) ctx p source options (files (net (remote w))) t w eq_refl) as H.
  unfold run_result, run_state in H. fold a in H.
  destruct (Write a _ _ _ _ _ _ t w) as [r [t' w']]. destruct H as (tmp & Ht & H). exists tmp. split; [done|].
  assert (Hv : visible → hides_nothing (flying C) (on_net rnd) ProtocolCode) by apply flying_hides_nothing.
  destruct r; naive_solver.
Qed.
