(* ===== verification/FtpSpec.v ===== *)
(** * Policy and listings of the FTP adapter

    What a configuration must say before anything is dialled, and the bounded walk
    of a listing through reconnections. *)

From S2P Require Import Prelude GoStrings Errors Effects Hoare Paths Capability Contracts Iterator Digest Remote RemoteNames Walk Ftp.

(** ** Construction *)

(** The configurations [Open] dials with. *)
Definition acceptable (c : Config) : Prop :=
  blank (Address c) = false ∧ blank (Username c) = false ∧ Password c ≠ [] ∧
  ConfigTLSMode c = TLSPlaintext ∧ AllowPlaintext c = true ∧ ConfigDataMode c ≤ Active ∧
  (∃ root, validateRoot (ConfigRoot c) = Ok root ∧ (root = [slash] ∨ AllowUnsafeSubroot c = true)) ∧
  0 ≤ Timeout c ∧ 0 ≤ MaxListEntries c.

(** What [newAdapter] returns when it succeeds. *)
Lemma newAdapter_settings {S} (R : remoteSession S) rnd ctx dial root max prof t s a ss :
  run_result (newAdapter R rnd (Some ctx) (Some dial) root max prof) t s = Ok (a, ss) →
  validateRoot root = Ok (Ftp.root a) ∧ 0 < max ∧ maxList a = max ∧
  capabilities a = set_of adapter_capabilities ∧
  profile a = mkProfile (TLSMode prof) (DataMode prof) (MachineListings prof || rMachineListings R ss).
Proof.
  unfold newAdapter. unfold run_result, bind, lift_result, check_ctx, poll, ret, throw.
  destruct (validateRoot root) as [rt|e|m]; [|done..].
  destruct (max <=? 0) eqn:Hm; [done|]. destruct (ctx_Err ctx t); [done|]. cbn beta iota.
  destruct (dial ctx (t + 1) s) as [[ss'|e|m] [t' s']]; [|done..].
  destruct (ctx_Err ctx t') as [err|].
  { unfold ignored, bind, attempt, ret. destruct (rQuit R ss' (t' + 1) s') as [[] []]; done. }
  rewrite NewCapabilitySet_known by decide_now. cbn -[set_of]. intros [= <- <-].
  split_and!; [done|lia|done..].
Qed.

(** The outcome of [Open], as the configuration decides it. *)
Definition policy {S} (c : Config) (s : S) (r : result (Adapter S * session)) (s' : S) : Prop :=
  (¬ acceptable c → s' = s ∧ ∃ e, r = Err e) ∧
  ∀ a ss, r = Ok (a, ss) →
    validateRoot (ConfigRoot c) = Ok (root a) ∧ maxList a = defaultMaxList (MaxListEntries c) ∧
    0 < maxList a ∧ capabilities a = set_of adapter_capabilities ∧
    profile a = mkProfile TLSPlaintext (ConfigDataMode c) ss.2.

Lemma refused {S} (c : Config) (s : S) e s' : s' = s → policy c s (Err e) s'.
Proof. intros ->. split; [by eauto|done]. Qed.

Lemma OpenAdapter_policy {S} (C : protocolClient S) ProtocolCode rnd ctx c (s : flight S) :
  triple (λ s0, s0 = s) (OpenAdapter C ProtocolCode rnd ctx c) (policy c s).
Proof.
  unfold OpenAdapter. destruct ctx as [ctx|]; [|by apply triple_throw, refused].
  apply triple_check_ctx_bind; [apply refused|].
  destruct (blank (Address c)) eqn:?; [by apply triple_throw, refused|].
  destruct (blank (Username c)) eqn:?; [by apply triple_throw, refused|].
  case_bool_decide; [by apply triple_throw, refused|].
  destruct (_ >? TLSPlaintext); [by apply triple_throw, refused|].
  destruct (_ >? Active) eqn:?; [by apply triple_throw, refused|].
  destruct (ConfigTLSMode c =? TLSPlaintext) eqn:?; cbn [negb andb];
    [|repeat case_match; by apply triple_throw, refused].
  destruct (AllowPlaintext c) eqn:?; cbn [negb andb]; [|by apply triple_throw, refused].
  destruct (validateRoot (ConfigRoot c)) as [root|e|m] eqn:Hroot.
  2: by intros t s0 ->; apply refused.
  2: by apply validate_root_total in Hroot.
  apply triple_lift_bind; [done|]. intros root' [= <-].
  destruct (bool_decide (root ≠ [slash]) && negb (AllowUnsafeSubroot c)) eqn:Hsub;
    [by apply triple_throw, refused|].
  destruct (Timeout c <? 0) eqn:?; [by apply triple_throw, refused|].
  destruct (MaxListEntries c <? 0) eqn:?; [by apply triple_throw, refused|].
  apply triple_check_ctx_bind; [apply refused|]. intros t s0 ->. split.
  - intros Hna. destruct Hna. split_and!; try (done || lia).
    exists root. split; [done|]. apply andb_false_iff in Hsub as [?%bool_decide_eq_false|?%negb_false_iff];
      [left; by apply dec_stable|by right].
  - intros a ss Ha. apply newAdapter_settings in Ha as (Hr & Hm & Hmax & Hc & Hp).
    apply validate_root_idem in Hroot as Hidem. unfold validateRoot in *.
    assert (ConfigTLSMode c = TLSPlaintext) as Htls by lia. rewrite Htls in Hp.
    split_and!; [congruence|done|lia|done|done].
Qed.

(** C32: The security policy is enforced before anything is dialled.  Unless the
    configuration names an address, a user and a password, asks for plaintext and
    explicitly allows it (every TLS mode is refused), has a known data mode, a valid
    root that is the server's own or is explicitly allowed to be below it, and no
    negative bound, [Open] fails and performs no call of the protocol client.  An
    adapter that [Open] returns has the validated root, a positive listing bound
    (the configured one, or 10,000), exactly the declared capabilities, and a
    profile that says what the session negotiated. *)
Theorem ftp_Open_policy {S} (C : protocolClient S) ProtocolCode rnd ctx c t (s : flight S) :
  let '(r, (_, s')) := OpenAdapter C ProtocolCode rnd ctx c t s in
  (¬ acceptable c → s' = s ∧ ∃ e, r = Err e) ∧
  ∀ a ss, r = Ok (a, ss) →
    validateRoot (ConfigRoot c) = Ok (root a) ∧ maxList a = defaultMaxList (MaxListEntries c) ∧
    0 < maxList a ∧ capabilities a = set_of adapter_capabilities ∧
    profile a = mkProfile TLSPlaintext (ConfigDataMode c) ss.2.
Proof.
  pose proof (OpenAdapter_policy C ProtocolCode rnd ctx c s t s eq_refl) as H.
  unfold run_result, run_state in H. by destruct (OpenAdapter _ _ _ _ _ t s) as [r [t' s']].
Qed.

(** ** Listing *)

Section listing.
Context {S : Type} (a : Adapter S) (AsOpError : error → bool) (ProtocolCode : error → option Z).
Local Abbreviation R := (sessions_api a).
Hypothesis dial_returns : ∀ ctx, returns (dial a ctx).
Hypothesis quit_returns : ∀ ss, returns (rQuit R ss).
Hypothesis stat_returns : ∀ ss n, returns (rStat R ss n).
Hypothesis list_returns : ∀ ss n, returns (rList R ss n).

Local Abbreviation anywhere := (λ _ : ftp_world S, True).

Lemma ftp_call_returns {A} (m : M S A) : returns m → keeps False anywhere (call m).
Proof.
  intros H. eapply triple_conseq; [apply (triple_call _ _ _ H)|done|]. by intros [] w.
Qed.
Lemma set_session_returns ss : keeps False anywhere (set_session ss).
Proof. by intros t w Hw. Qed.
Local Hint Resolve ftp_call_returns set_session_returns : keeps.

Lemma currentSession_returns ctx : keeps False anywhere (currentSession a ctx).
Proof. unfold currentSession, current_or_dial. keeps_split. Qed.
Lemma invalidate_returns ss : keeps False anywhere (invalidate a ss).
Proof. unfold invalidate, drop_session. keeps_with ltac:(apply keeps_ignored). Qed.
Lemma rejectLink_returns ss p final : keeps False anywhere (rejectLink a ProtocolCode ss p final).
Proof. unfold rejectLink. induction (link_candidates a p final); simpl; keeps_split. Qed.
Lemma read_children_returns ctx ss p : returns (read_children a ctx ss p).
Proof.
  eapply triple_conseq; [apply (keeps_bind False anywhere); auto with keeps|done|]. by intros r w [_ ?].
Qed.

Lemma list_entries_listed ctx ss directory recursive limit :
  wf_path directory → 0 < limit →
  triple anywhere (list_entries a ProtocolCode ctx ss directory recursive limit)
    (λ r _, listed directory limit r).
Proof.
  intros Hd Hl. apply (triple_keeps_bind False).
  - destruct (negb (IsRoot directory)); [apply rejectLink_returns|apply keeps_ret].
  - by intros w _.
  - intros _ t w _. apply walk_bounded; [|done..]. intros p. apply read_children_returns.
Qed.

Lemma ListEntries_listed ctx directory options t w :
  wf_path directory → 0 < maxList a →
  match run_result (ListEntries a AsOpError ProtocolCode ctx directory options) t w with
  | Ok it => listed directory (effectiveListLimit (Limit options) (maxList a)) (Ok (entries it))
  | Err _ => True
  | Panic _ => False
  end.
Proof.
  intros Hd Hmax. unfold ListEntries. destruct (Limit options <? 0) eqn:Hlim; [done|].
  set (limit := effectiveListLimit _ _).
  assert (Hl : 0 < limit) by (unfold limit, effectiveListLimit; case_match; lia).
  apply (triple_bind anywhere (λ es _, listed directory limit (Ok es))
    (λ r _, match r with Ok it => listed directory limit (Ok (entries it)) | Err _ => True
            | Panic _ => False end)); [|by intros es; apply triple_ret|done].
  apply (triple_bind _ (λ x _, match x with inl es => listed directory limit (Ok es) | _ => True end)).
  - eapply triple_attempt;
      [apply (triple_reconnecting _ _ _ anywhere ctx true _ (λ r _, listed directory limit r))|].
    + apply currentSession_returns.
    + apply invalidate_returns.
    + done.
    + intros ss. eapply triple_conseq; [by apply list_entries_listed|done|done].
    + intros w'. simpl. auto.
  - intros [es|e]; [by apply triple_ret|by apply triple_throw].
Qed.
End listing.

(** A listing over FTP is bounded and confined, whatever the server answers
    and through a reconnection: for an adapter with a positive bound, [List] ends
    (the fuel of the model, [limit + 1] directories, is never exhausted), and when
    it succeeds the entries are sorted by path, at most the smaller of the
    requested and the configured limit, and all strictly below the listed
    directory, also when the server sends names with separators or parent
    segments. *)
Theorem ftp_List_bounded {S} (a : Adapter S) AsOpError ProtocolCode ctx directory options t w :
  (∀ ctx, returns (dial a ctx)) → (∀ ss, returns (rQuit (sessions_api a) ss)) →
  (∀ ss n, returns (rStat (sessions_api a) ss n) ∧ returns (rList (sessions_api a) ss n)) →
  wf_path directory → 0 < maxList a →
  match run_result (ListEntries a AsOpError ProtocolCode ctx directory options) t w with
  | Ok it =>
      Sorted (key_le (λ e, value (ePath e))) (entries it) ∧
      len (entries it) ≤ effectiveListLimit (Limit options) (maxList a) ∧
      Forall (λ e, below directory (ePath e)) (entries it)
  | Err _ => True
  | Panic _ => False
  end.
Proof.
  intros Hdial Hquit Hret Hd Hmax. by apply (ListEntries_listed a AsOpError ProtocolCode);
    [..|intros ss n; apply Hret|intros ss n; apply Hret| |].
Qed.

(** ** Legacy listings of the root *)

(** Without machine listings the root itself is looked up in its own listing, where
    no entry is called [/]: it is reported unavailable although it can be listed. *)
Lemma legacy_root_unavailable {S} (C : protocolClient S) ProtocolCode client entries t t' s s' :
  cList C client [slash] t s = (Ok entries, (t', s')) → [slash] ∉ leName <$> entries →
  run_result (realSession_Stat C ProtocolCode (client, false) [slash]) t s = Err errFileUnavailable.
Proof.
  intros Hl Hn. unfold realSession_Stat, stat_legacy, run_result, bind. simpl.
  change (path_Dir [slash]) with [slash]. change (path_Base [slash]) with [slash]. rewrite Hl.
  clear Hl. revert Hn. induction entries as [|entry entries IH]; intros Hn; [done|]. simpl.
  rewrite decide_False by set_solver. apply IH. set_solver.
Qed.
