(* ===== verification/FtpStream.v ===== *)
(** * Read streams of the FTP adapter

    [Open] returns while a goroutine still runs [Retrieve] into an [io.Pipe] and
    holds the adapter's operation mutex; a second goroutine watches the context,
    and the consumer reads and closes.  They interleave, so the stream is a step
    relation.  The client library is arbitrary inside [Retrieve]: it writes what it
    likes, goes on after a failed write if it likes, and returns what it likes. *)

From S2P Require Import Prelude GoStrings Errors Effects Paths Remote Ftp.

(** ** State *)

(** The goroutine of [transfer]; [replay] tells its two [Retrieve] calls apart. *)
Inductive transfer :=
  | Retrieving (replay : bool) (ss : Z)
  (** inside [countingWriter.Write], with these bytes still to hand over *)
  | Writing (replay : bool) (ss : Z) (written : Z) (rest : bytes)
  | Failed (ss : Z) (err : error)
  | Reconnecting (err : error)
  | Finishing (err : option error)
  | PipeClosed
  | DoneClosed
  | Finished.

(** The goroutine that reads: idle or inside [Read]. *)
Inductive consumer := Idle | Reading.

(** The goroutine that calls [Close]: not inside it, inside [closeOnce] after the
    pipe was closed, or waiting for [done]. *)
Inductive closer := Outside | Aborting | Waiting.

(** The goroutine of [watchCancellation]. *)
Inductive watcher := Watching | Cancelling | Gone.

Record state := mkState {
  ctx_err : option error;        (* s.ctx.Err() *)
  werr : option error;           (* the pipe's write-side close error *)
  rerr : option error;           (* the pipe's read-side close error *)
  tr : transfer;
  cons : consumer;
  clo : closer;
  wat : watcher;
  wroteAny : bool;               (* counting.wroteAny *)
  current : option Z;            (* a.session *)
  aborted : list Z;              (* sessions on which Abort was called *)
  done : bool;                   (* s.done is closed *)
  opMu : bool;                   (* the operation mutex is locked *)
  once : bool;                   (* s.closeOnce has started *)
  offered : bytes;               (* bytes passed to Write by the Retrieve that runs *)
  got1 : bytes;                  (* bytes read of the first Retrieve *)
  got2 : bytes;                  (* bytes read of the second *)
  retrieved : option (option error); (* what the last Retrieve returned *)
  seen : option error;           (* the error of the last Read *)
  closes : list (option error);  (* results of Close *)
}.

(** The end of [Open], once it has prepared the session [ss]. *)
Definition start (ss : Z) : state :=
  mkState None None None (Retrieving false ss) Idle Outside Watching false (Some ss) [] false true false
    [] [] [] None None [].

(** *** The pipe *)

Definition pipe_closed (s : state) : bool :=
  bool_decide (is_Some (werr s)) || bool_decide (is_Some (rerr s)).

(** What [PipeReader.Read] reports once the pipe is closed. *)
Definition readCloseError (s : state) : error :=
  match rerr s, werr s with
  | None, Some e => e
  | _, _ => Sentinel ErrClosedPipe
  end.

(** [onceError.Store]: the first error stays. *)
Definition store_first (old : option error) (err : error) : option error :=
  match old with Some e => Some e | None => Some err end.

(** *** Field updates *)

Definition set_tr (x : transfer) (s : state) : state :=
  mkState (ctx_err s) (werr s) (rerr s) x (cons s) (clo s) (wat s) (wroteAny s) (current s) (aborted s)
    (done s) (opMu s) (once s) (offered s) (got1 s) (got2 s) (retrieved s) (seen s) (closes s).

Definition set_cons (x : consumer) (s : state) : state :=
  mkState (ctx_err s) (werr s) (rerr s) (tr s) x (clo s) (wat s) (wroteAny s) (current s) (aborted s)
    (done s) (opMu s) (once s) (offered s) (got1 s) (got2 s) (retrieved s) (seen s) (closes s).

Definition set_clo (x : closer) (s : state) : state :=
  mkState (ctx_err s) (werr s) (rerr s) (tr s) (cons s) x (wat s) (wroteAny s) (current s) (aborted s)
    (done s) (opMu s) (once s) (offered s) (got1 s) (got2 s) (retrieved s) (seen s) (closes s).

Definition set_wat (x : watcher) (s : state) : state :=
  mkState (ctx_err s) (werr s) (rerr s) (tr s) (cons s) (clo s) x (wroteAny s) (current s) (aborted s)
    (done s) (opMu s) (once s) (offered s) (got1 s) (got2 s) (retrieved s) (seen s) (closes s).

(** [countingWriter.Write] returned after handing over [written] bytes. *)
Definition count (written : Z) (s : state) : state :=
  mkState (ctx_err s) (werr s) (rerr s) (tr s) (cons s) (clo s) (wat s) (wroteAny s || (written >? 0))
    (current s) (aborted s) (done s) (opMu s) (once s) (offered s) (got1 s) (got2 s) (retrieved s)
    (seen s) (closes s).

Definition set_current (x : option Z) (s : state) : state :=
  mkState (ctx_err s) (werr s) (rerr s) (tr s) (cons s) (clo s) (wat s) (wroteAny s) x (aborted s)
    (done s) (opMu s) (once s) (offered s) (got1 s) (got2 s) (retrieved s) (seen s) (closes s).

Definition offer (b : bytes) (s : state) : state :=
  mkState (ctx_err s) (werr s) (rerr s) (tr s) (cons s) (clo s) (wat s) (wroteAny s) (current s) (aborted s)
    (done s) (opMu s) (once s) (offered s ++ b) (got1 s) (got2 s) (retrieved s) (seen s) (closes s).

(** A [Retrieve] returned [r]. *)
Definition retrieve_returns (r : option error) (s : state) : state :=
  mkState (ctx_err s) (werr s) (rerr s) (tr s) (cons s) (clo s) (wat s) (wroteAny s) (current s) (aborted s)
    (done s) (opMu s) (once s) (offered s) (got1 s) (got2 s) (Some r) (seen s) (closes s).

(** The second [Retrieve] starts. *)
Definition restart (s : state) : state :=
  mkState (ctx_err s) (werr s) (rerr s) (tr s) (cons s) (clo s) (wat s) (wroteAny s) (current s) (aborted s)
    (done s) (opMu s) (once s) [] (got1 s) (got2 s) None (seen s) (closes s).

(** The consumer's [Read] returns bytes of the first or the second [Retrieve], *)
Definition read_returns (replay : bool) (b : bytes) (s : state) : state :=
  mkState (ctx_err s) (werr s) (rerr s) (tr s) Idle (clo s) (wat s) (wroteAny s) (current s) (aborted s)
    (done s) (opMu s) (once s) (offered s) (if replay then got1 s else got1 s ++ b)
    (if replay then got2 s ++ b else got2 s) (retrieved s) None (closes s).

(** or an error. *)
Definition read_fails (e : error) (s : state) : state :=
  mkState (ctx_err s) (werr s) (rerr s) (tr s) Idle (clo s) (wat s) (wroteAny s) (current s) (aborted s)
    (done s) (opMu s) (once s) (offered s) (got1 s) (got2 s) (retrieved s) (Some e) (closes s).

(** [reader.CloseWithError(err)]. *)
Definition close_reader (err : error) (s : state) : state :=
  mkState (ctx_err s) (werr s) (store_first (rerr s) err) (tr s) (cons s) (clo s) (wat s) (wroteAny s)
    (current s) (aborted s) (done s) (opMu s) (once s) (offered s) (got1 s) (got2 s) (retrieved s)
    (seen s) (closes s).

(** [writer.CloseWithError(err)]: no error closes with [io.EOF]. *)
Definition close_writer (err : option error) (s : state) : state :=
  mkState (ctx_err s) (store_first (werr s) (default (Sentinel EOF) err)) (rerr s) (tr s) (cons s)
    (clo s) (wat s) (wroteAny s) (current s) (aborted s) (done s) (opMu s) (once s) (offered s) (got1 s)
    (got2 s) (retrieved s) (seen s) (closes s).

(** [abortTransfer]. *)
Definition abort (s : state) : state :=
  mkState (ctx_err s) (werr s) (rerr s) (tr s) (cons s) (clo s) (wat s) (wroteAny s) (current s)
    (aborted s ++ option_list (current s)) (done s) (opMu s) (once s) (offered s) (got1 s) (got2 s)
    (retrieved s) (seen s) (closes s).

(** [closeOnce.Do] runs its function. *)
Definition start_once (s : state) : state :=
  mkState (ctx_err s) (werr s) (rerr s) (tr s) (cons s) (clo s) (wat s) (wroteAny s) (current s)
    (aborted s) (done s) (opMu s) true (offered s) (got1 s) (got2 s) (retrieved s) (seen s) (closes s).

(** [Close] returns [s.ctx.Err()]. *)
Definition close_returns (s : state) : state :=
  mkState (ctx_err s) (werr s) (rerr s) (tr s) (cons s) (clo s) (wat s) (wroteAny s) (current s)
    (aborted s) (done s) (opMu s) (once s) (offered s) (got1 s) (got2 s) (retrieved s) (seen s)
    (closes s ++ [ctx_err s]).

(** [close(s.done)] and [s.adapter.opMu.Unlock()]. *)
Definition close_done (s : state) : state :=
  mkState (ctx_err s) (werr s) (rerr s) (tr s) (cons s) (clo s) (wat s) (wroteAny s) (current s)
    (aborted s) true (opMu s) (once s) (offered s) (got1 s) (got2 s) (retrieved s) (seen s) (closes s).

Definition unlock (s : state) : state :=
  mkState (ctx_err s) (werr s) (rerr s) (tr s) (cons s) (clo s) (wat s) (wroteAny s) (current s)
    (aborted s) (done s) false (once s) (offered s) (got1 s) (got2 s) (retrieved s) (seen s) (closes s).

(** The context is done. *)
Definition cancel (cause : ctx_error) (s : state) : state :=
  mkState (Some (ctx_error_value cause)) (werr s) (rerr s) (tr s) (cons s) (clo s) (wat s)
    (wroteAny s) (current s) (aborted s) (done s) (opMu s) (once s) (offered s) (got1 s) (got2 s)
    (retrieved s) (seen s) (closes s).

Section stream.
Context (AsOpError : error → bool) (ProtocolCode : error → option Z) (logicalPath : Path).

(** Whether [transfer] replays after its first [Retrieve] failed with [err]. *)
Definition replays (err : error) (s : state) : bool :=
  isConnectionError AsOpError ProtocolCode err && negb (wroteAny s) &&
  bool_decide (ctx_err s = None).

(** The error the pipe is closed with: the context's, or the mapped one. *)
Definition final_error (err : option error) (s : state) : option error :=
  mapError ProtocolCode logicalPath <$> match ctx_err s with Some e => Some e | None => err end.

Inductive step : state → state → Prop :=
  (** *** [transfer] *)
  (** the client writes; a closed pipe refuses at once *)
  | step_write_refused replay ss b s :
      tr s = Retrieving replay ss → pipe_closed s = true → step s (count 0 (offer b s))
  | step_write_start replay ss b s :
      tr s = Retrieving replay ss → pipe_closed s = false →
      step s (set_tr (Writing replay ss 0 b) (offer b s))
  (** a pending [Write] whose pipe was closed *)
  | step_write_aborted replay ss written rest s :
      tr s = Writing replay ss written rest → pipe_closed s = true →
      step s (count written (set_tr (Retrieving replay ss) s))
  (** the first [Retrieve] returns *)
  | step_retrieved ss s :
      tr s = Retrieving false ss → step s (set_tr (Finishing None) (retrieve_returns None s))
  | step_failed ss err s :
      tr s = Retrieving false ss → step s (set_tr (Failed ss err) (retrieve_returns (Some err) s))
  | step_no_replay ss err s :
      tr s = Failed ss err → replays err s = false → step s (set_tr (Finishing (Some err)) s)
  (** one replay: [invalidate], then [currentSession] *)
  | step_invalidate ss err s :
      tr s = Failed ss err → replays err s = true →
      step s (set_tr (Reconnecting err)
        (set_current (if decide (current s = Some ss) then None else current s) s))
  | step_reconnect_fails err reconnectErr s :
      tr s = Reconnecting err → step s (set_tr (Finishing (Some (Joined [err; reconnectErr]))) s)
  | step_reconnect ss err s :
      tr s = Reconnecting err → ctx_err s = None → (current s = None ∨ current s = Some ss) →
      step s (set_tr (Retrieving true ss) (set_current (Some ss) (restart s)))
  (** the second [Retrieve] returns *)
  | step_retrieved_again ss r s :
      tr s = Retrieving true ss → step s (set_tr (Finishing r) (retrieve_returns r s))
  (** the pipe is closed, then [done], then the mutex released *)
  | step_close_pipe err s :
      tr s = Finishing err → step s (set_tr PipeClosed (close_writer (final_error err s) s))
  | step_close_done s :
      tr s = PipeClosed → step s (set_tr DoneClosed (close_done s))
  | step_unlock s :
      tr s = DoneClosed → step s (set_tr Finished (unlock s))
  (** *** [Read] *)
  | step_read_cancelled e s :
      cons s = Idle → ctx_err s = Some e →
      step s (read_fails e s)
  | step_read_start s :
      cons s = Idle → ctx_err s = None → step s (set_cons Reading s)
  (** a hand-over of [n] bytes; Go's [select] may still pick it when the pipe has
      just been closed *)
  | step_handover n replay ss written rest s :
      cons s = Reading → tr s = Writing replay ss written rest → (n ≤ length rest)%nat →
      let s' := read_returns replay (take n rest) s in
      step s (if decide (drop n rest = [])
              then count (written + Z.of_nat n) (set_tr (Retrieving replay ss) s')
              else set_tr (Writing replay ss (written + Z.of_nat n) (drop n rest)) s')
  | step_read_closed s :
      cons s = Reading → pipe_closed s = true →
      step s (read_fails (readCloseError s) s)
  (** *** [Close] *)
  | step_close s :
      clo s = Outside → once s = false →
      step s (set_clo Aborting (close_reader (Sentinel ErrClosedPipe) (start_once s)))
  | step_close_abort s :
      clo s = Aborting → step s (set_clo Waiting (abort s))
  | step_close_again s :
      clo s = Outside → once s = true → step s (set_clo Waiting s)
  | step_close_returns s :
      clo s = Waiting → done s = true → step s (set_clo Outside (close_returns s))
  (** *** Cancellation *)
  | step_ctx_done cause s :
      ctx_err s = None → step s (cancel cause s)
  | step_watch_cancel e s :
      wat s = Watching → ctx_err s = Some e → step s (set_wat Cancelling (close_reader e s))
  | step_watch_abort s :
      wat s = Cancelling → step s (set_wat Gone (abort s))
  | step_watch_done s :
      wat s = Watching → done s = true → step s (set_wat Gone s).

Definition reachable (ss : Z) (s : state) : Prop := rtc step (start ss) s.

(** ** Invariant *)

Definition pending (s : state) : bytes :=
  match tr s with Writing _ _ _ rest => rest | _ => [] end.

(** The transfer has closed the pipe. *)
Definition ended (x : transfer) : bool :=
  match x with PipeClosed | DoneClosed | Finished => true | _ => false end.

(** It has closed [done]; it still holds the mutex. *)
Definition signalled (x : transfer) : bool :=
  match x with DoneClosed | Finished => true | _ => false end.
Definition locked (x : transfer) : bool := match x with Finished => false | _ => true end.

Definition is_ctx_value (e : error) : Prop := ∃ cause, e = ctx_error_value cause.

(** Which [Retrieve] the bytes read so far came from. *)
Definition one_source (s : state) : Prop :=
  match tr s with
  | Retrieving false _ | Failed _ _ => got2 s = [] ∧ (got1 s ≠ [] → wroteAny s = true)
  | Writing false _ written _ => got2 s = [] ∧ 0 ≤ written ∧ (got1 s ≠ [] → wroteAny s = true ∨ 0 < written)
  | Reconnecting _ => got1 s = [] ∧ got2 s = []
  | Retrieving true _ | Writing true _ _ _ => got1 s = []
  | _ => got1 s = [] ∨ got2 s = []
  end.

(** What the transfer knows of the last [Retrieve]. *)
Definition outcome (s : state) : Prop :=
  match tr s with
  | Failed _ err => retrieved s = Some (Some err)
  | Finishing err => retrieved s = Some err ∨ ∃ es, err = Some (Joined es)
  | _ => True
  end.

Record inv (s : state) : Prop := {
  inv_ctx : ∀ e, ctx_err s = Some e → is_ctx_value e;
  inv_werr : if ended (tr s) then is_Some (werr s) else werr s = None;
  inv_done : done s = signalled (tr s);
  inv_opMu : opMu s = locked (tr s);
  inv_source : one_source s;
  inv_bytes : rerr s = None → got1 s ++ got2 s ++ pending s = offered s;
  inv_outcome : outcome s;
  inv_eof : werr s = Some (Sentinel EOF) →
            retrieved s = Some None ∨ retrieved s = Some (Some (Sentinel EOF));
  inv_seen : seen s = Some (Sentinel EOF) →
             werr s = Some (Sentinel EOF) ∧ got1 s ++ got2 s = offered s;
  inv_closes : closes s ≠ [] → done s = true;
}.

Lemma inv_start ss : inv (start ss).
Proof. split; simpl; unfold one_source, outcome; simpl; (done || naive_solver). Qed.

Lemma stream_ctx_not_eof : ¬ is_ctx_value (Sentinel EOF).
Proof. by intros [[] ?]. Qed.

(** The writer end is open while the transfer runs, so a closed pipe was closed by
    the reading side. *)
Lemma closed_by_reader s :
  inv s → ended (tr s) = false → pipe_closed s = true → rerr s ≠ None.
Proof.
  intros Hi He Hc Hr. unfold pipe_closed in Hc. rewrite Hr in Hc.
  pose proof (inv_werr _ Hi) as Hw. rewrite He in Hw. by rewrite Hw in Hc.
Qed.

(** A read of a closed pipe sees [io.EOF] only from the transfer. *)
Lemma readCloseError_eof s :
  readCloseError s = Sentinel EOF → rerr s = None ∧ werr s = Some (Sentinel EOF).
Proof. unfold readCloseError. destruct (rerr s), (werr s); naive_solver. Qed.

Lemma final_error_eof err s :
  (∀ e, ctx_err s = Some e → is_ctx_value e) →
  default (Sentinel EOF) (final_error err s) = Sentinel EOF → err = None ∨ err = Some (Sentinel EOF).
Proof.
  intros Hctx. unfold final_error, mapError.
  destruct (ctx_err s) as [e|]; [|destruct err as [e|]; [|by left]]; simpl; case_match; try done.
  - intros ->. by destruct (Hctx _ eq_refl) as [[] ?].
  - intros ->. by right.
Qed.

(** Split the invariant of a successor state and settle what did not change. *)
Local Ltac inv_split :=
  split; simpl; unfold one_source, outcome, pending in *; simpl in *;
  repeat match goal with
  | H : tr _ = _ |- _ => rewrite H in *
  end; simpl in *;
  repeat match goal with
  | H : werr ?s = None |- _ => rewrite H in *
  | H : done ?s = false |- _ => rewrite H in *
  end; try done.

(** No read has seen the end while the transfer runs. *)
Lemma not_seen_yet s : inv s → werr s = None → seen s ≠ Some (Sentinel EOF).
Proof. intros Hi Hw E. destruct (inv_seen _ Hi E). congruence. Qed.

(** A write that ends, in the hand-over that completes it or on a closed pipe,
    counts what it handed over. *)
Lemma counted (w : bool) written : w = true ∨ 0 < written → w || (written >? 0) = true.
Proof. intros [->|?]; [done|]. apply orb_true_iff. right. lia. Qed.

Lemma inv_handover s n replay ss written rest :
  inv s → tr s = Writing replay ss written rest →
  let s' := read_returns replay (take n rest) s in
  inv (if decide (drop n rest = [])
       then count (written + Z.of_nat n) (set_tr (Retrieving replay ss) s')
       else set_tr (Writing replay ss (written + Z.of_nat n) (drop n rest)) s').
Proof.
  intros Hi Htr s'. subst s'. destruct Hi as [Hctx Hw Hd Hmu Hsrc Hb Ho He Hse Hcl].
  assert (Hpos : ∀ b, b ++ take n rest ≠ [] → b ≠ [] ∨ 0 < Z.of_nat n).
  { intros [|c b] Hb'; [right|by left]. destruct n; [by destruct rest|lia]. }
  assert (Hsum : ∀ b : bytes, drop n rest = [] → b ++ take n rest = b ++ rest).
  { intros b Hdr. pose proof (take_drop n rest) as E. rewrite Hdr, app_nil_r in E. by rewrite E. }
  destruct (decide (drop n rest = [])) as [Hdr|Hdr]; inv_split; destruct replay; try done.
  - destruct Hsrc as (? & ? & Hg). split; [done|]. intros Hne. apply counted.
    destruct (Hpos _ Hne) as [Hg1|]; [destruct (Hg Hg1); [by left|right; lia]|right; lia].
  - intros Hr. rewrite app_nil_r, Hsum, <- (Hb Hr), Hsrc by done. done.
  - intros Hr. destruct Hsrc as (Hg2 & _). rewrite Hg2 in *. rewrite app_nil_r, Hsum by done.
    by apply Hb.
  - destruct Hsrc as (? & ? & Hg). split; [done|]. split; [lia|]. intros Hne.
    destruct (Hpos _ Hne) as [Hg1|]; [destruct (Hg Hg1); [by left|right; lia]|right; lia].
  - intros Hr. rewrite <- app_assoc, take_drop. by apply Hb.
  - intros Hr. destruct Hsrc as (Hg2 & _). rewrite Hg2 in *. simpl. rewrite <- app_assoc, take_drop.
    by apply Hb.
Qed.

Lemma stream_inv_step s s' : inv s → step s s' → inv s'.
Proof.
  intros Hi Hs. pose proof stream_ctx_not_eof as Hne.
  pose proof (not_seen_yet s Hi) as Hns. pose proof (closed_by_reader s Hi) as Hrc.
  pose proof (λ n replay ss written rest, inv_handover s n replay ss written rest Hi) as Hho.
  destruct Hi as [Hctx Hw Hd Hmu Hsrc Hb Ho He Hse Hcl].
  destruct Hs as [replay ss b s Htr Hc|replay ss b s Htr Hc|replay ss written rest s Htr Hc
    |ss s Htr|ss err s Htr|ss err s Htr Hrp|ss err s Htr Hrp|err re s Htr|ss err s Htr Hctx0 Hcur
    |ss r s Htr|err s Htr|s Htr|s Htr|e s Hco Hce|s Hco Hce|n replay ss written rest s Hco Htr Hn s'
    |s Hco Hc|s Hcl0 Hon|s Hcl0|s Hcl0 Hon|s Hcl0 Hdn|cause s Hce|e s Hwa Hce|s Hwa|s Hwa Hdn];
    try (inv_split; fail).
  - (* refused *) rewrite Htr in Hrc. specialize (Hrc eq_refl Hc). inv_split.
    + destruct replay; [done|]. destruct Hsrc as [? Hg]. split; [done|]. intros ?. apply counted. auto.
    + by intros E%Hns.
  - (* started *) inv_split.
    + destruct replay; [done|]. destruct Hsrc as [? Hg]. split_and!; auto with lia.
    + intros Hr. by rewrite <- (Hb Hr), app_nil_r, app_assoc.
    + by intros E%Hns.
  - (* aborted *) rewrite Htr in Hrc. specialize (Hrc eq_refl Hc). inv_split.
    destruct replay; [done|]. destruct Hsrc as (? & ? & Hg). split; [done|]. intros ?. apply counted. auto.
  - (* retrieved *) inv_split; [by right; destruct Hsrc|by left].
  - (* not replayed *) inv_split; [by right; destruct Hsrc|by left].
  - (* invalidated *) inv_split. destruct Hsrc as [? Hg]. split; [|done].
    apply andb_true_iff in Hrp as [[_ Hwa%negb_true_iff]%andb_true_iff _].
    destruct (got1 s); [done|]. by rewrite Hg in Hwa.
  - (* reconnect failed *) inv_split; [by left; destruct Hsrc|by right; eexists].
  - (* replayed *) inv_split; [by destruct Hsrc|by destruct Hsrc as [-> ->]|by intros E%Hns].
  - (* retrieved again *) inv_split; [by left|by left].
  - (* pipe closed *) inv_split; [|by intros E%Hns].
    intros [= E%final_error_eof]; [|done]. destruct E as [->| ->], Ho as [?|[es ?]]; auto; done.
  - (* cancelled read *) inv_split. intros [= ->]. by apply Hctx in Hce.
  - (* hand-over *) by eapply Hho.
  - (* closed read *) inv_split. intros [= [Hr Hwe]%readCloseError_eof]. split; [done|].
    rewrite <- (Hb Hr). unfold pending. destruct (tr s); simpl in *; rewrite ?app_nil_r; try done.
    by rewrite Hw in Hwe.
  - (* closed *) inv_split. by destruct (rerr s).
  - (* context done *) inv_split. intros e [= <-]. by eexists.
  - (* watched *) inv_split. by destruct (rerr s).
Qed.

Lemma stream_reachable_inv ss s : reachable ss s → inv s.
Proof.
  intros Hs. refine (rtc_ind_r _ _ (inv_start ss) _ s Hs). intros x y _ Hstep Hx. by eapply stream_inv_step.
Qed.

(** ** Ending *)

Lemma finishing_ends s err :
  tr s = Finishing err → ∃ s', rtc step s s' ∧ tr s' = Finished ∧ opMu s' = false.
Proof.
  intros Htr. eexists. split; [|split; [|]].
  - eapply rtc_l; [by apply (step_close_pipe err)|].
    eapply rtc_l; [by apply step_close_done|].
    eapply rtc_l; [by apply step_unlock|]. apply rtc_refl.
  - done.
  - done.
Qed.

(** The transfer ends from [s] once it ends from a successor. *)
Lemma ends_after s s1 :
  step s s1 → (∃ s', rtc step s1 s' ∧ tr s' = Finished ∧ opMu s' = false) →
  ∃ s', rtc step s s' ∧ tr s' = Finished ∧ opMu s' = false.
Proof. intros Hs (s' & Hr & H). exists s'. split; [by eapply rtc_l|done]. Qed.

Lemma retrieving_ends s replay ss :
  tr s = Retrieving replay ss → ∃ s', rtc step s s' ∧ tr s' = Finished ∧ opMu s' = false.
Proof.
  intros Htr. destruct replay.
  - eapply ends_after; [by apply (step_retrieved_again ss None)|by eapply finishing_ends].
  - eapply ends_after; [by apply (step_retrieved ss)|by eapply finishing_ends].
Qed.

Lemma transfer_ends s :
  inv s → (pipe_closed s = true ∨ ∀ replay ss written rest, tr s ≠ Writing replay ss written rest) →
  ∃ s', rtc step s s' ∧ tr s' = Finished ∧ opMu s' = false.
Proof.
  intros Hi Hcl. pose proof (inv_opMu _ Hi) as Hmu.
  destruct (tr s) as [replay ss|replay ss written rest|ss err|err|err| | |] eqn:Htr.
  - by eapply retrieving_ends.
  - destruct Hcl as [Hcl|Hnw]; [|by destruct (Hnw replay ss written rest)].
    eapply ends_after; [by eapply step_write_aborted|by eapply retrieving_ends].
  - destruct (replays err s) eqn:Hr.
    + eapply ends_after; [by eapply step_invalidate|].
      eapply ends_after; [by apply (step_reconnect_fails err err)|by eapply finishing_ends].
    + eapply ends_after; [by eapply step_no_replay|by eapply finishing_ends].
  - eapply ends_after; [by apply (step_reconnect_fails err err)|by eapply finishing_ends].
  - by eapply finishing_ends.
  - eapply ends_after; [by apply step_close_done|].
    eapply ends_after; [by apply step_unlock|]. by eexists.
  - eapply ends_after; [by apply step_unlock|]. by eexists.
  - exists s. by split; [apply rtc_refl|].
Qed.
End stream.

(** ** Properties *)

Lemma single_source s : inv s → got1 s = [] ∨ got2 s = [].
Proof.
  intros Hi. pose proof (inv_source _ Hi) as Hsrc. unfold one_source in Hsrc.
  destruct (tr s) as [[] ?|[] ? ? ?| | | | | |]; naive_solver.
Qed.

(** C29: A read stream never mixes two transfers: in every interleaving of the
    transfer, its one replay, the reader, [Close] and a cancellation, the bytes the
    reader has received come from a single [Retrieve]; once the first one delivered
    a byte there is no replay, and before a replay nothing was delivered. *)
Theorem stream_single_source AsOpError ProtocolCode logicalPath ss s :
  reachable AsOpError ProtocolCode logicalPath ss s →
  (got1 s = [] ∨ got2 s = []) ∧
  (got1 s ≠ [] → ∀ s', step AsOpError ProtocolCode logicalPath s s' →
     ∀ err ss', tr s' ≠ Reconnecting err ∧ tr s' ≠ Retrieving true ss').
Proof.
  intros Hs. apply stream_reachable_inv in Hs as Hi. split; [by apply single_source|].
  intros Hg s' Hstep err ss'. pose proof (stream_inv_step _ _ _ _ _ Hi Hstep) as Hi'.
  assert (Hg' : got1 s' ≠ []).
  { destruct Hstep; try done. subst s'. destruct (decide _); simpl; destruct replay; try done;
      by destruct (got1 s). }
  pose proof (inv_source _ Hi') as Hsrc. unfold one_source in Hsrc.
  split; intros E; rewrite E in Hsrc; naive_solver.
Qed.

(** C30: The reader sees the end of the stream only of a whole transfer: in every
    interleaving, when a [Read] returned [io.EOF], the last [Retrieve] has returned
    without an error - or with [io.EOF] itself - and the reader has received exactly
    the bytes that this [Retrieve] wrote, in order.  A transfer that failed with any
    other error, was cancelled, or was closed early never reads as complete. *)
Theorem stream_eof_complete AsOpError ProtocolCode logicalPath ss s :
  reachable AsOpError ProtocolCode logicalPath ss s → seen s = Some (Sentinel EOF) →
  got1 s ++ got2 s = offered s ∧ (got1 s = [] ∨ got2 s = []) ∧
  (retrieved s = Some None ∨ retrieved s = Some (Some (Sentinel EOF))).
Proof.
  intros Hs He. apply stream_reachable_inv in Hs as Hi. destruct (inv_seen _ Hi He) as [Hw Hb].
  split_and!; [done|by apply single_source|by apply inv_eof].
Qed.

(** C31: The operation mutex is released, and only at the end: in every reachable
    state the mutex is free exactly when the transfer has finished; a [Close] that
    has returned found the transfer past its last use of the session; and unless
    the transfer waits to hand over bytes on a pipe nobody closed, it can finish and
    release the mutex without any step of the reader, whatever the reader does -
    in particular once [Close] or the watcher has closed the pipe. *)
Theorem stream_releases AsOpError ProtocolCode logicalPath ss s :
  reachable AsOpError ProtocolCode logicalPath ss s →
  (opMu s = false ↔ tr s = Finished) ∧
  (closes s ≠ [] → done s = true ∧ ended (tr s) = true) ∧
  (pipe_closed s = true ∨ (∀ replay ss' written rest, tr s ≠ Writing replay ss' written rest) →
   ∃ s', rtc (step AsOpError ProtocolCode logicalPath) s s' ∧ tr s' = Finished ∧ opMu s' = false).
Proof.
  intros Hs. apply stream_reachable_inv in Hs as Hi. split_and!.
  - rewrite (inv_opMu _ Hi). by destruct (tr s).
  - intros Hc. pose proof (inv_closes _ Hi Hc) as Hd. split; [done|].
    rewrite (inv_done _ Hi) in Hd. by destruct (tr s).
  - by apply transfer_ends.
Qed.

Lemma nonempty_length (b : bytes) : b ≠ [] → 0 < 0 + Z.of_nat (length b).
Proof. destruct b; [done|]. cbn [length]. lia. Qed.

(** C33: A transfer that breaks off with a bare [io.EOF] reads as complete: the
    client writes the first bytes of an object and then returns [io.EOF], which the
    package itself classifies as a lost connection; the pipe is closed with that
    error, so the reader receives a part of the object and a clean end of stream. *)
Theorem bare_eof_truncates AsOpError ProtocolCode logicalPath ss part :
  ProtocolCode (Sentinel EOF) = None → part ≠ [] →
  isConnectionError AsOpError ProtocolCode (Sentinel EOF) = true ∧
  ∃ s, reachable AsOpError ProtocolCode logicalPath ss s ∧
       retrieved s = Some (Some (Sentinel EOF)) ∧
       got1 s = part ∧ seen s = Some (Sentinel EOF).
Proof.
  intros Hcode Hpart. split; [done|].
  set (s1 := set_tr (Writing false ss 0 part) (offer part (start ss))).
  set (s2 := set_cons Reading s1).
  set (s3 := count (0 + Z.of_nat (length part)) (set_tr (Retrieving false ss) (read_returns false part s2))).
  set (s4 := set_tr (Failed ss (Sentinel EOF)) (retrieve_returns (Some (Sentinel EOF)) s3)).
  set (s5 := set_tr (Finishing (Some (Sentinel EOF))) s4).
  set (s6 := set_tr PipeClosed (close_writer (Some (Sentinel EOF)) s5)).
  set (s7 := set_cons Reading s6).
  exists (read_fails (Sentinel EOF) s7). split; [|done].
  eapply rtc_l; [by eapply (step_write_start _ _ _ false ss part)|].
  eapply (rtc_l _ _ s2); [by apply step_read_start|].
  eapply (rtc_l _ _ s3).
  { pose proof (step_handover AsOpError ProtocolCode logicalPath (length part) false ss 0 part s2
      eq_refl eq_refl (le_n _)) as Hh. cbv zeta in Hh.
    rewrite firstn_all, drop_all, decide_True in Hh by done. exact Hh. }
  eapply (rtc_l _ _ s4); [by apply step_failed|].
  eapply (rtc_l _ _ s5).
  { eapply step_no_replay; [done|]. unfold replays. simpl.
    rewrite andb_true_r. apply negb_false_iff, Z.gtb_lt. by apply nonempty_length. }
  eapply (rtc_l _ _ s6).
  { pose proof (step_close_pipe AsOpError ProtocolCode logicalPath _ s5 eq_refl) as Hc.
    unfold final_error, mapError, isNotFound in Hc. simpl in Hc. rewrite Hcode in Hc. exact Hc. }
  eapply (rtc_l _ _ s7); [by apply step_read_start|].
  eapply rtc_l; [by apply (step_read_closed _ _ _ s7)|]. apply rtc_refl.
Qed.

(** ** A run *)

Definition plain (e : error) : bool := false.
Definition no_code (e : error) : option Z := None.
Local Abbreviation demo_step := (step plain no_code Root).
Local Abbreviation demo_reachable := (reachable plain no_code Root 1).

(** The first transfer loses its connection before a byte arrived; the replay on a
    new session delivers the object and the reader sees its end. *)
Definition run_failed : state :=
  set_tr (Failed 1 (Sentinel ErrUnexpectedEOF)) (retrieve_returns (Some (Sentinel ErrUnexpectedEOF)) (start 1)).
Definition run_dropped : state :=
  set_tr (Reconnecting (Sentinel ErrUnexpectedEOF)) (set_current None run_failed).
Definition run_replaying : state :=
  set_tr (Retrieving true 2) (set_current (Some 2) (restart run_dropped)).
Definition run_writing : state :=
  set_cons Reading (set_tr (Writing true 2 0 (bs "data")) (offer (bs "data") run_replaying)).
Definition run_delivered : state :=
  count 4 (set_tr (Retrieving true 2) (read_returns true (bs "data") run_writing)).
Definition run_ended : state :=
  set_tr PipeClosed (close_writer None (set_tr (Finishing None) (retrieve_returns None run_delivered))).
Definition run_eof : state := read_fails (Sentinel EOF) (set_cons Reading run_ended).

Lemma run_delivered_reachable : demo_reachable run_delivered.
Proof.
  eapply (rtc_l _ _ run_failed); [by apply step_failed|].
  eapply (rtc_l _ _ run_dropped); [by eapply (step_invalidate _ _ _ 1)|].
  eapply (rtc_l _ _ run_replaying); [eapply (step_reconnect _ _ _ 2 _ run_dropped); by auto|].
  eapply rtc_l; [by eapply (step_write_start _ _ _ true 2 (bs "data") run_replaying)|].
  eapply (rtc_l _ _ run_writing); [by apply step_read_start|].
  eapply (rtc_l _ _ run_delivered); [|apply rtc_refl].
  by apply (step_handover _ _ _ 4 true 2 0 (bs "data") run_writing); [..|simpl; lia].
Qed.

Lemma stream_eof_reachable : demo_reachable run_eof.
Proof.
  unfold reachable. etransitivity; [apply run_delivered_reachable|].
  eapply rtc_l; [by apply (step_retrieved_again _ _ _ 2 None)|].
  eapply (rtc_l _ _ run_ended); [by apply (step_close_pipe _ _ _ None)|].
  eapply rtc_l; [by apply (step_read_start _ _ _ run_ended)|].
  eapply rtc_l; [by apply (step_read_closed _ _ _ (set_cons Reading run_ended))|]. apply rtc_refl.
Qed.

Lemma stream_single_source_witness :
  got2 run_eof = bs "data" ∧ (got1 run_eof = [] ∨ got2 run_eof = []).
Proof.
  split; [reflexivity|]. apply (stream_single_source plain no_code Root 1 run_eof).
  exact stream_eof_reachable.
Defined.

Lemma stream_eof_complete_witness :
  seen run_eof = Some (Sentinel EOF) ∧ got1 run_eof ++ got2 run_eof = bs "data" ∧
  got1 run_eof ++ got2 run_eof = offered run_eof.
Proof.
  split; [reflexivity|]. split; [reflexivity|].
  apply (stream_eof_complete plain no_code Root 1 run_eof); [exact stream_eof_reachable|reflexivity].
Defined.

(** The transfer is inside [Retrieve] and can end without the reader. *)
Lemma stream_releases_witness :
  opMu run_delivered = true ∧ ∃ s', rtc demo_step run_delivered s' ∧ tr s' = Finished ∧ opMu s' = false.
Proof.
  split; [reflexivity|].
  apply (stream_releases plain no_code Root 1 run_delivered); [exact run_delivered_reachable|].
  right. intros replay ss written rest. discriminate.
Defined.

Lemma bare_eof_truncates_witness :
  no_code (Sentinel EOF) = None ∧ bs "part" ≠ [] ∧
  ∃ s, demo_reachable s ∧ retrieved s = Some (Some (Sentinel EOF)) ∧ got1 s = bs "part" ∧
       seen s = Some (Sentinel EOF).
Proof.
  split; [reflexivity|]. split; [discriminate|].
  apply (bare_eof_truncates plain no_code Root 1 (bs "part")); [reflexivity|discriminate].
Defined.
