(* ===== verification/FtpMem.v ===== *)
(** * A server that meets [FtpServer] and [FtpConnections]

    An FTP server without directories that keeps its files in memory, hides none and
    announces machine listings, and the properties of [FtpSessions.v], [FtpWrite.v] and
    [FtpSpec.v] at it. *)

From S2P Require Import Prelude GoStrings Errors Effects Hoare Paths Capability Contracts Iterator Digest Remote RemoteNames Walk Ftp FtpServer FtpSessions FtpWrite FtpSpec.

Record server := mkServer { sfiles : gmap bytes bytes; slive : gset Z }.

(** A reply of the server with code 550. *)
Definition unavailable : error := Sentinel FsErrNotExist.
Definition reply_code (e : error) : option Z :=
  match e with Sentinel FsErrNotExist => Some 550 | _ => None end.

(** Read the source to its end, then replace the file. *)
Fixpoint s_store (fuel : nat) (n : bytes) (rd : read_fn server reader) (source : reader)
    (acc : bytes) : M server unit :=
  match fuel with
  | O => throw (NewError "transfer aborted")
  | S fuel' =>
      let! x := rd source 4096 in
      let '(chunk, err, source') := x in
      match err with
      | None => s_store fuel' n rd source' (acc ++ chunk)
      | Some (Sentinel EOF) =>
          let! s := get in put (mkServer (<[n := acc ++ chunk]> (sfiles s)) (slive s))
      | Some err => throw err
      end
  end.

(** The files of a directory. *)
Definition in_dir (d : bytes) (s : server) : list (bytes * bytes) :=
  filter (λ x, path_Dir x.1 = d) (map_to_list (sfiles s)).

Definition client : protocolClient server := {|
  cDial _ _ :=
    let! s := get in
    let c := fresh (slive s) in
    do! put (mkServer (sfiles s) ({[c]} ∪ slive s)) in ret c;
  cLogin _ _ _ := ret tt;
  cFeatures _ := ret {[bs "MLST" := []]};
  cStore _ n rd source := s_store (1 + length source) n rd source [];
  cMLStat _ n :=
    let! s := get in
    match sfiles s !! n with
    | Some c => ret (mkMLEntry (path_Base n) (len c) 0 (bs "file"))
    | None => throw unavailable
    end;
  cList _ d :=
    let! s := get in ret ((λ x, mkListEntry (path_Base x.1) (len x.2) (bs "file")) <$> in_dir d s);
  cModTime _ _ := ret 0;
  cMLList _ d :=
    let! s := get in ret ((λ x, mkMLEntry (path_Base x.1) (len x.2) 0 (bs "file")) <$> in_dir d s);
  cMakeDir _ _ := ret tt;
  cDelete _ n := let! s := get in put (mkServer (delete n (sfiles s)) (slive s));
  cRename _ old new :=
    let! s := get in
    match sfiles s !! old with
    | Some c => put (mkServer (<[new := c]> (delete old (sfiles s))) (slive s))
    | None => throw unavailable
    end;
  cAbort _ := ret tt;
  cQuit c := let! s := get in put (mkServer (sfiles s) (slive s ∖ {[c]}));
|}.

Definition s_random : M server bytes := ret (replicate 16 Ascii.zero).

Lemma s_store_spec fuel n rd source acc t s :
  detached rd →
  slive (run_state (s_store fuel n rd source acc) t s) = slive s ∧
  match run_result (s_store fuel n rd source acc) t s with
  | Ok _ => ∃ b, delivers rd source b ∧
      sfiles (run_state (s_store fuel n rd source acc) t s) = <[n := acc ++ b]> (sfiles s)
  | Err _ => sfiles (run_state (s_store fuel n rd source acc) t s) = sfiles s
  | Panic _ => False
  end.
Proof.
  intros Hd. revert source acc t. induction fuel as [|fuel IH]; intros source acc t; [done|].
  destruct (Hd source 4096 t s) as ([[chunk err] source'] & t' & Hx).
  unfold run_result, run_state in *. cbn [s_store]. unfold bind. rewrite Hx.
  unfold throw, get, put. destruct err as [err|].
  - destruct err as [[]| | | | | |]; simpl; (split; [done|]); try done.
    exists chunk. split; [by eapply delivers_end|done].
  - destruct (IH source' (acc ++ chunk) t') as [Hl Hr]. split; [done|].
    destruct (s_store fuel n rd source' (acc ++ chunk) t' s) as [[] [t'' s']]; simpl in *; [|done..].
    destruct Hr as (b & Hb & ->). exists (chunk ++ b). rewrite app_assoc.
    split; [by eapply delivers_more|done].
Qed.

Lemma fresh_client (l : gset Z) : fresh l ∉ l.
Proof. apply is_fresh. Qed.

Lemma in_dir_complete d s n :
  is_Some (sfiles s !! n) → path_Dir n = d →
  path_Base n ∈ leName <$> ((λ x, mkListEntry (path_Base x.1) (len x.2) (bs "file")) <$> in_dir d s).
Proof.
  intros [c Hc] Hd. apply list_elem_of_fmap. exists (mkListEntry (path_Base n) (len c) (bs "file")).
  split; [done|]. apply list_elem_of_fmap. exists (n, c). split; [done|].
  apply list_elem_of_filter. split; [done|]. by apply elem_of_map_to_list.
Qed.

(** Evaluate a law at a state: split on what the call does. *)
Local Ltac law :=
  intros; unfold calm, keeps, triple; intros; destruct_and?; subst;
  unfold run_result, run_state, client, s_random, bind, get, put, ret, throw, renamed; simpl;
  repeat (case_match; simplify_eq/=); split_and?; try done;
  naive_solver (eauto using fresh_client, in_dir_complete).

#[export] Program Instance mem_FtpServer : FtpServer client s_random := {| files := sfiles |}.
Solve Obligations with try law.
Next Obligation.
  intros c n rd source f Hd t s <-.
  destruct (s_store_spec (1 + length source) n rd source [] t s Hd) as [Hl Hr].
  change (cStore client c n rd source) with (s_store (1 + length source) n rd source []).
  destruct (run_result _ t s); [done|by rewrite Hr|done].
Qed.

Lemma mem_hides_nothing : hides_nothing client s_random reply_code.
Proof.
  split.
  - intros c n f t s <- e. unfold run_result. simpl. unfold bind, get. by destruct (sfiles s !! n).
  - intros c d f t s <- n. apply in_dir_complete.
Qed.

#[export] Program Instance mem_FtpConnections : FtpConnections client s_random := {| live := slive |}.
Solve Obligations with try law.
Next Obligation. intros address options l t s Hl. simpl. set_solver. Qed.
Next Obligation. intros c l t s Hl. split; [simpl; set_solver|done]. Qed.
Next Obligation.
  intros c n rd source Hd l t s Hl.
  destruct (s_store_spec (1 + length source) n rd source [] t s Hd) as [Hl' Hr].
  change (cStore client c n rd source) with (s_store (1 + length source) n rd source []).
  split; [by rewrite Hl'|]. by destruct (run_result _ t s).
Qed.

(** ** The properties at this server *)

Definition demo_files : gmap bytes bytes := {[bs "/srv/docs/a.txt" := bs "old"]}.
Definition demo_server : server := mkServer demo_files ∅.
Definition demo_config : Config :=
  mkConfig (bs "ftp.example:21") (bs "user") (bs "secret") (bs "/srv") true TLSPlaintext None true
    Passive false 0 10.
Definition no_error (e : error) : bool := false.
Definition demo_connector : connector (flight server) :=
  connect client (bs "ftp.example:21") (bs "user") (bs "secret") (dial_options demo_config).
Definition demo_profile : Profile := mkProfile TLSPlaintext Passive true.
Definition demo_adapter : Adapter (flight server) :=
  mkAdapter (realSession (flying client) reply_code) demo_connector (on_net s_random) (bs "/srv") 10 demo_profile
    (mkCapabilitySet [] ∅).

(** Creating a file beside another: the write succeeds and the theorem gives its
    effect; an abandoned connection attempt ends meanwhile. *)
Lemma ftp_Write_creates_witness :
  let write := Write demo_adapter no_error reply_code Background (mkPath (bs "docs/b.txt"))
                 [(bs "hel", None); (bs "lo", None)] (mkWriteOptions [] None [] false) in
  let w := mkWorld (mkFlight demo_server [ToFeatures 7] [[0%nat]; []; [0%nat]] []) None false in
  is_ok (run_result write 0 w) = true ∧ pending (remote (run_state write 0 w)) = [] ∧
  sfiles (net (remote (run_state write 0 w))) !! bs "/srv/docs/a.txt" = Some (bs "old") ∧
  demo_files !! bs "/srv/docs/b.txt" = None ∧
  ∃ tmp, temporary_of (bs "/srv/docs/b.txt") tmp ∧
    sfiles (net (remote (run_state write 0 w))) =
      <[bs "/srv/docs/b.txt" := bs "hello"]> (delete tmp demo_files).
Proof.
  intros write w.
  assert (Hok : is_ok (run_result write 0 w) = true) by (vm_compute; reflexivity).
  split; [exact Hok|]. split; [vm_compute; reflexivity|]. split; [vm_compute; reflexivity|].
  pose proof (ftp_Write_creates client s_random reply_code no_error (bs "ftp.example:21")
    (bs "user") (bs "secret") (dial_options demo_config) (bs "/srv") 10 demo_profile
    (mkCapabilitySet [] ∅) Background (mkPath (bs "docs/b.txt")) [(bs "hel", None); (bs "lo", None)]
    (mkWriteOptions [] None [] false) 0 w) as H.
  cbv zeta in H. change (Write _ _ _ _ _ _ _) with write in H. unfold run_result, run_state in *.
  destruct (write 0 w) as [[m|e|msg] [t' w']]; [|discriminate Hok..].
  destruct H as (tmp & Ht & (content & Hc & Hf) & Habs). injection Hc as <-.
  split; [exact (Habs mem_hides_nothing)|]. exists tmp. split; [exact Ht|exact Hf].
Defined.

(** A client connected, used, closed, and not connected again. *)
Lemma ftp_sessions_owned_witness :
  live (FtpConnections:=mem_FtpConnections) demo_server = ∅ ∧
  match OpenAdapter client reply_code s_random (Some Background) demo_config 0
          (mkFlight demo_server [] [] []) with
  | (Ok (a, ss), (t', fl)) =>
      let requests := [(Background, RStat Root); (Background, RClose); (Background, RStat Root)] in
      let '(res, (t'', w)) := perform_all a no_error reply_code requests t' (new_world ss fl) in
      slive (net fl) = {[ss.1]} ∧ res = Ok tt ∧ adapter_closed w = true ∧ owned fst w = ∅ ∧
      slive (net (remote w)) ⊆ owned fst w ∪ pending_clients (pending (remote w)) ∧
      ended (C:=client) (owned fst w) t'' (remote w)
  | _ => False
  end.
Proof.
  split; [reflexivity|].
  set (requests := [(Background, RStat Root); (Background, RClose); (Background, RStat Root)]).
  assert (Hres : match OpenAdapter client reply_code s_random (Some Background) demo_config 0
                         (mkFlight demo_server [] [] []) with
                 | (Ok (a, ss), (t', fl)) => slive (net fl) = {[ss.1]} ∧
                     (perform_all a no_error reply_code requests t' (new_world ss fl)).1 = Ok tt
                 | _ => False
                 end) by (split; vm_compute; reflexivity).
  pose proof (ftp_sessions_owned client s_random reply_code no_error (Some Background)
    demo_config [] [] 0 demo_server eq_refl) as H.
  destruct (OpenAdapter _ _ _ _ _ _ _) as [[[a ss]|e|msg] [t' fl]]; [|destruct Hres..].
  specialize (H requests). cbn zeta.
  destruct (perform_all a no_error reply_code requests t' (new_world ss fl)) as [res [t'' w]].
  simpl in Hres. destruct Hres as [Hl ->]. destruct H as (Hw & He & H).
  destruct H as [Hc Ho]; [reflexivity|exists Background; apply elem_of_cons; right; apply elem_of_cons; left; reflexivity|].
  split; [exact Hl|]. split; [reflexivity|]. split; [exact Hc|]. split; [exact Ho|]. split; [exact Hw|exact He].
Defined.

(** An [Open] cancelled while it dials: its client is still connected when it returns, and
    is closed when the goroutine it left behind has ended. *)
Lemma abandoned_Open :
  let opened := OpenAdapter client reply_code s_random (Some (DoneAt 4 CtxCanceled)) demo_config in
  let fl := run_state opened 0 (mkFlight demo_server [] [] []) in
  run_result opened 0 (mkFlight demo_server [] [] []) = Err (Sentinel Canceled) ∧
  slive (net fl) = pending_clients (pending fl) ∧ slive (net fl) ≠ ∅ ∧
  let fl' := run_state (run_late client [0%nat; 0%nat; 0%nat]) 5 fl in
  pending fl' = [] ∧ slive (net fl') = ∅.
Proof. vm_compute. split_and!; done. Qed.

Lemma silent_returns {A} (m : M (flight server) A) :
  silent (FtpServer:=flying_FtpServer client s_random) m → returns m.
Proof. intros H t fl _. by destruct (H _ t fl eq_refl) as [_ ?]. Qed.

(** A flat listing with a limit below the number of files. *)
Lemma ftp_List_bounded_witness :
  let s := mkServer {[bs "/srv/a" := []; bs "/srv/c" := []; bs "/srv/b" := []]} ∅ in
  let w := mkWorld (mkFlight s [] [] []) None false in
  let list := ListEntries demo_adapter no_error reply_code Background Root (mkListOptions false 2) in
  is_ok (run_result list 0 w) = true ∧
  match run_result list 0 w with
  | Ok it => Sorted (key_le (λ e, value (ePath e))) (entries it) ∧ len (entries it) ≤ 2 ∧
             Forall (λ e, below Root (ePath e)) (entries it)
  | Err _ => True
  | Panic _ => False
  end.
Proof.
  intros s w list. split; [vm_compute; reflexivity|].
  apply (ftp_List_bounded demo_adapter no_error reply_code Background Root (mkListOptions false 2) 0 w).
  - intros ctx. apply silent_returns. intros f.
    exact (connect_files (rnd:=s_random) (bs "ftp.example:21") (bs "user") (bs "secret") (dial_options demo_config) ctx f).
  - intros ss. apply silent_returns. apply (silent_Quit (FtpServer:=flying_FtpServer client s_random)).
  - intros ss n. split; apply silent_returns; [apply silent_Stat|apply silent_ListDir].
  - apply wf_Root.
  - reflexivity.
Defined.
