(* ===== verification/RenameInfo.v ===== *)
(** * The Windows rename record: [local/rename_information.go]

    The local adapter passes an exclusive rename to Windows as the bytes of a
    [FILE_RENAME_INFORMATION] structure that it lays out itself.  The serializer is
    modelled on the byte level, with Go's bounds checks, and shown to produce
    exactly the structure a reader of that layout decodes. *)

From S2P Require Import Prelude GoStrings Errors Effects.

(** [[]byte] and [[]uint16] as lists of unsigned integers. *)
Abbreviation octets := (list Z) (only parsing).

Definition windowsRenameFilenameCapacity : Z := 260.

Definition windowsObjectAttributesLength (pointerBytes : Z) : Z :=
  if pointerBytes =? 4 then 24 else if pointerBytes =? 8 then 48 else 0.

(** The [n] low bytes of [v], least significant first. *)
Fixpoint le_bytes (n : nat) (v : Z) : octets :=
  match n with O => [] | S n' => v mod 256 :: le_bytes n' (v / 256) end.

(** [binary.LittleEndian.PutUint16/32/64(information[off:end], v)] with [n] bytes:
    both the slice expression and the store check their bounds. *)
Definition put_le (n : nat) (information : octets) (off stop : Z) (v : Z) : result octets :=
  if decide (0 ≤ off ∧ off ≤ stop ∧ stop ≤ len information ∧ Z.of_nat n ≤ stop - off) then
    Ok (take (Z.to_nat off) information ++ le_bytes n v ++ drop (Z.to_nat off + n) information)
  else Panic "slice bounds out of range".

(** The loop over the units of the name. *)
Fixpoint put_units (information : octets) (off : Z) (filename : list Z) : result octets :=
  match filename with
  | [] => Ok information
  | unit :: rest =>
      result_bind (put_le 2 information off (len information) unit)
        (λ information, put_units information (off + 2) rest)
  end.

Definition marshalWindowsRenameInformation (pointerBytes directory : Z) (filename : list Z)
    : result (option octets) :=
  if negb (pointerBytes =? 4) && negb (pointerBytes =? 8) then Ok None
  else
    let filenameLength := len filename - 1 in
    if (filenameLength <? 0) || (filenameLength >=? windowsRenameFilenameCapacity) ||
       negb (bool_decide (filename !! Z.to_nat filenameLength = Some 0))
    then Ok None
    else
      let lengthOffset := 2 * pointerBytes in
      let filenameOffset := lengthOffset + 4 in
      let size := filenameOffset + 2 * windowsRenameFilenameCapacity in
      let size := Z.land (size + pointerBytes - 1) (Z.lnot (pointerBytes - 1)) in
      let information := replicate (Z.to_nat size) 0 in
      let after_directory :=
        if pointerBytes =? 4 then
          if directory >? 2 ^ 32 - 1 then Ok None
          else result_map Some (put_le 4 information pointerBytes lengthOffset (directory mod 2 ^ 32))
        else result_map Some (put_le 8 information pointerBytes lengthOffset directory) in
      result_bind after_directory (λ x,
        match x with
        | None => Ok None
        | Some information =>
            result_bind (put_le 4 information lengthOffset filenameOffset
                           ((filenameLength mod 2 ^ 32 * 2) mod 2 ^ 32)) (λ information,
              result_map Some (put_units information filenameOffset filename))
        end).

(** ** The layout *)

(** Reading a little-endian field. *)
Definition le_read (b : octets) : Z := foldr (λ x acc, x + 256 * acc) 0 b.

Definition field (information : octets) (off n : nat) : octets := take n (drop off information).

(** What a consumer of the structure with the given pointer width sees: the replace
    flag with its padding, the root directory, and the name, whose length in bytes
    the structure gives. *)
Definition read_structure (pointer : nat) (information : octets) : octets * Z * list Z :=
  let nameBytes := Z.to_nat (le_read (field information (2 * pointer) 4)) in
  (field information 0 pointer,
   le_read (field information pointer pointer),
   (λ i, le_read (field information (2 * pointer + 4 + 2 * i) 2)) <$> seq 0 (nameBytes / 2)).

Lemma length_le_bytes n v : length (le_bytes n v) = n.
Proof. revert v. induction n; intros v; simpl; auto. Qed.

Lemma le_read_bytes n v : 0 ≤ v < 256 ^ Z.of_nat n → le_read (le_bytes n v) = v.
Proof.
  revert v. induction n as [|n IH]; intros v Hv; [simpl in *; lia|].
  cbn [le_bytes]. unfold le_read in *. cbn [foldr]. rewrite IH.
  - pose proof (Z.div_mod v 256). lia.
  - rewrite Nat2Z.inj_succ, Z.pow_succ_r in Hv by lia. split; [apply Z.div_pos; lia|].
    apply Z.div_lt_upper_bound; lia.
Qed.

(** A store replaces the bytes at its offset. *)
Lemma put_le_app n pre old post stop v :
  length old = n → len pre + Z.of_nat n ≤ stop → stop ≤ len (pre ++ old ++ post) →
  put_le n (pre ++ old ++ post) (len pre) stop v = Ok (pre ++ le_bytes n v ++ post).
Proof.
  intros Hold Hlo Hhi. unfold put_le, len in *. rewrite !length_app in *. rewrite decide_True by lia. f_equal.
  rewrite Nat2Z.id, take_app_length. f_equal. f_equal.
  rewrite drop_app, drop_ge by lia. rewrite drop_app, drop_ge by lia.
  replace (length pre + n - length pre - length old)%nat with 0%nat by lia. done.
Qed.

Definition encode_units (filename : list Z) : octets := concat (le_bytes 2 <$> filename).

Lemma length_encode_units filename : length (encode_units filename) = (2 * length filename)%nat.
Proof.
  induction filename as [|u us IH]; [done|]. unfold encode_units in *. cbn [fmap list_fmap concat].
  rewrite length_app, length_le_bytes, IH. cbn [length]. lia.
Qed.

Lemma put_units_app filename pre post :
  (2 * length filename ≤ length post)%nat →
  put_units (pre ++ post) (len pre) filename =
    Ok (pre ++ encode_units filename ++ drop (2 * length filename) post).
Proof.
  revert pre post. induction filename as [|u us IH]; intros pre post Hlen; [done|].
  cbn [put_units]. simpl in Hlen.
  rewrite <- (take_drop 2 post) at 1. rewrite put_le_app; cbn [result_bind].
  - assert (Hpre : len pre + 2 = len (pre ++ le_bytes 2 u)) by (rewrite len_app; done).
    rewrite Hpre, app_assoc, IH by (rewrite length_drop; lia).
    unfold encode_units. cbn [fmap list_fmap concat]. rewrite drop_drop, <- !app_assoc.
    replace (2 * length (u :: us))%nat with (2 + 2 * length us)%nat by (simpl; lia). done.
  - rewrite length_take. lia.
  - rewrite len_app. unfold len. lia.
  - by rewrite take_drop.
Qed.

(** ** The serializer *)

(** What the serializer accepts: a pointer width of Windows, a directory handle that
    fits it, and a name of at most 260 units that ends in NUL. *)
Definition acceptable_rename (pointer : nat) (directory : Z) (filename : list Z) : Prop :=
  (pointer = 4%nat ∨ pointer = 8%nat) ∧ 0 ≤ directory < 256 ^ Z.of_nat pointer ∧
  (length filename ≤ 260)%nat ∧ last filename = Some 0.

(** The layout of the structure. *)
Definition rename_layout (pointer : nat) (directory : Z) (filename : list Z) : octets :=
  replicate pointer 0 ++ le_bytes pointer directory ++ le_bytes 4 (2 * (len filename - 1)) ++
  encode_units filename ++
  replicate ((if (pointer =? 4)%nat then 520 else 524) - 2 * length filename) 0.

Lemma last_lookup_len (filename : list Z) :
  filename ≠ [] → filename !! Z.to_nat (len filename - 1) = last filename.
Proof.
  intros Hne. rewrite last_lookup. f_equal. unfold len. destruct filename; [done|]. simpl. lia.
Qed.

(** The stores after the directory field. *)
Lemma put_rest pointer directory filename total :
  (length filename ≤ 260)%nat → 0 ≤ len filename - 1 →
  (524 ≤ total)%nat →
  let off := 2 * Z.of_nat pointer in
  result_bind (put_le 4 (replicate pointer 0 ++ le_bytes pointer directory ++ replicate total 0) off
                 (off + 4) (((len filename - 1) mod 2 ^ 32 * 2) mod 2 ^ 32))
    (λ information, result_map Some (put_units information (off + 4) filename)) =
  Ok (Some (replicate pointer 0 ++ le_bytes pointer directory ++ le_bytes 4 (2 * (len filename - 1)) ++
    encode_units filename ++ replicate (total - 4 - 2 * length filename) 0)).
Proof.
  intros Hlen Hpos Htot off.
  assert (Hmod : ((len filename - 1) mod 2 ^ 32 * 2) mod 2 ^ 32 = 2 * (len filename - 1)).
  { change (2 ^ 32) with 4294967296. unfold len in *. rewrite (Z.mod_small (_ - 1)), Z.mod_small; lia. }
  set (pre := replicate pointer 0 ++ le_bytes pointer directory).
  assert (Hoff : off = len pre).
  { unfold off, pre, len. rewrite length_app, length_replicate, length_le_bytes. lia. }
  replace total with (4 + (total - 4))%nat at 1 by lia.
  rewrite replicate_add, !app_assoc. fold pre. rewrite <- app_assoc, Hmod, Hoff, put_le_app.
  - cbn [result_bind]. rewrite app_assoc.
    replace (len pre + 4) with (len (pre ++ le_bytes 4 (2 * (len filename - 1)))).
    2: { rewrite len_app. unfold len at 2. by rewrite length_le_bytes. }
    rewrite put_units_app by (rewrite length_replicate; lia). cbn [result_map].
    rewrite drop_replicate, <- !app_assoc. unfold pre. rewrite <- !app_assoc. done.
  - by rewrite length_replicate.
  - done.
  - rewrite !len_app. unfold len. rewrite !length_replicate. lia.
Qed.

Lemma put_directory pointer directory total :
  put_le pointer (replicate (pointer + pointer + total) 0) (Z.of_nat pointer) (2 * Z.of_nat pointer)
    directory = Ok (replicate pointer 0 ++ le_bytes pointer directory ++ replicate total 0).
Proof.
  rewrite <- Nat.add_assoc, !replicate_add.
  replace (Z.of_nat pointer) with (len (replicate pointer 0)) at 1
    by (unfold len; by rewrite length_replicate).
  apply put_le_app; rewrite ?len_app; unfold len; rewrite !length_replicate; lia.
Qed.

Lemma marshal_accepts pointer directory filename :
  acceptable_rename pointer directory filename →
  marshalWindowsRenameInformation (Z.of_nat pointer) directory filename =
    Ok (Some (rename_layout pointer directory filename)).
Proof.
  intros (Hp & Hd & Hlen & Hlast).
  assert (Hne : filename ≠ []) by by intros ->.
  assert (Hpos : 0 ≤ len filename - 1) by (unfold len; destruct filename; [done|simpl; lia]).
  unfold marshalWindowsRenameInformation. rewrite last_lookup_len, Hlast, bool_decide_eq_true_2 by done.
  assert ((len filename - 1 <? 0) = false) as -> by lia.
  assert ((len filename - 1 >=? windowsRenameFilenameCapacity) = false) as ->
    by (unfold len, windowsRenameFilenameCapacity; lia).
  destruct Hp as [-> | ->]; cbv zeta; cbn [negb orb andb Z.of_nat Pos.of_succ_nat Pos.succ Z.eqb Pos.eqb].
  - replace (Z.to_nat _) with (4 + 4 + 524)%nat by reflexivity.
    assert ((directory >? 2 ^ 32 - 1) = false) as -> by (cbn in Hd; lia).
    rewrite Z.mod_small by exact Hd. rewrite (put_directory 4). cbn [result_map result_bind].
    exact (put_rest 4 directory filename 524 Hlen Hpos ltac:(lia)).
  - replace (Z.to_nat _) with (8 + 8 + 528)%nat by reflexivity.
    rewrite (put_directory 8). cbn [result_map result_bind].
    exact (put_rest 8 directory filename 528 Hlen Hpos ltac:(lia)).
Qed.

Lemma marshal_refuses pointerBytes directory filename :
  (∀ pointer, pointerBytes = Z.of_nat pointer → ¬ acceptable_rename pointer directory filename) →
  0 ≤ directory < 2 ^ 64 →
  marshalWindowsRenameInformation pointerBytes directory filename = Ok None.
Proof.
  intros Hna Hd. unfold marshalWindowsRenameInformation.
  destruct (pointerBytes =? 4) eqn:H4, (pointerBytes =? 8) eqn:H8; cbn [negb andb]; try lia; try done.
  all: destruct (_ || _) eqn:Hname; [done|].
  all: apply orb_false_iff in Hname as [[H1 H2]%orb_false_iff H3%negb_false_iff].
  all: apply bool_decide_eq_true in H3; unfold windowsRenameFilenameCapacity in H2.
  all: assert (Hne : filename ≠ []) by (intros ->; done).
  all: rewrite last_lookup_len in H3 by done.
  - destruct (directory >? 2 ^ 32 - 1) eqn:Hbig; [done|]. exfalso. apply (Hna 4%nat); [lia|].
    unfold acceptable_rename, len in *. split_and!; [by left|lia|cbn; lia|lia|done].
  - exfalso. apply (Hna 8%nat); [lia|].
    unfold acceptable_rename, len in *. split_and!; [by right|lia|cbn; lia|lia|done].
Qed.

(** *** Decoding *)

Lemma field_app pre mid post : field (pre ++ mid ++ post) (length pre) (length mid) = mid.
Proof. unfold field. by rewrite drop_app_length, take_app_length. Qed.

Lemma unit_field filename i u pre post :
  filename !! i = Some u → 0 ≤ u < 65536 →
  le_read (field (pre ++ encode_units filename ++ post) (length pre + 2 * i) 2) = u.
Proof.
  intros Hi Hu. rewrite <- (take_drop_middle filename i u Hi).
  unfold encode_units. rewrite fmap_app, concat_app. cbn [fmap list_fmap concat].
  fold (encode_units (take i filename)). rewrite <- !app_assoc, (app_assoc pre).
  assert (Hl : (length pre + 2 * i)%nat = length (pre ++ encode_units (take i filename))).
  { rewrite length_app, length_encode_units, length_take.
    apply lookup_lt_Some in Hi. lia. }
  rewrite Hl, (field_app _ (le_bytes 2 u)). by apply le_read_bytes.
Qed.

Lemma fmap_seq_lookup {A} (f : nat → A) (l : list A) :
  (∀ i x, l !! i = Some x → f i = x) → f <$> seq 0 (length l) = l.
Proof.
  intros Hf. apply list_eq. intros i. rewrite list_lookup_fmap.
  destruct (l !! i) as [x|] eqn:E.
  - pose proof (lookup_lt_Some _ _ _ E). rewrite lookup_seq_lt by done. simpl. by rewrite (Hf i x).
  - rewrite lookup_seq_ge; [done|]. by apply lookup_ge_None in E.
Qed.

Lemma read_rename_layout pointer directory us :
  acceptable_rename pointer directory (us ++ [0]) → Forall (λ u, 0 ≤ u < 65536) us →
  read_structure pointer (rename_layout pointer directory (us ++ [0])) =
    (replicate pointer 0, directory, us).
Proof.
  intros (Hp & Hd & Hlen & _) Hus. unfold read_structure, rename_layout.
  set (zeros := replicate pointer 0). set (units := encode_units (us ++ [0])).
  set (pad := replicate (_ - _) 0).
  set (size := 2 * (len (us ++ [0]) - 1)).
  rewrite length_app in Hlen. cbn [length] in Hlen.
  assert (Hsize : size = 2 * len us) by (unfold size; rewrite len_app; unfold len; simpl; lia).
  assert (Hz : length zeros = pointer) by apply length_replicate.
  assert (Hdir : length (le_bytes pointer directory) = pointer) by apply length_le_bytes.
  assert (Hfl : le_read (field (zeros ++ le_bytes pointer directory ++ le_bytes 4 size ++ units ++ pad)
                           (2 * pointer) 4) = size).
  { rewrite app_assoc. replace (2 * pointer)%nat with (length (zeros ++ le_bytes pointer directory))
      by (rewrite length_app; lia).
    rewrite (field_app _ (le_bytes 4 size)). apply le_read_bytes. rewrite Hsize. unfold len. cbn. lia. }
  rewrite Hfl. f_equal; [f_equal|].
  - unfold field. rewrite drop_0. rewrite <- Hz at 1. by rewrite take_app_length.
  - pose proof (field_app zeros (le_bytes pointer directory) (le_bytes 4 size ++ units ++ pad)) as Hf.
    rewrite Hz, Hdir in Hf. rewrite Hf. by apply le_read_bytes.
  - replace (Z.to_nat size / 2)%nat with (length us).
    2: { rewrite Hsize. unfold len. replace (Z.to_nat (2 * Z.of_nat (length us))) with (length us * 2)%nat by lia.
         by rewrite Nat.div_mul. }
    apply fmap_seq_lookup. intros i u Hi.
    rewrite (app_assoc zeros), (app_assoc (zeros ++ _)).
    replace (2 * pointer + 4 + 2 * i)%nat with
      (length ((zeros ++ le_bytes pointer directory) ++ le_bytes 4 size) + 2 * i)%nat
      by (rewrite !length_app, !length_le_bytes; lia).
    apply unit_field; [|by rewrite Forall_lookup in Hus; apply (Hus i)].
    rewrite lookup_app_l; [done|by eapply lookup_lt_Some].
Qed.

(** C24: The rename record is exact, on the byte level: for every handle and name
    the serializer returns nothing unless the pointer width is 4 or 8, the handle
    fits it, and the name is NUL-terminated with at most 260 units; otherwise it
    returns 532 or 544 bytes, a multiple of the pointer width, in which a reader of
    the Windows layout finds a zero replace flag and padding, the handle, and the
    name without its NUL.  No store is ever out of bounds. *)
Theorem rename_information_exact pointer directory filename :
  0 ≤ directory < 2 ^ 64 → Forall (λ u, 0 ≤ u < 65536) filename →
  match marshalWindowsRenameInformation (Z.of_nat pointer) directory filename with
  | Ok (Some information) =>
      acceptable_rename pointer directory filename ∧
      length information = (if (pointer =? 4)%nat then 532 else 544)%nat ∧
      read_structure pointer information = (replicate pointer 0, directory, removelast filename)
  | Ok None => ¬ acceptable_rename pointer directory filename
  | _ => False
  end.
Proof.
  intros Hd Hu. assert (Hdec : Decision (acceptable_rename pointer directory filename))
    by (unfold acceptable_rename; apply _).
  destruct (decide (acceptable_rename pointer directory filename)) as [Hok|Hno].
  - rewrite marshal_accepts by done. split; [done|]. pose proof Hok as (Hp & _ & Hlen & Hlast).
    apply last_Some in Hlast as [us ->]. apply Forall_app in Hu as [Hu _].
    rewrite removelast_last. split; [|by apply read_rename_layout].
    unfold rename_layout. rewrite !length_app, !length_le_bytes, length_encode_units, !length_replicate.
    rewrite length_app in *. simpl in *. destruct Hp as [-> | ->]; simpl; lia.
  - rewrite marshal_refuses; [done| |done]. intros pointer' Hp. by replace pointer' with pointer by lia.
Qed.

Lemma rename_information_exact_witness :
  0 ≤ 0x44332211 < 2 ^ 64 ∧
  match marshalWindowsRenameInformation 8 0x44332211 [120; 0] with
  | Ok (Some information) =>
      take 24 information =
        [0; 0; 0; 0; 0; 0; 0; 0; 0x11; 0x22; 0x33; 0x44; 0; 0; 0; 0; 2; 0; 0; 0; 120; 0; 0; 0] ∧
      read_structure 8 information = (replicate 8 0, 0x44332211, [120])
  | _ => False
  end.
Proof.
  split; [lia|].
  pose proof (rename_information_exact 8 0x44332211 [120; 0] ltac:(lia)
    ltac:(repeat constructor; lia)) as H.
  change (Z.of_nat 8) with 8 in H.
  assert (Hs : match marshalWindowsRenameInformation 8 0x44332211 [120; 0] with
               | Ok (Some information) => take 24 information =
                   [0; 0; 0; 0; 0; 0; 0; 0; 0x11; 0x22; 0x33; 0x44; 0; 0; 0; 0; 2; 0; 0; 0; 120; 0; 0; 0]
               | _ => False
               end) by (vm_compute; reflexivity).
  destruct (marshalWindowsRenameInformation 8 0x44332211 [120; 0]) as [[information|]|e|msg];
    [|destruct Hs..].
  split; [exact Hs|]. apply H.
Defined.
