(* ===== verification/Ingest.v ===== *)
(** * CSV ingestion: [integration/tabular-ingestion/composition.go]

    The reference composition reads an object through a [filesystem.Reader] into a
    CSV parser under explicit bounds.  The parser is a third-party package: it is a
    record of operations over the bounded reader it is given.  The object's stream
    and the consumer of rows are arbitrary. *)

From S2P Require Import Prelude GoStrings Errors Effects Hoare Paths Remote.

Definition ErrInvalidConfig : error := Sentinel IngestErrInvalidConfig.

Record Config := mkConfig {
  MaxObjectBytes : Z;
  MaxRecordBytes : Z;
  MaxFieldBytes : Z;
  MaxRows : Z;
}.

(** ** The bounded reader *)

(** [boundedContextReader]: its source and the bytes that remain. *)
Record boundedContextReader (R : Type) := mkBounded { source : R; remaining : Z }.
Arguments source {_}.
Arguments remaining {_}.
Arguments mkBounded {_}.

Definition bounded_Read {W R} (ctx : context) (Read : read_fn W R)
    : read_fn W (boundedContextReader R) := λ reader n,
  let! done := poll ctx in
  match done with
  | Some err => ret ([], Some err, reader)
  | None =>
      if remaining reader =? 0 then
        let! x := Read (source reader) 1 in
        let '(probe, err, source') := x in
        let reader := mkBounded source' (remaining reader) in
        if len probe >? 0 then ret ([], Some (Sentinel ErrObjectTooLarge), reader)
        else ret ([], err, reader)
      else
        let n := if n >? remaining reader then remaining reader else n in
        let! x := Read (source reader) n in
        let '(chunk, err, source') := x in
        ret (chunk, err, mkBounded source' (wrap64 (remaining reader - len chunk)))
  end.

(** ** Ingestion *)

(** What [tabular.NewCSVReader] is configured with. *)
Record DelimitedConfig := mkDelimitedConfig {
  dMaxRecordBytes : Z;
  dMaxFieldBytes : Z;
  dMaxSourceBytes : Z;
  TrimSpace : bool;
  LowerCase : bool;
  RejectEmpty : bool;
  RejectDuplicates : bool;
}.

(** The parser package: a parser with state [P] owns the reader it was given. *)
Record Tabular (W R Row P : Type) := mkTabular {
  NewCSVReader : read_fn W (boundedContextReader R) → boundedContextReader R → DelimitedConfig →
                 M W P;
  parser_Read : P → M W (Row * option error * P);
}.
Arguments NewCSVReader {_ _ _ _}.
Arguments parser_Read {_ _ _ _}.

(** [filesystem.Reader] and the stream it opens; [Open] may return a nil stream. *)
Record Source (W R : Type) := mkSource {
  sOpen : context → Path → M W (option R);
  sRead : read_fn W R;
  sClose : R → M W unit;
}.
Arguments sOpen {_ _}.
Arguments sRead {_ _}.
Arguments sClose {_ _}.

Section ingest.
Context {W R Row P : Type} (T : Tabular W R Row P).

(** The loop; [fuel] bounds the rows read. *)
Fixpoint ingest_loop (fuel : nat) (ctx : context) (maxRows : Z) (consume : Row → M W unit)
    (parser : P) (rows : Z) : M W unit :=
  match fuel with
  | O => panic "out of fuel"
  | S fuel' =>
      do! check_ctx ctx in
      let! x := parser_Read T parser in
      let '(row, err, parser) := x in
      let! contextErr := poll ctx in
      match contextErr with
      | Some contextErr => throw contextErr
      | None =>
          match err with
          | Some err => if Is err EOF then ret tt else throw err
          | None =>
              if rows =? maxRows then throw (Sentinel ErrRowLimitExceeded)
              else
                do! consume row in
                ingest_loop fuel' ctx maxRows consume parser (rows + 1)
          end
      end
  end.

(** What runs between the opening of the stream and its deferred [Close]. *)
Definition ingest_stream (ctx : context) (Read : read_fn W R) (stream : R) (config : Config)
    (consume : Row → M W unit) : M W unit :=
  let! parser := NewCSVReader T (bounded_Read ctx Read) (mkBounded stream (MaxObjectBytes config))
    (mkDelimitedConfig (MaxRecordBytes config) (MaxFieldBytes config) (MaxObjectBytes config)
       true true true true) in
  ingest_loop (1 + Z.to_nat (MaxRows config)) ctx (MaxRows config) consume parser 0.

(** [IngestCSV]; a nil context, source or callback is [None]. *)
Definition IngestCSV (ctx : option context) (src : option (Source W R)) (object : Path)
    (config : Config) (consume : option (Row → M W unit)) : M W unit :=
  match ctx, src, consume with
  | Some ctx, Some src, Some consume =>
      if (MaxObjectBytes config <=? 0) || (MaxRecordBytes config <=? 0) ||
         (MaxFieldBytes config <=? 0) || (MaxRows config <=? 0) then throw ErrInvalidConfig
      else
        let! stream := sOpen src ctx object in
        match stream with
        | None => throw ErrInvalidConfig
        | Some stream =>
            let! result := attempt (ingest_stream ctx (sRead src) stream config consume) in
            let! closed := attempt (sClose src stream) in
            let returnErr := match result with inl _ => None | inr err => Some err end in
            let closeErr := match closed with inl _ => None | inr err => Some err end in
            match Join2 returnErr closeErr with
            | None => ret tt
            | Some err => throw err
            end
        end
  | _, _, _ => throw ErrInvalidConfig
  end.
End ingest.

(** ** The byte bound *)

(** The contract of an [io.Reader] whose remaining content is [content r]: it hands
    out a prefix that fits the buffer, and reports its end only at the end. *)
Definition faithful {W R} (Read : read_fn W R) (content : R → bytes) : Prop :=
  ∀ r n t w, 0 ≤ n →
  ∃ chunk e r' t' w', Read r n t w = (Ok (chunk, e, r'), (t', w')) ∧
    content r = chunk ++ content r' ∧ len chunk ≤ n ∧
    (e = Some (Sentinel EOF) → content r' = []) ∧ e ≠ Some (Sentinel ErrObjectTooLarge).

(** Reads with the given buffer lengths, up to the first error. *)
Fixpoint reads {W R} (Read : read_fn W R) (r : R) (sizes : list Z) : M W (bytes * option error * R) :=
  match sizes with
  | [] => ret ([], None, r)
  | n :: sizes =>
      let! x := Read r n in
      let '(chunk, err, r) := x in
      match err with
      | Some _ => ret (chunk, err, r)
      | None =>
          let! y := reads Read r sizes in
          let '(rest, err, r) := y in
          ret (chunk ++ rest, err, r)
      end
  end.

Section bound.
Context {W R : Type} (Read : read_fn W R) (content : R → bytes) (ctx : context).
Hypothesis Read_faithful : faithful Read content.

(** One read of the bounded reader with [left] bytes allowed. *)
Lemma bounded_Read_step r left n t w :
  0 ≤ left ≤ MaxInt64 → 0 ≤ n →
  ∃ chunk e r' t' w',
    bounded_Read ctx Read (mkBounded r left) n t w =
      (Ok (chunk, e, mkBounded r' (left - len chunk)), (t', w')) ∧
    len chunk ≤ left ∧
    ((content r = chunk ++ content r' ∧ (e = Some (Sentinel EOF) → content r' = []) ∧
      e ≠ Some (Sentinel ErrObjectTooLarge)) ∨
     (chunk = [] ∧ e = Some (Sentinel ErrObjectTooLarge) ∧ left = 0 ∧ content r ≠ [])).
Proof.
  intros Hl Hn. unfold bounded_Read, bind, poll. simpl. destruct (ctx_Err ctx t) as [err|] eqn:Hc.
  { apply ctx_Err_value in Hc as [ce ->]. eexists [], _, r, _, _. unfold ret, len. simpl.
    rewrite Z.sub_0_r. split; [done|]. split; [lia|]. left. by destruct ce. }
  destruct (left =? 0) eqn:Hz.
  - destruct (Read_faithful r 1 (t + 1) w ltac:(lia)) as (chunk & e & r' & t' & w' & -> & Hcon & Hle & He & Hto).
    simpl. assert (left = 0) as -> by lia. destruct (len chunk >? 0) eqn:Hp; unfold ret.
    + eexists [], _, r', _, _. split; [done|]. split; [unfold len; simpl; lia|]. right.
      split_and!; try done. rewrite Hcon. by destruct chunk.
    + rewrite Z.gtb_ltb, Z.ltb_ge in Hp.
      assert (chunk = []) as -> by (destruct chunk; [done|unfold len in *; cbn [length] in *; lia]).
      eexists [], _, r', _, _. split; [done|]. split; [unfold len; simpl; lia|]. by left.
  - set (n' := if n >? left then left else n).
    assert (Hn' : 0 ≤ n' ≤ left) by (unfold n'; destruct (n >? left) eqn:?; lia).
    destruct (Read_faithful r n' (t + 1) w ltac:(lia)) as (chunk & e & r' & t' & w' & -> & Hcon & Hle & He & Hto).
    simpl. unfold ret. pose proof (len_nonneg chunk).
    rewrite wrap64_id by (unfold is_int64, MaxInt64 in *; lia).
    eexists chunk, _, r', _, _. split; [done|]. split; [lia|]. by left.
Qed.

Lemma bounded_reads r left sizes t w :
  0 ≤ left ≤ MaxInt64 → Forall (λ n, 0 ≤ n) sizes →
  ∃ got e st t' w',
    reads (bounded_Read ctx Read) (mkBounded r left) sizes t w = (Ok (got, e, st), (t', w')) ∧
    len got ≤ left ∧ (∃ rest, content r = got ++ rest) ∧
    (e = Some (Sentinel EOF) → content r = got) ∧
    (e = Some (Sentinel ErrObjectTooLarge) → len got = left ∧ left < len (content r)).
Proof.
  intros Hl Hs. revert r left t w Hl. induction Hs as [|n sizes Hn _ IH]; intros r left t w Hl.
  { eexists [], None, _, t, w. split; [done|]. unfold len. simpl. split_and!; try done; [lia|by eexists]. }
  cbn [reads]. unfold bind.
  destruct (bounded_Read_step r left n t w Hl Hn) as (chunk & e & r' & t' & w' & -> & Hle & Hcase).
  pose proof (len_nonneg chunk). destruct e as [e|].
  - eexists chunk, _, _, t', w'. split; [done|]. destruct Hcase as [(Hcon & He & Hto)|(-> & He & -> & Hne)].
    + split_and!; [done|by eexists|intros E; by rewrite Hcon, (He E), app_nil_r|done].
    + injection He as ->. split_and!; [done|by exists (content r)|done|].
      intros _. split; [done|]. destruct (content r); [done|]. unfold len. cbn [length]. lia.
  - destruct Hcase as [(Hcon & _)|(_ & [=] & _)].
    destruct (IH r' (left - len chunk) t' w' ltac:(lia)) as (got & e & st & t'' & w'' & -> & Hg & [rest Hr] & He & Hto).
    eexists (chunk ++ got), e, st, t'', w''. split; [done|]. rewrite len_app. split_and!.
    + lia.
    + exists rest. by rewrite Hcon, Hr, app_assoc.
    + intros E. by rewrite Hcon, (He E).
    + intros E. destruct (Hto E). rewrite Hcon, len_app. lia.
Qed.
End bound.

(** The byte bound is exact, for every stream that keeps the contract of
    [io.Reader], every cancellation and every sequence of buffers, as 64-bit
    arithmetic: the reader delivers a prefix of the object of at most
    [MaxObjectBytes] bytes; it reports the end only of an object delivered in full;
    and it reports [ErrObjectTooLarge] only of an object that is larger than the
    bound, after exactly that many bytes.  So an object over the bound never reads as
    complete and one within it is never refused. *)
Theorem bounded_reader_exact {W R} (Read : read_fn W R) content ctx r maxObjectBytes sizes t w :
  faithful Read content → 0 < maxObjectBytes ≤ MaxInt64 → Forall (λ n, 0 ≤ n) sizes →
  match reads (bounded_Read ctx Read) (mkBounded r maxObjectBytes) sizes t w with
  | (Ok (got, e, _), _) =>
      len got ≤ maxObjectBytes ∧ (∃ rest, content r = got ++ rest) ∧
      (e = Some (Sentinel EOF) → content r = got) ∧
      (e = Some (Sentinel ErrObjectTooLarge) →
        len got = maxObjectBytes ∧ maxObjectBytes < len (content r))
  | _ => False
  end.
Proof.
  intros Hf Hm Hs. destruct (bounded_reads Read content ctx Hf r maxObjectBytes sizes t w)
    as (got & e & st & t' & w' & -> & H); [lia|done|exact H].
Qed.

(** ** Rows and the stream *)

Section rows.
Context {W R Row P : Type} (T : Tabular W R Row P).
(** What is observed: the rows passed to the callback and the streams closed. *)
Context (consumed closed : W → Z).

Local Abbreviation at_counts k c := (λ w, consumed w = k ∧ closed w = c).

(** A call that does neither. *)
Definition quiet {A} (m : M W A) : Prop := ∀ k c, keeps False (at_counts k c) m.

(** The parser package calls nothing but the reader it is given. *)
Record quiet_parser : Prop := {
  quiet_New rd r config : (∀ r n, quiet (rd r n)) → quiet (NewCSVReader T rd r config);
  quiet_Read parser : quiet (parser_Read T parser);
}.

(** The callback is called once per row, and [Close] closes, whatever they return. *)
Definition counts_rows (consume : Row → M W unit) : Prop := ∀ row k c,
  triple (at_counts k c) (consume row)
    (λ r w, at_counts (k + 1) c w ∧ match r with Panic _ => False | _ => True end).
Definition counts_closes (src : Source W R) : Prop := ∀ stream k c,
  triple (at_counts k c) (sClose src stream)
    (λ r w, at_counts k (c + 1) w ∧ match r with Panic _ => False | _ => True end).

Hypothesis HT : quiet_parser.
Context (consume : Row → M W unit) (Hconsume : counts_rows consume).

(** Between [k] and [most] rows, no stream closed. *)
Local Abbreviation within k most c :=
  (λ (r : result unit) w, k ≤ consumed w ≤ most ∧ closed w = c ∧
     match r with Panic _ => False | _ => True end).

Lemma quiet_bounded_Read ctx rd r n :
  (∀ r n, quiet (rd r n)) → quiet (bounded_Read (W:=W) (R:=R) ctx rd r n).
Proof. intros H k c. pose proof (λ r n, H r n k c). unfold bounded_Read. keeps_split. Qed.

Lemma ingest_loop_rows fuel ctx maxRows parser rows k c :
  0 ≤ rows ≤ maxRows → maxRows - rows < Z.of_nat fuel →
  triple (at_counts k c) (ingest_loop T fuel ctx maxRows consume parser rows)
    (within k (k + (maxRows - rows)) c).
Proof.
  revert parser rows k. induction fuel as [|fuel IH]; intros parser rows k Hr Hf; [lia|].
  cbn [ingest_loop]. apply triple_check_ctx_bind; [intros e w [-> ->]; lia|].
  apply (triple_keeps_bind False); [apply (quiet_Read HT)|intros w [-> ->]; split; [intros; lia|done]|].
  intros [[row err] parser'].
  apply (triple_keeps_bind False); [apply keeps_poll|intros w [-> ->]; split; [intros; lia|done]|].
  intros [e|]; [apply triple_throw; intros w [-> ->]; lia|].
  destruct err as [err|].
  { destruct (Is err EOF); [apply triple_ret|apply triple_throw]; intros w [-> ->]; lia. }
  destruct (rows =? maxRows) eqn:Hm; [apply triple_throw; intros w [-> ->]; lia|].
  apply (triple_bind _ (λ _, at_counts (k + 1) c)).
  - eapply triple_conseq; [apply (Hconsume row k c)|done|].
    intros [] w [[Hk Hc] Hp]; simpl; [done|split_and!; [lia..|done]|done].
  - intros _. eapply triple_conseq; [apply (IH parser' (rows + 1) (k + 1)); lia|done|].
    intros r w (? & ? & ?). split_and!; try done; lia.
Qed.

Lemma ingest_stream_rows ctx rd stream config k c :
  (∀ r n, quiet (rd r n)) → 0 < MaxRows config →
  triple (at_counts k c) (ingest_stream T ctx rd stream config consume)
    (within k (k + MaxRows config) c).
Proof.
  intros Hrd Hm. unfold ingest_stream.
  apply (triple_keeps_bind False).
  - apply (quiet_New HT). intros r n. by apply quiet_bounded_Read.
  - intros w [-> ->]. split; [intros; lia|done].
  - intros parser. eapply triple_conseq; [apply (ingest_loop_rows _ ctx (MaxRows config) parser 0 k c); lia|done|].
    intros r w (? & ? & ?). split_and!; try done; lia.
Qed.

(** After the stream was opened. *)
Lemma ingest_close src ctx stream config k c :
  (∀ r n, quiet (sRead src r n)) → counts_closes src → 0 < MaxRows config →
  triple (at_counts k c)
    (let! result := attempt (ingest_stream T ctx (sRead src) stream config consume) in
     let! closed := attempt (sClose src stream) in
     let returnErr := match result with inl _ => None | inr err => Some err end in
     let closeErr := match closed with inl _ => None | inr err => Some err end in
     match Join2 returnErr closeErr with
     | None => ret tt
     | Some err => throw err
     end)
    (within k (k + MaxRows config) (c + 1)).
Proof.
  intros Hrd Hcl Hm. apply (triple_bind _ (λ _ w, k ≤ consumed w ≤ k + MaxRows config ∧ closed w = c)).
  { eapply triple_attempt; [by apply (ingest_stream_rows ctx (sRead src) stream config k c)|].
    intros w. simpl. naive_solver. }
  intros result. apply (triple_bind _ (λ _ w, k ≤ consumed w ≤ k + MaxRows config ∧ closed w = c + 1)).
  { apply (triple_attempt _ _ (λ r w, (k ≤ consumed w ≤ k + MaxRows config ∧ closed w = c + 1) ∧
      match r with Panic _ => False | _ => True end)); [|intros w; simpl; naive_solver].
    intros t w (Hk & Hc). destruct (Hcl stream (consumed w) c t w) as [[Hk' Hc'] Hp]; [done|].
    by rewrite Hk'. }
  intros cl. cbv zeta. destruct (Join2 _ _); [apply triple_throw|apply triple_ret]; intros w [[? ?] ?]; by split_and!.
Qed.
End rows.

(** C25: Ingestion respects its row bound and always closes what it opened, for every
    source, parser and callback: it ends (the fuel of the model, [MaxRows + 1] reads,
    is never exhausted); the callback runs at most [MaxRows] times, whatever the
    parser delivers; and the stream is closed exactly once if one was opened and not
    otherwise, on every path - a failed open, a nil stream, a parser, callback, limit
    or context error, and success. *)
Theorem IngestCSV_bounded {W R Row P} (T : Tabular W R Row P) consumed closed
    (src : Source W R) consume ctx object config t w :
  quiet_parser T consumed closed → counts_rows consumed closed consume →
  quiet consumed closed (sOpen src ctx object) → (∀ r n, quiet consumed closed (sRead src r n)) →
  counts_closes consumed closed src →
  0 < MaxObjectBytes config → 0 < MaxRecordBytes config → 0 < MaxFieldBytes config →
  0 < MaxRows config →
  let '(r, (_, w')) := IngestCSV T (Some ctx) (Some src) object config (Some consume) t w in
  match r with Panic _ => False | _ => True end ∧
  consumed w ≤ consumed w' ≤ consumed w + MaxRows config ∧
  closed w' = closed w + match run_result (sOpen src ctx object) t w with
                         | Ok (Some _) => 1
                         | _ => 0
                         end.
Proof.
  intros HT Hrows Hopen Hrd Hcl H1 H2 H3 H4. unfold IngestCSV.
  assert ((MaxObjectBytes config <=? 0) || (MaxRecordBytes config <=? 0) ||
          (MaxFieldBytes config <=? 0) || (MaxRows config <=? 0) = false) as ->
    by (rewrite !orb_false_iff; lia).
  destruct (Hopen (consumed w) (closed w) t w) as [[Hk Hc] Hp]; [done|].
  unfold bind at 1. unfold run_result, run_state in *.
  destruct (sOpen src ctx object t w) as [[[stream|]|e|msg] [t' w']]; simpl in *;
    [|split_and!; [done|lia..]|split_and!; [done|lia..]|done].
  pose proof (ingest_close T consumed closed HT consume Hrows src ctx stream config (consumed w)
    (closed w) Hrd Hcl H4 t' w' ltac:(done)) as H.
  unfold run_result, run_state in H. cbv zeta in H.
  destruct (bind _ _ t' w') as [r [t'' w'']]. simpl in H. split_and!; [by apply H|lia..].
Qed.

(** ** Runs *)

(** A reader over a byte string. *)
Definition string_Read {W} : read_fn W bytes := λ r n,
  ret (take (Z.to_nat n) r, match r with [] => Some (Sentinel EOF) | _ => None end,
       drop (Z.to_nat n) r).

Lemma string_Read_faithful {W} : faithful (W:=W) string_Read id.
Proof.
  intros r n t w Hn. eexists _, _, _, t, w. split; [done|]. unfold id. split_and!; [by rewrite take_drop| |..].
  - unfold len. rewrite length_take. lia.
  - destruct r; [by rewrite drop_nil|done].
  - by destruct r.
Qed.

(** Five bytes under a bound of three. *)
Lemma bounded_reader_exact_witness :
  match reads (bounded_Read Background string_Read) (mkBounded (bs "hello") 3) [2; 2; 2] 0 tt with
  | (Ok (got, e, _), _) =>
      got = bs "hel" ∧ e = Some (Sentinel ErrObjectTooLarge) ∧ len got = 3 ∧ 3 < len (bs "hello")
  | _ => False
  end.
Proof.
  pose proof (bounded_reader_exact (W:=unit) string_Read id Background (bs "hello") 3 [2; 2; 2] 0 tt
    string_Read_faithful ltac:(unfold MaxInt64; lia) ltac:(repeat constructor; lia)) as H.
  assert (Hrun : match reads (bounded_Read Background string_Read) (mkBounded (bs "hello") 3) [2; 2; 2]
                         0 tt with
                 | (Ok (got, e, _), _) => got = bs "hel" ∧ e = Some (Sentinel ErrObjectTooLarge)
                 | _ => False
                 end) by (vm_compute; split; reflexivity).
  destruct (reads _ _ _ _ _) as [[[[got e] st]|e|msg] w]; [|destruct Hrun..].
  destruct Hrun as [-> ->]. split; [reflexivity|]. split; [reflexivity|]. apply H. reflexivity.
Defined.

(** Counters beside a one-shot parser whose rows are the bytes it read. *)
Record counters := mkCounters { rows_consumed : Z; streams_closed : Z }.

Definition byte_parser : Tabular counters bytes Ascii.ascii bytes := {|
  NewCSVReader rd r _ := let! x := rd r 64 in ret x.1.1;
  parser_Read p :=
    match p with
    | [] => ret (Ascii.zero, Some (Sentinel EOF), [])
    | c :: p => ret (c, None, p)
    end;
|}.
Definition string_source (content : bytes) : Source counters bytes := {|
  sOpen _ _ := ret (Some content);
  sRead := string_Read;
  sClose _ := let! w := get in put (mkCounters (rows_consumed w) (streams_closed w + 1));
|}.
Definition count_row (row : Ascii.ascii) : M counters unit :=
  let! w := get in put (mkCounters (rows_consumed w + 1) (streams_closed w)).

(** Three rows under a bound of two. *)
Lemma IngestCSV_bounded_witness :
  let config := mkConfig 10 10 10 2 in
  let '(r, (_, w')) := IngestCSV byte_parser (Some Background) (Some (string_source (bs "abc"))) Root
                         config (Some count_row) 0 (mkCounters 0 0) in
  r = Err (Joined [Sentinel ErrRowLimitExceeded]) ∧ rows_consumed w' ≤ 0 + 2 ∧
  streams_closed w' = 0 + 1.
Proof.
  intros config.
  pose proof (IngestCSV_bounded byte_parser rows_consumed streams_closed (string_source (bs "abc"))
    count_row Background Root config 0 (mkCounters 0 0)) as H.
  assert (Hr : (IngestCSV byte_parser (Some Background) (Some (string_source (bs "abc"))) Root config
                  (Some count_row) 0 (mkCounters 0 0)).1 = Err (Joined [Sentinel ErrRowLimitExceeded]))
    by (vm_compute; reflexivity).
  destruct (IngestCSV _ _ _ _ _ _ _ _) as [r [t' w']]. split; [exact Hr|].
  destruct H as (_ & Hk & Hc); try (simpl; lia).
  - split.
    + intros rd r0 cfg Hrd k c. simpl. apply keeps_bind; [apply Hrd|intros x; apply keeps_ret].
    + intros [|ch p] k c; simpl; apply keeps_ret.
  - intros row k c t w [<- <-]. simpl. done.
  - intros k c. apply keeps_ret.
  - intros r0 n k c. apply keeps_ret.
  - intros stream k c t w [<- <-]. simpl. done.
  - split; [apply Hk|exact Hc].
Defined.
