(* ===== verification/LocalRename.v ===== *)
(** * Exclusive renames by platform

    [local/rename_linux.go], [rename_darwin.go], [rename_unix.go], [rename_other.go] and
    [rename_windows.go]: the native calls behind [osRoot.RenameNoReplace].  The system
    calls and the Windows string conversions are parameters. *)

From S2P Require Import Prelude GoStrings Errors Effects Hoare Capability FileInfo Remote RenameInfo.

Definition move_unsupported : error := Unsupported (bs "local") CapabilityMove OperationMove.

Definition exclusiveRenameError (err : error) : error :=
  if Is err ENOSYS || Is err EOPNOTSUPP then Joined [move_unsupported; err] else err.

(** Linux and Darwin: one call, [renameat2] with [RENAME_NOREPLACE] or [renameatx_np]
    with [RENAME_EXCL]. *)
Definition unix_renameNoReplace {S} (renameat : handle → bytes → handle → bytes → M S unit)
    (source : handle) (sourceName : bytes) (destination : handle) (destinationName : bytes) : M S unit :=
  let! r := attempt (renameat source sourceName destination destinationName) in
  match r with inl _ => ret tt | inr err => throw (exclusiveRenameError err) end.

(** Any other system. *)
Definition other_renameNoReplace {S} (source : handle) (sourceName : bytes) (destination : handle)
    (destinationName : bytes) : M S unit := throw move_unsupported.

Section windows.
Context {S NTUnicodeString : Type}.
(** [windowsPointerBytes]; [filepath.IsLocal]; the [windows] package. *)
Context (pointerBytes : Z) (IsLocal : bytes → bool).
Context (NewNTUnicodeString : bytes → result NTUnicodeString) (UTF16FromString : bytes → result (list Z)).
(** [NtCreateFile] by the root directory, the name and the length of the attributes;
    [NtSetInformationFile] for [FileRenameInformation]. *)
Context (NtCreateFile : Z → NTUnicodeString → Z → M S Z) (CloseHandle : Z → M S unit)
  (NtSetInformationFile : Z → octets → M S unit).
(** [NTStatus.Errno] of an error that is a status. *)
Context (Errno : error → option error).

Definition renameStatusError (err : error) : error :=
  let err := default err (Errno err) in
  if Is err ERROR_NOT_SUPPORTED || Is err ERROR_CALL_NOT_IMPLEMENTED then Joined [move_unsupported; err]
  else err.

Definition invalid_leaf (name : bytes) : bool :=
  bool_decide (name = dot) || negb (IsLocal name) || ContainsByte name "?"%char.

(** What runs between the opening of the source and its deferred closing. *)
Definition set_rename_information (handle destination : Z) (destinationName : bytes) : M S unit :=
  let! filename := lift_result (UTF16FromString destinationName) in
  if len filename >? windowsRenameFilenameCapacity then throw (Sentinel EINVAL)
  else
    let! information := lift_result (marshalWindowsRenameInformation pointerBytes destination filename) in
    let information := default [] information in
    let informationLength := len information in
    if (informationLength <? 1) || (informationLength >? 544) then throw (Sentinel EINVAL)
    else
      let! r := attempt (NtSetInformationFile handle information) in
      match r with inl _ => ret tt | inr err => throw (renameStatusError err) end.

Definition windows_renameNoReplace (source : Z) (sourceName : bytes) (destination : Z)
    (destinationName : bytes) : M S unit :=
  if invalid_leaf sourceName || invalid_leaf destinationName then throw (Sentinel EINVAL)
  else
    let! objectName := lift_result (NewNTUnicodeString sourceName) in
    let! opened := attempt (NtCreateFile source objectName (windowsObjectAttributesLength pointerBytes)) in
    match opened with
    | inr err => throw (renameStatusError err)
    | inl handle =>
        let! r := attempt (set_rename_information handle destination destinationName) in
        do! ignored (CloseHandle handle) in
        match r with inl _ => ret tt | inr err => throw err end
    end.

(** *** What Windows is asked *)

Context (pointer : nat) (Hpointer : pointerBytes = Z.of_nat pointer ∧ (pointer = 4%nat ∨ pointer = 8%nat)).
Context (live : S → gset Z) (asked : S → list (octets * Z * list Z)).
Hypothesis name_total : ∀ n msg, NewNTUnicodeString n ≠ Panic msg ∧ UTF16FromString n ≠ Panic msg.
Hypothesis units : ∀ n filename, UTF16FromString n = Ok filename → Forall (λ u, 0 ≤ u < 65536) filename.
Hypothesis create_live : ∀ d n a l (q : list (octets * Z * list Z)),
  triple (λ s, live s = l ∧ asked s = q) (NtCreateFile d n a)
    (λ r s, asked s = q ∧ match r with
      | Ok h => h ∉ l ∧ live s = {[h]} ∪ l
      | Err _ => live s = l
      | Panic _ => False end).
Hypothesis close_live : ∀ h l (q : list (octets * Z * list Z)),
  triple (λ s, live s = l ∧ asked s = q) (CloseHandle h)
    (λ r s, (live s = l ∖ {[h]} ∧ asked s = q) ∧ match r with Panic _ => False | _ => True end).
(** a request is seen as Windows decodes it *)
Hypothesis set_asked : ∀ h info l (q : list (octets * Z * list Z)),
  triple (λ s, live s = l ∧ asked s = q) (NtSetInformationFile h info)
    (λ r s, (live s = l ∧ asked s = q ++ [read_structure pointer info]) ∧
       match r with Panic _ => False | _ => True end).

(** At most one request, with the replace flag zero, for the destination's directory
    and name. *)
Definition asks_exclusively (destination : Z) (destinationName : bytes)
    (q q' : list (octets * Z * list Z)) : Prop :=
  q' = q ∨ ∃ filename, UTF16FromString destinationName = Ok filename ∧
    q' = q ++ [(replicate pointer 0, destination, removelast filename)].

Lemma set_rename_information_asks h destination destinationName l q :
  0 ≤ destination < 2 ^ 64 →
  triple (λ s, live s = l ∧ asked s = q) (set_rename_information h destination destinationName)
    (λ r s, (live s = l ∧ asks_exclusively destination destinationName q (asked s)) ∧
       match r with Panic _ => False | _ => True end).
Proof.
  intros Hd. unfold set_rename_information.
  assert (Hsame : ∀ s, live s = l ∧ asked s = q →
    live s = l ∧ asks_exclusively destination destinationName q (asked s)) by (intros s [? ?]; by split; [|left]).
  apply triple_lift_bind.
  { destruct (name_total destinationName "") as [_ _].
    destruct (UTF16FromString destinationName) as [|e|msg] eqn:E; [done|auto|].
    by destruct (proj2 (name_total destinationName msg)). }
  intros filename Hu. destruct (len filename >? _); [apply triple_throw; auto|].
  destruct Hpointer as [-> Hp].
  pose proof (rename_information_exact pointer destination filename Hd (units _ _ Hu)) as Hexact.
  apply triple_lift_bind; [destruct (marshalWindowsRenameInformation _ _ _) as [[]|e|msg]; done|].
  intros information Hm. rewrite Hm in Hexact. cbv zeta.
  destruct information as [information|]; [|by apply triple_throw; auto].
  cbn [default]. destruct (_ || _); [apply triple_throw; auto|].
  destruct Hexact as (_ & _ & Hread).
  apply (triple_bind _ (λ _ s, live s = l ∧ asks_exclusively destination destinationName q (asked s))).
  - eapply triple_attempt; [apply (set_asked h information l q)|].
    assert (Hq : ∀ s, live s = l ∧ asked s = q ++ [read_structure pointer information] →
      live s = l ∧ asks_exclusively destination destinationName q (asked s)).
    { intros s [? ->]. split; [done|]. right. exists filename. by rewrite Hread. }
    intros s. simpl. split_and!; intros; destruct_and?; auto; done.
  - intros [_|err]; [by apply triple_ret|by apply triple_throw].
Qed.

(** The handle of the source is closed whatever happens, and Windows is asked at most
    once, never to replace. *)
Lemma windows_rename_exclusive source sourceName destination destinationName l q :
  0 ≤ destination < 2 ^ 64 →
  triple (λ s, live s = l ∧ asked s = q)
    (windows_renameNoReplace source sourceName destination destinationName)
    (λ r s, (live s = l ∧ asks_exclusively destination destinationName q (asked s)) ∧
       match r with Panic _ => False | _ => True end).
Proof.
  intros Hd. unfold windows_renameNoReplace.
  assert (Hsame : ∀ s, live s = l ∧ asked s = q →
    live s = l ∧ asks_exclusively destination destinationName q (asked s)) by (intros s [? ?]; by split; [|left]).
  destruct (_ || _); [apply triple_throw; auto|].
  apply triple_lift_bind.
  { destruct (NewNTUnicodeString sourceName) as [|e|msg] eqn:E; [done|auto|].
    by destruct (proj1 (name_total sourceName msg)). }
  intros objectName _.
  apply (triple_bind _ (λ x s, asked s = q ∧ match x with
    | inl h => h ∉ l ∧ live s = {[h]} ∪ l | inr _ => live s = l end)).
  { eapply triple_attempt; [apply (create_live _ _ _ l q)|]. intros s. simpl. split_and!; naive_solver. }
  intros [h|err]; [|apply triple_throw; intros s [? ?]; auto].
  eapply (triple_conseq _ (λ s, (live s = {[h]} ∪ l ∧ asked s = q) ∧ h ∉ l));
    [|by intros s (? & ? & ?)|by intros r s Hr; exact Hr].
  apply triple_pure. intros Hh.
  apply (triple_bind _ (λ _ s, live s = {[h]} ∪ l ∧ asks_exclusively destination destinationName q (asked s))).
  { eapply triple_attempt; [by apply set_rename_information_asks|]. intros s. simpl. split_and!; naive_solver. }
  intros r. eapply triple_after_ignored.
  - intros t s [Hl Hq]. destruct (close_live h _ (asked s) t s (conj Hl eq_refl)) as [[Hl' Hq'] Hr].
    split; [|exact Hr]. instantiate (1 := λ s, live s = l ∧ asks_exclusively destination destinationName q (asked s)).
    simpl. rewrite Hl', Hq'. split; [set_solver|done].
  - destruct r; [by apply triple_ret|by apply triple_throw].
Qed.
End windows.

(** ** Unavailable primitives *)

(** An error is classified as an unsupported capability exactly when the primitive is
    unavailable (or the error already was), and keeps every other classification. *)
Lemma exclusiveRenameError_Is err target :
  Is (exclusiveRenameError err) target =
  Is err target || (bool_decide (target = ErrUnsupportedCapability) && (Is err ENOSYS || Is err EOPNOTSUPP)).
Proof.
  unfold exclusiveRenameError. destruct (Is err ENOSYS || Is err EOPNOTSUPP); simpl.
  - rewrite orb_false_r, andb_true_r, orb_comm. f_equal. apply bool_decide_ext. naive_solver.
  - by rewrite andb_false_r, orb_false_r.
Qed.
