(* ===== verification/Local.v ===== *)
(** * The local adapter: [local/local.go] and [local/rename.go]

    The operating system is a record of operations over its state: the root
    directory handle of [os.Root], open files, and the tree [fs.WalkDir] walks.
    Everything the adapter decides is defined here: options, the acquisition of the
    root, the symbolic-link policy, publication by rename or exclusive link, the
    listing callback, exclusive moves and the classification of errors.

    The adapter keeps no mutable state of its own.  Contexts have no cause beside
    their error, so [context.Cause] is [ctx.Err]. *)

From S2P Require Import Prelude GoStrings Errors Effects Paths Capability Contracts Iterator Digest FileInfo Remote RemoteNames.

(** ** The operating system *)

(** [type localFile interface]; [fRead] is one [Read] into a buffer of the given
    length. *)
Record localFile (S : Type) := mkLocalFile {
  fRead : handle → Z → M S (bytes * option error);
  fWrite : handle → bytes → M S unit;
  fSeek : handle → Z → M S unit;
  fClose : handle → M S unit;
  fStat : handle → M S FileInfo;
  fSync : handle → M S unit;
}.
Arguments fRead {_}.
Arguments fWrite {_}.
Arguments fSeek {_}.
Arguments fClose {_}.
Arguments fStat {_}.
Arguments fSync {_}.

(** [fs.DirEntry]: its name and type bits; [Info] is a call. *)
Record DirEntry := mkDirEntry { dName : bytes; dType : Z }.
Definition entry_IsDir (d : DirEntry) : bool := negb (Z.land (dType d) ModeDir =? 0).
Definition FileInfoToDirEntry (info : FileInfo) : DirEntry := mkDirEntry (iName info) (FileInfo_Type info).

(** [type rootFS interface]; the last three are what [fs.WalkDir] and its callback
    ask of [FS()]. *)
Record rootFS (S : Type) := mkRootFS {
  rOpen : bytes → M S handle;
  rOpenFile : bytes → list open_flag → Z → M S handle;
  rStat : bytes → M S FileInfo;
  rLstat : bytes → M S FileInfo;
  rMkdirAll : bytes → Z → M S unit;
  rRemove : bytes → M S unit;
  rLink : bytes → bytes → M S unit;
  rRename : bytes → bytes → M S unit;
  rRenameNoReplace : bytes → bytes → M S unit;
  rClose : M S unit;
  fsStat : bytes → M S FileInfo;
  fsReadDir : bytes → M S (list DirEntry);
  fsInfo : bytes → DirEntry → M S FileInfo;
}.
Arguments rOpen {_}.
Arguments rOpenFile {_}.
Arguments rStat {_}.
Arguments rLstat {_}.
Arguments rMkdirAll {_}.
Arguments rRemove {_}.
Arguments rLink {_}.
Arguments rRename {_}.
Arguments rRenameNoReplace {_}.
Arguments rClose {_}.
Arguments fsStat {_}.
Arguments fsReadDir {_}.
Arguments fsInfo {_}.

(** [type system interface]. *)
Record system (S : Type) := mkSystem {
  sysMkdirAll : bytes → Z → M S unit;
  sysOpenRoot : bytes → M S (rootFS S);
}.
Arguments sysMkdirAll {_}.
Arguments sysOpenRoot {_}.

(** [osRoot.RenameNoReplace]: both parents are opened and closed around the native
    call, which gets their handles and the leaf names. *)
Definition osRoot_RenameNoReplace {S} (root_Open : bytes → M S handle) (dir_Close : handle → M S unit)
    (renameNoReplace : handle → bytes → handle → bytes → M S unit) (source destination : bytes)
    : M S unit :=
  let! sourceParent := root_Open (path_Dir source) in
  let! r := attempt (
    let! destinationParent := root_Open (path_Dir destination) in
    let! r := attempt (renameNoReplace sourceParent (path_Base source)
                         destinationParent (path_Base destination)) in
    do! ignored (dir_Close destinationParent) in
    match r with
    | inl _ => ret tt
    | inr err => throw (Errorf "rename-no-replace %s %s: %w" [err] [FStr source; FStr destination])
    end) in
  do! ignored (dir_Close sourceParent) in
  match r with inl _ => ret tt | inr err => throw err end.

(** ** Configuration *)

Definition capabilities : list Capability :=
  [CapabilityRead; CapabilityWrite; CapabilityStreamingWrite; CapabilityDelete; CapabilityList;
   CapabilityStat; CapabilityCopy; CapabilityMove; CapabilityRangeRead; CapabilityChecksum].

Definition temporaryOpenFlags : list open_flag := [O_WRONLY; O_CREATE; O_EXCL].

(** [SymlinkPolicy] is a [uint8]. *)
Definition DenySymlinks : Z := 0.
Definition AllowInternalSymlinks : Z := 1.

Record config := mkConfig { cFileMode : Z; cDirectoryMode : Z; cSymlinkPolicy : Z }.

(** [fs.FileMode.Perm]. *)
Definition Perm (mode : Z) : Z := Z.land mode 0x1ff.

Inductive Option :=
  | WithFileMode (mode : Z)
  | WithDirectoryMode (mode : Z)
  | WithSymlinkPolicy (policy : Z).

Definition apply_option (option : Option) (c : config) : result config :=
  match option with
  | WithFileMode mode =>
      if Perm mode =? 0 then Err (NewError "local: file mode has no permission bits")
      else Ok (mkConfig (Perm mode) (cDirectoryMode c) (cSymlinkPolicy c))
  | WithDirectoryMode mode =>
      if Perm mode =? 0 then Err (NewError "local: directory mode has no permission bits")
      else Ok (mkConfig (cFileMode c) (Perm mode) (cSymlinkPolicy c))
  | WithSymlinkPolicy policy =>
      if negb (policy =? DenySymlinks) && negb (policy =? AllowInternalSymlinks) then
        Err (Errorf "local: invalid symlink policy %d" [] [FInt policy])
      else Ok (mkConfig (cFileMode c) (cDirectoryMode c) policy)
  end.

Fixpoint apply_options (options : list Option) (c : config) : result config :=
  match options with
  | [] => Ok c
  | option :: rest => result_bind (apply_option option c) (apply_options rest)
  end.

Record Adapter (S : Type) := mkAdapter {
  files_api : localFile S;
  root : rootFS S;
  (** [io.ReadFull] of 16 bytes from the adapter's random source *)
  random16 : M S bytes;
  fileMode : Z;
  directoryMode : Z;
  symlinkPolicy : Z;
}.
Arguments files_api {_}.
Arguments root {_}.
Arguments random16 {_}.
Arguments fileMode {_}.
Arguments directoryMode {_}.
Arguments symlinkPolicy {_}.
Arguments mkAdapter {_}.

Definition openAdapter {S} (F : localFile S) (rnd : M S bytes) (ctx : option context) (root : bytes)
    (sys : system S) (options : list Option) : M S (Adapter S) :=
  match ctx with
  | None => throw (Sentinel ErrContextRequired)
  | Some ctx =>
      do! check_ctx ctx in
      let! configuration := lift_result (apply_options options (mkConfig 0x180 0x1c0 DenySymlinks)) in
      do! check_ctx ctx in
      let! made := attempt (sysMkdirAll sys root (cDirectoryMode configuration)) in
      match made with
      | inr err => throw (Errorf "local: create root: %w" [err] [])
      | inl _ =>
          do! check_ctx ctx in
          let! opened := attempt (sysOpenRoot sys root) in
          match opened with
          | inr err => throw (Errorf "local: open root: %w" [err] [])
          | inl opened =>
              let! done := poll ctx in
              match done with
              | Some err =>
                  let! closed := attempt (rClose opened) in
                  throw (default err (Join2 (Some err)
                    (match closed with inl _ => None | inr e => Some e end)))
              | None =>
                  ret (mkAdapter F opened rnd (cFileMode configuration) (cDirectoryMode configuration)
                         (cSymlinkPolicy configuration))
              end
          end
      end
  end.

(** ** [fs.WalkDir] *)

(** The standard library's walk over [FS()]; the callback threads the entries
    collected so far and returns an error as a value. *)
Section walk.
Context {W Acc : Type} (fsStat : bytes → M W FileInfo) (fsReadDir : bytes → M W (list DirEntry)).
Context (fn : Acc → bytes → option DirEntry → option error → M W (option error * Acc)).

(** The error a directory's callback leaves: [SkipDir] ends only that directory. *)
Definition skipped (d : DirEntry) (err : option error) : option error :=
  match err with
  | Some e => if identical e FsSkipDir && entry_IsDir d then None else err
  | None => None
  end.

Section children.
Context (visit : bytes → DirEntry → Acc → M W (option error * Acc)) (name : bytes).
(** The loop over a directory's entries. *)
Fixpoint walk_children (dirs : list DirEntry) (acc : Acc) : M W (option error * Acc) :=
  match dirs with
  | [] => ret (None, acc)
  | d :: rest =>
      let! x := visit (path_Join [name; dName d]) d acc in
      match x.1 with
      | None => walk_children rest x.2
      | Some err =>
          if identical err FsSkipDir then ret (None, x.2) else ret (Some err, x.2)
      end
  end.
End children.

(** [walkDir]; [fuel] bounds the depth of the tree. *)
Fixpoint walkDir (fuel : nat) (name : bytes) (d : DirEntry) (acc : Acc) : M W (option error * Acc) :=
  match fuel with
  | O => panic "out of fuel"
  | S fuel' =>
      let! x := fn acc name (Some d) None in
      if bool_decide (is_Some x.1) || negb (entry_IsDir d) then ret (skipped d x.1, x.2)
      else
        let! dirs := attempt (fsReadDir name) in
        match dirs with
        | inl dirs => walk_children (walkDir fuel') name (SortFunc dName dirs) x.2
        | inr err =>
            let! y := fn x.2 name (Some d) (Some err) in
            match y.1 with
            | Some _ => ret (skipped d y.1, y.2)
            | None => ret (None, y.2)
            end
        end
  end.

Definition WalkDir (fuel : nat) (start : bytes) (acc : Acc) : M W (option error * Acc) :=
  let! info := attempt (fsStat start) in
  let! x := match info with
            | inr err => fn acc start None (Some err)
            | inl info => walkDir fuel start (FileInfoToDirEntry info) acc
            end in
  match x.1 with
  | Some err => if identical err FsSkipDir || identical err FsSkipAll then ret (None, x.2) else ret x
  | None => ret x
  end.
End walk.

(** ** Streams *)

(** [type contextReadCloser struct]. *)
Record contextReadCloser := mkContextReadCloser { stream_ctx : context; stream_file : handle }.

Section stream.
Context {S : Type} (F : localFile S).

Definition stream_Read : read_fn S contextReadCloser := λ r n,
  let! done := poll (stream_ctx r) in
  match done with
  | Some err => ret ([], Some err, r)
  | None =>
      let! x := fRead F (stream_file r) n in
      ret (x.1, x.2, r)
  end.

Definition stream_Close (r : contextReadCloser) : M S unit := fClose F (stream_file r).

(** [limitedReadCloser]: [io.LimitReader] over the stream, by the bytes left. *)
Definition limited_Read : read_fn S (contextReadCloser * Z) := λ r n,
  if r.2 <=? 0 then ret ([], Some (Sentinel EOF), r)
  else
    let! x := stream_Read r.1 (Z.min n r.2) in
    let '(chunk, err, stream) := x in
    ret (chunk, err, (stream, wrap64 (r.2 - len chunk))).

Definition limited_Close (r : contextReadCloser * Z) : M S unit := stream_Close r.1.
End stream.

(** ** Operations *)

Definition mapError (logicalPath : Path) (err : error) : error :=
  if Is err FsErrNotExist then Errorf "%w: %s" [Sentinel ErrNotFound] [FStr (value logicalPath)] else err.

Section adapter.
Context {S : Type} (a : Adapter S).
Local Abbreviation F := (files_api a) (only parsing).
Local Abbreviation R := (root a) (only parsing).

(** [m], with a failure mapped. *)
Definition mapped {A} (logicalPath : Path) (m : M S A) : M S A :=
  let! r := attempt m in
  match r with inl x => ret x | inr err => throw (mapError logicalPath err) end.

(** [m], with a failure wrapped as [fmt.Errorf(format, err)]. *)
Definition wrapped {A} (format : String.string) (m : M S A) : M S A :=
  let! r := attempt m in
  match r with inl x => ret x | inr err => throw (Errorf format [err] []) end.

Definition Close : M S unit := rClose R.

(** The names [checkSymlinks] examines. *)
Definition link_candidates (logicalPath : Path) (includeFinal : bool) : list bytes :=
  let segments := Split (value logicalPath) slash in
  let segmentCount := if includeFinal then length segments else (length segments - 1)%nat in
  (λ index, Join (take (index + 1) segments) slash) <$> seq 0 segmentCount.

Fixpoint check_loop (logicalPath : Path) (candidates : list bytes) : M S unit :=
  match candidates with
  | [] => ret tt
  | name :: rest =>
      let! info := attempt (rLstat R name) in
      match info with
      | inr err => if Is err FsErrNotExist then ret tt else throw (mapError logicalPath err)
      | inl info =>
          if FileInfo_Type info =? ModeSymlink then
            throw (Errorf "local: symbolic link %q is denied" [] [FStr name])
          else check_loop logicalPath rest
      end
  end.

Definition checkSymlinks (logicalPath : Path) (includeFinal : bool) : M S unit :=
  if IsRoot logicalPath || (symlinkPolicy a =? AllowInternalSymlinks) then ret tt
  else check_loop logicalPath (link_candidates logicalPath includeFinal).

Definition temporary_in (directory random : bytes) : bytes :=
  let name := bs ".filesystem-" ++ EncodeToString random ++ bs ".tmp" in
  if decide (directory = dot) then name else directory ++ slash :: name.

Definition temporaryName (directory : bytes) : M S bytes :=
  let! random := attempt (random16 a) in
  match random with
  | inr err => throw (Errorf "local: generate temporary name: %w" [err] [])
  | inl random => ret (temporary_in directory random)
  end.

(** *** Reading *)

Definition Open (ctx : context) (logicalPath : Path) : M S contextReadCloser :=
  do! check_ctx ctx in
  do! checkSymlinks logicalPath true in
  let! file := mapped logicalPath (rOpen R (value logicalPath)) in
  ret (mkContextReadCloser ctx file).

Definition OpenRange (ctx : context) (logicalPath : Path) (byteRange : ByteRange)
    : M S (contextReadCloser * Z) :=
  if (Offset byteRange <? 0) || (Length byteRange <=? 0) then
    throw (Errorf "%w: offset=%d length=%d" [Sentinel ErrInvalidRange]
             [FInt (Offset byteRange); FInt (Length byteRange)])
  else
    let! stream := Open ctx logicalPath in
    let file := stream_file stream in
    let! info := attempt (fStat F file) in
    match info with
    | inr err => do! ignored (stream_Close F stream) in throw err
    | inl info =>
        if Offset byteRange >=? iSize info then
          do! ignored (stream_Close F stream) in
          throw (Errorf "%w: offset=%d size=%d" [Sentinel ErrInvalidRange]
                   [FInt (Offset byteRange); FInt (iSize info)])
        else
          let! sought := attempt (fSeek F file (Offset byteRange)) in
          match sought with
          | inr err => do! ignored (stream_Close F stream) in throw err
          | inl _ => ret (stream, Length byteRange)
          end
    end.

Definition Stat (ctx : context) (logicalPath : Path) : M S Metadata :=
  do! check_ctx ctx in
  do! checkSymlinks logicalPath true in
  let name := if IsRoot logicalPath then dot else value logicalPath in
  let! info := mapped logicalPath (rStat R name) in
  let kind := if FileInfo_IsDir info then EntryKindDirectory else EntryKindFile in
  ret (mkMetadata logicalPath kind (iSize info) (iModTime info) [] [] None []).

(** *** Writing *)

(** Giving the closed temporary file its name. *)
Definition publish (logicalPath : Path) (temporary : bytes) (options : WriteOptions) : M S unit :=
  if wIfNoneMatch options then
    let! linked := attempt (rLink R temporary (value logicalPath)) in
    match linked with
    | inr err =>
        if Is err FsErrExist then
          throw (Errorf "%w: %s" [Sentinel ErrPreconditionFailed] [FStr (value logicalPath)])
        else throw (Errorf "local: publish temporary file: %w" [err] [])
    | inl _ =>
        wrapped "local: remove published temporary file: %w" (rRemove R temporary)
    end
  else wrapped "local: publish temporary file: %w" (rRename R temporary (value logicalPath)).

(** From the open temporary file to its publication. *)
Definition write_temporary {Src} (fuel : nat) (Read : read_fn S Src) (ctx : context)
    (logicalPath : Path) (temporary : bytes) (file : handle) (source : Src) (options : WriteOptions)
    : M S unit :=
  let! copied := io_Copy fuel (λ b, fWrite F file b) (context_Read ctx Read) source in
  match copied.1 with
  | Some err => throw err
  | None =>
      do! check_ctx ctx in
      do! wrapped "local: sync temporary file: %w" (fSync F file) in
      do! wrapped "local: close temporary file: %w" (fClose F file) in
      publish logicalPath temporary options
  end.

(** [Write]; [fuel] bounds the reads of the source.  The deferred function closes the
    file and removes it unless it was published. *)
Definition Write {Src} (fuel : nat) (Read : read_fn S Src) (ctx : context) (logicalPath : Path)
    (source : Src) (options : WriteOptions) : M S Metadata :=
  if IsRoot logicalPath then
    throw (Errorf "%w: object path is root" [Sentinel ErrInvalidPath] [])
  else
    do! check_ctx ctx in
    do! checkSymlinks logicalPath false in
    do! (if wIfNoneMatch options then
           let! existing := attempt (rStat R (value logicalPath)) in
           match existing with
           | inl _ => throw (Errorf "%w: %s" [Sentinel ErrPreconditionFailed] [FStr (value logicalPath)])
           | inr err =>
               if negb (Is err FsErrNotExist) then throw (mapError logicalPath err) else ret tt
           end
         else ret tt) in
    let directory := path_Dir (value logicalPath) in
    do! (if decide (directory = dot) then ret tt
         else wrapped "local: create parent directories: %w" (rMkdirAll R directory (directoryMode a))) in
    let! temporary := temporaryName directory in
    let! file := wrapped "local: create temporary file: %w"
                   (rOpenFile R temporary temporaryOpenFlags (fileMode a)) in
    let! written := attempt (write_temporary fuel Read ctx logicalPath temporary file source options) in
    match written with
    | inl _ =>
        let! metadata := attempt (Stat ctx logicalPath) in
        do! ignored (fClose F file) in
        match metadata with inl m => ret m | inr err => throw err end
    | inr err =>
        do! ignored (fClose F file) in
        do! ignored (rRemove R temporary) in
        throw err
    end.

(** [OpenWriter]: the writer's consumer is [Write] on what the producer sends. *)
Definition OpenWriter (ctx : context) (logicalPath : Path) (options : WriteOptions) : M S (writer S) :=
  do! check_ctx ctx in
  if IsRoot logicalPath then
    throw (Errorf "%w: object path is root" [Sentinel ErrInvalidPath] [])
  else
    ret (λ source,
      do! Write (1 + length source) list_Read ctx logicalPath source options in ret tt).

Definition Delete (ctx : context) (logicalPath : Path) : M S unit :=
  do! check_ctx ctx in
  do! checkSymlinks logicalPath true in
  mapped logicalPath (rRemove R (value logicalPath)).

(** [Copy]: the deferred [Close] runs on every path out of the write. *)
Definition Copy (fuel : nat) (ctx : context) (source destination : Path) (options : CopyOptions)
    : M S unit :=
  do! (if negb (cOverwrite options) then
         let! existing := attempt (rStat R (value destination)) in
         match existing with
         | inl _ => throw (Errorf "%w: %s" [Sentinel ErrAlreadyExists] [FStr (value destination)])
         | inr err => if negb (Is err FsErrNotExist) then throw (mapError destination err) else ret tt
         end
       else ret tt) in
  let! stream := Open ctx source in
  let! written := attempt (Write fuel (stream_Read F) ctx destination stream
                             (mkWriteOptions [] None [] (negb (cOverwrite options)))) in
  do! ignored (stream_Close F stream) in
  match written with inl _ => ret tt | inr err => throw err end.

Definition Move (ctx : context) (source destination : Path) (options : MoveOptions) : M S unit :=
  do! check_ctx ctx in
  do! checkSymlinks source true in
  do! checkSymlinks destination false in
  do! (if negb (mOverwrite options) then
         let! existing := attempt (rStat R (value destination)) in
         match existing with
         | inl _ => throw (Errorf "%w: %s: %w" [Sentinel ErrAlreadyExists; Sentinel FsErrExist]
                             [FStr (value destination)])
         | inr err => if negb (Is err FsErrNotExist) then throw (mapError destination err) else ret tt
         end
       else ret tt) in
  let directory := path_Dir (value destination) in
  do! (if decide (directory = dot) then ret tt else rMkdirAll R directory (directoryMode a)) in
  if negb (mOverwrite options) then
    let! renamed := attempt (rRenameNoReplace R (value source) (value destination)) in
    match renamed with
    | inl _ => ret tt
    | inr err =>
        if Is err FsErrExist then
          throw (Errorf "%w: %s: %w" [Sentinel ErrAlreadyExists; err] [FStr (value destination)])
        else throw (mapError source err)
    end
  else mapped source (rRename R (value source) (value destination)).

(** *** Listing *)

(** The callback of [List]; the error is a value, [SkipDir] and [stop] included. *)
Definition list_visit (ctx : context) (start : bytes) (options : ListOptions) (entries : list Entry)
    (name : bytes) (entry : option DirEntry) (walkErr : option error)
    : M S (option error * list Entry) :=
  match walkErr, entry with
  | Some walkErr, _ => ret (Some walkErr, entries)
  | None, None => panic "nil directory entry"
  | None, Some entry =>
      let! done := poll ctx in
      match done with
      | Some err => ret (Some err, entries)
      | None =>
          if decide (name = start) then ret (None, entries)
          else
            let relative := TrimPrefix (TrimPrefix name start) [slash] in
            if negb (Recursive options) && ContainsByte relative slash then
              ret (if entry_IsDir entry then Some (Sentinel FsSkipDir) else None, entries)
            else if negb (Z.land (dType entry) ModeSymlink =? 0) && (symlinkPolicy a =? DenySymlinks)
            then ret (Some (Errorf "local: symbolic link %q is denied" [] [FStr name]), entries)
            else
              let! info := attempt (fsInfo R name entry) in
              match info with
              | inr err => ret (Some err, entries)
              | inl info =>
                  let kind := if entry_IsDir entry then EntryKindDirectory else EntryKindFile in
                  match ParsePath name with
                  | Err err => ret (Some err, entries)
                  | Panic msg => panic msg
                  | Ok logical =>
                      let entries := entries ++ [mkEntry logical kind (iSize info) (iModTime info)] in
                      if (Limit options >? 0) && (len entries >=? Limit options)
                      then ret (Some (Sentinel LocalListStop), entries)
                      else ret (None, entries)
                  end
              end
      end
  end.

(** [List]; [fuel] bounds the depth of the tree. *)
Definition ListEntries (fuel : nat) (ctx : context) (directory : Path) (options : ListOptions)
    : M S iterator :=
  do! check_ctx ctx in
  if Limit options <? 0 then throw (NewError "local: list limit must not be negative")
  else
    let start := if decide (value directory = []) then dot else value directory in
    do! (if negb (IsRoot directory) then checkSymlinks directory true else ret tt) in
    let! x := WalkDir (fsStat R) (fsReadDir R) (list_visit ctx start options) fuel start [] in
    let sorted := newIterator (SortFunc (λ e, value (ePath e)) x.2) in
    match x.1 with
    | Some err => if Is err LocalListStop then ret sorted else throw (mapError directory err)
    | None => ret sorted
    end.

(** *** Checksums *)

(** A reader that remembers what it delivered: what a digest was fed. *)
Definition hashing_Read {Src} (Read : read_fn S Src) : read_fn S (Src * bytes) := λ r n,
  let! x := Read r.1 n in
  let '(chunk, err, r') := x in
  ret (chunk, err, (r', r.2 ++ chunk)).

Definition digest (algorithm : ChecksumAlgorithm) : option (bytes → bytes) :=
  if decide (algorithm = ChecksumMD5) then Some (λ b, EncodeToString (md5_Sum b))
  else if decide (algorithm = ChecksumSHA256) then Some (λ b, EncodeToString (sha256_Sum256 b))
  else if decide (algorithm = ChecksumCRC32C) then Some (λ b, Sprintf08x (crc32_Checksum b))
  else None.

Definition ChecksumOf (fuel : nat) (ctx : context) (logicalPath : Path)
    (algorithm : ChecksumAlgorithm) : M S Checksum :=
  let! stream := Open ctx logicalPath in
  let! value := attempt
    match digest algorithm with
    | None => throw (Unsupported (bs "local") CapabilityChecksum OperationChecksum)
    | Some sum =>
        let! copied := io_Copy fuel (λ _, ret tt) (hashing_Read (stream_Read F)) (stream, []) in
        match copied.1 with
        | Some err => throw err
        | None => ret (sum copied.2.2)
        end
    end in
  do! ignored (stream_Close F stream) in
  match value with inl v => ret (mkChecksum algorithm v) | inr err => throw err end.

(** *** Unsupported operations *)

Definition SetMetadata (ctx : context) (path : Path) (metadata : stringmap) : M S unit :=
  throw (Unsupported (bs "local") CapabilityMetadata OperationSetMetadata).

Definition VisibilityOf (ctx : context) (path : Path) : M S Visibility :=
  throw (Unsupported (bs "local") CapabilityVisibility OperationVisibility).

Definition SetVisibility (ctx : context) (path : Path) (visibility : Visibility) : M S unit :=
  throw (Unsupported (bs "local") CapabilityVisibility OperationSetVisibility).

Definition Capabilities : result CapabilitySet := NewCapabilitySet capabilities.
End adapter.
