(* ===== verification/LocalOS.v ===== *)
(** * What the operating system promises the local adapter

    [OsRoot] observes the regular files below the root by name, and the open handles
    with the name and the offset of each.  Its laws say what each call may do to
    them, failures included.  A file may have several names (hard links): [sole]
    tells those that have one, the only ones whose writes the laws describe.
    Symbolic links to directories and other processes are not modelled.

    The exclusive rename is not a law of the interface taken on trust: it is what
    [osRoot.RenameNoReplace] makes of the native call on two directory handles. *)

From S2P Require Import Prelude GoStrings Errors Effects Hoare Paths Contracts FileInfo Remote RemoteNames Publish Local.

(** What a rename of a regular file may do: it happened, or it did not; a failed one whose
    answer was lost may have happened.  When the file has [several] names and the new one
    is another of them, POSIX has it succeed and change nothing. *)
Definition replacing {A : Type} (several : Prop) (old new : bytes) (f : gmap bytes bytes)
    (r : result A) (f' : gmap bytes bytes) : Prop :=
  match r with
  | Ok _ => renamed old new f f' ∨ (several ∧ f !! new = f !! old ∧ f' = f)
  | Err _ => f' = f ∨ renamed old new f f'
  | Panic _ => False
  end.

(** What an exclusive rename of a regular file may do: it happened, to a free name, or
    it did not; a failed one whose answer was lost may have happened. *)
Definition exclusive {A : Type} (old new : bytes) (f : gmap bytes bytes) (r : result A)
    (f' : gmap bytes bytes) : Prop :=
  match r with
  | Ok _ => f !! new = None ∧ renamed old new f f'
  | Err _ => f' = f ∨ (f !! new = None ∧ renamed old new f f')
  | Panic _ => False
  end.

(** A name below the root as [path.Clean] leaves it. *)
Definition clean_name (n : bytes) : Prop :=
  ∃ segs, segs ≠ [] ∧ Forall plain_segment segs ∧ n = Join segs slash.

Lemma clean_name_path p : wf_path p → p ≠ Root → clean_name (value p).
Proof.
  intros [Hp _] Hne. exists (segments p). split_and!; [by rewrite segments_nil|by apply segment_ok_plain|].
  by rewrite <- (ofSegments_segments p) at 1.
Qed.

Class OsRoot {S} (F : localFile S) (R : rootFS S) (rnd : M S bytes) := {
  files : S → gmap bytes bytes;
  handles : S → gmap handle (bytes * Z);
  sole : bytes → S → Prop;

  (** a call that changes neither the files nor the handles, nor gives a file more names *)
  silent : ∀ {A}, M S A → Prop := λ A m,
    ∀ f h (several : bytes → Prop),
      keeps False (λ s, at_state files handles f h s ∧ ∀ n, ¬ sole n s → several n) m;

  silent_Stat n : silent (rStat R n);
  silent_Lstat n : silent (rLstat R n);
  silent_MkdirAll n mode : silent (rMkdirAll R n mode);
  silent_Sync fd : silent (fSync F fd);
  silent_random : silent rnd;

  (** exclusive creation: the name was free, and only it changes *)
  Create_law n mode f h :
    triple (at_state files handles f h) (rOpenFile R n temporaryOpenFlags mode)
      (λ r s, match r with
        | Ok fd => f !! n = None ∧ h !! fd = None ∧
                   at_state files handles (<[n := []]> f) (<[fd := (n, 0)]> h) s ∧ sole n s
        | Err _ => handles s = h ∧ (files s = f ∨ (f !! n = None ∧ files s = <[n := []]> f))
        | Panic _ => False
        end);

  (** a write at the end of a file with one name appends; a failed one may have
      changed that file only *)
  Write_law fd b n c f h :
    h !! fd = Some (n, len c) → f !! n = Some c →
    triple (λ s, at_state files handles f h s ∧ sole n s) (fWrite F fd b)
      (λ r s, match r with
        | Ok _ => at_state files handles (<[n := c ++ b]> f) (<[fd := (n, len (c ++ b))]> h) s ∧
                  sole n s
        | Err _ => agree_off n f (files s) ∧ ∃ off', handles s = <[fd := (n, off')]> h
        | Panic _ => False
        end);
  Sync_sole fd n : keeps False (sole n) (fSync F fd);
  Close_sole fd n : keeps False (sole n) (fClose F fd);

  (** a regular file is opened at its start *)
  Open_law n c f h :
    f !! n = Some c →
    triple (at_state files handles f h) (rOpen R n)
      (λ r s, match r with
        | Ok fd => h !! fd = None ∧ at_state files handles f (<[fd := (n, 0)]> h) s
        | Err _ => at_state files handles f h s
        | Panic _ => False
        end);
  (** a read hands out bytes from the offset on, at least one unless it fails; the end
      of the file is reported only there *)
  Read_law fd count n off c f h :
    h !! fd = Some (n, off) → f !! n = Some c → 0 ≤ off ≤ len c → 0 < count →
    triple (at_state files handles f h) (fRead F fd count)
      (λ r s, match r with
        | Ok (chunk, err) => ∃ rest, drop (Z.to_nat off) c = chunk ++ rest ∧ len chunk ≤ count ∧
            at_state files handles f (<[fd := (n, off + len chunk)]> h) s ∧
            match err with
            | None => chunk ≠ []
            | Some (Sentinel EOF) => rest = []
            | Some _ => True
            end
        | Err _ => at_state files handles f h s
        | Panic _ => False
        end);
  Read_sole fd count n : keeps False (sole n) (fRead F fd count);
  Seek_law fd to n off f h :
    h !! fd = Some (n, off) →
    triple (at_state files handles f h) (fSeek F fd to)
      (λ r s, match r with
        | Ok _ => at_state files handles f (<[fd := (n, to)]> h) s
        | Err _ => at_state files handles f h s
        | Panic _ => False
        end);
  FStat_law fd n off c f h :
    h !! fd = Some (n, off) → f !! n = Some c →
    triple (at_state files handles f h) (fStat F fd)
      (λ r s, at_state files handles f h s ∧
        match r with Ok info => iSize info = len c | Err _ => True | Panic _ => False end);

  (** closing releases the handle whatever it returns *)
  Close_law fd f h :
    triple (at_state files handles f h) (fClose F fd)
      (λ r s, at_state files handles f (delete fd h) s ∧
        match r with Panic _ => False | _ => True end);

  Remove_law n f h :
    triple (at_state files handles f h) (rRemove R n)
      (λ r s, handles s = h ∧
        match r with
        | Ok _ => files s = delete n f
        | Err _ => files s = f ∨ files s = delete n f
        | Panic _ => False
        end);

  (** renaming a regular file replaces its target at once, or does nothing; nothing too,
      successfully, when the file has several names and the target is one of them *)
  Rename_law old new f h (several : Prop) :
    is_Some (f !! old) →
    triple (λ s, at_state files handles f h s ∧ (¬ sole old s → several)) (rRename R old new)
      (λ r s, handles s = h ∧ replacing several old new f r (files s));

  (** linking gives a file another name, which was free *)
  Link_law old new c f h :
    f !! old = Some c →
    triple (at_state files handles f h) (rLink R old new)
      (λ r s, handles s = h ∧
        match r with
        | Ok _ => f !! new = None ∧ files s = <[new := c]> f
        | Err _ => files s = f ∨ (f !! new = None ∧ files s = <[new := c]> f)
        | Panic _ => False
        end);

  (** the exclusive rename needs a free name *)
  RenameNoReplace_law old new f h :
    clean_name old → clean_name new → is_Some (f !! old) →
    triple (at_state files handles f h) (rRenameNoReplace R old new)
      (λ r s, handles s = h ∧ exclusive old new f r (files s));
}.

(** The calls obey the laws of publication. *)
Lemma local_file_laws {S} {F : localFile S} {R : rootFS S} {rnd} `{!OsRoot F R rnd} :
  file_laws files handles sole (fWrite F) (fClose F) (rRemove R).
Proof.
  split; [exact Write_law|exact Close_law|].
  intros n f h. eapply triple_conseq; [apply (Remove_law n f h)|done|].
  intros [x|e|msg] s [Hh Hf]; [by split_and!; [right|..]|by split_and!|done].
Qed.

(** ** The exclusive rename from the native call *)

Section rename.
Context {S : Type} (files : S → gmap bytes bytes) (handles : S → gmap handle (bytes * Z)).
Context (root_Open : bytes → M S handle) (dir_Close : handle → M S unit)
  (renameNoReplace : handle → bytes → handle → bytes → M S unit).

(** Opening a directory adds a handle; closing releases it whatever it returns; the
    native call renames between two open directories, and only to a free name. *)
Record native_laws : Prop := {
  open_dir_law n f h :
    triple (at_state files handles f h) (root_Open n)
      (λ r s, match r with
        | Ok fd => h !! fd = None ∧ at_state files handles f (<[fd := (n, 0)]> h) s
        | Err _ => at_state files handles f h s
        | Panic _ => False
        end);
  close_dir_law fd f h :
    triple (at_state files handles f h) (dir_Close fd)
      (λ r s, at_state files handles f (delete fd h) s ∧
        match r with Panic _ => False | _ => True end);
  native_rename_law fd fd' old new f h :
    clean_name old → clean_name new →
    h !! fd = Some (path_Dir old, 0) → h !! fd' = Some (path_Dir new, 0) →
    is_Some (f !! old) →
    triple (at_state files handles f h)
      (renameNoReplace fd (path_Base old) fd' (path_Base new))
      (λ r s, handles s = h ∧ exclusive old new f r (files s));
}.
Hypothesis N : native_laws.

(** [defer Close()] of a directory. *)
Lemma close_dir_after (fd : handle) (n : bytes) (h : gmap handle (bytes * Z)) (φ : gmap bytes bytes → Prop) :
  h !! fd = None →
  triple (λ s, handles s = <[fd := (n, 0)]> h ∧ φ (files s)) (dir_Close fd)
    (λ r s, (handles s = h ∧ φ (files s)) ∧ match r with Panic _ => False | _ => True end).
Proof.
  intros Hfd t s [Hh Hφ].
  destruct (close_dir_law N fd (files s) _ t s (conj eq_refl Hh)) as [[Hf' Hh'] Hr].
  rewrite delete_insert_id in Hh' by done. by rewrite Hf'.
Qed.

(** Both directories are closed again, and the rename is exclusive. *)
Lemma osRoot_rename_law (old new : bytes) (f : gmap bytes bytes) (h : gmap handle (bytes * Z)) :
  clean_name old → clean_name new → is_Some (f !! old) →
  triple (at_state files handles f h)
    (osRoot_RenameNoReplace root_Open dir_Close renameNoReplace old new)
    (λ r s, handles s = h ∧ exclusive old new f r (files s)).
Proof.
  intros Hco Hcn Hold. unfold osRoot_RenameNoReplace.
  apply (triple_bind _ (λ fd s, at_state files handles f (<[fd := (path_Dir old, 0)]> h) s ∧
                                h !! fd = None)).
  { eapply triple_conseq; [apply (open_dir_law N)|done|].
    intros [fd|e|msg] s; [by intros [? ?]| |done]. intros [? ?]. by split; [|left]. }
  intros fd. apply triple_pure. intros Hfd.
  apply (triple_bind _ (λ r s, handles s = <[fd := (path_Dir old, 0)]> h ∧
    exclusive old new f (match r with inl x => Ok x | inr e => Err e end) (files s))).
  2: { intros r. eapply triple_after_ignored.
       - by apply (close_dir_after fd (path_Dir old) h (exclusive old new f _)).
       - destruct r; [apply triple_ret|apply triple_throw]; by intros s. }
  eapply (triple_attempt _ _ (λ r s, handles s = <[fd := (path_Dir old, 0)]> h ∧
    exclusive old new f r (files s))); [|intros s; simpl; naive_solver].
  set (h1 := <[fd := (path_Dir old, 0)]> h).
  apply (triple_bind _ (λ fd' s, at_state files handles f (<[fd' := (path_Dir new, 0)]> h1) s ∧
                                 h1 !! fd' = None)).
  { eapply triple_conseq; [apply (open_dir_law N)|done|].
    intros [fd'|e|msg] s; [by intros [? ?]| |done]. intros [? ?]. by split; [|left]. }
  intros fd'. apply triple_pure. intros Hfd'.
  apply (triple_bind _ (λ r s, handles s = <[fd' := (path_Dir new, 0)]> h1 ∧
    exclusive old new f (match r with inl x => Ok x | inr e => Err e end) (files s))).
  - eapply triple_attempt; [apply (native_rename_law N fd fd' old new f); [done..| | |done]|intros s; simpl; naive_solver].
    + unfold h1 in *. rewrite lookup_insert_ne by (intros ->; by rewrite lookup_insert_eq in Hfd').
      by rewrite lookup_insert_eq.
    + by rewrite lookup_insert_eq.
  - intros r. eapply triple_after_ignored.
    + by apply (close_dir_after fd' (path_Dir new) h1 (exclusive old new f _)).
    + destruct r as [[]|e]; [apply triple_ret|apply triple_throw]; by intros s.
Qed.
End rename.

(** ** Acquiring the root *)

(** A configuration [openAdapter] may use: permission bits only, and some. *)
Definition valid_mode (mode : Z) : Prop := Perm mode = mode ∧ mode ≠ 0.
Definition valid_config (c : config) : Prop :=
  valid_mode (cFileMode c) ∧ valid_mode (cDirectoryMode c) ∧
  (cSymlinkPolicy c = DenySymlinks ∨ cSymlinkPolicy c = AllowInternalSymlinks).

Lemma Perm_valid mode : (Perm mode =? 0) = false → valid_mode (Perm mode).
Proof. intros H%Z.eqb_neq. split; [|done]. unfold Perm. by rewrite <- Z.land_assoc. Qed.

Lemma apply_options_valid options c :
  valid_config c →
  match apply_options options c with Ok c' => valid_config c' | Err _ => True | Panic _ => False end.
Proof.
  revert c. induction options as [|o options IH]; intros c Hc; simpl; [done|].
  assert (Ho : match apply_option o c with Ok c' => valid_config c' | Err _ => True | Panic _ => False end).
  { destruct Hc as (? & ? & ?). destruct o; simpl.
    1,2: destruct (Perm mode =? 0) eqn:E; [done|apply Perm_valid in E; done].
    destruct (Z.eqb_spec policy DenySymlinks), (Z.eqb_spec policy AllowInternalSymlinks); simpl;
      unfold valid_config; simpl; auto. }
  destruct (apply_option o c); simpl; [by apply IH|done..].
Qed.

(** The root handles that are open: [OpenRoot] adds one, which its [Close] releases
    whatever it returns. *)
Record system_laws {S} (sys : system S) (live : S → Z) : Prop := {
  mkdir_law root mode n : keeps False (λ s, live s = n) (sysMkdirAll sys root mode);
  open_root_law root n :
    triple (λ s, live s = n) (sysOpenRoot sys root)
      (λ r s, match r with
        | Ok R => live s = n + 1 ∧
            ∀ m, triple (λ s, live s = m) (Local.rClose R)
                   (λ r s, live s = m - 1 ∧ match r with Panic _ => False | _ => True end)
        | Err _ => live s = n
        | Panic _ => False
        end);
}.

Section open.
Context {S : Type} (sys : system S) (live : S → Z) (L : system_laws sys live).
Context (F : localFile S) (rnd : M S bytes).

(** What acquisition leaves. *)
Definition acquired (n : Z) (r : result (Adapter S)) (s : S) : Prop :=
  match r with
  | Ok a => live s = n + 1 ∧
            valid_config (mkConfig (fileMode a) (directoryMode a) (symlinkPolicy a)) ∧
            ∀ m, triple (λ s, live s = m) (Close a) (λ _ s, live s = m - 1)
  | Err _ => live s = n
  | Panic _ => False
  end.

Lemma openAdapter_acquired ctx dir options n :
  triple (λ s, live s = n) (openAdapter F rnd ctx dir sys options) (acquired n).
Proof.
  unfold openAdapter. destruct ctx as [ctx|]; [|by apply triple_throw].
  apply triple_check_ctx_bind; [done|].
  assert (Hd : valid_config (mkConfig 0x180 0x1c0 DenySymlinks)) by (repeat split; try done; by left).
  pose proof (apply_options_valid options _ Hd) as Hv.
  apply triple_lift_bind; [by destruct (apply_options _ _)|].
  intros c Hc. rewrite Hc in Hv. apply triple_check_ctx_bind; [done|].
  apply (triple_keeps_bind False); [apply keeps_attempt, (mkdir_law _ _ L)|done|].
  intros [_|err]; [|by apply triple_throw]. apply triple_check_ctx_bind; [done|].
  apply (triple_bind _ (λ x s, match x with
    | inl R => live s = n + 1 ∧
        ∀ m, triple (λ s, live s = m) (Local.rClose R)
               (λ r s, live s = m - 1 ∧ match r with Panic _ => False | _ => True end)
    | inr _ => live s = n end)).
  { eapply triple_attempt; [apply (open_root_law _ _ L)|]. by intros s. }
  intros [R|err]; [|by apply triple_throw].
  intros t s [Hs Hclose]. revert t s Hs.
  change (triple (λ s, live s = n + 1) (let! done := poll ctx in
    match done with
    | Some err =>
        let! closed := attempt (Local.rClose R) in
        throw (default err (Join2 (Some err) (match closed with inl _ => None | inr e => Some e end)))
    | None => ret (mkAdapter F R rnd (cFileMode c) (cDirectoryMode c) (cSymlinkPolicy c))
    end) (acquired n)).
  apply (triple_bind _ (λ _ s, live s = n + 1)); [by intros t s Hs|]. intros [err|].
  - apply (triple_bind _ (λ _ s, live s = n)); [|intros ?; by apply triple_throw].
    eapply triple_attempt; [apply (Hclose (n + 1))|]. intros s. simpl. split_and!; intros; destruct_and?; try done; lia.
  - apply triple_ret. intros s Hs. split_and!; [done|done|].
    intros m. eapply triple_conseq; [apply (Hclose m)|done|]. by intros r s' [? _].
Qed.
End open.

(** C23: The local [Open] leaks no root handle: against every system whose root handles
    are released by [Close], an acquisition that fails, or is cancelled at any point
    up to the last check, leaves as many handles open as before, and one that succeeds
    leaves exactly the adapter's own, which [Close] releases.  The adapter's modes then
    hold permission bits only and at least one, whatever options were given, and its
    symbolic-link policy is one of the two declared. *)
Theorem local_Open_owns {S} (sys : system S) (live : S → Z) F rnd ctx dir options t s :
  system_laws sys live →
  let '(r, (_, s')) := openAdapter F rnd ctx dir sys options t s in
  acquired live (live s) r s' ∧ (ctx = None → r = Err (Sentinel ErrContextRequired)).
Proof.
  intros L. pose proof (openAdapter_acquired sys live L F rnd ctx dir options (live s) t s eq_refl) as H.
  unfold run_result, run_state in H.
  destruct (openAdapter F rnd ctx dir sys options t s) as [r [t' s']] eqn:E. split; [done|].
  intros ->. by injection E.
Qed.
