(* ===== verification/LocalWrite.v ===== *)
(** * Publication and exclusive moves of the local adapter

    [Write] and [Move] against any system that meets [OsRoot]: what the files are
    after a call that succeeded, failed or was cancelled at any step. *)

From S2P Require Import Prelude GoStrings Errors Effects Hoare Paths Capability Contracts Iterator Digest FileInfo Remote RemoteNames Reading Publish Local LocalOS.

(** A temporary name in the directory of [target]. *)
Definition beside (target tmp : bytes) : Prop :=
  ∃ random, tmp = temporary_in (path_Dir target) random.

(** Published by a link whose temporary name could not be removed. *)
Definition still_linked (target : bytes) (whole : bytes → Prop) (f f' : gmap bytes bytes) : Prop :=
  ∃ tmp content, beside target tmp ∧ f !! tmp = None ∧ whole content ∧
    f' = <[tmp := content]> (<[target := content]> f).

(** The files as the result of a write reports them. *)
Definition written {A : Type} (create_only : bool) (target : bytes) (whole : bytes → Prop)
    (f : gmap bytes bytes) (r : result A) (f' : gmap bytes bytes) : Prop :=
  match r with
  | Ok _ => published target whole f f' ∧ (create_only = true → f !! target = None)
  | Err _ =>
      untouched_or_left (beside target) f f' ∨
      ((create_only = true → f !! target = None) ∧
       (published target whole f f' ∨ (create_only = true ∧ still_linked target whole f f')))
  | Panic _ => False
  end.

(** ** Rules for the adapter's combinators *)

Section combinators.
Context {S A : Type} (P : S → Prop) (Q : result A → S → Prop).
Hypothesis any_error : ∀ e e' s, Q (Err e) s → Q (Err e') s.

Lemma triple_wrapped format (m : M S A) : triple P m Q → triple P (wrapped format m) Q.
Proof.
  intros Hm t s HP. specialize (Hm t s HP). unfold wrapped. monad_unfold.
  destruct (m t s) as [[x|e|msg] [t' s']]; simpl in *; eauto.
Qed.

Lemma triple_mapped p (m : M S A) : triple P m Q → triple P (mapped p m) Q.
Proof.
  intros Hm t s HP. specialize (Hm t s HP). unfold mapped. monad_unfold.
  destruct (m t s) as [[x|e|msg] [t' s']]; simpl in *; eauto.
Qed.
End combinators.

Section keeps_combinators.
Context {S A : Type} (panics : Prop) (P : S → Prop).

Lemma keeps_wrapped format (m : M S A) : keeps panics P m → keeps panics P (wrapped format m).
Proof. by apply triple_wrapped. Qed.
Lemma local_keeps_mapped p (m : M S A) : keeps panics P m → keeps panics P (mapped p m).
Proof. by apply triple_mapped. Qed.
End keeps_combinators.
#[export] Hint Resolve keeps_wrapped local_keeps_mapped : keeps.

Section write.
Context {S : Type} {F : localFile S} {R : rootFS S} {rnd : M S bytes} `{!OsRoot F R rnd}.
Context (mode dirMode policy : Z).
Let a : Adapter S := mkAdapter F R rnd mode dirMode policy.
Implicit Types (f : gmap bytes bytes) (h : gmap handle (bytes * Z)).
Local Abbreviation at_state := (at_state files handles).
Local Abbreviation laws := (local_file_laws (F:=F) (R:=R) (rnd:=rnd)).

(** What a silent call keeps: the files, the handles, and which files may have several names. *)
Definition at_names (f : gmap bytes bytes) (h : gmap handle (bytes * Z)) (several : bytes → Prop) (s : S) : Prop :=
  at_state f h s ∧ ∀ n, ¬ sole n s → several n.

Lemma at_names_silent {A : Type} f h several (m : M S A) : silent m → keeps False (at_names f h several) m.
Proof. intros Hm. apply Hm. Qed.

Lemma keeps_at_names {A : Type} f h (m : M S A) :
  keeps False (at_names f h (λ _, True)) m → keeps False (at_state f h) m.
Proof. intros Hm t s Hs. destruct (Hm t s ltac:(done)) as [[? _] ?]. done. Qed.

Lemma local_at_silent {A : Type} f h (m : M S A) : silent m → keeps False (at_state f h) m.
Proof. intros Hm. apply keeps_at_names, Hm. Qed.
Local Hint Resolve at_names_silent : keeps.
Local Hint Resolve local_at_silent silent_Stat silent_Lstat silent_MkdirAll silent_Sync silent_random : keeps.

Lemma names_checkSymlinks f h several p final : keeps False (at_names f h several) (checkSymlinks a p final).
Proof.
  unfold checkSymlinks. destruct (_ || _); [auto with keeps|].
  induction (link_candidates p final) as [|n names IH]; simpl; [auto with keeps|]. keeps_split.
Qed.
Lemma at_checkSymlinks f h p final : keeps False (at_state f h) (checkSymlinks a p final).
Proof. apply keeps_at_names, names_checkSymlinks. Qed.
Local Hint Resolve at_checkSymlinks : keeps.

Lemma local_at_Stat f h ctx p : keeps False (at_state f h) (Stat a ctx p).
Proof. unfold Stat. simpl. keeps_split. Qed.

Section attempt.
(** One attempt: the temporary file [tmp] for [target], open as [fd]. *)
Context (f : gmap bytes bytes) (h : gmap handle (bytes * Z)) (p : Path) (tmp : bytes) (fd : handle).
Context (whole : bytes → Prop) (options : WriteOptions).
Hypothesis tmp_free : f !! tmp = None.
Hypothesis fd_free : h !! fd = None.
Local Abbreviation target := (value p).
Local Abbreviation create_only := (wIfNoneMatch options).

(** What the files may be when the attempt failed, before the deferred removal; *)
Definition fate (f' : gmap bytes bytes) : Prop :=
  agree_off tmp f f' ∨
  (tmp ≠ target ∧ (create_only = true → f !! target = None) ∧
   ∃ content, whole content ∧
     (f' = <[target := content]> f ∨
      (create_only = true ∧ f' = <[tmp := content]> (<[target := content]> f)))).

(** which the removal does not leave. *)
Lemma fate_delete f' : fate f' → fate (delete tmp f').
Proof.
  intros [Ha|(Hne & Hco & content & Hc & Hf)]; [left; by apply agree_off_delete|]. right.
  split_and!; [done..|]. exists content. split; [done|]. left.
  destruct Hf as [->|[_ ->]]; [|rewrite delete_insert_eq]; by rewrite delete_insert_ne, delete_id.
Qed.

Lemma fate_written {A : Type} (e : error) f' :
  beside target tmp → fate f' → written (A:=A) create_only target whole f (Err e) f'.
Proof.
  intros Hb [Ha|(Hne & Hco & content & Hc & Hf)]; [left; by eapply agree_off_untouched|].
  right. split; [done|]. destruct Hf as [->|[? ->]]; [left; by exists content|].
  right. split; [done|]. by exists tmp, content.
Qed.

(** Failed, with the file still open or not. *)
Definition failing (s : S) : Prop :=
  fate (files s) ∧ (handles s = h ∨ ∃ off, handles s = <[fd := (tmp, off)]> h).

Lemma opened_failing s : opened files handles f h tmp fd s → failing s.
Proof. intros [Ha Ho]. split; [by left|by right]. Qed.

(** The deferred function. *)
Lemma close_failing :
  triple failing (fClose F fd)
    (λ r s, (fate (files s) ∧ handles s = h) ∧ match r with Panic _ => False | _ => True end).
Proof.
  intros t s [Hf Hh].
  destruct (Close_law fd (files s) (handles s) t s ltac:(done)) as [[Hf' Hh'] Hr].
  split; [|done]. rewrite Hf', Hh'. split; [done|].
  destruct Hh as [->|[off ->]]; [by rewrite delete_id|by rewrite delete_insert_id].
Qed.

Lemma remove_failed :
  keeps False (λ s, fate (files s) ∧ handles s = h) (rRemove R tmp).
Proof.
  intros t s [Hf Hh].
  destruct (remove_law _ _ _ _ _ _ laws tmp (files s) h t s ltac:(done)) as (Hf' & Hh' & Hr).
  split; [|done]. split; [|done]. destruct Hf' as [->| ->]; [done|by apply fate_delete].
Qed.

(** What giving the closed file its name leaves. *)
Definition named (content : bytes) (r : result unit) (s : S) : Prop :=
  match r with
  | Ok _ => handles s = h ∧ files s = <[target := content]> f ∧
            (create_only = true → f !! target = None)
  | Err _ => failing s
  | Panic _ => False
  end.

(** A link was made: both names hold the content. *)
Lemma linked_free content :
  <[tmp := content]> f !! target = None →
  tmp ≠ target ∧ f !! target = None ∧
  <[target := content]> (<[tmp := content]> f) = <[tmp := content]> (<[target := content]> f).
Proof. intros [? ?]%lookup_insert_None. split_and!; [done..|]. by apply insert_insert_ne. Qed.

Lemma publish_link content :
  whole content → create_only = true →
  triple (at_state (<[tmp := content]> f) h) (publish a p tmp options) (named content).
Proof.
  intros Hc Eco. unfold publish. rewrite Eco. set (f1 := <[tmp := content]> f).
  apply (triple_bind _ (λ x s, handles s = h ∧
    match x with
    | inl _ => f1 !! target = None ∧ files s = <[target := content]> f1
    | inr _ => files s = f1 ∨ (f1 !! target = None ∧ files s = <[target := content]> f1)
    end)).
  { eapply triple_attempt; [apply (Link_law tmp target content)|].
    - unfold f1. by rewrite lookup_insert_eq.
    - intros s. simpl. naive_solver. }
  intros [[]|e].
  - apply triple_wrapped; [done|]. intros t s (Hh & Hn & Hf).
    apply linked_free in Hn as (Hne & Hn & Heq). unfold f1 in Hf. rewrite Heq in Hf.
    destruct (Remove_law tmp _ h t s (conj Hf Hh)) as [Hh' Hr].
    rewrite delete_insert_id in Hr by (by rewrite lookup_insert_ne).
    destruct (run_result _ t s) as [x|e|msg]; [done| |done].
    split; [|by left]. right. split_and!; [done..|]. exists content. split; [done|].
    rewrite Eco. naive_solver.
  - assert (Hfail : ∀ e', triple (λ s, handles s = h ∧ (files s = f1 ∨
      (f1 !! target = None ∧ files s = <[target := content]> f1))) (throw (A:=unit) e') (named content)).
    { intros e'. apply triple_throw. intros s [Hh Hf]. split; [|by left].
      destruct Hf as [->|[Hn ->]]; [left; apply agree_off_insert|].
      apply linked_free in Hn as (Hne & Hn & Heq). unfold f1. rewrite Heq. right. split_and!; [done..|].
      exists content. split; [done|]. by right. }
    destruct (Is e FsErrExist); apply Hfail.
Qed.

Lemma publish_rename content :
  whole content → create_only = false →
  triple (λ s, at_state (<[tmp := content]> f) h s ∧ sole tmp s) (publish a p tmp options) (named content).
Proof.
  intros Hc Eco. unfold publish. rewrite Eco. set (f1 := <[tmp := content]> f).
  assert (Hren : ∀ f', renamed tmp target f1 f' → f' = <[target := content]> f).
  { intros f' (c & Hc' & ->). unfold f1 in *. rewrite lookup_insert_eq in Hc'. simplify_eq.
    by rewrite delete_insert_id. }
  apply triple_wrapped; [done|]. eapply triple_conseq; [apply (Rename_law (R:=R) tmp target f1 h False)|by intros s [? ?]|].
  { unfold f1. by rewrite lookup_insert_eq. }
  intros [x|e|msg] s [Hh Hr]; [destruct Hr as [Hr|[[] _]]; split_and!; [done|by apply Hren|by rewrite Eco]| |done]. split; [|by left].
  destruct Hr as [->| ->%Hren]; [left; apply agree_off_insert|].
  destruct (decide (tmp = target)) as [<-|Hne]; [left; apply agree_off_insert|].
  right. rewrite Eco. split_and!; [done..|]. eauto.
Qed.

Lemma publish_law content :
  whole content →
  triple (λ s, at_state (<[tmp := content]> f) h s ∧ sole tmp s) (publish a p tmp options) (named content).
Proof.
  intros Hc. destruct create_only eqn:Eco; [|by apply publish_rename].
  eapply triple_conseq; [by apply publish_link|by intros s [? _]|done].
Qed.

End attempt.

(** *** The whole write *)

(** The source is any reader over the system; copying it into a new file may move
    its own handle, from [h] to somewhere in [H], and hands over a complete content. *)
Context {Src : Type} (Read : read_fn S Src) (source : Src) (ctx : context) (fuel : nat).
Context (f : gmap bytes bytes) (whole : bytes → Prop) (H : gmap handle (bytes * Z) → Prop).
Context (h : gmap handle (bytes * Z)).

(** The handles without [fd] are among [H]. *)
Definition elsewhere (fd : handle) (h : gmap handle (bytes * Z)) : Prop := H h ∧ h !! fd = None.

Definition copies_whole : Prop := ∀ tmp fd, elsewhere fd h → f !! tmp = None →
  triple (filled files handles sole f h tmp fd [])
    (io_Copy fuel (λ b, fWrite F fd b) (context_Read ctx Read) source)
    (λ r s, match r with
      | Ok (None, _) => ∃ h' content, elsewhere fd h' ∧ whole content ∧
                          filled files handles sole f h' tmp fd content s
      | Ok (Some _, _) | Err _ => ∃ h', elsewhere fd h' ∧ opened files handles f h' tmp fd s
      | Panic _ => False
      end).
Hypothesis Hcopy : copies_whole.

(** The attempt failed, wherever the source's handle is by now. *)
Definition failing_any (p : Path) (tmp : bytes) (fd : handle) (options : WriteOptions) (s : S) : Prop :=
  ∃ h', elsewhere fd h' ∧ failing f h' p tmp fd whole options s.

(** From the filled file to its name. *)
Lemma finish_temporary h' p tmp fd options content :
  elsewhere fd h' → f !! tmp = None → whole content →
  triple (filled files handles sole f h' tmp fd content)
    (do! check_ctx ctx in
     do! wrapped "local: sync temporary file: %w" (fSync F fd) in
     do! wrapped "local: close temporary file: %w" (fClose F fd) in
     publish a p tmp options)
    (λ r s, match r with
      | Ok _ => handles s = h' ∧ files s = <[value p := content]> f ∧
                (wIfNoneMatch options = true → f !! value p = None)
      | Err _ => failing_any p tmp fd options s
      | Panic _ => False
      end).
Proof.
  intros He Hn Hw. set (filled c := filled files handles sole f h' tmp fd c).
  assert (Hfail : ∀ s, filled content s → failing_any p tmp fd options s).
  { intros s Hs. exists h'. split; [done|]. by eapply opened_failing, filled_opened. }
  apply triple_check_ctx_bind; [by eauto|].
  apply (triple_bind _ (λ _, filled content)).
  { apply triple_wrapped; [by intros|]. intros t s [Hs Ho].
    destruct (local_at_silent _ _ _ (silent_Sync fd) t s Hs) as [Hs' Hr]. destruct (Sync_sole fd tmp t s Ho) as [Ho' _].
    assert (filled content (run_state (fSync F fd) t s)) by done.
    destruct (run_result _ t s); simpl; eauto. }
  intros _. apply (triple_bind _ (λ _ s, at_state (<[tmp := content]> f) h' s ∧ sole tmp s)).
  { apply triple_wrapped; [by intros|]. intros t s Hs.
    destruct (Close_sole fd tmp t s (proj2 Hs)) as [Ho _].
    destruct (close_filled _ _ _ _ _ _ laws f h' tmp fd (proj2 He) content t s Hs) as [[Hf Hh] Hr].
    destruct (run_result _ t s) as [x|e|msg]; [done| |done]. exists h'. split; [done|]. split; [|by left]. left.
    rewrite Hf. apply agree_off_insert. }
  intros _. eapply triple_conseq; [apply (publish_law f h' p tmp fd whole options Hn (proj2 He) content Hw)|done|].
  intros [] s Hs; [done| |done]. by exists h'.
Qed.

Lemma write_temporary_law p tmp fd options :
  elsewhere fd h → f !! tmp = None →
  triple (filled files handles sole f h tmp fd [])
    (write_temporary a fuel Read ctx p tmp fd source options)
    (λ r s, match r with
      | Ok _ => elsewhere fd (handles s) ∧
                written (A:=unit) (wIfNoneMatch options) (value p) whole f (Ok tt) (files s)
      | Err _ => failing_any p tmp fd options s
      | Panic _ => False
      end).
Proof.
  intros He Hn. unfold write_temporary.
  apply (triple_bind _ (λ x s, match x.1 with
    | None => ∃ y : gmap handle (bytes * Z) * bytes, filled files handles sole f y.1 tmp fd y.2 s ∧
                (elsewhere fd y.1 ∧ whole y.2)
    | Some _ => failing_any p tmp fd options s end)).
  { eapply triple_conseq; [by apply Hcopy|done|].
    intros [[[e|] x']|e|msg] s; simpl; [| | |done].
    - intros (h' & He' & Ho). exists h'. split; [done|]. by apply opened_failing.
    - intros (h' & content & He' & Hw & Hs). by exists (h', content).
    - intros (h' & He' & Ho). exists h'. split; [done|]. by apply opened_failing. }
  intros [[err|] x']; cbn [fst]; [by apply triple_throw|].
  apply triple_exists. intros [h' content]. apply triple_pure. intros [He' Hw].
  eapply triple_conseq; [by apply (finish_temporary h' p tmp fd options content)|done|].
  intros [] s Hs; [|done..]. destruct Hs as (-> & -> & Hco). split; [done|]. split; [by exists content|done].
Qed.

Hypothesis Hh0 : H h.

Lemma untouched_written {A : Type} co target s :
  at_state f h s →
  (∀ e, H (handles s) ∧ written (A:=A) co target whole f (Err e) (files s)) ∧
  (False → ∀ msg, H (handles s) ∧ written (A:=A) co target whole f (Panic msg) (files s)).
Proof. intros [Hf Hh]. split; [|done]. intros e. rewrite Hh. split; [done|]. by left; left. Qed.

Lemma temporaryName_law target :
  triple (at_state f h) (temporaryName a (path_Dir target))
    (λ r s, at_state f h s ∧
       match r with Ok tmp => beside target tmp | Err _ => True | Panic _ => False end).
Proof.
  apply (triple_bind _ (λ _, at_state f h)).
  - eapply triple_attempt; [apply (local_at_silent _ _ _ silent_random)|]. intros s. simpl. naive_solver.
  - intros [random|err]; [apply triple_ret|by apply triple_throw].
    intros s Hs. split; [done|]. by exists random.
Qed.

Lemma create_law p tmp co :
  beside (value p) tmp →
  triple (at_state f h)
    (wrapped "local: create temporary file: %w" (rOpenFile R tmp temporaryOpenFlags mode))
    (λ r s, match r with
      | Ok fd => filled files handles sole f h tmp fd [] s ∧ f !! tmp = None ∧ h !! fd = None
      | Err e => H (handles s) ∧ written (A:=Metadata) co (value p) whole f (Err e) (files s)
      | Panic _ => False
      end).
Proof.
  intros Hb. apply triple_wrapped; [done|]. eapply triple_conseq; [apply (Create_law tmp mode f h)|done|].
  intros [fd|e|msg] s; [by intros (? & ? & ? & ?)| |done]. intros [-> Hf]. split; [done|]. left.
  destruct Hf as [->|[Hn ->]]; [by left|]. by apply (agree_off_untouched _ tmp); [..|apply agree_off_insert].
Qed.

(** The deferred function after a failure, *)
Lemma deferred_failure {A : Type} p tmp fd options e :
  beside (value p) tmp → f !! tmp = None →
  triple (failing_any p tmp fd options)
    (do! ignored (fClose F fd) in do! ignored (rRemove R tmp) in throw (A:=A) e)
    (λ r s, H (handles s) ∧ written (wIfNoneMatch options) (value p) whole f r (files s)).
Proof.
  intros Hb Hn. apply triple_exists. intros h'.
  eapply triple_conseq; [apply (triple_pure (failing f h' p tmp fd whole options) (elsewhere fd h'))| |intros r s Hr; exact Hr];
    [intros [HH Hfd]|naive_solver].
  eapply triple_after_ignored; [by apply close_failing|].
  eapply triple_after_ignored; [by apply remove_failed|]. apply triple_throw. intros s [Hf ->].
  split; [done|]. by eapply fate_written.
Qed.

(** and after publication and the closing [Stat]. *)
Lemma deferred_success p fd f' h' :
  h' !! fd = None →
  triple (at_state f' h')
    (let! metadata := attempt (Stat a ctx p) in
     do! ignored (fClose F fd) in
     match metadata with inl m => ret m | inr err => throw err end)
    (λ r s, at_state f' h' s ∧ match r with Panic _ => False | _ => True end).
Proof.
  intros Hfd. apply (triple_keeps_bind False); [apply keeps_attempt, local_at_Stat|done|]. intros metadata.
  apply (triple_after_ignored _ (at_state f' h')).
  - eapply triple_conseq; [apply (Close_law fd f' h')|done|]. intros r s. by rewrite delete_id.
  - destruct metadata; [by apply triple_ret|by apply triple_throw].
Qed.

Lemma Write_whole p options :
  triple (at_state f h) (Write a fuel Read ctx p source options)
    (λ r s, H (handles s) ∧ written (wIfNoneMatch options) (value p) whole f r (files s)).
Proof.
  unfold Write. destruct (IsRoot p); [apply triple_throw; intros; by apply untouched_written|].
  do 4 (apply (triple_keeps_bind False);
    [solve [keeps_split]|intros s Hs; by apply untouched_written|intros ?]).
  apply (triple_bind _ (λ tmp s, at_state f h s ∧ beside (value p) tmp)).
  { eapply triple_conseq; [apply temporaryName_law|done|].
    intros [] s [Hs ?]; [done|by apply untouched_written|done]. }
  intros tmp. apply triple_pure. intros Hb.
  apply (triple_bind _ (λ fd s, filled files handles sole f h tmp fd [] s ∧ (f !! tmp = None ∧ h !! fd = None))).
  { eapply triple_conseq; [by apply (create_law p tmp (wIfNoneMatch options))|done|]. by intros []. }
  intros fd. apply triple_pure. intros [Hn Hfd].
  apply (triple_bind _ (λ x s, match x with
    | inl _ => elsewhere fd (handles s) ∧
        written (A:=unit) (wIfNoneMatch options) (value p) whole f (Ok tt) (files s)
    | inr _ => failing_any p tmp fd options s end)).
  { eapply triple_attempt; [by apply write_temporary_law|]. by intros s. }
  intros [_|err]; [|by apply deferred_failure].
  intros t s [[HH Hfd'] [Hp Hco]]. simpl files_api.
  destruct (deferred_success p fd (files s) (handles s) Hfd' t s ltac:(done)) as [[Hf Hh] Hr].
  rewrite Hf, Hh. split; [done|]. destruct (run_result _ t s); [done|right; by split; [|left]|done].
Qed.
End write.

(** A reader given by its answers holds no handle. *)
Lemma list_copies_whole {S} {F : localFile S} {R : rootFS S} {rnd : M S bytes} `{!OsRoot F R rnd}
    (source : reader) (ctx : context) (fuel : nat) (f : gmap bytes bytes) (h0 : gmap handle (bytes * Z)) :
  (length source < fuel)%nat →
  copies_whole (F:=F) (R:=R) (rnd:=rnd) list_Read source ctx fuel f (reads source) (λ h, h = h0) h0.
Proof.
  intros Hf tmp fd [_ Hfd] Hn.
  eapply triple_conseq; [by apply (copy_filled _ _ _ _ _ _ local_file_laws)|done|].
  intros [[[e|] x]| |] s; [intros Ho; by exists h0|intros (b & Hb & Hs)|done..].
  exists h0, b. split_and!; [by split|done|exact Hs].
Qed.

(** C18: Publication by the local adapter is atomic, for every system that meets
    [OsRoot]: whatever fails or is cancelled and at whatever step, a write ends and
    leaves no handle open, and the files are as they were; or as they were with one
    temporary file more in the target's directory, under a name that was free; or as
    they were with the target holding the whole source, which is what success
    reports.  A create-only write succeeds only where the target was absent and never
    replaces a file; it alone may, failing, leave both the published target and the
    temporary name linked to it. *)
Theorem local_Write_atomic {S} (F : localFile S) R rnd `{!OsRoot F R rnd} mode dirMode policy
    ctx p source options t s :
  let a := mkAdapter F R rnd mode dirMode policy in
  let '(r, (_, s')) := Write a (1 + length source) list_Read ctx p source options t s in
  let f := files s in
  let f' := files s' in
  handles s' = handles s ∧
  written (wIfNoneMatch options) (value p) (reads source) f r f' ∧
  (wIfNoneMatch options = true → ∀ c, f !! value p = Some c → f' !! value p = Some c).
Proof.
  intros a.
  pose proof (Write_whole mode dirMode policy list_Read source ctx (1 + length source) (files s)
    (reads source) (λ h, h = handles s) (handles s)
    (list_copies_whole source ctx _ (files s) (handles s) (Nat.lt_succ_diag_r _)) eq_refl p options t s ltac:(done)) as H.
  unfold run_result, run_state in H. fold a in H.
  destruct (Write a _ _ _ _ _ _ t s) as [r [t' s']]. destruct H as [Hh Hr]. split_and!; [done..|].
  intros Hco c Hc. simpl in Hr. destruct r as [m|e|msg]; [|destruct Hr as [Hr|[Hno _]]|done].
  - destruct Hr as [_ Hno]. by rewrite Hno in Hc.
  - destruct Hr as [->|(tmp & x & _ & Hn & ->)]; [done|]. rewrite lookup_insert_ne; [done|]. congruence.
  - by rewrite Hno in Hc.
Qed.

(** ** Moves *)

Definition moved {A : Type} (several : Prop) (overwrite : bool) :=
  if overwrite then @replacing A several else @exclusive A.

Lemma moved_untouched {A : Type} several overwrite old new f e :
  moved (A:=A) several overwrite old new f (Err e) f.
Proof. by destruct overwrite; left. Qed.

Lemma moved_any_error {A : Type} several overwrite old new f e e' f' :
  moved (A:=A) several overwrite old new f (Err e) f' → moved (A:=A) several overwrite old new f (Err e') f'.
Proof. by destruct overwrite. Qed.

Lemma moved_kept {A : Type} several overwrite old new f (r : result A) f' c :
  moved several overwrite old new f r f' → f !! old = Some c → f' !! old = Some c ∨ f' !! new = Some c.
Proof.
  assert (Hren : renamed old new f f' → f !! old = Some c → f' !! new = Some c).
  { intros (c' & Hc' & ->) Hc. rewrite lookup_insert_eq. congruence. }
  destruct overwrite, r; simpl; naive_solver.
Qed.

Section move.
Context {S : Type} {F : localFile S} {R : rootFS S} {rnd : M S bytes} `{!OsRoot F R rnd}.
Context (mode dirMode policy : Z).
Local Abbreviation a := (mkAdapter F R rnd mode dirMode policy).
Local Hint Resolve at_names_silent silent_Stat silent_Lstat silent_MkdirAll names_checkSymlinks : keeps.

(** The rename that [Move] ends in. *)
Lemma move_rename (several : bytes → Prop) (overwrite : bool) (source destination : Path) (f : gmap bytes bytes) (h : gmap handle (bytes * Z)) :
  clean_name (value source) → clean_name (value destination) → is_Some (f !! value source) →
  triple (at_names f h several)
    (if negb overwrite then
       let! renamed := attempt (rRenameNoReplace R (value source) (value destination)) in
       match renamed with
       | inl _ => ret tt
       | inr err =>
           if Is err FsErrExist then
             throw (Errorf "%w: %s: %w" [Sentinel ErrAlreadyExists; err] [FStr (value destination)])
           else throw (mapError source err)
       end
     else mapped source (rRename R (value source) (value destination)))
    (λ r s, handles s = h ∧ moved (several (value source)) overwrite (value source) (value destination) f r (files s)).
Proof.
  intros Hs Hd Hsrc. destruct overwrite; simpl.
  - apply triple_mapped; [by intros e e' s [? ?]|].
    eapply triple_conseq; [by apply Rename_law|intros s [Hs' Hn]; exact (conj Hs' (Hn _))|done].
  - apply (triple_bind _ (λ x s, handles s = h ∧ exclusive (value source) (value destination) f
      (match x with inl u => Ok u | inr e => Err e end) (files s))).
    { eapply triple_attempt; [eapply triple_conseq; [by apply RenameNoReplace_law|by intros s [? _]|by intros r]|].
      intros s. simpl. naive_solver. }
    intros [[]|e]; [by apply triple_ret|]. destruct (Is e FsErrExist); by apply triple_throw.
Qed.

Lemma Move_law (several : bytes → Prop) (ctx : context) (source destination : Path) (options : MoveOptions) (f : gmap bytes bytes) (h : gmap handle (bytes * Z)) :
  clean_name (value source) → clean_name (value destination) → is_Some (f !! value source) →
  triple (at_names f h several)
    (Move a ctx source destination options)
    (λ r s, handles s = h ∧
       moved (several (value source)) (mOverwrite options) (value source) (value destination) f r (files s)).
Proof.
  intros Hs Hd Hsrc. unfold Move.
  do 5 (apply (triple_keeps_bind False);
    [solve [keeps_split]|intros s [[Hf Hh] _]; (split; [|done]); rewrite Hf; auto using moved_untouched
    |intros ?]).
  by apply move_rename.
Qed.
End move.

(** C19: A move of a regular file is one rename, for every system that meets [OsRoot]:
    it leaves no handle open; success means the file left its old name and is under
    the new one (or, with [Overwrite], that the file had several names, the new one
    among them, and nothing changed); a failure or a cancellation leaves the files as they were, or the
    rename done where its answer was lost; in every case the content is under one of
    the two names.  Without [Overwrite] the rename needed a free name, so an existing
    destination keeps its content. *)
Theorem local_Move_exclusive {S} (F : localFile S) R rnd `{!OsRoot F R rnd} mode dirMode policy
    ctx source destination options t s c :
  wf_path source → wf_path destination → source ≠ Root → destination ≠ Root →
  files s !! value source = Some c →
  let a := mkAdapter F R rnd mode dirMode policy in
  let '(r, (_, s')) := Move a ctx source destination options t s in
  let f := files s in
  let f' := files s' in
  handles s' = handles s ∧
  moved (¬ sole (value source) s) (mOverwrite options) (value source) (value destination) f r f' ∧
  (f' !! value source = Some c ∨ f' !! value destination = Some c) ∧
  (mOverwrite options = false → ∀ d, f !! value destination = Some d →
     f' !! value destination = Some d).
Proof.
  intros Hs Hd Hsr Hdr Hc a.
  pose proof (Move_law mode dirMode policy (λ n, ¬ sole n s) ctx source destination options (files s) (handles s)
    (clean_name_path _ Hs Hsr) (clean_name_path _ Hd Hdr) ltac:(by eexists) t s ltac:(done)) as H.
  unfold run_result, run_state in H. fold a in H.
  destruct (Move a _ _ _ _ t s) as [r [t' s']]. destruct H as [Hh Hm]. simpl in Hm.
  split_and!; [done|done|by eapply moved_kept|].
  intros Ho d Hd'. unfold moved in Hm. rewrite Ho in Hm.
  destruct r as [u|e|msg]; simpl in Hm; [|destruct Hm as [->|Hm]|done]; [|done|];
    destruct Hm; congruence.
Qed.
