(* ===== verification/LocalRead.v ===== *)
(** * Reading and copying with the local adapter

    [OpenRange], [Checksum] and [Copy] against any system that meets [OsRoot]: what
    their streams deliver, what a copy publishes, and that no handle is left open. *)

From S2P Require Import Prelude GoStrings Errors Effects Hoare Paths Capability Contracts Iterator Digest FileInfo Remote RemoteNames Reading Publish Local LocalOS LocalWrite.

Section read.
Context {S : Type} {F : localFile S} {R : rootFS S} {rnd : M S bytes} `{!OsRoot F R rnd}.
Context (mode dirMode policy : Z).
Local Abbreviation a := (mkAdapter F R rnd mode dirMode policy).
Implicit Types (f : gmap bytes bytes) (h : gmap handle (bytes * Z)).
Local Abbreviation at_state := (at_state files handles).

(** ** Streams *)

(** A stream on [fd], a handle on the file [n] with the content [c], that has [rest]
    left.  [Q] is whatever else reading keeps. *)
Definition streaming (Q : S → Prop) f h (fd : handle) (n c : bytes) (x : contextReadCloser) (rest : bytes)
    (s : S) : Prop :=
  stream_file x = fd ∧ ∃ off, 0 ≤ off ≤ len c ∧ rest = drop (Z.to_nat off) c ∧
    at_state f (<[fd := (n, off)]> h) s ∧ Q s.

Lemma stream_serves (Q : S → Prop) f h fd n c :
  f !! n = Some c → (∀ count, keeps True Q (fRead F fd count)) →
  serves_read (stream_Read F) (streaming Q f h fd n c).
Proof.
  intros Hn HQ x rest count Hcount. unfold stream_Read.
  apply (triple_bind _ (λ e s, streaming Q f h fd n c x rest s ∧
    ∀ err, e = Some err → ∃ ce, err = ctx_error_value ce)).
  { intros t s Hs. split; [done|]. intros err. apply ctx_Err_value. }
  intros [err|]; apply triple_pure; intros He.
  { apply triple_ret. intros s Hs. exists rest. split_and!; [done|unfold len; simpl; lia|done|].
    destruct (He err eq_refl) as [[] ->]; done. }
  intros t s (Hx & off & Hoff & -> & Hs & Hq). subst fd.
  pose proof (Read_law (stream_file x) count n off c f (<[stream_file x := (n, off)]> h)
    ltac:(apply lookup_insert_eq) Hn Hoff Hcount t s Hs) as Hr.
  destruct (HQ count t s Hq) as [Hq' _]. unfold run_result, run_state, bind in *.
  destruct (fRead F (stream_file x) count t s) as [[[chunk err]|e|msg] [t' s']]; simpl in *; [| |done].
  - destruct Hr as (left & Hl & Hc & Hs' & Herr). exists left. split; [done|]. split; [done|]. split; [|done].
    assert (Hlen := f_equal length Hl). rewrite length_drop, length_app in Hlen.
    split; [done|]. exists (off + len chunk). unfold len in *. split_and!; [lia|lia| | |done].
    + rewrite Z2Nat.inj_add, Nat2Z.id, <- drop_drop, Hl by lia. by rewrite drop_app_length.
    + by rewrite insert_insert_eq in Hs'.
  - split; [done|]. by exists off.
Qed.

(** [io.LimitReader] in front of a stream. *)
Lemma limited_serves (Inv : contextReadCloser → bytes → S → Prop) :
  serves_read (stream_Read F) Inv →
  serves_read (limited_Read F) (λ x rest s, ∃ all, Inv x.1 all s ∧
    (0 ≤ x.2 ≤ MaxInt64 ∧ rest = take (Z.to_nat x.2) all)).
Proof.
  intros HI [x left] rest n Hn. apply triple_exists. intros all. apply triple_pure. intros [Hleft ->].
  unfold limited_Read. simpl in *. destruct (left <=? 0) eqn:E.
  { apply triple_ret. intros s Hs. assert (left = 0) as -> by lia. exists [].
    split_and!; [done|unfold len; simpl; lia|by exists all|done]. }
  intros t s Hs. pose proof (HI x all (Z.min n left) ltac:(lia) t s Hs) as Hr.
  unfold run_result, run_state, bind in *.
  destruct (stream_Read F x (Z.min n left) t s) as [[[[chunk err] x']|e|msg] [t' s']]; simpl in *; [| |done].
  - destruct Hr as (rest' & -> & Hfit & Hs' & Herr). pose proof (len_nonneg chunk).
    exists (take (Z.to_nat (left - len chunk)) rest'). split_and!; [|lia| |].
    + rewrite take_app_ge by (unfold len in *; lia). do 2 f_equal. unfold len in *. lia.
    + exists rest'. rewrite wrap64_id by (unfold is_int64, MaxInt64 in *; lia). split_and!; [done|lia|lia|done].
    + destruct err as [[[]| | | | | |]|]; try done. subst rest'. apply take_nil.
  - by exists all.
Qed.

(** A digest behind a reader has been fed what is no longer left. *)
Lemma hashing_serves {Src} (Read : read_fn S Src) Inv (all : bytes) :
  serves_read Read Inv →
  serves_read (hashing_Read Read) (λ x rest s, Inv x.1 rest s ∧ x.2 ++ rest = all).
Proof.
  intros HI [x fed] rest n Hn. simpl. apply triple_pure. intros <-.
  intros t s Hs. pose proof (HI x rest n Hn t s Hs) as Hr. unfold hashing_Read.
  unfold run_result, run_state, bind in *. simpl.
  destruct (Read x n t s) as [[[[chunk err] x']|e|msg] [t' s']]; simpl in *; [| |done].
  - destruct Hr as (rest' & -> & Hfit & Hs' & Herr). exists rest'. split_and!; [done..| |done].
    by rewrite app_assoc.
  - done.
Qed.

(** ** Opening *)

Local Hint Resolve local_at_silent silent_Stat silent_Lstat silent_MkdirAll at_checkSymlinks : keeps.

(** The stream is the only new handle, with the whole content left. *)
Definition opened_on f h (n c : bytes) (r : result contextReadCloser) (s : S) : Prop :=
  match r with
  | Ok x => h !! stream_file x = None ∧ streaming (λ _, True) f h (stream_file x) n c x c s
  | Err _ => at_state f h s
  | Panic _ => False
  end.

Lemma local_Open_law f h ctx p c :
  f !! value p = Some c → triple (at_state f h) (Open a ctx p) (opened_on f h (value p) c).
Proof.
  intros Hc. unfold Open.
  do 2 (apply (triple_keeps_bind False); [solve [keeps_split]|done|intros ?]).
  apply (triple_bind _ (λ fd s, h !! fd = None ∧ at_state f (<[fd := (value p, 0)]> h) s)).
  - apply triple_mapped; [done|]. eapply triple_conseq; [by apply (Open_law _ c)|done|]. by intros [].
  - intros fd. apply triple_ret. intros s [Hfd Hs]. split; [done|]. split; [done|]. exists 0.
    pose proof (len_nonneg c). by split_and!.
Qed.

Lemma local_Open_law_start f h ctx p c :
  f !! value p = Some c →
  triple (at_state f h) (Open a ctx p)
    (λ r s, match r with
      | Ok x => at_state f (<[stream_file x := (value p, 0)]> h) s ∧ h !! stream_file x = None
      | Err _ => at_state f h s
      | Panic _ => False
      end).
Proof.
  intros Hc. eapply triple_conseq; [by apply (local_Open_law f h ctx p c)|done|].
  intros [x|e|msg] s; simpl; [|done..]. intros (Hfd & _ & off & Hoff & Heq & Hs & _). split; [|done].
  assert (off = 0) as ->; [|done]. apply (f_equal length) in Heq. rewrite length_drop in Heq.
  unfold len in *. destruct c; simpl in *; lia.
Qed.

(** The stream's handle is the only one more than [h]; where it stands does not
    matter. *)
Definition held f h (fd : handle) (n : bytes) (s : S) : Prop :=
  ∃ off, at_state f (<[fd := (n, off)]> h) s.

Lemma streaming_held Q f h fd n c x rest s : streaming Q f h fd n c x rest s → held f h fd n s.
Proof. intros (_ & off & _ & _ & Hs & _). by exists off. Qed.

(** Closing a stream gives its handle back. *)
Lemma close_held f h n x :
  h !! stream_file x = None →
  triple (held f h (stream_file x) n) (stream_Close F x)
    (λ r s, at_state f h s ∧ match r with Panic _ => False | _ => True end).
Proof.
  intros Hfd t s [off Hs]. destruct (Close_law (stream_file x) _ _ t s Hs) as [Hs' Hr].
  by rewrite delete_insert_id in Hs' by done.
Qed.

(** *** Checksums *)

(** What the digest of a stream is fed. *)
Lemma hash_stream f h n c x fuel :
  f !! n = Some c → (length c < fuel)%nat →
  triple (streaming (λ _, True) f h (stream_file x) n c x c)
    (io_Copy fuel (λ _, ret tt) (hashing_Read (stream_Read F)) (x, []))
    (λ r s, match r with
      | Ok (None, y) => held f h (stream_file x) n s ∧ y.2 = c
      | Ok (Some _, _) | Err _ => held f h (stream_file x) n s
      | Panic _ => False
      end).
Proof.
  intros Hn Hf.
  pose proof (stream_serves (λ _, True) f h (stream_file x) n c Hn (λ _, keeps_trivial_any _)) as HS.
  eapply triple_conseq; [apply (io_Copy_drains _ _ fuel (x, []) c (hashing_serves _ _ c HS) Hf)|done|].
  intros [[[e|] y]|e|msg] s; [| | |done].
  - intros (y' & rest & Hs & _). by eapply streaming_held.
  - intros [Hs Hy]. rewrite app_nil_r in Hy. split; [by eapply streaming_held|done].
  - intros (y' & rest & Hs & _). by eapply streaming_held.
Qed.

Lemma hash_value f h n c x fuel algorithm :
  f !! n = Some c → (length c < fuel)%nat →
  triple (streaming (λ _, True) f h (stream_file x) n c x c)
    (match digest algorithm with
     | None => throw (Unsupported (bs "local") CapabilityChecksum OperationChecksum)
     | Some sum =>
         let! copied := io_Copy fuel (λ _, ret tt) (hashing_Read (stream_Read F)) (x, []) in
         match copied.1 with Some err => throw err | None => ret (sum copied.2.2) end
     end)
    (λ r s, held f h (stream_file x) n s ∧ match r with
      | Ok y => ∃ sum, digest algorithm = Some sum ∧ y = sum c
      | Err _ => True
      | Panic _ => False
      end).
Proof.
  intros Hn Hf. destruct (digest algorithm) as [sum|].
  2:{ apply triple_throw. intros s Hs. split; [by eapply streaming_held|done]. }
  apply (triple_bind _ (λ y s, held f h (stream_file x) n s ∧ (y.1 = None → y.2.2 = c))).
  { eapply triple_conseq; [by apply (hash_stream f h n c x fuel)|done|].
    intros [[[e|] y]|e|msg] s; simpl; [done| |done..]. by intros []. }
  intros [[e|] y]; apply triple_pure; intros Hy; [by apply triple_throw|].
  apply triple_ret. intros s Hs. split; [done|]. exists sum. simpl in *. by rewrite Hy.
Qed.

Lemma ChecksumOf_law f h ctx p algorithm c fuel :
  f !! value p = Some c → (length c < fuel)%nat →
  triple (at_state f h) (ChecksumOf a fuel ctx p algorithm)
    (λ r s, at_state f h s ∧ match r with
      | Ok checksum => ∃ sum, digest algorithm = Some sum ∧ checksum = mkChecksum algorithm (sum c)
      | Err _ => True
      | Panic _ => False
      end).
Proof.
  intros Hc Hf. unfold ChecksumOf.
  apply (triple_bind _ (λ x s, streaming (λ _, True) f h (stream_file x) (value p) c x c s ∧
    h !! stream_file x = None)).
  { eapply triple_conseq; [by apply (local_Open_law f h ctx p c)|done|]. by intros [] s; simpl; [intros []|..]. }
  intros x. apply triple_pure. intros Hfd.
  apply (triple_bind _ (λ v s, held f h (stream_file x) (value p) s ∧
    match v with inl y => ∃ sum, digest algorithm = Some sum ∧ y = sum c | inr _ => True end)).
  { eapply triple_attempt; [apply (hash_value f h (value p) c x fuel algorithm Hc Hf)|].
    intros s. simpl. naive_solver. }
  intros v. apply triple_pure. intros Hv.
  eapply triple_after_ignored; [by apply close_held|].
  destruct v as [y|e]; [|by apply triple_throw]. apply triple_ret. intros s Hs. split; [done|].
  destruct Hv as (sum & Hsum & ->). by exists sum.
Qed.

(** *** Ranges *)

(** A client that reads the range to its end and closes the stream. *)
Definition read_range (fuel : nat) (ctx : context) (p : Path) (byteRange : ByteRange) : M S bytes :=
  let! stream := OpenRange a ctx p byteRange in
  let! copied := attempt (io_Copy fuel (λ _, ret tt) (hashing_Read (limited_Read F)) (stream, [])) in
  do! ignored (limited_Close F stream) in
  match copied with
  | inl (None, y) => ret y.2
  | inl (Some err, _) | inr err => throw err
  end.

(** Giving up after the file was opened. *)
Lemma close_and_fail {A : Type} f h n x e :
  h !! stream_file x = None →
  triple (held f h (stream_file x) n) (do! ignored (stream_Close F x) in throw (A:=A) e)
    (λ r s, match r with Ok _ => False | Err _ => at_state f h s | Panic _ => False end).
Proof. intros Hfd. eapply triple_after_ignored; [by apply close_held|by apply triple_throw]. Qed.

Lemma OpenRange_law f h ctx p byteRange c :
  f !! value p = Some c →
  triple (at_state f h) (OpenRange a ctx p byteRange)
    (λ r s, match r with
      | Ok (x, remaining) => remaining = Length byteRange ∧ 0 < remaining ∧ 0 ≤ Offset byteRange < len c ∧
          h !! stream_file x = None ∧
          streaming (λ _, True) f h (stream_file x) (value p) c x (drop (Z.to_nat (Offset byteRange)) c) s
      | Err _ => at_state f h s
      | Panic _ => False
      end).
Proof.
  intros Hc. unfold OpenRange.
  destruct ((Offset byteRange <? 0) || (Length byteRange <=? 0)) eqn:Hbad; [by apply triple_throw|].
  apply (triple_bind _ (λ x s, at_state f (<[stream_file x := (value p, 0)]> h) s ∧ h !! stream_file x = None)).
  { eapply triple_conseq; [by apply (local_Open_law_start f h ctx p c)|done|]. by intros []. }
  intros x. apply triple_pure. intros Hfd. set (h1 := <[stream_file x := (value p, 0)]> h).
  assert (Hheld : ∀ s, at_state f h1 s → held f h (stream_file x) (value p) s) by (intros s Hs; by exists 0).
  apply (triple_bind _ (λ v s, at_state f h1 s ∧
    match v with inl info => iSize info = len c | inr _ => True end)).
  { eapply triple_attempt; [apply (FStat_law (stream_file x) (value p) 0 c f h1); [apply lookup_insert_eq|done]|].
    intros s. simpl. naive_solver. }
  intros [info|e]; apply triple_pure; intros Hsize.
  2:{ eapply triple_conseq; [by apply (close_and_fail f h (value p))|done|]. by intros []. }
  destruct (Offset byteRange >=? iSize info) eqn:Hpast.
  { eapply triple_conseq; [by apply (close_and_fail f h (value p))|done|]. by intros []. }
  apply (triple_bind _ (λ v s, match v with
    | inl _ => at_state f (<[stream_file x := (value p, Offset byteRange)]> h) s
    | inr _ => at_state f h1 s end)).
  { eapply triple_attempt; [apply (Seek_law _ (Offset byteRange) (value p) 0 f h1); apply lookup_insert_eq|].
    intros s. unfold h1. rewrite insert_insert_eq. by split_and!. }
  intros [u|e]; [|eapply triple_conseq; [by apply (close_and_fail f h (value p))|done|]; by intros []].
  apply triple_ret. intros s Hs. split_and!; [done|lia|lia|lia|done|]. split; [done|].
  exists (Offset byteRange). split_and!; [lia|lia|done|done|done].
Qed.

Lemma read_range_law f h ctx p byteRange c fuel :
  f !! value p = Some c → Length byteRange ≤ MaxInt64 → (length c < fuel)%nat →
  triple (at_state f h) (read_range fuel ctx p byteRange)
    (λ r s, at_state f h s ∧ match r with
      | Ok b => 0 ≤ Offset byteRange < len c ∧ 0 < Length byteRange ∧
          b = take (Z.to_nat (Length byteRange)) (drop (Z.to_nat (Offset byteRange)) c)
      | Err _ => True
      | Panic _ => False
      end).
Proof.
  intros Hc Hmax Hf. unfold read_range.
  set (rest := drop (Z.to_nat (Offset byteRange)) c).
  apply (triple_bind _ (λ y s, streaming (λ _, True) f h (stream_file y.1) (value p) c y.1 rest s ∧
    (y.2 = Length byteRange ∧ 0 < y.2 ∧ 0 ≤ Offset byteRange < len c ∧ h !! stream_file y.1 = None))).
  { eapply triple_conseq; [by apply (OpenRange_law f h ctx p byteRange c)|done|].
    intros [[x remaining]|e|msg] s; simpl; naive_solver. }
  intros [x remaining]. apply triple_pure. cbn [fst snd]. intros (-> & Hpos & Hoff & Hfd).
  set (want := take (Z.to_nat (Length byteRange)) rest).
  pose proof (stream_serves (λ _, True) f h (stream_file x) (value p) c Hc (λ _, keeps_trivial_any _)) as HS.
  apply (triple_bind _ (λ v s, held f h (stream_file x) (value p) s ∧
    match v with inl (None, y) => y.2 = want | _ => True end)).
  { eapply triple_attempt.
    - eapply triple_conseq; [apply (io_Copy_drains _ _ fuel (x, Length byteRange, []) want
        (hashing_serves _ _ want (limited_serves _ HS)))| |].
      + unfold want, rest. rewrite length_take, length_drop. lia.
      + intros s Hs. split; [|done]. exists rest. simpl. split_and!; [done|lia|lia|done].
      + intros r s Hr. exact Hr.
    - intros s. split_and!; simpl.
      + intros [[e|] y].
        * intros (y' & rest' & (all & Hs & _) & _). split; [by eapply streaming_held|done].
        * intros [(all & Hs & _) Hy]. rewrite app_nil_r in Hy. split; [by eapply streaming_held|done].
      + intros e (y' & rest' & (all & Hs & _) & _). split; [by eapply streaming_held|done].
      + done. }
  intros v. apply triple_pure. intros Hv. unfold limited_Close. cbn [fst].
  eapply triple_after_ignored; [by apply close_held|].
  destruct v as [[[e|] y]|e]; [by apply triple_throw| |by apply triple_throw].
  apply triple_ret. intros s Hs. split_and!; [done|lia|lia|lia|done].
Qed.

(** *** Copies *)

Section copy.
Context (f : gmap bytes bytes) (h : gmap handle (bytes * Z)) (n c : bytes) (sfd : handle).
Hypothesis source_content : f !! n = Some c.
Hypothesis source_free : h !! sfd = None.

(** Wherever the source's stream stands. *)
Definition beside_source (h' : gmap handle (bytes * Z)) : Prop := ∃ off, h' = <[sfd := (n, off)]> h.

Section temporary.
Context (tmp : bytes) (fd : handle).
Hypothesis fd_other : sfd ≠ fd.
Hypothesis fd_free : h !! fd = None.
Hypothesis tmp_free : f !! tmp = None.

(** The source is being read while [w] is in the temporary file. *)
Definition copying (w : bytes) : contextReadCloser → bytes → S → Prop :=
  streaming (sole tmp) (<[tmp := w]> f) (<[fd := (tmp, len w)]> h) sfd n c.

Lemma copying_filled w x rest s :
  copying w x rest s ↔ stream_file x = sfd ∧ ∃ off, 0 ≤ off ≤ len c ∧ rest = drop (Z.to_nat off) c ∧
    filled files handles sole f (<[sfd := (n, off)]> h) tmp fd w s.
Proof.
  unfold copying, streaming, filled. by setoid_rewrite (insert_insert_ne h sfd fd _ _ fd_other).
Qed.

Lemma beside_elsewhere off : elsewhere beside_source fd (<[sfd := (n, off)]> h).
Proof. split; [by exists off|]. by rewrite lookup_insert_ne. Qed.

Lemma copying_reads ctx w : serves_read (context_Read ctx (stream_Read F)) (copying w).
Proof.
  apply serves_context, stream_serves; [rewrite lookup_insert_ne; [done|congruence]|].
  intros count. apply keeps_weaken, Read_sole.
Qed.

(** Failing with the temporary file open. *)
Definition copy_fails (s : S) : Prop :=
  ∃ h', elsewhere beside_source fd h' ∧ opened files handles f h' tmp fd s.

Lemma copying_writes w x rest chunk :
  triple (copying w x rest)
    (match chunk with [] => ret (inl tt) | _ => attempt (fWrite F fd chunk) end)
    (λ r s, match r with
      | Ok (inl _) => copying (w ++ chunk) x rest s
      | Ok (inr _) => copy_fails s
      | _ => False
      end).
Proof.
  intros t s (Hx & off & Hoff & Hrest & Hs)%copying_filled.
  pose proof (write_chunk _ _ _ _ _ _ local_file_laws f (<[sfd := (n, off)]> h) tmp fd w chunk t s Hs) as Hw.
  destruct (run_result _ t s) as [[u|e]|e|msg]; [|by exists (<[sfd := (n, off)]> h); split;
    [apply beside_elsewhere|]|done..].
  apply copying_filled. split; [done|]. by exists off.
Qed.

Lemma copying_gives_up w x rest s : copying w x rest s → copy_fails s.
Proof.
  intros (_ & off & _ & _ & Hs)%copying_filled. exists (<[sfd := (n, off)]> h).
  split; [apply beside_elsewhere|by eapply filled_opened].
Qed.
End temporary.

Lemma stream_copies_whole ctx fuel x :
  stream_file x = sfd → (length c < fuel)%nat →
  copies_whole (F:=F) (R:=R) (rnd:=rnd) (stream_Read F) x ctx fuel f (eq c) beside_source
    (<[sfd := (n, 0)]> h).
Proof.
  intros Hx Hf tmp fd [_ Hfd] Hn. apply lookup_insert_None in Hfd as [Hfd Hne].
  eapply triple_conseq; [apply (io_Copy_serves _ _ (copying tmp fd) (copy_fails tmp fd)
    (copying_reads tmp fd Hn ctx) (copying_writes tmp fd Hne Hfd) (copying_gives_up tmp fd Hne Hfd)
    fuel [] x c Hf)| |].
  - intros s Hs. apply copying_filled; [done|]. split; [done|]. exists 0. pose proof (len_nonneg c). by split_and!.
  - intros [[[e|] x']|e|msg] s; [done| |done..].
    intros (_ & off & _ & _ & Hs)%copying_filled; [|done]. exists (<[sfd := (n, off)]> h), c.
    split_and!; [by apply beside_elsewhere|done|exact Hs].
Qed.
End copy.

Lemma Copy_law f h ctx source destination options c fuel :
  f !! value source = Some c → (length c < fuel)%nat →
  triple (at_state f h) (Copy a fuel ctx source destination options)
    (λ r s, handles s = h ∧ written (negb (cOverwrite options)) (value destination) (eq c) f r (files s)).
Proof.
  intros Hc Hf. unfold Copy.
  assert (Huntouched : ∀ s, at_state f h s → (∀ e, handles s = h ∧
    written (A:=unit) (negb (cOverwrite options)) (value destination) (eq c) f (Err e) (files s))).
  { intros s [-> ->] e. split; [done|]. by left; left. }
  apply (triple_keeps_bind False); [solve [keeps_split]|intros s Hs; split; [by apply Huntouched|done]|intros _].
  apply (triple_bind _ (λ x s, at_state f (<[stream_file x := (value source, 0)]> h) s ∧ h !! stream_file x = None)).
  { eapply triple_conseq; [by apply (local_Open_law_start f h ctx source c)|done|].
    intros [x|e|msg] s; simpl; [done|intros Hs; by apply (Huntouched s Hs e)|done]. }
  intros x. apply triple_pure. intros Hfd.
  set (h1 := <[stream_file x := (value source, 0)]> h).
  apply (triple_bind _ (λ v s, beside_source h (value source) (stream_file x) (handles s) ∧
    written (negb (cOverwrite options)) (value destination) (eq c) f
      (match v with inl m => Ok m | inr e => Err e end) (files s))).
  { eapply triple_attempt.
    - apply (Write_whole mode dirMode policy (stream_Read F) x ctx fuel f (eq c)
        (beside_source h (value source) (stream_file x)) h1); [by apply stream_copies_whole|by exists 0].
    - intros s. simpl. naive_solver. }
  intros v. eapply (triple_after_ignored _ (λ s, handles s = h ∧
    written (negb (cOverwrite options)) (value destination) (eq c) f
      (match v with inl m => Ok m | inr e => Err e end) (files s))).
  - intros t s [[off Hh] Hw].
    destruct (Close_law (stream_file x) (files s) (handles s) t s ltac:(done)) as [[Hf' Hh'] Hr].
    unfold stream_Close. simpl. rewrite Hf', Hh', Hh, delete_insert_id by done. done.
  - destruct v; [by apply triple_ret|by apply triple_throw].
Qed.
End read.

(** C20: Copies are exact, for every system that meets [OsRoot]: copying a regular file
    ends, with enough reads for its length, and leaves no handle open; success means
    that the destination holds exactly the source's content and nothing else changed;
    whatever fails or is cancelled, the files are as they were, up to one temporary
    file in the destination's directory, or the copy was complete.  Without [Overwrite]
    the destination was absent and an existing one is kept. *)
Theorem local_Copy_exact {S} (F : localFile S) R rnd `{!OsRoot F R rnd} mode dirMode policy
    ctx source destination options fuel t s c :
  files s !! value source = Some c → (length c < fuel)%nat →
  let a := mkAdapter F R rnd mode dirMode policy in
  let '(r, (_, s')) := Copy a fuel ctx source destination options t s in
  let f := files s in
  let f' := files s' in
  handles s' = handles s ∧
  match r with
  | Ok _ => f' = <[value destination := c]> f ∧ (cOverwrite options = false → f !! value destination = None)
  | Err _ => written (A:=unit) (negb (cOverwrite options)) (value destination) (eq c) f r f'
  | Panic _ => False
  end.
Proof.
  intros Hc Hf a.
  pose proof (Copy_law mode dirMode policy (files s) (handles s) ctx source destination options c fuel
    Hc Hf t s ltac:(done)) as H.
  unfold run_result, run_state in H. fold a in H.
  destruct (Copy a _ _ _ _ _ t s) as [[u|e|msg] [t' s']]; simpl in H; [|done|by destruct H].
  destruct H as (Hh & (content & <- & Hp) & Hco). split_and!; [done|done|].
  intros Ho. apply Hco. by rewrite Ho.
Qed.

(** C21: Range reads are exact, for every system that meets [OsRoot]: reading a range of a
    regular file to its end delivers exactly the requested bytes, cut at the end of the
    file, or fails; a range that starts at or after the end, before the file, or has no
    length always fails; the stream's handle is given back and no file changes. *)
Theorem local_range_exact {S} (F : localFile S) R rnd `{!OsRoot F R rnd} mode dirMode policy
    ctx p byteRange fuel t s c :
  files s !! value p = Some c → is_int64 (Length byteRange) → (length c < fuel)%nat →
  let '(r, (_, s')) := read_range (F:=F) (R:=R) (rnd:=rnd) mode dirMode policy fuel ctx p byteRange t s in
  files s' = files s ∧ handles s' = handles s ∧
  match r with
  | Ok b => 0 ≤ Offset byteRange < len c ∧ 0 < Length byteRange ∧
      b = take (Z.to_nat (Length byteRange)) (drop (Z.to_nat (Offset byteRange)) c)
  | Err _ => True
  | Panic _ => False
  end.
Proof.
  intros Hc [_ Hmax] Hf.
  pose proof (read_range_law mode dirMode policy (files s) (handles s) ctx p byteRange c fuel
    Hc Hmax Hf t s ltac:(done)) as [[Hf' Hh'] Hr].
  unfold run_result, run_state in *.
  by destruct (read_range mode dirMode policy fuel ctx p byteRange t s) as [r [t' s']].
Qed.

(** Checksums are exact, for every system that meets [OsRoot]: the checksum of a regular
    file is the digest of its content by the requested algorithm, or an error; the
    handle is given back and no file changes. *)
Theorem local_Checksum_exact {S} (F : localFile S) R rnd `{!OsRoot F R rnd} mode dirMode policy
    ctx p algorithm fuel t s c :
  files s !! value p = Some c → (length c < fuel)%nat →
  let a := mkAdapter F R rnd mode dirMode policy in
  let '(r, (_, s')) := ChecksumOf a fuel ctx p algorithm t s in
  files s' = files s ∧ handles s' = handles s ∧
  match r with
  | Ok checksum => ∃ sum, digest algorithm = Some sum ∧ checksum = mkChecksum algorithm (sum c)
  | Err _ => True
  | Panic _ => False
  end.
Proof.
  intros Hc Hf a.
  pose proof (ChecksumOf_law mode dirMode policy (files s) (handles s) ctx p algorithm c fuel
    Hc Hf t s ltac:(done)) as [[Hf' Hh'] Hr].
  unfold run_result, run_state in *. fold a in Hf', Hh', Hr.
  by destruct (ChecksumOf a fuel ctx p algorithm t s) as [r [t' s']].
Qed.
