(* ===== verification/LocalList.v ===== *)
(** * Listing a directory tree with the local adapter

    The directories and files below the root as a tree; a system serves it when its
    directory reads and its status calls answer from it.  [List] over such a system
    returns every entry below its directory, up to the limit, in order. *)

From S2P Require Import Prelude GoStrings Errors Effects Hoare Paths Capability Contracts Iterator Digest FileInfo Remote RemoteNames Publish Local LocalOS LocalWrite.

(** ** Trees *)

(** A file or a directory, with its name and what [Stat] says of it; a file has no
    children. *)
Inductive tree := Tree (info : FileInfo) (children : list tree).
Definition tinfo (t : tree) : FileInfo := let '(Tree i _) := t in i.
Definition tchildren (t : tree) : list tree := let '(Tree _ c) := t in c.
Definition tname (t : tree) : bytes := iName (tinfo t).
Definition is_dir (t : tree) : bool := FileInfo_IsDir (tinfo t).

Fixpoint height (t : tree) : nat :=
  let '(Tree _ children) := t in S (max_list (height <$> children)).

(** The node that a sequence of names leads to. *)
Fixpoint find (t : tree) (segs : list bytes) : option tree :=
  match segs with
  | [] => Some t
  | seg :: rest =>
      if is_dir t then
        c ← head (filter (λ c, tname c = seg) (tchildren t)); find c rest
      else None
  end.

(** Names are distinct in a directory and are segments of logical paths; no node is a
    symbolic link. *)
Fixpoint wf_tree (segs : list bytes) (t : tree) : Prop :=
  match t with
  | Tree info children =>
      NoDup (tname <$> children) ∧
      foldr (λ c rest,
        (segments_ok (segs ++ [tname c]) ∧ Z.land (iMode (tinfo c)) ModeSymlink = 0 ∧
         wf_tree (segs ++ [tname c]) c) ∧ rest) True children
  end.

(** The entry of a node. *)
Definition tree_entry (segs : list bytes) (t : tree) : Entry :=
  mkEntry (ofSegments segs) (if is_dir t then EntryKindDirectory else EntryKindFile)
    (iSize (tinfo t)) (iModTime (tinfo t)).

(** What a listing of the directory [t] at [segs] is about. *)
Fixpoint listed (recursive : bool) (segs : list bytes) (t : tree) : list Entry :=
  match t with
  | Tree _ children =>
      flat_map (λ c,
        tree_entry (segs ++ [tname c]) c ::
        (if recursive && is_dir c then listed recursive (segs ++ [tname c]) c else [])) children
  end.

(** The name under which [WalkDir] and the adapter know a node. *)
Definition walk_name (segs : list bytes) : bytes :=
  match segs with [] => dot | _ => Join segs slash end.

(** ** A system that serves a tree *)

Record serves {S} (R : rootFS S) (top : tree) (I : S → Prop) : Prop := {
  serves_Stat segs t : find top segs = Some t →
    triple I (fsStat R (walk_name segs)) (λ r s, I s ∧ r = Ok (tinfo t));
  serves_ReadDir segs t : find top segs = Some t → is_dir t = true →
    triple I (fsReadDir R (walk_name segs))
      (λ r s, I s ∧ r = Ok ((FileInfoToDirEntry ∘ tinfo) <$> tchildren t));
  serves_Info segs t d : find top segs = Some t →
    triple I (fsInfo R (walk_name segs) d) (λ r s, I s ∧ r = Ok (tinfo t));
  serves_Lstat segs t : find top segs = Some t →
    triple I (rLstat R (walk_name segs)) (λ r s, I s ∧ r = Ok (tinfo t));
}.

(** ** Lemmas: trees *)

Lemma tree_eta t : Tree (tinfo t) (tchildren t) = t.
Proof. by destruct t. Qed.

Lemma wf_children segs t :
  wf_tree segs t →
  NoDup (tname <$> tchildren t) ∧
  ∀ c, c ∈ tchildren t → segments_ok (segs ++ [tname c]) ∧
    Z.land (iMode (tinfo c)) ModeSymlink = 0 ∧ wf_tree (segs ++ [tname c]) c.
Proof.
  destruct t as [info children]. simpl. intros [Hn Hc]. split; [done|]. clear Hn.
  induction children as [|c children IH]; [by intros c ?%elem_of_nil|].
  simpl in Hc. destruct Hc as [Hc Hrest]. intros c' [->|Hin]%elem_of_cons; auto.
Qed.

Lemma find_snoc t segs d c :
  find t segs = Some d → is_dir d = true → NoDup (tname <$> tchildren d) → c ∈ tchildren d →
  find t (segs ++ [tname c]) = Some c.
Proof.
  revert t. induction segs as [|seg segs IH]; intros t Hf Hd Hn Hc; simpl in *.
  - simplify_eq. rewrite Hd.
    assert (filter (λ c', tname c' = tname c) (tchildren d) = [c]) as ->; [|done].
    revert Hn Hc. generalize (tchildren d). intros l. induction l as [|x l IHl]; [set_solver|].
    simpl. intros [Hx Hn]%NoDup_cons [->|Hc]%elem_of_cons.
    + rewrite filter_cons_True by done. f_equal. clear IHl Hn.
      induction l as [|y l IHl]; [done|]. simpl in Hx. apply not_elem_of_cons in Hx as [Hy Hx].
      rewrite filter_cons_False by congruence. by apply IHl.
    + rewrite filter_cons_False; [by apply IHl|]. intros Heq. apply Hx. rewrite Heq.
      apply list_elem_of_fmap. eauto.
  - destruct (is_dir t); [|done]. destruct (head _) as [x|]; simpl in *; [|done]. by apply IH.
Qed.

Lemma find_wf t segs d pre : wf_tree pre t → find t segs = Some d → wf_tree (pre ++ segs) d.
Proof.
  revert t pre. induction segs as [|seg segs IH]; intros t pre Hw Hf; simpl in *.
  - simplify_eq. by rewrite app_nil_r.
  - destruct (is_dir t); [|done]. destruct (head _) as [x|] eqn:Hx; simpl in *; [|done].
    apply head_Some_elem_of, list_elem_of_filter in Hx as [<- Hx].
    apply wf_children in Hw as [_ Hw]. destruct (Hw x Hx) as (_ & _ & Hx').
    rewrite (cons_middle (tname x)), app_assoc. by eapply IH.
Qed.

Lemma find_below t segs d pre :
  wf_tree pre t → find t segs = Some d → segs ≠ [] →
  segments_ok (pre ++ segs) ∧ Z.land (iMode (tinfo d)) ModeSymlink = 0.
Proof.
  revert t pre. induction segs as [|seg segs IH]; intros t pre Hw Hf Hne; [done|]. simpl in *.
  destruct (is_dir t); [|done]. destruct (head _) as [x|] eqn:Hx; simpl in *; [|done].
  apply head_Some_elem_of, list_elem_of_filter in Hx as [<- Hx].
  apply wf_children in Hw as [_ Hw]. destruct (Hw x Hx) as (Hok & Hs & Hx').
  destruct segs as [|seg segs]; [by simplify_eq/=|].
  rewrite (cons_middle (tname x)), app_assoc. by eapply IH.
Qed.

Lemma find_prefix t segs rest d : find t (segs ++ rest) = Some d → is_Some (find t segs).
Proof.
  revert t. induction segs as [|seg segs IH]; intros t Hf; simpl in *; [done|].
  destruct (is_dir t); [|done]. destruct (head _) as [x|]; simpl in *; [|done]. by eapply IH.
Qed.

Lemma height_child t c : c ∈ tchildren t → (height c < height t)%nat.
Proof.
  destruct t as [info children]. simpl. intros Hc.
  assert (height c ≤ max_list (height <$> children))%nat; [|lia].
  apply max_list_elem_of_le, list_elem_of_fmap. eauto.
Qed.

(** ** Lemmas: names *)

Lemma walk_name_Join segs : segs ≠ [] → walk_name segs = Join segs slash.
Proof. by destruct segs. Qed.

Lemma walk_name_child segs seg :
  Forall plain_segment (segs ++ [seg]) →
  path_Join [walk_name segs; seg] = walk_name (segs ++ [seg]).
Proof.
  intros Hp. destruct segs as [|x segs].
  - simpl in *. rewrite Forall_singleton in Hp. pose proof Hp as (Hne & Hd & Hdd & Hsl). unfold path_Join.
    rewrite filter_all by (repeat constructor; done). cbn [Join].
    unfold Clean. assert (HasPrefix (dot ++ slash :: seg) [slash] = false) as -> by done.
    rewrite Split_app_sep. change (Split dot slash) with [dot].
    rewrite Split_no_sep by done. cbn [foldl app].
    change (clean_step false [] dot) with (@nil bytes). by rewrite clean_step_plain.
  - rewrite !walk_name_Join by done. apply Forall_app in Hp as [Hp Hseg].
    assert (Hj : path_Join [Join (x :: segs) slash; seg] = Clean (Join ((x :: segs) ++ [seg]) slash)).
    { unfold path_Join. rewrite filter_all.
      - rewrite Join_app by done. done.
      - destruct (Join_plain_head (x :: segs)) as (c & r & -> & _); [done..|].
        apply Forall_singleton in Hseg as (? & _). by repeat constructor. }
    rewrite Hj. apply Clean_plain; [done|]. by apply Forall_app.
Qed.

Lemma walk_name_inj segs segs' :
  Forall plain_segment segs → Forall plain_segment segs' →
  walk_name segs = walk_name segs' → segs = segs'.
Proof.
  assert (Hdot : ∀ l, l ≠ [] → Forall plain_segment l → Join l slash ≠ dot).
  { intros l Hne Hl Heq. pose proof (Split_Join l slash Hne (plain_no_slash _ Hl)) as Hs.
    rewrite Heq in Hs. change (Split dot slash) with [dot] in Hs. subst l.
    apply Forall_singleton in Hl as (_ & ? & _). done. }
  intros H H' Heq.
  destruct (decide (segs = [])) as [->|Hne]; destruct (decide (segs' = [])) as [->|Hne'];
    rewrite ?(walk_name_Join segs), ?(walk_name_Join segs') in Heq by done;
    [done|by destruct (Hdot segs' Hne' H' (eq_sym Heq))|by destruct (Hdot segs Hne H Heq)|].
  rewrite <- (Split_Join segs slash), <- (Split_Join segs' slash) by eauto using plain_no_slash.
  by rewrite Heq.
Qed.

Lemma walk_name_below start rel :
  rel ≠ [] → Forall plain_segment (start ++ rel) → walk_name (start ++ rel) ≠ walk_name start.
Proof.
  intros Hne Hp Heq. apply walk_name_inj in Heq; [|done|by apply Forall_app in Hp as [? _]].
  apply (f_equal length) in Heq. rewrite length_app in Heq. destruct rel; [done|]. simpl in Heq. lia.
Qed.

(** Whether a name lies deeper than one level. *)
Lemma relative_nested start rel :
  rel ≠ [] → Forall plain_segment (start ++ rel) →
  ContainsByte (TrimPrefix (TrimPrefix (walk_name (start ++ rel)) (walk_name start)) [slash]) slash
  = negb (length rel =? 1)%nat.
Proof.
  intros Hne Hp. apply Forall_app in Hp as [Hs Hr].
  assert (Hc : ContainsByte (Join rel slash) slash = negb (length rel =? 1)%nat).
  { unfold ContainsByte. destruct rel as [|x [|y rel]]; [done| |].
    - apply Forall_singleton in Hr as (_ & _ & _ & Hx). simpl. by rewrite bool_decide_eq_false_2.
    - rewrite bool_decide_eq_true_2; [done|]. rewrite Join_cons by done. set_solver. }
  destruct (decide (start = [])) as [->|Hstart].
  - simpl app. rewrite walk_name_Join by done. change (walk_name []) with dot.
    destruct (Join_plain_head rel Hne Hr) as (c & r & Hj & Hc').
    assert (Hid : ∀ b d, d ≠ slash → TrimPrefix (d :: b) [slash] = d :: b).
    { intros b d Hd. unfold TrimPrefix. simpl. by rewrite decide_False. }
    unfold TrimPrefix at 2. unfold dot at 1. rewrite Hj. cbn [bs CutPrefix String.list_ascii_of_string].
    case_decide as Hdot; cbn; [|rewrite Hid, <- Hj by done; exact Hc]. subst c.
    destruct r as [|d r].
    + destruct (walk_name_inj rel [] Hr); [constructor|by rewrite walk_name_Join|done].
    + rewrite Hid; [|intros ->; destruct rel as [|x rel]; [done|]].
      * rewrite <- Hc, Hj. unfold ContainsByte. apply bool_decide_ext. rewrite (elem_of_cons (d :: r)).
        naive_solver.
      * apply Forall_cons in Hr as [(Hx0 & Hx & _ & Hsl) _].
        destruct x as [|x0 [|x1 x]]; [done|..]; destruct rel; simpl in Hj; simplify_eq; set_solver.
  - rewrite !walk_name_Join by (by destruct start). rewrite Join_app by done.
    rewrite TrimPrefix_app. change (slash :: Join rel slash) with ([slash] ++ Join rel slash).
    by rewrite TrimPrefix_app.
Qed.

(** ** Lemmas: modes *)

Lemma entry_IsDir_info info : entry_IsDir (FileInfoToDirEntry info) = FileInfo_IsDir info.
Proof.
  unfold entry_IsDir, FileInfoToDirEntry, FileInfo_IsDir, FileInfo_Type. cbn [dType].
  by rewrite <- Z.land_assoc.
Qed.

Lemma symlink_info info :
  Z.land (iMode info) ModeSymlink = 0 →
  Z.land (dType (FileInfoToDirEntry info)) ModeSymlink = 0 ∧ (FileInfo_Type info =? ModeSymlink) = false.
Proof.
  intros H. assert (Hl : Z.land (FileInfo_Type info) ModeSymlink = 0).
  { unfold FileInfo_Type. rewrite <- Z.land_assoc. exact H. }
  split; [exact Hl|]. apply Z.eqb_neq. intros Heq. by rewrite Heq in Hl.
Qed.

(** ** The walk *)

(** An error the context gave. *)
Definition cancelled (ctx : context) (e : error) : Prop := ∃ k, ctx_Err ctx k = Some e.

Lemma cancelled_foreign ctx e target :
  cancelled ctx e → target = FsSkipDir ∨ target = FsSkipAll ∨ target = LocalListStop ∨ target = FsErrNotExist →
  identical e target = false ∧ Is e target = false.
Proof.
  intros [k [ce ->]%ctx_Err_value]. destruct ce; intros [->|[->|[->| ->]]]; done.
Qed.

Section walk.
Context {S : Type} (F : localFile S) (R : rootFS S) (rnd : M S bytes) (mode dirMode policy : Z).
Local Abbreviation a := (mkAdapter F R rnd mode dirMode policy).
Context (top : tree) (I : S → Prop) (Hserves : serves R top I) (Hwf : wf_tree [] top).
Context (ctx : context) (start : list bytes) (options : ListOptions).
Hypothesis start_ok : Forall plain_segment start.
Local Abbreviation recursive := (Recursive options).
Local Abbreviation limit := (Limit options).
Local Abbreviation visit := (list_visit a ctx (walk_name start) options).
Local Abbreviation walk := (walkDir (fsReadDir R) visit).

(** There is room for another entry. *)
Definition room (acc : list Entry) : Prop := 0 < limit → len acc < limit.

(** A part of the walk over [items], from [acc]: it ended with all of them collected
    and room left; or the limit was reached; or the context was done. *)
Definition progress (acc items : list Entry) (x : option error * list Entry) : Prop :=
  match x.1 with
  | None => room x.2 ∧ ∃ es, es ≡ₚ items ∧ x.2 = acc ++ es
  | Some e =>
      (e = Sentinel LocalListStop ∧ 0 < limit ∧ len x.2 = limit ∧
        ∃ es, es ⊆+ items ∧ x.2 = acc ++ es) ∨
      cancelled ctx e
  end.

Lemma progress_perm acc items items' x :
  progress acc items x → items ≡ₚ items' → progress acc items' x.
Proof.
  intros Hp Hi. unfold progress in *. destruct x.1 as [e|].
  - destruct Hp as [(? & ? & ? & es & Hes & ?)|?]; [left|by right].
    split_and!; [done..|]. exists es. by rewrite <- Hi.
  - destruct Hp as (? & es & Hes & ?). split; [done|]. exists es. split; [by rewrite Hes|done].
Qed.

(** Going on after a part that collected [es]. *)
Lemma progress_app acc es items x :
  progress (acc ++ es) items x → progress acc (es ++ items) x.
Proof.
  unfold progress. destruct x.1 as [e|].
  - intros [(? & ? & ? & es' & Hes & Hx)|?]; [left|by right]. split_and!; [done..|].
    exists (es ++ es'). split; [by apply submseteq_skips_l|by rewrite app_assoc].
  - intros (? & es' & Hes & Hx). split; [done|]. exists (es ++ es').
    split; [by rewrite Hes|by rewrite app_assoc].
Qed.

Lemma progress_weaken acc items items' x :
  x.1 ≠ None → progress acc items x → progress acc (items ++ items') x.
Proof.
  unfold progress. destruct x.1 as [e|]; [|done]. intros _ [(? & ? & ? & es & Hes & ?)|?]; [left|by right].
  split_and!; [done..|]. exists es. split; [|done]. by apply submseteq_inserts_r.
Qed.

(** What the walk collects of a node: [depth] is its distance from [start]. *)
Definition collected (depth : nat) (segs : list bytes) (t : tree) : list Entry :=
  if recursive || (depth =? 1)%nat then
    tree_entry segs t :: (if recursive && is_dir t then listed recursive segs t else [])
  else [].

Lemma collected_children depth segs t :
  (depth = 0%nat ∨ recursive = true) →
  flat_map (λ c, collected (Datatypes.S depth) (segs ++ [tname c]) c) (tchildren t) = listed recursive segs t.
Proof.
  intros Hd. destruct t as [info children]. simpl. apply flat_map_ext. intros c. unfold collected.
  by destruct Hd as [-> | ->]; rewrite ?orb_true_r.
Qed.

Lemma collected_deep depth segs t :
  depth ≠ 0%nat → recursive = false →
  flat_map (λ c, collected (Datatypes.S depth) (segs ++ [tname c]) c) (tchildren t) = [].
Proof.
  intros Hd Hr. induction (tchildren t) as [|c children IH]; [done|]. simpl. rewrite IH.
  unfold collected. rewrite Hr. by destruct depth.
Qed.

(** The postcondition of a part of the walk. *)
Local Abbreviation walked acc items :=
  (λ r s, I s ∧ ∃ x : option error * list Entry, r = Ok x ∧ progress acc items x).
Local Abbreviation ent t := (FileInfoToDirEntry (tinfo t)).

Lemma poll_law :
  triple I (poll ctx) (λ r s, I s ∧ ∃ x, r = Ok x ∧ ∀ e, x = Some e → cancelled ctx e).
Proof. intros t s Hs. split; [done|]. eexists. split; [done|]. intros e He. by exists t. Qed.

(** A node that is not among the entries of a flat listing. *)
Lemma visit_skipped rel t acc :
  rel ≠ [] → Forall plain_segment (start ++ rel) → recursive = false → length rel ≠ 1%nat →
  triple I (visit acc (walk_name (start ++ rel)) (Some (ent t)) None)
    (λ r s, I s ∧ ∃ e, r = Ok (e, acc) ∧
       (e = (if is_dir t then Some (Sentinel FsSkipDir) else None) ∨ ∃ e', e = Some e' ∧ cancelled ctx e')).
Proof.
  intros Hrel Hp Hr Hl. unfold list_visit.
  apply (triple_bind _ (λ x s, I s ∧ ∀ e, x = Some e → cancelled ctx e)).
  { eapply triple_conseq; [apply poll_law|done|]. by intros r s [? (x & -> & ?)]. }
  intros [e|]; apply triple_pure; intros He; [apply triple_ret; intros s Hs; split; [done|]; eauto 10|].
  rewrite decide_False by by apply walk_name_below.
  rewrite relative_nested, Hr by done. rewrite (proj2 (Nat.eqb_neq _ _) Hl). simpl.
  apply triple_ret. intros s Hs. split; [done|]. eexists. split; [done|]. left.
  by rewrite entry_IsDir_info.
Qed.

(** A node that is. *)
Lemma visit_collected rel t acc :
  rel ≠ [] → find top (start ++ rel) = Some t → segments_ok (start ++ rel) →
  Z.land (iMode (tinfo t)) ModeSymlink = 0 → recursive || (length rel =? 1)%nat = true → room acc →
  triple I (visit acc (walk_name (start ++ rel)) (Some (ent t)) None)
    (walked acc [tree_entry (start ++ rel) t]).
Proof.
  intros Hrel Hf Hok Hs Hr Hroom. unfold list_visit.
  assert (Hp : Forall plain_segment (start ++ rel)) by by apply segment_ok_plain, Hok.
  apply (triple_bind _ (λ x s, I s ∧ ∀ e, x = Some e → cancelled ctx e)).
  { eapply triple_conseq; [apply poll_law|done|]. by intros r s [? (x & -> & ?)]. }
  intros [e|]; apply triple_pure; intros He.
  { apply triple_ret. intros s Is. split; [done|]. eexists. split; [done|]. right. by apply He. }
  rewrite decide_False by by apply walk_name_below.
  rewrite relative_nested by done.
  assert (negb recursive && negb (length rel =? 1)%nat = false) as ->
    by (by destruct recursive, (length rel =? 1)%nat).
  destruct (symlink_info _ Hs) as [-> _]. simpl.
  apply (triple_bind _ (λ x s, I s ∧ x = inl (tinfo t))).
  { eapply triple_attempt; [by eapply (serves_Info _ _ _ Hserves)|]. intros s. simpl. naive_solver. }
  intros info. apply triple_pure. intros ->.
  rewrite walk_name_Join, ParsePath_canonical by (done || by destruct start).
  rewrite entry_IsDir_info. fold (is_dir t).
  change (mkEntry _ _ _ _) with (tree_entry (start ++ rel) t).
  destruct (_ && _) eqn:Hlim; apply triple_ret; intros s Is; (split; [done|]); eexists; (split; [done|]);
    unfold progress, room in *; simpl.
  - apply andb_true_iff in Hlim as [H1 H2]. apply Z.gtb_lt in H1. apply Z.geb_le in H2.
    rewrite len_app in *. unfold len in *. simpl in *. left. split_and!; [done|done|lia|]. by eexists.
  - split; [|by eexists]. intros Hpos. apply andb_false_iff in Hlim as [H1|H2]; [|lia].
    rewrite Z.gtb_ltb in H1. lia.
Qed.

(** Errors that end the walk pass through the directories above. *)
Lemma progress_error acc items e es :
  progress acc items (Some e, es) → identical e FsSkipDir = false.
Proof. intros [[-> _]|Hc]; [done|]. by eapply cancelled_foreign; [|left]. Qed.

Lemma walk_siblings fuel rel cs acc :
  Forall plain_segment (start ++ rel) → Forall (λ c, plain_segment (tname c)) cs →
  (∀ c acc, c ∈ cs → room acc →
     triple I (walk fuel (walk_name ((start ++ rel) ++ [tname c])) (ent c) acc)
       (walked acc (collected (Datatypes.S (length rel)) ((start ++ rel) ++ [tname c]) c))) →
  room acc →
  triple I (walk_children (walk fuel) (walk_name (start ++ rel)) ((λ c, ent c) <$> cs) acc)
    (walked acc (flat_map (λ c, collected (Datatypes.S (length rel)) ((start ++ rel) ++ [tname c]) c) cs)).
Proof.
  intros Hp Hcs Hwalk. revert acc. induction cs as [|c cs IH]; intros acc Hroom.
  { apply triple_ret. intros s Is. split; [done|]. eexists. split; [done|]. split; [done|].
    exists []. by rewrite app_nil_r. }
  apply Forall_cons in Hcs as [Hc Hcs]. cbn [fmap list_fmap walk_children flat_map].
  set (items := collected _ _ c). change (dName (ent c)) with (tname c).
  rewrite walk_name_child by (by apply Forall_app; split; [|constructor]).
  apply (triple_bind _ (λ x s, I s ∧ progress acc items x)).
  { eapply triple_conseq; [apply Hwalk; [left|done]|done|]. by intros r s [? (x & -> & ?)]. }
  intros [[e|] es]; apply triple_pure; intros Hx; cbn [fst snd].
  - rewrite (progress_error _ _ _ _ Hx). apply triple_ret. intros s Is. split; [done|]. eexists.
    split; [done|]. by apply progress_weaken.
  - destruct Hx as (Hroom' & es' & Hes & Heq). simpl in Hroom', Heq. subst es.
    eapply triple_conseq; [apply IH; [done| |done]|done|].
    { intros c' acc' Hin. apply Hwalk. by right. }
    intros r s [? (x & -> & Hx)]. split; [done|]. eexists. split; [done|].
    eapply progress_perm; [by apply progress_app|]. by rewrite Hes.
Qed.

(** Reading the directory [d] and walking what it holds. *)
Definition descend (fuel : nat) (name : bytes) (d : DirEntry) (acc : list Entry)
    : M S (option error * list Entry) :=
  let! dirs := attempt (fsReadDir R name) in
  match dirs with
  | inl dirs => walk_children (walk fuel) name (SortFunc dName dirs) acc
  | inr err =>
      let! y := visit acc name (Some d) (Some err) in
      match y.1 with
      | Some _ => ret (skipped d y.1, y.2)
      | None => ret (None, y.2)
      end
  end.

Lemma descend_law fuel rel d acc :
  find top (start ++ rel) = Some d → is_dir d = true → Forall plain_segment (start ++ rel) →
  (∀ c acc, c ∈ tchildren d → room acc →
     triple I (walk fuel (walk_name ((start ++ rel) ++ [tname c])) (ent c) acc)
       (walked acc (collected (Datatypes.S (length rel)) ((start ++ rel) ++ [tname c]) c))) →
  room acc →
  triple I (descend fuel (walk_name (start ++ rel)) (ent d) acc)
    (walked acc (flat_map (λ c, collected (Datatypes.S (length rel)) ((start ++ rel) ++ [tname c]) c)
                   (tchildren d))).
Proof.
  intros Hf Hd Hp Hwalk Hroom. unfold descend.
  apply (triple_bind _ (λ x s, I s ∧ x = inl ((λ c, ent c) <$> tchildren d))).
  { eapply triple_attempt; [by eapply (serves_ReadDir _ _ _ Hserves)|]. intros s. simpl. naive_solver. }
  intros dirs. apply triple_pure. intros ->.
  destruct (Permutation_map_inv (λ c, ent c) (tchildren d) (l1:=SortFunc dName ((λ c, ent c) <$> tchildren d)))
    as (cs & Hcs & Hperm); [apply SortFunc_perm|].
  change (map (λ c, ent c) cs) with ((λ c, ent c) <$> cs) in Hcs. rewrite Hcs.
  pose proof (find_wf _ _ _ _ Hwf Hf) as [_ Hch]%wf_children.
  eapply triple_conseq; [apply walk_siblings; [done|..|done]|done|].
  - apply Forall_forall. intros c Hc. rewrite <- Hperm in Hc. destruct (Hch c Hc) as ([Hok _] & _).
    apply Forall_app in Hok as [_ Hok]. rewrite Forall_singleton in Hok. by destruct Hok.
  - intros c acc' Hc. rewrite <- Hperm in Hc. by apply Hwalk.
  - intros r s [? (x & -> & Hx)]. split; [done|]. eexists. split; [done|].
    eapply progress_perm; [exact Hx|]. by rewrite Hperm.
Qed.

Lemma walk_skipped_node fuel rel t acc :
  rel ≠ [] → Forall plain_segment (start ++ rel) → recursive = false → length rel ≠ 1%nat → room acc →
  triple I (walk (Datatypes.S fuel) (walk_name (start ++ rel)) (ent t) acc) (walked acc []).
Proof.
  intros Hrel Hp Hr Hl Hroom. cbn [walkDir].
  apply (triple_bind _ (λ x s, I s ∧ (x.2 = acc ∧
    (x.1 = (if is_dir t then Some (Sentinel FsSkipDir) else None) ∨ ∃ e', x.1 = Some e' ∧ cancelled ctx e')))).
  { eapply triple_conseq; [by apply visit_skipped|done|]. by intros r s [? (x & -> & ?)]. }
  intros [e es]. apply triple_pure. cbn [fst snd]. rewrite entry_IsDir_info. fold (is_dir t).
  intros [-> [->|(e' & -> & Hc)]].
  - assert (bool_decide (is_Some (if is_dir t then Some (Sentinel FsSkipDir) else None)) ||
            negb (is_dir t) = true) as -> by by destruct (is_dir t).
    apply triple_ret. intros s Is. split; [done|]. eexists. split; [done|].
    assert (skipped (ent t) (if is_dir t then Some (Sentinel FsSkipDir) else None) = None) as ->.
    { unfold skipped. destruct (is_dir t) eqn:Hd; [|done]. rewrite entry_IsDir_info. fold (is_dir t). by rewrite Hd. }
    split; [done|]. exists []. by rewrite app_nil_r.
  - rewrite bool_decide_eq_true_2 by by eexists. apply triple_ret. intros s Is. split; [done|].
    eexists. split; [done|]. unfold skipped.
    destruct (cancelled_foreign ctx e' FsSkipDir Hc) as [-> _]; [by left|]. by right.
Qed.

Lemma walk_node fuel rel t acc :
  rel ≠ [] → find top (start ++ rel) = Some t → (height t ≤ fuel)%nat → segments_ok (start ++ rel) →
  Z.land (iMode (tinfo t)) ModeSymlink = 0 → room acc →
  triple I (walk fuel (walk_name (start ++ rel)) (ent t) acc)
    (walked acc (collected (length rel) (start ++ rel) t)).
Proof.
  revert rel t acc. induction fuel as [|fuel IH]; intros rel t acc Hrel Hf Hh Hok Hs Hroom.
  { destruct t; simpl in Hh; lia. }
  assert (Hp : Forall plain_segment (start ++ rel)) by by apply segment_ok_plain, Hok.
  cbn [walkDir]. unfold collected. destruct (recursive || (length rel =? 1)%nat) eqn:Hr.
  - apply (triple_bind _ (λ x s, I s ∧ progress acc [tree_entry (start ++ rel) t] x)).
    { eapply triple_conseq; [by apply visit_collected|done|]. by intros r s [? (x & -> & ?)]. }
    intros [[e|] es]; apply triple_pure; intros Hx; cbn [fst snd].
    { rewrite bool_decide_eq_true_2 by by eexists. apply triple_ret. intros s Is. split; [done|].
      eexists. split; [done|]. simpl. rewrite (progress_error _ _ _ _ Hx). simpl.
      by apply (progress_weaken _ [_]). }
    rewrite bool_decide_eq_false_2 by by intros [? ?]. rewrite entry_IsDir_info.
    fold (is_dir t). destruct Hx as (Hroom' & es' & Hes & Heq). simpl in Hroom', Heq. subst es.
    destruct (is_dir t) eqn:Hd; simpl.
    + fold (descend fuel (walk_name (start ++ rel)) (ent t) (acc ++ es')).
      pose proof (find_wf _ _ _ [] Hwf Hf : wf_tree (start ++ rel) t) as [Hnd Hch]%wf_children.
      eapply triple_conseq; [apply (descend_law fuel rel t); [done..| |done]|done|].
      { intros c acc' Hc Hroom''. destruct (Hch c Hc) as (Hok' & Hs' & _).
        rewrite <- app_assoc in Hok' |- *.
        replace (Datatypes.S (length rel)) with (length (rel ++ [tname c])) by (rewrite length_app; simpl; lia).
        apply IH; [by destruct rel| | |done..].
        - rewrite app_assoc. by eapply find_snoc.
        - pose proof (height_child t c Hc). lia. }
      intros r s [? (x & -> & Hx)]. split; [done|]. eexists. split; [done|].
      apply progress_app in Hx. eapply progress_perm; [exact Hx|]. rewrite Hes. simpl. f_equiv.
      destruct recursive eqn:Hrec; simpl.
      * rewrite <- Hrec at 1. rewrite collected_children by auto. by rewrite Hrec.
      * by rewrite collected_deep by (done || by destruct rel).
    + apply triple_ret. intros s Is. split; [done|]. eexists. split; [done|]. split; [done|].
      exists es'. by rewrite andb_false_r.
  - apply orb_false_iff in Hr as [Hr Hl]. apply Nat.eqb_neq in Hl. by apply walk_skipped_node.
Qed.

(** The walk of the directory itself: it is not an entry. *)
Lemma walk_start fuel d acc :
  find top start = Some d → is_dir d = true → (height d ≤ fuel)%nat → room acc →
  triple I (walk fuel (walk_name start) (ent d) acc) (walked acc (listed recursive start d)).
Proof.
  intros Hf Hd Hh Hroom. destruct fuel as [|fuel]; [destruct d; simpl in Hh; lia|]. cbn [walkDir].
  apply (triple_bind _ (λ x s, I s ∧ (x.2 = acc ∧ ∀ e, x.1 = Some e → cancelled ctx e))).
  { unfold list_visit. apply (triple_bind _ (λ x s, I s ∧ ∀ e, x = Some e → cancelled ctx e)).
    { eapply triple_conseq; [apply poll_law|done|]. by intros r s [? (x & -> & ?)]. }
    intros x. apply triple_pure. intros Hx. destruct x as [e|]; [|rewrite decide_True by done];
      apply triple_ret; intros s Is; (split; [done|]); (split; [done|]); simpl; [|done].
    intros e' [= <-]. by apply Hx. }
  intros [[e|] es]; apply triple_pure; intros [Hes Hx]; cbn [fst snd] in *; subst es.
  - rewrite bool_decide_eq_true_2 by by eexists. apply triple_ret. intros s Is. split; [done|].
    eexists. split; [done|]. specialize (Hx e eq_refl). unfold skipped.
    destruct (cancelled_foreign ctx e FsSkipDir Hx) as [-> _]; [by left|]. by right.
  - rewrite bool_decide_eq_false_2 by by intros [? ?]. rewrite entry_IsDir_info. fold (is_dir d).
    rewrite Hd. simpl. fold (descend fuel (walk_name start) (ent d) acc).
    pose proof (find_wf _ _ _ [] Hwf Hf : wf_tree start d) as [Hnd Hch]%wf_children.
    pose proof (descend_law fuel [] d acc) as Hlaw. rewrite app_nil_r in Hlaw.
    rewrite <- (collected_children 0) by auto. apply Hlaw; [done..| |done].
    intros c acc' Hc Hroom'. destruct (Hch c Hc) as (Hok' & Hs' & _).
    apply (walk_node fuel [tname c]); [done| | |done..].
    + by eapply find_snoc.
    + pose proof (height_child d c Hc). lia.
Qed.
End walk.

(** ** The listing *)

Section list.
Context {S : Type} (F : localFile S) (R : rootFS S) (rnd : M S bytes) (mode dirMode policy : Z).
Local Abbreviation a := (mkAdapter F R rnd mode dirMode policy).
Context (top : tree) (I : S → Prop) (Hserves : serves R top I) (Hwf : wf_tree [] top).

(** No link is found on the way to a node of the tree. *)
Lemma check_loop_served p names :
  Forall (λ n, ∃ segs t, n = walk_name segs ∧ find top segs = Some t ∧
                         Z.land (iMode (tinfo t)) ModeSymlink = 0) names →
  triple I (check_loop a p names) (λ r s, I s ∧ r = Ok tt).
Proof.
  induction 1 as [|n names (segs & t & -> & Hf & Hs) _ IH]; simpl; [by apply triple_ret|].
  apply (triple_bind _ (λ x s, I s ∧ x = inl (tinfo t))).
  { eapply triple_attempt; [by apply (serves_Lstat _ _ _ Hserves)|]. intros s. simpl. naive_solver. }
  intros x. apply triple_pure. intros ->. by rewrite (proj2 (symlink_info _ Hs)).
Qed.

Lemma checkSymlinks_served p d :
  find top (segments p) = Some d → p ≠ Root →
  triple I (checkSymlinks a p true) (λ r s, I s ∧ r = Ok tt).
Proof.
  intros Hf Hne. unfold checkSymlinks. destruct (_ || _); [by apply triple_ret|].
  apply check_loop_served, Forall_fmap, Forall_forall. intros i [_ Hi]%elem_of_seq.
  assert (Hv : value p ≠ []) by (intros Hv; apply Hne; by destruct p; simpl in *; subst).
  rewrite <- segments_value in Hi |- * by done. simpl.
  assert (Hne' : take (i + 1) (segments p) ≠ []).
  { destruct (segments p); simpl in *; [lia|]. by rewrite Nat.add_comm. }
  rewrite <- (take_drop (i + 1) (segments p)) in Hf. destruct (find_prefix _ _ _ _ Hf) as [t Ht].
  exists (take (i + 1) (segments p)), t. rewrite walk_name_Join by done. split_and!; [done..|].
  by apply (find_below _ _ _ _ Hwf Ht).
Qed.

Lemma WalkDir_served ctx start options d fuel :
  find top start = Some d → is_dir d = true → Forall plain_segment start → (height d ≤ fuel)%nat →
  triple I (WalkDir (fsStat R) (fsReadDir R) (list_visit a ctx (walk_name start) options) fuel
              (walk_name start) [])
    (λ r s, I s ∧ ∃ x, r = Ok x ∧ progress ctx options [] (listed (Recursive options) start d) x).
Proof.
  intros Hf Hd Hp Hh. unfold WalkDir.
  apply (triple_bind _ (λ x s, I s ∧ x = inl (tinfo d))).
  { eapply triple_attempt; [by apply (serves_Stat _ _ _ Hserves)|]. intros s. simpl. naive_solver. }
  intros x. apply triple_pure. intros ->.
  apply (triple_bind _ (λ x s, I s ∧ progress ctx options [] (listed (Recursive options) start d) x)).
  { eapply triple_conseq; [apply (walk_start F R rnd mode dirMode policy top I); try done|done|].
    - intros ?. unfold len. simpl. lia.
    - by intros r s [? (x & -> & ?)]. }
  intros [[e|] es]; apply triple_pure; intros Hx; cbn [fst snd].
  - assert (identical e FsSkipDir || identical e FsSkipAll = false) as ->.
    { destruct Hx as [[-> _]|Hc]; [done|].
      destruct (cancelled_foreign ctx e FsSkipDir Hc) as [-> _]; [by left|].
      by destruct (cancelled_foreign ctx e FsSkipAll Hc) as [-> _]; [right; left|]. }
    apply triple_ret. intros s Is. eauto.
  - apply triple_ret. intros s Is. eauto.
Qed.

(** Every outcome of the walk, as [List] reports it. *)
Definition listing (ctx : context) (options : ListOptions) (all : list Entry)
    (r : result iterator) : Prop :=
  match r with
  | Ok it => ∃ es, it = newIterator es ∧ Sorted (key_le (λ e, value (ePath e))) es ∧ es ⊆+ all ∧
               len es = if Limit options =? 0 then len all else Z.min (Limit options) (len all)
  | Err e => cancelled ctx e
  | Panic _ => False
  end.

Lemma progress_listing ctx options all x :
  0 ≤ Limit options → progress ctx options [] all x →
  match x.1 with
  | Some err => if Is err LocalListStop then listing ctx options all (Ok (newIterator (SortFunc (λ e, value (ePath e)) x.2)))
                else cancelled ctx err
  | None => listing ctx options all (Ok (newIterator (SortFunc (λ e, value (ePath e)) x.2)))
  end.
Proof.
  intros Hl Hx. unfold listing.
  assert (Hsort : ∀ es, es ⊆+ all → len es = (if Limit options =? 0 then len all else Z.min (Limit options) (len all)) →
    ∃ es', newIterator (SortFunc (λ e, value (ePath e)) es) = newIterator es' ∧
      Sorted (key_le (λ e, value (ePath e))) es' ∧ es' ⊆+ all ∧
      len es' = if Limit options =? 0 then len all else Z.min (Limit options) (len all)).
  { intros es Hes Hlen. eexists. split; [done|]. split; [apply SortFunc_sorted|].
    rewrite SortFunc_perm. by split. }
  unfold progress in Hx. destruct x as [[e|] es]; cbn [fst snd] in *.
  - destruct Hx as [(-> & Hpos & Hlen & es' & Hes & Heq)|Hc].
    + simpl in Heq. subst es'. apply Hsort; [done|]. pose proof (submseteq_length _ _ Hes). unfold len in *.
      destruct (Z.eqb_spec (Limit options) 0); lia.
    + by destruct (cancelled_foreign ctx e LocalListStop Hc) as [_ ->]; [auto|].
  - destruct Hx as (Hroom & es' & Hes & Heq). simpl in Heq. subst es'. apply Hsort; [by rewrite Hes|].
    unfold room, len in *. rewrite Hes in *. destruct (Z.eqb_spec (Limit options) 0); lia.
Qed.

Lemma ListEntries_served ctx p options d fuel :
  find top (segments p) = Some d → is_dir d = true → (height d ≤ fuel)%nat → 0 ≤ Limit options →
  triple I (ListEntries a fuel ctx p options)
    (λ r s, I s ∧ listing ctx options (listed (Recursive options) (segments p) d) r).
Proof.
  intros Hf Hd Hh Hl. unfold ListEntries.
  apply (triple_bind _ (λ _, I)).
  { intros t s Is. unfold run_result, run_state, check_ctx.
    destruct (ctx_Err ctx t) eqn:He; simpl; [split; [done|by exists t]|done]. }
  intros _. rewrite (proj2 (Z.ltb_ge _ _) Hl).
  assert (Hstart : (if decide (value p = []) then dot else value p) = walk_name (segments p) ∧
                   Forall plain_segment (segments p)).
  { destruct (decide (segments p = [])) as [Hn|Hn].
    - rewrite Hn. apply segments_nil in Hn as ->. by split; [|constructor].
    - split; [|by apply segment_ok_plain, (find_below _ _ _ [] Hwf Hf Hn)].
      rewrite decide_False by (intros Hv; apply Hn, segments_nil; by destruct p; simpl in *; subst).
      rewrite walk_name_Join by done. by rewrite <- (ofSegments_segments p) at 1. }
  destruct Hstart as [-> Hp].
  apply (triple_bind _ (λ _, I)).
  { destruct (IsRoot p) eqn:Hroot; [by apply triple_ret|]. simpl.
    eapply triple_conseq; [eapply checkSymlinks_served; [done|]|done|by intros r s [? ->]].
    intros ->. done. }
  intros _. apply (triple_bind _ (λ x s, I s ∧
    progress ctx options [] (listed (Recursive options) (segments p) d) x)).
  { eapply triple_conseq; [by apply WalkDir_served|done|]. by intros r s [? (x & -> & ?)]. }
  intros x. apply triple_pure. intros Hx%progress_listing; [|done].
  destruct x as [[e|] es]; cbn [fst snd] in *; [|by apply triple_ret].
  destruct (Is e LocalListStop); [by apply triple_ret|]. apply triple_throw. intros s Is. split; [done|].
  unfold mapError. by destruct (cancelled_foreign ctx e FsErrNotExist Hx) as [_ ->]; [auto|].
Qed.
End list.

(** C22: A listing is complete, for every system that serves a well-formed tree: files
    and directories without symbolic links, whose names are segments of logical paths
    (so no backslash and no control character) and distinct in each directory, and every
    directory of which can be read.  Over such a tree [List] of a directory
    returns, sorted by path, entries that are there and as many as there are -- the
    direct children, or with [Recursive] everything below -- capped by a positive
    [Limit]; with no limit these are all the entries.  It fails only with the error of
    a context that was done, and a bound on the depth of the tree bounds the walk. *)
Theorem local_List_complete {S} (F : localFile S) R rnd mode dirMode policy top (I : S → Prop)
    ctx p options d fuel t s :
  serves R top I → wf_tree [] top → I s →
  find top (segments p) = Some d → is_dir d = true →
  (height d ≤ fuel)%nat → 0 ≤ Limit options →
  let a := mkAdapter F R rnd mode dirMode policy in
  let all := listed (Recursive options) (segments p) d in
  let r := run_result (ListEntries a fuel ctx p options) t s in
  listing ctx options all r ∧
  (∀ es, r = Ok (newIterator es) → Limit options = 0 → es ≡ₚ all).
Proof.
  intros Hserves Hwf Is Hf Hd Hh Hl a all r.
  destruct (ListEntries_served F R rnd mode dirMode policy top I Hserves Hwf ctx p options d fuel Hf Hd Hh Hl
    t s Is) as [_ Hr]. fold a all r in Hr. split; [done|].
  intros es He H0. rewrite He in Hr. destruct Hr as (es' & [= <-] & _ & Hsub & Hlen).
  rewrite H0 in Hlen. simpl in Hlen. apply submseteq_length_Permutation; [done|]. unfold len in Hlen. lia.
Qed.
