(* ===== verification/LocalMem.v ===== *)
(** * A system that meets [OsRoot], and one that serves a tree

    A flat store of files in memory behind the interface of [LocalOS.v], whose
    exclusive rename is [osRoot.RenameNoReplace] over a native call on directory
    handles, and a root that answers from a tree; the properties of the local adapter
    at them. *)

From S2P Require Import Prelude GoStrings Errors Effects Hoare Paths Capability Contracts Iterator Digest FileInfo Remote RemoteNames Publish Local LocalOS LocalWrite LocalRead LocalList.

(** Files have one name: a link copies. *)
Record os := mkOs { ofiles : gmap bytes bytes; ohandles : gmap handle (bytes * Z) }.

Definition not_exist : error := Sentinel FsErrNotExist.
Definition exist : error := Sentinel FsErrExist.

Definition o_stat (n : bytes) : M os FileInfo :=
  let! s := get in
  match ofiles s !! n with Some c => ret (mkFileInfo (path_Base n) (len c) 0x180 0) | None => throw not_exist end.

(** A new handle on [n]; a directory is opened the same way. *)
Definition o_handle (n : bytes) : M os handle :=
  let! s := get in
  let fd := fresh (dom (ohandles s)) in
  do! put (mkOs (ofiles s) (<[fd := (n, 0)]> (ohandles s))) in ret fd.

Definition o_create (n : bytes) : M os handle :=
  let! s := get in
  match ofiles s !! n with
  | Some _ => throw exist
  | None => do! put (mkOs (<[n := []]> (ofiles s)) (ohandles s)) in o_handle n
  end.

Definition o_close (fd : handle) : M os unit :=
  let! s := get in put (mkOs (ofiles s) (delete fd (ohandles s))).

Definition o_rename (old new : bytes) : M os unit :=
  let! s := get in
  match ofiles s !! old with
  | None => throw not_exist
  | Some c => put (mkOs (<[new := c]> (delete old (ofiles s))) (ohandles s))
  end.

Definition o_link (old new : bytes) : M os unit :=
  let! s := get in
  match ofiles s !! old, ofiles s !! new with
  | None, _ => throw not_exist
  | _, Some _ => throw exist
  | Some c, None => put (mkOs (<[new := c]> (ofiles s)) (ohandles s))
  end.

(** [renameat2] with [RENAME_NOREPLACE]. *)
Definition name_at (directory leaf : bytes) : bytes :=
  if decide (directory = dot) then leaf else directory ++ slash :: leaf.

Definition o_renameat (fd : handle) (leaf : bytes) (fd' : handle) (leaf' : bytes) : M os unit :=
  let! s := get in
  match ohandles s !! fd, ohandles s !! fd' with
  | Some (d, _), Some (d', _) =>
      if bool_decide (is_Some (ofiles s !! name_at d' leaf')) then throw exist
      else o_rename (name_at d leaf) (name_at d' leaf')
  | _, _ => throw (Sentinel FsErrClosed)
  end.

Definition o_write (fd : handle) (b : bytes) : M os unit :=
  let! s := get in
  match ohandles s !! fd with
  | None => throw (Sentinel FsErrClosed)
  | Some (n, off) =>
      let c := default [] (ofiles s !! n) in
      let c' := take (Z.to_nat off) c ++ b ++ drop (Z.to_nat off + length b) c in
      put (mkOs (<[n := c']> (ofiles s)) (<[fd := (n, off + len b)]> (ohandles s)))
  end.

Definition o_read (fd : handle) (count : Z) : M os (bytes * option error) :=
  let! s := get in
  match ohandles s !! fd with
  | None => throw (Sentinel FsErrClosed)
  | Some (n, off) =>
      let chunk := take (Z.to_nat count) (drop (Z.to_nat off) (default [] (ofiles s !! n))) in
      do! put (mkOs (ofiles s) (<[fd := (n, off + len chunk)]> (ohandles s))) in
      ret (chunk, match chunk with [] => Some (Sentinel EOF) | _ => None end)
  end.

Definition o_files : localFile os := {|
  fRead := o_read;
  fWrite := o_write;
  fSeek fd to := let! s := get in
    put (mkOs (ofiles s) (alter (λ x, (x.1, to)) fd (ohandles s)));
  fClose := o_close;
  fStat fd := let! s := get in
    match ohandles s !! fd with Some (n, _) => o_stat n | None => throw (Sentinel FsErrClosed) end;
  fSync _ := ret tt;
|}.

Definition o_root : rootFS os := {|
  rOpen n := let! s := get in
    match ofiles s !! n with Some _ => o_handle n | None => throw not_exist end;
  rOpenFile n _ _ := o_create n;
  rStat := o_stat;
  rLstat := o_stat;
  rMkdirAll _ _ := ret tt;
  rRemove n := let! s := get in put (mkOs (delete n (ofiles s)) (ohandles s));
  rLink := o_link;
  rRename := o_rename;
  rRenameNoReplace := osRoot_RenameNoReplace o_handle o_close o_renameat;
  rClose := ret tt;
  fsStat := o_stat;
  fsReadDir _ := ret [];
  fsInfo n _ := o_stat n;
|}.

Definition o_random : M os bytes := ret (replicate 16 Ascii.zero).

Lemma name_at_split n : clean_name n → name_at (path_Dir n) (path_Base n) = n.
Proof.
  intros (segs & Hne & Hp & ->). destruct segs as [|seg segs _] using rev_ind; [done|].
  rewrite path_Dir_plain, path_Base_plain by done. unfold name_at.
  destruct segs as [|x segs]; [done|]. apply Forall_app in Hp as [Hp Hs].
  rewrite decide_False; [by rewrite Join_app|].
  intros Heq. pose proof (walk_name_inj (x :: segs) [] Hp (Forall_nil_2 _) Heq). done.
Qed.

Lemma fresh_dom (h : gmap handle (bytes * Z)) : h !! fresh (dom h) = None.
Proof. apply not_elem_of_dom, is_fresh. Qed.

(** Evaluate a law at a state: split on what the call does. *)
Local Ltac law :=
  intros; unfold keeps, triple, at_state; intros; destruct_and?; subst;
  unfold run_result, run_state, o_root, o_files, o_handle, o_create, o_close, o_rename, o_link,
    o_renameat, o_stat, o_random, bind, get, put, ret, throw, renamed in *; simpl in *;
  repeat (case_match; simplify_eq/=); split_and?; try done; naive_solver (eauto using fresh_dom).

Lemma native_laws_mem : native_laws ofiles ohandles o_handle o_close o_renameat.
Proof.
  split; [law|law|]. intros fd fd' old new f h Ho Hn Hfd Hfd' Hold t s [<- <-].
  unfold run_result, run_state, o_renameat, bind, get. cbn beta iota. rewrite Hfd, Hfd'.
  rewrite !name_at_split by done. case_bool_decide as E; [by split; [|left]|].
  apply eq_None_not_Some in E. destruct Hold as [c Hc]. unfold o_rename, bind, get. rewrite Hc. simpl.
  unfold renamed. split; [done|]. split; [done|]. by exists c.
Qed.

#[export] Program Instance mem_OsRoot : OsRoot o_files o_root o_random := {|
  files := ofiles;
  handles := ohandles;
  sole _ _ := True;
|}.
Solve Obligations with try law.
Next Obligation.
  intros fd b n c f h Hfd Hn t s [[<- <-] _].
  unfold run_result, run_state, fWrite, o_files, o_write, bind, get, put.
  rewrite Hfd. cbn beta iota. rewrite Hn. simpl. unfold len, at_state.
  rewrite Nat2Z.id, firstn_all, drop_ge by lia.
  rewrite app_nil_r, length_app, Nat2Z.inj_add. auto.
Qed.
Next Obligation.
  intros fd count n off c f h Hfd Hn Hoff Hcount t s [<- <-].
  unfold run_result, run_state, fRead, o_files, o_read, bind, get, put. rewrite Hfd. simpl. rewrite Hn. simpl.
  set (chunk := take _ _). exists (drop (Z.to_nat count) (drop (Z.to_nat off) c)).
  split_and!; [symmetry; apply take_drop| |done|].
  - unfold chunk, len. rewrite length_take. lia.
  - destruct chunk eqn:E; [|done]. unfold chunk in E.
    destruct (drop (Z.to_nat off) c); [apply drop_nil|]. by destruct (Z.to_nat count) eqn:Hc; [lia|].
Qed.
Next Obligation.
  intros fd count n t s _. split; [done|]. unfold run_result. simpl. unfold o_read, bind, get.
  by destruct (ohandles s !! fd) as [[]|].
Qed.
Next Obligation.
  intros fd to n off f h Hfd t s [<- <-]. split; [done|]. simpl. apply map_eq. intros i.
  rewrite lookup_insert. case_decide as E; [subst; by rewrite lookup_alter_eq, Hfd|by rewrite lookup_alter_ne].
Qed.
Next Obligation.
  intros old new f h several [c Hc] t s [[<- <-] _]. unfold run_result, run_state. simpl.
  unfold o_rename, bind, get, put. rewrite Hc. split; [done|]. left. by exists c.
Qed.
Next Obligation. intros. apply osRoot_rename_law; [apply native_laws_mem|done..]. Qed.

(** ** A root that answers from a tree *)

Definition unwalk_name (n : bytes) : list bytes := if decide (n = dot) then [] else Split n slash.

Definition tree_stat {S} (top : tree) (n : bytes) : M S FileInfo :=
  match find top (unwalk_name n) with Some t => ret (tinfo t) | None => throw not_exist end.

(** [R], reading its directories from [top]. *)
Definition tree_root {S} (R : rootFS S) (top : tree) : rootFS S :=
  mkRootFS S (rOpen R) (rOpenFile R) (rStat R) (tree_stat top) (rMkdirAll R) (rRemove R) (rLink R)
    (rRename R) (rRenameNoReplace R) (rClose R) (tree_stat top)
    (λ n, match find top (unwalk_name n) with
          | Some t => ret ((FileInfoToDirEntry ∘ tinfo) <$> tchildren t)
          | None => throw not_exist
          end)
    (λ n _, tree_stat top n).

Lemma unwalk_walk segs : Forall plain_segment segs → unwalk_name (walk_name segs) = segs.
Proof.
  intros Hp. unfold unwalk_name. case_decide as Hd.
  - symmetry. by apply walk_name_inj; [|constructor|].
  - destruct segs as [|x segs]; [done|]. rewrite walk_name_Join by done.
    apply Split_Join; [done|by apply plain_no_slash].
Qed.

Lemma tree_root_serves {S} (R : rootFS S) top :
  wf_tree [] top → serves (tree_root R top) top (λ _, True).
Proof.
  intros Hwf. assert (Hname : ∀ segs t, find top segs = Some t → unwalk_name (walk_name segs) = segs).
  { intros segs t Hf. destruct (decide (segs = [])) as [->|Hne]; [done|].
    apply unwalk_walk, segment_ok_plain. by apply (find_below _ _ _ [] Hwf Hf). }
  split; intros segs t; intros; intros time s _; cbn; unfold tree_stat;
    rewrite (Hname _ _ ltac:(eassumption)); by simplify_option_eq.
Qed.

(** ** The properties at these systems *)

Definition demo_os : os :=
  mkOs {[bs "docs/a.txt" := bs "old"; bs "docs/b.txt" := bs "other"]} ∅.
Definition path_a : Path := mkPath (bs "docs/a.txt").
Definition path_b : Path := mkPath (bs "docs/b.txt").
Definition path_c : Path := mkPath (bs "docs/c.txt").
Definition demo_adapter : Adapter os := mkAdapter o_files o_root o_random 0x180 0x1c0 DenySymlinks.

(** A create-only write to a free name succeeds, and its effect is the theorem's. *)
Lemma local_Write_atomic_witness :
  let write := Write demo_adapter 3 list_Read Background path_c
                 [(bs "hel", None); (bs "lo", None)] (mkWriteOptions [] None [] true) in
  is_ok (run_result write 0 demo_os) = true ∧
  ofiles (run_state write 0 demo_os) = <[value path_c := bs "hello"]> (ofiles demo_os) ∧
  ohandles (run_state write 0 demo_os) = ∅.
Proof.
  intros write.
  assert (Hok : is_ok (run_result write 0 demo_os) = true) by (vm_compute; reflexivity).
  split; [exact Hok|].
  pose proof (local_Write_atomic o_files o_root o_random 0x180 0x1c0 DenySymlinks Background path_c
    [(bs "hel", None); (bs "lo", None)] (mkWriteOptions [] None [] true) 0 demo_os) as H.
  change (Write _ _ _ _ _ _ _) with write in H. unfold run_result, run_state in *.
  destruct (write 0 demo_os) as [[m|e|msg] [t' s']]; [|discriminate Hok..].
  destruct H as (Hh & [(content & Hc & Hf) _] & _). injection Hc as <-. split; [exact Hf|exact Hh].
Defined.

Lemma demo_a : files demo_os !! value path_a = Some (bs "old").
Proof. vm_compute. reflexivity. Qed.
Lemma demo_b : files demo_os !! value path_b = Some (bs "other").
Proof. vm_compute. reflexivity. Qed.

(** A copy to a free name succeeds and its effect is the theorem's. *)
Lemma local_Copy_exact_witness :
  let copy := Copy demo_adapter 4 Background path_a path_c (mkCopyOptions false) in
  is_ok (run_result copy 0 demo_os) = true ∧
  ofiles (run_state copy 0 demo_os) = <[value path_c := bs "old"]> (ofiles demo_os) ∧
  ohandles (run_state copy 0 demo_os) = ∅.
Proof.
  intros copy.
  assert (Hok : is_ok (run_result copy 0 demo_os) = true) by (vm_compute; reflexivity).
  split; [exact Hok|].
  pose proof (local_Copy_exact o_files o_root o_random 0x180 0x1c0 DenySymlinks Background path_a path_c
    (mkCopyOptions false) 4 0 demo_os (bs "old") demo_a (le_n 4)) as H.
  change (Copy _ _ _ _ _ _) with copy in H. unfold run_result, run_state in *.
  destruct (copy 0 demo_os) as [[m|e|msg] [t' s']]; [|discriminate Hok..].
  destruct H as (Hh & Hf & _). split; [exact Hf|exact Hh].
Defined.

(** Three bytes from the second on, of a file of five. *)
Lemma local_range_exact_witness :
  let read := read_range (F:=o_files) (R:=o_root) (rnd:=o_random) 0x180 0x1c0 DenySymlinks 6 Background
                path_b (mkByteRange 1 3) in
  run_result read 0 demo_os = Ok (bs "the") ∧ ohandles (run_state read 0 demo_os) = ∅.
Proof.
  intros read.
  assert (Hok : run_result read 0 demo_os = Ok (bs "the")) by (vm_compute; reflexivity).
  split; [exact Hok|].
  pose proof (local_range_exact o_files o_root o_random 0x180 0x1c0 DenySymlinks Background path_b
    (mkByteRange 1 3) 6 0 demo_os (bs "other") demo_b
    ltac:(vm_compute; split; discriminate) (le_n 6)) as H.
  change (read_range _ _ _ _ _ _ _) with read in H. unfold run_result, run_state in *.
  destruct (read 0 demo_os) as [r [t' s']]. destruct H as (_ & Hh & _). exact Hh.
Defined.

Lemma local_Checksum_exact_witness :
  let sum := ChecksumOf demo_adapter 4 Background path_a ChecksumSHA256 in
  is_ok (run_result sum 0 demo_os) = true ∧
  run_result sum 0 demo_os = Ok (mkChecksum ChecksumSHA256 (EncodeToString (sha256_Sum256 (bs "old")))).
Proof.
  intros sum.
  assert (Hok : is_ok (run_result sum 0 demo_os) = true) by (vm_compute; reflexivity).
  split; [exact Hok|].
  pose proof (local_Checksum_exact o_files o_root o_random 0x180 0x1c0 DenySymlinks Background path_a
    ChecksumSHA256 4 0 demo_os (bs "old") demo_a (le_n 4)) as H.
  change (ChecksumOf _ _ _ _ _) with sum in H. unfold run_result, run_state in *.
  destruct (sum 0 demo_os) as [[v|e|msg] [t' s']]; [|discriminate Hok..].
  destruct H as (_ & _ & s & Hs & ->). injection Hs as <-. reflexivity.
Defined.

(** A move to a taken name: refused, and both files are kept. *)
Lemma local_Move_exclusive_witness :
  let move := Move demo_adapter Background path_a path_b (mkMoveOptions false) in
  is_ok (run_result move 0 demo_os) = false ∧
  ofiles (run_state move 0 demo_os) !! value path_b = Some (bs "other") ∧
  ohandles (run_state move 0 demo_os) = ∅.
Proof.
  intros move. split; [vm_compute; reflexivity|].
  pose proof (local_Move_exclusive o_files o_root o_random 0x180 0x1c0 DenySymlinks Background path_a
    path_b (mkMoveOptions false) 0 demo_os (bs "old") ltac:(decide_now) ltac:(decide_now)
    ltac:(discriminate) ltac:(discriminate) ltac:(vm_compute; reflexivity)) as H.
  change (Move _ _ _ _ _) with move in H. unfold run_result, run_state in *.
  destruct (move 0 demo_os) as [r [t' s']]. destruct H as (Hh & _ & _ & Hd).
  split; [|exact Hh]. apply Hd; vm_compute; reflexivity.
Defined.

Definition leaf (n : String.string) : tree := Tree (mkFileInfo (bs n) 3 0x180 0) [].
Definition folder (n : String.string) (children : list tree) : tree :=
  Tree (mkFileInfo (bs n) 0 (Z.lor ModeDir 0x1c0) 0) children.
Definition demo_tree : tree :=
  folder "." [leaf "z.txt"; folder "docs" [leaf "b.txt"; folder "old" [leaf ".x"]; leaf "a.txt"]].

(** The whole subtree, in order. *)
Lemma local_List_complete_witness :
  let a := mkAdapter o_files (tree_root o_root demo_tree) o_random 0x180 0x1c0 DenySymlinks in
  let list := ListEntries a 4 Background (mkPath (bs "docs")) (mkListOptions true 0) in
  match run_result list 0 demo_os with
  | Ok it => ∃ es, it = newIterator es ∧
      (value ∘ ePath) <$> es = [bs "docs/a.txt"; bs "docs/b.txt"; bs "docs/old"; bs "docs/old/.x"] ∧
      es ≡ₚ listed true [bs "docs"] (folder "docs" [leaf "b.txt"; folder "old" [leaf ".x"]; leaf "a.txt"])
  | _ => False
  end.
Proof.
  intros a list.
  assert (Hwf : wf_tree [] demo_tree).
  { cbn [wf_tree demo_tree folder leaf foldr].
    repeat lazymatch goal with |- _ ∧ _ => split | |- True => exact I end; decide_now. }
  destruct (local_List_complete o_files (tree_root o_root demo_tree) o_random 0x180 0x1c0 DenySymlinks
    demo_tree (λ _, True) Background (mkPath (bs "docs")) (mkListOptions true 0)
    (folder "docs" [leaf "b.txt"; folder "old" [leaf ".x"]; leaf "a.txt"]) 4 0 demo_os
    (tree_root_serves _ _ Hwf) Hwf I eq_refl eq_refl ltac:(vm_compute; lia) ltac:(vm_compute; discriminate))
    as [_ H].
  change (run_result _ 0 demo_os) with (run_result list 0 demo_os) in H.
  set (r := run_result list 0 demo_os) in *.
  assert (Hr : match r with
    | Ok it => it = newIterator (entries it) ∧ (value ∘ ePath) <$> entries it =
                 [bs "docs/a.txt"; bs "docs/b.txt"; bs "docs/old"; bs "docs/old/.x"]
    | _ => False end) by (vm_compute; split; reflexivity).
  clearbody r. destruct r as [it|e|msg]; [|destruct Hr..]. destruct Hr as [Hit Hes].
  exists (entries it). split; [exact Hit|]. split; [exact Hes|].
  apply H; [f_equal; exact Hit|reflexivity].
Defined.

(** A system that counts its open roots. *)
Definition demo_system : system Z := {|
  sysMkdirAll _ _ := ret tt;
  sysOpenRoot _ := let! n := get in
    do! put (n + 1) in
    ret (mkRootFS Z (λ _, throw not_exist) (λ _ _ _, throw not_exist) (λ _, throw not_exist)
      (λ _, throw not_exist) (λ _ _, ret tt) (λ _, ret tt) (λ _ _, ret tt) (λ _ _, ret tt) (λ _ _, ret tt)
      (let! n := get in put (n - 1)) (λ _, throw not_exist) (λ _, ret []) (λ _ _, throw not_exist));
|}.

(** Cancelled after the root was opened: it is closed again. *)
Lemma local_Open_owns_witness :
  let F := mkLocalFile Z (λ _ _, ret ([], None)) (λ _ _, ret tt) (λ _ _, ret tt) (λ _, ret tt)
             (λ _, throw not_exist) (λ _, ret tt) in
  let open := openAdapter F (ret []) (Some (DoneAt 3 CtxCanceled)) (bs "/data") demo_system
                [WithFileMode 0x1a4] in
  is_ok (run_result open 0 7) = false ∧ run_state open 0 7 = 7.
Proof.
  intros F open. split; [vm_compute; reflexivity|].
  assert (L : system_laws demo_system id).
  { split; [intros root mode n t s Hs; split; [exact Hs|exact I]|].
    intros root n t s Hs. cbn. split; [unfold id in *; lia|].
    intros m t' s' Hs'. cbn. unfold id in *. split; [lia|exact I]. }
  pose proof (local_Open_owns demo_system id F (ret []) (Some (DoneAt 3 CtxCanceled)) (bs "/data")
    [WithFileMode 0x1a4] 0 7 L) as H.
  assert (Hr : is_ok (run_result open 0 7) = false) by (vm_compute; reflexivity).
  change (openAdapter _ _ _ _ _ _) with open in H. unfold run_result, run_state in *.
  destruct (open 0 7) as [[a|e|msg] [t' s']]; [discriminate Hr| |destruct H as [[] _]].
  destruct H as [H _]. exact H.
Defined.

(** ** Two listings that go wrong *)

(** [R], with one directory that cannot be read. *)
Definition locked_root {S} (R : rootFS S) (locked : bytes) : rootFS S :=
  mkRootFS S (rOpen R) (rOpenFile R) (rStat R) (rLstat R) (rMkdirAll R) (rRemove R) (rLink R)
    (rRename R) (rRenameNoReplace R) (rClose R) (fsStat R)
    (λ n, if decide (n = locked) then throw (Foreign 13 []) else fsReadDir R n) (fsInfo R).

(** A flat listing of [docs] fails on a subdirectory it does not list. *)
Lemma flat_List_reads_children :
  let a := mkAdapter o_files (locked_root (tree_root o_root demo_tree) (bs "docs/old")) o_random
             0x180 0x1c0 DenySymlinks in
  run_result (ListEntries a 4 Background (mkPath (bs "docs")) (mkListOptions false 0)) 0 demo_os =
    Err (Foreign 13 []).
Proof. vm_compute. reflexivity. Qed.

(** A file name with a backslash is listed under another path. *)
Lemma backslash_List_ambiguous :
  let a := mkAdapter o_files (tree_root o_root (folder "." [leaf "a\b"])) o_random 0x180 0x1c0 DenySymlinks in
  result_map (λ it, (value ∘ ePath) <$> entries it)
    (run_result (ListEntries a 4 Background Root (mkListOptions false 0)) 0 demo_os) = Ok [bs "a/b"].
Proof. vm_compute. reflexivity. Qed.
