(* ===== verification/ConformanceDirs.v ===== *)
(** * Directories of a flat store

    The systems in memory keep files by their full names; here the names imply the
    directories, so that they can be listed. *)

From S2P Require Import Prelude GoStrings FileInfo.

(** What lies directly in [dir] (a path with a trailing slash, or nothing for the
    top): each name once, with its size and whether it is a directory. *)
Definition child_of (dir : bytes) (x : bytes * bytes) : list (bytes * Z * bool) :=
  match CutPrefix x.1 dir with
  | None => []
  | Some rest =>
      match Cut rest slash with
      | (child, _, true) => [(child, 0, true)]
      | (child, _, false) => [(child, len x.2, false)]
      end
  end.

Definition children (dir : bytes) (files : gmap bytes bytes) : list (bytes * Z * bool) :=
  remove_dups (flat_map (child_of dir) (map_to_list files)).

Definition child_info (x : bytes * Z * bool) : FileInfo :=
  mkFileInfo x.1.1 x.1.2 (if x.2 then Z.lor ModeDir 0x1c0 else 0x180) 0.

(** A file, or a directory if something lies in it. *)
Definition stat_of (name dir : bytes) (files : gmap bytes bytes) : option FileInfo :=
  match files !! name with
  | Some c => Some (child_info (path_Base name, len c, false))
  | None =>
      if existsb (λ x, HasPrefix x.1 dir) (map_to_list files)
      then Some (child_info (path_Base name, 0, true)) else None
  end.
