(* ===== verification/ConformanceLocal.v ===== *)
(** * The conformance suite against the local adapter

    The local adapter over a system in memory runs the whole suite.  The run is
    evaluated, so it also tests the model of the adapter with the suite the
    repository runs on the code. *)

From S2P Require Import Prelude GoStrings Errors Effects Paths Capability Contracts Iterator Digest FileInfo Remote RemoteNames Interfaces Conformance ConformanceDirs Local LocalMem.

Definition dir_prefix (n : bytes) : bytes := if decide (n = dot) then [] else n ++ [slash].

Definition dir_stat (n : bytes) : M os FileInfo :=
  let! s := get in
  if decide (n = dot) then ret (child_info (n, 0, true))
  else match stat_of n (dir_prefix n) (ofiles s) with
       | Some info => ret info
       | None => throw not_exist
       end.

(** [o_root] with its directories. *)
Definition dir_root : rootFS os :=
  mkRootFS os (rOpen o_root) (rOpenFile o_root) dir_stat dir_stat (rMkdirAll o_root) (rRemove o_root)
    (rLink o_root) (rRename o_root) (rRenameNoReplace o_root) (rClose o_root) dir_stat
    (λ n, let! s := get in
      ret ((λ x, FileInfoToDirEntry (child_info x)) <$> children (dir_prefix n) (ofiles s)))
    (λ n _, dir_stat n).

Definition local_adapter : Adapter os := mkAdapter o_files dir_root o_random 0x180 0x1c0 DenySymlinks.

(** The two [io.ReadCloser]s of the package. *)
#[export] Instance local_stream_ReadCloser : ReadCloser os contextReadCloser := {|
  rc_Read := stream_Read o_files;
  rc_Close r :=
    let! x := attempt (stream_Close o_files r) in
    ret (match x with inl _ => None | inr err => Some err end, r);
|}.

#[export] Instance local_limited_ReadCloser : ReadCloser os (contextReadCloser * Z) := {|
  rc_Read := limited_Read o_files;
  rc_Close r :=
    let! x := attempt (limited_Close o_files r) in
    ret (match x with inl _ => None | inr err => Some err end, r);
|}.

(** [fuel] bounds reads and depths. *)
Definition local_filesystem (fuel : nat)
    : Filesystem os (contextReadCloser + contextReadCloser * Z) (upload os) Iterator.iterator :=
  let a := local_adapter in
  mkFilesystem (mkCapabilityReporter Local.Capabilities)
    (mkReader (λ ctx path, let! x := Open a ctx path in ret (inl x)))
    (mkRangeReader (λ ctx path r, let! x := OpenRange a ctx path r in ret (inr x)))
    (mkWriter (λ ctx path source options, Write a fuel list_Read ctx path source options))
    (mkWriteOpener (λ ctx path options, open_upload (OpenWriter a ctx path options)))
    (mkDeleter (Delete a)) (mkLister (ListEntries a fuel)) (mkStatter (Stat a)) (mkCopier (Copy a fuel))
    (mkMover (Move a)) (mkMetadataSetter SetMetadata) (mkChecksummer (ChecksumOf a fuel))
    (mkVisibilityManager VisibilityOf SetVisibility).

Definition local_fresh : os := mkOs ∅ ∅.
(** The local adapter conforms. *)
Lemma local_run : TestFilesystem (local_filesystem 10) 10 10 local_fresh 0 = [].
Proof. vm_compute. reflexivity. Qed.
