(* ===== verification/ConformanceSftp.v ===== *)
(** * The conformance suite against the SFTP adapter

    As in [ConformanceLocal.v], with a server in memory whose files imply the
    directories; once with the atomic rename extension and once without it. *)

From S2P Require Import Prelude GoStrings Errors Effects Paths Capability Contracts Iterator Digest FileInfo Remote RemoteNames Interfaces Conformance ConformanceDirs Sftp SftpMem.

Definition dir_stat (n : bytes) : M server FileInfo :=
  let! s := get in
  match stat_of n (n ++ [slash]) (sfiles s) with
  | Some info => ret info
  | None => throw not_exist
  end.

(** [sessions] with its directories, with or without the extension. *)
Definition dir_sessions (extension : bool) : remoteSession server := {|
  rOpen := rOpen sessions;
  rOpenFile := rOpenFile sessions;
  rStat _ := dir_stat;
  rLstat _ := dir_stat;
  rReadDirContext _ _ d := let! s := get in ret (child_info <$> children (d ++ [slash]) (sfiles s));
  rRemove := rRemove sessions;
  rMkdirAll := rMkdirAll sessions;
  rRename := rRename sessions;
  rPosixRename := rPosixRename sessions;
  rHasExtension _ n := ret (extension && bool_decide (n = posixRenameExtension));
  rClose := rClose sessions;
|}.

#[export] Instance sftp_stream_ReadCloser : ReadCloser (sftp_world server) contextReadCloser := {|
  rc_Read := stream_Read remote_files;
  rc_Close := stream_Close remote_files;
|}.

#[export] Instance sftp_limited_ReadCloser : ReadCloser (sftp_world server) (contextReadCloser * Z) := {|
  rc_Read := limited_Read remote_files;
  rc_Close := limited_Close remote_files;
|}.

Definition sftp_filesystem (a : Adapter server) (fuel : nat)
    : Filesystem (sftp_world server) (contextReadCloser + contextReadCloser * Z)
        (upload (sftp_world server)) Iterator.iterator :=
  mkFilesystem (mkCapabilityReporter (Ok (Capabilities a)))
    (mkReader (λ ctx path, let! x := Open a no_error ctx path in ret (inl x)))
    (mkRangeReader (λ ctx path r, let! x := OpenRange a no_error ctx path r in ret (inr x)))
    (mkWriter (λ ctx path source options,
       Write a no_error no_error fuel list_Read ctx path source options))
    (mkWriteOpener (λ ctx path options, open_upload (OpenWriter a no_error no_error ctx path options)))
    (mkDeleter (Delete a)) (mkLister (ListEntries a no_error)) (mkStatter (Stat a no_error))
    (mkCopier (Copy a no_error no_error fuel)) (mkMover (Move a)) (mkMetadataSetter SetMetadata)
    (mkChecksummer (ChecksumOf a no_error fuel)) (mkVisibilityManager VisibilityOf SetVisibility).

(** [TestFilesystem] on an adapter dialled by [newAdapter]: the failed subtests. *)
Definition sftp_suite (extension : bool) : result (list String.string) :=
  match newAdapter remote_files (dir_sessions extension) s_random (Some Background) (Some s_dial)
          (bs "/srv") 100 0 (mkServer ∅ ∅ ∅) with
  | (Ok (a, ss), (t, s)) => Ok (TestFilesystem (sftp_filesystem a 10) 10 10 (new_world ss s) t)
  | (Err e, _) => Err e
  | (Panic msg, _) => Panic msg
  end.

Lemma sftp_run : sftp_suite true = Ok [].
Proof. vm_compute. reflexivity. Qed.

Lemma sftp_run_no_extension : sftp_suite false = Ok [].
Proof. vm_compute. reflexivity. Qed.
